(* ===== verification/_CoqProject ===== *)
-Q . S2P
Prelude.v
Syntax.v
Errors.v
TypeNames.v
Unicode.v
Utilities.v
Lexer.v
Parser.v
Crossref.v
Operations.v
Types.v
Semantics.v
TypeSound.v
TypeExplore.v
Machine.v
Codegen.v
BodyCode.v
Optimizer.v
Folding.v
Unused.v
Rounds.v
Labels.v
Linking.v
ProgramCode.v
TypedCode.v
Conditions.v
Debug.v
Process.v
Pipes.v
Driver.v
Definitions.v
Arguments.v
DriverFacts.v
Main.v
BackEnd.v
OptimizedCode.v
Compile.v
