(* ===== verification/Prelude.v ===== *)
(** * stacky: a verification library for the stacky compiler

    stacky is a compiler of a concatenative (stack) language to x86-64 assembly
    for Linux, written in C++ (src/src).  [main] reads the command line, lexes
    the source files, replaces includes, registers definitions, translates
    tokens into operations with resolved jumps, checks types, optimizes,
    generates assembly, and runs nasm, ld and, on demand, the program.

    ** The files and what they model

    - Prelude (this file): scopes, hint databases, tactics, machine integers
      (wrap-around to 8, 32 and 64 bits as functions on [Z]), characters.
    - Syntax: the data of stacky.hh (tokens, types, stack effects, operations,
      words, [Generation_Info]).  A pointer to a word is its name in the table.
    - Errors: errors.hh.  Every pass is a computation [comp A]: the reports it
      makes and how it ends: a value, [exit], an exception, undefined behaviour
      of C++ (a read outside of an array, an undefined shift), or no more fuel.
    - TypeNames, Types: types.cc.  Names of types; the matching of stack
      effects, output verifiers and the exploration of a body.
    - Unicode (unicode.cc), Utilities (utilities.cc), Lexer (lexer.cc).
    - Parser, Crossref, Operations: parser.cc.  String literals, includes and
      definitions; the resolution of jumps; the translation of tokens.
    - Semantics: the reference semantics of operations, on a stack of 64-bit
      numbers with frames of calls; no code corresponds to it.
    - TypeSound, TypeExplore: theorems on the type checker.
    - Machine: the subset of x86-64 that is emitted, on concrete memory (with
      rsp) and with an abstract stack, and the relation of the two.
    - Codegen (linux-x86_64.cc), BodyCode, Labels, Linking, ProgramCode:
      the generated lines; theorems on one intrinsic, on one body, on labels;
      linked files; the whole file.
    - Optimizer (optimizer.cc) with Folding, Unused and Conditions: the three
      passes and a file of theorems on each; Rounds: the loop over them.
    - Debug (debug.cc): the control flow graph.
    - Process (os-exec.hh), Pipes (ipstream.hh), Arguments (arguments.cc),
      Driver and Main (stacky.cc).
    - Definitions: programs with function definitions as trees, and their
      translation.  DriverFacts, TypedCode, BackEnd, OptimizedCode, Compile:
      theorems on the composition of passes.

    ** What is shown

    - Front end: lexing a rendered sequence of tokens gives it back, with its
      locations ([lex_render]), numerals, keywords, escapes and runes have their
      meaning, equal strings share one identifier, defined words have distinct
      ones; tokens of a structured program, function definitions included,
      become operations with the jumps of its blocks; lexing, importing and
      translating end.
    - Types: a program that the checker accepts never reads below its stack
      ([typecheck_sound]); exploration ends on structured bodies; the driver
      checks what soundness assumes.
    - Optimizer: folding and the removal of words preserve behaviour under the
      stated conditions (lemmas show that these are needed), and so does the
      loop of all passes, which ends ([optimize_preserves]), for programs
      without a condition known at compile time in which each function is the
      first word with its identifier in the order of the hash map
      ([optimizable]; [remove_unused_depends_on_order] is a program on which the
      order matters).  The pass over constant conditions leaves the
      right operations of a conditional with two branches and of
      loops, but moves the jumps behind them wrongly, and it is wrong without
      else: lemmas of Conditions show it on programs.
    - Back end: the instructions of an intrinsic on the concrete machine, the
      lines of a body, and the whole linked file with its call stack, arrays and
      strings simulate the operations ([generate_assembly_correct]), for
      programs whose jumps, calls and symbols are resolved ([linkable]); the
      passes of the driver composed ([compile_operations_correct]), also from
      the tokens of a program ([compile_definitions_correct]), give a file that
      comes to the end of the program, where the type check, if any, succeeds
      and the conditions of the optimizer hold; with the type checker, an
      accepted program runs until it exits or divides by zero
      ([typed_program_runs]); the call stack has the room its line in the header
      reserves, and a call more than 1024 deep overwrites the pointer behind it
      ([call_stack_overflow]).
    - Surroundings: which commands [main] runs, when and on which files; what
      each end of a child process is reported as; each outcome of the command
      line; quoting for the shell; descriptors and ends of pipes.

    ** Fuel and bounds

    Recursion that is not structural takes fuel and ends in [No_fuel] without
    it.  The index of the lexer has 32 bits, and wraps around: the theorems on
    it are on files of less than 4 GiB, and other vectors and literals are taken
    to have less than 2^32 elements.  The lexer runs with one more than the
    length of the file, [follow] of the graph with one more than the length of
    the body, marking with one more than the number of words, quoting with one
    more than the length of the value: theorems show that these are enough.  The
    include loop, the type checker and the optimizer, which do not end on every
    input, take their fuel as a parameter; theorems show that some fuel is
    enough ([typecheck_terminates], [imports_terminate]) or bound it
    ([optimize_preserves]), and lemmas give the inputs on which they do not
    ([self_include_diverges], [typecheck_dynamic_recursion]).  Words of 64 bits
    are numbers in [0, 2^64); runs of a whole program are followed up to a depth
    of 1024 calls and within the region of the stack.

    ** Parameters

    The file system; the order in which an unordered map is iterated; the flag
    of failed compilation that [main] reads (it is another object than the one
    the passes set); what boost::program_options returns; the results of system
    calls; and the class [Linker] for nasm and ld: where the lines of code and
    the two segments of data lie, apart from each other.  The values of symbols
    and the contents of the segments follow from the lines of the file that
    define them ([symbol_value], [starts]); a symbol no line defines has no
    value, and an instruction that uses it no step.  [flat_linker] is an
    instance.

    ** Not modelled

    Text on the terminal beyond kind, location and message of a report; the
    effects of the kernel in a system call and the numbers of rdrand (executions
    are followed up to them); [enum2int] and [callv] of utilities.cc, templates
    that are inlined where they are used; boost itself; the programs in the
    stacky language (std, examples, tests).

    ** Left

    The abstract stack of a linked file in concrete memory; the composition of
    the front end with the lexer and the includes. *)

From Stdlib Require String.
From Stdlib Require Export ZArith Ascii Lia.
From stdpp Require Export base list gmap strings option pretty.

#[export] Set Default Goal Selector "!".

Declare Scope stacky_scope.
Delimit Scope stacky_scope with stacky.
Open Scope Z_scope.

(** ** Machine integers

    A [w]-bit unsigned integer is an integer of [Z] kept in [0 .. 2^w - 1]
    by an explicit reduction after each operation that can overflow; a signed
    one is its two's complement reading. *)

Definition u8 (z : Z) : Z := z mod 2 ^ 8.
Definition u32 (z : Z) : Z := z mod 2 ^ 32.
Definition u64 (z : Z) : Z := z mod 2 ^ 64.

Definition i8 (z : Z) : Z := if u8 z <? 2 ^ 7 then u8 z else u8 z - 2 ^ 8.
Definition i32 (z : Z) : Z := if u32 z <? 2 ^ 31 then u32 z else u32 z - 2 ^ 32.
Definition i64 (z : Z) : Z := if u64 z <? 2 ^ 63 then u64 z else u64 z - 2 ^ 64.

Definition is_u64 (z : Z) : Prop := 0 <= z < 2 ^ 64.
Definition is_i64 (z : Z) : Prop := - 2 ^ 63 <= z < 2 ^ 63.

#[export] Instance is_u64_dec z : Decision (is_u64 z).
Proof. unfold is_u64. apply _. Defined.
#[export] Instance is_i64_dec z : Decision (is_i64 z).
Proof. unfold is_i64. apply _. Defined.

(** ** Characters

    A [char] is a byte. [chr] stores an integer into a [char], [ord] reads it
    as an [unsigned char] and [schar] as the signed [char] of x86-64. *)

Definition chr (z : Z) : ascii := ascii_of_N (Z.to_N (u8 z)).
Definition ord (c : ascii) : Z := Z.of_N (N_of_ascii c).
Definition schar (c : ascii) : Z := i8 (ord c).

Abbreviation chars := String.list_ascii_of_string.
Abbreviation str_of := String.string_of_list_ascii.

(** [std::to_string] of an unsigned integer. *)
Definition to_string (z : Z) : string := pretty z.

(** ** Hints and tactics *)

Create HintDb stacky.
Create Rewrite HintDb stacky.

(** Case analysis on every [match] and [if] of the goal, closing the branches
    that contradict the context. *)
Ltac split_matches :=
  repeat (case_match; simplify_eq/=; try done).

(** Turns boolean comparisons of the context into propositions. *)
Ltac bool_to_prop :=
  repeat match goal with
  | H : (_ <? _) = true |- _ => apply Z.ltb_lt in H
  | H : (_ <? _) = false |- _ => apply Z.ltb_ge in H
  | H : (_ <=? _) = true |- _ => apply Z.leb_le in H
  | H : (_ <=? _) = false |- _ => apply Z.leb_gt in H
  | H : (_ =? _) = true |- _ => apply Z.eqb_eq in H
  | H : (_ =? _) = false |- _ => apply Z.eqb_neq in H
  | H : (_ && _)%bool = true |- _ => apply andb_true_iff in H; destruct H
  | H : (_ || _)%bool = false |- _ => apply orb_false_iff in H; destruct H
  | H : negb _ = true |- _ => apply negb_true_iff in H
  | H : negb _ = false |- _ => apply negb_false_iff in H
  end.

(** ** Lemmas on machine integers *)

Lemma u64_range z : is_u64 (u64 z).
Proof. apply Z.mod_pos_bound. lia. Qed.

Lemma u64_small z : is_u64 z → u64 z = z.
Proof. apply Z.mod_small. Qed.

Lemma u64_idemp z : u64 (u64 z) = u64 z.
Proof. apply u64_small, u64_range. Qed.

Lemma u64_add_l a b : u64 (u64 a + b) = u64 (a + b).
Proof. apply Zplus_mod_idemp_l. Qed.

Lemma u64_add_r a b : u64 (a + u64 b) = u64 (a + b).
Proof. apply Zplus_mod_idemp_r. Qed.

Lemma u64_mul_l a b : u64 (u64 a * b) = u64 (a * b).
Proof. apply Zmult_mod_idemp_l. Qed.

Lemma u64_mul_r a b : u64 (a * u64 b) = u64 (a * b).
Proof. apply Zmult_mod_idemp_r. Qed.

Lemma u64_sub_l a b : u64 (u64 a - b) = u64 (a - b).
Proof. apply Zminus_mod_idemp_l. Qed.

Lemma u64_sub_r a b : u64 (a - u64 b) = u64 (a - b).
Proof. apply Zminus_mod_idemp_r. Qed.

Lemma u8_range z : 0 <= u8 z < 2 ^ 8.
Proof. apply Z.mod_pos_bound. lia. Qed.

Lemma i64_range z : is_i64 (i64 z).
Proof. unfold is_i64, i64. pose proof (u64_range z) as []. case_match; bool_to_prop; lia. Qed.

Lemma u64_i64 z : u64 (i64 z) = u64 z.
Proof.
  unfold i64. case_match; [apply u64_idemp|].
  unfold u64 at 1. rewrite <-(Z_mod_plus_full _ 1). rewrite Z.mul_1_l, Z.sub_add.
  apply u64_idemp.
Qed.

Lemma i64_small z : is_i64 z → i64 z = z.
Proof.
  intros [H1 H2]. unfold i64, u64. destruct (decide (0 <= z)).
  - rewrite Z.mod_small by lia. destruct (Z.ltb_spec z (2 ^ 63)); lia.
  - assert (z mod 2 ^ 64 = z + 2 ^ 64) as ->.
    { rewrite <-(Z_mod_plus_full z 1), Z.mul_1_l. apply Z.mod_small. lia. }
    destruct (Z.ltb_spec (z + 2 ^ 64) (2 ^ 63)); lia.
Qed.

#[export] Hint Resolve u64_range i64_range : stacky.
#[export] Hint Rewrite u64_idemp u64_add_l u64_add_r u64_mul_l u64_mul_r
  u64_sub_l u64_sub_r u64_i64 : stacky.

(** ** Lemmas on bits *)

(** Bitwise or of a multiple of [2^k] and a number below [2^k] is their sum. *)
Lemma lor_disjoint_add k a b :
  0 <= k → 0 <= b < 2 ^ k → Z.lor (a * 2 ^ k) b = a * 2 ^ k + b.
Proof.
  intros Hk Hb. rewrite <-Z.shiftl_mul_pow2 by done.
  assert (Z.land (Z.shiftl a k) b = 0) as Hland.
  { apply Z.bits_inj'. intros n Hn. rewrite Z.land_spec, Z.bits_0.
    destruct (decide (n < k)); [by rewrite Z.shiftl_spec_low|].
    destruct (decide (b = 0)) as [->|]; [by rewrite Z.bits_0, andb_false_r|].
    assert (Z.log2 b < k) by (apply Z.log2_lt_pow2; lia).
    rewrite (Z.bits_above_log2 b n), andb_false_r; [done|lia|lia]. }
  by rewrite Z.add_nocarry_lxor, Z.lxor_lor.
Qed.

Lemma land_ones_mod a k : 0 <= k → Z.land a (2 ^ k - 1) = a mod 2 ^ k.
Proof. intros Hk. rewrite <-Z.land_ones by done. by rewrite Z.ones_equiv, Z.sub_1_r. Qed.

(** ** Lemmas on characters *)

Lemma ord_range c : 0 <= ord c < 2 ^ 8.
Proof. unfold ord. pose proof (N_ascii_bounded c). lia. Qed.

Lemma ord_chr z : ord (chr z) = u8 z.
Proof.
  unfold ord, chr. pose proof (u8_range z).
  rewrite N_ascii_embedding; lia.
Qed.

Lemma chr_ord c : chr (ord c) = c.
Proof.
  unfold chr, ord, u8. pose proof (ord_range c) as H. unfold ord in H.
  rewrite Z.mod_small, N2Z.id by lia. apply ascii_N_embedding.
Qed.

Lemma ord_inj c d : ord c = ord d → c = d.
Proof. intros H. rewrite <-(chr_ord c), <-(chr_ord d). by rewrite H. Qed.

Lemma chars_str_of l : chars (str_of l) = l.
Proof. apply String.list_ascii_of_string_of_list_ascii. Qed.

Lemma str_of_chars s : str_of (chars s) = s.
Proof. apply String.string_of_list_ascii_of_string. Qed.

Lemma chars_app s t : chars (s +:+ t) = chars s ++ chars t.
Proof. induction s as [|c s IH]; [done|]. simpl. by rewrite IH. Qed.

Lemma str_of_app l k : str_of (l ++ k) = str_of l +:+ str_of k.
Proof. rewrite <-(str_of_chars (str_of l +:+ str_of k)), chars_app, !chars_str_of. done. Qed.
