(* ===== verification/Syntax.v ===== *)
(** * Data model (src/src/stacky.hh)

    The enumerations, tokens, types, operations and words every pass of the
    compiler shares.  A C++ pointer [Word *] into the node-stable
    [unordered_map] of words is the key of that word; a [string_view] is the
    string it views. *)

From S2P Require Import Prelude.

(** ** Enumerations *)

Module Keyword.
Inductive Keyword_Kind :=
  | End | If | Else | While | Do | Include | Import | Return | Bool | Dynamic
  | Typename | Stack_Effect_Definition | Stack_Effect_Divider
  | Array | Constant | Function.
End Keyword.
Abbreviation Keyword_Kind := Keyword.Keyword_Kind.

Module Intrinsic.
Inductive Intrinsic_Kind :=
  | Add | Bitwise_And | Bitwise_Or | Bitwise_Xor | Boolean_And | Boolean_Negate
  | Boolean_Or | Div | Div_Mod | Equal | Greater | Greater_Eq | Left_Shift
  | Less | Less_Eq | Max | Min | Mod | Mul | Not_Equal | Random32 | Random64
  | Right_Shift | Subtract
  | Drop | Dup | Over | Rot | Swap | Tuck | Two_Dup | Two_Drop | Two_Over | Two_Swap
  | Load | Store | Top | Call
  | Argv | Argc | Syscall.
End Intrinsic.
Abbreviation Intrinsic_Kind := Intrinsic.Intrinsic_Kind.

Module TokKind.
Inductive Token_Kind := Word | Integer | String | Char | Keyword | Address_Of.
End TokKind.
Abbreviation Token_Kind := TokKind.Token_Kind.

Module TypeKind.
Inductive Type_Kind := Int | Bool | Pointer | Any | Variable_.
End TypeKind.
Abbreviation Type_Kind := TypeKind.Type_Kind.

Module OpKind.
Inductive Operation_Kind :=
  | Intrinsic | Push_Symbol | Push_Int | Call_Symbol | Cast
  | End | If | Else | While | Do | Return.
End OpKind.
Abbreviation Operation_Kind := OpKind.Operation_Kind.

Module WordKind.
Inductive Word_Kind := Intrinsic | Integer | Array | Function.
End WordKind.
Abbreviation Word_Kind := WordKind.Word_Kind.

#[export] Instance Keyword_Kind_eq : EqDecision Keyword_Kind.
Proof. solve_decision. Defined.
#[export] Instance Intrinsic_Kind_eq : EqDecision Intrinsic_Kind.
Proof. solve_decision. Defined.
#[export] Instance Token_Kind_eq : EqDecision Token_Kind.
Proof. solve_decision. Defined.
#[export] Instance Type_Kind_eq : EqDecision Type_Kind.
Proof. solve_decision. Defined.
#[export] Instance Operation_Kind_eq : EqDecision Operation_Kind.
Proof. solve_decision. Defined.
#[export] Instance Word_Kind_eq : EqDecision Word_Kind.
Proof. solve_decision. Defined.

(** ** Assembly symbol prefixes *)

Definition Label_Prefix : string := "_Stacky_instr_".
Definition Symbol_Prefix : string := "_Stacky_symbol_".
Definition String_Prefix : string := "_Stacky_string_".
Definition Function_Prefix : string := "_Stacky_fun_".
Definition Function_Body_Prefix : string := "_Stacky_funinstr_".
Definition Anonymous_Function_Prefix : string := "_Stacky_anonymous_".

(** ** Records *)

Record Location := mk_Location {
  file : string;
  column : Z;
  line : Z;
  function_name : string;
}.

Definition with_function (l : Location) (fname : string) : Location :=
  mk_Location (file l) (column l) (line l) fname.

Definition no_location : Location := mk_Location "" 0 0 "".

Record Token := mk_Token {
  tok_location : Location;
  tok_kind : Token_Kind;
  tok_sval : string;
  tok_ival : Z;
  tok_kval : Keyword_Kind;
  tok_byte_size : Z;
}.

(** The members C++ value-initialises when a token is created from its
    location only: the first enumerator of each enumeration, and [-1] in the
    unsigned [ival]. *)
Definition Token_at (l : Location) : Token :=
  mk_Token l TokKind.Word "" (2 ^ 64 - 1) Keyword.End 0.

Definition set_tok_kind (k : Token_Kind) (t : Token) : Token :=
  mk_Token (tok_location t) k (tok_sval t) (tok_ival t) (tok_kval t) (tok_byte_size t).
Definition set_tok_sval (s : string) (t : Token) : Token :=
  mk_Token (tok_location t) (tok_kind t) s (tok_ival t) (tok_kval t) (tok_byte_size t).
Definition set_tok_ival (v : Z) (t : Token) : Token :=
  mk_Token (tok_location t) (tok_kind t) (tok_sval t) v (tok_kval t) (tok_byte_size t).
Definition set_tok_kval (k : Keyword_Kind) (t : Token) : Token :=
  mk_Token (tok_location t) (tok_kind t) (tok_sval t) (tok_ival t) k (tok_byte_size t).
Definition set_tok_byte_size (b : Z) (t : Token) : Token :=
  mk_Token (tok_location t) (tok_kind t) (tok_sval t) (tok_ival t) (tok_kval t) b.

(** [struct Type]; the Rocq keyword forces another name. *)
Record StackType := mk_Type {
  ty_kind : Type_Kind;
  ty_var : Z;
  ty_location : Location;
}.

Definition Type_of_kind (k : Type_Kind) : StackType := mk_Type k (2 ^ 32 - 1) no_location.
Definition Type_var (v : Z) : StackType := mk_Type TypeKind.Variable_ v no_location.

Definition with_location (t : StackType) (l : Location) : StackType :=
  mk_Type (ty_kind t) (ty_var t) l.

(** [Type::operator==]: [any] is equal to every type, otherwise the kinds decide. *)
Definition Type_eqb (a b : StackType) : bool :=
  bool_decide (ty_kind a = TypeKind.Any) || bool_decide (ty_kind b = TypeKind.Any)
  || bool_decide (ty_kind a = ty_kind b).

(** [Type::compare_in_context], with the context as the function [ctx]. *)
Definition compare_in_context (a b : StackType) (ctx : Z → StackType) : bool :=
  if decide (ty_kind a = TypeKind.Variable_) then
    if decide (ty_kind b = TypeKind.Variable_)
    then (ty_var a =? ty_var b) || Type_eqb (ctx (ty_var a)) (ctx (ty_var b))
    else Type_eqb (ctx (ty_var a)) b
  else if decide (ty_kind b = TypeKind.Variable_) then Type_eqb (ctx (ty_var b)) a
  else Type_eqb a b.

Record Stack_Effect := mk_Effect {
  input : list StackType;
  output : list StackType;
}.

Definition Empty_Jump : Z := 2 ^ 32 - 1.

Record Operation := mk_Operation {
  op_kind : Operation_Kind;
  op_token : Token;
  op_ival : Z;
  op_sval : string;
  op_intrinsic : Intrinsic_Kind;
  op_word : option string;
  op_jump : Z;
  op_symbol_prefix : string;
  op_type : StackType;
  op_location : Location;
}.

(** A value-initialised token, as [Operation]'s other members get when an
    operation is created from its kind. *)
Definition no_token : Token := Token_at no_location.

(** [body.emplace_back(kind, token)] and [body.emplace_back(kind)]: the members
    not named get their default initialisers or are value-initialised, so the
    type of the operation is [Int] and it has no jump. *)
Definition Operation_of (k : Operation_Kind) (t : Token) : Operation :=
  mk_Operation k t 0 "" Intrinsic.Add None Empty_Jump ""
    (Type_of_kind TypeKind.Int) no_location.

Definition set_op_jump (j : Z) (o : Operation) : Operation :=
  mk_Operation (op_kind o) (op_token o) (op_ival o) (op_sval o) (op_intrinsic o)
    (op_word o) j (op_symbol_prefix o) (op_type o) (op_location o).
Definition set_op_location (l : Location) (o : Operation) : Operation :=
  mk_Operation (op_kind o) (op_token o) (op_ival o) (op_sval o) (op_intrinsic o)
    (op_word o) (op_jump o) (op_symbol_prefix o) (op_type o) l.
Definition set_op_ival (v : Z) (o : Operation) : Operation :=
  mk_Operation (op_kind o) (op_token o) v (op_sval o) (op_intrinsic o)
    (op_word o) (op_jump o) (op_symbol_prefix o) (op_type o) (op_location o).

Record Word := mk_Word {
  w_kind : Word_Kind;
  w_ival : Z;
  w_intrinsic : Intrinsic_Kind;
  w_byte_size : Z;
  w_id : Z;
  w_function_body : list Operation;
  w_relevant_word : option string;
  w_has_effect : bool;
  w_effect : Stack_Effect;
  w_is_dynamically_typed : bool;
  w_location : Location;
  w_function_name : string;
}.

(** The word [words[name]] creates when [name] is new: value-initialised. *)
Definition new_Word : Word :=
  mk_Word WordKind.Intrinsic 0 Intrinsic.Add 0 0 [] None false (mk_Effect [] [])
    false no_location "".

Abbreviation Words := (gmap string Word).

Record Label_Info := mk_Label { label_function : string; label_jump : Z }.

#[export] Instance Label_Info_eq : EqDecision Label_Info.
Proof. solve_decision. Defined.
#[export] Instance Label_Info_countable : Countable Label_Info.
Proof.
  apply (inj_countable' (λ l, (label_function l, label_jump l))
    (λ p, mk_Label p.1 p.2)). by intros [].
Defined.

Record Generation_Info := mk_Generation_Info {
  strings : gmap string Z;
  words : Words;
  main : list Operation;
  undefined_words : gset string;
  jump_targets_lookup : gset Label_Info;
}.

(** ** The type equality *)

Lemma Type_eqb_refl t : Type_eqb t t = true.
Proof. unfold Type_eqb. by rewrite (bool_decide_true (ty_kind t = ty_kind t)), orb_true_r. Qed.

Lemma Type_eqb_sym a b : Type_eqb a b = Type_eqb b a.
Proof.
  unfold Type_eqb. rewrite (orb_comm (bool_decide (ty_kind a = TypeKind.Any))).
  f_equal. apply bool_decide_ext. naive_solver.
Qed.

Lemma Type_eqb_true a b :
  Type_eqb a b = true ↔
  ty_kind a = TypeKind.Any ∨ ty_kind b = TypeKind.Any ∨ ty_kind a = ty_kind b.
Proof. unfold Type_eqb. rewrite !orb_true_iff, !bool_decide_eq_true. tauto. Qed.
