(* ===== verification/Errors.v ===== *)
(** * Diagnostics (src/src/errors.hh)

    A pass of the compiler is a computation that may print reports and that
    ends in one of four ways: with a value, by [exit(1)] after a report, by an
    exception nobody catches, or in undefined behaviour of C++ (an index out
    of range of a vector, a shift by more than the width, ...).  A fifth ending
    is not one of the code: a loop of the model that used up the number of
    rounds it was given. *)

From S2P Require Import Prelude Syntax.

(** ** Reports *)

Module Reports.
Inductive Report := Command | Compiler_Bug | Error | Info | Warning | Optimization.
End Reports.
Abbreviation Report := Reports.Report.

#[export] Instance Report_eq : EqDecision Report.
Proof. solve_decision. Defined.

(** One printed line: its kind, the location if the call has one, the message. *)
Record Entry := mk_Entry {
  e_report : Report;
  e_location : option Location;
  e_message : string;
}.

Definition esc : string := str_of [chr 27].

Definition report_kind_str (output_colors : bool) (r : Report) : string :=
  let color c s := (if output_colors then esc +:+ c +:+ s +:+ esc +:+ "[0m" else s) in
  match r with
  | Reports.Command => color "[34;1m" "cmd"
  | Reports.Error => color "[31;1m" "error"
  | Reports.Info => color "[34;1m" "info"
  | Reports.Warning => color "[35;1m" "warning"
  | Reports.Optimization => color "[34;1m" "optimized"
  | Reports.Compiler_Bug => color "[31;1m" "compiler bug"
  end.

(** [Compilation_Failed] after a list of reports. *)
Definition fails (r : Report) : bool :=
  match r with Reports.Error | Reports.Compiler_Bug => true | _ => false end.

Definition Compilation_Failed (l : list Entry) : bool :=
  existsb (λ e, fails (e_report e)) l.

(** ** Computations *)

Inductive ending (A : Type) :=
  | Done (a : A)
  | Exited
  | Thrown
  | Undef
  | No_fuel.
Arguments Done {A} a.
Arguments Exited {A}.
Arguments Thrown {A}.
Arguments Undef {A}.
Arguments No_fuel {A}.

Definition comp (A : Type) : Type := (list Entry * ending A)%type.

#[export] Instance comp_ret : MRet comp := λ A a, ([], Done a).
#[export] Instance comp_bind : MBind comp := λ A B k m,
  match m with
  | (l, Done a) => let '(l', r) := k a in (l ++ l', r)
  | (l, Exited) => (l, Exited)
  | (l, Thrown) => (l, Thrown)
  | (l, Undef) => (l, Undef)
  | (l, No_fuel) => (l, No_fuel)
  end.

Definition undefined {A} : comp A := ([], Undef).
Definition throw {A} : comp A := ([], Thrown).
Definition out_of_fuel {A} : comp A := ([], No_fuel).

Definition report (r : Report) (loc : option Location) (m : string) : comp unit :=
  ([mk_Entry r loc m], Done tt).

Definition error (loc : option Location) (m : string) : comp unit :=
  report Reports.Error loc m.
Definition warning (loc : option Location) (m : string) : comp unit :=
  report Reports.Warning loc m.
Definition info (loc : option Location) (m : string) : comp unit :=
  report Reports.Info loc m.

Definition error_fatal {A} (loc : option Location) (m : string) : comp A :=
  ([mk_Entry Reports.Error loc m], Exited).

Definition ensure (condition : bool) (loc : option Location) (m : string) : comp unit :=
  if condition then mret tt else error_fatal loc m.

Definition ensure_fatal (condition : bool) (loc : option Location) (m : string) : comp unit :=
  if condition then mret tt else error_fatal loc m.

(** [assert_impl]: the message printed names the failed test. *)
Definition assert_impl (test : bool) (test_str : string) : comp unit :=
  if test then mret tt else ([mk_Entry Reports.Compiler_Bug None test_str], Exited).

Definition unreachable {A} (message : string) : comp A :=
  ([mk_Entry Reports.Compiler_Bug None message], Exited).

(** [v[i]] of a vector, a span or an array: undefined out of range. *)
Definition index {A} (v : list A) (i : nat) : comp A :=
  match v !! i with Some x => mret x | None => undefined end.

(** ** Lemmas *)

(** What follows a computation matters only where it is done. *)
Lemma bind_Done_ext {A B} (m : comp A) (k k' : A → comp B) :
  (∀ l a, m = (l, Done a) → k a = k' a) → m ≫= k = m ≫= k'.
Proof. intros H. destruct m as [l [a| | | |]]; cbn; try done. by rewrite (H l a). Qed.

(** Inversion of a sequence that returns a value. *)
Lemma bind_Done {A B} (m : comp A) (k : A → comp B) l b :
  m ≫= k = (l, Done b) ↔
  ∃ l1 a l2, m = (l1, Done a) ∧ k a = (l2, Done b) ∧ l = l1 ++ l2.
Proof.
  unfold mbind, comp_bind. split.
  - destruct m as [l1 [a| | | |]]; [|done..]. destruct (k a) as [l2 r] eqn:Hk.
    intros [= <- ->]. eauto 10.
  - intros (l1 & a & l2 & -> & -> & ->). done.
Qed.

Lemma bind_ret_l {A B} (a : A) (k : A → comp B) : mret a ≫= k = k a.
Proof. unfold mret, comp_ret, mbind, comp_bind. by destruct (k a). Qed.

Lemma bind_ret_r {A} (m : comp A) : m ≫= mret = m.
Proof.
  unfold mret, comp_ret, mbind, comp_bind. destruct m as [l []]; try done.
  by rewrite app_nil_r.
Qed.

Lemma bind_assoc {A B C} (m : comp A) (k : A → comp B) (h : B → comp C) :
  (m ≫= k) ≫= h = m ≫= (λ a, k a ≫= h).
Proof.
  unfold mbind, comp_bind. destruct m as [l [a| | | |]]; try done.
  destruct (k a) as [l' [b| | | |]]; try done. destruct (h b). by rewrite app_assoc.
Qed.

Lemma bind_undefined {A B} (k : A → comp B) : undefined ≫= k = undefined.
Proof. done. Qed.

Lemma ensure_true loc m : ensure true loc m = mret tt.
Proof. done. Qed.

(** A computation that stops the compiler has reported an error. *)
Lemma Compilation_Failed_app l1 l2 :
  Compilation_Failed (l1 ++ l2) = Compilation_Failed l1 || Compilation_Failed l2.
Proof. apply existsb_app. Qed.

(** *** Termination *)

(** The model did not run out of rounds: the code ends. *)
Definition ends {A} (m : comp A) : Prop := m.2 ≠ No_fuel.

Lemma ends_ret {A} (a : A) : ends (mret a).
Proof. done. Qed.
Lemma ends_undefined {A} : ends (@undefined A).
Proof. done. Qed.
Lemma ends_throw {A} : ends (@throw A).
Proof. done. Qed.
Lemma ends_report r loc m : ends (report r loc m).
Proof. done. Qed.
Lemma ends_error loc m : ends (error loc m).
Proof. done. Qed.
Lemma ends_warning loc m : ends (warning loc m).
Proof. done. Qed.
Lemma ends_info loc m : ends (info loc m).
Proof. done. Qed.
Lemma ends_ensure_fatal b loc m : ends (ensure_fatal b loc m).
Proof. by destruct b. Qed.
Lemma ends_error_fatal {A} loc m : ends (@error_fatal A loc m).
Proof. done. Qed.
Lemma ends_unreachable {A} m : ends (@unreachable A m).
Proof. done. Qed.
Lemma ends_ensure b loc m : ends (ensure b loc m).
Proof. by destruct b. Qed.
Lemma ends_assert_impl b m : ends (assert_impl b m).
Proof. by destruct b. Qed.
Lemma ends_index {A} (v : list A) i : ends (index v i).
Proof. unfold index. by destruct (v !! i). Qed.

(** A sequence ends if its first part does, and its second for every value the
    first can return. *)
Lemma ends_bind_Done {A B} (m : comp A) (k : A → comp B) :
  ends m → (∀ l a, m = (l, Done a) → ends (k a)) → ends (m ≫= k).
Proof.
  unfold ends, mbind, comp_bind. destruct m as [l [a| | | |]]; simpl; try done.
  intros _ H. specialize (H l a eq_refl). by destruct (k a).
Qed.

Lemma ends_bind {A B} (m : comp A) (k : A → comp B) :
  ends m → (∀ a, ends (k a)) → ends (m ≫= k).
Proof. intros Hm Hk. apply ends_bind_Done; auto. Qed.

#[export] Hint Resolve ends_ret ends_undefined ends_throw ends_report ends_error
  ends_warning ends_info ends_ensure_fatal ends_error_fatal
  ends_unreachable ends_ensure ends_assert_impl ends_index ends_bind : stacky.

(** Proves that a computation without loops of its own ends. *)
Ltac solve_ends :=
  repeat first
    [ solve [auto with stacky]
    | progress cbv zeta
    | apply ends_bind; [|intros ?]
    | case_match ].

(** Rewrites a sequence of computations into its first step's result. *)
Ltac comp_step :=
  repeat first [ rewrite bind_ret_l | rewrite bind_assoc | rewrite bind_undefined
               | rewrite bind_ret_r ].
