(* ===== verification/TypeNames.v ===== *)
(** * Types and stack effects as text (src/src/types.cc, first part)

    Reading a type from its keyword and printing types and stack effects. *)

From S2P Require Import Prelude Syntax Errors.

(** [Type::from]: the first letter decides. *)
Definition Type_from (token : Token) : comp StackType :=
  assert_impl (bool_decide (tok_kind token = TokKind.Keyword ∧ tok_kval token = Keyword.Typename))
    "token.kind == Token::Kind::Keyword && token.kval == Keyword_Kind::Typename" ≫= λ _,
  let of_kind k : comp StackType := mret (mk_Type k (2 ^ 32 - 1) (tok_location token)) in
  match chars (tok_sval token) with
  | "b"%char :: _ => of_kind TypeKind.Bool
  | "p"%char :: _ => of_kind TypeKind.Pointer
  | "u"%char :: _ => of_kind TypeKind.Int
  | "a"%char :: _ => of_kind TypeKind.Any
  | _ => unreachable "unparsable type definition (bug in lexer probably)"
  end.

Definition type_name (type : StackType) : string :=
  match ty_kind type with
  | TypeKind.Bool => "bool"
  | TypeKind.Pointer => "ptr"
  | TypeKind.Int => "u64"
  | TypeKind.Any => "any"
  | TypeKind.Variable_ => "$" +:+ to_string (ty_var type)
  end.

(** [join(range, sep)]: the loop has no exit of its own. At [it == end] it
    dereferences the past-the-end iterator, which is undefined. *)
Fixpoint join_loop (range : list StackType) (sep s : string) : comp string :=
  match range with
  | [] => undefined
  | it :: range =>
    let s := s +:+ type_name it in
    match range with
    | [] => join_loop range sep s
    | _ => join_loop range sep (s +:+ sep)
    end
  end.

Definition join (range : list StackType) (sep : string) : comp string :=
  match range with
  | [] => mret ""
  | _ => join_loop range sep ""
  end.

Definition stack_effect_string (effect : Stack_Effect) : comp string :=
  i ← join (input effect) " ";
  o ← join (output effect) " ";
  mret (i +:+ " -- " +:+ o).

(** ** Properties *)

Lemma join_loop_undefined range sep s : join_loop range sep s = undefined.
Proof. revert s. induction range as [|t [|u r] IH]; intros s; [done|done|]. apply IH. Qed.

(** printing a stack effect is defined only for the empty effect: with a
    type on either side the joining loop runs past the end of its range. *)
Theorem stack_effect_string_defined effect :
  stack_effect_string effect =
    if decide (input effect = [] ∧ output effect = []) then mret " -- " else undefined.
Proof.
  destruct effect as [[|t i] [|u o]]; simpl; try done;
    unfold stack_effect_string, join; simpl input; simpl output;
    rewrite ?join_loop_undefined; done.
Qed.

(** the types the language names are read back from their printed names,
    with the location of the keyword. *)
Theorem type_name_roundtrip k v l loc :
  k ≠ TypeKind.Variable_ →
  let token := set_tok_sval (type_name (mk_Type k v l))
    (set_tok_kval Keyword.Typename (set_tok_kind TokKind.Keyword (Token_at loc))) in
  Type_from token = ([], Done (mk_Type k (2 ^ 32 - 1) loc)).
Proof. intros Hk. by destruct k. Qed.

Lemma type_name_roundtrip_witness :
  Type_from (set_tok_sval "ptr" (set_tok_kval Keyword.Typename
    (set_tok_kind TokKind.Keyword (Token_at (mk_Location "f" 3 2 ""))))) =
  ([], Done (mk_Type TypeKind.Pointer (2 ^ 32 - 1) (mk_Location "f" 3 2 ""))).
Proof. by apply (type_name_roundtrip TypeKind.Pointer 0 no_location). Defined.

(** the signed type names, which the lexer accepts as typenames, stop the
    compiler as a bug of its own. *)
Theorem signed_typenames_rejected :
  Forall (λ s, ∃ e, e_report e = Reports.Compiler_Bug ∧
    Type_from (set_tok_sval s (set_tok_kval Keyword.Typename
      (set_tok_kind TokKind.Keyword no_token))) = ([e], Exited))
    ["i8"; "i16"; "i32"; "i64"].
Proof. do 4 (constructor; [eexists (mk_Entry _ _ _); split; reflexivity|]). constructor. Qed.
