(* ===== verification/Unicode.v ===== *)
(** * UTF-8 encoding of runes (src/src/unicode.cc)

    [encode_rune], a reference encoder written from the table of RFC 3629, and
    a decoder that reads one rune back. *)

From S2P Require Import Prelude.

(** ** The code *)

Definition Rune_Max_1 : Z := Z.shiftl 1 7 - 1.
Definition Rune_Max_2 : Z := Z.shiftl 1 11 - 1.
Definition Rune_Max_3 : Z := Z.shiftl 1 16 - 1.

Definition Tx : Z := 128.
Definition T2 : Z := 192.
Definition T3 : Z := 224.
Definition T4 : Z := 240.
Definition Maskx : Z := 63.

(** [r] is a [uint32_t]; [char(r >> n)] is the signed [char] of its low byte,
    promoted to [int] by [|] and [&], and the result is stored in a [char]. *)
Definition encode_rune (r : Z) : list ascii :=
  if r <? Rune_Max_1 then [chr r]
  else if r <? Rune_Max_2 then
    [ chr (Z.lor T2 (i8 (Z.shiftr r 6)));
      chr (Z.lor Tx (Z.land (i8 r) Maskx)) ]
  else if r <? Rune_Max_3 then
    [ chr (Z.lor T3 (i8 (Z.shiftr r 12)));
      chr (Z.lor Tx (Z.land (i8 (Z.shiftr r 6)) Maskx));
      chr (Z.lor Tx (Z.land (i8 r) Maskx)) ]
  else
    [ chr (Z.lor T4 (i8 (Z.shiftr r 18)));
      chr (Z.lor Tx (Z.land (i8 (Z.shiftr r 12)) Maskx));
      chr (Z.lor Tx (Z.land (i8 (Z.shiftr r 6)) Maskx));
      chr (Z.lor Tx (Z.land (i8 r) Maskx)) ].

(** ** Reference encoder and decoder *)

(** The table of RFC 3629, with the bytes as numbers. *)
Definition utf8_reference (r : Z) : list Z :=
  if r <=? 127 then [r]
  else if r <=? 2047 then [192 + r / 64; 128 + r mod 64]
  else if r <=? 65535 then [224 + r / 4096; 128 + r / 64 mod 64; 128 + r mod 64]
  else [240 + r / 262144; 128 + r / 4096 mod 64; 128 + r / 64 mod 64; 128 + r mod 64].

Definition continuation (b : Z) : option Z :=
  if (128 <=? b) && (b <? 192) then Some (b - 128) else None.

(** Reads one rune: the lead byte tells how many continuation bytes follow. *)
Definition utf8_decode (bytes : list Z) : option (Z * list Z) :=
  match bytes with
  | [] => None
  | b :: rest =>
    if b <? 128 then Some (b, rest)
    else if b <? 192 then None
    else if b <? 224 then
      match rest with
      | c1 :: rest => x1 ← continuation c1; Some ((b - 192) * 64 + x1, rest)
      | _ => None
      end
    else if b <? 240 then
      match rest with
      | c1 :: c2 :: rest =>
        x1 ← continuation c1; x2 ← continuation c2;
        Some ((b - 224) * 4096 + x1 * 64 + x2, rest)
      | _ => None
      end
    else if b <? 248 then
      match rest with
      | c1 :: c2 :: c3 :: rest =>
        x1 ← continuation c1; x2 ← continuation c2; x3 ← continuation c3;
        Some ((b - 240) * 262144 + x1 * 4096 + x2 * 64 + x3, rest)
      | _ => None
      end
    else None
  end.

(** ** The bytes [encode_rune] builds *)

Lemma i8_mod z k : 0 <= k <= 8 → i8 z mod 2 ^ k = z mod 2 ^ k.
Proof.
  intros Hk. unfold i8, u8. assert (2 ^ 8 = 2 ^ k * 2 ^ (8 - k)) as Hpow.
  { rewrite <-Z.pow_add_r by lia. f_equal. lia. }
  assert (0 < 2 ^ k ∧ 0 < 2 ^ (8 - k)) as [H1 H2] by (split; apply Z.pow_pos_nonneg; lia).
  assert ((z mod 2 ^ 8) mod 2 ^ k = z mod 2 ^ k) as Hmm.
  { rewrite Hpow, Z.rem_mul_r by lia. rewrite Z.mul_comm, Z_mod_plus_full.
    apply Z.mod_mod. lia. }
  case_match; [done|]. rewrite <-Hmm, Hpow at 1.
  replace (_ - _) with (z mod (2 ^ k * 2 ^ (8 - k)) + - 2 ^ (8 - k) * 2 ^ k) by lia.
  rewrite Z_mod_plus_full. by rewrite Hpow.
Qed.

(** A continuation byte carries six bits. *)
Lemma cont_byte z : ord (chr (Z.lor Tx (Z.land (i8 z) Maskx))) = 128 + z mod 64.
Proof.
  rewrite ord_chr. unfold Tx, Maskx. change 63 with (2 ^ 6 - 1).
  rewrite land_ones_mod, i8_mod by lia. change (2 ^ 6) with 64.
  pose proof (Z.mod_pos_bound z 64 ltac:(lia)).
  change 128 with (2 * 2 ^ 6). rewrite lor_disjoint_add by (change (2 ^ 6) with 64; lia).
  change (2 * 2 ^ 6) with 128. apply Z.mod_small. lia.
Qed.

(** A lead byte [m * 2^k] carries the bits below [k]. *)
Lemma lead_byte m k z :
  0 <= k <= 7 → 0 <= m → m * 2 ^ k + 2 ^ k <= 256 → 0 <= z < 2 ^ k →
  ord (chr (Z.lor (m * 2 ^ k) (i8 z))) = m * 2 ^ k + z.
Proof.
  intros Hk Hm Hmax Hz.
  assert (2 ^ k <= 2 ^ 7) by (apply Z.pow_le_mono_r; lia).
  assert (i8 z = z) as ->.
  { unfold i8, u8. rewrite Z.mod_small by lia.
    destruct (Z.ltb_spec z (2 ^ 7)); lia. }
  rewrite ord_chr, lor_disjoint_add by lia. apply Z.mod_small. lia.
Qed.

Lemma shiftr_bound r n k : 0 <= n → 0 <= k → 0 <= r < 2 ^ (n + k) → 0 <= Z.shiftr r n < 2 ^ k.
Proof.
  intros Hn Hk Hr. rewrite Z.pow_add_r in Hr by lia.
  assert (0 < 2 ^ n) by (apply Z.pow_pos_nonneg; lia).
  rewrite Z.shiftr_div_pow2 by done. split; [apply Z.div_pos; lia|].
  apply Z.div_lt_upper_bound; lia.
Qed.

(** The bytes of a rune, by the thresholds the code compares with. *)
Lemma encode_rune_bytes r :
  0 <= r < 2 ^ 21 →
  ord <$> encode_rune r =
    if r <? 127 then [r]
    else if r <? 2047 then [192 + r / 64; 128 + r mod 64]
    else if r <? 65535 then [224 + r / 4096; 128 + r / 64 mod 64; 128 + r mod 64]
    else [240 + r / 262144; 128 + r / 4096 mod 64; 128 + r / 64 mod 64; 128 + r mod 64].
Proof.
  intros Hr. unfold encode_rune.
  change Rune_Max_1 with 127; change Rune_Max_2 with 2047; change Rune_Max_3 with 65535.
  destruct (Z.ltb_spec r 127).
  { simpl. rewrite ord_chr. unfold u8. by rewrite Z.mod_small by lia. }
  destruct (Z.ltb_spec r 2047).
  { simpl. rewrite cont_byte. unfold T2. change 192 with (6 * 2 ^ 5) at 1.
    rewrite lead_byte by (try apply (shiftr_bound _ 6 5); lia).
    by rewrite Z.shiftr_div_pow2. }
  destruct (Z.ltb_spec r 65535).
  { simpl. rewrite !cont_byte. unfold T3. change 224 with (14 * 2 ^ 4) at 1.
    rewrite lead_byte by (try apply (shiftr_bound _ 12 4); lia).
    by rewrite !Z.shiftr_div_pow2. }
  simpl. rewrite !cont_byte. unfold T4. change 240 with (30 * 2 ^ 3) at 1.
  rewrite lead_byte by (try apply (shiftr_bound _ 18 3); lia).
  by rewrite !Z.shiftr_div_pow2.
Qed.

Lemma continuation_mod z : continuation (128 + z mod 64) = Some (z mod 64).
Proof.
  unfold continuation. pose proof (Z.mod_pos_bound z 64 ltac:(lia)).
  destruct (Z.leb_spec 128 (128 + z mod 64)); [|lia].
  destruct (Z.ltb_spec (128 + z mod 64) 192); [|lia]. simpl. f_equal. lia.
Qed.

(** Decides the comparisons of the goal that follow from the context. *)
Ltac decide_ranges :=
  repeat match goal with
  | |- context [?a <? ?b] =>
    first
      [ replace (a <? b) with true by (symmetry; apply Z.ltb_lt; Z.div_mod_to_equations; lia)
      | replace (a <? b) with false by (symmetry; apply Z.ltb_ge; Z.div_mod_to_equations; lia) ]
  end.

(** ** Properties *)

(** C31: every rune of at most 21 bits is encoded into one to four bytes that
    decode back to the same rune, whatever text follows them. *)
Theorem encode_rune_roundtrip r rest :
  0 <= r < 2 ^ 21 →
  utf8_decode ((ord <$> encode_rune r) ++ rest) = Some (r, rest)
  ∧ (1 ≤ length (encode_rune r) ≤ 4)%nat.
Proof.
  intros Hr. rewrite <-(length_fmap ord (encode_rune r)), encode_rune_bytes by done.
  repeat case_match; bool_to_prop; (split; [|simpl; lia]); unfold utf8_decode; simpl;
    decide_ranges; repeat rewrite continuation_mod; simpl; do 2 f_equal;
    Z.div_mod_to_equations; lia.
Qed.

Lemma encode_rune_roundtrip_witness :
  0 <= 8364 < 2 ^ 21 ∧
  utf8_decode ((ord <$> encode_rune 8364) ++ [33]) = Some (8364, [33]).
Proof. split; [lia|]. apply (encode_rune_roundtrip 8364 [33]). lia. Defined.

(** apart from the three runes U+007F, U+07FF and U+FFFF, [encode_rune]
    is the encoding of RFC 3629. *)
Theorem encode_rune_reference r :
  0 <= r < 2 ^ 21 → r ≠ 127 → r ≠ 2047 → r ≠ 65535 →
  ord <$> encode_rune r = utf8_reference r.
Proof.
  intros Hr ???. rewrite encode_rune_bytes by done. unfold utf8_reference.
  repeat case_match; bool_to_prop; try done; lia.
Qed.

Lemma encode_rune_reference_witness :
  ord <$> encode_rune 128512 = utf8_reference 128512.
Proof. apply encode_rune_reference; lia. Defined.

(** At those three runes the code emits a longer form than the shortest one,
    which RFC 3629 forbids. *)
Theorem encode_rune_overlong :
  Forall (λ r, (length (encode_rune r) = S (length (utf8_reference r)))%nat)
    [127; 2047; 65535].
Proof. repeat constructor. Qed.
