(* ===== verification/Utilities.v ===== *)
(** * Utilities (src/src/utilities.cc)

    The compile-time helpers the lexer is built from, and the parts of
    [<algorithm>] they use on sorted tables. *)

From S2P Require Import Prelude.
From Stdlib Require Import Sorted Permutation.

(** ** Sorted tables *)

(** [operator<] of [string_view]: lexicographic order of unsigned bytes. *)
Definition string_lt (a b : string) : bool := String.ltb a b.

(** [std::sort] by the first component: insertion of each tuple in turn. *)
Fixpoint insert_tuple {A} (x : string * A) (l : list (string * A)) : list (string * A) :=
  match l with
  | [] => [x]
  | y :: l' => if string_lt x.1 y.1 then x :: y :: l' else y :: insert_tuple x l'
  end.

Definition sorted_array_of_tuples {A} (args : list (string * A)) : list (string * A) :=
  foldr insert_tuple [] args.

(** [std::lower_bound]: bisection of the [len] elements from [first] on. The
    interval loses at least one element at each step, so [len] steps suffice. *)
Fixpoint lower_bound_loop (fuel : nat) (comp : nat → bool) (first len : nat) : nat :=
  match fuel with
  | O => first
  | S fuel =>
    match len with
    | O => first
    | S _ =>
      let half := Nat.div2 len in
      let middle := (first + half)%nat in
      if comp middle then lower_bound_loop fuel comp (S middle) (len - half - 1)
      else lower_bound_loop fuel comp first half
    end
  end.

Definition lower_bound {A} (l : list A) (comp : A → bool) : nat :=
  lower_bound_loop (length l) (λ i, from_option comp false (l !! i)) 0 (length l).

(** ** Integer helpers *)

(** Number of digits of the largest 64-bit integer in a base; the bases
    without an entry throw. *)
Definition max_digits64 (Base : Z) : option nat :=
  if Base =? 2 then Some 64%nat
  else if Base =? 4 then Some 32%nat
  else if Base =? 6 then Some 25%nat
  else if Base =? 8 then Some 22%nat
  else if Base =? 10 then Some 20%nat
  else if Base =? 16 then Some 16%nat
  else None.

(** [pow(x, n)]: [n] 64-bit multiplications. *)
Fixpoint pow_loop (x : Z) (n : nat) (r : Z) : Z :=
  match n with O => r | S n => pow_loop x n (u64 (r * x)) end.

Definition pow (x : Z) (n : nat) : Z := pow_loop x n 1.

(** [linear(difference, fst, snd, rest...)]: the values form an arithmetic
    progression. *)
Fixpoint linear (difference fst snd : Z) (rest : list Z) : bool :=
  match rest with
  | x :: rest => (snd - fst =? difference) && linear difference snd x rest
  | [] => snd - fst =? difference
  end.

(** [count_args]: one for every argument. *)
Definition count_args {A} (args : list A) : Z := foldr (λ _ n, 1 + n) 0 args.

(** [run_command]: the command is the concatenation of the messages; the line
    that is printed, and the result of [std::system], a parameter. *)
Definition run_command (system : string → Z) (quiet : bool) (messages : list string) : list string * Z :=
  let command := foldr (λ m s, m +:+ s) ""%string messages in
  (if quiet then [] else ["[CMD] " +:+ command], system command).

(** [std::search]: the first place of [needle] in [l]. *)
Fixpoint search {A} `{EqDecision A} (l needle : list A) : option nat :=
  if decide (take (length needle) l = needle) then Some O
  else match l with [] => None | _ :: l => S <$> search l needle end.

(** [search_nth]: the same for the [count]-th occurrence, from behind the one
    before. *)
Fixpoint search_nth {A} `{EqDecision A} (count : nat) (l needle : list A) (found : nat) : nat :=
  match count with
  | O => found
  | S count =>
    match search (drop found l) needle with
    | Some k => search_nth count l needle (found + k + length needle)%nat
    | None => found
    end
  end.

(** [find_nth] on the sequence [l] for the value [v]: each of at most [count]
    rounds moves to the next occurrence from the current position and then one
    past it, and stops where there is none. The result is an index. *)
Fixpoint find_nth_loop {A} `{EqDecision A} (count : nat) (l : list A) (v : A) (found : nat) : nat :=
  match count with
  | O => found
  | S count =>
    match list_find (λ x, x = v) (drop found l) with
    | Some (k, _) => find_nth_loop count l v (S (found + k))
    | None => found
    end
  end.

Definition find_nth {A} `{EqDecision A} (l : list A) (count : nat) (v : A) : nat :=
  find_nth_loop count l v 0.

(** ** Lemmas *)

Lemma insert_tuple_perm {A} (x : string * A) l : insert_tuple x l ≡ₚ x :: l.
Proof.
  induction l as [|y l IH]; simpl; [done|]. case_match; [done|].
  rewrite IH. constructor.
Qed.

(** Sorting keeps the tuples. *)
Lemma sorted_array_perm {A} (l : list (string * A)) : sorted_array_of_tuples l ≡ₚ l.
Proof. induction l as [|x l IH]; simpl; [done|]. by rewrite insert_tuple_perm, IH. Qed.

Lemma pow_loop_spec x n r : u64 r = r → pow_loop x n r = u64 (r * x ^ Z.of_nat n).
Proof.
  revert r. induction n as [|n IH]; intros r Hr; simpl pow_loop.
  { rewrite Z.pow_0_r, Z.mul_1_r. done. }
  rewrite IH by apply u64_idemp. rewrite u64_mul_l, <-Z.mul_assoc. do 2 f_equal.
  rewrite Nat2Z.inj_succ, Z.pow_succ_r by lia. done.
Qed.

(** [pow] is exponentiation modulo 2^64. *)
Lemma pow_spec x n : pow x n = u64 (x ^ Z.of_nat n).
Proof. unfold pow. rewrite pow_loop_spec, Z.mul_1_l; done. Qed.

Definition supported_base (Base : Z) : Prop := Base ∈ [2; 6; 8; 10; 16].

(** In each base the lexer uses, [max_digits64] digits are enough for every
    64-bit integer and the weight of the leading digit fits in 64 bits. *)
Lemma max_digits64_exact Base n :
  max_digits64 Base = Some n →
  Base ^ Z.of_nat (n - 1) < 2 ^ 64 <= Base ^ Z.of_nat n ∧ (0 < n)%nat ∧ 2 <= Base.
Proof.
  unfold max_digits64. intros H.
  repeat match type of H with
  | (if ?b =? ?c then _ else _) = _ =>
    destruct (Z.eqb_spec b c) as [->|_]; [injection H as <-; split_and!; [vm_compute; reflexivity|vm_compute; discriminate|lia|lia]|]
  end.
  done.
Qed.

(** Bisection inside a partitioned interval finds the partition point. *)
Lemma lower_bound_loop_spec fuel comp first len :
  (len ≤ fuel)%nat →
  (∀ i j, first ≤ i → i ≤ j → j < first + len → comp j = true → comp i = true)%nat →
  let k := lower_bound_loop fuel comp first len in
  (first ≤ k ≤ first + len)%nat ∧
  (∀ i, first ≤ i < k → comp i = true)%nat ∧
  (∀ i, k ≤ i < first + len → comp i = false)%nat.
Proof.
  revert first len. induction fuel as [|fuel IH]; intros first len Hlen Hmono; simpl.
  { replace len with 0%nat by lia. split_and!; intros; lia. }
  destruct len as [|n]; [split_and!; intros; lia|].
  set (len := S n) in *. set (half := Nat.div2 len).
  assert (half < len)%nat by (apply Nat.lt_div2; lia).
  destruct (comp (first + half)%nat) eqn:Hc.
  - destruct (IH (S (first + half)) (len - half - 1)%nat) as (H1 & H2 & H3); [lia| |].
    { intros i j ???. apply Hmono; lia. }
    split_and!; [lia|lia| |].
    + intros i Hi. destruct (decide (i ≤ first + half)%nat); [|apply H2; lia].
      apply (Hmono i (first + half)%nat); [lia..|done].
    + intros i Hi. apply H3. lia.
  - destruct (IH first half) as (H1 & H2 & H3); [lia| |].
    { intros i j ???. apply Hmono; lia. }
    split_and!; [lia|lia|done|].
    intros i Hi. destruct (decide (i < first + half)%nat); [apply H3; lia|].
    destruct (comp i) eqn:Hi'; [|done]. rewrite (Hmono (first + half)%nat i) in Hc; [done|lia..|done].
Qed.
