(* ===== verification/Lexer.v ===== *)
(** * Lexer (src/src/lexer.cc)

    Text is a list of characters.  The main loop and the loops over blanks have
    the 32-bit index of the code, with its wrap-around; [lex_text] and
    [skip_text], on the suffix of the file that is left, are what they amount to
    on a file of less than 4 GiB.  The file and every token's text are
    NUL-terminated [std::string] buffers, so reading the character at the end of
    a view gives NUL; reading past that is undefined. *)

From S2P Require Import Prelude Syntax Errors Utilities.

Open Scope char_scope.
Open Scope Z_scope.

(** ** Characters *)

Definition NUL : ascii := chr 0.
Definition newline : ascii := chr 10.
Definition backslash : ascii := "092".
Definition dquote : ascii := "034".
Definition squote : ascii := "039".

(** [std::isspace] in the C locale: space, \t, \n, \v, \f, \r. *)
Definition isspace (c : ascii) : bool :=
  (ord c =? 32) || ((9 <=? ord c) && (ord c <=? 13)).

(** [s.front()] and [s[0]]. *)
Definition front (s : list ascii) : ascii := default NUL (head s).

(** ** Keywords *)

Definition keyword_entries : list (string * Keyword_Kind) :=
  [ ("&fun", Keyword.Function);
    ("--", Keyword.Stack_Effect_Divider);
    ("is", Keyword.Stack_Effect_Definition);
    ("[]byte", Keyword.Array);
    ("[]u16", Keyword.Array);
    ("[]u32", Keyword.Array);
    ("[]u64", Keyword.Array);
    ("[]u8", Keyword.Array);
    ("[]usize", Keyword.Array);
    ("any", Keyword.Typename);
    ("bool", Keyword.Typename);
    ("constant", Keyword.Constant);
    ("do", Keyword.Do);
    ("dyn", Keyword.Dynamic);
    ("else", Keyword.Else);
    ("end", Keyword.End);
    ("false", Keyword.Bool);
    ("fun", Keyword.Function);
    ("i16", Keyword.Typename);
    ("i32", Keyword.Typename);
    ("i64", Keyword.Typename);
    ("i8", Keyword.Typename);
    ("if", Keyword.If);
    ("import", Keyword.Import);
    ("include", Keyword.Include);
    ("ptr", Keyword.Typename);
    ("return", Keyword.Return);
    ("true", Keyword.Bool);
    ("u16", Keyword.Typename);
    ("u32", Keyword.Typename);
    ("u64", Keyword.Typename);
    ("u64", Keyword.Typename);
    ("u8", Keyword.Typename);
    ("while", Keyword.While) ]%string.

Definition String_To_Keyword : list (string * Keyword_Kind) :=
  Eval vm_compute in sorted_array_of_tuples keyword_entries.

(** The bisection of [lex]: the entry at the lower bound, if it is [s] itself. *)
Definition find_keyword (s : string) : option Keyword_Kind :=
  match String_To_Keyword !! lower_bound String_To_Keyword (λ e, string_lt e.1 s) with
  | Some (key, k) => if decide (key = s) then Some k else None
  | None => None
  end.

(** ** Integers *)

(** The digit a character stands for; any other character converts [-1] to
    [uint64_t], which no base accepts. *)
Definition digit_value (c : ascii) : Z :=
  let o := ord c in
  if (ord "0" <=? o) && (o <=? ord "9") then o - ord "0"
  else if (ord "a" <=? o) && (o <=? ord "z") then o - ord "a" + 10
  else if (ord "A" <=? o) && (o <=? ord "Z") then o - ord "A" + 10
  else 2 ^ 64 - 1.

(** [while (s.front() == '0' || s.front() == '_') s.remove_prefix(1)] *)
Fixpoint skip_leading (s : list ascii) : list ascii :=
  match s with
  | c :: s' => if decide (c = "0" ∨ c = "_") then skip_leading s' else s
  | [] => []
  end.

Definition Powers_Lookup (Base : Z) (Max_Digits : nat) : list Z :=
  (λ I, pow Base (Max_Digits - I - 1)) <$> seq 0 Max_Digits.

(** [s[s.size() - k]] *)
Definition from_end (s : list ascii) (k : nat) : ascii :=
  default NUL (s !! (length s - k)%nat).

Definition is_suffix_mark (c : ascii) : bool := bool_decide (c = "i" ∨ c = "u").

Definition ends_with (s suffix : list ascii) : bool :=
  bool_decide (length suffix ≤ length s ∧ drop (length s - length suffix) s = suffix)%nat.

Definition remove_suffix (n : nat) (s : list ascii) : list ascii := take (length s - n) s.

(** The size suffix of a literal: [None] is [return false]. *)
Definition parse_suffix (s : list ascii) (t : Token) : option (list ascii * Token) :=
  if (2 <=? length s)%nat && is_suffix_mark (from_end s 2) then
    if ends_with s ["8"] then Some (remove_suffix 2 s, set_tok_byte_size 1 t) else None
  else if (3 <=? length s)%nat && is_suffix_mark (from_end s 3) then
    if ends_with s ["1"; "6"] then Some (remove_suffix 3 s, set_tok_byte_size 2 t)
    else if ends_with s ["3"; "2"] then Some (remove_suffix 3 s, set_tok_byte_size 4 t)
    else if ends_with s ["6"; "4"] then Some (remove_suffix 3 s, set_tok_byte_size 8 t)
    else None
  else Some (s, t).

Definition underscores (s : list ascii) : nat := length (filter (λ c, c = "_") s).

(** [Powers_Lookup[i]] with a [size_t] index. *)
Definition power_at (powers : list Z) (i : Z) : option Z :=
  if i <? Z.of_nat (length powers) then powers !! Z.to_nat i else None.

(** The digit loop: [Some (ok, ival)], or [None] when [Powers_Lookup] is read
    out of range. *)
Fixpoint digits_loop (Base : Z) (powers : list Z) (s : list ascii) (i ival : Z)
    : option (bool * Z) :=
  match s with
  | [] => Some (true, ival)
  | c :: s =>
    if decide (c = "_") then digits_loop Base powers s i ival
    else
      let value := digit_value c in
      if Base <=? value then Some (false, ival)
      else
        match power_at powers i with
        | Some p => digits_loop Base powers s (u64 (i + 1)) (u64 (ival + u64 (p * value)))
        | None => None
        end
  end.

(** [parse_int<Base>(token)]: the token with what the function assigned to it
    and the result, or [None] when the behaviour is undefined. *)
Definition parse_int (Base : Z) (token : Token) : option (Token * bool) :=
  Max_Digits ← max_digits64 Base;
  let s := chars (tok_sval token) in
  let s := if Base =? 10 then s else drop 2 s in
  let s := skip_leading s in
  let us := underscores s in
  match parse_suffix s token with
  | None => Some (token, false)
  | Some (s, token) =>
    let i := u64 (u64 (Z.of_nat Max_Digits - Z.of_nat (length s)) + Z.of_nat us) in
    '(ok, ival) ← digits_loop Base (Powers_Lookup Base Max_Digits) s i 0;
    Some (set_tok_ival ival token, ok)
  end.

(** ** Tokens *)

(** Skips whitespace and comments from the index [i] on, a 32-bit [unsigned]
    that is compared with the size of the file.  A comment the file ends in
    makes the code set [i] one past the end of the file and read there.  A
    position is not met twice unless the index wraps around and the loop does
    not end, so one step for each character and one for the end are enough. *)
Fixpoint skip_blank (fuel : nat) (file : list ascii) (i column line : Z) : comp (Z * Z * Z) :=
  match fuel with
  | O => out_of_fuel
  | S fuel =>
    match file !! Z.to_nat i with
    | None => mret (i, column, line)
    | Some ch =>
      if isspace ch then
        if decide (ch = newline) then skip_blank fuel file (u32 (i + 1)) 1 (u32 (line + 1))
        else skip_blank fuel file (u32 (i + 1)) (u32 (column + 1)) line
      else if decide (ch = "#") then
        match list_find (λ c, c = newline) (drop (Z.to_nat i) file) with
        | None => undefined
        | Some (after_comment, _) =>
          skip_blank fuel file (u32 (i + Z.of_nat after_comment + 1)) 1 (u32 (line + 1))
        end
      else mret (i, column, line)
    end
  end.

(** [std::adjacent_find] for a pair whose second character is [terminating]
    and whose first is no backslash. *)
Fixpoint adjacent_find (terminating : ascii) (l : list ascii) : option nat :=
  match l with
  | prev :: ((current :: _) as l') =>
    if decide (prev ≠ backslash ∧ current = terminating) then Some 0%nat
    else S <$> adjacent_find terminating l'
  | _ => None
  end.

Fixpoint until_space (l : list ascii) : list ascii :=
  match l with
  | c :: l' => if isspace c then [] else c :: until_space l'
  | [] => []
  end.

Definition quoted_char (c : ascii) : string := ("`" +:+ str_of [c] +:+ "`")%string.

(** A string or character literal; [rest] starts with the quote [ch], and [next]
    is [file[i+1]]. *)
Definition lex_quoted (ch next : ascii) (rest : list ascii) (token : Token) : comp Token :=
  let token := set_tok_kind (if decide (ch = dquote) then TokKind.String else TokKind.Char) token in
  let loc := Some (tok_location token) in
  if (length rest <? 1)%nat then
    error_fatal loc ("Missing terminating " +:+ quoted_char ch +:+ " character")
  else if decide (next = ch) then
    if decide (ch = squote) then error_fatal loc "Empty character literals are invalid"
    else mret (set_tok_sval (str_of [dquote; dquote]) token)
  else
    match adjacent_find ch (drop 1 rest) with
    | None => error_fatal loc ("Missing terminating " +:+ quoted_char ch +:+ " character.")
    | Some str_end => mret (set_tok_sval (str_of (take (str_end + 3) rest)) token)
    end.

(** A number, an address or a word, for a text that is no keyword. *)
Definition lex_number_or_word (token : Token) : comp Token :=
  let sval := chars (tok_sval token) in
  let try_base (Base : Z) (t : Token) : comp (Token * bool) :=
    from_option mret undefined (parse_int Base t) in
  '(token, consumed) ←
    (if decide (front sval = "0") then
      let c := front (drop 1 sval) in
      if decide (c = "b") then try_base 2 token
      else if decide (c = "s") then try_base 6 token
      else if decide (c = "o") then try_base 8 token
      else if decide (c = "x") then try_base 16 token
      else mret (token, false)
    else mret (token, false));
  '(token, consumed) ← (if consumed : bool then mret (token, true) else try_base 10 token);
  if consumed : bool then mret (set_tok_kind TokKind.Integer token)
  else if decide (front sval = "&") then mret (set_tok_kind TokKind.Address_Of token)
  else mret (set_tok_kind TokKind.Word token).

(** One token from the first non-blank character of [rest] on. *)
Definition lex_token (next : ascii) (rest : list ascii) (loc : Location) : comp Token :=
  let token := Token_at loc in
  let ch := front rest in
  if decide (ch = dquote ∨ ch = squote) then lex_quoted ch next rest token
  else
    let token := set_tok_sval (str_of (until_space rest)) token in
    match find_keyword (tok_sval token) with
    | Some k => mret (set_tok_kval k (set_tok_kind TokKind.Keyword token))
    | None => lex_number_or_word token
    end.

(** The main loop; [i] and the fuel as in [skip_blank]: every token has at least
    one character. *)
Fixpoint lex_loop (fuel : nat) (path : string) (file : list ascii) (i column line : Z)
    (tokens : list Token) : comp (list Token * bool) :=
  match fuel with
  | O => out_of_fuel
  | S fuel =>
    if negb (i <? Z.of_nat (length file)) then mret (tokens, true)
    else
      '(i, column, line) ← skip_blank (S (length file)) file i column line;
      if i =? Z.of_nat (length file) then mret (tokens, true)
      else
        let next := default NUL (file !! Z.to_nat (u32 (i + 1))) in
        token ← lex_token next (drop (Z.to_nat i) file) (mk_Location path column line "");
        let n := Z.of_nat (length (chars (tok_sval token))) in
        lex_loop fuel path file (u32 (i + n)) (u32 (column + n)) line (tokens ++ [token])
  end.

Definition lex (file : string) (path : string) (tokens : list Token)
    : comp (list Token * bool) :=
  let file := chars file in
  lex_loop (S (length file)) path file 0 1 1 tokens.

(** ** The text that is left

    In a file of less than 2^32 characters the index does not wrap around, and
    the loops are recursions on the rest of the text. *)

(** Skips whitespace and comments; [comment] tells that the position is inside
    a comment. *)
Fixpoint skip_text (comment : bool) (rest : list ascii) (column line : Z)
    : option (list ascii * Z * Z) :=
  match rest with
  | [] => if comment then None else Some ([], column, line)
  | c :: r =>
    if comment then
      if decide (c = newline) then skip_text false r 1 (u32 (line + 1))
      else skip_text true r column line
    else if isspace c then
      if decide (c = newline) then skip_text false r 1 (u32 (line + 1))
      else skip_text false r (u32 (column + 1)) line
    else if decide (c = "#") then skip_text true r column line
    else Some (rest, column, line)
  end.

Fixpoint lex_text (fuel : nat) (path : string) (rest : list ascii) (column line : Z)
    (tokens : list Token) : comp (list Token * bool) :=
  match fuel with
  | O => out_of_fuel
  | S fuel =>
    match rest with
    | [] => mret (tokens, true)
    | _ =>
      match skip_text false rest column line with
      | None => undefined
      | Some ([], _, _) => mret (tokens, true)
      | Some (rest, column, line) =>
        token ← lex_token (front (drop 1 rest)) rest (mk_Location path column line "");
        let n := length (chars (tok_sval token)) in
        lex_text fuel path (drop n rest) (u32 (column + Z.of_nat n)) line (tokens ++ [token])
      end
    end
  end.

(** ** Keyword lookup *)

(** The table the bisection searches is the sorted list of entries. *)
Lemma String_To_Keyword_sorted : String_To_Keyword = sorted_array_of_tuples keyword_entries.
Proof. vm_compute. reflexivity. Qed.

Lemma find_keyword_entries : Forall (λ e, find_keyword e.1 = Some e.2) keyword_entries.
Proof. repeat constructor. Qed.

(** ** Values of numerals *)

Section Numerals.
  Context (Base : Z) (Max : nat).
  Context (HMax : max_digits64 Base = Some Max).

(** A numeral of the base: digits and separators. *)
Definition numeral (s : list ascii) : Prop :=
  Forall (λ c, c = "_" ∨ digit_value c < Base) s.

Definition ndigits (s : list ascii) : nat := length (filter (λ c, c ≠ "_") s).

(** The number a numeral stands for, by Horner's rule. *)
Definition horner (acc : Z) (s : list ascii) : Z :=
  foldl (λ acc c, if decide (c = "_") then acc else acc * Base + digit_value c) acc s.

Lemma digit_value_nonneg c : 0 <= digit_value c.
Proof.
  unfold digit_value. pose proof (ord_range c).
  repeat case_match; bool_to_prop; vm_compute (ord "0") in *; vm_compute (ord "a") in *;
    vm_compute (ord "A") in *; lia.
Qed.

Lemma underscores_ndigits s : (underscores s + ndigits s = length s)%nat.
Proof.
  unfold underscores, ndigits. induction s as [|c s IH]; [done|].
  rewrite !filter_cons. repeat case_decide; simpl; try congruence; try tauto; lia.
Qed.

Lemma ndigits_cons c s : ndigits (c :: s) = if decide (c = "_") then ndigits s else S (ndigits s).
Proof. unfold ndigits. rewrite filter_cons. repeat case_decide; done || tauto. Qed.

Lemma horner_acc acc s : horner acc s = acc * Base ^ Z.of_nat (ndigits s) + horner 0 s.
Proof.
  revert acc. induction s as [|c s IH]; intros acc.
  { simpl. change (ndigits []) with 0%nat. rewrite Z.pow_0_r. lia. }
  rewrite ndigits_cons. simpl. case_decide; [apply IH|].
  rewrite IH, (IH (0 * Base + _)), Nat2Z.inj_succ, Z.pow_succ_r by lia. lia.
Qed.

Lemma horner_cons c s :
  c ≠ "_" → horner 0 (c :: s) = digit_value c * Base ^ Z.of_nat (ndigits s) + horner 0 s.
Proof.
  intros Hc. simpl. rewrite decide_False by done. rewrite horner_acc. f_equal.
Qed.

Lemma length_Powers_Lookup : length (Powers_Lookup Base Max) = Max.
Proof. unfold Powers_Lookup. by rewrite length_fmap, length_seq. Qed.

Lemma power_at_spec n :
  (n < Max)%nat →
  power_at (Powers_Lookup Base Max) (Z.of_nat Max - Z.of_nat (S n)) = Some (u64 (Base ^ Z.of_nat n)).
Proof.
  intros Hn. unfold power_at. rewrite length_Powers_Lookup.
  destruct (Z.ltb_spec (Z.of_nat Max - Z.of_nat (S n)) (Z.of_nat Max)); [|lia].
  unfold Powers_Lookup. rewrite list_lookup_fmap.
  replace (Z.to_nat _) with (Max - S n)%nat by lia.
  rewrite lookup_seq_lt by lia. simpl. rewrite pow_spec. do 4 f_equal. lia.
Qed.

Lemma Max_small : Z.of_nat Max < 2 ^ 32.
Proof. revert HMax. unfold max_digits64. repeat (case_match; try done); intros [= <-]; done. Qed.

(** The digit loop adds up the value of a numeral that fits the table. *)
Lemma digits_loop_value s ival :
  numeral s → (ndigits s ≤ Max)%nat → is_u64 ival →
  digits_loop Base (Powers_Lookup Base Max) s (Z.of_nat Max - Z.of_nat (ndigits s)) ival =
    Some (true, u64 (ival + horner 0 s)).
Proof.
  intros Hs. revert ival. induction Hs as [|c s Hc Hs IH]; intros ival Hn Hival.
  { simpl. rewrite Z.add_0_r, u64_small; done. }
  rewrite ndigits_cons in Hn |- *. cbn [digits_loop]. case_decide as Hc'.
  { rewrite IH by done. simpl. by rewrite decide_True. }
  destruct Hc as [|Hc]; [done|].
  destruct (Z.leb_spec Base (digit_value c)); [lia|].
  rewrite power_at_spec by lia. pose proof Max_small as HM.
  replace (u64 (_ + 1)) with (Z.of_nat Max - Z.of_nat (ndigits s)).
  2:{ rewrite u64_small; [lia|]. unfold is_u64. lia. }
  rewrite IH by (done || lia || apply u64_range). do 2 f_equal.
  rewrite horner_cons by done. rewrite u64_mul_l, u64_add_r, u64_add_l. f_equal. lia.
Qed.

(** A numeral with more digits than the table has entries is read past it. *)
Lemma digits_loop_overflow s ival :
  numeral s → (Max < ndigits s)%nat → Z.of_nat (ndigits s) < 2 ^ 63 →
  digits_loop Base (Powers_Lookup Base Max) s
    (u64 (Z.of_nat Max - Z.of_nat (ndigits s))) ival = None.
Proof.
  intros Hs Hn Hlen. pose proof Max_small as HM.
  assert (u64 (Z.of_nat Max - Z.of_nat (ndigits s))
    = 2 ^ 64 + (Z.of_nat Max - Z.of_nat (ndigits s))) as ->.
  { unfold u64. rewrite <-(Z_mod_plus_full _ 1), Z.mul_1_l. rewrite Z.mod_small; lia. }
  revert Hn. induction Hs as [|c s Hc Hs IH]; intros Hn; [by apply Nat.nlt_0_r in Hn|].
  rewrite ndigits_cons in Hlen, Hn |- *. cbn [digits_loop]. case_decide; [by apply IH|].
  destruct Hc as [|Hc]; [done|].
  destruct (Z.leb_spec Base (digit_value c)); [lia|].
  unfold power_at. rewrite length_Powers_Lookup.
  destruct (Z.ltb_spec (2 ^ 64 + (Z.of_nat Max - Z.of_nat (S (ndigits s)))) (Z.of_nat Max)); [lia|done].
Qed.

End Numerals.

(** ** Size suffixes *)

(** The suffixes of a sized literal and the bytes each one stands for. *)
Definition size_suffixes : list (list ascii * Z) :=
  [ (["i"; "8"], 1); (["u"; "8"], 1);
    (["i"; "1"; "6"], 2); (["u"; "1"; "6"], 2);
    (["i"; "3"; "2"], 4); (["u"; "3"; "2"], 4);
    (["i"; "6"; "4"], 8); (["u"; "6"; "4"], 8) ].

(** One goal for each size suffix. *)
Ltac each_suffix Hin :=
  unfold size_suffixes in Hin; rewrite !elem_of_cons, elem_of_nil in Hin;
  destruct_or! Hin; simplify_eq.

Lemma from_end_app s suf k :
  (0 < k ≤ length suf)%nat → from_end (s ++ suf) k = from_end suf k.
Proof.
  intros Hk. unfold from_end. rewrite length_app, lookup_app_r by lia. do 2 f_equal. lia.
Qed.

Lemma ends_with_app s suf x :
  (length x ≤ length suf)%nat → ends_with (s ++ suf) x = ends_with suf x.
Proof.
  intros Hx. unfold ends_with. apply bool_decide_ext. rewrite length_app.
  rewrite drop_app_ge by lia.
  replace (length s + length suf - length x - length s)%nat with (length suf - length x)%nat by lia.
  intuition lia.
Qed.

Lemma remove_suffix_app s suf : remove_suffix (length suf) (s ++ suf) = s.
Proof. unfold remove_suffix. rewrite length_app, Nat.add_sub. apply take_app_length. Qed.

(** A literal followed by a size suffix loses it and gets its size. *)
Lemma parse_suffix_sized s suf n t :
  (suf, n) ∈ size_suffixes → parse_suffix (s ++ suf) t = Some (s, set_tok_byte_size n t).
Proof.
  intros Hin. unfold parse_suffix.
  pose proof (remove_suffix_app s suf) as Hr.
  each_suffix Hin; rewrite length_app, ?from_end_app, ?ends_with_app by (simpl; lia);
    replace (2 <=? _)%nat with true by (symmetry; apply Nat.leb_le; simpl; lia);
    try replace (3 <=? _)%nat with true by (symmetry; apply Nat.leb_le; simpl; lia);
    simpl in Hr; rewrite Hr; reflexivity.
Qed.

Lemma from_end_elem s k : (0 < k ≤ length s)%nat → from_end s k ∈ s.
Proof.
  intros Hk. unfold from_end. destruct (lookup_lt_is_Some_2 s (length s - k)%nat) as [c Hc]; [lia|].
  rewrite Hc. by apply list_elem_of_lookup_2 in Hc.
Qed.

(** A text without the letters [i] and [u] has no size suffix. *)
Lemma parse_suffix_none s t :
  Forall (λ c, is_suffix_mark c = false) s → parse_suffix s t = Some (s, t).
Proof.
  intros Hs. rewrite list.Forall_forall in Hs.
  assert (∀ k, (0 < k)%nat → (k <=? length s)%nat && is_suffix_mark (from_end s k) = false) as Hk.
  { intros k Hk. destruct (Nat.leb_spec k (length s)); [|done].
    rewrite Hs by (apply from_end_elem; lia). done. }
  unfold parse_suffix. by rewrite !Hk by lia.
Qed.

(** ** Correctness of [parse_int] *)

Section ParseInt.
  Context (Base : Z) (Max : nat).
  Context (HMax : max_digits64 Base = Some Max).

Lemma Base_small : Base <= 16.
Proof. revert HMax. unfold max_digits64. repeat case_match; bool_to_prop; lia || done. Qed.

Lemma skip_leading_app s suf :
  (∀ c, head suf = Some c → c ≠ "0" ∧ c ≠ "_") →
  skip_leading (s ++ suf) = skip_leading s ++ suf.
Proof.
  intros Hsuf. induction s as [|c s IH]; simpl; [|by case_decide].
  destruct suf as [|c suf]; [done|]. simpl. specialize (Hsuf c eq_refl).
  rewrite decide_False; [done|tauto].
Qed.

Lemma skip_leading_numeral s : numeral Base s → numeral Base (skip_leading s).
Proof. induction 1; simpl; [constructor|]. case_decide; [done|]. by constructor. Qed.

Lemma skip_leading_horner s : horner Base 0 (skip_leading s) = horner Base 0 s.
Proof.
  induction s as [|c s IH]; [done|]. simpl skip_leading. case_decide as Hc; [|done].
  rewrite IH. simpl. destruct Hc as [->| ->]; [|done].
  rewrite decide_False by done. change (digit_value "0") with 0. by rewrite Z.add_0_r, Z.mul_0_l.
Qed.

Lemma digit_not_mark c : c = "_" ∨ digit_value c < Base → is_suffix_mark c = false.
Proof.
  intros Hc. apply bool_decide_eq_false. pose proof Base_small.
  intros [->| ->]; destruct Hc as [Hc|Hc]; try done; vm_compute (digit_value _) in Hc; lia.
Qed.

Lemma numeral_no_marks s : numeral Base s → Forall (λ c, is_suffix_mark c = false) s.
Proof. intros Hs. eapply Forall_impl; [exact Hs|]. apply digit_not_mark. Qed.

(** The token of a literal with the given suffix, before its value is set. *)
Inductive sized : list ascii → Token → Token → Prop :=
  | sized_none t : sized [] t t
  | sized_suffix suf n t : (suf, n) ∈ size_suffixes → sized suf t (set_tok_byte_size n t).

Lemma sized_facts suf t t' s :
  sized suf t t' → numeral Base s →
  (∀ c, head suf = Some c → c ≠ "0" ∧ c ≠ "_") ∧
  parse_suffix (s ++ suf) t = Some (s, t') ∧ underscores (s ++ suf) = underscores s.
Proof.
  intros Hsuf Hs. destruct Hsuf as [t|suf n t Hin].
  { rewrite app_nil_r. split_and!; [done|by apply parse_suffix_none, numeral_no_marks|done]. }
  split_and!.
  - intros c Hc. each_suffix Hin; by simplify_eq/=.
  - by apply parse_suffix_sized.
  - unfold underscores. rewrite list.filter_app, length_app.
    each_suffix Hin; simpl; lia.
Qed.

(** What [parse_int] does with a text that is a numeral, after the prefix
    of the base and before the size suffix. *)
Lemma parse_int_numeral t t' prefix body suf :
  chars (tok_sval t) = prefix ++ body ++ suf →
  length prefix = (if (Base =? 10)%Z then 0 else 2)%nat →
  numeral Base body → sized suf t t' → Z.of_nat (length body) < 2 ^ 63 →
  parse_int Base t =
    if (ndigits (skip_leading body) <=? Max)%nat
    then Some (set_tok_ival (u64 (horner Base 0 body)) t', true)
    else None.
Proof.
  intros Htext Hprefix Hbody Hsuf Hlen. unfold parse_int. rewrite HMax. simpl.
  rewrite Htext.
  replace (if Base =? 10 then _ else _) with (body ++ suf).
  2:{ destruct (Base =? 10); [by destruct prefix|]. rewrite <-Hprefix. by rewrite drop_app_length. }
  pose proof (skip_leading_numeral _ Hbody) as Hs.
  destruct (sized_facts suf t t' _ Hsuf Hs) as (Hhead & Hparse & Hus).
  rewrite skip_leading_app, Hparse, Hus by done. set (s := skip_leading body) in *.
  pose proof (underscores_ndigits s) as Hcount.
  assert (length s ≤ length body)%nat as Hs_le.
  { clear. subst s. induction body as [|c body IH]; simpl; [done|]. case_decide; simpl; lia. }
  rewrite u64_add_l.
  replace (Z.of_nat Max - Z.of_nat (length s) + Z.of_nat (underscores s))
    with (Z.of_nat Max - Z.of_nat (ndigits s)) by lia.
  destruct (Nat.leb_spec (ndigits s) Max).
  - pose proof (Max_small _ _ HMax). rewrite u64_small by (unfold is_u64; lia).
    rewrite (digits_loop_value _ _ HMax) by (done || lia || (unfold is_u64; lia)).
    simpl. subst s. by rewrite Z.add_0_l, skip_leading_horner.
  - rewrite (digits_loop_overflow _ _ HMax) by (done || lia). done.
Qed.

End ParseInt.

(** ** Printing integers *)

Definition digit_char (d : Z) : ascii := if d <? 10 then chr (48 + d) else chr (87 + d).

(** The digits of [v], most significant first, without leading zeros. *)
Fixpoint print_loop (fuel : nat) (Base v : Z) (acc : list ascii) : list ascii :=
  match fuel with
  | O => acc
  | S fuel =>
    let acc := digit_char (v mod Base) :: acc in
    if v <? Base then acc else print_loop fuel Base (v / Base) acc
  end.

Definition print_int (Base v : Z) : list ascii := print_loop 64 Base v [].
Arguments print_int : simpl never.

(** The prefix [lex] recognises for a base. *)
Definition base_prefix (Base : Z) : list ascii :=
  if Base =? 2 then ["0"; "b"]
  else if Base =? 6 then ["0"; "s"]
  else if Base =? 8 then ["0"; "o"]
  else if Base =? 16 then ["0"; "x"]
  else [].

Lemma digit_char_value d : 0 <= d < 16 → digit_value (digit_char d) = d ∧ digit_char d ≠ "_".
Proof.
  intros Hd. assert (d ∈ seqZ 0 16) as Hin by (apply elem_of_seqZ; lia).
  revert d Hd Hin. assert (Forall (λ d, digit_value (digit_char d) = d ∧ digit_char d ≠ "_") (seqZ 0 16)) as H.
  { repeat constructor; done. }
  intros d _ Hin. by apply (proj1 (list.Forall_forall _ _) H d Hin).
Qed.

Section Print.
  Context (Base : Z) (Max : nat).
  Context (HMax : max_digits64 Base = Some Max).

Lemma print_loop_horner fuel v acc :
  0 <= v < Base ^ Z.of_nat fuel → (0 < fuel)%nat →
  horner Base 0 (print_loop fuel Base v acc) = horner Base v acc.
Proof.
  pose proof (Base_small _ _ HMax) as HB. pose proof (max_digits64_exact _ _ HMax) as (_ & _ & HB2).
  revert v acc. induction fuel as [|fuel IH]; intros v acc Hv Hf; [lia|]. simpl.
  pose proof (Z.mod_pos_bound v Base ltac:(lia)) as Hm.
  destruct (digit_char_value (v mod Base)) as [Hd Hne]; [lia|].
  rewrite Nat2Z.inj_succ, Z.pow_succ_r in Hv by lia.
  assert (horner Base (v / Base) (digit_char (v mod Base) :: acc) = horner Base v acc) as Hstep.
  { simpl. rewrite decide_False, Hd by done. f_equal.
    rewrite Z.mul_comm. symmetry. apply Z.div_mod. lia. }
  destruct (Z.ltb_spec v Base) as [Hlt|Hge].
  - rewrite <-Hstep. by rewrite Z.div_small by lia.
  - rewrite IH; [done| |].
    + split; [apply Z.div_pos; lia|]. apply Z.div_lt_upper_bound; lia.
    + destruct fuel; [simpl in Hv; lia|lia].
Qed.

Lemma print_loop_digits fuel v acc :
  0 <= v → Forall (λ c, digit_value c < Base) acc →
  Forall (λ c, digit_value c < Base) (print_loop fuel Base v acc).
Proof.
  pose proof (Base_small _ _ HMax) as HB. pose proof (max_digits64_exact _ _ HMax) as (_ & _ & HB2).
  revert v acc. induction fuel as [|fuel IH]; intros v acc Hv Hacc; [done|]. simpl.
  pose proof (Z.mod_pos_bound v Base ltac:(lia)) as Hm.
  assert (Forall (λ c, digit_value c < Base) (digit_char (v mod Base) :: acc)).
  { constructor; [|done]. destruct (digit_char_value (v mod Base)) as [-> _]; lia. }
  case_match; [done|]. apply IH; [apply Z.div_pos; lia|done].
Qed.

Lemma print_int_digits v : 0 <= v → Forall (λ c, digit_value c < Base) (print_int Base v).
Proof. intros Hv. by apply print_loop_digits. Qed.

Lemma print_int_not_nil v : print_int Base v ≠ [].
Proof.
  assert (∀ fuel v acc, (0 < fuel)%nat ∨ acc ≠ [] → print_loop fuel Base v acc ≠ []) as H.
  { induction fuel as [|fuel IH]; intros w acc Hacc; simpl; [destruct Hacc; [lia|done]|].
    case_match; [done|]. apply IH. by right. }
  apply H. left. lia.
Qed.

Lemma length_print_loop fuel v acc n :
  0 <= v < Base ^ Z.of_nat n → (0 < n)%nat →
  (length (print_loop fuel Base v acc) ≤ length acc + n)%nat.
Proof.
  pose proof (max_digits64_exact _ _ HMax) as (_ & _ & HB2).
  revert v acc n. induction fuel as [|fuel IH]; intros v acc n Hv Hn; simpl; [lia|].
  destruct (Z.ltb_spec v Base); [simpl; lia|]. destruct n as [|n]; [lia|].
  rewrite Nat2Z.inj_succ, Z.pow_succ_r in Hv by lia.
  destruct n as [|n]; [simpl in Hv; lia|].
  specialize (IH (v / Base) (digit_char (v mod Base) :: acc) (S n)). simpl in IH |- *.
  assert (0 <= v / Base < Base ^ Z.of_nat (S n)); [|lia].
  split; [apply Z.div_pos; lia|]. apply Z.div_lt_upper_bound; lia.
Qed.

Lemma ndigits_le_length s : (ndigits s ≤ length s)%nat.
Proof. pose proof (underscores_ndigits s). lia. Qed.

Lemma length_skip_leading s : (length (skip_leading s) ≤ length s)%nat.
Proof. induction s as [|c s IH]; simpl; [done|]. case_decide; simpl; lia. Qed.

(** The printed form of a 64-bit integer is a numeral of its value that fits
    the table of powers. *)
Lemma print_int_facts v :
  is_u64 v →
  numeral Base (print_int Base v) ∧ horner Base 0 (print_int Base v) = v ∧
  (ndigits (skip_leading (print_int Base v)) ≤ Max)%nat ∧
  Z.of_nat (length (print_int Base v)) < 2 ^ 63.
Proof.
  intros Hv. destruct (max_digits64_exact _ _ HMax) as ([_ HM] & HM0 & HB).
  assert (0 <= v < Base ^ Z.of_nat Max) as HvM by (unfold is_u64 in Hv; lia).
  assert (2 ^ 64 <= Base ^ Z.of_nat 64) as H64 by (apply Z.pow_le_mono_l; lia).
  pose proof (length_print_loop 64 v [] Max HvM HM0) as Hlen. fold (print_int Base v) in Hlen.
  split_and!.
  - eapply list.Forall_impl; [apply print_int_digits; unfold is_u64 in Hv; lia|]. simpl. auto.
  - unfold print_int. rewrite print_loop_horner; [done| |lia]. unfold is_u64 in Hv; lia.
  - pose proof (ndigits_le_length (skip_leading (print_int Base v))).
    pose proof (length_skip_leading (print_int Base v)). simpl in Hlen. lia.
  - pose proof (Max_small _ _ HMax). simpl in Hlen. lia.
Qed.

Lemma length_base_prefix : length (base_prefix Base) = (if (Base =? 10)%Z then 0 else 2)%nat ∨ Base = 4.
Proof.
  revert HMax. unfold max_digits64, base_prefix.
  repeat (case_match; bool_to_prop; subst; try done; auto).
Qed.

End Print.

(** ** Lexemes

    What a source file is made of, to state what [lex] recognises: a lexeme
    has a spelling, and a token matches it when it has that text, the right
    kind and the right value. *)

Inductive lexeme :=
  | L_keyword (s : string) (k : Keyword_Kind)
  | L_integer (Base v : Z)
  | L_word (s : list ascii)
  | L_address (s : list ascii)
  | L_string (body : list ascii)
  | L_char (body : list ascii).

Definition spell (l : lexeme) : list ascii :=
  match l with
  | L_keyword s _ => chars s
  | L_integer Base v => base_prefix Base ++ print_int Base v
  | L_word s => s
  | L_address s => "&" :: s
  | L_string body => dquote :: body ++ [dquote]
  | L_char body => squote :: body ++ [squote]
  end.

(** The body of a literal quoted with [q], after the character [prev]: each
    quote in it follows a backslash, and it does not end in one. *)
Fixpoint literal_body (q prev : ascii) (body : list ascii) : Prop :=
  match body with
  | [] => prev ≠ backslash
  | c :: body => (c = q → prev = backslash) ∧ literal_body q c body
  end.

Definition word_text (s : list ascii) : Prop :=
  Forall (λ c, isspace c = false) s ∧ find_keyword (str_of s) = None.

Definition lexeme_ok (l : lexeme) : Prop :=
  match l with
  | L_keyword s k => find_keyword s = Some k
  | L_integer Base v => Base ∈ [2; 6; 8; 10; 16] ∧ is_u64 v
  | L_word s =>
    word_text s ∧
    match s with
    | c :: _ => 10 <= digit_value c ∧ c ≠ "_" ∧ c ≠ dquote ∧ c ≠ squote ∧ c ≠ "#" ∧ c ≠ "&"
    | [] => False
    end
  | L_address s => word_text ("&" :: s)
  | L_string body => match body with c :: b => c ≠ dquote ∧ literal_body dquote c b | [] => True end
  | L_char body => match body with c :: b => c ≠ squote ∧ literal_body squote c b | [] => False end
  end.

Definition token_matches (l : lexeme) (t : Token) : Prop :=
  chars (tok_sval t) = spell l ∧
  match l with
  | L_keyword _ k => tok_kind t = TokKind.Keyword ∧ tok_kval t = k
  | L_integer _ v => tok_kind t = TokKind.Integer ∧ tok_ival t = v
  | L_word _ => tok_kind t = TokKind.Word
  | L_address _ => tok_kind t = TokKind.Address_Of
  | L_string _ => tok_kind t = TokKind.String
  | L_char _ => tok_kind t = TokKind.Char
  end.

(** Whitespace and comments that end in a newline. *)
Inductive blank : list ascii → Prop :=
  | blank_nil : blank []
  | blank_space c r : isspace c = true → blank r → blank (c :: r)
  | blank_comment text r : newline ∉ text → blank r → blank ("#" :: text ++ newline :: r).

Definition starts_blank (s : list ascii) : Prop :=
  match s with c :: _ => isspace c = true | [] => True end.

Definition starts_token (s : list ascii) : Prop :=
  match s with c :: _ => isspace c = false ∧ c ≠ "#" | [] => True end.

(** A file: lexemes, each followed by a blank text. *)
Definition render (ls : list (lexeme * list ascii)) : list ascii :=
  concat ((λ p, spell p.1 ++ p.2) <$> ls).

Definition file_ok (ls : list (lexeme * list ascii)) : Prop :=
  Forall (λ p, lexeme_ok p.1 ∧ blank p.2 ∧ starts_blank p.2 ∧ p.2 ≠ []) ls.

(** *** Places *)

(** The number of newlines of a text, and of the characters behind the last one. *)
Definition newlines (l : list ascii) : Z := Z.of_nat (length (filter (λ c, c = newline) l)).
Definition last_line (l : list ascii) : Z := foldl (λ n c, if decide (c = newline) then 0 else n + 1) 0 l.

(** The counters of the code behind a text. *)
Definition at_place (before : list ascii) (column line : Z) : Prop :=
  column = u32 (1 + last_line before) ∧ line = u32 (1 + newlines before).

Lemma last_line_snoc l c : last_line (l ++ [c]) = if decide (c = newline) then 0 else last_line l + 1.
Proof. unfold last_line. by rewrite foldl_app. Qed.

Lemma newlines_snoc l c : newlines (l ++ [c]) = newlines l + if decide (c = newline) then 1 else 0.
Proof.
  unfold newlines. rewrite filter_app, length_app, filter_cons, filter_nil. by case_decide; simpl; lia.
Qed.

Lemma at_place_newline before column line :
  at_place before column line → at_place (before ++ [newline]) 1 (u32 (line + 1)).
Proof.
  intros [-> ->]. unfold at_place. rewrite last_line_snoc, newlines_snoc, !decide_True by done. split; [done|].
  unfold u32. rewrite Zplus_mod_idemp_l. f_equal. lia.
Qed.

Lemma at_place_char before c column line :
  at_place before column line → c ≠ newline → at_place (before ++ [c]) (u32 (column + 1)) line.
Proof.
  intros [-> ->] Hc. unfold at_place. rewrite last_line_snoc, newlines_snoc, !decide_False by done.
  unfold u32. rewrite Zplus_mod_idemp_l. split; f_equal; lia.
Qed.

Lemma at_place_text before s : ∀ column line,
  at_place before column line → newline ∉ s → at_place (before ++ s) (u32 (column + Z.of_nat (length s))) line.
Proof.
  revert before. induction s as [|c s IH]; intros before column line Hp Hs.
  - rewrite app_nil_r, Z.add_0_r. destruct Hp as [-> ->]. split; [|done]. unfold u32. by rewrite Zmod_mod.
  - apply not_elem_of_cons in Hs as [Hc Hs]. rewrite cons_middle, app_assoc.
    replace (u32 (column + Z.of_nat (length (c :: s)))) with (u32 (u32 (column + 1) + Z.of_nat (length s))).
    + apply IH; [|done]. by apply at_place_char.
    + unfold u32. rewrite Zplus_mod_idemp_l. f_equal. simpl length. lia.
Qed.

(** The token [t] lies behind the text [before]: in the line behind the
    newlines of [before], counted from 1, behind the characters of the last of
    these lines. *)
Definition located (path : string) (before : list ascii) (t : Token) : Prop :=
  ∃ lines current, before = lines ++ current ∧ (lines = [] ∨ last lines = Some newline) ∧ newline ∉ current ∧
    tok_location t = mk_Location path (1 + Z.of_nat (length current)) (1 + newlines lines) "".

Lemma last_line_split before :
  ∃ lines current, before = lines ++ current ∧ (lines = [] ∨ last lines = Some newline) ∧ newline ∉ current ∧
    last_line before = Z.of_nat (length current) ∧ newlines before = newlines lines.
Proof.
  induction before as [|c before (lines & current & -> & Hl & Hc & Hcol & Hn)] using rev_ind.
  { exists [], []. split_and!; [done|by left|by apply not_elem_of_nil|done..]. }
  rewrite last_line_snoc, newlines_snoc. case_decide as He.
  - subst c. exists ((lines ++ current) ++ [newline]), []. split_and!; [by rewrite app_nil_r| |by apply not_elem_of_nil|done|].
    + right. by rewrite last_snoc.
    + rewrite newlines_snoc. by rewrite decide_True.
  - exists lines, (current ++ [c]). split_and!; [by rewrite app_assoc|done| | |lia].
    + rewrite not_elem_of_app, not_elem_of_cons. split_and!; [done|done|by apply not_elem_of_nil].
    + rewrite Hcol, length_app. simpl. lia.
Qed.

Lemma newlines_length l : newlines l <= Z.of_nat (length l).
Proof. unfold newlines. pose proof (length_filter (λ c, c = newline) l). lia. Qed.

Lemma at_place_located path before t column line :
  Z.of_nat (length before) + 1 < 2 ^ 32 → at_place before column line →
  tok_location t = mk_Location path column line "" → located path before t.
Proof.
  intros Hsize [-> ->] Ht. destruct (last_line_split before) as (lines & current & Hb & Hl & Hc & Hcol & Hn).
  exists lines, current. split_and!; [done..|]. rewrite Ht, Hcol, Hn.
  pose proof (newlines_length lines). rewrite Hb, length_app in Hsize. unfold u32, newlines in *.
  by rewrite !Z.mod_small by lia.
Qed.

(** *** Blanks *)

Lemma skip_text_comment text r column line :
  newline ∉ text →
  skip_text true (text ++ newline :: r) column line = skip_text false r 1 (u32 (line + 1)).
Proof.
  induction text as [|c text IH]; intros Ht; simpl; [done|].
  apply not_elem_of_cons in Ht as [Hc Ht]. rewrite decide_False by done. by apply IH.
Qed.

Lemma skip_text_open_comment text column line :
  newline ∉ text → skip_text true text column line = None.
Proof.
  revert column line. induction text as [|c text IH]; intros column line Ht; simpl; [done|].
  apply not_elem_of_cons in Ht as [Hc Ht]. rewrite decide_False by done. by apply IH.
Qed.

Lemma skip_text_app b rest : ∀ before column line (known : Prop),
  blank b → (known → at_place before column line) →
  ∃ column' line', skip_text false (b ++ rest) column line = skip_text false rest column' line' ∧
    (known → at_place (before ++ b) column' line').
Proof.
  intros before column line known Hb. revert before column line.
  induction Hb as [|c r Hc Hb IH|text r Ht Hb IH]; intros before column line Hp; cbn [app skip_text].
  - exists column, line. by rewrite app_nil_r.
  - rewrite Hc. case_decide as Hn; [subst c|]; rewrite cons_middle, app_assoc; apply IH; intros Hk;
      [eapply at_place_newline|apply at_place_char]; eauto.
  - change (isspace "#") with false. cbn iota. rewrite decide_True by done.
    rewrite <-app_assoc. cbn [app]. rewrite skip_text_comment by done.
    replace (before ++ "#" :: text ++ newline :: r) with ((before ++ "#" :: text ++ [newline]) ++ r)
      by (rewrite <-app_assoc; cbn [app]; by rewrite <-app_assoc).
    apply IH. intros Hk. rewrite app_comm_cons, app_assoc.
    eapply at_place_newline, (at_place_text _ ("#" :: text)); [by apply Hp|].
    rewrite not_elem_of_cons. split; [by vm_compute|done].
Qed.

Lemma skip_text_blank b rest before column line (known : Prop) :
  blank b → starts_token rest → (known → at_place before column line) →
  ∃ column' line', skip_text false (b ++ rest) column line = Some (rest, column', line') ∧
    (known → at_place (before ++ b) column' line').
Proof.
  intros Hb Hrest Hp. destruct (skip_text_app b rest before column line known Hb Hp) as (column' & line' & -> & Hp').
  exists column', line'. split; [|done].
  destruct rest as [|c rest]; simpl; [by eauto|]. destruct Hrest as [-> Hne].
  by rewrite decide_False by done.
Qed.

(** *** Texts without spaces *)

(** A decidable property of characters, checked on the 256 of them. *)
Lemma all_chars (P : ascii → bool) :
  forallb (λ z, P (chr z)) (seqZ 0 256) = true → ∀ c, P c = true.
Proof.
  rewrite forallb_forall. intros H c. rewrite <-(chr_ord c). apply H.
  apply list_elem_of_In, elem_of_seqZ. pose proof (ord_range c). lia.
Qed.

Definition plain_char (c : ascii) : bool :=
  negb (isspace c) && bool_decide (c ≠ "#") && bool_decide (c ≠ dquote) && bool_decide (c ≠ squote).

Lemma digit_plain c : digit_value c < 16 → plain_char c = true.
Proof.
  intros Hc. pose proof (all_chars (λ c, implb (digit_value c <? 16) (plain_char c))) as H.
  specialize (H ltac:(vm_compute; reflexivity) c). simpl in H.
  destruct (Z.ltb_spec (digit_value c) 16); [done|lia].
Qed.

Lemma plain_char_inv c :
  plain_char c = true → isspace c = false ∧ c ≠ "#" ∧ c ≠ dquote ∧ c ≠ squote.
Proof.
  unfold plain_char. rewrite !andb_true_iff, !bool_decide_eq_true, negb_true_iff. tauto.
Qed.

Lemma until_space_app s r :
  Forall (λ c, isspace c = false) s → starts_blank r → until_space (s ++ r) = s.
Proof.
  intros Hs Hr. induction Hs as [|c s Hc Hs IH]; simpl.
  - destruct r as [|c r]; simpl; [done|]. by rewrite Hr.
  - by rewrite Hc, IH.
Qed.

(** What [lex_token] does with a text up to the next blank. *)
Lemma lex_token_plain c s r loc :
  plain_char c = true → Forall (λ c, isspace c = false) s → starts_blank r →
  ∀ next, lex_token next (c :: s ++ r) loc =
    let token := set_tok_sval (str_of (c :: s)) (Token_at loc) in
    match find_keyword (str_of (c :: s)) with
    | Some k => mret (set_tok_kval k (set_tok_kind TokKind.Keyword token))
    | None => lex_number_or_word token
    end.
Proof.
  intros Hc Hs Hr next. apply plain_char_inv in Hc as (Hc & _ & Hd & Hq).
  unfold lex_token. simpl front. rewrite decide_False by tauto.
  change (c :: s ++ r) with ((c :: s) ++ r).
  rewrite until_space_app by (try constructor; done). done.
Qed.

(** *** Keywords *)

Lemma find_keyword_In s k : find_keyword s = Some k → (s, k) ∈ keyword_entries.
Proof.
  unfold find_keyword. destruct (String_To_Keyword !! _) as [[key k']|] eqn:Hl; [|done].
  case_decide; [|done]. intros [= <-]. simplify_eq. apply list_elem_of_lookup_2 in Hl.
  rewrite String_To_Keyword_sorted in Hl. by rewrite sorted_array_perm in Hl.
Qed.

Lemma keyword_text s k :
  find_keyword s = Some k →
  ∃ c r, chars s = c :: r ∧ plain_char c = true ∧ Forall (λ c, isspace c = false) r
    ∧ 10 <= digit_value c.
Proof.
  intros H%find_keyword_In.
  assert (Forall (λ e : string * Keyword_Kind,
    match chars e.1 with
    | c :: r => plain_char c && forallb (λ c, negb (isspace c)) r && (10 <=? digit_value c)
    | [] => false
    end = true) keyword_entries) as HF by (repeat constructor).
  rewrite list.Forall_forall in HF. specialize (HF _ H). simpl in HF.
  destruct (chars s) as [|c r]; [done|]. bool_to_prop. exists c, r. split_and!; try done.
  rewrite list.Forall_forall. intros x Hx.
  match goal with H' : forallb _ _ = true |- _ => rename H' into Hf end.
  rewrite forallb_forall in Hf.
  apply negb_true_iff. by apply Hf, list_elem_of_In.
Qed.

(** *** Words *)

(** The text left after the size suffix is the whole text without it. *)
Lemma parse_suffix_head c s t s' t' :
  find_keyword (str_of (c :: s)) = None → parse_suffix (c :: s) t = Some (s', t') →
  tok_sval t' = tok_sval t ∧ ∃ r, s' = c :: r.
Proof.
  intros Hkw. unfold parse_suffix.
  assert (∀ n, (n < length (c :: s))%nat → ∃ r, remove_suffix n (c :: s) = c :: r) as Hrm.
  { intros n Hn. unfold remove_suffix. simpl length in *.
    replace (S (length s) - n)%nat with (S (length s - n)) by lia. simpl. eauto. }
  destruct (decide (3 < length (c :: s))%nat) as [Hlong|Hshort].
  { repeat case_match; intros; simplify_eq; eauto with lia. }
  simpl in Hshort. destruct s as [|c2 [|c3 [|c4 s]]]; [| | |simpl in Hshort; lia].
  - simpl. intros [= <- <-]. eauto.
  - unfold is_suffix_mark, ends_with. simpl. case_bool_decide as Hm; [|intros [= <- <-]; by eauto].
    case_bool_decide as He; [|done]. unfold from_end in Hm. simpl in He, Hm.
    exfalso. destruct He as [_ [= ->]]. destruct Hm as [->| ->]; done.
  - unfold is_suffix_mark, ends_with. simpl.
    case_bool_decide as Hm; simpl; [case_bool_decide; [|done]; intros [= <- <-]; split; [done|apply Hrm; simpl; lia]|].
    case_bool_decide as Hm3; simpl; [|intros [= <- <-]; by eauto]. unfold from_end in Hm3. simpl in Hm3.
    repeat (case_bool_decide as He; [exfalso; destruct He as [_ [= -> ->]]; destruct Hm3 as [->| ->]; done|clear He]).
    done.
Qed.

(** A text that starts with no digit is not a decimal number. *)
Lemma parse_int_word c s t :
  chars (tok_sval t) = c :: s → 10 <= digit_value c → c ≠ "_" →
  find_keyword (str_of (c :: s)) = None →
  ∃ t', parse_int 10 t = Some (t', false) ∧ tok_sval t' = tok_sval t.
Proof.
  intros Htext Hc Hu Hkw. unfold parse_int. simpl. rewrite Htext. simpl.
  rewrite decide_False by (intros [->|]; [change (digit_value "0") with 0 in Hc; lia|done]).
  destruct (parse_suffix (c :: s) t) as [[s' t']|] eqn:Hs; [|by eauto].
  apply parse_suffix_head in Hs as (Ht' & r & ->); [|done].
  cbn [digits_loop]. rewrite decide_False by done.
  destruct (Z.leb_spec 10 (digit_value c)); [|lia]. simpl. eauto.
Qed.

Lemma lex_number_or_word_word c s loc :
  10 <= digit_value c → c ≠ "_" → find_keyword (str_of (c :: s)) = None →
  ∃ t, lex_number_or_word (set_tok_sval (str_of (c :: s)) (Token_at loc)) = mret t
    ∧ chars (tok_sval t) = c :: s
    ∧ tok_kind t = (if decide (c = "&") then TokKind.Address_Of else TokKind.Word).
Proof.
  intros Hc Hu Hkw. set (t0 := set_tok_sval _ _).
  assert (chars (tok_sval t0) = c :: s) as Ht0 by apply chars_str_of.
  destruct (parse_int_word c s t0) as (t & Hp & Ht); [done..|].
  unfold lex_number_or_word. rewrite Ht0. cbv zeta. change (front (c :: s)) with c.
  rewrite decide_False by (intros ->; change (digit_value "0") with 0 in Hc; lia).
  comp_step. rewrite Hp. simpl. comp_step.
  case_decide; eexists; (split_and!; [done| |done]); simpl; congruence.
Qed.

(** *** Integers *)

Lemma supported_base_max Base :
  Base ∈ [2; 6; 8; 10; 16] → ∃ Max, max_digits64 Base = Some Max ∧
    length (base_prefix Base) = (if (Base =? 10)%Z then 0 else 2)%nat.
Proof.
  intros Hin. rewrite !elem_of_cons, elem_of_nil in Hin.
  destruct_or! Hin; subst; eexists; done.
Qed.

Lemma parse_int_printed Base v t :
  Base ∈ [2; 6; 8; 10; 16] → is_u64 v →
  chars (tok_sval t) = base_prefix Base ++ print_int Base v →
  parse_int Base t = Some (set_tok_ival v t, true).
Proof.
  intros HB Hv Htext. destruct (supported_base_max _ HB) as (Max & HMax & Hlen).
  destruct (print_int_facts _ _ HMax v Hv) as (Hn & Hh & Hd & Hl).
  rewrite (parse_int_numeral _ _ HMax t t (base_prefix Base) (print_int Base v) []); try done.
  - destruct (Nat.leb_spec (ndigits (skip_leading (print_int Base v))) Max); [|lia].
    by rewrite Hh, u64_small.
  - by rewrite app_nil_r.
  - constructor.
Qed.

Lemma decimal_second_char s :
  Forall (λ c, digit_value c < 10) s →
  front (drop 1 s) ∉ ["b"; "s"; "o"; "x"].
Proof.
  intros Hs. destruct s as [|c1 [|c2 s]];
    [by apply (bool_decide_unpack _)..|].
  simpl. inversion_clear Hs as [|? ? _ Hs']. inversion_clear Hs' as [|? ? Hc _].
  rewrite !elem_of_cons, elem_of_nil. intros Hin. unfold front in Hin. simpl in Hin.
  destruct_or! Hin; subst; vm_compute in Hc; done.
Qed.

Lemma lex_number_or_word_integer Base v loc :
  Base ∈ [2; 6; 8; 10; 16] → is_u64 v →
  ∃ t, lex_number_or_word
         (set_tok_sval (str_of (base_prefix Base ++ print_int Base v)) (Token_at loc)) = mret t
    ∧ token_matches (L_integer Base v) t.
Proof.
  intros HB Hv. set (text := base_prefix Base ++ print_int Base v).
  set (t0 := set_tok_sval _ _). assert (chars (tok_sval t0) = text) as Ht0 by apply chars_str_of.
  pose proof (parse_int_printed Base v t0 HB Hv Ht0) as Hp.
  exists (set_tok_kind TokKind.Integer (set_tok_ival v t0)).
  split; [|split; [exact Ht0|done]].
  unfold lex_number_or_word. rewrite Ht0. cbv zeta.
  destruct (decide (Base = 10)) as [->|Hne].
  - pose proof (decimal_second_char text) as H2. rewrite !not_elem_of_cons in H2.
    destruct H2 as (?&?&?&?&_). { apply (print_int_digits 10 20 eq_refl). unfold is_u64 in Hv; lia. }
    destruct (decide (front text = "0")); rewrite ?(decide_False (P := front (drop 1 _) = _)) by done;
      comp_step; cbn beta iota; by rewrite Hp.
  - rewrite !elem_of_cons, elem_of_nil in HB.
    destruct_or! HB; subst Base; try done;
      subst text; generalize (print_int 2 v), (print_int 6 v), (print_int 8 v), (print_int 16 v);
      intros; clearbody t0; cbn -[parse_int]; rewrite Hp; done.
Qed.

(** *** Quoted literals *)

Lemma adjacent_find_body q c b r :
  literal_body q c b → adjacent_find q (c :: b ++ q :: r) = Some (length b).
Proof.
  revert c. induction b as [|d b IH]; intros c Hb.
  - cbn. by rewrite decide_True.
  - destruct Hb as [Hd Hb]. specialize (IH d Hb).
    change (c :: (d :: b) ++ q :: r) with (c :: d :: b ++ q :: r).
    remember (d :: b ++ q :: r) as l eqn:Hl. cbn. rewrite Hl at 1.
    rewrite decide_False by (intros [? ?]; tauto). by rewrite IH.
Qed.

Lemma lex_quoted_body q c b r t :
  (q = dquote ∨ q = squote) → c ≠ q → literal_body q c b →
  lex_quoted q c (q :: (c :: b) ++ q :: r) t =
    mret (set_tok_sval (str_of (q :: (c :: b) ++ [q]))
      (set_tok_kind (if decide (q = dquote) then TokKind.String else TokKind.Char) t)).
Proof.
  intros Hq Hc Hb. unfold lex_quoted. cbn [length Nat.ltb Nat.leb].
  rewrite decide_False by done. change (drop 1 _) with (c :: b ++ q :: r).
  rewrite adjacent_find_body by done. do 3 f_equal.
  rewrite (cons_middle q (c :: b)), app_assoc.
  change (q :: (c :: b) ++ [q]) with ((q :: c :: b) ++ [q]).
  change (q :: ((c :: b) ++ [q]) ++ r) with (((q :: c :: b) ++ [q]) ++ r).
  rewrite take_app_length'; [done|]. rewrite length_app. simpl. lia.
Qed.

(** After an escaped backslash the closing quote is taken for an escaped one. *)
Lemma adjacent_find_escaped body :
  Forall (λ c, c ≠ dquote) body →
  adjacent_find dquote (body ++ [backslash; backslash; dquote; newline]) = None.
Proof.
  induction 1 as [|c body Hc Hb IH]; [done|].
  destruct Hb as [|d body Hd Hb].
  - cbn. by rewrite decide_False by (intros [_ ?]; done).
  - change ((c :: d :: body) ++ ?l) with (c :: d :: body ++ l).
    change ((d :: body) ++ ?l) with (d :: body ++ l) in IH.
    remember (d :: body ++ _) as r eqn:Hr. cbn. rewrite Hr at 1.
    rewrite decide_False by (intros [_ ?]; done). by rewrite IH.
Qed.

(** *** One lexeme *)

(** The spelling of a lexeme that is no literal: its first character is a
    plain one and no space follows. *)
Lemma spell_plain l :
  lexeme_ok l → match l with L_string _ | L_char _ => False | _ => True end →
  ∃ c s, spell l = c :: s ∧ plain_char c = true ∧ Forall (λ c, isspace c = false) s.
Proof.
  intros Hl Hq. destruct l as [s k|Base v|s|s|body|body]; simpl in Hl |- *; try done.
  - destruct (keyword_text s k Hl) as (c & r & Hs & Hc & Hsp & _). eauto.
  - destruct Hl as [HB Hv]. destruct (supported_base_max _ HB) as (Max & HMax & _).
    pose proof (print_int_digits _ _ HMax v ltac:(unfold is_u64 in Hv; lia)) as Hd.
    pose proof (Base_small _ _ HMax) as Hsmall.
    assert (Forall (λ c, plain_char c = true) (base_prefix Base ++ print_int Base v)) as Hp.
    { apply list.Forall_app. split.
      - rewrite !elem_of_cons, elem_of_nil in HB. destruct_or! HB; subst Base; repeat constructor.
      - eapply list.Forall_impl; [exact Hd|]. intros c Hc. apply digit_plain. simpl in Hc. lia. }
    pose proof (print_int_not_nil Base v) as Hne.
    destruct (base_prefix Base ++ print_int Base v) as [|c s] eqn:Htext.
    { by apply app_eq_nil in Htext as []. }
    inversion_clear Hp as [|? ? Hc Hs]. exists c, s. split_and!; [done..|].
    eapply list.Forall_impl; [exact Hs|]. intros x Hx. apply (plain_char_inv x Hx).
  - destruct Hl as [[Hs _] Hc]. destruct s as [|c s]; [done|]. inversion_clear Hs as [|? ? Hsp Hs'].
    exists c, s. split_and!; [done| |done]. unfold plain_char. rewrite Hsp.
    rewrite !bool_decide_true by tauto. done.
  - destruct Hl as [Hs _]. inversion_clear Hs. by eexists _, _.
Qed.

Lemma lex_token_lexeme l r loc :
  lexeme_ok l → starts_blank r →
  ∃ t, lex_token (front (drop 1 (spell l ++ r))) (spell l ++ r) loc = mret t ∧ token_matches l t.
Proof.
  intros Hl Hr. pose proof (spell_plain l Hl) as Hplain.
  destruct l as [s k|Base v|s|s|body|body];
    try (destruct (Hplain I) as (c & text & Htext & Hc & Hsp);
         rewrite Htext; change ((c :: text) ++ r) with (c :: text ++ r);
         rewrite lex_token_plain by done; cbv zeta; rewrite <-Htext; simpl spell in *);
    clear Hplain; simpl in Hl.
  - rewrite str_of_chars, Hl. eexists. split; [done|]. repeat split.
  - destruct Hl as [HB Hv]. destruct (lex_number_or_word_integer Base v loc HB Hv) as (t & Ht & Hm).
    exists t. split; [|done]. destruct (find_keyword _) as [k|] eqn:Hk; [exfalso|done].
    destruct (keyword_text _ _ Hk) as (c' & r' & Heq & _ & _ & Hbig).
    rewrite chars_str_of, Htext in Heq. injection Heq as <- <-.
    destruct (supported_base_max _ HB) as (Max & HMax & _).
    pose proof (print_int_digits _ _ HMax v ltac:(unfold is_u64 in Hv; lia)) as Hd.
    rewrite !elem_of_cons, elem_of_nil in HB. destruct_or! HB; subst Base;
      try (injection Htext as <- _; change (digit_value "0") with 0 in Hbig; lia).
    change (base_prefix 10 ++ print_int 10 v) with (print_int 10 v) in Htext.
    rewrite Htext in Hd. inversion_clear Hd. lia.
  - destruct Hl as [[_ Hkw] Hc']. rewrite Hkw. subst s. destruct Hc' as (Hd & Hu & _ & _ & _ & Hamp).
    destruct (lex_number_or_word_word c text loc) as (t & Ht & Hs & Hk); [done..|].
    exists t. split; [done|]. rewrite decide_False in Hk by done. done.
  - destruct Hl as [_ Hkw]. rewrite Hkw.
    destruct (lex_number_or_word_word "&" s loc) as (t & Ht & Hs & Hk); [by vm_compute|done..|].
    exists t. done.
  - unfold lex_token. simpl front. rewrite decide_True by tauto. simpl spell.
    destruct body as [|c b]; [by eexists|]. destruct Hl as [Hc Hb].
    change ((dquote :: (c :: b) ++ [dquote]) ++ r) with (dquote :: ((c :: b) ++ [dquote]) ++ r).
    rewrite <-app_assoc. simpl (_ ++ r). rewrite lex_quoted_body by tauto. eexists. split; [done|].
    split; [apply chars_str_of|done].
  - unfold lex_token. simpl front. rewrite decide_True by tauto. simpl spell.
    destruct body as [|c b]; [done|]. destruct Hl as [Hc Hb].
    change ((squote :: (c :: b) ++ [squote]) ++ r) with (squote :: ((c :: b) ++ [squote]) ++ r).
    rewrite <-app_assoc. simpl (_ ++ r). rewrite lex_quoted_body by tauto. eexists. split; [done|].
    split; [apply chars_str_of|done].
Qed.

(** *** Tokens and their text *)

(** The text and the location of a token stay what they are when it gets its
    kind and value. *)
Definition same_place (t t' : Token) : Prop := tok_sval t' = tok_sval t ∧ tok_location t' = tok_location t.

Lemma parse_suffix_place s t s' t' : parse_suffix s t = Some (s', t') → same_place t t'.
Proof. unfold parse_suffix, same_place. intros. split_matches. Qed.

Lemma parse_int_place Base t t' ok : parse_int Base t = Some (t', ok) → same_place t t'.
Proof.
  unfold parse_int. destruct (max_digits64 Base) as [Max|]; [|done]. simpl.
  destruct (parse_suffix _ t) as [[s t1]|] eqn:Hs; [|by intros [= -> _]].
  destruct (digits_loop _ _ _ _ _) as [[ok' v]|]; [|done]. simpl.
  intros [= <- _]. by apply parse_suffix_place in Hs.
Qed.

Lemma try_base_place Base t l t' ok :
  from_option mret undefined (parse_int Base t) = (l, Done (t', ok)) → same_place t t'.
Proof.
  destruct (parse_int Base t) as [[t1 ok1]|] eqn:Hp; simpl; [|done].
  intros [= _ -> _]. by apply parse_int_place in Hp.
Qed.

Lemma lex_number_or_word_place t l t' : lex_number_or_word t = (l, Done t') → same_place t t'.
Proof.
  unfold lex_number_or_word. cbv zeta. intros H.
  apply bind_Done in H as (l1 & [t1 c1] & l2 & H1 & H2 & ->).
  apply bind_Done in H2 as (l3 & [t2 c2] & l4 & H2 & H3 & ->).
  assert (same_place t t1) as [Hs1 Hl1].
  { repeat case_decide; try (by apply try_base_place in H1); by injection H1 as <- <- <-. }
  assert (same_place t1 t2) as [Hs2 Hl2].
  { destruct c1; [by injection H2 as <- <-|]. by apply try_base_place in H2. }
  unfold same_place. rewrite <-Hs1, <-Hl1, <-Hs2, <-Hl2. destruct c2; [|case_decide]; by injection H3 as <- <-.
Qed.

(** Every token has the location it is read at, and at least one character,
    but no more than are left. *)
Lemma lex_token_location next rest loc l t : lex_token next rest loc = (l, Done t) → tok_location t = loc.
Proof.
  unfold lex_token, lex_quoted. cbv zeta. case_decide.
  { repeat case_match; try done; by intros [= <- <-]. }
  destruct (find_keyword _); [by intros [= <- <-]|]. intros [_ Ht]%lex_number_or_word_place. by rewrite Ht.
Qed.

Lemma lex_token_nonempty next c r loc l t :
  isspace c = false → lex_token next (c :: r) loc = (l, Done t) → chars (tok_sval t) ≠ [].
Proof.
  intros Hc. unfold lex_token, lex_quoted. cbv zeta. case_decide.
  { case_match; [done|]. case_decide.
    - case_decide; [done|]. by intros [= <- <-].
    - case_match; [|done]. intros [= <- <-]. simpl tok_sval. by rewrite chars_str_of, Nat.add_comm. }
  simpl until_space. rewrite Hc. simpl tok_sval. destruct (find_keyword _).
  { by intros [= <- <-]. }
  intros [Ht _]%lex_number_or_word_place. rewrite Ht. done.
Qed.

Lemma length_until_space l : (length (until_space l) ≤ length l)%nat.
Proof. induction l as [|c l IH]; simpl; [done|]. case_match; simpl; lia. Qed.

Lemma lex_token_length rest loc l t :
  lex_token (front (drop 1 rest)) rest loc = (l, Done t) → (length (chars (tok_sval t)) ≤ length rest)%nat.
Proof.
  unfold lex_token, lex_quoted. cbv zeta. case_decide as Hq.
  { case_match; [done|]. case_decide as Hnext.
    - case_decide; [done|]. intros [= <- <-]. change (length _) with 2%nat at 1.
      destruct rest as [|c [|c' rest]]; simpl in *; [done| |lia].
      exfalso. rewrite <-Hnext in Hq. destruct Hq as [Hq|Hq]; by vm_compute in Hq.
    - case_match; [|done]. intros [= <- <-]. simpl tok_sval. rewrite chars_str_of, length_take. lia. }
  assert (length (chars (str_of (until_space rest))) ≤ length rest)%nat as Hlen
    by (rewrite chars_str_of; apply length_until_space).
  destruct (find_keyword _); [by intros [= <- <-]|]. intros [Ht _]%lex_number_or_word_place. by rewrite Ht.
Qed.

Lemma lex_token_ends next rest loc : ends (lex_token next rest loc).
Proof.
  assert (∀ Base t, ends (from_option mret undefined (parse_int Base t) : comp (Token * bool))).
  { intros Base t. by destruct (parse_int Base t). }
  unfold lex_token, lex_quoted, lex_number_or_word. solve_ends.
Qed.

Lemma skip_text_starts cm rest column line rest' column' line' :
  skip_text cm rest column line = Some (rest', column', line') →
  rest' `suffix_of` rest ∧ (rest' ≠ [] → ∃ c r, rest' = c :: r ∧ isspace c = false).
Proof.
  revert cm column line. induction rest as [|c rest IH]; intros cm column line; simpl.
  { case_match; [done|]. intros [= <- <- <-]. done. }
  repeat case_match; intros H'; try (apply IH in H' as [? ?]; split; [by apply suffix_cons_r|done]).
  injection H' as <- <- <-. split; [done|]. eauto.
Qed.

(** More steps than the length of the text are not needed. *)
Lemma lex_text_ends path n rest column line tokens :
  (length rest < n)%nat → ends (lex_text n path rest column line tokens).
Proof.
  revert rest column line tokens. induction n as [|n IH]; intros rest column line tokens Hn; [lia|].
  cbn [lex_text]. destruct rest as [|c rest]; [apply ends_ret|].
  destruct (skip_text false (c :: rest) column line) as [[[rest' column'] line']|] eqn:Hskip;
    [|apply ends_undefined].
  destruct rest' as [|c' rest']; [apply ends_ret|].
  apply skip_text_starts in Hskip as [Hlen%suffix_length Hstart]. destruct Hstart as (x & r & [= <- <-] & Hx); [done|].
  apply ends_bind_Done; [apply lex_token_ends|]. intros l t Ht. apply IH.
  apply lex_token_nonempty in Ht; [|done]. rewrite length_drop.
  destruct (chars (tok_sval t)); [done|]. simpl in *. lia.
Qed.

(** *** The index *)

Lemma skip_text_in_comment rest : ∀ column line,
  skip_text true rest column line =
    match list_find (λ c, c = newline) rest with
    | None => None
    | Some (k, _) => skip_text false (drop (S k) rest) 1 (u32 (line + 1))
    end.
Proof.
  induction rest as [|c rest IH]; intros column line; cbn [skip_text list_find]; [done|].
  case_decide; [done|]. rewrite IH. by destruct (list_find _ rest) as [[k x]|].
Qed.

Section Index.
  Context (file : list ascii) (Hsize : Z.of_nat (length file) < 2 ^ 32).

(** The index that leaves [rest] of the file. *)
Definition index_of (rest : list ascii) : Z := Z.of_nat (length file - length rest).

Lemma drop_index_of rest : rest `suffix_of` file → drop (Z.to_nat (index_of rest)) file = rest.
Proof.
  intros [pre Hpre]. unfold index_of. rewrite Nat2Z.id, Hpre, length_app. apply drop_app_length'. lia.
Qed.

Lemma lookup_index_of rest : rest `suffix_of` file → file !! Z.to_nat (index_of rest) = head rest.
Proof.
  intros H. rewrite <-(Nat.add_0_r (Z.to_nat _)), <-lookup_drop, drop_index_of by done. by destruct rest.
Qed.

Lemma index_of_drop rest n :
  rest `suffix_of` file → (n ≤ length rest)%nat → u32 (index_of rest + Z.of_nat n) = index_of (drop n rest).
Proof.
  intros Hs%suffix_length Hn. unfold index_of. rewrite length_drop. unfold u32. rewrite Z.mod_small by lia. lia.
Qed.

Lemma suffix_drop (rest : list ascii) n : rest `suffix_of` file → drop n rest `suffix_of` file.
Proof. intros [pre Hpre]. exists (pre ++ take n rest). by rewrite <-app_assoc, take_drop. Qed.

Lemma skip_blank_text fuel : ∀ rest column line,
  rest `suffix_of` file → (length rest < fuel)%nat →
  skip_blank fuel file (index_of rest) column line =
    match skip_text false rest column line with
    | None => undefined
    | Some (rest', column', line') => mret (index_of rest', column', line')
    end.
Proof.
  induction fuel as [|fuel IH]; intros rest column line Hs Hf; [lia|]. cbn [skip_blank].
  rewrite lookup_index_of, drop_index_of by done. destruct rest as [|c rest]; [done|]. cbn [head skip_text].
  pose proof (index_of_drop _ 1 Hs) as H1. cbn [drop] in H1. rewrite drop_0 in H1. change (Z.of_nat 1) with 1 in H1.
  assert (rest `suffix_of` file) as Hr by (by apply (suffix_drop _ 1) in Hs).
  simpl in Hf. destruct (isspace c).
  { rewrite H1 by (simpl; lia). case_decide; (apply IH; [done|lia]). }
  case_decide as Hc; [|done]. rewrite skip_text_in_comment. cbn [list_find]. rewrite decide_False by (by subst).
  destruct (list_find _ rest) as [[k x]|] eqn:Hk; [|done]. cbn.
  apply list_find_Some in Hk as (Hk%lookup_lt_Some & _ & _).
  replace (index_of (c :: rest) + Z.of_nat (S k) + 1) with (index_of (c :: rest) + Z.of_nat (S (S k))) by lia.
  rewrite index_of_drop by (done || simpl; lia). cbn [drop]. apply IH; [by apply (suffix_drop _ (S k)) in Hr|].
  rewrite length_drop. lia.
Qed.

Lemma index_of_end rest : rest `suffix_of` file → (index_of rest =? Z.of_nat (length file)) = bool_decide (rest = []).
Proof.
  intros Hs%suffix_length. unfold index_of. destruct rest as [|c rest]; simpl in *.
  - apply Z.eqb_eq. lia.
  - apply Z.eqb_neq. lia.
Qed.

Lemma lex_loop_text path fuel : ∀ rest column line tokens,
  rest `suffix_of` file →
  lex_loop fuel path file (index_of rest) column line tokens = lex_text fuel path rest column line tokens.
Proof.
  induction fuel as [|fuel IH]; intros rest column line tokens Hs; [done|]. cbn [lex_loop lex_text].
  assert ((index_of rest <? Z.of_nat (length file)) = bool_decide (rest ≠ [])) as ->.
  { pose proof (suffix_length _ _ Hs) as Hl. unfold index_of. destruct rest; simpl in *;
      [apply Z.ltb_ge|apply Z.ltb_lt]; lia. }
  destruct rest as [|c rest]; [done|]. rewrite bool_decide_eq_true_2 by done. cbn [negb].
  pose proof (suffix_length _ _ Hs) as Hlen. rewrite skip_blank_text by first [done | lia].
  destruct (skip_text false (c :: rest) column line) as [[[rest' column'] line']|] eqn:Hskip; [|done].
  apply skip_text_starts in Hskip as [Hs' _].
  assert (rest' `suffix_of` file) as Hr by (by etrans). rewrite bind_ret_l, index_of_end by done.
  destruct rest' as [|c' rest']; [done|]. rewrite bool_decide_eq_false_2, drop_index_of by done.
  assert (default NUL (file !! Z.to_nat (u32 (index_of (c' :: rest') + 1))) = front (drop 1 (c' :: rest'))) as ->.
  { rewrite (index_of_drop _ 1), lookup_index_of by first [done | by apply suffix_drop | simpl; lia]. cbn [drop]. by destruct rest'. }
  apply bind_Done_ext. intros l t Ht. apply lex_token_length in Ht. cbv zeta.
  rewrite index_of_drop by done. by apply IH, suffix_drop.
Qed.

End Index.

Lemma lex_of_text file path tokens :
  Z.of_nat (length (chars file)) < 2 ^ 32 →
  lex file path tokens = lex_text (S (length (chars file))) path (chars file) 1 1 tokens.
Proof.
  intros Hsize. unfold lex. rewrite <-(lex_loop_text _ Hsize) by done. unfold index_of. by rewrite Nat.sub_diag.
Qed.

(** *** The main loop *)

Lemma render_app l1 l2 : render (l1 ++ l2) = render l1 ++ render l2.
Proof. unfold render. by rewrite fmap_app, concat_app. Qed.

Lemma spell_length l : lexeme_ok l → (0 < length (spell l))%nat.
Proof.
  intros Hl. pose proof (spell_plain l Hl) as Hp.
  destruct l; try (simpl; rewrite length_app; simpl; lia); destruct (Hp I) as (? & ? & -> & _); simpl; lia.
Qed.

(** The text in front of a lexeme is two characters shorter than the file. *)
Lemma render_before leading ls k :
  file_ok ls → (k < length ls)%nat → Z.of_nat (length (leading ++ render ls)) < 2 ^ 32 →
  Z.of_nat (length (leading ++ render (take k ls))) + 1 < 2 ^ 32.
Proof.
  intros Hls Hk Hsize. destruct (lookup_lt_is_Some_2 ls k Hk) as [[l sep] Hl].
  apply (Forall_lookup_1 _ _ _ _ Hls) in Hl as Hok. destruct Hok as (Hok & _). apply spell_length in Hok. simpl in Hok.
  rewrite <-(take_drop_middle _ _ _ Hl), render_app in Hsize. rewrite !length_app in *.
  change (render ((l, sep) :: ?r)) with ((spell l ++ sep) ++ render r) in Hsize. rewrite !length_app in Hsize. lia.
Qed.

Lemma spell_starts l :
  lexeme_ok l → ∃ c s, spell l = c :: s ∧ isspace c = false ∧ c ≠ "#".
Proof.
  intros Hl. pose proof (spell_plain l Hl) as Hp.
  destruct l; try (by eexists _, _);
    destruct (Hp I) as (c & text & Hs & Hc & _); apply plain_char_inv in Hc; exists c, text; tauto.
Qed.

Lemma lex_text_render path ls : ∀ b fuel before column line tokens (known : Prop),
  blank b → file_ok ls → (length (b ++ render ls) < fuel)%nat → (known → at_place before column line) →
  ∃ ts, lex_text fuel path (b ++ render ls) column line tokens = mret (tokens ++ ts, true)
    ∧ Forall2 token_matches ls.*1 ts
    ∧ ∀ k t, ts !! k = Some t → known → Forall (λ p, newline ∉ spell p.1) (take k ls) →
        ∃ column line, at_place (before ++ b ++ render (take k ls)) column line ∧
          tok_location t = mk_Location path column line "".
Proof.
  induction ls as [|[l sep] ls IH]; intros b fuel before column line tokens known Hb Hls Hfuel Hp;
    (destruct fuel as [|fuel]; [lia|]).
  { exists []. rewrite app_nil_r. split_and!; [|constructor|done]. unfold render. simpl.
    destruct (skip_text_blank b [] before column line known Hb I Hp) as (column' & line' & Hskip & _).
    rewrite app_nil_r in Hskip |- *. rewrite Hskip. by destruct b. }
  apply Forall_cons_1 in Hls as [(Hl & Hsep & Hstart & Hne) Hls']. simpl in Hl, Hsep, Hstart, Hne.
  set (text := b ++ render ((l, sep) :: ls)) in *.
  assert (text = b ++ spell l ++ sep ++ render ls) as Htext.
  { subst text. unfold render. simpl. by rewrite <-app_assoc. }
  clearbody text. subst text.
  destruct (spell_starts l Hl) as (c & s & Hspell & Hc & Hh).
  destruct (skip_text_blank b (spell l ++ sep ++ render ls) before column line known Hb)
    as (column' & line' & Hskip & Hp'); [by rewrite Hspell|done|].
  destruct (lex_token_lexeme l (sep ++ render ls) (mk_Location path column' line' "") Hl)
    as (t & Ht & Hm); [by destruct sep|].
  destruct (IH sep fuel ((before ++ b) ++ spell l) (u32 (column' + Z.of_nat (length (spell l)))) line' (tokens ++ [t])
    (known ∧ newline ∉ spell l)) as (ts & Hts & Hall & Hloc); [done..| | |].
  { rewrite Hspell in Hfuel. rewrite !length_app in Hfuel. rewrite length_app. simpl in Hfuel.
    rewrite ?length_app in Hfuel. lia. }
  { intros [Hk Hn]. apply at_place_text; [by apply Hp'|done]. }
  exists (t :: ts). split_and!; [|by constructor|].
  - cbn [lex_text]. rewrite Hskip.
    destruct (b ++ spell l ++ sep ++ render ls) as [|x rest] eqn:Hx.
    { rewrite Hspell in Hx. by destruct b. }
    rewrite Hspell in Ht |- *. cbn [app] in Ht |- *. rewrite Ht. comp_step. destruct Hm as [-> _].
    change (c :: s ++ sep ++ render ls) with ((c :: s) ++ sep ++ render ls).
    rewrite <-Hspell, drop_app_length, Hts. by rewrite <-app_assoc.
  - intros [|k] t' Hk Hknown Hall'.
    + injection Hk as <-. exists column', line'. rewrite app_nil_r. split; [by apply Hp'|].
      by apply (lex_token_location _ _ _ [] _ Ht).
    + cbn [take] in Hall' |- *. apply Forall_cons_1 in Hall' as [Hn Hall'].
      destruct (Hloc k t' Hk (conj Hknown Hn) Hall') as (column1 & line1 & Hp1 & Hl1).
      exists column1, line1. split; [|done]. revert Hp1. unfold render. cbn. by rewrite <-!app_assoc.
Qed.

(** ** Properties *)

(** C10: lexing a file of less than 4 GiB made of keywords, integers in any of the
    five bases, words, addresses and quoted literals, separated by whitespace
    and comments, succeeds without a report and appends to the vector exactly
    one token for each of them, in order, with its text, its kind and its
    value; and with the line and the column of its first character, for every
    token in front of which no literal has a newline in it. *)
Theorem lex_render path leading ls tokens :
  blank leading → file_ok ls → Z.of_nat (length (leading ++ render ls)) < 2 ^ 32 →
  ∃ ts, lex (str_of (leading ++ render ls)) path tokens = ([], Done (tokens ++ ts, true))
    ∧ Forall2 token_matches ls.*1 ts
    ∧ ∀ k t, ts !! k = Some t → Forall (λ p, newline ∉ spell p.1) (take k ls) →
        located path (leading ++ render (take k ls)) t.
Proof.
  intros Hb Hls Hsize. rewrite lex_of_text by (by rewrite chars_str_of). rewrite chars_str_of.
  destruct (lex_text_render path ls leading (S (length (leading ++ render ls))) [] 1 1 tokens True)
    as (ts & Hts & Hall & Hloc); [done|done|lia|done|].
  exists ts. split_and!; [done|done|]. intros k t Hk Hn. destruct (Hloc k t Hk I Hn) as (column & line & Hp & Ht).
  eapply at_place_located; [|exact Hp|exact Ht].
  assert (k < length ls)%nat as Hlt.
  { apply lookup_lt_Some in Hk. apply Forall2_length in Hall. rewrite length_fmap in Hall. lia. }
  eapply render_before; [done|done|exact Hsize].
Qed.

Lemma lex_render_witness :
  ∃ ts, lex (str_of (["#"; "c"; newline] ++ render
      [(L_word ["x"], [" "]); (L_integer 16 255, [" "]); (L_string ["a"; backslash; dquote], [newline])]))
      "f" [] = ([], Done ([] ++ ts, true))
    ∧ Forall2 token_matches [L_word ["x"]; L_integer 16 255; L_string ["a"; backslash; dquote]] ts
    ∧ ∀ k t, ts !! k = Some t → Forall (λ p, newline ∉ spell p.1)
        (take k [(L_word ["x"], [" "]); (L_integer 16 255, [" "]); (L_string ["a"; backslash; dquote], [newline])]) →
        located "f" (["#"; "c"; newline] ++ render
          (take k [(L_word ["x"], [" "]); (L_integer 16 255, [" "]); (L_string ["a"; backslash; dquote], [newline])])) t.
Proof.
  apply (lex_render "f" ["#"; "c"; newline]
    [(L_word ["x"], [" "]); (L_integer 16 255, [" "]); (L_string ["a"; backslash; dquote], [newline])] []).
  - apply (blank_comment ["c"] []); [by apply (bool_decide_unpack _)|constructor].
  - repeat constructor; simpl; try done; try (by apply (bool_decide_unpack _)).
  - reflexivity.
Defined.

(** Newlines in a literal are not counted: the token behind it has the line the
    literal starts in. *)
Lemma lex_literal_newline :
  ∃ t1 t2, lex (str_of (render [(L_string ["a"; newline], [" "]); (L_word ["x"], [newline])])) "f" [] = ([], Done ([t1; t2], true))
    ∧ tok_location t2 = mk_Location "f" 6 1 "".
Proof. eexists _, _. split; vm_compute; reflexivity. Qed.



(** C30: the bisection of the sorted keyword table finds a keyword for a text
    exactly when the table lists it, and then the kind listed. *)
Theorem find_keyword_correct s k : find_keyword s = Some k ↔ (s, k) ∈ keyword_entries.
Proof.
  split; [apply find_keyword_In|]. intros Hin.
  by apply (proj1 (list.Forall_forall _ _) find_keyword_entries (s, k)).
Qed.

(** C35: lexing ends on every file of less than 4 GiB: the main loop takes no more
    rounds than the file has characters and one, and neither do the loops over
    blanks in it.  (In a larger file the 32-bit index wraps around.) *)
Theorem lex_terminates file path tokens :
  Z.of_nat (length (chars file)) < 2 ^ 32 → ends (lex file path tokens).
Proof. intros Hsize. rewrite lex_of_text by done. apply lex_text_ends. lia. Qed.

Lemma lex_terminates_witness : ends (lex "1 # one" "f" []).
Proof. apply lex_terminates. reflexivity. Defined.

(** a file whose last line is a comment without a final newline makes the
    lexer read past the end of the file. *)
Theorem lex_open_comment path leading text tokens :
  blank leading → newline ∉ text → Z.of_nat (length (leading ++ "#" :: text)) < 2 ^ 32 →
  lex (str_of (leading ++ "#" :: text)) path tokens = ([], Undef).
Proof.
  intros Hb Ht Hsize. rewrite lex_of_text by (by rewrite chars_str_of). rewrite chars_str_of.
  destruct (skip_text_app leading ("#" :: text) [] 1 1 False Hb) as (c' & l' & Hskip & _); [done|].
  simpl lex_text. rewrite Hskip. simpl. rewrite skip_text_open_comment by done.
  by destruct leading.
Qed.

Lemma lex_open_comment_witness :
  lex (str_of ([" "] ++ "#" :: ["e"; "n"; "d"])) "f" [] = ([], Undef).
Proof.
  apply lex_open_comment; [|by apply (bool_decide_unpack _)|reflexivity].
  constructor; [done|constructor].
Defined.

(** a string literal whose body ends in an escaped backslash is not
    recognised as closed: a file that holds just that literal is rejected. *)
Theorem lex_trailing_escaped_backslash path body :
  Forall (λ c, c ≠ dquote) body → Z.of_nat (length body) + 5 < 2 ^ 32 →
  ∃ e, lex (str_of (dquote :: body ++ [backslash; backslash; dquote; newline])) path [] = ([e], Exited).
Proof.
  intros Hb Hsize. rewrite lex_of_text by (rewrite chars_str_of; simpl; rewrite length_app; simpl; lia).
  rewrite chars_str_of. simpl lex_text.
  change (isspace dquote) with false. cbn iota.
  unfold lex_token. change (front (dquote :: _)) with dquote. rewrite decide_True by tauto.
  unfold lex_quoted. cbn [length Nat.ltb Nat.leb]. change (drop 1 (dquote :: ?l)) with l.
  rewrite decide_False by (destruct Hb; done).
  rewrite adjacent_find_escaped by done. by eexists.
Qed.

Lemma lex_trailing_escaped_backslash_witness :
  ∃ e, lex (str_of (dquote :: ["a"] ++ [backslash; backslash; dquote; newline])) "f" [] = ([e], Exited).
Proof. apply lex_trailing_escaped_backslash; [by repeat constructor|reflexivity]. Defined.
