(* ===== verification/Parser.v ===== *)
(** * Parser (src/src/parser.cc)

    From tokens to words and operations.  Loops that run an [unsigned] index
    down to zero and stop when it wraps are recursions on the number of tokens
    left; vectors are shorter than 2^32 elements. *)

From S2P Require Import Prelude Syntax Errors TypeNames Unicode Lexer.

Open Scope char_scope.
Open Scope Z_scope.

(** ** String-like literals *)

Definition hex_digit (c : ascii) : option Z :=
  let o := ord c in
  if (ord "0" <=? o) && (o <=? ord "9") then Some (o - ord "0")
  else if (ord "a" <=? o) && (o <=? ord "f") then Some (o - ord "a" + 10)
  else if (ord "A" <=? o) && (o <=? ord "F") then Some (o - ord "A" + 10)
  else None.

(** [std::from_chars] in base 16 on exactly these characters: [None] when it
    stops before the last one. *)
Fixpoint from_chars16 (l : list ascii) (value : Z) : option Z :=
  match l with
  | [] => Some value
  | c :: l => d ← hex_digit c; from_chars16 l (value * 16 + d)
  end.

Section Stringlike.
  Context {S : Type} (accumulator : S → ascii → comp (S * bool)).

(** Feeds characters until the accumulator asks to stop. *)
Fixpoint accumulate (l : list ascii) (s : S) : comp (S * bool) :=
  match l with
  | [] => mret (s, true)
  | c :: l =>
    '(s, continue) ← accumulator s c;
    if continue : bool then accumulate l s else mret (s, false)
  end.

(** One round of the hexadecimal escape: a digit is shifted in, anything else
    is reported and leaves the value as it is. *)
Definition hex_escape_digit (token : Token) (j : Z) (c : ascii) (hex_value : Z) : comp Z :=
  match hex_digit c with
  | Some d => mret (Z.lor (u32 (Z.shiftl hex_value (4 * j))) d)
  | None =>
    error (Some (tok_location token))
      ("Expected hexadecimal digit, found: " +:+ str_of [c]) ≫= λ _, mret hex_value
  end.

(** The escapes that stand for one character. *)
Definition simple_escape (v : ascii) : option ascii :=
  if decide (v = "0") then Some NUL
  else if decide (v = dquote) then Some dquote
  else if decide (v = squote) then Some squote
  else if decide (v = backslash) then Some backslash
  else if decide (v = "e") then Some (chr 27)
  else if decide (v = "n") then Some newline
  else if decide (v = "r") then Some (chr 13)
  else if decide (v = "t") then Some (chr 9)
  else None.

(** [if (!callv(accumulator, true, c)) return;] for one character and for the
    characters of a rune, with what follows in [k]. *)
Definition emit (s : S) (c : ascii) (k : S → comp S) : comp S :=
  '(s, continue) ← accumulator s c; if continue : bool then k s else mret s.

Definition emit_all (s : S) (l : list ascii) (k : S → comp S) : comp S :=
  '(s, continue) ← accumulate l s; if continue : bool then k s else mret s.

(** The unicode escape of the given digits. *)
Definition emit_rune (token : Token) (digits : list ascii) (s : S) (k : S → comp S) : comp S :=
  match from_chars16 digits 0 with
  | None =>
    error_fatal (Some (tok_location token)) "Found non-decimal digit inside unicode escape sequence!"
  | Some rune => emit_all s (encode_rune rune) k
  end.

(** [parse_stringlike(token, sequence, accumulator)]; [sequence] is the part
    from the current index on. *)
Fixpoint parse_stringlike_loop (token : Token) (next_escaped : bool) (sequence : list ascii) (s : S)
    : comp S :=
  let loc := Some (tok_location token) in
  match sequence with
  | [] => mret s
  | v :: rest =>
    if decide (v = backslash) then parse_stringlike_loop token true rest s
    else if next_escaped then
      match simple_escape v with
      | Some v => emit s v (parse_stringlike_loop token false rest)
      | None =>
        if decide (v = "u") then
          match rest with
          | d1 :: d2 :: d3 :: d4 :: rest =>
            emit_rune token [d1; d2; d3; d4] s (parse_stringlike_loop token false rest)
          | _ => error_fatal loc "Unicode escape sequence must be exactly 4 digits long"
          end
        else if decide (v = "U") then
          match rest with
          | d1 :: d2 :: d3 :: d4 :: d5 :: d6 :: d7 :: d8 :: rest =>
            emit_rune token [d1; d2; d3; d4; d5; d6; d7; d8] s
              (parse_stringlike_loop token false rest)
          | _ => error_fatal loc "Unicode escape sequence must be exactly 8 digits long"
          end
        else if decide (v = "x") then
          match rest with
          | c0 :: c1 :: rest =>
            hex_value ← hex_escape_digit token 0 c0 0;
            hex_value ← hex_escape_digit token 1 c1 hex_value;
            emit s (chr hex_value) (parse_stringlike_loop token false rest)
          | _ => error_fatal loc "Hex escape sequences are always dwo digits long"
          end
        else
          error loc ("Unrecognized escape sequence: '\" +:+ str_of [v] +:+ "'") ≫= λ _,
          emit s v (parse_stringlike_loop token false rest)
      end
    else emit s v (parse_stringlike_loop token false rest)
  end.

Definition parse_stringlike (token : Token) (sequence : list ascii) (s : S) : comp S :=
  parse_stringlike_loop token false sequence s.

End Stringlike.

(** [sval.substr(1, sval.size() - 2)] *)
Definition unquoted (sval : string) : list ascii :=
  let s := chars sval in take (length s - 2) (drop 1 s).

(** The accumulator of strings: [s.push_back(c)], which never stops. *)
Definition push_back (s : list ascii) (c : ascii) : comp (list ascii * bool) :=
  mret (s ++ [c], true).

Definition parse_string (token : Token) : comp (list ascii) :=
  parse_stringlike push_back token (unquoted (tok_sval token)) [].

(** The accumulator of character literals: the literal's value and the number
    of bytes seen. [c << 8 * offset] is a shift of the 32-bit [int] the signed
    [char] is promoted to. *)
Definition char_accumulator (token : Token) (st : Z * Z) (c : ascii) : comp ((Z * Z) * bool) :=
  let '(value, offset) := st in
  if 32 <=? 8 * offset then undefined
  else
    let value := Z.lor value (u64 (i32 (Z.shiftl (schar c) (8 * offset)))) in
    let offset := offset + 1 in
    if 8 <? offset then
      error (Some (tok_location token))
        "Character literal cannot be longer then 8 bytes on this platform!" ≫= λ _,
      mret ((value, offset), false)
    else mret ((value, offset), true).

Definition parse_char (token : Token) : comp Z :=
  '(value, _) ← parse_stringlike (char_accumulator token) token (unquoted (tok_sval token)) (0, 0);
  mret value.

(** ** Strings *)

(** [try_emplace] of the string with the next identifier, which is used up
    only if the string is new. *)
Definition intern_string (s : string) (strings : gmap string Z) (next_string_id : Z)
    : gmap string Z * Z * Z :=
  match strings !! s with
  | Some id => (strings, next_string_id, id)
  | None => (<[s := next_string_id]> strings, u32 (next_string_id + 1), next_string_id)
  end.

(** [extract_strings]; the static counter [next_string_id] is threaded. *)
Fixpoint extract_strings (tokens : list Token) (strings : gmap string Z) (next_string_id : Z)
    : comp (list Token * gmap string Z * Z) :=
  match tokens with
  | [] => mret ([], strings, next_string_id)
  | token :: tokens =>
    if decide (tok_kind token ≠ TokKind.String) then
      '(tokens, strings, next_string_id) ← extract_strings tokens strings next_string_id;
      mret (token :: tokens, strings, next_string_id)
    else
      s ← parse_string token;
      let '(strings, next_string_id, id) := intern_string (str_of s) strings next_string_id in
      '(tokens, strings, next_string_id) ← extract_strings tokens strings next_string_id;
      mret (set_tok_ival id token :: tokens, strings, next_string_id)
  end.

(** ** Includes and imports *)

(** [fs::path::parent_path] of a POSIX path: the text before the last slash,
    without the slashes it ends in unless it is the root. *)
Fixpoint strip_slashes (rev_path : list ascii) : list ascii :=
  match rev_path with
  | c :: r => if decide (c = "/") then strip_slashes r else rev_path
  | [] => []
  end.

Fixpoint strip_filename (rev_path : list ascii) : list ascii :=
  match rev_path with
  | c :: r => if decide (c = "/") then rev_path else strip_filename r
  | [] => []
  end.

Definition parent_path (path : string) : string :=
  let dir := strip_filename (reverse (chars path)) in
  match strip_slashes dir with
  | [] => match dir with [] => "" | _ => str_of ["/"] end
  | d => str_of (reverse d)
  end.

(** [extract_include_or_import]; [prev] is the token before the ones left and
    [i] the index of the first of them. *)
Fixpoint extract_include_loop (prev : option Token) (tokens : list Token) (i : nat)
    : comp (option (Keyword_Kind * string * string * nat)) :=
  match tokens with
  | [] => mret None
  | token :: tokens =>
    if decide (tok_kind token ≠ TokKind.Keyword ∨
      (tok_kval token ≠ Keyword.Include ∧ tok_kval token ≠ Keyword.Import))
    then extract_include_loop (Some token) tokens (S i)
    else
      let message : string := if decide (tok_kval token = Keyword.Include)
        then "Include requires path"%string else "Import requires path"%string in
      match prev with
      | None => error_fatal None message
      | Some p =>
        ensure (bool_decide (tok_kind p = TokKind.String)) None message ≫= λ _,
        mret (Some (tok_kval token, parent_path (file (tok_location token)),
          str_of (unquoted (tok_sval p)), (i - 1)%nat))
      end
  end.

Definition extract_include_or_import (tokens : list Token)
    : comp (option (Keyword_Kind * string * string * nat)) :=
  extract_include_loop None tokens 0.

(** ** Definitions *)

(** The compiler's table of words with the two static counters that number
    words and anonymous functions. *)
Record Registry := mk_Registry {
  reg_words : Words;
  word_count : Z;
  lambda_count : Z;
}.

(** [auto &word = words[name]] with the assignments [f] makes to it and
    [word.id = Word::word_count++]. *)
Definition define_word (name : string) (f : Word → Word) (r : Registry) : Registry :=
  let word := default new_Word (reg_words r !! name) in
  mk_Registry (<[name := f word]> (reg_words r)) (u64 (word_count r + 1)) (lambda_count r).

Definition as_function (id : Z) (l : Location) (w : Word) : Word :=
  mk_Word WordKind.Function (w_ival w) (w_intrinsic w) (w_byte_size w) id (w_function_body w)
    (w_relevant_word w) (w_has_effect w) (w_effect w) (w_is_dynamically_typed w) l (w_function_name w).

Definition as_constant (id ival : Z) (l : Location) (w : Word) : Word :=
  mk_Word WordKind.Integer ival (w_intrinsic w) (w_byte_size w) id (w_function_body w)
    (w_relevant_word w) (w_has_effect w) (w_effect w) (w_is_dynamically_typed w) l (w_function_name w).

Definition as_array (id size : Z) (l : Location) (w : Word) : Word :=
  mk_Word WordKind.Array (w_ival w) (w_intrinsic w) size id (w_function_body w)
    (w_relevant_word w) (w_has_effect w) (w_effect w) (w_is_dynamically_typed w) l (w_function_name w).

Definition anonymous_name (n : Z) : string := Anonymous_Function_Prefix +:+ to_string n.

Section Definitions.
  Context (warn_redefinitions : bool).

Definition check_if_has_been_defined (token : Token) (name : string) (r : Registry) : comp unit :=
  if warn_redefinitions && bool_decide (is_Some (reg_words r !! name))
  then warning (Some (tok_location token)) ("`" +:+ name +:+ "` has already been defined")
  else mret tt.

(** A token [k] places before index [i], if there is one of kind [kind]. *)
Definition preceding (tokens : list Token) (i k : nat) (kind : Token_Kind) : option Token :=
  if (k <=? i)%nat then
    t ← tokens !! (i - k)%nat; if decide (tok_kind t = kind) then Some t else None
  else None.

Definition register_function (tokens : list Token) (i : nat) (token : Token) (r : Registry)
    : comp (list Token * Registry) :=
  if decide (front (chars (tok_sval token)) = "&") then
    let ival := lambda_count r in
    let r := define_word (anonymous_name ival) (as_function (word_count r) (tok_location token))
      (mk_Registry (reg_words r) (word_count r) (u32 (lambda_count r + 1))) in
    mret (<[i := set_tok_ival ival token]> tokens, r)
  else
    match preceding tokens i 1 TokKind.Word with
    | None =>
      error_fatal (Some (tok_location token)) "Function should be preceeded by an identifier"
    | Some name =>
      check_if_has_been_defined token (tok_sval name) r ≫= λ _,
      mret (tokens, define_word (tok_sval name) (as_function (word_count r) (tok_location token)) r)
    end.

Definition register_constant (tokens : list Token) (i : nat) (token : Token) (r : Registry)
    : comp (list Token * Registry) :=
  match preceding tokens i 2 TokKind.Word with
  | None => error_fatal (Some (tok_location token)) "constant must be preceeded by an identifier"
  | Some name =>
    match preceding tokens i 1 TokKind.Integer with
    | None => error_fatal (Some (tok_location token)) "constant must be preceeded by an integer"
    | Some value =>
      check_if_has_been_defined token (tok_sval name) r ≫= λ _,
      mret (tokens, define_word (tok_sval name)
        (as_constant (word_count r) (tok_ival value) (tok_location name)) r)
    end
  end.

(** The number of elements of an array: [unsigned size]. *)
Definition array_count (t token : Token) (r : Registry) : comp Z :=
  let failed : comp Z :=
    error (Some (tok_location token)) (tok_sval token +:+ " should be preceeded by an integer") ≫= λ _,
    mret 0 in
  match tok_kind t with
  | TokKind.Integer => mret (u32 (tok_ival t))
  | TokKind.Word =>
    match reg_words r !! tok_sval t with
    | Some w => if decide (w_kind w = WordKind.Integer) then mret (u32 (w_ival w)) else failed
    | None => failed
    end
  | _ => failed
  end.

(** The size of one element, by the fourth character of the keyword. *)
Definition element_size (sval : string) : option Z :=
  match chars sval !! 3%nat with
  | Some c =>
    if decide (c = "y" ∨ c = "8") then Some 1
    else if decide (c = "1") then Some 2
    else if decide (c = "3") then Some 4
    else if decide (c = "s" ∨ c = "6") then Some 8
    else None
  | None => None
  end.

Definition register_array (tokens : list Token) (i : nat) (token : Token) (r : Registry)
    : comp (list Token * Registry) :=
  match preceding tokens i 2 TokKind.Word with
  | None =>
    error_fatal (Some (tok_location token)) (tok_sval token +:+ " should be preceeded by an identifier")
  | Some name =>
    t ← index tokens (i - 1);
    size ← array_count t token r;
    match element_size (tok_sval token) with
    | None => unreachable "unreachable"
    | Some k =>
      check_if_has_been_defined token (tok_sval name) r ≫= λ _,
      mret (tokens, define_word (tok_sval name)
        (as_array (word_count r) (u32 (size * k)) (tok_location name)) r)
    end
  end.

(** The body of the loop of [register_definitions] at index [i]. *)
Definition register_definition (tokens : list Token) (i : nat) (r : Registry)
    : comp (list Token * Registry) :=
  token ← index tokens i;
  if decide (tok_kind token ≠ TokKind.Keyword) then mret (tokens, r)
  else
    match tok_kval token with
    | Keyword.Function => register_function tokens i token r
    | Keyword.Constant => register_constant tokens i token r
    | Keyword.Array => register_array tokens i token r
    | _ => mret (tokens, r)
    end.

Fixpoint register_loop (indices : list nat) (tokens : list Token) (r : Registry)
    : comp (list Token * Registry) :=
  match indices with
  | [] => mret (tokens, r)
  | i :: indices =>
    '(tokens, r) ← register_definition tokens i r; register_loop indices tokens r
  end.

Definition register_definitions (tokens : list Token) (r : Registry)
    : comp (list Token * Registry) :=
  register_loop (seq 0 (length tokens)) tokens r.

End Definitions.

(** ** Meaning of string-like literals *)

(** The escapes that stand for one character, by their codes. *)
Definition escape_table : list (ascii * ascii) :=
  [("0", chr 0); (chr 34, chr 34); (chr 39, chr 39); ("e", chr 27); ("n", chr 10); ("r", chr 13); ("t", chr 9)].

(** The hexadecimal digits and their values. *)
Definition digit_table : list (ascii * Z) :=
  zip (chars "0123456789abcdefABCDEF") [0; 1; 2; 3; 4; 5; 6; 7; 8; 9; 10; 11; 12; 13; 14; 15; 10; 11; 12; 13; 14; 15].

(** [escaped sequence meaning]: the text [sequence] of a literal stands for the
    characters [meaning].  A backslash that is followed by another one has no
    meaning here (the code drops it, [double_backslash_dropped]); a rune of a
    unicode escape stands for its bytes by the table of RFC 3629, and the three
    runes the code encodes in a longer form ([encode_rune_overlong]) have no
    meaning either. *)
Inductive escaped : list ascii → list ascii → Prop :=
  | E_nil : escaped [] []
  | E_plain c r m : c ≠ backslash → escaped r m → escaped (c :: r) (c :: m)
  | E_simple e c r m :
      (e, c) ∈ escape_table → escaped r m → escaped (backslash :: e :: r) (c :: m)
  | E_hex h l d e r m :
      (h, d) ∈ digit_table → (l, e) ∈ digit_table → escaped r m →
      escaped (backslash :: "x" :: h :: l :: r) (chr (d * 16 + e) :: m)
  | E_unicode v ds vs r m :
      v = "u" ∧ length ds = 4%nat ∨ v = "U" ∧ length ds = 8%nat →
      Forall2 (λ c d, (c, d) ∈ digit_table) ds vs →
      let rune := foldl (λ n d, n * 16 + d) 0 vs in
      rune < 2 ^ 21 → rune ∉ [127; 2047; 65535] → escaped r m →
      escaped (backslash :: v :: ds ++ r) ((chr <$> utf8_reference rune) ++ m).

(** The code reads the escapes by these tables. *)
Lemma simple_escape_table e c : (e, c) ∈ escape_table → e ≠ backslash ∧ simple_escape e = Some c.
Proof.
  intros H. assert (Forall (λ '(e, c), e ≠ backslash ∧ simple_escape e = Some c) escape_table) as HF
    by (repeat constructor; done).
  rewrite list.Forall_forall in HF. exact (HF (e, c) H).
Qed.

Lemma hex_digit_table c d : (c, d) ∈ digit_table → hex_digit c = Some d.
Proof.
  intros H. assert (Forall (λ '(c, d), hex_digit c = Some d) digit_table) as HF by (repeat constructor; done).
  rewrite list.Forall_forall in HF. exact (HF (c, d) H).
Qed.

Lemma from_chars16_table ds vs : ∀ n,
  Forall2 (λ c d, (c, d) ∈ digit_table) ds vs → from_chars16 ds n = Some (foldl (λ n d, n * 16 + d) n vs).
Proof.
  intros n H. revert n. induction H as [|c d ds vs Hc _ IH]; intros n; [done|]. simpl.
  rewrite (hex_digit_table _ _ Hc). apply IH.
Qed.

Lemma digits_nonneg ds vs : ∀ n,
  Forall2 (λ c d, (c, d) ∈ digit_table) ds vs → 0 <= n → 0 <= foldl (λ n d, n * 16 + d) n vs.
Proof.
  intros n H. revert n. induction H as [|c d ds vs Hc _ IH]; intros n Hn; [done|]. simpl. apply IH.
  assert (Forall (λ '(c, d), 0 <= d) digit_table) as HF by (repeat constructor; lia).
  rewrite list.Forall_forall in HF. pose proof (HF (c, d) Hc). simpl in *. lia.
Qed.

Lemma encode_rune_table rune :
  0 <= rune < 2 ^ 21 → rune ∉ [127; 2047; 65535] → encode_rune rune = chr <$> utf8_reference rune.
Proof.
  rewrite !not_elem_of_cons. intros Hr (? & ? & ? & _). rewrite <-encode_rune_reference by done.
  rewrite <-list_fmap_compose. symmetry. rewrite <-(list_fmap_id (encode_rune rune)) at 2.
  apply list_fmap_ext. intros i c _. apply chr_ord.
Qed.

Lemma hex_digit_range c d : hex_digit c = Some d → 0 <= d < 16.
Proof.
  unfold hex_digit. vm_compute (ord "0"); vm_compute (ord "9"); vm_compute (ord "a");
    vm_compute (ord "f"); vm_compute (ord "A"); vm_compute (ord "F").
  intros H. repeat case_match; bool_to_prop; simplify_eq; lia.
Qed.

(** Two rounds of the hexadecimal escape give the value of its digits. *)
Lemma hex_escape_value token h l d e :
  hex_digit h = Some d → hex_digit l = Some e →
  (hex_value ← hex_escape_digit token 0 h 0; hex_escape_digit token 1 l hex_value) = mret (d * 16 + e).
Proof.
  intros Hh Hl. unfold hex_escape_digit. rewrite Hh, Hl. comp_step.
  pose proof (hex_digit_range _ _ Hh). pose proof (hex_digit_range _ _ Hl).
  rewrite Z.shiftl_0_l. change (u32 0) with 0. rewrite Z.lor_0_l.
  rewrite Z.shiftl_mul_pow2 by lia. change (4 * 1) with 4.
  unfold u32. rewrite Z.mod_small by lia.
  rewrite lor_disjoint_add by lia. done.
Qed.

Section Meaning.
  Context {S : Type} (accumulator : S → ascii → comp (S * bool)) (token : Token).

Lemma accumulate_app l m s :
  accumulate accumulator (l ++ m) s =
    '(s, continue) ← accumulate accumulator l s;
    if continue : bool then accumulate accumulator m s else mret (s, false).
Proof.
  revert s. induction l as [|c l IH]; intros s; cbn [app accumulate]; comp_step; [done|].
  destruct (accumulator s c) as [e [[s' []]| | | |]]; cbn; try done. rewrite IH.
  destruct (accumulate accumulator l s') as [e' [[s'' []]| | | |]]; cbn;
    rewrite ?app_nil_r; try done.
Qed.

(** The result of feeding the accumulator. *)
Definition fed (m : list ascii) (s : S) : comp S :=
  '(s, _) ← accumulate accumulator m s; mret s.

Lemma emit_all_fed l m s : emit_all accumulator s l (fed m) = fed (l ++ m) s.
Proof.
  unfold emit_all, fed. rewrite accumulate_app. comp_step.
  destruct (accumulate accumulator l s) as [e [[s' []]| | | |]]; cbn; try done.
Qed.

Lemma emit_fed c m s : emit accumulator s c (fed m) = fed (c :: m) s.
Proof.
  unfold emit, fed. cbn [accumulate]. comp_step.
  destruct (accumulator s c) as [e [[s' []]| | | |]]; cbn; try done.
Qed.

Lemma emit_ext s c k1 k2 : (∀ s, k1 s = k2 s) → emit accumulator s c k1 = emit accumulator s c k2.
Proof.
  intros Hk. unfold emit. destruct (accumulator s c) as [e [[s' []]| | | |]]; cbn; try done.
  by rewrite Hk.
Qed.

Lemma emit_all_ext s l k1 k2 :
  (∀ s, k1 s = k2 s) → emit_all accumulator s l k1 = emit_all accumulator s l k2.
Proof.
  intros Hk. unfold emit_all. destruct (accumulate accumulator l s) as [e [[s' []]| | | |]]; cbn; try done.
  by rewrite Hk.
Qed.

Lemma loop_unicode4 d1 d2 d3 d4 r s :
  parse_stringlike_loop accumulator token false (backslash :: "u" :: d1 :: d2 :: d3 :: d4 :: r) s =
    emit_rune accumulator token [d1; d2; d3; d4] s
      (parse_stringlike_loop accumulator token false r).
Proof. reflexivity. Qed.

Lemma loop_unicode8 d1 d2 d3 d4 d5 d6 d7 d8 r s :
  parse_stringlike_loop accumulator token false
    (backslash :: "U" :: d1 :: d2 :: d3 :: d4 :: d5 :: d6 :: d7 :: d8 :: r) s =
    emit_rune accumulator token [d1; d2; d3; d4; d5; d6; d7; d8] s
      (parse_stringlike_loop accumulator token false r).
Proof. reflexivity. Qed.

(** [parse_stringlike] feeds the accumulator with the meaning of the text. *)
Lemma parse_stringlike_escaped seq m :
  escaped seq m → ∀ s, parse_stringlike accumulator token seq s = fed m s.
Proof.
  unfold parse_stringlike.
  induction 1 as [|c r m Hc Hr IH|e c r m [He Hs]%simple_escape_table Hr IH
    |h l d e r m Hh%hex_digit_table Hl%hex_digit_table Hr IH|v ds vs r m Hv Hd rune Hmax Hrune Hr IH]; intros s.
  - done.
  - cbn [parse_stringlike_loop]. rewrite decide_False by done.
    erewrite emit_ext by apply IH. apply emit_fed.
  - cbn [parse_stringlike_loop]. rewrite decide_True, decide_False, Hs by done.
    erewrite emit_ext by apply IH. apply emit_fed.
  - cbn [parse_stringlike_loop]. rewrite decide_True, decide_False by done.
    change (simple_escape "x") with (@None ascii). cbn iota.
    rewrite decide_False, decide_False, decide_True by done.
    rewrite <-bind_assoc, (hex_escape_value _ _ _ d e) by done. comp_step.
    erewrite emit_ext by apply IH. apply emit_fed.
  - rewrite <-encode_rune_table by first [done | split; [by eapply digits_nonneg|done]].
    apply (from_chars16_table _ _ 0) in Hd. fold rune in Hd. destruct Hv as [[-> Hlen]|[-> Hlen]].
    + destruct ds as [|d1 [|d2 [|d3 [|d4 [|]]]]]; try discriminate Hlen. simpl app.
      rewrite loop_unicode4. unfold emit_rune. rewrite Hd.
      erewrite emit_all_ext by apply IH. apply emit_all_fed.
    + destruct ds as [|d1 [|d2 [|d3 [|d4 [|d5 [|d6 [|d7 [|d8 [|]]]]]]]]]; try discriminate Hlen.
      simpl app. rewrite loop_unicode8. unfold emit_rune. rewrite Hd.
      erewrite emit_all_ext by apply IH. apply emit_all_fed.
Qed.

End Meaning.

Lemma accumulate_push_back m s : accumulate push_back m s = mret (s ++ m, true).
Proof.
  revert s. induction m as [|c m IH]; intros s; cbn [accumulate]; [by rewrite app_nil_r|].
  change (push_back s c) with (mret (s ++ [c], true) : comp (list ascii * bool)).
  comp_step. rewrite IH, <-app_assoc. done.
Qed.

Lemma parse_string_escaped token m :
  escaped (unquoted (tok_sval token)) m → parse_string token = mret m.
Proof.
  intros H. unfold parse_string. rewrite (parse_stringlike_escaped _ _ _ _ H).
  unfold fed. rewrite (accumulate_push_back m []). by comp_step.
Qed.

(** ** Character literals *)

(** The bytes of a literal, the first one least significant. *)
Fixpoint little_endian (m : list ascii) : Z :=
  match m with [] => 0 | c :: m => ord c + 256 * little_endian m end.

Lemma schar_small c : ord c < 128 → schar c = ord c.
Proof.
  intros Hc. pose proof (ord_range c). unfold schar, i8, u8. rewrite Z.mod_small by lia.
  destruct (Z.ltb_spec (ord c) (2 ^ 7)); lia.
Qed.

Lemma char_accumulator_ascii token v k c :
  0 <= k < 4 → 0 <= v < 2 ^ (8 * k) → ord c < 128 →
  char_accumulator token (v, k) c = mret ((v + 2 ^ (8 * k) * ord c, k + 1), true)
  ∧ 0 <= v + 2 ^ (8 * k) * ord c < 2 ^ (8 * (k + 1)).
Proof.
  intros Hk Hv Hc. pose proof (ord_range c) as Ho.
  assert (0 < 2 ^ (8 * k) <= 2 ^ 24) as Hp.
  { split; [apply Z.pow_pos_nonneg; lia|apply Z.pow_le_mono_r; lia]. }
  assert (2 ^ (8 * (k + 1)) = 2 ^ (8 * k) * 256) as Hp1.
  { replace (8 * (k + 1)) with (8 * k + 8) by lia. by rewrite Z.pow_add_r by lia. }
  split; [|nia]. unfold char_accumulator.
  destruct (Z.leb_spec 32 (8 * k)); [lia|]. destruct (Z.ltb_spec 8 (k + 1)); [lia|].
  rewrite schar_small, Z.shiftl_mul_pow2 by lia.
  assert (0 <= ord c * 2 ^ (8 * k) < 2 ^ 31) as Hs by nia.
  assert (i32 (ord c * 2 ^ (8 * k)) = ord c * 2 ^ (8 * k)) as ->.
  { unfold i32, u32. rewrite Z.mod_small by lia.
    destruct (Z.ltb_spec (ord c * 2 ^ (8 * k)) (2 ^ 31)); lia. }
  rewrite u64_small by (unfold is_u64; lia).
  rewrite Z.lor_comm, lor_disjoint_add by lia. by rewrite Z.add_comm, (Z.mul_comm (ord c)).
Qed.

Lemma accumulate_char_ascii token m v k :
  0 <= k → k + Z.of_nat (length m) <= 4 → 0 <= v < 2 ^ (8 * k) → Forall (λ c, ord c < 128) m →
  accumulate (char_accumulator token) m (v, k) =
    mret ((v + 2 ^ (8 * k) * little_endian m, k + Z.of_nat (length m)), true).
Proof.
  intros Hk Hlen Hv Hm. revert v k Hk Hlen Hv.
  induction Hm as [|c m Hc Hm IH]; intros v k Hk Hlen Hv; cbn [accumulate little_endian length].
  { rewrite Z.mul_0_r, !Z.add_0_r. done. }
  rewrite length_cons, Nat2Z.inj_succ in Hlen.
  destruct (char_accumulator_ascii token v k c) as [-> Hb]; [lia..|]. comp_step.
  rewrite IH by lia. replace (8 * (k + 1)) with (8 * k + 8) by lia. rewrite Z.pow_add_r by lia.
  rewrite Nat2Z.inj_succ. change (2 ^ 8) with 256.
  match goal with |- mret (?a, ?b, _) = mret (?c, ?d, _) =>
    replace c with a by lia; replace d with b by lia end. done.
Qed.

Lemma char_accumulator_long token v c : char_accumulator token (v, 4) c = undefined.
Proof. done. Qed.

Lemma char_accumulator_more token v k c :
  0 <= k < 4 → ∃ v', char_accumulator token (v, k) c = mret ((v', k + 1), true).
Proof.
  intros Hk. unfold char_accumulator. destruct (Z.leb_spec 32 (8 * k)); [lia|].
  destruct (Z.ltb_spec 8 (k + 1)); [lia|]. eauto.
Qed.

Lemma accumulate_char_long token m v k :
  0 <= k <= 4 → 4 < k + Z.of_nat (length m) →
  accumulate (char_accumulator token) m (v, k) = undefined.
Proof.
  revert v k. induction m as [|c m IH]; intros v k Hk Hlen; [simpl in Hlen; lia|].
  rewrite length_cons, Nat2Z.inj_succ in Hlen. cbn [accumulate].
  destruct (decide (k = 4)) as [->|].
  - by rewrite char_accumulator_long.
  - destruct (char_accumulator_more token v k c) as [v' ->]; [lia|]. comp_step. apply IH; lia.
Qed.

(** ** String identifiers *)

(** The table of strings: identifiers below the next one, none used twice. *)
Definition strings_ok (strings : gmap string Z) (next : Z) : Prop :=
  (∀ s i, strings !! s = Some i → 0 <= i < next) ∧
  (∀ s1 s2 i, strings !! s1 = Some i → strings !! s2 = Some i → s1 = s2).

Lemma intern_string_ok s strings next strings' next' id :
  strings_ok strings next → 0 <= next < 2 ^ 32 - 1 →
  intern_string s strings next = (strings', next', id) →
  strings_ok strings' next' ∧ strings ⊆ strings' ∧ strings' !! s = Some id
  ∧ next <= next' <= next + 1.
Proof.
  intros [Hlt Hinj] Hn. unfold intern_string. destruct (strings !! s) as [i|] eqn:Hs.
  { intros [= <- <- <-]. split_and!; [done|done|done|lia|lia]. }
  intros [= <- <- <-]. assert (u32 (next + 1) = next + 1) as ->.
  { unfold u32. apply Z.mod_small. lia. }
  split_and!; [|by apply insert_subseteq|by rewrite lookup_insert_eq|lia|lia]. split.
  - intros s' i. rewrite lookup_insert. case_decide; [intros [= <-]; lia|].
    intros Hi%Hlt. lia.
  - intros s1 s2 i. rewrite !lookup_insert. repeat case_decide; subst; try done;
      intros H1 H2; simplify_eq; try (apply Hlt in H1; lia); try (apply Hlt in H2; lia). eauto.
Qed.

(** What [extract_strings] does to one token, given the final table. *)
Definition string_extracted (strings : gmap string Z) (t t' : Token) : Prop :=
  if decide (tok_kind t ≠ TokKind.String) then t' = t
  else ∃ l s id, parse_string t = (l, Done s) ∧ strings !! str_of s = Some id
    ∧ t' = set_tok_ival id t.

Lemma string_extracted_mono strings strings' t t' :
  strings ⊆ strings' → string_extracted strings t t' → string_extracted strings' t t'.
Proof.
  intros Hsub. unfold string_extracted. case_decide; [done|].
  intros (l & s & id & Hp & Hs & ->). exists l, s, id. split_and!; [done| |done].
  by eapply lookup_weaken.
Qed.

Lemma extract_strings_length tokens : ∀ strings next l tokens' strings' next',
  extract_strings tokens strings next = (l, Done (tokens', strings', next')) → length tokens' = length tokens.
Proof.
  induction tokens as [|t tokens IH]; intros strings next l tokens' strings' next' H; [by injection H as <- <- <- <-|].
  cbn [extract_strings] in H. case_decide.
  - apply bind_Done in H as (? & [[ts ss] n] & ? & H & [= <- <- <- <-] & _). cbn [length]. by erewrite IH.
  - apply bind_Done in H as (? & s & ? & _ & H & _). destruct (intern_string _ _ _) as [[? ?] ?].
    apply bind_Done in H as (? & [[ts ss] n] & ? & H & [= <- <- <- <-] & _). cbn [length]. by erewrite IH.
Qed.

Lemma extract_strings_spec tokens : ∀ strings next l tokens' strings' next',
  strings_ok strings next → 0 <= next → next + Z.of_nat (length tokens) < 2 ^ 32 →
  extract_strings tokens strings next = (l, Done (tokens', strings', next')) →
  strings_ok strings' next' ∧ strings ⊆ strings'
  ∧ Forall2 (string_extracted strings') tokens tokens'.
Proof.
  induction tokens as [|t tokens IH]; intros strings next l tokens' strings' next' Hok Hn Hlen H.
  { injection H as <- <- <- <-. split_and!; [done|done|constructor]. }
  rewrite length_cons, Nat2Z.inj_succ in Hlen. cbn [extract_strings] in H.
  case_decide as Hk.
  - apply bind_Done in H as (l1 & [[ts' ss'] n'] & l2 & H1 & H2 & ->). injection H2 as <- <- <- <-.
    destruct (IH _ _ _ _ _ _ Hok Hn ltac:(lia) H1) as (? & ? & ?). split_and!; [done|done|].
    constructor; [|done]. unfold string_extracted. by rewrite decide_True.
  - apply bind_Done in H as (l1 & s & l2 & Hp & H & ->).
    destruct (intern_string (str_of s) strings next) as [[ss1 n1] id] eqn:Hi.
    destruct (intern_string_ok _ _ _ _ _ _ Hok ltac:(lia) Hi) as (Hok1 & Hsub & Hs & Hn1).
    apply bind_Done in H as (l3 & [[ts' ss'] n'] & l4 & H1 & H2 & ->). injection H2 as <- <- <- <-.
    destruct (IH _ _ _ _ _ _ Hok1 ltac:(lia) ltac:(lia) H1) as (? & ? & ?).
    split_and!; [done|by etrans|]. constructor; [|done].
    unfold string_extracted. case_decide; [contradiction|]. exists l1, s, id.
    split_and!; [done|by eapply lookup_weaken|done].
Qed.

(** ** Word identifiers *)

(** Functions, constants and arrays have identifiers below the counter, and no
    two of them the same one. *)
Definition ids_ok (r : Registry) : Prop :=
  (∀ n w, reg_words r !! n = Some w → w_kind w ≠ WordKind.Intrinsic → 0 <= w_id w < word_count r) ∧
  (∀ n1 n2 w1 w2, reg_words r !! n1 = Some w1 → reg_words r !! n2 = Some w2 →
    w_kind w1 ≠ WordKind.Intrinsic → w_kind w2 ≠ WordKind.Intrinsic →
    w_id w1 = w_id w2 → n1 = n2).

Lemma define_word_ok name f r :
  ids_ok r → 0 <= word_count r < 2 ^ 64 - 1 → (∀ w, w_id (f w) = word_count r) →
  ids_ok (define_word name f r) ∧ word_count (define_word name f r) = word_count r + 1.
Proof.
  intros [Hlt Hinj] Hc Hf. unfold define_word. simpl.
  assert (u64 (word_count r + 1) = word_count r + 1) as -> by (apply u64_small; unfold is_u64; lia).
  split; [|done]. split; simpl.
  - intros n w. rewrite lookup_insert. case_decide.
    + intros [= <-] _. rewrite Hf. lia.
    + intros Hw Hk. specialize (Hlt n w Hw Hk). lia.
  - intros n1 n2 w1 w2. rewrite !lookup_insert. repeat case_decide; subst; try done.
    + intros [= <-] Hw _ Hk. rewrite Hf. specialize (Hlt _ _ Hw Hk). lia.
    + intros Hw [= <-] Hk _. rewrite Hf. specialize (Hlt _ _ Hw Hk). lia.
    + eauto.
Qed.

(** What a round of [register_definitions] does to the table: nothing, or a word
    gets the next identifier and a kind, and keeps its body. *)
Inductive registers (r : Registry) : Registry → Prop :=
  | registers_none : registers r r
  | registers_word n f r1 :
    reg_words r1 = reg_words r → word_count r1 = word_count r →
    (∀ w, w_id (f w) = word_count r ∧ w_kind (f w) ≠ WordKind.Intrinsic ∧ w_function_body (f w) = w_function_body w) →
    registers r (define_word n f r1).

Lemma register_definition_registers warn tokens i r l tokens' r' :
  register_definition warn tokens i r = (l, Done (tokens', r')) → length tokens' = length tokens ∧ registers r r'.
Proof.
  intros H. unfold register_definition in H. apply bind_Done in H as (l1 & token & l2 & _ & H & _).
  case_decide; [by injection H as <- <- <-; split; [|constructor]|].
  destruct (tok_kval token); try (by injection H as <- <- <-; split; [|constructor]).
  - unfold register_array in H. destruct (preceding tokens i 2 TokKind.Word) as [name|]; [|done].
    apply bind_Done in H as (? & t & ? & _ & H & _). apply bind_Done in H as (? & size & ? & _ & H & _).
    destruct (element_size (tok_sval token)) as [k|]; [|done].
    apply bind_Done in H as (? & [] & ? & _ & H & _). injection H as _ <- <-. split; [done|]. by constructor.
  - unfold register_constant in H. destruct (preceding tokens i 2 TokKind.Word) as [name|]; [|done].
    destruct (preceding tokens i 1 TokKind.Integer) as [value|]; [|done].
    apply bind_Done in H as (? & [] & ? & _ & H & _). injection H as _ <- <-. split; [done|]. by constructor.
  - unfold register_function in H. case_decide.
    + injection H as _ <- <-. split; [apply length_insert|]. by constructor.
    + destruct (preceding tokens i 1 TokKind.Word) as [name|]; [|done].
      apply bind_Done in H as (? & [] & ? & _ & H & _). injection H as _ <- <-. split; [done|]. by constructor.
Qed.

(** An invariant of the table that [registers] keeps holds at the end. *)
Lemma register_loop_invariant (P : Registry → Prop) warn :
  (∀ r r', registers r r' → P r → P r') →
  ∀ indices tokens r l tokens' r', P r → register_loop warn indices tokens r = (l, Done (tokens', r')) → P r'.
Proof.
  intros HP. induction indices as [|i indices IH]; intros tokens r l tokens' r' Hr H; [by injection H as <- <- <-|].
  cbn [register_loop] in H. apply bind_Done in H as (l1 & [ts r1] & l2 & H1 & H2 & ->).
  apply register_definition_registers in H1 as [_ H1]. eauto.
Qed.

Lemma register_definitions_length warn tokens r l tokens' r' :
  register_definitions warn tokens r = (l, Done (tokens', r')) → length tokens' = length tokens.
Proof.
  unfold register_definitions. generalize (seq 0 (length tokens)). intros indices. revert tokens r l.
  induction indices as [|i indices IH]; intros tokens r l H; [by injection H as <- <- <-|].
  cbn [register_loop] in H. apply bind_Done in H as (l1 & [ts r1] & l2 & H1 & H2 & ->).
  apply register_definition_registers in H1 as [<- _]. eauto.
Qed.

(** The tokens are kept, but for the values of keywords of anonymous functions. *)
Lemma register_definition_tokens warn tokens i r l tokens' r' t :
  register_definition warn tokens i r = (l, Done (tokens', r')) → t ∈ tokens' → tok_kind t ≠ TokKind.Keyword → t ∈ tokens.
Proof.
  intros H Ht Hk. unfold register_definition in H. apply bind_Done in H as (l1 & token & l2 & _ & H & _).
  case_decide as Hkey; [by injection H as <- <- <-|].
  destruct (tok_kval token); try (by injection H as <- <- <-).
  - unfold register_array in H. destruct (preceding tokens i 2 TokKind.Word) as [name|]; [|done].
    apply bind_Done in H as (? & u & ? & _ & H & _). apply bind_Done in H as (? & size & ? & _ & H & _).
    destruct (element_size (tok_sval token)) as [k|]; [|done].
    apply bind_Done in H as (? & [] & ? & _ & H & _). by injection H as _ <- <-.
  - unfold register_constant in H. destruct (preceding tokens i 2 TokKind.Word) as [name|]; [|done].
    destruct (preceding tokens i 1 TokKind.Integer) as [value|]; [|done].
    apply bind_Done in H as (? & [] & ? & _ & H & _). by injection H as _ <- <-.
  - unfold register_function in H. case_decide.
    + injection H as _ <- <-. apply list_elem_of_lookup in Ht as [k Ht]. apply list_lookup_insert_Some in Ht
        as [(_ & <- & _)|[_ Ht]]; [by destruct Hkey|by eapply list_elem_of_lookup_2].
    + destruct (preceding tokens i 1 TokKind.Word) as [name|]; [|done].
      apply bind_Done in H as (? & [] & ? & _ & H & _). by injection H as _ <- <-.
Qed.

Lemma register_definitions_tokens warn tokens r l tokens' r' t :
  register_definitions warn tokens r = (l, Done (tokens', r')) → t ∈ tokens' → tok_kind t ≠ TokKind.Keyword → t ∈ tokens.
Proof.
  unfold register_definitions. generalize (seq 0 (length tokens)). intros indices. revert tokens r l.
  induction indices as [|i indices IH]; intros tokens r l H Ht Hk; [by injection H as <- <- <-|].
  cbn [register_loop] in H. apply bind_Done in H as (l1 & [ts r1] & l2 & H1 & H2 & ->).
  eapply register_definition_tokens; [exact H1|by eapply IH|done].
Qed.

(** One round of [register_definitions] keeps the identifiers distinct and uses
    at most one. *)
Lemma registers_ok r r' :
  ids_ok r → 0 <= word_count r < 2 ^ 64 - 1 → registers r r' →
  ids_ok r' ∧ word_count r <= word_count r' <= word_count r + 1.
Proof.
  intros Hok Hc [|n f r1 Hw Hcount Hf]; [split_and!; [done|lia|lia]|].
  destruct (define_word_ok n f r1) as [? Heq].
  - unfold ids_ok. by rewrite Hw, Hcount.
  - by rewrite Hcount.
  - intros w. rewrite Hcount. apply Hf.
  - rewrite Heq, Hcount. split_and!; [done|lia|lia].
Qed.

Lemma register_loop_ok warn indices : ∀ tokens r l tokens' r',
  ids_ok r → 0 <= word_count r → word_count r + Z.of_nat (length indices) < 2 ^ 64 →
  register_loop warn indices tokens r = (l, Done (tokens', r')) →
  length tokens' = length tokens ∧ ids_ok r'.
Proof.
  induction indices as [|i indices IH]; intros tokens r l tokens' r' Hok Hc Hlen H.
  { injection H as <- <- <-. done. }
  rewrite length_cons, Nat2Z.inj_succ in Hlen. cbn [register_loop] in H.
  apply bind_Done in H as (l1 & [ts r1] & l2 & H1 & H2 & ->).
  apply register_definition_registers in H1 as [Hl H1]. destruct (registers_ok _ _ Hok ltac:(lia) H1) as (Hok1 & Hc1).
  destruct (IH _ _ _ _ _ Hok1 ltac:(lia) ltac:(lia) H2) as [-> ?]. done.
Qed.

(** ** Properties *)

(** A token with the given text. *)
Definition literal (loc : Location) (kind : Token_Kind) (text : list ascii) : Token :=
  set_tok_sval (str_of text) (set_tok_kind kind (Token_at loc)).

Lemma unquoted_literal loc kind q text :
  unquoted (tok_sval (literal loc kind (q :: text ++ [q]))) = text.
Proof.
  unfold unquoted, literal. cbn [tok_sval set_tok_sval]. rewrite chars_str_of.
  replace (length (q :: text ++ [q]) - 2)%nat with (length text)
    by (rewrite length_cons, length_app, length_cons; simpl length; lia).
  simpl drop. apply take_app_length.
Qed.

(** A spelling of a character inside a string literal: a hexadecimal escape
    where the character cannot stand for itself. *)
Definition hex_char (d : Z) : ascii := if d <? 10 then chr (ord "0" + d) else chr (ord "a" + d - 10).

Definition escape_char (c : ascii) : list ascii :=
  if decide (c = backslash ∨ c = dquote ∨ c = newline)
  then [backslash; "x"; hex_char (ord c / 16); hex_char (ord c mod 16)]
  else [c].

Lemma hex_char_table d : 0 <= d < 16 → (hex_char d, d) ∈ digit_table.
Proof.
  intros Hd. rewrite <-(Z2Nat.id d) by lia. assert (Z.to_nat d < 16)%nat as Hn by lia.
  revert Hn. generalize (Z.to_nat d). intros n Hn.
  do 16 (destruct n as [|n]; [by apply (bool_decide_unpack _)|]). lia.
Qed.

Lemma escaped_escape m : escaped (m ≫= escape_char) m.
Proof.
  induction m as [|c m IH]; simpl; [constructor|]. unfold escape_char at 1. case_decide as Hc.
  - replace c with (chr (ord c / 16 * 16 + ord c mod 16)) at 3.
    2:{ rewrite (Z.mul_comm (ord c / 16)), <-Z.div_mod by lia. apply chr_ord. }
    pose proof (ord_range c).
    apply E_hex; [| |exact IH]; apply hex_char_table.
    + split; [apply Z.div_pos; lia|apply Z.div_lt_upper_bound; lia].
    + apply Z.mod_pos_bound. lia.
  - apply E_plain; [naive_solver|exact IH].
Qed.

(** C26: a string literal in which no backslash is followed by another one stands
    for the meaning of its escapes, read without a report: plain characters for
    themselves, the simple escapes for the characters of the table, hexadecimal
    escapes for the byte and unicode escapes for the UTF-8 bytes of the rune
    they name, but for the three runes the code encodes in a longer form. *)
Theorem parse_string_correct loc q text m :
  escaped text m → parse_string (literal loc TokKind.String (q :: text ++ [q])) = ([], Done m).
Proof. intros H. apply parse_string_escaped. by rewrite unquoted_literal. Qed.

Lemma parse_string_correct_witness :
  parse_string (literal no_location TokKind.String (chars "'a\n\x41\u20aC'")) =
    ([], Done ["a"; newline; "A"; chr 226; chr 130; chr 172]).
Proof.
  apply (parse_string_correct no_location squote (chars "a\n\x41\u20aC")).
  apply E_plain; [done|]. apply E_simple; [by apply (bool_decide_unpack _)|].
  apply (E_hex "4" "1" 4 1); [by apply (bool_decide_unpack _)..|].
  apply (E_unicode "u" ["2"; "0"; "a"; "C"] [2; 0; 10; 12]);
    [by left|repeat constructor|reflexivity|by apply (bool_decide_unpack _)|constructor].
Defined.

(** C27: every sequence of bytes has a string literal that stands for it. *)
Theorem string_literal_roundtrip loc m :
  parse_string (literal loc TokKind.String (dquote :: (m ≫= escape_char) ++ [dquote])) = ([], Done m).
Proof. apply parse_string_escaped. rewrite unquoted_literal. apply escaped_escape. Qed.

(** a doubled backslash is not an escape: wherever it starts, the text is
    read as with one of the two backslashes left out, so that the escape the
    code lists for a backslash never yields one. *)
Theorem double_backslash_dropped {S} (accumulator : S → ascii → comp (S * bool)) token escaped text s :
  parse_stringlike_loop accumulator token escaped (backslash :: backslash :: text) s =
  parse_stringlike_loop accumulator token escaped (backslash :: text) s.
Proof. reflexivity. Qed.

(** C33: a character literal of at most four ASCII bytes is their little-endian
    number. *)
Theorem parse_char_correct loc text m :
  escaped text m → (length m <= 4)%nat → Forall (λ c, ord c < 128) m →
  parse_char (literal loc TokKind.Char (squote :: text ++ [squote])) = ([], Done (little_endian m)).
Proof.
  intros He Hlen Hm. unfold parse_char. rewrite unquoted_literal, (parse_stringlike_escaped _ _ _ _ He).
  unfold fed. rewrite accumulate_char_ascii; [|lia|lia|change (2 ^ (8 * 0)) with 1; lia|done].
  comp_step. change (2 ^ (8 * 0)) with 1. by rewrite Z.mul_1_l, Z.add_0_l.
Qed.

Lemma parse_char_correct_witness :
  parse_char (literal no_location TokKind.Char (chars "'a\n'")) = ([], Done (97 + 256 * 10)).
Proof.
  apply (parse_char_correct no_location (chars "a\n") ["a"; newline]).
  - apply E_plain; [done|]. apply E_simple; [by apply (bool_decide_unpack _)|constructor].
  - simpl. lia.
  - repeat constructor.
Defined.

(** a character literal of five bytes or more is a shift of an [int] by its
    width or more, although up to eight bytes are meant to be accepted. *)
Theorem parse_char_long loc text m :
  escaped text m → (4 < length m)%nat →
  parse_char (literal loc TokKind.Char (squote :: text ++ [squote])) = undefined.
Proof.
  intros He Hlen. unfold parse_char. rewrite unquoted_literal, (parse_stringlike_escaped _ _ _ _ He).
  unfold fed. by rewrite accumulate_char_long by lia.
Qed.

Lemma parse_char_long_witness :
  parse_char (literal no_location TokKind.Char (chars "'stack'")) = undefined.
Proof.
  apply (parse_char_long no_location (chars "stack") (chars "stack")).
  - do 5 (apply E_plain; [done|]). constructor.
  - simpl. lia.
Defined.

(** Every string token has an identifier of the table. *)
Lemma extract_strings_listed tokens l tokens' strings next t :
  Z.of_nat (length tokens) < 2 ^ 32 → extract_strings tokens ∅ 0 = (l, Done (tokens', strings, next)) →
  t ∈ tokens' → tok_kind t = TokKind.String → ∃ s, strings !! s = Some (tok_ival t).
Proof.
  intros Hlen H Ht Hk. destruct (extract_strings_spec tokens ∅ 0 l tokens' strings next) as (_ & _ & Hall);
    [split; intros *; by rewrite lookup_empty|lia|lia|done|].
  apply list_elem_of_lookup in Ht as [i Ht]. destruct (Forall2_lookup_r _ _ _ _ _ Hall Ht) as (t0 & _ & Hex).
  unfold string_extracted in Hex. case_decide as Hs; [by subst t0|].
  destruct Hex as (l' & s & id & _ & Hid & ->). by exists (str_of s).
Qed.

(** C28: after [extract_strings] every string token carries the identifier of
    its text in the final table; equal texts have equal identifiers, and
    different ones different identifiers, below the counter. *)
Theorem extract_strings_correct tokens l tokens' strings next :
  Z.of_nat (length tokens) < 2 ^ 32 →
  extract_strings tokens ∅ 0 = (l, Done (tokens', strings, next)) →
  strings_ok strings next ∧ Forall2 (string_extracted strings) tokens tokens'.
Proof.
  intros Hlen H. destruct (extract_strings_spec tokens ∅ 0 l tokens' strings next) as (? & _ & ?);
    [|lia|lia|done|done]. split; intros *; by rewrite lookup_empty.
Qed.

(** Two tokens of one literal and one of another. *)
Definition sample_strings : list Token :=
  literal no_location TokKind.String <$> [chars "'a'"; chars "'b'"; chars "'a'"].

Lemma extract_strings_correct_witness :
  ∃ tokens' strings next, tok_ival <$> tokens' = [0; 1; 0] ∧
    strings_ok strings next ∧ Forall2 (string_extracted strings) sample_strings tokens'.
Proof.
  eexists _, _, _. split; [|apply (extract_strings_correct sample_strings []); [|reflexivity]]; done.
Defined.

(** C32: the functions, constants and arrays [register_definitions] enters into
    a table of intrinsics have distinct identifiers, below the word counter. *)
Theorem register_definitions_ids warn tokens words l tokens' r :
  map_Forall (λ _ w, w_kind w = WordKind.Intrinsic) words →
  Z.of_nat (length tokens) < 2 ^ 64 →
  register_definitions warn tokens (mk_Registry words 0 0) = (l, Done (tokens', r)) →
  length tokens' = length tokens ∧ ids_ok r.
Proof.
  intros Hi Hlen H. apply (register_loop_ok warn (seq 0 (length tokens)) _ (mk_Registry words 0 0) l);
    [|simpl; lia|rewrite length_seq; simpl; lia|exact H].
  split; simpl; intros *; naive_solver.
Qed.

(** Tokens of concrete programs. *)
Definition word_tok (s : string) : Token := set_tok_sval s no_token.
Definition int_tok (v : Z) : Token :=
  set_tok_ival v (set_tok_kind TokKind.Integer (word_tok (to_string v))).
Definition key_tok (k : Keyword_Kind) (s : string) : Token :=
  set_tok_kval k (set_tok_kind TokKind.Keyword (word_tok s)).

(** The tokens of [n 10 constant buf n []byte f fun end]. *)
Definition sample_definitions : list Token :=
  [word_tok "n"; int_tok 10; key_tok Keyword.Constant "constant";
   word_tok "buf"; word_tok "n"; key_tok Keyword.Array "[]byte";
   word_tok "f"; key_tok Keyword.Function "fun"; key_tok Keyword.End "end"].

Lemma register_definitions_ids_witness :
  ∃ (tokens' : list Token) r, w_id <$> reg_words r !! "buf"%string = Some 1 ∧
    w_byte_size <$> reg_words r !! "buf"%string = Some 10 ∧
    length tokens' = length sample_definitions ∧ ids_ok r.
Proof.
  eexists _, _. split; [|split; [|apply (register_definitions_ids true sample_definitions ∅ [])]];
    [..|reflexivity]; done.
Defined.

(** an array definition whose count is an integer token and whose element
    type is known gets its size in bytes reduced to 32 bits twice, once as the
    count and once as the product, so that large arrays are small. *)
Theorem register_array_size tokens i token r name t k :
  preceding tokens i 2 TokKind.Word = Some name →
  preceding tokens i 1 TokKind.Integer = Some t →
  element_size (tok_sval token) = Some k →
  ∃ r', register_array false tokens i token r = ([], Done (tokens, r')) ∧
    w_byte_size <$> reg_words r' !! tok_sval name = Some (u32 (tok_ival t * k)).
Proof.
  intros Hn Ht Hk. unfold register_array. rewrite Hn, Hk. unfold preceding in Ht.
  destruct (1 <=? i)%nat; [|done]. apply bind_Some in Ht as (t' & Hi & Ht).
  case_decide as Hkind; simplify_eq. unfold index. rewrite Hi. comp_step.
  unfold array_count. rewrite Hkind. comp_step. eexists. split; [done|].
  simpl. rewrite lookup_insert_eq. simpl. f_equal. apply Zmult_mod_idemp_l.
Qed.

(** The tokens of [buf 4294967297 []u64]. *)
Definition sample_array : list Token :=
  [word_tok "buf"; int_tok (2 ^ 32 + 1); key_tok Keyword.Array "[]u64"].

Lemma register_array_size_witness :
  ∃ r', register_array false sample_array 2 (key_tok Keyword.Array "[]u64") (mk_Registry ∅ 0 0)
      = ([], Done (sample_array, r')) ∧
    w_byte_size <$> reg_words r' !! "buf"%string = Some 8.
Proof.
  apply (register_array_size sample_array 2 (key_tok Keyword.Array "[]u64") (mk_Registry ∅ 0 0)
    (word_tok "buf") (int_tok (2 ^ 32 + 1)) 8); reflexivity.
Defined.
