(* ===== verification/Crossref.v ===== *)
(** * Cross-referencing of blocks (src/src/parser.cc, [crossreference])

    The pass that computes the jump of every [if], [else], [do] and [end] of a
    body, and its correctness on the bodies that are the flattening of a
    structured program. *)

From S2P Require Import Prelude Syntax Errors.

(** ** The code *)

(** [ops[i].jump = j]: undefined out of range. *)
Definition set_jump (ops : list Operation) (i : nat) (j : Z) : comp (list Operation) :=
  match ops !! i with
  | Some op => mret (<[i := set_op_jump j op]> ops)
  | None => undefined
  end.

Definition kind_at (ops : list Operation) (i : nat) : option Operation_Kind :=
  op_kind <$> ops !! i.

(** The body of the loop at index [i]; the [std::stack] is a list with its top
    first.  The result has no stack when the function returns [false]. *)
Definition crossreference_step (ops : list Operation) (i : nat) (stack : list nat)
    : comp (list Operation * option (list nat)) :=
  op ← index ops i;
  let loc := Some (tok_location (op_token op)) in
  match op_kind op with
  | OpKind.Do =>
    match stack with
    | top :: stack =>
      ensure (bool_decide (kind_at ops top = Some OpKind.While)) loc "`do` without matching `while`" ≫= λ _,
      ops ← set_jump ops i (Z.of_nat top);
      mret (ops, Some (i :: stack))
    | [] => error_fatal loc "`do` without matching `while`"
    end
  | OpKind.While | OpKind.If => mret (ops, Some (i :: stack))
  | OpKind.Else =>
    match stack with
    | top :: stack =>
      ensure (bool_decide (kind_at ops top = Some OpKind.If)) loc "`else` without matching `if`" ≫= λ _,
      ops ← set_jump ops top (Z.of_nat (i + 1));
      mret (ops, Some (i :: stack))
    | [] => error_fatal loc "`else` without matching `if`"
    end
  | OpKind.End =>
    match stack with
    | [] => unreachable "!stack.empty()"
    | top :: stack =>
      t ← index ops top;
      match op_kind t with
      | OpKind.If | OpKind.Else =>
        ops ← set_jump ops top (Z.of_nat i);
        ops ← set_jump ops i (Z.of_nat (i + 1));
        mret (ops, Some stack)
      | OpKind.Do =>
        ops ← set_jump ops i (op_jump t);
        ops ← set_jump ops top (Z.of_nat (i + 1));
        mret (ops, Some stack)
      | _ =>
        error loc "End can only close `while..do` and `if` blocks" ≫= λ _, mret (ops, None)
      end
    end
  | _ => mret (ops, Some stack)
  end.

Fixpoint crossreference_loop (indices : list nat) (ops : list Operation) (stack : list nat)
    : comp (list Operation * option (list nat)) :=
  match indices with
  | [] => mret (ops, Some stack)
  | i :: indices =>
    '(ops, r) ← crossreference_step ops i stack;
    match r with
    | Some stack => crossreference_loop indices ops stack
    | None => mret (ops, None)
    end
  end.

(** The report for a block left open, by the keyword that opened it. *)
Definition unclosed_block (token : Token) : comp unit :=
  let loc := Some (tok_location token) in
  match tok_kval token with
  | Keyword.If => error loc "Expected matching `else` or `end` for this `if`"
  | Keyword.Else => error loc "Expected matching `end` for this `else`"
  | Keyword.While => error loc "Expected matching `do` for this `while`"
  | Keyword.Do => error loc "Expected matching `end` for this `do`"
  | _ => mret tt
  end.

Definition crossreference (ops : list Operation) : comp (list Operation * bool) :=
  '(ops, r) ← crossreference_loop (seq 0 (length ops)) ops [];
  match r with
  | None => mret (ops, false)
  | Some [] => mret (ops, true)
  | Some (top :: _) =>
    op ← index ops top;
    unclosed_block (op_token op) ≫= λ _, mret (ops, true)
  end.

(** ** Structured programs *)

(** A body as a tree: plain operations, conditionals with and without [else],
    and loops, each followed by the rest of the body.  The operations of the
    keywords are kept, with whatever tokens they have. *)
Inductive block :=
  | B_nil
  | B_op (op : Operation) (rest : block)
  | B_if (o_if : Operation) (then_ : block) (o_end : Operation) (rest : block)
  | B_if_else (o_if : Operation) (then_ : block) (o_else : Operation) (else_ : block)
      (o_end : Operation) (rest : block)
  | B_while (o_while : Operation) (cond : block) (o_do : Operation) (body : block)
      (o_end : Operation) (rest : block).

Definition is_plain (k : Operation_Kind) : Prop :=
  match k with
  | OpKind.End | OpKind.If | OpKind.Else | OpKind.While | OpKind.Do => False
  | _ => True
  end.

Fixpoint block_ok (b : block) : Prop :=
  match b with
  | B_nil => True
  | B_op op r => is_plain (op_kind op) ∧ block_ok r
  | B_if o1 t o2 r =>
    op_kind o1 = OpKind.If ∧ block_ok t ∧ op_kind o2 = OpKind.End ∧ block_ok r
  | B_if_else o1 t o2 e o3 r =>
    op_kind o1 = OpKind.If ∧ block_ok t ∧ op_kind o2 = OpKind.Else ∧ block_ok e
    ∧ op_kind o3 = OpKind.End ∧ block_ok r
  | B_while o1 c o2 b o3 r =>
    op_kind o1 = OpKind.While ∧ block_ok c ∧ op_kind o2 = OpKind.Do ∧ block_ok b
    ∧ op_kind o3 = OpKind.End ∧ block_ok r
  end.

(** The operations of a body in order. *)
Fixpoint flatten (b : block) : list Operation :=
  match b with
  | B_nil => []
  | B_op op r => op :: flatten r
  | B_if o1 t o2 r => o1 :: flatten t ++ o2 :: flatten r
  | B_if_else o1 t o2 e o3 r => o1 :: flatten t ++ o2 :: flatten e ++ o3 :: flatten r
  | B_while o1 c o2 b o3 r => o1 :: flatten c ++ o2 :: flatten b ++ o3 :: flatten r
  end.

(** The operations with their jumps, for a body that starts at index [n]:
    a false [if] jumps behind the [else], or to the [end]; [else] jumps to the
    [end] and that to its successor; a false [do] leaves the loop and the
    [end] of a loop goes back to its [while]. *)
Fixpoint link (n : nat) (b : block) : list Operation :=
  match b with
  | B_nil => []
  | B_op op r => op :: link (S n) r
  | B_if o1 t o2 r =>
    let e := (S n + length (flatten t))%nat in
    set_op_jump (Z.of_nat e) o1 :: link (S n) t
    ++ set_op_jump (Z.of_nat (e + 1)) o2 :: link (S e) r
  | B_if_else o1 t o2 b o3 r =>
    let el := (S n + length (flatten t))%nat in
    let e := (S el + length (flatten b))%nat in
    set_op_jump (Z.of_nat (el + 1)) o1 :: link (S n) t
    ++ set_op_jump (Z.of_nat e) o2 :: link (S el) b
    ++ set_op_jump (Z.of_nat (e + 1)) o3 :: link (S e) r
  | B_while o1 c o2 b o3 r =>
    let d := (S n + length (flatten c))%nat in
    let e := (S d + length (flatten b))%nat in
    o1 :: link (S n) c
    ++ set_op_jump (Z.of_nat (e + 1)) o2 :: link (S d) b
    ++ set_op_jump (Z.of_nat n) o3 :: link (S e) r
  end.

(** ** Lemmas *)

Lemma length_link n b : length (link n b) = length (flatten b).
Proof.
  revert n. induction b; intros n; simpl; rewrite ?length_app; simpl; rewrite ?length_app; simpl;
    repeat match goal with H : ∀ n, _ = _ |- _ => rewrite H; clear H end; done.
Qed.

Lemma kind_set_op_jump j o : op_kind (set_op_jump j o) = op_kind o.
Proof. done. Qed.

Lemma index_middle {A} (l1 : list A) x l2 i :
  i = length l1 → index (l1 ++ x :: l2) i = mret x.
Proof. intros ->. unfold index. by rewrite list_lookup_middle. Qed.

Lemma kind_at_middle l1 x l2 i : i = length l1 → kind_at (l1 ++ x :: l2) i = Some (op_kind x).
Proof. intros ->. unfold kind_at. by rewrite list_lookup_middle. Qed.

Lemma set_jump_middle l1 x l2 i j :
  i = length l1 → set_jump (l1 ++ x :: l2) i j = mret (l1 ++ set_op_jump j x :: l2).
Proof.
  intros ->. unfold set_jump. rewrite list_lookup_middle by done. f_equal.
  by rewrite insert_app_r_alt, Nat.sub_diag by lia.
Qed.

Lemma crossreference_loop_app is1 is2 ops stack :
  crossreference_loop (is1 ++ is2) ops stack =
    '(ops, r) ← crossreference_loop is1 ops stack;
    match r with
    | Some stack => crossreference_loop is2 ops stack
    | None => mret (ops, None)
    end.
Proof.
  revert ops stack. induction is1 as [|i is1 IH]; intros ops stack; cbn [app crossreference_loop]; comp_step; [done|].
  destruct (crossreference_step ops i stack) as [l [[ops' [stack'|]]| | | |]];
    simpl; rewrite ?app_nil_r; try done.
  rewrite IH. destruct (crossreference_loop is1 ops' stack') as [l' [[ops'' [stack''|]]| | | |]];
    simpl; rewrite ?app_nil_r; try done.
Qed.

Lemma crossreference_loop_cons i is_ ops stack ops' stack' :
  crossreference_step ops i stack = mret (ops', Some stack') →
  crossreference_loop (i :: is_) ops stack = crossreference_loop is_ ops' stack'.
Proof. intros H. cbn [crossreference_loop]. rewrite H. by comp_step. Qed.

(** *** One step at each kind of operation *)

Section Steps.
  Context (l1 : list Operation) (o : Operation) (l2 : list Operation) (i : nat).
  Context (Hi : i = length l1).

Lemma step_plain stack :
  is_plain (op_kind o) →
  crossreference_step (l1 ++ o :: l2) i stack = mret (l1 ++ o :: l2, Some stack).
Proof.
  intros Hk. unfold crossreference_step. rewrite index_middle by done. comp_step.
  by destruct (op_kind o).
Qed.

Lemma step_open stack :
  op_kind o = OpKind.If ∨ op_kind o = OpKind.While →
  crossreference_step (l1 ++ o :: l2) i stack = mret (l1 ++ o :: l2, Some (i :: stack)).
Proof.
  intros Hk. unfold crossreference_step. rewrite index_middle by done. comp_step.
  by destruct Hk as [-> | ->].
Qed.

End Steps.

(** Access to the second of two operations of a body. *)
Lemma second_split (l1 : list Operation) o1 l2 o2 l3 :
  l1 ++ o1 :: l2 ++ o2 :: l3 = (l1 ++ o1 :: l2) ++ o2 :: l3.
Proof. by rewrite <-app_assoc. Qed.

Lemma index_second (l1 : list Operation) o1 l2 o2 l3 i :
  i = (length l1 + S (length l2))%nat → index (l1 ++ o1 :: l2 ++ o2 :: l3) i = mret o2.
Proof. intros ->. rewrite second_split. apply index_middle. by rewrite length_app. Qed.

Lemma set_jump_second l1 o1 l2 o2 l3 i j :
  i = (length l1 + S (length l2))%nat →
  set_jump (l1 ++ o1 :: l2 ++ o2 :: l3) i j = mret (l1 ++ o1 :: l2 ++ set_op_jump j o2 :: l3).
Proof. intros ->. rewrite !second_split. apply set_jump_middle. by rewrite length_app. Qed.

Section Closing.
  Context (l1 : list Operation) (o1 : Operation) (l2 : list Operation) (o2 : Operation)
    (l3 : list Operation) (top i : nat).
  Context (Htop : top = length l1) (Hi : i = (length l1 + S (length l2))%nat).

Lemma step_do stack :
  op_kind o1 = OpKind.While → op_kind o2 = OpKind.Do →
  crossreference_step (l1 ++ o1 :: l2 ++ o2 :: l3) i (top :: stack) =
    mret (l1 ++ o1 :: l2 ++ set_op_jump (Z.of_nat top) o2 :: l3, Some (i :: stack)).
Proof.
  intros H1 H2. unfold crossreference_step. rewrite (index_second _ _ _ _ _ i) by done. comp_step.
  rewrite H2, kind_at_middle, H1, bool_decide_true by done. unfold ensure. comp_step.
  rewrite set_jump_second by done. by comp_step.
Qed.

Lemma step_else stack :
  op_kind o1 = OpKind.If → op_kind o2 = OpKind.Else →
  crossreference_step (l1 ++ o1 :: l2 ++ o2 :: l3) i (top :: stack) =
    mret (l1 ++ set_op_jump (Z.of_nat (i + 1)) o1 :: l2 ++ o2 :: l3, Some (i :: stack)).
Proof.
  intros H1 H2. unfold crossreference_step. rewrite (index_second _ _ _ _ _ i) by done. comp_step.
  rewrite H2, kind_at_middle, H1, bool_decide_true by done. unfold ensure. comp_step.
  rewrite set_jump_middle by done. by comp_step.
Qed.

Lemma step_end_if stack :
  op_kind o1 = OpKind.If ∨ op_kind o1 = OpKind.Else → op_kind o2 = OpKind.End →
  crossreference_step (l1 ++ o1 :: l2 ++ o2 :: l3) i (top :: stack) =
    mret (l1 ++ set_op_jump (Z.of_nat i) o1 :: l2 ++ set_op_jump (Z.of_nat (i + 1)) o2 :: l3, Some stack).
Proof.
  intros H1 H2. unfold crossreference_step. rewrite (index_second _ _ _ _ _ i) by done. comp_step.
  rewrite H2, index_middle by done. comp_step.
  destruct H1 as [-> | ->]; rewrite set_jump_middle by done; comp_step;
    rewrite set_jump_second by done; by comp_step.
Qed.

Lemma step_end_do stack :
  op_kind o1 = OpKind.Do → op_kind o2 = OpKind.End →
  crossreference_step (l1 ++ o1 :: l2 ++ o2 :: l3) i (top :: stack) =
    mret (l1 ++ set_op_jump (Z.of_nat (i + 1)) o1 :: l2 ++ set_op_jump (op_jump o1) o2 :: l3, Some stack).
Proof.
  intros H1 H2. unfold crossreference_step. rewrite (index_second _ _ _ _ _ i) by done. comp_step.
  rewrite H2, index_middle by done. comp_step.
  rewrite H1, set_jump_second by done. comp_step.
  rewrite set_jump_middle by done. by comp_step.
Qed.

End Closing.

(** *** A structured part of a body *)

(** Equality of lists that differ in the nesting of concatenations only. *)
Ltac app_eq := simpl; repeat (rewrite <-app_assoc; simpl); reflexivity.

(** Arithmetic on the lengths of the parts of a body. *)
Ltac solve_length :=
  repeat first [rewrite length_app | rewrite length_cons | rewrite length_link | rewrite length_nil]; lia.

Lemma step_to ops i stack ops1 r1 ops2 r2 :
  crossreference_step ops1 i stack = mret (ops2, r2) → ops = ops1 → r1 = r2 →
  crossreference_step ops i stack = mret (ops2, r1).
Proof. by intros ? -> ->. Qed.

(** The loop over the part of a body that is the flattening of [b] links it
    and leaves the stack and the rest of the body as they are. *)
Lemma crossreference_loop_block b : ∀ n pre post ops ops' stack,
  block_ok b → n = length pre →
  ops = pre ++ flatten b ++ post → ops' = pre ++ link n b ++ post →
  crossreference_loop (seq n (length (flatten b))) ops stack = mret (ops', Some stack).
Proof.
  induction b as [|op r IHr|o1 t IHt o2 r IHr|o1 t IHt o2 e IHe o3 r IHr|o1 c IHc o2 b IHb o3 r IHr];
    intros n pre post ops ops' stack Hok Hn -> ->; simpl in Hok; cbn [flatten link app length seq].
  - done.
  - destruct Hok as [Hk Hr].
    erewrite crossreference_loop_cons by (eapply (step_plain pre); done).
    apply (IHr _ (pre ++ [op]) post); [done|solve_length|app_eq|app_eq].
  - destruct Hok as (Hk1 & Ht & Hk2 & Hr).
    erewrite crossreference_loop_cons by (eapply (step_open pre); auto).
    rewrite length_app, seq_app, crossreference_loop_app. cbn [length seq].
    erewrite (IHt _ (pre ++ [o1]) (o2 :: flatten r ++ post));
      [|done|solve_length|app_eq|reflexivity].
    comp_step.
    erewrite crossreference_loop_cons.
    2:{ eapply step_to; [eapply (step_end_if pre o1 (link (S n) t) o2 (flatten r ++ post)); auto|app_eq|done].
        solve_length. }
    eapply (IHr _ (pre ++ set_op_jump _ o1 :: link (S n) t ++ [set_op_jump _ o2]) post);
      [done|solve_length|app_eq|app_eq].
  - destruct Hok as (Hk1 & Ht & Hk2 & He & Hk3 & Hr).
    erewrite crossreference_loop_cons by (eapply (step_open pre); auto).
    rewrite length_app, seq_app, crossreference_loop_app. cbn [length seq].
    erewrite (IHt _ (pre ++ [o1]) (o2 :: flatten e ++ o3 :: flatten r ++ post));
      [|done|solve_length|app_eq|reflexivity].
    comp_step.
    erewrite crossreference_loop_cons.
    2:{ eapply step_to; [eapply (step_else pre o1 (link (S n) t) o2 (flatten e ++ o3 :: flatten r ++ post)); auto|app_eq|done].
        solve_length. }
    rewrite length_app, seq_app, crossreference_loop_app. cbn [length seq].
    erewrite (IHe _ (pre ++ set_op_jump _ o1 :: link (S n) t ++ [o2]) (o3 :: flatten r ++ post));
      [|done|solve_length|app_eq|reflexivity].
    comp_step.
    erewrite crossreference_loop_cons.
    2:{ eapply step_to;
        [eapply (step_end_if (pre ++ set_op_jump _ o1 :: link (S n) t) o2 (link _ e) o3 (flatten r ++ post)); auto
        |app_eq|done]; solve_length. }
    eapply (IHr _ (pre ++ set_op_jump _ o1 :: link (S n) t ++ set_op_jump _ o2 :: link _ e
      ++ [set_op_jump _ o3]) post); [done|solve_length|app_eq|app_eq].
  - destruct Hok as (Hk1 & Hc & Hk2 & Hb & Hk3 & Hr).
    erewrite crossreference_loop_cons by (eapply (step_open pre); auto).
    rewrite length_app, seq_app, crossreference_loop_app. cbn [length seq].
    erewrite (IHc _ (pre ++ [o1]) (o2 :: flatten b ++ o3 :: flatten r ++ post));
      [|done|solve_length|app_eq|reflexivity].
    comp_step.
    erewrite crossreference_loop_cons.
    2:{ eapply step_to; [eapply (step_do pre o1 (link (S n) c) o2 (flatten b ++ o3 :: flatten r ++ post)); auto|app_eq|done].
        solve_length. }
    rewrite length_app, seq_app, crossreference_loop_app. cbn [length seq].
    erewrite (IHb _ (pre ++ o1 :: link (S n) c ++ [set_op_jump _ o2]) (o3 :: flatten r ++ post));
      [|done|solve_length|app_eq|reflexivity].
    comp_step.
    erewrite crossreference_loop_cons.
    2:{ eapply step_to;
        [eapply (step_end_do (pre ++ o1 :: link (S n) c) (set_op_jump _ o2) (link _ b) o3 (flatten r ++ post)); auto
        |app_eq|done]; solve_length. }
    eapply (IHr _ (pre ++ o1 :: link (S n) c ++ set_op_jump _ o2 :: link _ b
      ++ [set_op_jump _ o3]) post); [done|solve_length|app_eq|app_eq].
Qed.

Lemma crossreference_flatten b :
  block_ok b → crossreference (flatten b) = mret (link 0 b, true).
Proof.
  intros Hok. unfold crossreference.
  by rewrite (crossreference_loop_block b 0 [] [] (flatten b) (link 0 b)) by (rewrite ?app_nil_r; done).
Qed.

(** *** Where the jumps lead *)

Definition is_jump (k : Operation_Kind) : Prop :=
  match k with OpKind.If | OpKind.Else | OpKind.Do | OpKind.End => True | _ => False end.

Definition jump_within (lo hi : nat) (op : Operation) : Prop :=
  is_jump (op_kind op) → Z.of_nat lo <= op_jump op <= Z.of_nat hi.

Lemma jump_within_weaken lo hi lo' hi' op :
  (lo' ≤ lo)%nat → (hi ≤ hi')%nat → jump_within lo hi op → jump_within lo' hi' op.
Proof. intros ?? H Hj. specialize (H Hj). lia. Qed.

Lemma link_jumps b : ∀ n, block_ok b → Forall (jump_within n (n + length (flatten b))) (link n b).
Proof.
  assert (∀ lo hi lo' hi' l, (lo' ≤ lo)%nat → (hi ≤ hi')%nat →
    Forall (jump_within lo hi) l → Forall (jump_within lo' hi') l) as Hweak.
  { intros lo hi lo' hi' l ?? Hl. eapply Forall_impl; [exact Hl|]. intros op. by apply jump_within_weaken. }
  induction b as [|op r IHr|o1 t IHt o2 r IHr|o1 t IHt o2 e IHe o3 r IHr|o1 c IHc o2 b IHb o3 r IHr];
    intros n Hok; simpl in Hok; cbn [link flatten]; [constructor|..];
    destruct_and? Hok;
    repeat (rewrite ?Forall_cons, ?Forall_app); split_and!;
    try (eapply Hweak; [..|match goal with IH : ∀ n, block_ok ?b → _ |- Forall _ (link _ ?b) => by apply IH end];
         solve_length);
    try (intros Hj; simpl; solve_length).
  - intros Hj. by destruct (op_kind op).
  - intros Hj. by destruct (op_kind o1).
Qed.

(** ** Properties *)

(** C12: on the operations of a structured body [crossreference] succeeds
    without a report and gives every [if], [else], [do] and [end] the jump of
    the structured program. *)
Theorem crossreference_correct b :
  block_ok b → crossreference (flatten b) = ([], Done (link 0 b, true)).
Proof.
  apply crossreference_flatten.
Qed.

Lemma crossreference_correct_witness :
  let op k := Operation_of k no_token in
  let b := B_while (op OpKind.While) (B_op (op OpKind.Push_Int) B_nil) (op OpKind.Do)
    (B_if (op OpKind.If) B_nil (op OpKind.End) B_nil) (op OpKind.End) B_nil in
  block_ok b ∧ crossreference (flatten b) = ([], Done (link 0 b, true)).
Proof.
  intros op b. assert (block_ok b) as Hok by (by repeat split).
  split; [exact Hok|]. exact (crossreference_correct b Hok).
Defined.

(** the jumps [crossreference] computes for a structured body lead to an
    operation of the body or to its end. *)
Theorem crossreference_jumps_in_body b ops :
  block_ok b → crossreference (flatten b) = ([], Done (ops, true)) →
  length ops = length (flatten b) ∧ Forall (jump_within 0 (length ops)) ops.
Proof.
  intros Hok. rewrite crossreference_flatten by done. intros [= <-]. rewrite length_link. split; [done|]. by apply (link_jumps b 0).
Qed.

Lemma crossreference_jumps_in_body_witness :
  let op k := Operation_of k no_token in
  let b := B_if (op OpKind.If) (B_op (op OpKind.Push_Int) B_nil) (op OpKind.End) B_nil in
  length (link 0 b) = length (flatten b) ∧ Forall (jump_within 0 (length (link 0 b))) (link 0 b).
Proof.
  intros op b. apply (crossreference_jumps_in_body b); [|reflexivity].
  by repeat split.
Defined.
