(* ===== verification/Operations.v ===== *)
(** * From tokens to operations (src/src/parser.cc, second part)

    [translate_operation], [function_into_operations] and [into_operations].
    The bodies that grow during the traversal are updated in place: [main] and
    the [function_body] of every word are parts of one state, so that a word
    defined inside its own definition shares its body. *)

From S2P Require Import Prelude Syntax Errors TypeNames Lexer Parser Crossref.

Open Scope char_scope.
Open Scope Z_scope.

(** ** State *)

Record PState := mk_PState { ps_words : Words; ps_main : list Operation }.

Definition set_body (body : list Operation) (w : Word) : Word :=
  mk_Word (w_kind w) (w_ival w) (w_intrinsic w) (w_byte_size w) (w_id w) body
    (w_relevant_word w) (w_has_effect w) (w_effect w) (w_is_dynamically_typed w) (w_location w)
    (w_function_name w).
Definition set_dynamic (w : Word) : Word :=
  mk_Word (w_kind w) (w_ival w) (w_intrinsic w) (w_byte_size w) (w_id w) (w_function_body w)
    (w_relevant_word w) (w_has_effect w) (w_effect w) true (w_location w) (w_function_name w).
Definition set_effect (e : Stack_Effect) (w : Word) : Word :=
  mk_Word (w_kind w) (w_ival w) (w_intrinsic w) (w_byte_size w) (w_id w) (w_function_body w)
    (w_relevant_word w) true e (w_is_dynamically_typed w) (w_location w) (w_function_name w).
Definition set_function_name (n : string) (w : Word) : Word :=
  mk_Word (w_kind w) (w_ival w) (w_intrinsic w) (w_byte_size w) (w_id w) (w_function_body w)
    (w_relevant_word w) (w_has_effect w) (w_effect w) (w_is_dynamically_typed w) (w_location w) n.

(** The body operations are appended to: the program's or a word's. *)
Inductive dest := Main | Fn (name : string).

Definition alter_word (name : string) (f : Word → Word) (st : PState) : PState :=
  mk_PState (alter f name (ps_words st)) (ps_main st).

(** [body.emplace_back(...)] *)
Definition emplace_back (d : dest) (op : Operation) (st : PState) : PState :=
  match d with
  | Main => mk_PState (ps_words st) (ps_main st ++ [op])
  | Fn name => alter_word name (λ w, set_body (w_function_body w ++ [op]) w) st
  end.

(** [words.at(name)]: throws when there is no such word. *)
Definition word_at (words : Words) (name : string) : comp Word :=
  match words !! name with Some w => mret w | None => throw end.

(** ** One simple token *)

(** An operation with its kind, token, location, value and the remaining
    members the translation sets. *)
Definition make_op (k : Operation_Kind) (token : Token) (ival : Z) : Operation :=
  set_op_location (tok_location token) (set_op_ival ival (Operation_of k token)).

Definition with_symbol (prefix sval : string) (w : option string) (o : Operation) : Operation :=
  mk_Operation (op_kind o) (op_token o) (op_ival o) sval (op_intrinsic o) w (op_jump o) prefix
    (op_type o) (op_location o).
Definition with_intrinsic (i : Intrinsic_Kind) (o : Operation) : Operation :=
  mk_Operation (op_kind o) (op_token o) (op_ival o) (op_sval o) i (op_word o) (op_jump o)
    (op_symbol_prefix o) (op_type o) (op_location o).
Definition with_type (t : StackType) (o : Operation) : Operation :=
  mk_Operation (op_kind o) (op_token o) (op_ival o) (op_sval o) (op_intrinsic o) (op_word o)
    (op_jump o) (op_symbol_prefix o) t (op_location o).

(** A word, by what it is defined as. *)
Definition translate_word (token : Token) (words : Words) : comp Operation :=
  match words !! tok_sval token with
  | None => error_fatal None ("Word `" +:+ tok_sval token +:+ "` has not been defined yet")
  | Some word =>
    match w_kind word with
    | WordKind.Intrinsic =>
      mret (with_intrinsic (w_intrinsic word) (make_op OpKind.Intrinsic token 0))
    | WordKind.Integer => mret (make_op OpKind.Push_Int token (w_ival word))
    | WordKind.Array =>
      mret (with_symbol Symbol_Prefix (tok_sval token) None
        (make_op OpKind.Push_Symbol token (w_id word)))
    | WordKind.Function =>
      mret (with_symbol Function_Prefix (tok_sval token) (Some (tok_sval token))
        (make_op OpKind.Call_Symbol token (w_id word)))
    end
  end.

Definition translate_keyword (token : Token) : comp Operation :=
  match tok_kval token with
  | Keyword.Array | Keyword.Constant | Keyword.End | Keyword.Function | Keyword.Dynamic
  | Keyword.Stack_Effect_Definition | Keyword.Stack_Effect_Divider =>
    unreachable "`translate_operation` only resolves simple operations. This should be handled by either funciton or global parser"
  | Keyword.Import | Keyword.Include =>
    unreachable "all includes should be eliminated in file inclusion process"
  | Keyword.Do => mret (Operation_of OpKind.Do token)
  | Keyword.Else => mret (Operation_of OpKind.Else token)
  | Keyword.If => mret (Operation_of OpKind.If token)
  | Keyword.Return => mret (Operation_of OpKind.Return token)
  | Keyword.While => mret (Operation_of OpKind.While token)
  | Keyword.Bool =>
    mret (with_type (Type_of_kind TypeKind.Bool)
      (make_op OpKind.Push_Int token (if decide (front (chars (tok_sval token)) = "t") then 1 else 0)))
  | Keyword.Typename =>
    type ← Type_from token;
    mret (with_type type (make_op OpKind.Cast token 0))
  end.

(** [translate_operation]: the operation it appends for the last token of the
    span it is given. *)
Definition translate_operation (token : Token) (words : Words) : comp Operation :=
  match tok_kind token with
  | TokKind.Address_Of =>
    w ← word_at words (str_of (drop 1 (chars (tok_sval token))));
    mret (with_symbol Function_Prefix "" None (make_op OpKind.Push_Symbol token (w_id w)))
  | TokKind.Char =>
    value ← parse_char token;
    mret (make_op OpKind.Push_Int token value)
  | TokKind.Integer => mret (make_op OpKind.Push_Int token (tok_ival token))
  | TokKind.String =>
    mret (with_symbol String_Prefix "" None (make_op OpKind.Push_Symbol token (tok_ival token)))
  | TokKind.Word => translate_word token words
  | TokKind.Keyword => translate_keyword token
  end.

(** ** Blocks *)

(** The search for the token that opens the block closed by an [end]: scans
    the [b] tokens before it downwards with [end_stack] blocks to open. *)
Fixpoint find_block_start (tokens : list Token) (b end_stack : nat) : option nat :=
  match end_stack with
  | O => Some b
  | S n =>
    match b with
    | O => None
    | S block_start =>
      find_block_start tokens block_start
        match tokens !! block_start with
        | Some t =>
          if decide (tok_kind t = TokKind.Keyword) then
            match tok_kval t with
            | Keyword.End => S end_stack
            | Keyword.Function | Keyword.If | Keyword.While => n
            | _ => end_stack
            end
          else end_stack
        | None => end_stack
        end
    end
  end.

(** ** Stack effects *)

(** The tokens before [is], from right to left: the types after the divider
    are the outputs and those before it the inputs.  Both lists are built in
    reverse, as the [push_back]s and the final [std::reverse] do. *)
Fixpoint parse_effect (rev_tokens : list Token) (divider_has_been_seen : bool) (effect : Stack_Effect)
    : comp Stack_Effect :=
  match rev_tokens with
  | [] => mret effect
  | token :: rest =>
    let loc := Some (tok_location token) in
    match tok_kind token with
    | TokKind.Integer => unreachable "unimplemented: Type variables"
    | TokKind.Keyword =>
      match tok_kval token with
      | Keyword.Stack_Effect_Definition =>
        error_fatal loc "Nested type definitions are not allowed (`is` inside type definition)"
      | Keyword.Stack_Effect_Divider =>
        ensure (negb divider_has_been_seen) loc
          "Nested type definitions are not allowed (multiple `--` inside type definition" ≫= λ _,
        parse_effect rest true effect
      | Keyword.Typename =>
        type ← Type_from token;
        parse_effect rest divider_has_been_seen
          (if divider_has_been_seen then mk_Effect (type :: input effect) (output effect)
           else mk_Effect (input effect) (type :: output effect))
      | Keyword.Dynamic =>
        error_fatal loc "Funciton cannot have type signature and be dynamic at the same time. (`dyn` inside type specification)"
      | _ => error_fatal loc "Types can only be specified for functions"
      end
    | _ => error_fatal loc "Type specification only allows integers or type names"
    end
  end.

(** ** Bodies *)

(** The end of [function_into_operations]: the declared effect is stored, the
    body reversed, its locations given the function's name, and its blocks
    cross-referenced. *)
Definition finish_function (func : string) (effect : option Stack_Effect) (st : PState) : comp PState :=
  let st := match effect with Some e => alter_word func (set_effect e) st | None => st end in
  word ← word_at (ps_words st) func;
  let body := (λ o, set_op_location (with_function (op_location o) (w_function_name word)) o)
    <$> reverse (w_function_body word) in
  '(body, _) ← crossreference body;
  mret (alter_word func (set_body body) st).

(** The operation an anonymous function leaves in the enclosing body. *)
Definition lambda_op (start_token : Token) (w : Word) : Operation :=
  set_op_ival (w_id w)
    (with_symbol Function_Prefix "" None (Operation_of OpKind.Push_Symbol start_token)).

(** Closing a block at index [i] of [tokens]: either an [end] operation and
    the number of tokens left, or the function to translate: its name, its
    tokens and the number of tokens left. *)
Inductive closed :=
  | Closed_block (op : Operation)
  | Closed_function (name : string) (body : list Token) (remaining : nat) (lambda : option Operation).

Definition close_block (tokens : list Token) (i : nat) (token : Token) (words : Words) : comp closed :=
  let loc := Some (tok_location token) in
  ensure_fatal (1 <=? i)%nat loc "Unexpected `end`." ≫= λ _,
  match find_block_start tokens i 1 with
  | None => error_fatal loc "Unexpected `end`."
  | Some block_start =>
    start_token ← index tokens block_start;
    if decide (tok_kval start_token ≠ Keyword.Function) then
      mret (Closed_block (Operation_of OpKind.End token))
    else
      let body := take (i - block_start - 1) (drop (block_start + 1) tokens) in
      if decide (front (chars (tok_sval start_token)) = "&") then
        let name := anonymous_name (tok_ival start_token) in
        w ← word_at words name;
        mret (Closed_function name body block_start (Some (lambda_op start_token w)))
      else
        match block_start with
        | O => undefined
        | S b =>
          name ← index tokens b;
          w ← word_at words (tok_sval name);
          mret (Closed_function (tok_sval name) body b None)
        end
  end.

(** The loop of [function_into_operations] over the first [k] tokens of
    [tokens], from the last one down.  A round leaves fewer tokens, and the
    body of a nested function is shorter than the tokens it is found in, so
    [k + 1] rounds suffice. *)
Fixpoint function_loop (fuel : nat) (tokens : list Token) (func : string) (k : nat)
    (effect : option Stack_Effect) (st : PState) : comp PState :=
  match fuel with
  | O => out_of_fuel
  | S fuel =>
    match k with
    | O => finish_function func effect st
    | S i =>
      token ← index tokens i;
      let loc := Some (tok_location token) in
      let trivial : comp PState :=
        op ← translate_operation token (ps_words st);
        function_loop fuel tokens func i effect (emplace_back (Fn func) op st) in
      if decide (tok_kind token ≠ TokKind.Keyword) then trivial
      else
        match tok_kval token with
        | Keyword.Array | Keyword.Constant =>
          error loc "Definitions of arrays or constants are not allowed inside function bodies!" ≫= λ _,
          function_loop fuel tokens func i effect st
        | Keyword.Dynamic =>
          let st := alter_word func set_dynamic st in
          ensure (i =? 0)%nat None "Dynamic specifier must be placed after function keyword!" ≫= λ _,
          function_loop fuel tokens func i effect st
        | Keyword.Stack_Effect_Definition =>
          e ← parse_effect (reverse (take i tokens)) false (mk_Effect [] []);
          function_loop fuel tokens func 0 (Some e) st
        | Keyword.End =>
          c ← close_block tokens i token (ps_words st);
          match c with
          | Closed_block op => function_loop fuel tokens func i effect (emplace_back (Fn func) op st)
          | Closed_function name body remaining lambda =>
            let st := match lambda with Some op => emplace_back (Fn func) op st | None => st end in
            st ← function_loop fuel body name (length body) None st;
            function_loop fuel tokens func remaining effect st
          end
        | _ => trivial
        end
    end
  end.

Definition function_into_operations (tokens : list Token) (func : string) (st : PState) : comp PState :=
  function_loop (S (length tokens)) tokens func (length tokens) None st.

(** The loop of [into_operations]. *)
Fixpoint main_loop (fuel : nat) (tokens : list Token) (k : nat) (st : PState) : comp PState :=
  match fuel with
  | O => out_of_fuel
  | S fuel =>
    match k with
    | O => mret st
    | S i =>
      token ← index tokens i;
      let trivial : comp PState :=
        op ← translate_operation token (ps_words st);
        main_loop fuel tokens i (emplace_back Main op st) in
      if decide (tok_kind token ≠ TokKind.Keyword) then trivial
      else
        match tok_kval token with
        | Keyword.Array | Keyword.Constant => main_loop fuel tokens (i - 2) st
        | Keyword.End =>
          c ← close_block tokens i token (ps_words st);
          match c with
          | Closed_block op => main_loop fuel tokens i (emplace_back Main op st)
          | Closed_function name body remaining lambda =>
            let st := match lambda with
              | Some op => emplace_back Main op st
              | None => alter_word name (set_function_name name) st
              end in
            st ← function_into_operations body name st;
            main_loop fuel tokens remaining st
          end
        | _ => trivial
        end
    end
  end.

Definition into_operations (tokens : list Token) (st : PState) : comp PState :=
  st ← main_loop (S (length tokens)) tokens (length tokens) st;
  '(body, _) ← crossreference (reverse (ps_main st));
  mret (mk_PState (ps_words st) body).

(** ** Lemmas *)

(** *** The number of rounds *)

Lemma find_block_start_lt tokens b n r :
  find_block_start tokens b (S n) = Some r → (r < b)%nat.
Proof.
  revert n. induction b as [|b IH]; intros n; [done|]. cbn [find_block_start].
  match goal with |- find_block_start _ _ ?m = _ → _ => destruct m as [|n'] end.
  - destruct b; simpl; intros [= <-]; lia.
  - intros H%IH. lia.
Qed.

Lemma length_body (tokens : list Token) (start n : nat) : (length (take n (drop start tokens)) ≤ n)%nat.
Proof. rewrite length_take. lia. Qed.

(** A function that is closed at index [i] leaves fewer than [i] tokens and has
    fewer than [i] tokens itself. *)
Lemma close_block_shorter tokens i token words l name body remaining lambda :
  close_block tokens i token words = (l, Done (Closed_function name body remaining lambda)) →
  (length body < i)%nat ∧ (remaining < i)%nat.
Proof.
  unfold close_block. intros H. apply bind_Done in H as (? & [] & ? & _ & H & _).
  destruct (find_block_start tokens i 1) as [start|] eqn:Hs; [|done].
  apply find_block_start_lt in Hs.
  apply bind_Done in H as (? & t & ? & _ & H & _). case_decide; [done|]. case_decide.
  - apply bind_Done in H as (? & w & ? & _ & H & _). injection H as <- _ <- <- _.
    pose proof (length_body tokens (start + 1) (i - start - 1)). lia.
  - destruct start as [|b]; [done|].
    apply bind_Done in H as (? & n & ? & _ & H & _). apply bind_Done in H as (? & w & ? & _ & H & _).
    injection H as <- _ <- <- _.
    pose proof (length_body tokens (S (b + 1)) (i - S b - 1)). lia.
Qed.

(** *** Every pass ends *)

Section Ends.

Lemma ends_word_at words name : ends (word_at words name).
Proof. unfold word_at. solve_ends. Qed.

Lemma ends_Type_from token : ends (Type_from token).
Proof. unfold Type_from. apply ends_bind; [apply ends_assert_impl|]. intros _. by repeat case_match. Qed.

Lemma ends_char_accumulator token s c : ends (char_accumulator token s c).
Proof. unfold char_accumulator. solve_ends. Qed.

Lemma ends_accumulate {S} (acc : S → ascii → comp (S * bool)) l s :
  (∀ s c, ends (acc s c)) → ends (accumulate acc l s).
Proof.
  intros Hacc. revert s. induction l as [|c l IH]; intros s; cbn [accumulate]; [done|].
  apply ends_bind; [apply Hacc|]. intros [s' []]; [apply IH|done].
Qed.

Lemma ends_emit {S} (acc : S → ascii → comp (S * bool)) s c k :
  (∀ s c, ends (acc s c)) → (∀ s, ends (k s)) → ends (emit acc s c k).
Proof. intros Hacc Hk. apply ends_bind; [apply Hacc|]. intros [s' []]; [apply Hk|done]. Qed.

Lemma ends_emit_rune {S} (acc : S → ascii → comp (S * bool)) token ds s k :
  (∀ s c, ends (acc s c)) → (∀ s, ends (k s)) → ends (emit_rune acc token ds s k).
Proof.
  intros Hacc Hk. unfold emit_rune. case_match; [|apply ends_error_fatal].
  apply ends_bind; [by apply ends_accumulate|]. intros [s' []]; [apply Hk|done].
Qed.

Lemma ends_hex_escape_digit token j c v : ends (hex_escape_digit token j c v).
Proof. unfold hex_escape_digit. solve_ends. Qed.

End Ends.

#[export] Hint Resolve ends_word_at ends_Type_from ends_char_accumulator ends_hex_escape_digit : stacky.

Lemma ends_parse_stringlike_loop {S} (acc : S → ascii → comp (S * bool)) token n :
  (∀ s c, ends (acc s c)) → ∀ seq escaped s, (length seq ≤ n)%nat →
  ends (parse_stringlike_loop acc token escaped seq s).
Proof.
  intros Hacc. induction n as [|n IH]; intros seq escaped s Hn.
  { destruct seq; [done|simpl in Hn; lia]. }
  destruct seq as [|c r]; [done|]. simpl in Hn. cbn [parse_stringlike_loop].
  assert (∀ e r', (length r' ≤ length r)%nat → ∀ s, ends (parse_stringlike_loop acc token e r' s)) as Hr.
  { intros e r' Hr' s'. apply IH. lia. }
  case_decide; [by apply Hr|]. case_match; [|by apply ends_emit; auto].
  case_match; [by apply ends_emit; auto|]. case_decide.
  { destruct r as [|d1 [|d2 [|d3 [|d4 r']]]]; try apply ends_error_fatal.
    apply ends_emit_rune; [done|]. apply Hr. simpl. lia. }
  case_decide.
  { destruct r as [|d1 [|d2 [|d3 [|d4 [|d5 [|d6 [|d7 [|d8 r']]]]]]]]; try apply ends_error_fatal.
    apply ends_emit_rune; [done|]. apply Hr. simpl. lia. }
  case_decide.
  { destruct r as [|c0 [|c1 r']]; try apply ends_error_fatal.
    do 2 (apply ends_bind; [auto with stacky|intros ?]). apply ends_emit; [done|]. apply Hr. simpl. lia. }
  apply ends_bind; [apply ends_report|]. intros _. by apply ends_emit; auto.
Qed.

Lemma ends_translate_operation token words : ends (translate_operation token words).
Proof.
  assert (ends (parse_char token)).
  { unfold parse_char, parse_stringlike. apply ends_bind; [|intros []; done].
    eapply ends_parse_stringlike_loop; [intros; apply ends_char_accumulator|done]. }
  unfold translate_operation, translate_word, translate_keyword. solve_ends.
Qed.

Lemma ends_parse_effect rev_tokens seen effect : ends (parse_effect rev_tokens seen effect).
Proof.
  revert seen effect. induction rev_tokens as [|t r IH]; intros seen effect; [done|].
  cbn [parse_effect]. solve_ends.
Qed.

Lemma ends_crossreference ops : ends (crossreference ops).
Proof.
  assert (∀ ops i j, ends (set_jump ops i j)) by (intros; unfold set_jump; solve_ends).
  assert (∀ is_ ops stack, ends (crossreference_loop is_ ops stack)) as Hloop.
  { induction is_ as [|i is_ IH]; intros os stack; cbn [crossreference_loop]; [done|].
    apply ends_bind; [unfold crossreference_step; solve_ends|].
    intros [os' [stack'|]]; [apply IH|done]. }
  unfold crossreference, unclosed_block. apply ends_bind; [apply Hloop|].
  intros [os [[|]|]]; solve_ends.
Qed.

Lemma ends_close_block tokens i token words : ends (close_block tokens i token words).
Proof. unfold close_block. solve_ends. Qed.

Lemma ends_finish_function func effect st : ends (finish_function func effect st).
Proof.
  unfold finish_function. apply ends_bind; [apply ends_word_at|intros w].
  apply ends_bind; [apply ends_crossreference|]. by intros [].
Qed.

#[export] Hint Resolve ends_translate_operation ends_parse_effect ends_crossreference
  ends_close_block ends_finish_function : stacky.

Lemma function_loop_ends fuel : ∀ tokens func k effect st,
  (k < fuel)%nat → ends (function_loop fuel tokens func k effect st).
Proof.
  induction fuel as [|fuel IH]; intros tokens func k effect st Hk; [lia|].
  destruct k as [|i]; cbn [function_loop]; [auto with stacky|].
  assert (∀ effect st, ends (function_loop fuel tokens func i effect st)) by (intros; apply IH; lia).
  apply ends_bind; [auto with stacky|intros token]. cbv zeta.
  case_decide; [|destruct (tok_kval token)]; try (apply ends_bind; [auto with stacky|done]).
  - apply ends_bind_Done; [auto with stacky|].
    intros l [op|name body remaining lambda] Hc; [done|].
    apply close_block_shorter in Hc. apply ends_bind; [apply IH; lia|]. intros st'. apply IH. lia.
  - apply ends_bind; [auto with stacky|intros e]. apply IH. lia.
Qed.

Lemma main_loop_ends fuel : ∀ tokens k st, (k < fuel)%nat → ends (main_loop fuel tokens k st).
Proof.
  induction fuel as [|fuel IH]; intros tokens k st Hk; [lia|].
  destruct k as [|i]; cbn [main_loop]; [done|].
  assert (∀ st, ends (main_loop fuel tokens i st)) by (intros; apply IH; lia).
  apply ends_bind; [auto with stacky|intros token]. cbv zeta.
  case_decide; [|destruct (tok_kval token)]; try (apply ends_bind; [auto with stacky|done]);
    try (apply IH; lia).
  apply ends_bind_Done; [auto with stacky|].
  intros l [op|name body remaining lambda] Hc; [done|].
  apply close_block_shorter in Hc.
  apply ends_bind; [apply function_loop_ends; lia|]. intros st'. apply IH. lia.
Qed.

(** *** Bodies without nested functions *)

(** The operation with these members, the others as in a new one. *)
Definition operation_with (k : Operation_Kind) (t : Token) (ival : Z) (loc : Location) : Operation :=
  mk_Operation k t ival "" Intrinsic.Add None Empty_Jump "" (Type_of_kind TypeKind.Int) loc.

(** The operation of the control keywords, which gets no location. *)
Definition control_table : list (Keyword_Kind * Operation_Kind) :=
  [(Keyword.Do, OpKind.Do); (Keyword.Else, OpKind.Else); (Keyword.End, OpKind.End); (Keyword.If, OpKind.If);
   (Keyword.Return, OpKind.Return); (Keyword.While, OpKind.While)].

(** [translates words token op]: what a token that is one operation means.  A
    numeral, a character, a truth value and the name of a constant push their
    value, a string and the name of an array push the symbol of their
    identifier, an ampersand with the name of a word that of its function, the
    name of an intrinsic and of a function stand for the intrinsic and the
    call, a type is a cast. *)
Inductive translates (words : Words) (t : Token) : Operation → Prop :=
  | T_integer : tok_kind t = TokKind.Integer →
      translates words t (operation_with OpKind.Push_Int t (tok_ival t) (tok_location t))
  | T_char value : tok_kind t = TokKind.Char → parse_char t = ([], Done value) →
      translates words t (operation_with OpKind.Push_Int t value (tok_location t))
  | T_string : tok_kind t = TokKind.String →
      translates words t (mk_Operation OpKind.Push_Symbol t (tok_ival t) "" Intrinsic.Add None Empty_Jump
        String_Prefix (Type_of_kind TypeKind.Int) (tok_location t))
  | T_address name w : tok_kind t = TokKind.Address_Of →
      name = str_of (drop 1 (chars (tok_sval t))) → words !! name = Some w →
      translates words t (mk_Operation OpKind.Push_Symbol t (w_id w) "" Intrinsic.Add None Empty_Jump
        Function_Prefix (Type_of_kind TypeKind.Int) (tok_location t))
  | T_intrinsic w : tok_kind t = TokKind.Word →
      words !! tok_sval t = Some w → w_kind w = WordKind.Intrinsic →
      translates words t (mk_Operation OpKind.Intrinsic t 0 "" (w_intrinsic w) None Empty_Jump
        "" (Type_of_kind TypeKind.Int) (tok_location t))
  | T_constant w : tok_kind t = TokKind.Word →
      words !! tok_sval t = Some w → w_kind w = WordKind.Integer →
      translates words t (operation_with OpKind.Push_Int t (w_ival w) (tok_location t))
  | T_array w : tok_kind t = TokKind.Word →
      words !! tok_sval t = Some w → w_kind w = WordKind.Array →
      translates words t (mk_Operation OpKind.Push_Symbol t (w_id w) (tok_sval t) Intrinsic.Add None Empty_Jump
        Symbol_Prefix (Type_of_kind TypeKind.Int) (tok_location t))
  | T_call w : tok_kind t = TokKind.Word →
      words !! tok_sval t = Some w → w_kind w = WordKind.Function →
      translates words t (mk_Operation OpKind.Call_Symbol t (w_id w) (tok_sval t) Intrinsic.Add (Some (tok_sval t))
        Empty_Jump Function_Prefix (Type_of_kind TypeKind.Int) (tok_location t))
  | T_control k : tok_kind t = TokKind.Keyword → (tok_kval t, k) ∈ control_table →
      translates words t (operation_with k t 0 no_location)
  | T_bool value : tok_kind t = TokKind.Keyword → tok_kval t = Keyword.Bool →
      (value = 1 ∧ front (chars (tok_sval t)) = "t") ∨ (value = 0 ∧ front (chars (tok_sval t)) ≠ "t") →
      translates words t (mk_Operation OpKind.Push_Int t value "" Intrinsic.Add None Empty_Jump
        "" (Type_of_kind TypeKind.Bool) (tok_location t))
  | T_cast type : tok_kind t = TokKind.Keyword → tok_kval t = Keyword.Typename →
      Type_from t = ([], Done type) →
      translates words t (mk_Operation OpKind.Cast t 0 "" Intrinsic.Add None Empty_Jump "" type (tok_location t)).

(** The operation the loops append for a token: that of a closed block for an
    [end], the result of [translate_operation] otherwise. *)
Definition translated (words : Words) (token : Token) (op : Operation) : Prop :=
  if decide (tok_kind token = TokKind.Keyword ∧ tok_kval token = Keyword.End)
  then op = Operation_of OpKind.End token
  else translate_operation token words = mret op.

(** The computations of [translate_operation] are silent where they succeed. *)
Lemma bind_silent {A B} (m : comp A) (k : A → B) b :
  m ≫= (λ a, mret (k a)) = mret b → ∃ a, m = ([], Done a) ∧ b = k a.
Proof. destruct m as [l [a| | | |]]; cbn; try done. intros [= Hl <-]. rewrite app_nil_r in Hl. subst l. by exists a. Qed.

Lemma control_translated words t k :
  tok_kind t = TokKind.Keyword → (tok_kval t, k) ∈ control_table → translated words t (operation_with k t 0 no_location).
Proof.
  intros Hk Hin. unfold control_table in Hin. rewrite !elem_of_cons, elem_of_nil in Hin.
  destruct_or! Hin; try done; injection Hin as Hv ->; unfold translated, translate_operation, translate_keyword;
    rewrite Hk, Hv; first [by rewrite decide_True | by rewrite decide_False by (by intros [])].
Qed.

(** [translate_operation] gives every token the operation it means. *)
Lemma translates_iff words t o : translates words t o ↔ translated words t o.
Proof.
  split.
  - intros H. inversion H as [| | | | | | | |k Hk Hin| |]; subst; [..|by apply control_translated| |];
      unfold translated, translate_operation, translate_keyword, translate_word, word_at;
      (rewrite decide_False by (intros []; congruence));
      repeat match goal with E : ?x = _ |- context [match ?x with _ => _ end] => rewrite E end; try done.
    + match goal with E : parse_char t = _ |- _ => by rewrite E end.
    + destruct_or?; destruct_and?; subst; [by rewrite decide_True|by rewrite decide_False].
    + match goal with E : Type_from t = _ |- _ => by rewrite E end.
  - unfold translated, translate_operation. case_decide as He.
    { destruct He as [Hk Hv]. intros ->. apply T_control; [done|]. rewrite Hv. by apply (bool_decide_unpack _). }
    destruct (tok_kind t) eqn:Hk.
    + unfold translate_word. destruct (words !! tok_sval t) as [w|] eqn:Hw; [|done].
      destruct (w_kind w) eqn:Hwk; intros [= <-]; [by apply T_intrinsic|by apply T_constant|by apply T_array|by apply T_call].
    + intros [= <-]. by apply T_integer.
    + intros [= <-]. by apply T_string.
    + intros (v & Hv & ->)%bind_silent. by apply T_char.
    + unfold translate_keyword. destruct (tok_kval t) eqn:Hv; try done;
        try (intros [= <-]; apply T_control; [done|]; rewrite Hv; by apply (bool_decide_unpack _)).
      * intros [= <-]. apply T_bool; [done|done|]. case_decide; [by left|by right].
      * intros (type & Ht & ->)%bind_silent. by apply T_cast.
    + intros (w & Hw & ->)%bind_silent. unfold word_at in Hw. destruct (words !! _) eqn:Hl; [|done].
      injection Hw as ->. by eapply T_address.
Qed.

(** What the search for the start of a block makes of a token. *)
Inductive bracket := Opens | Closes | Neutral.

Definition bracket_of (t : Token) : bracket :=
  if decide (tok_kind t = TokKind.Keyword) then
    match tok_kval t with
    | Keyword.End => Closes
    | Keyword.Function | Keyword.If | Keyword.While => Opens
    | _ => Neutral
    end
  else Neutral.

Definition op_bracket (k : Operation_Kind) : bracket :=
  match k with
  | OpKind.End => Closes
  | OpKind.If | OpKind.While => Opens
  | _ => Neutral
  end.

Lemma translates_bracket words t o :
  translates words t o →
  bracket_of t = op_bracket (op_kind o)
  ∧ (bracket_of t = Opens → tok_kval t ≠ Keyword.Function)
  ∧ (tok_kind t = TokKind.Keyword → tok_kval t ≠ Keyword.Array ∧ tok_kval t ≠ Keyword.Constant).
Proof.
  rewrite translates_iff. unfold translated, bracket_of. destruct (decide (_ ∧ _)) as [[Hk Hv]|Hne].
  { intros ->. rewrite Hk, Hv. done. }
  unfold translate_operation. destruct (tok_kind t) eqn:Hk; cbn [decide].
  1: unfold translate_word; destruct (_ !! _) as [w|]; [destruct (w_kind w)|].
  all: try (intros [= <-]; done); try done.
  - intros H. apply bind_Done in H as (? & v & ? & _ & [= <- <-] & _). done.
  - unfold translate_keyword. destruct (tok_kval t) eqn:Hv; try done;
      try (intros [= <-]; done); try (by destruct Hne).
    intros H. apply bind_Done in H as (? & v & ? & _ & [= <- <-] & _). done.
  - intros H. apply bind_Done in H as (? & v & ? & _ & [= <- <-] & _). done.
Qed.

(** The search on the reversed list of the tokens before the [end]; the result
    counts the tokens before the one found. *)
Fixpoint scan (rev_tokens : list Token) (n : nat) : option nat :=
  match n with
  | O => Some (length rev_tokens)
  | S m =>
    match rev_tokens with
    | [] => None
    | t :: r => scan r match bracket_of t with Closes => S (S m) | Opens => m | Neutral => S m end
    end
  end.

Lemma scan_O l : scan l 0 = Some (length l).
Proof. by destruct l. Qed.

Lemma find_block_start_scan tokens b n :
  (b ≤ length tokens)%nat → find_block_start tokens b n = scan (reverse (take b tokens)) n.
Proof.
  revert n. induction b as [|b IH]; intros [|n] Hb; cbn [find_block_start].
  - done.
  - done.
  - rewrite scan_O, length_reverse, length_take. f_equal. lia.
  - destruct (lookup_lt_is_Some_2 tokens b) as [t Ht]; [lia|].
    rewrite (take_S_r _ _ t), reverse_snoc by done. cbn [scan]. rewrite Ht, IH by lia. f_equal.
    unfold bracket_of. case_decide; [|done]. by destruct (tok_kval t).
Qed.

Section Balanced.
  Context (words : Words).

Lemma scan_token t o rest n :
  translates words t o →
  scan (t :: rest) (S n) =
    scan rest match op_bracket (op_kind o) with Closes => S (S n) | Opens => n | Neutral => S n end.
Proof. intros Ht. cbn [scan]. by destruct (translates_bracket _ _ _ Ht) as (-> & _ & _). Qed.

(** The tokens of the parts of a body. *)
Lemma Forall2_split ts l1 o l2 :
  Forall2 (translates words) ts (l1 ++ o :: l2) →
  ∃ ts1 t ts2, ts = ts1 ++ t :: ts2 ∧ Forall2 (translates words) ts1 l1 ∧ translates words t o
    ∧ Forall2 (translates words) ts2 l2.
Proof.
  intros (ts1 & ts' & H1 & H2 & ->)%Forall2_app_inv_r.
  apply Forall2_cons_inv_r in H2 as (t & ts2 & Ht & H2 & ->). eauto 10.
Qed.

Ltac split_parts :=
  repeat match goal with
  | H : Forall2 _ _ (_ :: _) |- _ =>
    let t := fresh "t" in apply Forall2_cons_inv_r in H as (t & ? & ? & ? & ->)
  | H : Forall2 _ _ (_ ++ _ :: _) |- _ =>
    let t := fresh "t" in apply Forall2_split in H as (? & t & ? & -> & ? & ? & ?)
  | H : Forall2 _ _ [] |- _ => apply Forall2_nil_inv_r in H as ->
  end.

(** Rewrites the reversed tokens into the order the search meets them. *)
Ltac rev_parts :=
  repeat first [rewrite reverse_cons | rewrite reverse_app | rewrite <-app_assoc | progress simpl app].

Lemma op_bracket_plain k : is_plain k → op_bracket k = Neutral.
Proof. by destruct k. Qed.

(** The search passes over the tokens of a structured body. *)
Lemma scan_block b : ∀ ts rest n,
  block_ok b → Forall2 (translates words) ts (flatten b) →
  scan (reverse ts ++ rest) (S n) = scan rest (S n).
Proof.
  induction b as [|op r IHr|o1 t IHt o2 r IHr|o1 t IHt o2 e IHe o3 r IHr|o1 c IHc o2 b IHb o3 r IHr];
    intros ts rest n Hok Hts; cbn [flatten] in Hts; simpl in Hok; split_parts; [done|..];
    destruct_and? Hok; rev_parts;
    repeat match goal with
    | IH : ∀ ts rest n, block_ok ?b → _, H : Forall2 _ ?ts (flatten ?b) |- context [reverse ?ts ++ _] =>
      rewrite (IH ts) by done
    | H : translates words ?t ?o, Hk : op_kind ?o = _ |- context [scan (?t :: _) _] =>
      rewrite (scan_token t o) by done; rewrite Hk; cbn [op_bracket]
    end; try done.
  rewrite (scan_token _ op), op_bracket_plain by done. done.
Qed.

(** The search from behind [rev_tokens] finds a token that opens a block of
    operations. *)
Definition found (rev_tokens : list Token) : Prop :=
  ∃ l1 st l2, rev_tokens = l1 ++ st :: l2 ∧ scan rev_tokens 1 = Some (length l2)
    ∧ tok_kval st ≠ Keyword.Function.

(** Every [end] of [ts], which follow [rest], closes a block of operations. *)
Fixpoint ends_found (ts rest : list Token) : Prop :=
  match ts with
  | [] => True
  | t :: ts => (bracket_of t = Closes → found rest) ∧ ends_found ts (t :: rest)
  end.

Lemma ends_found_app ts1 ts2 rest :
  ends_found (ts1 ++ ts2) rest ↔ ends_found ts1 rest ∧ ends_found ts2 (reverse ts1 ++ rest).
Proof.
  revert rest. induction ts1 as [|t ts1 IH]; intros rest; simpl app.
  { unfold reverse. simpl. tauto. }
  cbn [ends_found]. rewrite IH, reverse_cons, <-app_assoc. simpl. tauto.
Qed.

Lemma found_open t o l rest :
  translates words t o → op_bracket (op_kind o) = Opens →
  scan (l ++ t :: rest) 1 = scan (t :: rest) 1 → found (l ++ t :: rest).
Proof.
  intros Ht Hk Hs. destruct (translates_bracket _ _ _ Ht) as (Hb & Hf & _).
  exists l, t, rest. split; [done|]. split; [|apply Hf; congruence].
  by rewrite Hs, (scan_token t o), Hk, scan_O by done.
Qed.

Lemma neutral_end t o (P : Prop) :
  translates words t o → op_bracket (op_kind o) ≠ Closes → bracket_of t = Closes → P.
Proof. intros Ht Hk. destruct (translates_bracket _ _ _ Ht) as (-> & _ & _). done. Qed.

Lemma found_one b ts t o rest :
  block_ok b → Forall2 (translates words) ts (flatten b) →
  translates words t o → op_bracket (op_kind o) = Opens → found (reverse ts ++ t :: rest).
Proof. intros. eapply found_open; [done|done|]. by apply (scan_block b). Qed.

Lemma found_two b1 b2 ts1 ts2 t o m om rest :
  block_ok b1 → Forall2 (translates words) ts1 (flatten b1) →
  block_ok b2 → Forall2 (translates words) ts2 (flatten b2) →
  translates words t o → op_bracket (op_kind o) = Opens →
  translates words m om → op_bracket (op_kind om) = Neutral →
  found (reverse ts2 ++ m :: reverse ts1 ++ t :: rest).
Proof.
  intros ?????? Hm Hn. replace (reverse ts2 ++ m :: reverse ts1 ++ t :: rest)
    with ((reverse ts2 ++ m :: reverse ts1) ++ t :: rest) by (by rewrite <-app_assoc).
  eapply found_open; [done|done|]. rewrite <-app_assoc. simpl app.
  rewrite (scan_block b2), (scan_token m om), Hn by done. by apply (scan_block b1).
Qed.

Lemma ends_found_block b : ∀ ts rest,
  block_ok b → Forall2 (translates words) ts (flatten b) → ends_found ts rest.
Proof.
  induction b as [|op r IHr|o1 t IHt o2 r IHr|o1 t IHt o2 e IHe o3 r IHr|o1 c IHc o2 b IHb o3 r IHr];
    intros ts rest Hok Hts; cbn [flatten] in Hts; simpl in Hok; split_parts; [done|..];
    destruct_and? Hok;
    repeat first [rewrite ends_found_app | progress cbn [ends_found]]; split_and!;
    try (match goal with IH : ∀ ts rest, block_ok ?b → _, H : Forall2 _ ?ts (flatten ?b) |- ends_found ?ts _ =>
      by apply IH end);
    try (match goal with H : translates words ?t ?o, Hk : op_kind ?o = _ |- bracket_of ?t = Closes → _ =>
      by apply (neutral_end t o); [|rewrite Hk] end).
  - apply (neutral_end _ op); [done|]. by rewrite op_bracket_plain.
  - intros _. eapply (found_one t _ _ o1); try done. by rewrite H3.
  - intros _. eapply (found_two t e _ _ _ o1 _ o2); try done; by rewrite ?H5, ?H6.
  - intros _. eapply (found_two c b _ _ _ o1 _ o2); try done; by rewrite ?H5, ?H6.
Qed.

(** The search in the whole list of tokens. *)
Lemma find_block_start_found tokens i :
  (i ≤ length tokens)%nat → found (reverse (take i tokens)) →
  ∃ start st, find_block_start tokens i 1 = Some start ∧ tokens !! start = Some st
    ∧ (start < i)%nat ∧ tok_kval st ≠ Keyword.Function.
Proof.
  intros Hlt (l1 & st & l2 & Hrev & Hs & Hk).
  exists (length l2), st. rewrite find_block_start_scan by lia. split; [done|].
  assert (take i tokens = reverse l2 ++ st :: reverse l1) as Htake.
  { rewrite <-(reverse_involutive (take i tokens)), Hrev, reverse_app, reverse_cons, <-app_assoc. done. }
  assert (length l2 < i)%nat as Hl.
  { apply (f_equal length) in Htake. rewrite length_take, length_app, length_reverse in Htake.
    simpl in Htake. lia. }
  split; [|done]. rewrite <-(lookup_take_lt tokens i), Htake by done.
  apply list_lookup_middle. by rewrite length_reverse.
Qed.

Lemma close_block_found tokens i t :
  (i ≤ length tokens)%nat → found (reverse (take i tokens)) →
  close_block tokens i t words = mret (Closed_block (Operation_of OpKind.End t)).
Proof.
  intros Hi Hf. destruct (find_block_start_found _ _ Hi Hf) as (start & st & Hs & Hst & Hlt & Hk).
  unfold close_block. destruct (Nat.leb_spec 1 i); [|lia]. unfold ensure_fatal. comp_step.
  rewrite Hs. unfold index. rewrite Hst. comp_step. by rewrite decide_True.
Qed.

Lemma ends_found_lookup tokens i t :
  ends_found tokens [] → tokens !! i = Some t → bracket_of t = Closes → found (reverse (take i tokens)).
Proof.
  intros Hf Hi Ht. rewrite <-(take_drop_middle _ _ _ Hi) in Hf. apply ends_found_app in Hf as [_ [Hf _]].
  specialize (Hf Ht). by rewrite app_nil_r in Hf.
Qed.

Lemma main_loop_simple tokens ops fuel k m :
  Forall2 (translates words) tokens ops → ends_found tokens [] →
  (k < fuel)%nat → (k ≤ length tokens)%nat →
  main_loop fuel tokens k (mk_PState words m) = mret (mk_PState words (m ++ reverse (take k ops))).
Proof.
  intros Hts Hf. revert k m. induction fuel as [|fuel IH]; intros k m Hfuel Hk; [lia|].
  destruct k as [|i]; cbn [main_loop]; [by rewrite app_nil_r|].
  destruct (lookup_lt_is_Some_2 tokens i) as [t Ht]; [lia|].
  destruct (Forall2_lookup_l _ _ _ _ _ Hts Ht) as (o & Ho & Htr).
  assert (main_loop fuel tokens i (emplace_back Main o (mk_PState words m)) =
    mret (mk_PState words (m ++ reverse (take (S i) ops)))) as Hrest.
  { simpl emplace_back. rewrite IH by lia. rewrite (take_S_r _ _ o), reverse_snoc by done.
    by rewrite <-app_assoc. }
  unfold index. rewrite Ht. comp_step. cbv zeta.
  destruct (translates_bracket _ _ _ Htr) as (_ & _ & Hno). apply translates_iff in Htr. unfold translated in Htr.
  destruct (decide (tok_kind t ≠ TokKind.Keyword)) as [Hk1|Hk1];
    [|apply dec_stable in Hk1; destruct (tok_kval t) eqn:Hv]; cbn [ps_words];
    try (rewrite decide_False in Htr by naive_solver; rewrite Htr; comp_step; exact Hrest);
    try (by destruct (Hno Hk1)).
  rewrite close_block_found.
  - comp_step. rewrite decide_True in Htr by done. by subst o.
  - lia.
  - eapply ends_found_lookup; [done|done|]. unfold bracket_of. by rewrite Hv, decide_True.
Qed.

End Balanced.

Lemma into_operations_blocks words tokens b :
  block_ok b → Forall2 (translates words) tokens (flatten b) →
  into_operations tokens (mk_PState words []) = ([], Done (mk_PState words (link 0 b))).
Proof.
  intros Hok Hts. unfold into_operations.
  rewrite (main_loop_simple words tokens (flatten b)); [|done|by eapply ends_found_block|lia|lia].
  comp_step. cbn [ps_main ps_words app].
  rewrite (take_ge (flatten b)) by (by rewrite (Forall2_length _ _ _ Hts)).
  rewrite reverse_involutive, crossreference_flatten by done. by comp_step.
Qed.

(** ** Properties *)

(** the tokens of a structured program without definitions, each standing
    for one operation, are translated into exactly these operations, in order,
    with the jumps of the structured program; the table of words is unchanged
    and nothing is reported. *)
Theorem into_operations_correct words tokens b :
  block_ok b → Forall2 (translates words) tokens (flatten b) →
  into_operations tokens (mk_PState words []) = ([], Done (mk_PState words (link 0 b))).
Proof. apply into_operations_blocks. Qed.

(** The tokens of [1 if 2 else 3 end]. *)
Definition sample_program : list Token :=
  [int_tok 1; key_tok Keyword.If "if"; int_tok 2; key_tok Keyword.Else "else"; int_tok 3;
   key_tok Keyword.End "end"].

Definition sample_block : block :=
  let push v := make_op OpKind.Push_Int (int_tok v) v in
  B_op (push 1) (B_if_else (Operation_of OpKind.If (key_tok Keyword.If "if")) (B_op (push 2) B_nil)
    (Operation_of OpKind.Else (key_tok Keyword.Else "else")) (B_op (push 3) B_nil)
    (Operation_of OpKind.End (key_tok Keyword.End "end")) B_nil).

Lemma into_operations_correct_witness :
  into_operations sample_program (mk_PState ∅ []) = ([], Done (mk_PState ∅ (link 0 sample_block))).
Proof.
  apply (into_operations_correct ∅ sample_program sample_block).
  - by repeat split.
  - repeat constructor.
Defined.

(** C34: the translation of tokens into operations ends for every sequence of
    tokens and every table of words: no nesting of blocks and functions makes
    it loop. *)
Theorem into_operations_terminates tokens st : ends (into_operations tokens st).
Proof.
  unfold into_operations. apply ends_bind; [apply main_loop_ends; lia|].
  intros st'. apply ends_bind; [apply ends_crossreference|]. by intros [].
Qed.
