(* ===== verification/Types.v ===== *)
(** * Type checking (src/src/types.cc, second part)

    The abstract interpretation of a body on a stack of types.  A [Typestack]
    is a list in the order of the C++ vector, the top of the stack last; a
    reversed range is the reversed list.  The vector of states that are left to
    explore is a list with its back first. *)

From S2P Require Import Prelude Syntax Errors TypeNames.

Open Scope char_scope.
Open Scope Z_scope.

Abbreviation Typestack := (list StackType).

(** ** Output verifiers *)

(** The reports for the values of a reversed range. *)
Fixpoint list_values (values : Typestack) : comp unit :=
  match values with
  | [] => mret tt
  | it :: values =>
    info (Some (ty_location it)) ("value of type `" +:+ type_name it +:+ "`") ≫= λ _, list_values values
  end.

(** [s.stack.back()] is the first element of the reversed stack. *)
Definition excess_data (rev_stack start : Typestack) : comp unit :=
  match rev_stack with
  | [] => undefined
  | back :: _ =>
    error (Some (ty_location back)) "Excess data on stack" ≫= λ _,
    info (Some (ty_location back)) "List of all excess data introductions: " ≫= λ _,
    list_values start ≫= λ _, ([], Exited)
  end.

Definition missing_data (start : Typestack) : comp unit :=
  error None "Missing data from stack" ≫= λ _,
  info None "List of all missing data" ≫= λ _,
  list_values start ≫= λ _, ([], Exited).

(** [std::mismatch] with [Type::operator==]: the two rests. *)
Fixpoint mismatch (a b : Typestack) : Typestack * Typestack :=
  match a, b with
  | x :: a', y :: b' => if Type_eqb x y then mismatch a' b' else (a, b)
  | _, _ => (a, b)
  end.

(** The verifier [make_expected_output_verifier(output)] applied to a state
    with this stack. *)
Definition expected_output_verifier (output stack : Typestack) : comp unit :=
  let rstack := reverse stack in
  let routput := reverse output in
  match stack, output with
  | [], [] => mret tt
  | _ :: _, [] => excess_data rstack rstack
  | [], _ :: _ => missing_data routput
  | _ :: _, _ :: _ =>
    let '(stk, exp) := mismatch rstack routput in
    match stk, exp with
    | [], [] => mret tt
    | _, [] => excess_data rstack stk
    | _, _ => missing_data exp
    end
  end.

(** The two verifiers [typecheck] is called with: the expected output, or the
    closure of [dynamic_function_call_output_verifier] with the stack it has
    received, which it has stored in the caller. *)
Inductive Output_Verifier :=
  | Expected_Output (output : Typestack)
  | Dynamic_Output (received : option Typestack).

Definition verify_output (v : Output_Verifier) (stack : Typestack) : comp Output_Verifier :=
  match v with
  | Expected_Output output => expected_output_verifier output stack ≫= λ _, mret v
  | Dynamic_Output None => mret (Dynamic_Output (Some stack))
  | Dynamic_Output (Some output) => expected_output_verifier output stack ≫= λ _, mret v
  end.

(** ** Stack effects *)

Abbreviation Generics := (gmap Z StackType).

(** The comparison of a value of the stack with one of the effect, which binds
    the type variables of the effect. *)
Definition compare (generics : Generics) (stack effect : StackType) : bool * Generics :=
  if decide (ty_kind effect = TypeKind.Variable_) then
    match generics !! ty_var effect with
    | Some t => (Type_eqb t stack, generics)
    | None => (true, <[ty_var effect := stack]> generics)
    end
  else (Type_eqb stack effect, generics).

(** [std::mismatch] of the reversed ranges with [compare]. *)
Fixpoint match_effect (generics : Generics) (s e : Typestack) : Typestack * Typestack * Generics :=
  match s, e with
  | x :: s', y :: e' =>
    let '(equal, generics) := compare generics x y in
    if equal : bool then match_effect generics s' e' else (s, e, generics)
  | _, _ => (s, e, generics)
  end.

(** The types an effect pushes. *)
Fixpoint output_types (generics : Generics) (output : Typestack) : comp Typestack :=
  match output with
  | [] => mret []
  | type :: output =>
    type ← (if decide (ty_kind type ≠ TypeKind.Variable_) then mret type
      else match generics !! ty_var type with
           | Some t => mret t
           | None => error_fatal None "Couldn't deduce type variable"
           end);
    rest ← output_types generics output;
    mret (type :: rest)
  end.

(** [struct Error] *)
Inductive Error_Kind := Missing | Different_Types.

Record Deferred := mk_Deferred {
  effect_id : nat;
  err_kind : Error_Kind;
  err_effect : StackType;
  err_state : StackType;
}.

(** The second comparison of the rests, for the error messages; it takes the
    arguments in the other order.  Returns the rest of the effect if the stack
    ended first. *)
Fixpoint defer_errors (id : nat) (generics : Generics) (s e : Typestack) (matched : nat)
    : list Deferred * Typestack * nat :=
  match s, e with
  | x :: s', y :: e' =>
    let '(equal, generics) := compare generics y x in
    if equal : bool then defer_errors id generics s' e' (S matched)
    else
      let '(errors, rest, matched) := defer_errors id generics s' e' matched in
      (mk_Deferred id Different_Types y x :: errors, rest, matched)
  | _, _ => ([], e, matched)
  end.

(** The errors and the score of an effect that does not match. *)
Definition effect_errors (id : nat) (generics : Generics) (s e : Typestack) (matched : nat)
    : list Deferred * nat :=
  let '(errors, rest, matched) := defer_errors id generics s e matched in
  (errors ++ ((λ t, mk_Deferred id Missing t (Type_of_kind TypeKind.Int)) <$> rest), matched).

Definition describe_error (loc : Location) (err : Deferred) : comp unit :=
  match err_kind err with
  | Missing => info (Some loc) ("missing value of type `" +:+ type_name (err_effect err) +:+ "`")
  | Different_Types =>
    info (Some (ty_location (err_state err)))
      ("expected value of type `" +:+ type_name (err_effect err) +:+ "`. Found `"
       +:+ type_name (err_state err) +:+ "`")
  end.

(** The loop that prints the deferred errors of the best matching effects. *)
Fixpoint print_errors (effects : list Stack_Effect) (matching : list nat) (best : nat) (loc : Location)
    (errors : list Deferred) (last_effect_id : option nat) : comp unit :=
  match errors with
  | [] => mret tt
  | err :: errors =>
    score ← index matching (effect_id err);
    if decide (score ≠ best) then print_errors effects matching best loc errors last_effect_id
    else if decide (length effects ≠ 1%nat ∧ last_effect_id ≠ Some (effect_id err)) then
      effect ← index effects (effect_id err);
      text ← stack_effect_string effect;
      info None ("error trying to match: " +:+ text) ≫= λ _,
      describe_error loc err ≫= λ _,
      print_errors effects matching best loc errors (Some (effect_id err))
    else
      describe_error loc err ≫= λ _, print_errors effects matching best loc errors last_effect_id
  end.

(** The report after no effect has matched, which ends the compiler. *)
Definition report_mismatch {A} (effects : list Stack_Effect) (matching : list nat)
    (errors : list Deferred) (loc : Location) (operation_name : string) : comp A :=
  match matching with
  | [] => undefined
  | _ =>
    let best_match_score := foldr max 0%nat matching in
    error (Some loc) ("Invalid stack state for operation `" +:+ operation_name +:+ "`") ≫= λ _,
    print_errors effects matching best_match_score loc errors None ≫= λ _, ([], Exited)
  end.

(** The loop over the effects from [id] on: the first that matches is applied. *)
Fixpoint try_effects (all : list Stack_Effect) (id : nat) (effects : list Stack_Effect)
    (stack : Typestack) (loc : Location) (operation_name : string)
    (matching : list nat) (errors : list Deferred) : comp Typestack :=
  match effects with
  | [] => report_mismatch all matching errors loc operation_name
  | effect :: effects =>
    let '(s, e, generics) := match_effect ∅ (reverse stack) (reverse (input effect)) in
    match e with
    | [] =>
      out ← output_types generics (output effect);
      mret (take (length stack - length (input effect)) stack ++ out)
    | _ :: _ =>
      let matched := (length (input effect) - length e)%nat in
      let '(errs, matched) := effect_errors id generics s e matched in
      try_effects all (S id) effects stack loc operation_name (matching ++ [matched]) (errors ++ errs)
    end
  end.

(** [std::accumulate] of the smallest number of inputs, from [(unsigned long)-1]. *)
Definition minumum_number_of_arguments (effects : list Stack_Effect) : Z :=
  foldl (λ p v, Z.min p (Z.of_nat (length (input v)))) (2 ^ 64 - 1) effects.

Definition typecheck_stack_effects (stack : Typestack) (effects : list Stack_Effect) (loc : Location)
    (operation_name : string) : comp Typestack :=
  let n := minumum_number_of_arguments effects in
  if negb (n =? 0) && (Z.of_nat (length stack) <? n) then
    error_fatal (Some loc) ("`" +:+ operation_name +:+ "` requires miniumum " +:+ to_string n
      +:+ " argument" +:+ (if 1 <? n then "s"%string else ""%string) +:+ " on the stack")
  else try_effects effects 0 effects stack loc operation_name [] [].

(** ** The effects of the intrinsics *)

Module Type_DSL.
Definition Empty : Typestack := [].
Definition Any : Typestack := [Type_of_kind TypeKind.Any].
Definition Bool : Typestack := [Type_of_kind TypeKind.Bool].
Definition Int : Typestack := [Type_of_kind TypeKind.Int].
Definition Ptr : Typestack := [Type_of_kind TypeKind.Pointer].
Definition _1 : Typestack := [Type_var 1].
Definition _2 : Typestack := [Type_var 2].
Definition _3 : Typestack := [Type_var 3].
Definition _4 : Typestack := [Type_var 4].
Definition _5 : Typestack := [Type_var 5].
Definition _6 : Typestack := [Type_var 6].
Definition _7 : Typestack := [Type_var 7].
Definition _8 : Typestack := [Type_var 8].
Definition _9 : Typestack := [Type_var 9].

(** [operator>>] and [operator>=] *)
Definition then_ (lhs rhs : Typestack) : Typestack := lhs ++ rhs.
Definition gives (lhs rhs : Typestack) : Stack_Effect := mk_Effect lhs rhs.
End Type_DSL.

Notation "a >> b" := (Type_DSL.then_ a b) (at level 60, right associativity, only parsing) : stacky_scope.
Notation "a >= b" := (Type_DSL.gives a b) (at level 70, only parsing) : stacky_scope.

Section Effects.
  Import Type_DSL.
  Open Scope stacky_scope.

(** The effects listed for an intrinsic; [None] for the two that are handled on
    their own. *)
Definition intrinsic_effects (i : Intrinsic_Kind) : option (list Stack_Effect) :=
  match i with
  | Intrinsic.Drop => Some [Any >= Empty]
  | Intrinsic.Two_Drop => Some [Any >> Any >= Empty]
  | Intrinsic.Add => Some [Ptr >> Int >= Ptr; Int >> Ptr >= Ptr; Int >> Int >= Int]
  | Intrinsic.Subtract => Some [Ptr >> Ptr >= Int; Ptr >> Int >= Ptr; Int >> Int >= Int]
  | Intrinsic.Less | Intrinsic.Less_Eq | Intrinsic.Greater | Intrinsic.Greater_Eq
  | Intrinsic.Equal | Intrinsic.Not_Equal =>
    Some [Ptr >> Ptr >= Bool; Int >> Int >= Bool; Bool >> Bool >= Bool]
  | Intrinsic.Boolean_Negate => Some [Bool >= Bool]
  | Intrinsic.Boolean_And | Intrinsic.Boolean_Or => Some [Bool >> Bool >= Bool]
  | Intrinsic.Bitwise_And | Intrinsic.Bitwise_Or | Intrinsic.Bitwise_Xor
  | Intrinsic.Left_Shift | Intrinsic.Right_Shift | Intrinsic.Mul | Intrinsic.Div
  | Intrinsic.Mod | Intrinsic.Min | Intrinsic.Max => Some [Int >> Int >= Int]
  | Intrinsic.Div_Mod => Some [Int >> Int >= Int >> Int]
  | Intrinsic.Dup => Some [_1 >= _1 >> _1]
  | Intrinsic.Two_Dup => Some [_1 >> _2 >= _1 >> _2 >> _1 >> _2]
  | Intrinsic.Over => Some [_1 >> _2 >= _1 >> _2 >> _1]
  | Intrinsic.Two_Over => Some [_1 >> _2 >> _3 >> _4 >= _1 >> _2 >> _3 >> _4 >> _1 >> _2]
  | Intrinsic.Swap => Some [_1 >> _2 >= _2 >> _1]
  | Intrinsic.Two_Swap => Some [_1 >> _2 >> _3 >> _4 >= _3 >> _4 >> _1 >> _2]
  | Intrinsic.Tuck => Some [_1 >> _2 >= _2 >> _1 >> _2]
  | Intrinsic.Rot => Some [_1 >> _2 >> _3 >= _2 >> _3 >> _1]
  | Intrinsic.Argv => Some [Empty >= Ptr]
  | Intrinsic.Argc | Intrinsic.Random32 | Intrinsic.Random64 => Some [Empty >= Int]
  | Intrinsic.Load => Some [Ptr >= Int]
  | Intrinsic.Store => Some [Ptr >> Any >= Empty]
  | Intrinsic.Top => Some [_1 >= _1 >> Ptr]
  | Intrinsic.Syscall | Intrinsic.Call => None
  end.

(** The effect of a system call with [n] arguments. *)
Definition syscall_effect (n : nat) : Stack_Effect :=
  ((λ i, Type_var (Z.of_nat i)) <$> seq 1 n) >> Int >= Int.

Definition condition_effect : Stack_Effect := Bool >= Empty.
Definition cast_effect (type : StackType) : Stack_Effect := Any >= [type].

End Effects.

(** [op.token.sval.size() == 8 && op.token.sval[7] >= '0' && op.token.sval[7] <= '6'],
    and the number the digit stands for. *)
Definition syscall_count (sval : string) : option nat :=
  let s := chars sval in
  if decide (length s = 8%nat) then
    c ← s !! 7%nat;
    if (ord "0" <=? ord c) && (ord c <=? ord "6") then Some (Z.to_nat (ord c - ord "0")) else None
  else None.

(** The intrinsic [op] on a stack of types. *)
Definition typecheck_intrinsic (op : Operation) (stack : Typestack) : comp Typestack :=
  let loc := op_location op in
  let sval := tok_sval (op_token op) in
  match op_intrinsic op with
  | Intrinsic.Syscall =>
    match syscall_count sval with
    | Some n => typecheck_stack_effects stack [syscall_effect n] loc sval
    | None => unreachable "op.token.sval.size() == 8 && op.token.sval[7] >= '0' && op.token.sval[7] <= '6'"
    end
  | Intrinsic.Call => unreachable "unimplemented: Requires support for storing stack effects in types"
  | i =>
    match intrinsic_effects i with
    | Some effects => typecheck_stack_effects stack effects loc sval
    | None => undefined
    end
  end.

(** ** The exploration of a body *)

Record State := mk_State { stack : Typestack; ip : nat }.

Definition assert_jump (op : Operation) : comp nat :=
  assert_impl (negb (op_jump op =? Empty_Jump)) "op.jump != Operation::Empty_Jump" ≫= λ _,
  mret (Z.to_nat (op_jump op)).

Section Typecheck.
  Context (words : Words).

(** [ops[std::min(ip, (unsigned)ops.size() - 1)].location] is read before the
    verifier is called: undefined for an empty body. *)
Definition end_location (ops : list Operation) (i : nat) : comp Location :=
  op ← index ops (Nat.min i (length ops - 1)); mret (op_location op).

(** One round of the loop [while (!states.empty())] and, in [rec], those that
    follow it; [rec] also stands for the call of [typecheck] on the body of a
    dynamically typed function. *)
Definition typecheck_round
    (rec : list Operation → Output_Verifier → gmap nat Typestack → list State → comp Output_Verifier)
    (ops : list Operation) (verifier : Output_Verifier) (visited_do_ops : gmap nat Typestack)
    (states : list State) : comp Output_Verifier :=
  match states with
  | [] => mret verifier
  | s :: states =>
    let ops_end : comp Output_Verifier :=
      _ ← end_location ops (ip s);
      verifier ← verify_output verifier (stack s);
      rec ops verifier visited_do_ops states in
    let continue st i := rec ops verifier visited_do_ops (mk_State st i :: states) in
    match ops !! ip s with
    | None => ops_end
    | Some op =>
      let loc := op_location op in
      let sval := tok_sval (op_token op) in
      match op_kind op with
      | OpKind.Push_Int => continue (stack s ++ [with_location (op_type op) loc]) (S (ip s))
      | OpKind.Push_Symbol =>
        continue (stack s ++ [with_location (Type_of_kind TypeKind.Pointer) loc]) (S (ip s))
      | OpKind.Cast =>
        st ← typecheck_stack_effects (stack s) [cast_effect (op_type op)] loc sval;
        continue st (S (ip s))
      | OpKind.If =>
        st ← typecheck_stack_effects (stack s) [condition_effect] loc sval;
        jump ← assert_jump op;
        rec ops verifier visited_do_ops
          (mk_State st jump :: mk_State st (S (ip s)) :: states)
      | OpKind.Else | OpKind.End => jump ← assert_jump op; continue (stack s) jump
      | OpKind.While => continue (stack s) (S (ip s))
      | OpKind.Do =>
        st ← typecheck_stack_effects (stack s) [condition_effect] loc sval;
        match visited_do_ops !! ip s with
        | Some expected =>
          match mismatch st expected with
          | ([], []) => rec ops verifier visited_do_ops states
          | _ => error_fatal (Some loc) "Loop differs stack"
          end
        | None =>
          jump ← assert_jump op;
          rec ops verifier (<[ip s := st]> visited_do_ops)
            (mk_State st (S (ip s)) :: mk_State st jump :: states)
        end
      | OpKind.Call_Symbol =>
        match op_word op with
        | None => unreachable "op.word"
        | Some name =>
          match words !! name with
          | None => undefined
          | Some word =>
            if w_is_dynamically_typed word then
              v ← rec (w_function_body word) (Dynamic_Output None) ∅
                [mk_State (stack s) 0];
              match v with
              | Dynamic_Output (Some st) => continue st (S (ip s))
              | _ => continue (stack s) (S (ip s))
              end
            else
              ensure_fatal (w_has_effect word) (Some (tok_location (op_token op)))
                ("cannot typecheck word `" +:+ op_sval op +:+ "` without stack effect") ≫= λ _,
              st ← typecheck_stack_effects (stack s) [w_effect word] loc (w_function_name word);
              continue st (S (ip s))
          end
        end
      | OpKind.Return => ops_end
      | OpKind.Intrinsic =>
        st ← typecheck_intrinsic op (stack s);
        continue st (S (ip s))
      end
    end
  end.

(** [fuel] bounds the number of rounds together with the depth of the calls of
    dynamically typed functions. *)
Fixpoint typecheck_loop (fuel : nat) (ops : list Operation) (verifier : Output_Verifier)
    (visited_do_ops : gmap nat Typestack) (states : list State) : comp Output_Verifier :=
  match fuel with
  | O => out_of_fuel
  | S fuel => typecheck_round (typecheck_loop fuel) ops verifier visited_do_ops states
  end.

(** [typecheck(geninfo, ops)] and [typecheck(geninfo, word)]. *)
Definition typecheck_main (fuel : nat) (ops : list Operation) : comp unit :=
  typecheck_loop fuel ops (Expected_Output []) ∅ [mk_State [] 0] ≫= λ _, mret tt.

Definition typecheck_word (fuel : nat) (word : Word) : comp unit :=
  typecheck_loop fuel (w_function_body word) (Expected_Output (output (w_effect word))) ∅
    [mk_State (input (w_effect word)) 0] ≫= λ _, mret tt.

End Typecheck.
