(* ===== verification/Semantics.v ===== *)
(** * Reference semantics of operations

    What the operations of a compiled program do to the stack of 64-bit values,
    independently of types and of assembly.  It follows the code that
    [linux-x86_64.cc] emits for each operation (unsigned comparisons and
    division, shift counts modulo 64, arithmetic right shift); the type checker,
    the optimizer and the code generator are each related to it.

    A stack of values is a list with its top first. *)

From S2P Require Import Prelude Syntax.

Open Scope Z_scope.

(** ** Intrinsics *)

(** What an intrinsic makes of a stack: a new stack, a processor exception
    (division by zero), or a read below the stack. *)
Inductive outcome := Next (st : list Z) | Trap | Underflow.

Definition binary (f : Z → Z → Z) (st : list Z) : outcome :=
  match st with b :: a :: st => Next (f a b :: st) | _ => Underflow end.

Definition comparison (f : Z → Z → bool) : list Z → outcome := binary (λ a b, Z.b2z (f a b)).

(** Division of the second value by the top one. *)
Definition division (f : Z → Z → list Z) (st : list Z) : outcome :=
  match st with
  | b :: a :: st => if b =? 0 then Trap else Next (f a b ++ st)
  | _ => Underflow
  end.

(** The intrinsics whose result depends on the stack only. *)
Definition stack_intrinsic (i : Intrinsic_Kind) : option (list Z → outcome) :=
  match i with
  | Intrinsic.Add => Some (binary (λ a b, u64 (a + b)))
  | Intrinsic.Subtract => Some (binary (λ a b, u64 (a - b)))
  | Intrinsic.Mul => Some (binary (λ a b, u64 (a * b)))
  | Intrinsic.Bitwise_And => Some (binary Z.land)
  | Intrinsic.Bitwise_Or => Some (binary Z.lor)
  | Intrinsic.Bitwise_Xor => Some (binary Z.lxor)
  | Intrinsic.Left_Shift => Some (binary (λ a b, u64 (Z.shiftl a (b mod 64))))
  | Intrinsic.Right_Shift => Some (binary (λ a b, u64 (Z.shiftr (i64 a) (b mod 64))))
  | Intrinsic.Min => Some (binary Z.min)
  | Intrinsic.Max => Some (binary Z.max)
  | Intrinsic.Boolean_And => Some (comparison (λ a b, negb (Z.land a b =? 0)))
  | Intrinsic.Boolean_Or => Some (comparison (λ a b, negb (Z.lor a b =? 0)))
  | Intrinsic.Boolean_Negate =>
    Some (λ st, match st with a :: st => Next (Z.b2z (a =? 0) :: st) | _ => Underflow end)
  | Intrinsic.Div => Some (division (λ a b, [a / b]))
  | Intrinsic.Mod => Some (division (λ a b, [a mod b]))
  | Intrinsic.Div_Mod => Some (division (λ a b, [a / b; a mod b]))
  | Intrinsic.Equal => Some (comparison Z.eqb)
  | Intrinsic.Not_Equal => Some (comparison (λ a b, negb (a =? b)))
  | Intrinsic.Less => Some (comparison Z.ltb)
  | Intrinsic.Less_Eq => Some (comparison Z.leb)
  | Intrinsic.Greater => Some (comparison Z.gtb)
  | Intrinsic.Greater_Eq => Some (comparison Z.geb)
  | Intrinsic.Drop => Some (λ st, match st with _ :: st => Next st | _ => Underflow end)
  | Intrinsic.Two_Drop => Some (λ st, match st with _ :: _ :: st => Next st | _ => Underflow end)
  | Intrinsic.Dup => Some (λ st, match st with a :: st => Next (a :: a :: st) | _ => Underflow end)
  | Intrinsic.Two_Dup =>
    Some (λ st, match st with b :: a :: st => Next (b :: a :: b :: a :: st) | _ => Underflow end)
  | Intrinsic.Over =>
    Some (λ st, match st with b :: a :: st => Next (a :: b :: a :: st) | _ => Underflow end)
  | Intrinsic.Two_Over =>
    Some (λ st, match st with
      | d :: c :: b :: a :: st => Next (b :: a :: d :: c :: b :: a :: st) | _ => Underflow end)
  | Intrinsic.Swap =>
    Some (λ st, match st with b :: a :: st => Next (a :: b :: st) | _ => Underflow end)
  | Intrinsic.Two_Swap =>
    Some (λ st, match st with
      | d :: c :: b :: a :: st => Next (b :: a :: d :: c :: st) | _ => Underflow end)
  | Intrinsic.Tuck =>
    Some (λ st, match st with b :: a :: st => Next (b :: a :: b :: st) | _ => Underflow end)
  | Intrinsic.Rot =>
    Some (λ st, match st with c :: b :: a :: st => Next (a :: c :: b :: st) | _ => Underflow end)
  | Intrinsic.Random32 | Intrinsic.Random64 | Intrinsic.Load | Intrinsic.Store | Intrinsic.Top
  | Intrinsic.Call | Intrinsic.Argv | Intrinsic.Argc | Intrinsic.Syscall => None
  end.

(** The intrinsics that read memory, registers or the system: the number of
    values they take and whether they leave one, which can be any.  The number
    of arguments of a system call is a part of its name. *)
Definition environment_intrinsic (i : Intrinsic_Kind) (syscall_arguments : option nat) : option (nat * nat) :=
  match i with
  | Intrinsic.Random32 | Intrinsic.Random64 | Intrinsic.Argv | Intrinsic.Argc => Some (0, 1)%nat
  | Intrinsic.Load => Some (1, 1)%nat
  | Intrinsic.Store => Some (2, 0)%nat
  | Intrinsic.Top => Some (0, 1)%nat
  | Intrinsic.Syscall => n ← syscall_arguments; Some (S n, 1)%nat
  | _ => None
  end.

(** ** Programs *)

(** A body and the index of the next operation of it. *)
Record frame := mk_frame { f_body : list Operation; f_ip : nat }.

Inductive config :=
  | Running (frames : list frame) (st : list Z)
  | Halted (st : list Z)
  | Trapped.

(** What a return from the innermost frame leaves. *)
Definition returned (frames : list frame) (st : list Z) : config :=
  match frames with [] => Halted st | _ => Running frames st end.

Section Steps.
  Context (words : Words) (syscall_arguments : Operation → option nat).

(** One operation of the innermost frame. Symbols have some address. *)
Inductive step : config → config → Prop :=
  | S_push_int body i op fs st :
      body !! i = Some op → op_kind op = OpKind.Push_Int →
      step (Running (mk_frame body i :: fs) st)
           (Running (mk_frame body (S i) :: fs) (u64 (op_ival op) :: st))
  | S_push_symbol body i op fs st address :
      body !! i = Some op → op_kind op = OpKind.Push_Symbol → is_u64 address →
      step (Running (mk_frame body i :: fs) st)
           (Running (mk_frame body (S i) :: fs) (address :: st))
  | S_skip body i op fs st :
      body !! i = Some op → op_kind op = OpKind.Cast ∨ op_kind op = OpKind.While →
      step (Running (mk_frame body i :: fs) st) (Running (mk_frame body (S i) :: fs) st)
  | S_branch body i op fs st c :
      body !! i = Some op → op_kind op = OpKind.If ∨ op_kind op = OpKind.Do →
      step (Running (mk_frame body i :: fs) (c :: st))
           (Running (mk_frame body (if c =? 0 then Z.to_nat (op_jump op) else S i) :: fs) st)
  | S_jump body i op fs st :
      body !! i = Some op → op_kind op = OpKind.Else ∨ op_kind op = OpKind.End →
      step (Running (mk_frame body i :: fs) st)
           (Running (mk_frame body (Z.to_nat (op_jump op)) :: fs) st)
  | S_call body i op fs st name w :
      body !! i = Some op → op_kind op = OpKind.Call_Symbol →
      op_word op = Some name → words !! name = Some w →
      step (Running (mk_frame body i :: fs) st)
           (Running (mk_frame (w_function_body w) 0 :: mk_frame body (S i) :: fs) st)
  | S_return body i op fs st :
      body !! i = Some op → op_kind op = OpKind.Return →
      step (Running (mk_frame body i :: fs) st) (returned fs st)
  | S_end body i fs st :
      body !! i = None →
      step (Running (mk_frame body i :: fs) st) (returned fs st)
  | S_intrinsic body i op fs st f st' :
      body !! i = Some op → op_kind op = OpKind.Intrinsic →
      stack_intrinsic (op_intrinsic op) = Some f → f st = Next st' →
      step (Running (mk_frame body i :: fs) st) (Running (mk_frame body (S i) :: fs) st')
  | S_trap body i op fs st f :
      body !! i = Some op → op_kind op = OpKind.Intrinsic →
      stack_intrinsic (op_intrinsic op) = Some f → f st = Trap →
      step (Running (mk_frame body i :: fs) st) Trapped
  | S_environment body i op fs st taken left results :
      body !! i = Some op → op_kind op = OpKind.Intrinsic →
      environment_intrinsic (op_intrinsic op) (syscall_arguments op) = Some (taken, left) →
      (taken ≤ length st)%nat → length results = left → Forall is_u64 results →
      step (Running (mk_frame body i :: fs) st)
           (Running (mk_frame body (S i) :: fs) (results ++ drop taken st)).

Definition steps : config → config → Prop := rtc step.

End Steps.

(** ** Lemmas *)

(** Results of intrinsics are 64-bit values. *)
Definition values_ok (st : list Z) : Prop := Forall is_u64 st.

Lemma is_u64_b2z b : is_u64 (Z.b2z b).
Proof. destruct b; unfold is_u64; simpl; lia. Qed.

Lemma is_u64_bits f a b :
  (∀ n, Z.testbit (f a b) n = true → Z.testbit a n || Z.testbit b n = true) → 0 <= f a b →
  is_u64 a → is_u64 b → is_u64 (f a b).
Proof.
  intros Hf Hpos Ha Hb. split; [done|]. destruct (decide (f a b = 0)) as [->|Hne]; [lia|].
  destruct (decide (f a b < 2 ^ 64)); [done|].
  assert (64 <= Z.log2 (f a b)) as Hlog by (apply Z.log2_le_pow2; lia).
  assert (Z.testbit (f a b) (Z.log2 (f a b)) = true) as Hbit by (apply Z.bit_log2; lia).
  assert (∀ c, is_u64 c → Z.testbit c (Z.log2 (f a b)) = false) as Hno.
  { intros c [Hc1 Hc2]. destruct (decide (c = 0)) as [->|]; [apply Z.bits_0|].
    apply Z.bits_above_log2; [done|]. assert (Z.log2 c < 64) by (apply Z.log2_lt_pow2; lia). lia. }
  apply Hf in Hbit. by rewrite (Hno a), (Hno b) in Hbit.
Qed.

Lemma is_u64_land a b : is_u64 a → is_u64 b → is_u64 (Z.land a b).
Proof.
  intros Ha Hb. apply is_u64_bits; [|apply Z.land_nonneg; left; apply Ha|done|done].
  intros n. rewrite Z.land_spec. by destruct (Z.testbit a n).
Qed.

Lemma is_u64_lor a b : is_u64 a → is_u64 b → is_u64 (Z.lor a b).
Proof.
  intros Ha Hb. apply is_u64_bits; [|apply Z.lor_nonneg; split; [apply Ha|apply Hb]|done|done].
  intros n. by rewrite Z.lor_spec.
Qed.

Lemma is_u64_lxor a b : is_u64 a → is_u64 b → is_u64 (Z.lxor a b).
Proof.
  intros Ha Hb. apply is_u64_bits; [| |done|done].
  - intros n. rewrite Z.lxor_spec. by destruct (Z.testbit a n), (Z.testbit b n).
  - apply Z.lxor_nonneg. destruct Ha, Hb. tauto.
Qed.

Lemma is_u64_div a b : is_u64 a → is_u64 b → b ≠ 0 → is_u64 (a / b).
Proof.
  intros [Ha1 Ha2] [Hb1 Hb2] Hb. split; [apply Z.div_pos; lia|].
  apply Z.div_lt_upper_bound; [lia|]. nia.
Qed.

Lemma is_u64_mod a b : is_u64 a → is_u64 b → b ≠ 0 → is_u64 (a mod b).
Proof. intros [Ha1 Ha2] [Hb1 Hb2] Hb. pose proof (Z.mod_pos_bound a b). unfold is_u64. lia. Qed.

#[export] Hint Resolve is_u64_b2z is_u64_land is_u64_lor is_u64_lxor is_u64_div is_u64_mod : stacky.

Lemma stack_intrinsic_u64 i f st st' :
  stack_intrinsic i = Some f → values_ok st → f st = Next st' → values_ok st'.
Proof.
  unfold values_ok. intros Hi Hst.
  destruct i; simpl in Hi; simplify_eq; unfold comparison, binary, division; intros H;
    repeat match goal with
    | H : Forall is_u64 (_ :: _) |- _ => apply Forall_cons in H as [? H]
    | H : context [match ?s with [] => _ | _ => _ end] |- _ => is_var s; destruct s; try done
    | H : context [if ?x =? 0 then _ else _] |- _ => destruct (Z.eqb_spec x 0); try done
    | H : Next _ = Next _ |- _ => injection H as <-
    end; simpl; rewrite ?Forall_cons; split_and?; auto with stacky; unfold is_u64 in *; lia.
Qed.
