(* ===== verification/TypeSound.v ===== *)
(** * Soundness of the type checker

    A program the type checker accepts never reads below its stack and ends
    with an empty one.  The link between the exploration of types and the
    execution of values is a certificate of heights: a set of pairs of an index
    and a height that is closed under the steps of the body. *)

From S2P Require Import Prelude Syntax Errors TypeNames Types Semantics.

Open Scope Z_scope.

(** ** Stack effects and heights *)

Definition shaped (n m : nat) (e : Stack_Effect) : Prop :=
  length (input e) = n ∧ length (output e) = m.

Lemma match_effect_length generics s e s' generics' :
  match_effect generics s e = (s', [], generics') → (length e ≤ length s)%nat.
Proof.
  revert generics e. induction s as [|x s IH]; intros generics [|y e]; simpl; try done; [lia|].
  destruct (compare generics x y) as [[] g]; [|done]. intros H%IH. lia.
Qed.

Lemma output_types_length generics out l ts :
  output_types generics out = (l, Done ts) → length ts = length out.
Proof.
  revert l ts. induction out as [|t out IH]; intros l ts; cbn [output_types].
  { by intros [= <- <-]. }
  intros H. apply bind_Done in H as (? & t' & ? & _ & H & _).
  apply bind_Done in H as (? & r & ? & Hr & [= <- <-] & _). simpl. by rewrite (IH _ _ Hr).
Qed.

Lemma report_mismatch_exits {A} effects matching errors loc name l (a : A) :
  report_mismatch effects matching errors loc name = (l, Done a) → False.
Proof.
  unfold report_mismatch. destruct matching; [done|]. intros H.
  apply bind_Done in H as (? & ? & ? & _ & H & _). by apply bind_Done in H as (? & ? & ? & _ & H & _).
Qed.

Lemma try_effects_height n m all effects st loc name :
  Forall (shaped n m) effects → ∀ id matching errors l st',
  try_effects all id effects st loc name matching errors = (l, Done st') →
  (n ≤ length st)%nat ∧ length st' = (length st - n + m)%nat.
Proof.
  induction 1 as [|e effects [Hn Hm] _ IH]; intros id matching errors l st'; cbn [try_effects].
  { by intros ?%report_mismatch_exits. }
  destruct (match_effect ∅ (reverse st) (reverse (input e))) as [[s rest] g] eqn:Hmatch.
  destruct rest as [|t rest].
  - intros H. apply bind_Done in H as (? & out & ? & Hout & [= <- <-] & _).
    apply match_effect_length in Hmatch. rewrite !length_reverse in Hmatch.
    apply output_types_length in Hout. rewrite length_app, length_take. lia.
  - destruct (effect_errors id g s (t :: rest) _) as [errs k]. apply IH.
Qed.

(** An operation whose effects all have [n] inputs and [m] outputs takes [n]
    values and leaves [m]. *)
Lemma typecheck_stack_effects_height n m effects st loc name l st' :
  Forall (shaped n m) effects →
  typecheck_stack_effects st effects loc name = (l, Done st') →
  (n ≤ length st)%nat ∧ length st' = (length st - n + m)%nat.
Proof.
  intros Hs. unfold typecheck_stack_effects. case_match; [done|]. by apply try_effects_height.
Qed.

(** The heights of an intrinsic. *)
Definition intrinsic_shape (op : Operation) : option (nat * nat) :=
  match op_intrinsic op with
  | Intrinsic.Syscall => n ← syscall_count (tok_sval (op_token op)); Some (S n, 1)%nat
  | i =>
    match intrinsic_effects i with
    | Some (e :: _) => Some (length (input e), length (output e))
    | _ => None
    end
  end.

Lemma intrinsic_effects_shaped i effects :
  intrinsic_effects i = Some effects →
  match effects with
  | [] => False
  | e :: _ => Forall (shaped (length (input e)) (length (output e))) effects
  end.
Proof. destruct i; intros [= <-]; by repeat constructor. Qed.

Lemma typecheck_intrinsic_height op st l st' :
  typecheck_intrinsic op st = (l, Done st') →
  ∃ n m, intrinsic_shape op = Some (n, m) ∧ (n ≤ length st)%nat ∧ length st' = (length st - n + m)%nat.
Proof.
  unfold typecheck_intrinsic, intrinsic_shape. cbv zeta.
  destruct (op_intrinsic op) eqn:Hi;
    try (intros H; eexists _, _; split; [done|];
         eapply typecheck_stack_effects_height; [|exact H]; by repeat constructor); try done.
  destruct (syscall_count _) as [n|]; [|done]. intros H. exists (S n), 1%nat. split; [done|].
  eapply typecheck_stack_effects_height; [|exact H]. constructor; [|constructor].
  split; [|done]. simpl. rewrite length_app, length_fmap, length_seq. simpl. lia.
Qed.

(** The heights of the table are those of the reference semantics. *)
Lemma stack_intrinsic_height op f n m st :
  stack_intrinsic (op_intrinsic op) = Some f → intrinsic_shape op = Some (n, m) → (n ≤ length st)%nat →
  f st = Trap ∨ ∃ st', f st = Next st' ∧ length st' = (length st - n + m)%nat.
Proof.
  unfold intrinsic_shape. intros Hf Hs.
  destruct (op_intrinsic op); simpl in Hf; simplify_eq; simpl in Hs; simplify_eq; intros Hn;
    unfold comparison, binary, division;
    repeat (destruct st as [|? st]; [simpl in Hn; lia|]; simpl in Hn);
    try (case_match; [by left|]); try (right; eexists; split; [done|]; simpl; lia);
    simpl in *; right; eexists; split; try done; simpl; lia.
Qed.

Lemma environment_intrinsic_height op n m :
  stack_intrinsic (op_intrinsic op) = None → intrinsic_shape op = Some (n, m) →
  ∃ taken left, environment_intrinsic (op_intrinsic op) (syscall_count (tok_sval (op_token op)))
    = Some (taken, left) ∧ (taken ≤ n)%nat ∧ (n - taken + left = m)%nat.
Proof.
  unfold intrinsic_shape. intros Hf Hs.
  destruct (op_intrinsic op); simpl in Hf; simplify_eq; simpl in Hs; simplify_eq; simpl;
    try (eexists _, _; split; [done|]; simpl; lia).
Qed.

(** ** Certificates of heights *)

Section Certificates.
  Context (words : Words).

(** What has to hold at index [i] of a body with [h] values on the stack, when
    the next points have to be in [E], a call of a dynamically typed function
    that takes the height from [a] to [b] satisfies [P], and the body is to end
    with [hout] values. *)
Definition point_ok (P : list Operation → nat → nat → Prop) (E : nat → nat → Prop)
    (ops : list Operation) (hout i h : nat) : Prop :=
  match ops !! i with
  | None => h = hout
  | Some op =>
    match op_kind op with
    | OpKind.Push_Int | OpKind.Push_Symbol => E (S i) (S h)
    | OpKind.Cast | OpKind.While => E (S i) h
    | OpKind.If | OpKind.Do => ∃ h', h = S h' ∧ E (S i) h' ∧ E (Z.to_nat (op_jump op)) h'
    | OpKind.Else | OpKind.End => E (Z.to_nat (op_jump op)) h
    | OpKind.Return => h = hout
    | OpKind.Intrinsic =>
      ∃ n m, intrinsic_shape op = Some (n, m) ∧ (n ≤ h)%nat ∧ E (S i) (h - n + m)%nat
    | OpKind.Call_Symbol =>
      ∃ name w, op_word op = Some name ∧ words !! name = Some w ∧
        if w_is_dynamically_typed w
        then ∃ h', P (w_function_body w) h h' ∧ E (S i) h'
        else w_has_effect w = true ∧ (length (input (w_effect w)) ≤ h)%nat ∧
          E (S i) (h - length (input (w_effect w)) + length (output (w_effect w)))%nat
    end
  end.

(** A certificate of a body, with calls of dynamically typed functions up to a
    depth. *)
Definition closed_under (P : list Operation → nat → nat → Prop) (ops : list Operation) (hout : nat)
    (E : nat → nat → Prop) : Prop :=
  ∀ i h, E i h → point_ok P E ops hout i h.

Fixpoint body_ok (depth : nat) (ops : list Operation) (hin hout : nat) : Prop :=
  ∃ E, E 0%nat hin ∧
    closed_under match depth with O => λ _ _ _, False | S d => body_ok d end ops hout E.

(** Calls of dynamically typed functions that a certificate of some depth
    covers. *)
Definition dynamic_ok (ops : list Operation) (hin hout : nat) : Prop :=
  ∃ depth, body_ok depth ops hin hout.

Lemma point_ok_mono (P P' : list Operation → nat → nat → Prop) (E E' : nat → nat → Prop) ops hout i h :
  (∀ ops a b, P ops a b → P' ops a b) → (∀ i h, E i h → E' i h) →
  point_ok P E ops hout i h → point_ok P' E' ops hout i h.
Proof.
  intros HP HE. unfold point_ok. destruct (ops !! i) as [op|]; [|done].
  destruct (op_kind op); auto; try (naive_solver; fail).
  intros (name & w & Hn & Hw & H). exists name, w. split; [done|]. split; [done|].
  destruct (w_is_dynamically_typed w); naive_solver.
Qed.

Lemma body_ok_S depth ops hin hout : body_ok depth ops hin hout → body_ok (S depth) ops hin hout.
Proof.
  revert ops hin hout. induction depth as [|d IH]; intros ops hin hout (E & H0 & HE).
  - exists E. split; [done|]. intros i h Hi. eapply point_ok_mono; [|done|by apply HE]. done.
  - exists E. split; [done|]. intros i h Hi. eapply point_ok_mono; [|done|by apply HE]. exact IH.
Qed.

Lemma body_ok_le depth depth' ops hin hout :
  (depth ≤ depth')%nat → body_ok depth ops hin hout → body_ok depth' ops hin hout.
Proof. induction 1; [done|]. intros. apply body_ok_S. auto. Qed.

(** ** From the exploration to a certificate *)

Definition verifier_height (v : Output_Verifier) : option nat :=
  match v with
  | Expected_Output output => Some (length output)
  | Dynamic_Output received => length <$> received
  end.

(** A height the verifier would accept at the end of the body. *)
Definition accepts (v : Output_Verifier) (h : nat) : Prop :=
  match verifier_height v with Some h' => h = h' | None => True end.

Lemma mismatch_length a b : mismatch a b = ([], []) → length a = length b.
Proof.
  revert b. induction a as [|x a IH]; intros [|y b]; simpl; try done.
  case_match; [|done]. intros Hl%IH. by rewrite Hl.
Qed.

Lemma excess_data_exits rstack start l u : excess_data rstack start = (l, Done u) → False.
Proof.
  unfold excess_data. destruct rstack; [done|]. intros H.
  apply bind_Done in H as (? & ? & ? & _ & H & _). apply bind_Done in H as (? & ? & ? & _ & H & _).
  by apply bind_Done in H as (? & ? & ? & _ & H & _).
Qed.

Lemma missing_data_exits start l u : missing_data start = (l, Done u) → False.
Proof.
  unfold missing_data. intros H.
  apply bind_Done in H as (? & ? & ? & _ & H & _). apply bind_Done in H as (? & ? & ? & _ & H & _).
  by apply bind_Done in H as (? & ? & ? & _ & H & _).
Qed.

Lemma expected_output_verifier_length output st l u :
  expected_output_verifier output st = (l, Done u) → length st = length output.
Proof.
  unfold expected_output_verifier. cbv zeta. destruct st as [|x st], output as [|y output]; try done.
  - by intros ?%missing_data_exits.
  - by intros ?%excess_data_exits.
  - destruct (mismatch (reverse (x :: st)) (reverse (y :: output))) as [stk exp] eqn:Hm.
    destruct stk, exp; try (by intros ?%missing_data_exits); try (by intros ?%excess_data_exits).
    intros _. apply mismatch_length in Hm. by rewrite !length_reverse in Hm.
Qed.

(** What a verifier can become. *)
Definition extends (v v' : Output_Verifier) : Prop :=
  match v with
  | Dynamic_Output None => ∃ received, v' = Dynamic_Output received
  | _ => v' = v
  end.

Lemma extends_refl v : extends v v.
Proof. destruct v as [|[|]]; simpl; eauto. Qed.

Lemma extends_trans v1 v2 v3 : extends v1 v2 → extends v2 v3 → extends v1 v3.
Proof.
  destruct v1 as [|[|]]; simpl; [by intros -> ->|by intros -> ->|].
  intros [[|] ->]; simpl; [|done]. intros ->. eauto.
Qed.

Lemma extends_height v v' h :
  extends v v' → verifier_height v = Some h → verifier_height v' = Some h.
Proof. by destruct v as [|[|]]; simpl; [intros ->..|]. Qed.

Lemma verify_output_height v st l v' :
  verify_output v st = (l, Done v') → extends v v' ∧ verifier_height v' = Some (length st).
Proof.
  unfold verify_output. destruct v as [output|[output|]]; simpl.
  - intros H. apply bind_Done in H as (? & ? & ? & H & [= <- <-] & _).
    apply expected_output_verifier_length in H as ->. done.
  - intros H. apply bind_Done in H as (? & ? & ? & H & [= <- <-] & _).
    apply expected_output_verifier_length in H as ->. done.
  - intros [= <- <-]. eauto.
Qed.

(** The points a visit to one of the loops [visited] stands for: the body and
    the exit of the loop were explored with that stack. *)
Definition revisited (ops : list Operation) (visited : gmap nat Typestack) (i h : nat) : Prop :=
  ∃ d st op, visited !! d = Some st ∧ ops !! d = Some op ∧ h = length st ∧
    (i = S d ∨ i = Z.to_nat (op_jump op)).

(** The points of [E], those already explored, and the one being explored. *)
Definition explored (ops : list Operation) (visited : gmap nat Typestack) (E : nat → nat → Prop)
    (i h : nat) : Prop := E i h ∨ revisited ops visited i h.

(** The result of the exploration of [states]. *)
Definition certified (depth : nat) (ops : list Operation) (visited : gmap nat Typestack)
    (states : list State) (v v' : Output_Verifier) : Prop :=
  extends v v' ∧
  ∃ E : nat → nat → Prop,
    (∀ s, s ∈ states → E (ip s) (length (stack s))) ∧
    ∀ hout, accepts v' hout →
      ∀ i h, E i h → point_ok (body_ok depth) (explored ops visited E) ops hout i h.

Lemma certified_step depth ops visited visited' (s : State) states states' v v' :
  certified depth ops visited' (states' ++ states) v v' →
  (∀ (E : nat → nat → Prop) hout, (∀ s, s ∈ states' ++ states → E (ip s) (length (stack s))) →
    accepts v' hout → point_ok (body_ok depth) (explored ops visited E) ops hout (ip s) (length (stack s))) →
  (∀ (E : nat → nat → Prop) i h, (∀ s, s ∈ states' ++ states → E (ip s) (length (stack s))) →
    explored ops visited' E i h → explored ops visited E i h) →
  certified depth ops visited (s :: states) v v'.
Proof.
  intros [Hv (E & Hs & HE)] Hpoint Hvisited. split; [done|].
  exists (λ i h, E i h ∨ (i = ip s ∧ h = length (stack s))). split.
  { intros s' [->|Hin]%elem_of_cons; [by right|]. left. apply Hs. apply elem_of_app. by right. }
  intros hout Hout. assert (∀ i h, explored ops visited E i h →
    explored ops visited (λ i h, E i h ∨ (i = ip s ∧ h = length (stack s))) i h) as Hmono.
  { intros i h [?|?]; [by left; left|by right]. }
  intros i h [Hi|[-> ->]].
  - eapply point_ok_mono; [done| |by apply HE]. intros j k Hj. apply Hmono. by apply Hvisited.
  - eapply point_ok_mono; [done|apply Hmono|by apply Hpoint].
Qed.

Lemma certified_nil depth ops visited v : certified depth ops visited [] v v.
Proof. split; [apply extends_refl|]. exists (λ _ _, False). split; [|done]. by intros s Hs%elem_of_nil. Qed.

Lemma point_ok_depth d d' E ops hout i h :
  (d ≤ d')%nat → point_ok (body_ok d) E ops hout i h → point_ok (body_ok d') E ops hout i h.
Proof. intros Hd. apply point_ok_mono; [|done]. intros *. by apply body_ok_le. Qed.

Lemma certified_depth d d' ops visited states v v' :
  (d ≤ d')%nat → certified d ops visited states v v' → certified d' ops visited states v v'.
Proof.
  intros Hd [Hv (E & Hs & HE)]. split; [done|]. exists E. split; [done|].
  intros hout Hout i h Hi. by eapply point_ok_depth, HE.
Qed.

(** A step to one next state with the same loops visited. *)
Lemma certified_continue depth ops visited s states st i v v' :
  certified depth ops visited (mk_State st i :: states) v v' →
  (∀ E hout, accepts v' hout → E i (length st) →
    point_ok (body_ok depth) E ops hout (ip s) (length (stack s))) →
  certified depth ops visited (s :: states) v v'.
Proof.
  intros Hc Hp. eapply (certified_step _ _ _ _ _ _ [mk_State st i]); [exact Hc| |done].
  intros E hout Hs Hout. apply Hp; [done|]. left. apply (Hs (mk_State st i)). apply elem_of_app.
  left. by apply list_elem_of_singleton.
Qed.

(** The state ends here. *)
Lemma certified_end depth ops visited s states v v1 v' l :
  certified depth ops visited states v1 v' →
  verify_output v (stack s) = (l, Done v1) →
  (∀ P E hout, hout = length (stack s) → point_ok P E ops hout (ip s) (length (stack s))) →
  certified depth ops visited (s :: states) v v'.
Proof.
  intros [Hv Hc] Hver Hp. apply verify_output_height in Hver as [Ha Hh].
  apply (certified_step _ _ _ visited _ _ []); [|..].
  - split; [by eapply extends_trans|exact Hc].
  - intros E hout Hs Hout. apply Hp. unfold accepts in Hout. by rewrite (extends_height _ _ _ Hv Hh) in Hout.
  - done.
Qed.

Lemma certified_body depth ops st v v' hout :
  certified depth ops ∅ [mk_State st 0] v v' → accepts v' hout →
  body_ok (S depth) ops (length st) hout.
Proof.
  intros [_ (E & Hs & HE)] Hout. exists E. split.
  { apply (Hs (mk_State st 0)). by apply list_elem_of_singleton. }
  intros i h Hi. eapply point_ok_mono; [done| |by apply HE].
  intros j k [?|(d & ? & ? & Hd & _)]; [done|]. by rewrite lookup_empty in Hd.
Qed.

Lemma assert_jump_Done op l j : assert_jump op = (l, Done j) → j = Z.to_nat (op_jump op).
Proof. intros H. by apply bind_Done in H as (? & ? & ? & _ & [= _ <-] & _). Qed.

Lemma condition_height st loc name l st' :
  typecheck_stack_effects st [condition_effect] loc name = (l, Done st') →
  length st = S (length st').
Proof.
  intros H. apply (typecheck_stack_effects_height 1 0) in H; [lia|by repeat constructor].
Qed.

(** A visited loop: the state is dropped. *)
Lemma certified_revisit depth ops visited s states op (st expected : Typestack) v v' :
  certified depth ops visited states v v' →
  ops !! ip s = Some op → op_kind op = OpKind.Do → length (stack s) = S (length st) →
  visited !! ip s = Some expected → length st = length expected →
  certified depth ops visited (s :: states) v v'.
Proof.
  intros Hc Hop Hk Hst Hvis Hlen. apply (certified_step _ _ _ visited _ _ []); [done| |done].
  intros E hout Hs Hout. unfold point_ok. rewrite Hop, Hk. exists (length st). split; [done|].
  split; right; exists (ip s), expected, op; auto.
Qed.

(** A branch: both ways are explored. *)
Lemma certified_branch depth ops visited visited' s states op (st : Typestack) s1 s2 v v' :
  certified depth ops visited' (s1 :: s2 :: states) v v' →
  ops !! ip s = Some op → op_kind op = OpKind.If ∨ op_kind op = OpKind.Do →
  length (stack s) = S (length st) → stack s1 = st → stack s2 = st →
  [ip s1; ip s2] ≡ₚ [S (ip s); Z.to_nat (op_jump op)] →
  visited' = visited ∨ visited' = <[ip s := st]> visited →
  certified depth ops visited (s :: states) v v'.
Proof.
  intros Hc Hop Hk Hst H1 H2 Hips Hvis.
  assert (∀ E : nat → nat → Prop, (∀ x, x ∈ [s1; s2] ++ states → E (ip x) (length (stack x))) →
    E (S (ip s)) (length st) ∧ E (Z.to_nat (op_jump op)) (length st)) as Hboth.
  { intros E HE. assert (∀ j, j ∈ [ip s1; ip s2] → E j (length st)) as Hj.
    { intros j. rewrite elem_of_cons, list_elem_of_singleton.
      intros [->| ->]; [rewrite <-H1|rewrite <-H2]; apply HE; set_solver. }
    split; apply Hj; rewrite Hips; set_solver. }
  apply (certified_step _ _ _ visited' _ _ [s1; s2]); [done|..].
  - intros E hout Hs Hout. destruct (Hboth _ Hs) as [Ha Hb]. unfold point_ok. rewrite Hop.
    destruct Hk as [-> | ->]; exists (length st); (split; [done|]; split; by left).
  - intros E i h Hs [Hi|Hi]; [by left|]. destruct Hvis as [-> | ->]; [by right|].
    destruct Hi as (d & st' & op' & Hd & Hop' & -> & Hi). rewrite lookup_insert in Hd.
    destruct (decide (ip s = d)) as [<-|]; [|by right; exists d, st', op'].
    simplify_eq. destruct (Hboth _ Hs). left. by destruct Hi as [-> | ->].
Qed.

(** The exploration of a body yields a certificate of it. *)
Lemma typecheck_loop_certified fuel : ∀ ops v visited states l v',
  typecheck_loop words fuel ops v visited states = (l, Done v') →
  certified fuel ops visited states v v'.
Proof.
  induction fuel as [|fuel IH]; intros ops v visited states l v'; cbn [typecheck_loop]; [done|].
  unfold typecheck_round.
  destruct states as [|s states]; [intros [= <- <-]; apply certified_nil|].
  assert (∀ ops visited states v l,
    typecheck_loop words fuel ops v visited states = (l, Done v') →
    certified (S fuel) ops visited states v v') as IH'.
  { intros * H. eapply certified_depth; [|by eapply IH]. lia. }
  cbv zeta. destruct (ops !! ip s) as [op|] eqn:Hop.
  2:{ intros H. apply bind_Done in H as (? & ? & ? & _ & H & _).
      apply bind_Done in H as (? & v1 & ? & Hv & H & _).
      eapply certified_end; [by eapply IH'|exact Hv|]. intros P E hout ->. unfold point_ok. by rewrite Hop. }
  destruct (op_kind op) eqn:Hk; intros H.
  - apply bind_Done in H as (? & st & ? & Ht & H & _).
    apply typecheck_intrinsic_height in Ht as (n & m & Hshape & Hn & Hlen).
    eapply certified_continue; [by eapply IH'|]. intros E hout _ HE.
    unfold point_ok. rewrite Hop, Hk. exists n, m. by rewrite <-Hlen.
  - eapply certified_continue; [by eapply IH'|]. intros E hout _ HE.
    unfold point_ok. rewrite Hop, Hk. rewrite length_app, Nat.add_1_r in HE. exact HE.
  - eapply certified_continue; [by eapply IH'|]. intros E hout _ HE.
    unfold point_ok. rewrite Hop, Hk. rewrite length_app, Nat.add_1_r in HE. exact HE.
  - destruct (op_word op) as [name|] eqn:Hname; [|done].
    destruct (words !! name) as [w|] eqn:Hw; [|done].
    destruct (w_is_dynamically_typed w) eqn:Hdyn.
    + apply bind_Done in H as (? & v1 & ? & Hv1 & H & _). apply IH in Hv1.
      assert (∃ st, accepts v1 (length st) ∧
        ∃ l, typecheck_loop words fuel ops v visited (mk_State st (S (ip s)) :: states) = (l, Done v'))
        as (st & Hacc & l' & Hl').
      { destruct (proj1 Hv1) as [[out|] ->]; [exists out|exists (stack s)];
          (split; [done|]; eexists; exact H). }
      eapply certified_continue; [by eapply IH'|]. intros E hout _ HE.
      unfold point_ok. rewrite Hop, Hk. exists name, w. rewrite Hdyn. split; [done|]. split; [done|].
      exists (length st). split; [|exact HE]. by eapply certified_body.
    + apply bind_Done in H as (? & ? & ? & He & H & _). apply bind_Done in H as (? & st & ? & Ht & H & _).
      apply (typecheck_stack_effects_height _ _ _ _ _ _ _ _
        (Forall_cons_2 (shaped _ _) (w_effect w) [] (conj eq_refl eq_refl) (Forall_nil_2 _))) in Ht as [Hn Hlen].
      destruct (w_has_effect w) eqn:Heff; [|done].
      eapply certified_continue; [by eapply IH'|]. intros E hout _ HE.
      unfold point_ok. rewrite Hop, Hk. exists name, w. rewrite Hdyn, <-Hlen. auto.
  - apply bind_Done in H as (? & st & ? & Ht & H & _).
    apply (typecheck_stack_effects_height 1 1) in Ht as [Hn Hlen]; [|by repeat constructor].
    eapply certified_continue; [by eapply IH'|]. intros E hout _ HE.
    unfold point_ok. rewrite Hop, Hk. by replace (length (stack s)) with (length st) by lia.
  - apply bind_Done in H as (? & j & ? & ->%assert_jump_Done & H & _).
    eapply certified_continue; [by eapply IH'|]. intros E hout _ HE.
    unfold point_ok. by rewrite Hop, Hk.
  - apply bind_Done in H as (? & st & ? & Ht%condition_height & H & _).
    apply bind_Done in H as (? & j & ? & ->%assert_jump_Done & H & _).
    eapply certified_branch; [by eapply IH'|done|auto|done|done|done|apply Permutation_swap|by left].
  - apply bind_Done in H as (? & j & ? & ->%assert_jump_Done & H & _).
    eapply certified_continue; [by eapply IH'|]. intros E hout _ HE.
    unfold point_ok. by rewrite Hop, Hk.
  - eapply certified_continue; [by eapply IH'|]. intros E hout _ HE.
    unfold point_ok. by rewrite Hop, Hk.
  - apply bind_Done in H as (? & st & ? & Ht%condition_height & H & _).
    destruct (visited !! ip s) as [expected|] eqn:Hvis.
    + destruct (mismatch st expected) as [[|] [|]] eqn:Hm; try done. apply mismatch_length in Hm.
      by eapply certified_revisit; [eapply IH'| ..].
    + apply bind_Done in H as (? & j & ? & ->%assert_jump_Done & H & _).
      eapply certified_branch; [by eapply IH'|done|auto|done|done|done|done|by right].
  - apply bind_Done in H as (? & ? & ? & _ & H & _). apply bind_Done in H as (? & v1 & ? & Hv & H & _).
    eapply certified_end; [by eapply IH'|exact Hv|]. intros P E hout ->. unfold point_ok. by rewrite Hop, Hk.
Qed.

End Certificates.

(** ** From certificates to execution *)

(** The arguments of a system call, from the name of the intrinsic. *)
Definition syscall_arguments (op : Operation) : option nat := syscall_count (tok_sval (op_token op)).

Section Execution.
  Context (words : Words).

(** Every function with a declared effect has a certificate of it. *)
Definition functions_ok : Prop :=
  ∀ name w, words !! name = Some w → w_kind w = WordKind.Function →
    w_is_dynamically_typed w = false → w_has_effect w = true →
    dynamic_ok words (w_function_body w) (length (input (w_effect w))) (length (output (w_effect w))).

(** Only functions are called. *)
Definition calls_functions (ops : list Operation) : Prop :=
  Forall (λ op, op_kind op = OpKind.Call_Symbol →
    ∀ name w, op_word op = Some name → words !! name = Some w → w_kind w = WordKind.Function) ops.

Definition all_calls_functions : Prop :=
  ∀ name w, words !! name = Some w → calls_functions (w_function_body w).

(** The frames of a running program with [h] values on the stack: each frame
    works above a base, at a point of a certificate of its body, and leaves the
    height the frame below continues with. *)
Fixpoint frames_ok (frames : list frame) (h : nat) : Prop :=
  match frames with
  | [] => h = 0%nat
  | f :: fs =>
    calls_functions (f_body f) ∧
    ∃ depth E base hrel hout,
      h = (base + hrel)%nat ∧ E (f_ip f) hrel ∧
      closed_under words (body_ok words depth) (f_body f) hout E ∧
      frames_ok fs (base + hout)%nat
  end.

Definition config_ok (c : config) : Prop :=
  match c with
  | Running frames st => frames ≠ [] ∧ frames_ok frames (length st)
  | Halted st => st = []
  | Trapped => True
  end.

Context (Hfunctions : functions_ok) (Hcalls : all_calls_functions).

Lemma returned_ok fs st : frames_ok fs (length st) → config_ok (returned fs st).
Proof. destruct fs; simpl; [apply nil_length_inv|done]. Qed.

(** A step within a frame. *)
Lemma frames_ok_next body fs depth E base hout j h h' :
  calls_functions body → closed_under words (body_ok words depth) body hout E →
  frames_ok fs (base + hout)%nat → E j h → h' = (base + h)%nat →
  frames_ok (mk_frame body j :: fs) h'.
Proof. intros ???? ->. split; [done|]. eexists depth, E, base, h, hout. done. Qed.

Lemma body_ok_closed depth ops hin hout :
  body_ok words depth ops hin hout →
  ∃ depth E, E 0%nat hin ∧ closed_under words (body_ok words depth) ops hout E.
Proof. intros (E & H0 & HE)%body_ok_S. by exists depth, E. Qed.

(** A call: the callee works above its inputs, or on the whole stack when it
    is dynamically typed. *)
Lemma frames_ok_call body i fs depth E base hrel hout op name w :
  calls_functions body → closed_under words (body_ok words depth) body hout E →
  frames_ok fs (base + hout)%nat → E i hrel → body !! i = Some op → op_kind op = OpKind.Call_Symbol →
  op_word op = Some name → words !! name = Some w →
  frames_ok (mk_frame (w_function_body w) 0 :: mk_frame body (S i) :: fs) (base + hrel)%nat.
Proof.
  intros Hbody HE Hfs Hi Hop Hk Hname Hw. pose proof (HE _ _ Hi) as Hp.
  unfold point_ok in Hp. rewrite Hop, Hk in Hp. destruct Hp as (name' & w' & Hn' & Hw' & Hp). simplify_eq.
  split; [by eapply Hcalls|]. destruct (w_is_dynamically_typed w) eqn:Hdyn.
  - destruct Hp as (h' & (d & E' & H0 & HE')%body_ok_closed & HS).
    exists d, E', base, hrel, h'. split_and!; [done|done|done|]. by eapply frames_ok_next.
  - destruct Hp as (Heff & Hin & HS).
    assert (w_kind w = WordKind.Function) as Hfun.
    { by eapply (proj1 (list.Forall_forall _ _) Hbody op); [by eapply list_elem_of_lookup_2| ..]. }
    destruct (Hfunctions _ _ Hw Hfun Hdyn Heff) as [d' (d & E' & H0 & HE')%body_ok_closed].
    exists d, E', (base + (hrel - length (input (w_effect w))))%nat, (length (input (w_effect w))),
      (length (output (w_effect w))).
    split_and!; [lia|done|done|]. eapply frames_ok_next; [done..|]. lia.
Qed.

Lemma stack_intrinsic_next op f st st' n m :
  stack_intrinsic (op_intrinsic op) = Some f → f st = Next st' →
  intrinsic_shape op = Some (n, m) → (n ≤ length st)%nat → length st' = (length st - n + m)%nat.
Proof.
  intros Hf Hst Hshape Hn. destruct (stack_intrinsic_height op f n m st) as [H|(st1 & H & Hl)]; congruence.
Qed.

(** Preservation: what holds of the frames holds after a step. *)
Lemma step_ok c c' : config_ok c → step words syscall_arguments c c' → config_ok c'.
Proof.
  intros Hc Hstep. destruct Hstep as
    [body i op fs st Hop Hk|body i op fs st a Hop Hk Ha|body i op fs st Hop Hk|body i op fs st c Hop Hk
    |body i op fs st Hop Hk|body i op fs st name w Hop Hk Hname Hw|body i op fs st Hop Hk|body i fs st Hop
    |body i op fs st f st' Hop Hk Hf Hst|body i op fs st f Hop Hk Hf Hst
    |body i op fs st taken left res Hop Hk Henv Htaken Hres Hu];
    destruct Hc as [_ (Hbody & depth & E & base & hrel & hout & Hh & Hi & HE & Hfs)];
    pose proof (HE _ _ Hi) as Hp; unfold point_ok in Hp; cbn [f_body f_ip] in *; rewrite Hop in Hp;
    try (split; [done|]).
  - rewrite Hk in Hp. eapply frames_ok_next; [done..|]. simpl. lia.
  - rewrite Hk in Hp. eapply frames_ok_next; [done..|]. simpl. lia.
  - eapply frames_ok_next; [done|done|done| |exact Hh]. by destruct Hk as [Hk|Hk]; rewrite Hk in Hp.
  - assert (∃ h', hrel = S h' ∧ E (S i) h' ∧ E (Z.to_nat (op_jump op)) h') as (h' & -> & H1 & H2).
    { by destruct Hk as [Hk|Hk]; rewrite Hk in Hp. }
    eapply (frames_ok_next _ _ _ _ _ _ _ h'); [done|done|done|by destruct (c =? 0)|]. simpl in Hh. lia.
  - eapply frames_ok_next; [done|done|done| |exact Hh]. by destruct Hk as [Hk|Hk]; rewrite Hk in Hp.
  - rewrite Hh. by eapply frames_ok_call.
  - rewrite Hk in Hp. apply returned_ok. by rewrite Hh, Hp.
  - apply returned_ok. by rewrite Hh, Hp.
  - rewrite Hk in Hp. destruct Hp as (n & m & Hshape & Hn & HS). eapply frames_ok_next; [done..|].
    pose proof (stack_intrinsic_next op f st st' n m Hf Hst Hshape ltac:(lia)). lia.
  - done.
  - rewrite Hk in Hp. destruct Hp as (n & m & Hshape & Hn & HS).
    destruct (stack_intrinsic (op_intrinsic op)) eqn:Hsi.
    { by destruct (op_intrinsic op). }
    destruct (environment_intrinsic_height op n m) as (t & lf & Henv' & Ht & Hlf); [done|done|].
    unfold syscall_arguments in Henv. simplify_eq. eapply frames_ok_next; [done..|].
    rewrite length_app, length_drop. lia.
Qed.

Lemma steps_ok c c' : config_ok c → steps words syscall_arguments c c' → config_ok c'.
Proof. intros Hc Hs. induction Hs; [done|]. eauto using step_ok. Qed.

(** Progress: a running program can make a step. *)
Lemma config_progress frames st :
  config_ok (Running frames st) → ∃ c', step words syscall_arguments (Running frames st) c'.
Proof.
  intros [Hne Hok]. destruct frames as [|[body i] fs]; [done|].
  destruct Hok as (Hbody & depth & E & base & hrel & hout & Hh & Hi & HE & Hfs). simpl in *.
  pose proof (HE _ _ Hi) as Hp. unfold point_ok in Hp.
  destruct (body !! i) as [op|] eqn:Hop; [|eexists; by apply S_end].
  destruct (op_kind op) eqn:Hk.
  - destruct Hp as (n & m & Hshape & Hn & HS). destruct (stack_intrinsic (op_intrinsic op)) as [f|] eqn:Hsi.
    + destruct (stack_intrinsic_height op f n m st) as [Ht|(st' & Ht & _)]; [done|done|lia|..]; eexists;
        [by eapply S_trap|by eapply S_intrinsic].
    + destruct (environment_intrinsic_height op n m) as (t & lf & Henv & Ht & Hlf); [done|done|].
      eexists. eapply (S_environment _ _ _ _ _ _ _ _ _ (replicate lf 0)); [done|done|exact Henv|lia|..].
      * apply length_replicate.
      * apply Forall_replicate. done.
  - eexists. eapply (S_push_symbol _ _ _ _ _ _ _ 0); done.
  - eexists. by eapply S_push_int.
  - destruct Hp as (name & w & Hname & Hw & _). eexists. by eapply S_call.
  - eexists. eapply S_skip; [exact Hop|auto].
  - eexists. eapply S_jump; [exact Hop|auto].
  - destruct Hp as (h' & -> & _). destruct st as [|c st]; [simpl in Hh; lia|]. eexists. eapply S_branch; [exact Hop|auto].
  - eexists. eapply S_jump; [exact Hop|auto].
  - eexists. eapply S_skip; [exact Hop|auto].
  - destruct Hp as (h' & -> & _). destruct st as [|c st]; [simpl in Hh; lia|]. eexists. eapply S_branch; [exact Hop|auto].
  - eexists. by eapply S_return.
Qed.

End Execution.

(** ** Properties *)

(** The checks the compiler makes before it generates code: every function with
    a declared effect and the program itself. *)
Definition typechecked (fuel : nat) (words : Words) (main : list Operation) : Prop :=
  (∃ l, typecheck_main words fuel main = (l, Done tt)) ∧
  ∀ name w, words !! name = Some w → w_kind w = WordKind.Function →
    w_is_dynamically_typed w = false → w_has_effect w = true →
    ∃ l, typecheck_word words fuel w = (l, Done tt).

Lemma typechecked_functions fuel words main : typechecked fuel words main → functions_ok words.
Proof.
  intros [_ Hf] name w Hw Hk Hd He. destruct (Hf _ _ Hw Hk Hd He) as [l Hl].
  unfold typecheck_word in Hl. apply bind_Done in Hl as (? & v & ? & Hv & _ & _).
  apply typecheck_loop_certified in Hv. exists (S fuel). eapply certified_body; [exact Hv|].
  destruct Hv as [-> _]. done.
Qed.

Lemma typechecked_main fuel words main :
  typechecked fuel words main → calls_functions words main →
  config_ok words (Running [mk_frame main 0] []).
Proof.
  intros [[l Hl] _] Hcalls. unfold typecheck_main in Hl. apply bind_Done in Hl as (? & v & ? & Hv & _ & _).
  apply typecheck_loop_certified in Hv. split; [done|]. split; [done|].
  destruct (certified_body words fuel main [] _ v 0 Hv) as (E & H0 & HE).
  { destruct Hv as [-> _]. done. }
  exists fuel, E, 0%nat, 0%nat, 0%nat. done.
Qed.

Lemma typecheck_sound_steps fuel words main c :
  typechecked fuel words main → calls_functions words main → all_calls_functions words →
  steps words syscall_arguments (Running [mk_frame main 0] []) c →
  match c with
  | Running frames st => ∃ c', step words syscall_arguments (Running frames st) c'
  | Halted st => st = []
  | Trapped => True
  end.
Proof.
  intros Ht Hmain Hall Hsteps.
  pose proof (typechecked_functions _ _ _ Ht) as Hf. pose proof (typechecked_main _ _ _ Ht Hmain) as H0.
  pose proof (steps_ok words Hf Hall _ _ H0 Hsteps) as Hc. destruct c; [|done|done].
  by eapply config_progress.
Qed.

(** C1: a program the type checker accepts never reads below its stack: from
    its start with an empty stack, every state it can reach can make a next
    step, unless it has halted, and then the stack is empty, or it has divided
    by zero.  This holds through loops, calls of functions with declared
    effects, recursion and calls of dynamically typed functions. *)
Theorem typecheck_sound fuel words main c :
  typechecked fuel words main → calls_functions words main → all_calls_functions words →
  steps words syscall_arguments (Running [mk_frame main 0] []) c →
  match c with
  | Running frames st => ∃ c', step words syscall_arguments (Running frames st) c'
  | Halted st => st = []
  | Trapped => True
  end.
Proof. apply typecheck_sound_steps. Qed.

(** A function that adds one, [f fun u64 -- u64 is 1 + end], and the program
    [true while dup do f drop true end drop 5 f drop], its jumps resolved. *)
Definition sample_op (k : Operation_Kind) (i : Intrinsic_Kind) (v : Z) (w : option string) (j : Z) (t : Type_Kind)
    : Operation :=
  mk_Operation k no_token v "" i w j "" (Type_of_kind t) no_location.

Definition sample_function : Word :=
  mk_Word WordKind.Function 0 Intrinsic.Add 0 0
    [sample_op OpKind.Push_Int Intrinsic.Add 1 None Empty_Jump TypeKind.Int;
     sample_op OpKind.Intrinsic Intrinsic.Add 0 None Empty_Jump TypeKind.Int]
    None true (mk_Effect [Type_of_kind TypeKind.Int] [Type_of_kind TypeKind.Int]) false no_location "f".

Definition sample_words : Words := {["f"%string := sample_function]}.

Definition sample_main : list Operation :=
  let push v t := sample_op OpKind.Push_Int Intrinsic.Add v None Empty_Jump t in
  let intrinsic i := sample_op OpKind.Intrinsic i 0 None Empty_Jump TypeKind.Int in
  [push 1 TypeKind.Bool;
   sample_op OpKind.While Intrinsic.Add 0 None Empty_Jump TypeKind.Int;
   intrinsic Intrinsic.Dup;
   sample_op OpKind.Do Intrinsic.Add 0 None 7 TypeKind.Int;
   intrinsic Intrinsic.Drop;
   push 0 TypeKind.Bool;
   sample_op OpKind.End Intrinsic.Add 0 None 1 TypeKind.Int;
   intrinsic Intrinsic.Drop;
   push 5 TypeKind.Int;
   sample_op OpKind.Call_Symbol Intrinsic.Add 0 (Some "f"%string) Empty_Jump TypeKind.Int;
   intrinsic Intrinsic.Drop].

Lemma typecheck_sound_witness :
  ∃ c', step sample_words syscall_arguments (Running [mk_frame sample_main 2] [1]) c'.
Proof.
  assert (∀ name w, sample_words !! name = Some w → w = sample_function) as Hw.
  { intros name w. unfold sample_words. by intros [_ <-]%lookup_singleton_Some. }
  apply (typecheck_sound 30 sample_words sample_main (Running [mk_frame sample_main 2] [1])).
  - split; [eexists; reflexivity|]. intros name w ->%Hw _ _ _. eexists. reflexivity.
  - apply list.Forall_forall. intros op _ _ name w _ ->%Hw. done.
  - intros name w ->%Hw. apply list.Forall_forall. intros op _ _ name' w' _ ->%Hw. done.
  - eapply rtc_l; [by eapply S_push_int|]. eapply rtc_l; [eapply S_skip; [done|by right]|]. apply rtc_refl.
Defined.

(** the three intrinsic tables agree: an intrinsic that the type checker
    accepts on a stack of types takes and leaves, on a stack of as many values,
    the numbers of values its effect says. *)
Theorem intrinsic_effects_agree op f ts l ts' st :
  stack_intrinsic (op_intrinsic op) = Some f →
  typecheck_intrinsic op ts = (l, Done ts') → length st = length ts →
  f st = Trap ∨ ∃ st', f st = Next st' ∧ length st' = length ts'.
Proof.
  intros Hf Ht Hlen. apply typecheck_intrinsic_height in Ht as (n & m & Hs & Hn & ->).
  rewrite <-Hlen. apply (stack_intrinsic_height op); [done|done|lia].
Qed.

Lemma intrinsic_effects_agree_witness :
  let op := sample_op OpKind.Intrinsic Intrinsic.Rot 0 None Empty_Jump TypeKind.Int in
  let t := Type_of_kind TypeKind.Int in
  (∃ l, typecheck_intrinsic op [t; t; t] = (l, Done [t; t; t])) ∧
  (Next [1; 3; 2] = Trap ∨ ∃ st', Next [1; 3; 2] = Next st' ∧ length st' = 3%nat).
Proof.
  intros op t. split; [eexists; reflexivity|].
  apply (intrinsic_effects_agree op (λ st, match st with c :: b :: a :: st => Next (a :: c :: b :: st) | _ => Underflow end)
    [t; t; t] [] [t; t; t] [3; 2; 1]); reflexivity.
Defined.
