(* ===== verification/TypeExplore.v ===== *)
(** * The exploration of a body by the type checker: ending and precision

    The exploration ends for structured bodies that call no dynamically typed
    function; what it computes for the intrinsics that only move values; and
    the inputs on which it is undefined, does not end, or accepts more than it
    explores. *)

From S2P Require Import Prelude Syntax Errors TypeNames Crossref Types Semantics.

Open Scope Z_scope.

(** ** Ending of the parts of a round *)

Lemma ends_output_types generics out : ends (output_types generics out).
Proof. induction out as [|t out IH]; cbn [output_types]; solve_ends. Qed.

Lemma ends_stack_effect_string e : ends (stack_effect_string e).
Proof.
  assert (∀ l sep s, ends (join_loop l sep s)) by (intros; by rewrite join_loop_undefined).
  unfold stack_effect_string, join. solve_ends.
Qed.

Lemma ends_print_errors effects matching best loc errors last :
  ends (print_errors effects matching best loc errors last).
Proof.
  revert last. pose proof ends_stack_effect_string.
  induction errors as [|e errors IH]; intros last; cbn [print_errors]; unfold describe_error; solve_ends.
Qed.

Lemma ends_try_effects all id effects st loc name matching errors :
  ends (try_effects all id effects st loc name matching errors).
Proof.
  revert matching errors id. induction effects as [|e effects IH]; intros matching errors id; cbn [try_effects].
  { unfold report_mismatch. case_match; [done|]. apply ends_bind; [done|]. intros _.
    apply ends_bind; [apply ends_print_errors|done]. }
  destruct (match_effect _ _ _) as [[s [|t rest]] g].
  - apply ends_bind; [apply ends_output_types|done].
  - destruct (effect_errors _ _ _ _ _). apply IH.
Qed.

Lemma ends_typecheck_stack_effects st effects loc name :
  ends (typecheck_stack_effects st effects loc name).
Proof. unfold typecheck_stack_effects. case_match; [apply ends_error_fatal|apply ends_try_effects]. Qed.

#[export] Hint Resolve ends_typecheck_stack_effects : stacky.

Lemma ends_typecheck_intrinsic op st : ends (typecheck_intrinsic op st).
Proof. unfold typecheck_intrinsic. solve_ends. Qed.

Lemma ends_list_values values : ends (list_values values).
Proof. induction values; cbn [list_values]; solve_ends. Qed.

Lemma ends_verify_output v st : ends (verify_output v st).
Proof.
  assert (∀ a b, ends (excess_data a b)) as He.
  { intros a b. unfold excess_data. case_match; [done|]. repeat (apply ends_bind; [done|intros _]).
    apply ends_bind; [apply ends_list_values|done]. }
  assert (∀ a, ends (missing_data a)) as Hm.
  { intros a. unfold missing_data. repeat (apply ends_bind; [done|intros _]).
    apply ends_bind; [apply ends_list_values|done]. }
  assert (∀ out, ends (expected_output_verifier out st)).
  { intros out. unfold expected_output_verifier. cbv zeta. destruct st, out; auto with stacky.
    destruct (mismatch _ _) as [[|] [|]]; auto with stacky. }
  unfold verify_output. solve_ends.
Qed.

Lemma ends_end_location ops i : ends (end_location ops i).
Proof. unfold end_location. solve_ends. Qed.

Lemma ends_assert_jump op : ends (assert_jump op).
Proof. unfold assert_jump. solve_ends. Qed.

#[export] Hint Resolve ends_typecheck_intrinsic ends_verify_output ends_end_location ends_assert_jump : stacky.

(** ** More rounds *)

(** [m'] is [m] where [m] has ended. *)
Definition refines {A} (m m' : comp A) : Prop := ends m → m' = m.

Lemma refines_refl {A} (m : comp A) : refines m m.
Proof. done. Qed.

Lemma refines_bind {A B} (m m' : comp A) (k k' : A → comp B) :
  refines m m' → (∀ a, refines (k a) (k' a)) → refines (m ≫= k) (m' ≫= k').
Proof.
  unfold refines, ends, mbind, comp_bind. intros Hm Hk H.
  destruct m as [l [a| | | |]]; simpl in *; rewrite Hm by done; try done.
  rewrite Hk; [done|]. by destruct (k a).
Qed.

Section Rounds.
  Context (words : Words).

Lemma typecheck_round_refines f g :
  (∀ ops v visited states, refines (f ops v visited states) (g ops v visited states)) →
  ∀ ops v visited states,
    refines (typecheck_round words f ops v visited states) (typecheck_round words g ops v visited states).
Proof.
  intros Hfg ops v visited states. unfold typecheck_round.
  destruct states as [|s states]; [apply refines_refl|].
  cbv zeta. destruct (ops !! ip s) as [op|]; [destruct (op_kind op)|];
    repeat first [ apply Hfg | apply refines_bind; [|intros ?] | apply refines_refl | case_match ].
Qed.

Lemma typecheck_loop_S fuel ops v visited states :
  refines (typecheck_loop words fuel ops v visited states) (typecheck_loop words (S fuel) ops v visited states).
Proof.
  revert ops v visited states. induction fuel as [|fuel IH]; intros ops v visited states.
  { intros Hends. by destruct Hends. }
  apply typecheck_round_refines. apply IH.
Qed.

Lemma typecheck_loop_le fuel fuel' ops v visited states :
  (fuel ≤ fuel')%nat → ends (typecheck_loop words fuel ops v visited states) →
  typecheck_loop words fuel' ops v visited states = typecheck_loop words fuel ops v visited states.
Proof.
  intros Hle Hends. induction Hle as [|n Hle IH]; [done|]. rewrite <-IH at 1.
  apply typecheck_loop_S. by rewrite IH.
Qed.

(** ** The exploration of a structured body ends *)

Definition halts (ops : list Operation) (v : Output_Verifier) (visited : gmap nat Typestack)
    (states : list State) : Prop :=
  ∃ fuel, ends (typecheck_loop words fuel ops v visited states).

Lemma halts_nil ops v visited : halts ops v visited [].
Proof. by exists 1%nat. Qed.

(** A round halts if every exploration it goes on with does; there is at most
    one unless it calls a dynamically typed function. *)
Lemma halts_after {A} ops (m : comp A) v visited (states : A → list State) :
  ends m → (∀ a, halts ops v visited (states a)) →
  ∃ fuel, ends (a ← m; typecheck_loop words fuel ops v visited (states a)).
Proof.
  intros Hm Hnext. destruct m as [l [a| | | |]]; try (exists 0%nat; done).
  destruct (Hnext a) as [fuel Hf]. exists fuel. apply ends_bind_Done; [done|]. by intros l' a' [= <- <-].
Qed.

Lemma halts_round ops v visited states :
  (∃ fuel, ends (typecheck_round words (typecheck_loop words fuel) ops v visited states)) →
  halts ops v visited states.
Proof. intros [fuel Hf]. by exists (S fuel). Qed.

Section Structured.
  Context (ops : list Operation).

(** No operation calls a dynamically typed function. *)
Definition statically_typed : Prop :=
  Forall (λ op, op_kind op = OpKind.Call_Symbol → ∀ name w, op_word op = Some name →
    words !! name = Some w → w_is_dynamically_typed w = false) ops.

Context (Hstatic : statically_typed).

(** The exploration from index [i] on halts, with the loops [known] visited, if
    that of the other states does. *)
Definition halts_from (known : gset nat) (i : nat) : Prop :=
  ∀ st v visited states, known ⊆ dom visited →
    (∀ v' visited', dom visited ⊆ dom visited' → halts ops v' visited' states) →
    halts ops v visited (mk_State st i :: states).

Lemma halts_from_mono known known' i : known ⊆ known' → halts_from known i → halts_from known' i.
Proof. intros Hsub H st v visited states Hk. apply H. set_solver. Qed.

(** The end of a state. *)
Lemma halts_ops_end i st v visited states :
  (∀ v' visited', dom visited ⊆ dom visited' → halts ops v' visited' states) →
  ∃ fuel, ends (_ ← end_location ops i; verifier ← verify_output v st;
    typecheck_loop words fuel ops verifier visited states).
Proof.
  intros Hrest. pose proof (ends_verify_output v st) as He.
  destruct (verify_output v st) as [l [v'| | | |]] eqn:Hv.
  1: destruct (Hrest v' visited) as [fuel Hf]; [done|exists fuel].
  2-5: exists 0%nat.
  all: apply ends_bind; [apply ends_end_location|intros _]; try done.
  apply ends_bind_Done; [done|]. by intros l' a' [= <- <-].
Qed.

Lemma halts_plain known i op :
  ops !! i = Some op → is_plain (op_kind op) → halts_from known (S i) → halts_from known i.
Proof.
  intros Hop Hplain H st v visited states Hk Hrest. apply halts_round.
  assert (∀ st', halts ops v visited (mk_State st' (S i) :: states)) as Hnext by (intros; by apply H).
  pose proof (halts_ops_end i st v visited states Hrest) as Hend.
  unfold typecheck_round. cbn [ip stack]. rewrite Hop. cbv zeta.
  destruct (op_kind op) eqn:Hkind; try done;
    try (by apply (halts_after ops _ v visited (λ st', mk_State st' (S i) :: states)); auto with stacky).
  - destruct (Hnext (st ++ [with_location (Type_of_kind TypeKind.Pointer) (op_location op)])) as [fuel Hf]. eauto.
  - destruct (Hnext (st ++ [with_location (op_type op) (op_location op)])) as [fuel Hf]. eauto.
  - destruct (op_word op) as [name|] eqn:Hname; [|by exists 0%nat].
    destruct (words !! name) as [w|] eqn:Hw; [|by exists 0%nat].
    assert (w_is_dynamically_typed w = false) as ->.
    { eapply (proj1 (list.Forall_forall _ _) Hstatic op); [by eapply list_elem_of_lookup_2|done..]. }
    destruct (w_has_effect w); [|by exists 0%nat].
    destruct (halts_after ops (typecheck_stack_effects st [w_effect w] (op_location op) (w_function_name w))
      v visited (λ st', mk_State st' (S i) :: states)) as [fuel Hf]; auto with stacky.
    exists fuel. apply ends_bind; [done|]. intros _. exact Hf.
Qed.

(** The state at index [i] is the only one of the round. *)
Ltac round Hop Hkind :=
  apply halts_round; unfold typecheck_round; cbn [ip stack]; rewrite Hop, Hkind; cbv zeta.

Lemma halts_while known i op :
  ops !! i = Some op → op_kind op = OpKind.While → halts_from known (S i) → halts_from known i.
Proof.
  intros Hop Hkind H st v visited states Hk Hrest. round Hop Hkind. by apply H.
Qed.

Lemma halts_jump known i op :
  ops !! i = Some op → op_kind op = OpKind.Else ∨ op_kind op = OpKind.End →
  halts_from known (Z.to_nat (op_jump op)) → halts_from known i.
Proof.
  intros Hop Hkind H st v visited states Hk Hrest.
  assert (∃ fuel, ends (jump ← assert_jump op; typecheck_loop words fuel ops v visited (mk_State st jump :: states)))
    as Hnext.
  { destruct (H st v visited states) as [fuel Hf]; [done|done|]. exists fuel.
    apply ends_bind_Done; [apply ends_assert_jump|]. intros l j Hj.
    by apply bind_Done in Hj as (? & ? & ? & _ & [= _ <-] & _). }
  destruct Hkind as [Hkind|Hkind]; round Hop Hkind; exact Hnext.
Qed.

(** A condition is followed by what [k] does with the stack below it. *)
Lemma halts_condition {A} st loc name (k : nat → Typestack → comp A) :
  (∀ st', ∃ fuel, ends (k fuel st')) →
  ∃ fuel, ends (st' ← typecheck_stack_effects st [condition_effect] loc name; k fuel st').
Proof.
  intros Hk. pose proof (ends_typecheck_stack_effects st [condition_effect] loc name) as He.
  destruct (typecheck_stack_effects _ _ _ _) as [l [st'| | | |]]; try (exists 0%nat; done).
  destruct (Hk st') as [fuel Hf]. exists fuel. apply ends_bind_Done; [done|]. by intros l' a' [= <- <-].
Qed.

Lemma ends_assert_jump_then {A} op (k : nat → comp A) :
  ends (k (Z.to_nat (op_jump op))) → ends (jump ← assert_jump op; k jump).
Proof.
  intros Hk. apply ends_bind_Done; [apply ends_assert_jump|]. intros l j Hj.
  by apply bind_Done in Hj as (? & ? & ? & _ & [= _ <-] & _).
Qed.

Lemma halts_if known i op :
  ops !! i = Some op → op_kind op = OpKind.If →
  halts_from known (S i) → halts_from known (Z.to_nat (op_jump op)) → halts_from known i.
Proof.
  intros Hop Hkind H1 H2 st v visited states Hk Hrest. round Hop Hkind.
  apply (halts_condition _ _ _ (λ fuel st', jump ← assert_jump op;
    typecheck_loop words fuel ops v visited (mk_State st' jump :: mk_State st' (S i) :: states))).
  intros st'. destruct (H2 st' v visited (mk_State st' (S i) :: states)) as [fuel Hf]; [done|..].
  - intros v' visited' Hsub. apply H1; [set_solver|]. intros v'' visited'' Hsub'. apply Hrest. set_solver.
  - exists fuel. by apply ends_assert_jump_then.
Qed.

Lemma halts_do known i op :
  ops !! i = Some op → op_kind op = OpKind.Do →
  (i ∉ known → halts_from (known ∪ {[i]}) (S i) ∧ halts_from known (Z.to_nat (op_jump op))) →
  halts_from known i.
Proof.
  intros Hop Hkind H st v visited states Hk Hrest. round Hop Hkind.
  apply (halts_condition _ _ _ (λ fuel st', match visited !! i with
    | Some expected =>
      match mismatch st' expected with
      | ([], []) => typecheck_loop words fuel ops v visited states
      | _ => error_fatal (Some (op_location op)) "Loop differs stack"
      end
    | None => jump ← assert_jump op; typecheck_loop words fuel ops v (<[i := st']> visited)
        (mk_State st' (S i) :: mk_State st' jump :: states)
    end)).
  intros st'. destruct (visited !! i) as [expected|] eqn:Hvis.
  { destruct (Hrest v visited) as [fuel Hf]; [done|]. exists fuel. by destruct (mismatch st' expected) as [[|] [|]]. }
  destruct H as [H1 H2]; [apply not_elem_of_dom in Hvis; set_solver|].
  destruct (H1 st' v (<[i := st']> visited) (mk_State st' (Z.to_nat (op_jump op)) :: states)) as [fuel Hf].
  - rewrite dom_insert_L. set_solver.
  - rewrite dom_insert_L. intros v' visited' Hsub. apply H2; [set_solver|].
    intros v'' visited'' Hsub'. apply Hrest. set_solver.
  - exists fuel. by apply ends_assert_jump_then.
Qed.

Lemma halts_end known i : ops !! i = None → halts_from known i.
Proof.
  intros Hop st v visited states Hk Hrest. apply halts_round. unfold typecheck_round. cbn [ip stack].
  rewrite Hop. cbv zeta. by apply halts_ops_end.
Qed.

Lemma halts_at known i j : halts_from known i → i = j → halts_from known j.
Proof. by intros ? <-. Qed.

Lemma lookup_at (l1 : list Operation) x l2 i : ops = l1 ++ x :: l2 → i = length l1 → ops !! i = Some x.
Proof. intros -> ->. by apply list_lookup_middle. Qed.

(** The operation behind the parts [l1] of the body. *)
Ltac op_after Hops l1 := eapply (lookup_at l1); [rewrite Hops; app_eq|solve_length].

(** A jump whose target is a computed index. *)
Ltac jump_to H := eapply halts_at; [exact H|cbn [op_jump set_op_jump]; lia].

(** A structured part of the body. *)
Lemma halts_block b : ∀ n known pre post,
  block_ok b → n = length pre → ops = pre ++ link n b ++ post →
  halts_from known (n + length (flatten b))%nat → halts_from known n.
Proof.
  induction b as [|op r IHr|o1 t IHt o2 r IHr|o1 t IHt o2 e IHe o3 r IHr|o1 c IHc o2 b IHb o3 r IHr];
    intros n known pre post Hok Hn Hops H; simpl in Hok; cbn [flatten link] in *.
  - by rewrite Nat.add_0_r in H.
  - destruct Hok as [Hk Hr]. apply (halts_plain _ _ op); [|done|].
    { rewrite Hops. by apply list_lookup_middle. }
    eapply (IHr _ _ (pre ++ [op]) post); [done|solve_length|rewrite Hops; app_eq|].
    eapply halts_at; [exact H|solve_length].
  - destruct Hok as (Hk1 & Ht & Hk2 & Hr). cbv zeta in Hops.
    set (e := (S n + length (flatten t))%nat) in *.
    assert (halts_from known (S e)) as Hrest.
    { eapply (IHr _ _ (pre ++ set_op_jump _ o1 :: link (S n) t ++ [set_op_jump _ o2]) post);
        [done|solve_length|rewrite Hops; app_eq|eapply halts_at; [exact H|solve_length]]. }
    assert (halts_from known e) as Hend.
    { eapply (halts_jump _ _ (set_op_jump (Z.of_nat (e + 1)) o2)); [|by right|jump_to Hrest].
      op_after Hops (pre ++ set_op_jump (Z.of_nat e) o1 :: link (S n) t). }
    eapply (halts_if _ _ (set_op_jump (Z.of_nat e) o1)); [op_after Hops pre|done| |].
    + eapply (IHt _ _ (pre ++ [set_op_jump (Z.of_nat e) o1])); [done|solve_length|rewrite Hops; app_eq|].
      eapply halts_at; [exact Hend|done].
    + jump_to Hend.
  - destruct Hok as (Hk1 & Ht & Hk2 & He & Hk3 & Hr). cbv zeta in Hops.
    set (el := (S n + length (flatten t))%nat) in *.
    set (en := (S el + length (flatten e))%nat) in *.
    assert (halts_from known (S en)) as Hrest.
    { eapply (IHr _ _ (pre ++ set_op_jump _ o1 :: link (S n) t ++ set_op_jump _ o2 :: link (S el) e
        ++ [set_op_jump _ o3]) post);
        [done|solve_length|rewrite Hops; app_eq|eapply halts_at; [exact H|solve_length]]. }
    assert (halts_from known en) as Hend.
    { eapply (halts_jump _ _ (set_op_jump (Z.of_nat (en + 1)) o3)); [|by right|jump_to Hrest].
      op_after Hops (pre ++ set_op_jump (Z.of_nat (el + 1)) o1 :: link (S n) t
        ++ set_op_jump (Z.of_nat en) o2 :: link (S el) e). }
    assert (halts_from known el) as Helse.
    { eapply (halts_jump _ _ (set_op_jump (Z.of_nat en) o2)); [|by left|jump_to Hend].
      op_after Hops (pre ++ set_op_jump (Z.of_nat (el + 1)) o1 :: link (S n) t). }
    eapply (halts_if _ _ (set_op_jump (Z.of_nat (el + 1)) o1));
      [op_after Hops pre|done| |].
    + eapply (IHt _ _ (pre ++ [set_op_jump (Z.of_nat (el + 1)) o1])); [done|solve_length|rewrite Hops; app_eq|].
      eapply halts_at; [exact Helse|done].
    + assert (halts_from known (S el)) as Hbody; [|jump_to Hbody].
      eapply (IHe _ _ (pre ++ set_op_jump _ o1 :: link (S n) t ++ [set_op_jump _ o2]));
        [done|solve_length|rewrite Hops; app_eq|exact Hend].
  - destruct Hok as (Hk1 & Hc & Hk2 & Hb & Hk3 & Hr). cbv zeta in Hops.
    set (d := (S n + length (flatten c))%nat) in *.
    set (en := (S d + length (flatten b))%nat) in *.
    assert (halts_from known (S en)) as Hrest.
    { eapply (IHr _ _ (pre ++ o1 :: link (S n) c ++ set_op_jump _ o2 :: link (S d) b
        ++ [set_op_jump _ o3]) post);
        [done|solve_length|rewrite Hops; app_eq|eapply halts_at; [exact H|solve_length]]. }
    assert (ops !! n = Some o1) as H1 by op_after Hops pre.
    assert (ops !! d = Some (set_op_jump (Z.of_nat (en + 1)) o2)) as H2
      by op_after Hops (pre ++ o1 :: link (S n) c).
    assert (∀ K, halts_from K d → halts_from K n) as Hcond.
    { intros K HK. eapply halts_while; [exact H1|done|].
      eapply (IHc _ _ (pre ++ [o1])); [done|solve_length|rewrite Hops; app_eq|exact HK]. }
    apply Hcond. eapply halts_do; [exact H2|done|]. intros _. split; [|jump_to Hrest].
    eapply (IHb _ _ (pre ++ o1 :: link (S n) c ++ [set_op_jump _ o2]));
      [done|solve_length|rewrite Hops; app_eq|].
    eapply (halts_jump _ _ (set_op_jump (Z.of_nat n) o3)); [|by right|].
    { op_after Hops (pre ++ o1 :: link (S n) c ++ set_op_jump (Z.of_nat (en + 1)) o2 :: link (S d) b). }
    cbn [op_jump set_op_jump]. rewrite Nat2Z.id. apply Hcond. eapply halts_do; [exact H2|done|].
    intros Hd. exfalso. apply Hd. apply elem_of_union_r. by apply elem_of_singleton.
Qed.

End Structured.
End Rounds.

Lemma halts_program words b v st :
  block_ok b → statically_typed words (link 0 b) →
  halts words (link 0 b) v ∅ [mk_State st 0].
Proof.
  intros Hok Hst. assert (halts_from words (link 0 b) ∅ 0) as H.
  { apply (halts_block words (link 0 b) Hst b 0 ∅ [] []); [done|done|by rewrite app_nil_r|].
    apply halts_end. rewrite lookup_ge_None, length_link. lia. }
  apply H; [set_solver|]. intros. apply halts_nil.
Qed.

(** ** Intrinsics that only move values *)

(** The movement, on stacks of anything with the top first. *)
Definition shuffle {A} (i : Intrinsic_Kind) (st : list A) : option (list A) :=
  match i, st with
  | Intrinsic.Drop, _ :: st => Some st
  | Intrinsic.Two_Drop, _ :: _ :: st => Some st
  | Intrinsic.Dup, a :: st => Some (a :: a :: st)
  | Intrinsic.Two_Dup, b :: a :: st => Some (b :: a :: b :: a :: st)
  | Intrinsic.Over, b :: a :: st => Some (a :: b :: a :: st)
  | Intrinsic.Two_Over, d :: c :: b :: a :: st => Some (b :: a :: d :: c :: b :: a :: st)
  | Intrinsic.Swap, b :: a :: st => Some (a :: b :: st)
  | Intrinsic.Two_Swap, d :: c :: b :: a :: st => Some (b :: a :: d :: c :: st)
  | Intrinsic.Tuck, b :: a :: st => Some (b :: a :: b :: st)
  | Intrinsic.Rot, c :: b :: a :: st => Some (a :: c :: b :: st)
  | _, _ => None
  end.

(** The rest of the stack is what is below the inputs of the effect. *)
Lemma take_below {A} (st : list A) top n :
  n = length top → take (length (st ++ top) - n) (st ++ top) = st.
Proof. intros ->. rewrite length_app, Nat.add_sub. apply take_app_length. Qed.

Lemma Type_eqb_Any t v : Type_eqb t (mk_Type TypeKind.Any v no_location) = true.
Proof. unfold Type_eqb. simpl. by rewrite orb_true_r. Qed.

(** Matching a type variable that is new, and [any]. *)
Lemma match_effect_var generics x s v e :
  generics !! v = None →
  match_effect generics (x :: s) (Type_var v :: e) = match_effect (<[v := x]> generics) s e.
Proof. intros Hv. cbn [match_effect]. unfold compare, Type_var. simpl. by rewrite Hv. Qed.

Lemma match_effect_any generics x s e :
  match_effect generics (x :: s) (Type_of_kind TypeKind.Any :: e) = match_effect generics s e.
Proof. cbn [match_effect]. unfold compare. simpl. unfold Type_of_kind. by rewrite Type_eqb_Any. Qed.

Lemma match_effect_nil generics s : match_effect generics s [] = (s, [], generics).
Proof. by destruct s. Qed.

Lemma output_types_var generics v t out :
  generics !! v = Some t →
  output_types generics (Type_var v :: out) = (rest ← output_types generics out; mret (t :: rest)).
Proof.
  intros Hv. cbn [output_types]. rewrite decide_False by (simpl; naive_solver). simpl ty_var.
  rewrite Hv. by comp_step.
Qed.

Lemma output_types_nil generics : output_types generics [] = mret [].
Proof. done. Qed.

(** One effect that matches. *)
Lemma typecheck_one_effect st top e loc name generics out res :
  length (input e) = length top → Z.of_nat (length top) < 2 ^ 64 →
  match_effect ∅ (reverse (st ++ top)) (reverse (input e)) = (reverse st, [], generics) →
  output_types generics (output e) = mret out → st ++ out = res →
  typecheck_stack_effects (st ++ top) [e] loc name = mret res.
Proof.
  intros Hlen Hmax Hmatch Hout <-. unfold typecheck_stack_effects, minumum_number_of_arguments. simpl foldl.
  replace (Z.of_nat (length (st ++ top)) <? Z.min (2 ^ 64 - 1) (Z.of_nat (length (input e)))) with false.
  2:{ symmetry. apply Z.ltb_ge. rewrite length_app, Hlen. lia. }
  rewrite andb_false_r. cbn [try_effects]. rewrite Hmatch, Hout. comp_step.
  by rewrite (take_below st top _ Hlen).
Qed.

(** Matches the inputs of an effect with type variables, and instantiates its
    outputs. *)
Ltac find_variable :=
  repeat first [rewrite lookup_insert_eq | rewrite lookup_insert_ne by lia]; by rewrite ?lookup_empty.

Ltac effect_matches :=
  rewrite reverse_app, reverse_involutive; cbv [reverse rev_append app input Type_DSL.Any Type_DSL._1 Type_DSL._2 Type_DSL._3 Type_DSL._4];
  repeat first [rewrite match_effect_any | rewrite match_effect_var by find_variable]; apply match_effect_nil.

Ltac effect_outputs :=
  cbv [app output Type_DSL.Empty Type_DSL._1 Type_DSL._2 Type_DSL._3 Type_DSL._4];
  repeat (erewrite output_types_var by find_variable); rewrite output_types_nil; by comp_step.

Definition with_rot : Operation :=
  mk_Operation OpKind.Intrinsic no_token 0 "" Intrinsic.Rot None Empty_Jump "" (Type_of_kind TypeKind.Int) no_location.

(** ** Properties *)

(** C15: the exploration of a structured body that calls no dynamically typed
    function ends: some number of rounds gives a result, and any larger number
    the same. *)
Theorem typecheck_terminates words b :
  block_ok b → statically_typed words (link 0 b) →
  ∃ fuel r, ends r ∧ ∀ fuel', (fuel ≤ fuel')%nat → typecheck_main words fuel' (link 0 b) = r.
Proof.
  intros Hok Hst. destruct (halts_program words b (Expected_Output []) [] Hok Hst) as [fuel Hf].
  exists fuel, (typecheck_main words fuel (link 0 b)). split.
  - by apply ends_bind.
  - intros fuel' Hle. unfold typecheck_main. by rewrite (typecheck_loop_le words fuel fuel').
Qed.

Lemma typecheck_terminates_witness :
  let op k := Operation_of k no_token in
  let b := B_while (op OpKind.While) (B_op (op OpKind.Push_Int) B_nil) (op OpKind.Do)
    B_nil (op OpKind.End) B_nil in
  ∃ fuel r, ends r ∧ ∀ fuel', (fuel ≤ fuel')%nat → typecheck_main ∅ fuel' (link 0 b) = r.
Proof.
  intros op b. apply (typecheck_terminates ∅ b); [by repeat split|].
  apply list.Forall_forall. intros o _ _ name w _ Hw. by rewrite lookup_empty in Hw.
Defined.

(** on types the intrinsics that only move values do what they do on
    values: the stack of types is moved in the same way, with every type and
    its location kept. *)
Theorem typecheck_shuffle op st r (values values' : list Z) :
  shuffle (op_intrinsic op) (reverse st) = Some r →
  shuffle (op_intrinsic op) values = Some values' →
  typecheck_intrinsic op st = ([], Done (reverse r)) ∧
  from_option (λ f, f values = Next values') False (stack_intrinsic (op_intrinsic op)).
Proof.
  intros Ht Hv. split.
  2:{ unfold shuffle in Hv. destruct (op_intrinsic op); try done; repeat (case_match; try done);
      injection Hv as <-; done. }
  rewrite <-(reverse_involutive st). unfold typecheck_intrinsic. clear Hv. revert Ht.
  generalize (reverse st). clear st. intros st.
  unfold shuffle. destruct (op_intrinsic op); try done; cbn [intrinsic_effects]; unfold Type_DSL.gives, Type_DSL.then_;
    repeat (case_match; try done); intros [= <-]; rewrite ?reverse_cons, <-?app_assoc; simpl app;
    (eapply typecheck_one_effect;
      [reflexivity|simpl; lia|effect_matches|effect_outputs|by rewrite ?app_nil_r]).
Qed.

Lemma typecheck_shuffle_witness :
  let op := with_rot in
  let int := Type_of_kind TypeKind.Int in
  let ptr := Type_of_kind TypeKind.Pointer in
  typecheck_intrinsic op [ptr; int; int] = ([], Done [int; int; ptr]) ∧
  Next [1; 3; 2] = Next [1; 3; 2].
Proof.
  intros op int ptr. apply (typecheck_shuffle op [ptr; int; int] [ptr; int; int] [3; 2; 1] [1; 3; 2]); reflexivity.
Defined.

(** type checking a body without operations reads the location of an
    operation that does not exist. *)
Theorem typecheck_empty_body words fuel v visited st :
  typecheck_loop words (S fuel) [] v visited [mk_State st 0] = undefined.
Proof. done. Qed.

(** type checking a dynamically typed function that calls itself first does
    not end. *)
Theorem typecheck_dynamic_recursion words name w op body fuel v visited st states :
  words !! name = Some w → w_is_dynamically_typed w = true → w_function_body w = op :: body →
  op_kind op = OpKind.Call_Symbol → op_word op = Some name →
  typecheck_loop words fuel (op :: body) v visited (mk_State st 0 :: states) = out_of_fuel.
Proof.
  intros Hw Hdyn Hbody Hk Hname. revert v visited st states.
  induction fuel as [|fuel IH]; intros v visited st states; [done|].
  cbn [typecheck_loop]. unfold typecheck_round. cbn [ip stack].
  assert ((op :: body) !! 0%nat = Some op) as -> by done. cbv zeta.
  rewrite Hk, Hname, Hw, Hdyn, Hbody. by rewrite IH.
Qed.

(** The function [f fun dyn f end]. *)
Definition sample_recursive : Word :=
  mk_Word WordKind.Function 0 Intrinsic.Add 0 0
    [mk_Operation OpKind.Call_Symbol no_token 0 "f" Intrinsic.Add (Some "f"%string) Empty_Jump
      Function_Prefix (Type_of_kind TypeKind.Int) no_location]
    None false (mk_Effect [] []) true no_location "f".

Lemma typecheck_dynamic_recursion_witness :
  typecheck_main {["f"%string := sample_recursive]} 1000 (w_function_body sample_recursive) = out_of_fuel.
Proof.
  unfold typecheck_main.
  rewrite (typecheck_dynamic_recursion {["f"%string := sample_recursive]} "f" sample_recursive
    (hd (Operation_of OpKind.While no_token) (w_function_body sample_recursive)) []);
    try done; reflexivity.
Defined.

(** The operations of [0 any while true do load8 end drop] and of two rounds of
    the loop written out. *)
Definition any_op (k : Operation_Kind) (i : Intrinsic_Kind) (j : Z) (t : Type_Kind) : Operation :=
  mk_Operation k (set_tok_sval "load8" no_token) 0 "" i None j "" (Type_of_kind t) no_location.

Definition any_loop : list Operation :=
  [any_op OpKind.Push_Int Intrinsic.Add Empty_Jump TypeKind.Int;
   any_op OpKind.Cast Intrinsic.Add Empty_Jump TypeKind.Any;
   any_op OpKind.While Intrinsic.Add Empty_Jump TypeKind.Int;
   any_op OpKind.Push_Int Intrinsic.Add Empty_Jump TypeKind.Bool;
   any_op OpKind.Do Intrinsic.Add 7 TypeKind.Int;
   any_op OpKind.Intrinsic Intrinsic.Load Empty_Jump TypeKind.Int;
   any_op OpKind.End Intrinsic.Add 2 TypeKind.Int;
   any_op OpKind.Intrinsic Intrinsic.Drop Empty_Jump TypeKind.Int].

Definition any_unrolled : list Operation :=
  [any_op OpKind.Push_Int Intrinsic.Add Empty_Jump TypeKind.Int;
   any_op OpKind.Cast Intrinsic.Add Empty_Jump TypeKind.Any;
   any_op OpKind.Intrinsic Intrinsic.Load Empty_Jump TypeKind.Int;
   any_op OpKind.Intrinsic Intrinsic.Load Empty_Jump TypeKind.Int;
   any_op OpKind.Intrinsic Intrinsic.Drop Empty_Jump TypeKind.Int].

(** a loop is accepted when [any] makes its two stacks compare equal,
    although the second round is rejected when it is written out: the types of
    a value, unlike the height of the stack, are not kept by accepted loops. *)
Theorem any_loop_accepted :
  (∃ l, typecheck_main ∅ 100 any_loop = (l, Done tt)) ∧
  (∃ l, typecheck_main ∅ 100 any_unrolled = (l, Exited)).
Proof. split; eexists; reflexivity. Qed.
