(* ===== verification/Machine.v ===== *)
(** * The part of x86-64 the compiler emits

    Instructions as data with their NASM text, and two semantics of the
    instructions without control flow: a concrete one, with the stack in a
    memory of bytes addressed by [rsp], and an abstract one, with the stack a
    list of values.  The first simulates the second. *)

From S2P Require Import Prelude Syntax Semantics.

Open Scope Z_scope.

(** ** Syntax *)

(** The general registers but [rsp], which the emitted code names only in the
    forms below. *)
Inductive reg := RAX | RBX | RCX | RDX | RDI | RSI | R8 | R9 | R10.

Inductive alu := Add | Sub | And | Or | Xor | Imul.

Inductive condition := CE | CNE | CA | CNB | CB | CBE.

(** The sizes of [bl], [bx], [ebx] and [rbx]. *)
Inductive size := S8 | S16 | S32 | S64.

Inductive instr :=
  | Pop (r : reg)
  | Push (r : reg)
  | Push_rsp
  | Push_stack (d : nat)
  | Push_symbol (s : string)
  | Mov (d s : reg)
  | Mov_imm (d : reg) (v : Z)
  | Mov_from_stack (r : reg) (d : nat)
  | Mov_to_stack (d : nat) (r : reg)
  | Mov_from_symbol (r : reg) (s : string)
  | Mov_to_symbol (s : string) (r : reg)
  | Mov_rsp_to_symbol (s : string)
  | Mov_from_indexed (r : reg) (s : string) (i : reg)
  | Mov_to_indexed (s : string) (i : reg) (r : reg)
  | Add_symbol (s : string) (v : Z)
  | Sub_symbol (s : string) (v : Z)
  | Load (z : size)
  | Store (z : size)
  | Alu (o : alu) (d s : reg)
  | Add_rsp (n : nat)
  | Sal_cl (r : reg)
  | Sar_cl (r : reg)
  | Cmp (a b : reg)
  | Test (a b : reg)
  | Set_cc (c : condition) (r : reg)
  | Cmov_cc (c : condition) (d s : reg)
  | Div (r : reg)
  | Movdqu_xmm0 (d : nat)
  | Movups_xmm0 (d : nat)
  | Rdrand (r : reg)
  | Rdrand32 (r : reg)
  | Syscall
  | Call (s : string)
  | Call_reg (r : reg)
  | Jmp (s : string)
  | Jz (s : string)
  | Ret.

(** *** Text *)

Definition show_nat (n : nat) : string := to_string (Z.of_nat n).

Definition show_reg (r : reg) : string :=
  match r with
  | RAX => "rax" | RBX => "rbx" | RCX => "rcx" | RDX => "rdx" | RDI => "rdi" | RSI => "rsi"
  | R8 => "r8" | R9 => "r9" | R10 => "r10"
  end.

(** The low byte and the low half of a register. *)
Definition show_reg8 (r : reg) : string :=
  match r with
  | RAX => "al" | RBX => "bl" | RCX => "cl" | RDX => "dl" | RDI => "dil" | RSI => "sil"
  | R8 => "r8b" | R9 => "r9b" | R10 => "r10b"
  end.

Definition show_reg32 (r : reg) : string :=
  match r with
  | RAX => "eax" | RBX => "ebx" | RCX => "ecx" | RDX => "edx" | RDI => "edi" | RSI => "esi"
  | R8 => "r8d" | R9 => "r9d" | R10 => "r10d"
  end.

(** [Register_B_By_Size] *)
Definition Register_B_By_Size (z : size) : string :=
  match z with S8 => "bl" | S16 => "bx" | S32 => "ebx" | S64 => "rbx" end.

Definition show_stack (d : nat) : string :=
  match d with O => "[rsp]" | _ => "[rsp+" +:+ show_nat d +:+ "]" end.

Definition show_alu (o : alu) : string :=
  match o with Add => "add" | Sub => "sub" | And => "and" | Or => "or" | Xor => "xor" | Imul => "imul" end.

Definition show_condition (c : condition) : string :=
  match c with CE => "e" | CNE => "ne" | CA => "a" | CNB => "nb" | CB => "b" | CBE => "be" end.

Definition show_instr (i : instr) : string :=
  match i with
  | Pop r => "pop " +:+ show_reg r
  | Push r => "push " +:+ show_reg r
  | Push_rsp => "push rsp"
  | Push_stack d => "push qword " +:+ show_stack d
  | Push_symbol s => "push " +:+ s
  | Mov d s => "mov " +:+ show_reg d +:+ ", " +:+ show_reg s
  | Mov_imm d v => "mov " +:+ show_reg d +:+ ", " +:+ to_string v
  | Mov_from_stack r d => "mov " +:+ show_reg r +:+ ", " +:+ show_stack d
  | Mov_to_stack d r => "mov " +:+ show_stack d +:+ ", " +:+ show_reg r
  | Mov_from_symbol r s => "mov " +:+ show_reg r +:+ ", [" +:+ s +:+ "]"
  | Mov_to_symbol s r => "mov [" +:+ s +:+ "], " +:+ show_reg r
  | Mov_rsp_to_symbol s => "mov [" +:+ s +:+ "], rsp"
  | Mov_from_indexed r s i => "mov " +:+ show_reg r +:+ ", [" +:+ s +:+ "+" +:+ show_reg i +:+ "*8]"
  | Mov_to_indexed s i r => "mov [" +:+ s +:+ "+" +:+ show_reg i +:+ "*8], " +:+ show_reg r
  | Add_symbol s v => "add qword [" +:+ s +:+ "], " +:+ to_string v
  | Sub_symbol s v => "sub qword [" +:+ s +:+ "], " +:+ to_string v
  | Load z => "mov " +:+ Register_B_By_Size z +:+ ", [rax]"
  | Store z => "mov [rax], " +:+ Register_B_By_Size z
  | Alu o d s => show_alu o +:+ " " +:+ show_reg d +:+ ", " +:+ show_reg s
  | Add_rsp n => "add rsp, " +:+ show_nat n
  | Sal_cl r => "sal " +:+ show_reg r +:+ ", cl"
  | Sar_cl r => "sar " +:+ show_reg r +:+ ", cl"
  | Cmp a b => "cmp " +:+ show_reg a +:+ ", " +:+ show_reg b
  | Test a b => "test " +:+ show_reg a +:+ ", " +:+ show_reg b
  | Set_cc c r => "set" +:+ show_condition c +:+ " " +:+ show_reg8 r
  | Cmov_cc c d s => "cmov" +:+ show_condition c +:+ " " +:+ show_reg d +:+ ", " +:+ show_reg s
  | Div r => "div " +:+ show_reg r
  | Movdqu_xmm0 d => "movdqu xmm0, " +:+ show_stack d
  | Movups_xmm0 d => "movups " +:+ show_stack d +:+ ", xmm0"
  | Rdrand r => "rdrand " +:+ show_reg r
  | Rdrand32 r => "rdrand " +:+ show_reg32 r
  | Syscall => "syscall"
  | Call s => "call " +:+ s
  | Call_reg r => "call " +:+ show_reg r
  | Jmp s => "jmp " +:+ s
  | Jz s => "jz " +:+ s
  | Ret => "ret"
  end.

(** ** Registers, flags and arithmetic *)

(** A flag is unknown after an instruction that leaves it undefined. *)
Record cpu := mk_cpu {
  regs : reg → Z;
  xmm0 : Z * Z;
  zf : option bool;
  cf : option bool;
}.

Definition reg_number (r : reg) : nat :=
  match r with
  | RAX => 0 | RBX => 1 | RCX => 2 | RDX => 3 | RDI => 4 | RSI => 5 | R8 => 6 | R9 => 7 | R10 => 8
  end.

Definition reg_eqb (r r' : reg) : bool := (reg_number r =? reg_number r')%nat.

Definition set_reg (r : reg) (v : Z) (c : cpu) : cpu :=
  mk_cpu (λ r', if reg_eqb r' r then v else regs c r') (xmm0 c) (zf c) (cf c).
Definition set_xmm0 (v : Z * Z) (c : cpu) : cpu := mk_cpu (regs c) v (zf c) (cf c).
Definition set_flags (z carry : option bool) (c : cpu) : cpu := mk_cpu (regs c) (xmm0 c) z carry.

Definition holds (cc : condition) (c : cpu) : option bool :=
  match cc with
  | CE => zf c
  | CNE => negb <$> zf c
  | CB => cf c
  | CNB => negb <$> cf c
  | CA => z ← zf c; carry ← cf c; Some (negb z && negb carry)
  | CBE => z ← zf c; carry ← cf c; Some (z || carry)
  end.

Definition alu_result (o : alu) (a b : Z) : Z :=
  match o with
  | Add => u64 (a + b)
  | Sub => u64 (a - b)
  | And => Z.land a b
  | Or => Z.lor a b
  | Xor => Z.lxor a b
  | Imul => u64 (a * b)
  end.

(** The zero and the carry flag after an operation. *)
Definition alu_flags (o : alu) (a b : Z) : option bool * option bool :=
  let z := Some (alu_result o a b =? 0) in
  match o with
  | Add => (z, Some (2 ^ 64 <=? a + b))
  | Sub => (z, Some (a <? b))
  | And | Or | Xor => (z, Some false)
  | Imul => (None, None)
  end.

Definition bytes (z : size) : nat := match z with S8 => 1 | S16 => 2 | S32 => 4 | S64 => 8 end.

(** Writing the low part of a register keeps the rest, but for the low half,
    which clears it. *)
Definition write_low (z : size) (old v : Z) : Z :=
  match z with
  | S8 => old - old mod 2 ^ 8 + v
  | S16 => old - old mod 2 ^ 16 + v
  | S32 | S64 => v
  end.

Definition read_low (z : size) (v : Z) : Z := v mod 2 ^ (8 * Z.of_nat (bytes z)).

(** ** Instructions on registers only *)

Inductive effect (A : Type) := Ok (a : A) | Fault.
Arguments Ok {A} a.
Arguments Fault {A}.

(** [None]: not an instruction of this kind, or a flag is unknown. *)
Definition exec_reg (i : instr) (c : cpu) : option (effect cpu) :=
  match i with
  | Mov d s => Some (Ok (set_reg d (regs c s) c))
  | Mov_imm d v => Some (Ok (set_reg d (u64 v) c))
  | Alu o d s =>
    let '(z, carry) := alu_flags o (regs c d) (regs c s) in
    Some (Ok (set_flags z carry (set_reg d (alu_result o (regs c d) (regs c s)) c)))
  | Sal_cl r => Some (Ok (set_flags None None (set_reg r (u64 (Z.shiftl (regs c r) (regs c RCX mod 64))) c)))
  | Sar_cl r =>
    Some (Ok (set_flags None None (set_reg r (u64 (Z.shiftr (i64 (regs c r)) (regs c RCX mod 64))) c)))
  | Cmp a b => Some (Ok (set_flags (Some (regs c a =? regs c b)) (Some (regs c a <? regs c b)) c))
  | Test a b => Some (Ok (set_flags (Some (Z.land (regs c a) (regs c b) =? 0)) (Some false) c))
  | Set_cc cc r => b ← holds cc c; Some (Ok (set_reg r (write_low S8 (regs c r) (Z.b2z b)) c))
  | Cmov_cc cc d s => b ← holds cc c; Some (Ok (if b : bool then set_reg d (regs c s) c else c))
  | Div r =>
    let n := regs c RDX * 2 ^ 64 + regs c RAX in
    if (regs c r =? 0) || (2 ^ 64 <=? n / regs c r) then Some Fault
    else Some (Ok (set_flags None None (set_reg RDX (n mod regs c r) (set_reg RAX (n / regs c r) c))))
  | _ => None
  end.

(** ** The abstract machine *)

(** The stack is a list of values with its top first, the rest of the memory a
    function from addresses to bytes. *)
Record amachine := mk_amachine { a_cpu : cpu; a_stack : list Z; a_mem : Z → Z }.

(** The [n] bytes from an address on as a little-endian number, and storing
    one. *)
Fixpoint load (n : nat) (m : Z → Z) (a : Z) : Z :=
  match n with O => 0 | S n => m a + 2 ^ 8 * load n m (a + 1) end.

Fixpoint store (n : nat) (m : Z → Z) (a v : Z) : Z → Z :=
  match n with
  | O => m
  | S n => store n (λ x, if x =? a then v mod 2 ^ 8 else m x) (a + 1) (v / 2 ^ 8)
  end.

(** A displacement that is a multiple of eight, as an index into the stack. *)
Definition slot (d : nat) : option nat := if (d mod 8 =? 0)%nat then Some (d / 8)%nat else None.

Section Abstract.
  Context (limit base : Z).

(** An access outside of the region of the stack, [limit] to [base]. *)
Definition heap_access (a : Z) (n : nat) : bool :=
  ((a + Z.of_nat n <=? limit) || (base <=? a)) && (a + Z.of_nat n <=? 2 ^ 64).

Definition exec_abstract (i : instr) (m : amachine) : option (effect amachine) :=
  let c := a_cpu m in
  let st := a_stack m in
  let with_stack st := Some (Ok (mk_amachine c st (a_mem m))) in
  match i with
  | Pop r =>
    match st with v :: st => Some (Ok (mk_amachine (set_reg r v c) st (a_mem m))) | [] => None end
  | Push r => with_stack (regs c r :: st)
  | Push_stack d => k ← slot d; v ← st !! k; with_stack (v :: st)
  | Mov_from_stack r d =>
    k ← slot d; v ← st !! k; Some (Ok (mk_amachine (set_reg r v c) st (a_mem m)))
  | Mov_to_stack d r => k ← slot d; _ ← st !! k; with_stack (<[k := regs c r]> st)
  | Add_rsp n => k ← slot n; if (k <=? length st)%nat then with_stack (drop k st) else None
  | Movdqu_xmm0 d =>
    k ← slot d; v ← st !! k; w ← st !! S k; Some (Ok (mk_amachine (set_xmm0 (v, w) c) st (a_mem m)))
  | Movups_xmm0 d =>
    k ← slot d; _ ← st !! S k; with_stack (<[S k := (xmm0 c).2]> (<[k := (xmm0 c).1]> st))
  | Load z =>
    if heap_access (regs c RAX) (bytes z) then
      Some (Ok (mk_amachine (set_reg RBX (write_low z (regs c RBX) (load (bytes z) (a_mem m) (regs c RAX))) c)
        st (a_mem m)))
    else None
  | Store z =>
    if heap_access (regs c RAX) (bytes z) then
      Some (Ok (mk_amachine c st (store (bytes z) (a_mem m) (regs c RAX) (read_low z (regs c RBX)))))
    else None
  | _ =>
    e ← exec_reg i c;
    Some match e with Ok c => Ok (mk_amachine c st (a_mem m)) | Fault => Fault end
  end.

Fixpoint exec_all (is_ : list instr) (m : amachine) : option (effect amachine) :=
  match is_ with
  | [] => Some (Ok m)
  | i :: is_ =>
    match exec_abstract i m with
    | Some (Ok m) => exec_all is_ m
    | r => r
    end
  end.

End Abstract.

(** ** The concrete machine *)

Record machine := mk_machine { m_cpu : cpu; rsp : Z; mem : Z → Z }.

Definition exec (i : instr) (m : machine) : option (effect machine) :=
  let c := m_cpu m in
  let push v := let p := u64 (rsp m - 8) in Some (Ok (mk_machine c p (store 8 (mem m) p v))) in
  let at_rsp d := u64 (rsp m + Z.of_nat d) in
  match i with
  | Pop r => Some (Ok (mk_machine (set_reg r (load 8 (mem m) (rsp m)) c) (u64 (rsp m + 8)) (mem m)))
  | Push r => push (regs c r)
  | Push_rsp => push (rsp m)
  | Push_stack d => push (load 8 (mem m) (at_rsp d))
  | Mov_from_stack r d => Some (Ok (mk_machine (set_reg r (load 8 (mem m) (at_rsp d)) c) (rsp m) (mem m)))
  | Mov_to_stack d r => Some (Ok (mk_machine c (rsp m) (store 8 (mem m) (at_rsp d) (regs c r))))
  | Add_rsp n => Some (Ok (mk_machine c (at_rsp n) (mem m)))
  | Movdqu_xmm0 d =>
    Some (Ok (mk_machine (set_xmm0 (load 8 (mem m) (at_rsp d), load 8 (mem m) (at_rsp d + 8)) c)
      (rsp m) (mem m)))
  | Movups_xmm0 d =>
    Some (Ok (mk_machine c (rsp m)
      (store 8 (store 8 (mem m) (at_rsp d) (xmm0 c).1) (at_rsp d + 8) (xmm0 c).2)))
  | Load z =>
    Some (Ok (mk_machine (set_reg RBX (write_low z (regs c RBX) (load (bytes z) (mem m) (regs c RAX))) c)
      (rsp m) (mem m)))
  | Store z =>
    Some (Ok (mk_machine c (rsp m) (store (bytes z) (mem m) (regs c RAX) (read_low z (regs c RBX)))))
  | _ =>
    e ← exec_reg i c;
    Some match e with Ok c => Ok (mk_machine c (rsp m) (mem m)) | Fault => Fault end
  end.

Fixpoint run (is_ : list instr) (m : machine) : option (effect machine) :=
  match is_ with
  | [] => Some (Ok m)
  | i :: is_ =>
    match exec i m with
    | Some (Ok m) => run is_ m
    | r => r
    end
  end.

(** ** Memory *)

Lemma store_other n m a v x : ¬ (a <= x < a + Z.of_nat n) → store n m a v x = m x.
Proof.
  revert m a v. induction n as [|n IH]; intros m a v Hx; cbn [store]; [done|].
  rewrite IH by lia. destruct (Z.eqb_spec x a); [lia|done].
Qed.

Lemma load_ext n m m' a : (∀ x, a <= x < a + Z.of_nat n → m x = m' x) → load n m a = load n m' a.
Proof.
  revert a. induction n as [|n IH]; intros a Hm; cbn [load]; [done|].
  rewrite (Hm a) by lia. rewrite IH; [done|]. intros x Hx. apply Hm. lia.
Qed.

Lemma load_store_other n k m a b v :
  (b + Z.of_nat n <= a ∨ a + Z.of_nat k <= b) → load n (store k m a v) b = load n m b.
Proof. intros Hab. apply load_ext. intros x Hx. apply store_other. lia. Qed.

Lemma load_store_same n m a v : load n (store n m a v) a = v mod 2 ^ (8 * Z.of_nat n).
Proof.
  revert m a v. induction n as [|n IH]; intros m a v; cbn [load store].
  { change (2 ^ (8 * Z.of_nat 0)) with 1. by rewrite Z.mod_1_r. }
  rewrite store_other, Z.eqb_refl, IH by lia.
  replace (8 * Z.of_nat (S n)) with (8 + 8 * Z.of_nat n) by lia.
  rewrite Z.pow_add_r, Z.rem_mul_r by lia. done.
Qed.

Definition bytes_ok (m : Z → Z) : Prop := ∀ x, 0 <= m x < 2 ^ 8.

Lemma store_bytes_ok n m a v : bytes_ok m → bytes_ok (store n m a v).
Proof.
  revert m a v. induction n as [|n IH]; intros m a v Hm; cbn [store]; [done|].
  apply IH. intros x. destruct (x =? a); [apply Z.mod_pos_bound; lia|apply Hm].
Qed.

Lemma load_range n m a : bytes_ok m → 0 <= load n m a < 2 ^ (8 * Z.of_nat n).
Proof.
  intros Hm. revert a. induction n as [|n IH]; intros a; cbn [load]; [done|].
  specialize (IH (a + 1)). specialize (Hm a).
  replace (8 * Z.of_nat (S n)) with (8 + 8 * Z.of_nat n) by lia. rewrite Z.pow_add_r by lia. nia.
Qed.

#[global] Arguments load : simpl never.
#[global] Arguments store : simpl never.

(** ** Registers stay 64 bits wide *)

Definition cpu_ok (c : cpu) : Prop :=
  (∀ r, is_u64 (regs c r)) ∧ is_u64 (xmm0 c).1 ∧ is_u64 (xmm0 c).2.

Lemma set_reg_ok r v c : cpu_ok c → is_u64 v → cpu_ok (set_reg r v c).
Proof. intros [Hr Hx] Hv. split; [|done]. intros r'. simpl. by destruct (reg_eqb r' r). Qed.

Lemma set_flags_ok z carry c : cpu_ok c → cpu_ok (set_flags z carry c).
Proof. done. Qed.

Lemma write_low_u64 z old v :
  is_u64 old → 0 <= v < 2 ^ (8 * Z.of_nat (bytes z)) → is_u64 (write_low z old v).
Proof.
  intros [H1 H2] Hv. unfold is_u64.
  destruct z; simpl in *; try lia;
    match goal with |- context [old mod ?k] =>
      pose proof (Z.mod_pos_bound old k ltac:(lia)); pose proof (Z.div_mod old k ltac:(lia)) end.
  - assert (old / 2 ^ 8 <= 2 ^ 56 - 1) by (apply Z.lt_le_pred, Z.div_lt_upper_bound; lia). lia.
  - assert (old / 2 ^ 16 <= 2 ^ 48 - 1) by (apply Z.lt_le_pred, Z.div_lt_upper_bound; lia). lia.
Qed.

Lemma alu_result_u64 o a b : is_u64 a → is_u64 b → is_u64 (alu_result o a b).
Proof. destruct o; simpl; auto with stacky. Qed.

#[export] Hint Resolve set_reg_ok set_flags_ok alu_result_u64 : stacky.

Lemma exec_reg_ok i c c' : cpu_ok c → exec_reg i c = Some (Ok c') → cpu_ok c'.
Proof.
  intros Hc. pose proof Hc as [Hr Hx]. destruct i; simpl; try done.
  - intros [= <-]. auto with stacky.
  - intros [= <-]. auto with stacky.
  - destruct (alu_flags o (regs c d) (regs c s)). intros [= <-]. auto with stacky.
  - intros [= <-]. auto with stacky.
  - intros [= <-]. auto with stacky.
  - intros [= <-]. auto with stacky.
  - intros [= <-]. auto with stacky.
  - intros (b & _ & [= <-])%bind_Some. apply set_reg_ok; [done|].
    apply (write_low_u64 S8 (regs c r) (Z.b2z b)); [done|]. destruct b; simpl; lia.
  - intros (b & _ & [= <-])%bind_Some. destruct b; auto with stacky.
  - set (n := regs c RDX * 2 ^ 64 + regs c RAX). destruct (orb _ _) eqn:Hz; [done|].
    apply orb_false_iff in Hz as [Hz Hq]. bool_to_prop. intros [= <-].
    destruct (Hr RDX), (Hr RAX), (Hr r). assert (0 <= n) by lia.
    apply set_flags_ok, set_reg_ok; [apply set_reg_ok; [done|]|].
    + split; [apply Z.div_pos; lia|lia].
    + pose proof (Z.mod_pos_bound n (regs c r) ltac:(lia)). unfold is_u64. lia.
Qed.

(** ** The concrete machine simulates the abstract one *)

Section Simulation.
  Context (limit base : Z).

(** The stack of [a] lies below [base] in the memory of [m], which agrees with
    that of [a] outside of the region of the stack. *)
Record represents (a : amachine) (m : machine) : Prop := {
  rep_cpu : m_cpu m = a_cpu a;
  rep_cpu_ok : cpu_ok (a_cpu a);
  rep_bytes : bytes_ok (mem m);
  rep_rsp : rsp m = base - 8 * Z.of_nat (length (a_stack a));
  rep_room : limit + 8 * Z.of_nat (length (a_stack a)) <= base;
  rep_values : values_ok (a_stack a);
  rep_stack : ∀ k v, a_stack a !! k = Some v → load 8 (mem m) (rsp m + 8 * Z.of_nat k) = v;
  rep_heap : ∀ x, ¬ (limit <= x < base) → mem m x = a_mem a x;
}.

Context (Hlimit : 0 <= limit) (Hbase : base < 2 ^ 64).

Lemma slot_spec d k : slot d = Some k → d = (8 * k)%nat.
Proof.
  unfold slot. destruct (Nat.eqb_spec (d mod 8) 0) as [Hd|]; [|done].
  pose proof (Nat.div_mod_eq d 8) as Hdiv. revert Hdiv. generalize (d / 8)%nat. intros q Hq [= <-]. lia.
Qed.

(** The address of a slot of the stack. *)
Lemma slot_address a m k v :
  represents a m → a_stack a !! k = Some v →
  u64 (rsp m + Z.of_nat (8 * k)) = rsp m + 8 * Z.of_nat k ∧
  limit <= rsp m + 8 * Z.of_nat k ∧ rsp m + 8 * Z.of_nat k + 8 <= base.
Proof.
  intros Hrep Hk%lookup_lt_Some. pose proof (rep_rsp _ _ Hrep). pose proof (rep_room _ _ Hrep).
  split; [|lia]. rewrite u64_small; [lia|]. unfold is_u64. lia.
Qed.

(** Only the registers change. *)
Lemma represents_cpu a m c :
  represents a m → cpu_ok c →
  represents (mk_amachine c (a_stack a) (a_mem a)) (mk_machine c (rsp m) (mem m)).
Proof. intros [] Hc. by constructor. Qed.

(** A push. *)
Lemma represents_push a m v :
  represents a m → is_u64 v → limit + 8 * Z.of_nat (S (length (a_stack a))) <= base →
  u64 (rsp m - 8) = rsp m - 8 ∧
  represents (mk_amachine (a_cpu a) (v :: a_stack a) (a_mem a))
    (mk_machine (a_cpu a) (rsp m - 8) (store 8 (mem m) (rsp m - 8) v)).
Proof.
  intros [Hcpu Hok Hbytes Hrsp Hroom Hvals Hst Hheap] Hv Hpush.
  split; [apply u64_small; unfold is_u64; lia|]. constructor; simpl; try done.
  - apply (store_bytes_ok 8), Hbytes.
  - lia.
  - by constructor.
  - intros [|k] w.
    + intros [= <-]. rewrite Z.add_0_r, load_store_same. by apply Z.mod_small.
    + intros Hk. simpl in Hk. rewrite load_store_other by lia.
      rewrite <-(Hst k w Hk). f_equal. lia.
  - intros x Hx. rewrite store_other by lia. by apply Hheap.
Qed.

(** Dropping values. *)
Lemma represents_drop a m c k :
  represents a m → cpu_ok c → (k ≤ length (a_stack a))%nat →
  u64 (rsp m + Z.of_nat (8 * k)) = rsp m + 8 * Z.of_nat k ∧
  represents (mk_amachine c (drop k (a_stack a)) (a_mem a))
    (mk_machine c (rsp m + 8 * Z.of_nat k) (mem m)).
Proof.
  intros [Hcpu Hok Hbytes Hrsp Hroom Hvals Hst Hheap] Hc Hk.
  split; [rewrite u64_small; [lia|unfold is_u64; lia]|].
  constructor; simpl; try done; rewrite ?length_drop; try lia.
  - by apply Forall_drop.
  - intros j v. rewrite lookup_drop. intros Hj. rewrite <-(Hst _ _ Hj). f_equal. lia.
Qed.

(** A write to a slot of the stack. *)
Lemma represents_write a m k v old :
  represents a m → a_stack a !! k = Some old → is_u64 v →
  represents (mk_amachine (a_cpu a) (<[k := v]> (a_stack a)) (a_mem a))
    (mk_machine (a_cpu a) (rsp m) (store 8 (mem m) (rsp m + 8 * Z.of_nat k) v)).
Proof.
  intros Hrep Hk Hv. pose proof (slot_address _ _ _ _ Hrep Hk) as (_ & Hlo & Hhi).
  destruct Hrep as [Hcpu Hok Hbytes Hrsp Hroom Hvals Hst Hheap].
  constructor; simpl; try done; rewrite ?length_insert; try done.
  - apply (store_bytes_ok 8), Hbytes.
  - by apply Forall_insert.
  - intros j w. destruct (decide (j = k)) as [->|Hne].
    + rewrite list_lookup_insert_eq by (by eapply lookup_lt_Some). intros [= <-].
      rewrite load_store_same. by apply Z.mod_small.
    + rewrite list_lookup_insert_ne by done. intros Hj. rewrite load_store_other by lia. by apply Hst.
  - intros x Hx. rewrite store_other by lia. by apply Hheap.
Qed.

Lemma heap_access_spec a n :
  heap_access limit base a n = true →
  (a + Z.of_nat n <= limit ∨ base <= a) ∧ a + Z.of_nat n <= 2 ^ 64.
Proof. unfold heap_access. intros [[?|?]%orb_true_iff ?]%andb_true_iff; bool_to_prop; lia. Qed.

Lemma represents_load a m z :
  represents a m → heap_access limit base (regs (a_cpu a) RAX) (bytes z) = true →
  load (bytes z) (mem m) (regs (a_cpu a) RAX) = load (bytes z) (a_mem a) (regs (a_cpu a) RAX).
Proof.
  intros Hrep [Hacc _]%heap_access_spec. apply load_ext. intros x Hx. apply (rep_heap _ _ Hrep). lia.
Qed.

Lemma represents_store a m p n v :
  represents a m → heap_access limit base p n = true →
  represents (mk_amachine (a_cpu a) (a_stack a) (store n (a_mem a) p v))
    (mk_machine (a_cpu a) (rsp m) (store n (mem m) p v)).
Proof.
  intros [Hcpu Hok Hbytes Hrsp Hroom Hvals Hst Hheap] [Hacc _]%heap_access_spec.
  constructor; simpl; try done.
  - apply store_bytes_ok, Hbytes.
  - intros k w Hk. pose proof (lookup_lt_Some _ _ _ Hk). rewrite load_store_other by lia. by apply Hst.
  - intros x Hx. specialize (Hheap x Hx). revert Hheap. generalize (mem m), (a_mem a).
    clear - n. revert p v. induction n as [|n IH]; intros p v m1 m2 Heq; [done|].
    change (store n (λ y, if y =? p then v mod 2 ^ 8 else m1 y) (p + 1) (v / 2 ^ 8) x =
      store n (λ y, if y =? p then v mod 2 ^ 8 else m2 y) (p + 1) (v / 2 ^ 8) x).
    apply IH. by rewrite Heq.
Qed.

(** The instructions that move values between the stack and registers. *)
Lemma exec_simulates_stack i a m a' :
  represents a m → limit + 8 * Z.of_nat (S (length (a_stack a))) <= base →
  match i with
  | Pop _ | Push _ | Push_stack _ | Mov_from_stack _ _ | Mov_to_stack _ _ | Add_rsp _
  | Movdqu_xmm0 _ | Movups_xmm0 _ => True
  | _ => False
  end →
  exec_abstract limit base i a = Some (Ok a') → ∃ m', exec i m = Some (Ok m') ∧ represents a' m'.
Proof.
  intros Hrep Hroom Hi. pose proof (rep_cpu _ _ Hrep) as Hcpu. pose proof (rep_cpu_ok _ _ Hrep) as Hok.
  pose proof (rep_values _ _ Hrep) as Hvals.
  assert (∀ k v, a_stack a !! k = Some v → is_u64 v) as Hu64.
  { intros k v Hk. by eapply (proj1 (Forall_lookup _ _) Hvals). }
  destruct i as [r|r| |d| | | |r d|d r| | | | | | | | | | |n| | | | | | | |d|d| | | | | | | |];
    try done; cbn [exec_abstract exec]; rewrite ?Hcpu.
  - destruct (a_stack a) as [|v st] eqn:Hst; [done|]. intros [= <-].
    destruct (represents_drop a m (set_reg r v (a_cpu a)) 1) as [Haddr Hrep']; [done| |rewrite Hst; simpl; lia|].
    { apply set_reg_ok; [done|]. by apply (Hu64 0%nat). }
    change (Z.of_nat (8 * 1)) with 8 in Haddr. change (8 * Z.of_nat 1) with 8 in *.
    pose proof (rep_stack _ _ Hrep 0 v) as H0. rewrite Hst, Z.add_0_r in H0. rewrite H0, Haddr by done.
    rewrite Hst in Hrep'. eauto.
  - intros [= <-]. destruct (represents_push a m (regs (a_cpu a) r) Hrep) as [Haddr Hrep']; [apply Hok|done|].
    rewrite Haddr. eauto.
  - intros (k & ->%slot_spec & (v & Hk & [= <-])%bind_Some)%bind_Some.
    destruct (slot_address _ _ _ _ Hrep Hk) as [-> _]. rewrite (rep_stack _ _ Hrep k v Hk).
    destruct (represents_push a m v Hrep) as [Haddr Hrep']; [by eapply Hu64|done|].
    rewrite Haddr. eauto.
  - intros (k & ->%slot_spec & (v & Hk & [= <-])%bind_Some)%bind_Some.
    destruct (slot_address _ _ _ _ Hrep Hk) as [-> _]. rewrite (rep_stack _ _ Hrep k v Hk).
    eexists. split; [done|]. apply (represents_cpu a m); [done|]. apply set_reg_ok; [done|]. by eapply Hu64.
  - intros (k & ->%slot_spec & (v & Hk & [= <-])%bind_Some)%bind_Some.
    destruct (slot_address _ _ _ _ Hrep Hk) as [-> _]. eexists. split; [done|].
    eapply represents_write; [done|done|apply Hok].
  - intros (k & ->%slot_spec & H)%bind_Some. destruct (Nat.leb_spec k (length (a_stack a))); [|done].
    injection H as <-. destruct (represents_drop a m (a_cpu a) k) as [-> Hrep']; eauto.
  - intros (k & ->%slot_spec & (v & Hk & (w & Hk' & [= <-])%bind_Some)%bind_Some)%bind_Some.
    destruct (slot_address _ _ _ _ Hrep Hk) as [-> _]. rewrite (rep_stack _ _ Hrep k v Hk).
    replace (rsp m + 8 * Z.of_nat k + 8) with (rsp m + 8 * Z.of_nat (S k)) by lia.
    rewrite (rep_stack _ _ Hrep (S k) w Hk'). eexists. split; [done|].
    apply (represents_cpu a m); [done|]. split; [apply Hok|]. simpl. split; by eapply Hu64.
  - intros (k & ->%slot_spec & (w & Hk' & [= <-])%bind_Some)%bind_Some.
    destruct (lookup_lt_is_Some_2 (a_stack a) k) as [v Hk]; [apply lookup_lt_Some in Hk'; lia|].
    destruct (slot_address _ _ _ _ Hrep Hk) as [-> _]. eexists. split; [done|].
    replace (rsp m + 8 * Z.of_nat k + 8) with (rsp m + 8 * Z.of_nat (S k)) by lia.
    pose proof (represents_write a m k _ v Hrep Hk (proj1 (proj2 Hok))) as H1.
    eapply (represents_write _ _ (S k) _ w H1); [|apply Hok]. simpl. by rewrite list_lookup_insert_ne by lia.
Qed.

Definition moves_stack (i : instr) : bool :=
  match i with
  | Pop _ | Push _ | Push_stack _ | Mov_from_stack _ _ | Mov_to_stack _ _ | Add_rsp _
  | Movdqu_xmm0 _ | Movups_xmm0 _ => true
  | _ => false
  end.

Lemma exec_simulates i a m a' :
  represents a m → limit + 8 * Z.of_nat (S (length (a_stack a))) <= base →
  exec_abstract limit base i a = Some (Ok a') → ∃ m', exec i m = Some (Ok m') ∧ represents a' m'.
Proof.
  intros Hrep Hroom. destruct (moves_stack i) eqn:Hi.
  { apply exec_simulates_stack; [done|done|]. by destruct i. }
  pose proof (rep_cpu _ _ Hrep) as Hcpu. pose proof (rep_cpu_ok _ _ Hrep) as Hok.
  assert (∀ e, exec_reg i (a_cpu a) = Some e →
    Some match e with Ok c => Ok (mk_amachine c (a_stack a) (a_mem a)) | Fault => Fault end = Some (Ok a') →
    ∃ m', Some match e with Ok c => Ok (mk_machine c (rsp m) (mem m)) | Fault => Fault end = Some (Ok m')
      ∧ represents a' m') as Hreg.
  { intros [c|] He; [|done]. intros [= <-]. eexists. split; [done|]. apply (represents_cpu a m); [done|].
    by eapply exec_reg_ok. }
  destruct i; try done; cbn [exec_abstract exec]; rewrite ?Hcpu;
    try (intros (e & He & H)%bind_Some; destruct (Hreg e He H) as (m' & Hm & ?); exists m';
      rewrite He; by split).
  - destruct (heap_access _ _ _ _) eqn:Hacc; [|done]. intros [= <-].
    rewrite (represents_load a m z) by done. eexists. split; [done|].
    apply (represents_cpu a m); [done|]. apply set_reg_ok; [done|]. apply write_low_u64; [apply Hok|].
    rewrite <-(represents_load a m z) by done. apply load_range, (rep_bytes _ _ Hrep).
  - destruct (heap_access _ _ _ _) eqn:Hacc; [|done]. intros [= <-]. eexists. split; [done|].
    by apply represents_store.
Qed.

(** Inversion of a step of the abstract machine. *)
Ltac invert_abstract H a :=
  repeat match type of H with
  | (_ ≫= _) = Some _ => apply bind_Some in H as (? & ? & H)
  | context [match a_stack a with _ => _ end] => destruct (a_stack a) eqn:?
  | context [if ?b then _ else _] => destruct b
  | context [match ?e with Ok _ => _ | Fault => _ end] => destruct e
  | Some _ = Some _ => injection H as H
  end.

Lemma exec_fault i a m :
  represents a m → exec_abstract limit base i a = Some Fault → exec i m = Some Fault.
Proof.
  intros Hrep. pose proof (rep_cpu _ _ Hrep) as Hcpu.
  destruct i; cbn [exec_abstract exec]; rewrite ?Hcpu; intros H; invert_abstract H a; try done;
    match goal with He : exec_reg _ _ = Some _ |- _ => by rewrite He end.
Qed.

Lemma exec_abstract_length i a a' :
  exec_abstract limit base i a = Some (Ok a') → (length (a_stack a') ≤ S (length (a_stack a)))%nat.
Proof.
  destruct i; cbn [exec_abstract]; intros H; invert_abstract H a; try done; subst a'; simpl;
    rewrite ?length_insert, ?length_drop; lia.
Qed.

(** The values of the abstract machine stay 64 bits wide. *)
Definition amachine_ok (a : amachine) : Prop :=
  cpu_ok (a_cpu a) ∧ values_ok (a_stack a) ∧ bytes_ok (a_mem a).

Lemma amachine_ok_intro c st m :
  cpu_ok c → values_ok st → bytes_ok m → amachine_ok (mk_amachine c st m).
Proof. done. Qed.

Lemma values_ok_lookup st k v : values_ok st → st !! k = Some v → is_u64 v.
Proof. intros Hst Hk. by eapply (proj1 (Forall_lookup _ _) Hst). Qed.

Lemma values_ok_cons v st : is_u64 v → values_ok st → values_ok (v :: st).
Proof. by constructor. Qed.

Lemma set_xmm0_ok v w c : cpu_ok c → is_u64 v → is_u64 w → cpu_ok (set_xmm0 (v, w) c).
Proof. by intros [Hr _] Hv Hw. Qed.

Lemma exec_abstract_ok i a a' :
  amachine_ok a → exec_abstract limit base i a = Some (Ok a') → amachine_ok a'.
Proof.
  intros (Hc & Hst & Hm). pose proof Hc as (Hr & Hx1 & Hx2).
  destruct i; cbn [exec_abstract]; intros H; invert_abstract H a; try done; subst a';
    try (match goal with He : exec_reg _ _ = Some _ |- _ => apply (exec_reg_ok _ _ _ Hc) in He end);
    apply amachine_ok_intro;
    try (match goal with Hv : values_ok (_ :: _) |- _ => apply Forall_cons in Hv as [??] end);
    try assumption; eauto using set_reg_ok, values_ok_lookup, values_ok_cons, set_xmm0_ok.
  - by apply Forall_insert.
  - apply set_reg_ok; [done|]. apply write_low_u64; [done|]. by apply load_range.
  - by apply store_bytes_ok.
  - by apply Forall_drop.
  - by repeat apply Forall_insert.
Qed.

Lemma exec_all_ok is_ a a' :
  amachine_ok a → exec_all limit base is_ a = Some (Ok a') → amachine_ok a'.
Proof.
  revert a. induction is_ as [|i is_ IH]; intros a Ha; cbn [exec_all]; [by intros [= <-]|].
  destruct (exec_abstract limit base i a) as [[a1|]|] eqn:Hi; [|done..]. apply IH. by eapply exec_abstract_ok.
Qed.

(** A sequence of instructions: what the abstract machine computes, the
    concrete one does, provided there is room for a push of every one. *)
Lemma run_simulates is_ : ∀ a m,
  represents a m → limit + 8 * Z.of_nat (length (a_stack a) + length is_) <= base →
  match exec_all limit base is_ a with
  | Some (Ok a') => ∃ m', run is_ m = Some (Ok m') ∧ represents a' m'
  | Some Fault => run is_ m = Some Fault
  | None => True
  end.
Proof.
  induction is_ as [|i is_ IH]; intros a m Hrep Hroom; cbn [exec_all run]; [eauto|].
  simpl in Hroom. destruct (exec_abstract limit base i a) as [[a1|]|] eqn:Hi; [|by erewrite exec_fault|done].
  destruct (exec_simulates i a m a1 Hrep) as (m1 & -> & Hrep1); [lia|done|].
  apply IH; [done|]. apply exec_abstract_length in Hi. lia.
Qed.

End Simulation.
