(* ===== verification/Codegen.v ===== *)
(** * Code generation (src/src/linux-x86_64.cc)

    The assembly file as a list of lines.  The iteration order of the unordered
    maps of words and strings is a parameter: the definitions take the entries
    of the maps as lists. *)

From S2P Require Import Prelude Syntax Errors Semantics Machine.

Open Scope char_scope.
Open Scope Z_scope.

(** ** Lines *)

(** A definition of data: so many units of memory reserved behind a name, or a
    name and the bytes from there on. *)
Inductive datum :=
  | Reserve (indent name gap : string) (unit : size) (count : Z)
  | Bytes (name : string) (values : list Z).

(** A line: an instruction behind its indentation, a label, data, or text
    without either (comments and directives). *)
Inductive line :=
  | Code (indent : string) (i : instr)
  | Label (name : string)
  | Text (s : string)
  | Data (d : datum).

Definition tab : string := str_of [chr 9].
Definition newline_str : string := str_of [chr 10].

(** Signed numbers, as [int] prints. *)
Definition show_int (z : Z) : string := if z <? 0 then "-" +:+ to_string (- z) else to_string z.

Definition show_unit (z : size) : string :=
  match z with S8 => "resb" | S16 => "resw" | S32 => "resd" | S64 => "resq" end.

Fixpoint show_values (values : list Z) : string :=
  match values with
  | [] => ""
  | [z] => show_int z
  | z :: values => show_int z +:+ "," +:+ show_values values
  end.

Definition show_datum (d : datum) : string :=
  match d with
  | Reserve indent name gap unit count => indent +:+ name +:+ ":" +:+ gap +:+ show_unit unit +:+ " " +:+ to_string count
  | Bytes name values => name +:+ ": db " +:+ show_values values
  end.

Definition show_line (l : line) : string :=
  match l with
  | Code indent i => indent +:+ show_instr i +:+ newline_str
  | Label name => name +:+ ":" +:+ newline_str
  | Text s => s +:+ newline_str
  | Data d => show_datum d +:+ newline_str
  end.

Definition show_lines (ls : list line) : string := foldr (λ l s, show_line l +:+ s) ""%string ls.

Definition tabbed (i : instr) : line := Code tab i.
Definition spaced (i : instr) : line := Code " " i.
Definition plain (i : instr) : line := Code "" i.
Definition comment (s : string) : line := Text (tab +:+ ";; " +:+ s).

(** ** Intrinsics *)

(** The macros [Impl_Math], [Impl_Compare] and [Impl_Div]; the first puts no
    space in front of the name. *)
Definition Impl_Math (name : string) (implementation : list line) : list line :=
  Text (tab +:+ ";;" +:+ name) :: tabbed (Pop RBX) :: tabbed (Pop RAX) :: implementation
  ++ [tabbed (Push RAX)].

Definition Impl_Compare (name : string) (suffix : condition) : list line :=
  [comment name; tabbed (Alu Xor RAX RAX); tabbed (Pop RBX); tabbed (Pop RCX); tabbed (Cmp RCX RBX);
   tabbed (Set_cc suffix RAX); tabbed (Push RAX)].

Definition Impl_Div (name : string) (end_ : list line) : list line :=
  [comment name; tabbed (Alu Xor RDX RDX); tabbed (Pop RBX); tabbed (Pop RAX); tabbed (Div RBX)] ++ end_.

(** [s[k]] of a [std::string]: the terminating NUL at the end, undefined
    behind it. *)
Definition char_at (s : string) (k : nat) : comp ascii :=
  match chars s !! k with
  | Some c => mret c
  | None => if (k =? length (chars s))%nat then mret (chr 0) else undefined
  end.

(** The size of a [load] or [store] by its digit. *)
Definition access_size (c : ascii) : option size :=
  if decide (c = "8") then Some S8
  else if decide (c = "1") then Some S16
  else if decide (c = "3") then Some S32
  else if decide (c = "6") then Some S64
  else None.

Definition bits (z : size) : Z := 8 * Z.of_nat (bytes z).

Definition load_code (z : size) : list line :=
  [comment ("load" +:+ to_string (bits z)); tabbed (Pop RAX); tabbed (Alu Xor RBX RBX);
   tabbed (Load z); tabbed (Push RBX)].

Definition store_code (z : size) : list line :=
  [comment ("store" +:+ to_string (bits z)); tabbed (Pop RBX); tabbed (Pop RAX); tabbed (Store z)].

(** The registers of a system call: its number and its arguments. *)
Definition syscall_regs : list reg := [RAX; RDI; RSI; RDX; R10; R8; R9].

Definition syscall_code (n : nat) : list line :=
  comment ("syscall" +:+ show_nat n) :: (tabbed ∘ Pop <$> take (S n) syscall_regs)
  ++ [tabbed Syscall; tabbed (Push RAX)].

Definition emit_intrinsic (op : Operation) : comp (list line) :=
  assert_impl (bool_decide (op_kind op = OpKind.Intrinsic)) "op.kind == Operation::Kind::Intrinsic" ≫= λ _,
  let sval := tok_sval (op_token op) in
  match op_intrinsic op with
  | Intrinsic.Argc =>
    mret [Text " ;; argc"; spaced (Mov_from_symbol RAX "_stacky_argc"); spaced (Push RAX)]
  | Intrinsic.Argv =>
    mret [Text " ;; argv"; spaced (Mov_from_symbol RAX "_stacky_argv"); spaced (Push RAX)]
  | Intrinsic.Random32 =>
    mret [comment "random32"; tabbed (Alu Xor RAX RAX); tabbed (Rdrand32 RAX); tabbed (Push RAX)]
  | Intrinsic.Random64 => mret [comment "random64"; tabbed (Rdrand RAX); tabbed (Push RAX)]
  | Intrinsic.Call => mret [comment "stack call"; tabbed (Pop RAX); tabbed (Call_reg RAX)]
  | Intrinsic.Add => mret (Impl_Math "add" [plain (Alu Add RAX RBX)])
  | Intrinsic.Bitwise_And => mret (Impl_Math "bitwise and" [plain (Alu And RAX RBX)])
  | Intrinsic.Bitwise_Or => mret (Impl_Math "bitwise or" [plain (Alu Or RAX RBX)])
  | Intrinsic.Bitwise_Xor => mret (Impl_Math "bitwise xor" [plain (Alu Xor RAX RBX)])
  | Intrinsic.Left_Shift => mret (Impl_Math "left shift" [plain (Mov RCX RBX); plain (Sal_cl RAX)])
  | Intrinsic.Mul => mret (Impl_Math "multiply" [plain (Alu Imul RAX RBX)])
  | Intrinsic.Right_Shift => mret (Impl_Math "right shift" [plain (Mov RCX RBX); plain (Sar_cl RAX)])
  | Intrinsic.Subtract => mret (Impl_Math "subtract" [plain (Alu Sub RAX RBX)])
  | Intrinsic.Min => mret (Impl_Math "min" [plain (Cmp RAX RBX); plain (Cmov_cc CA RAX RBX)])
  | Intrinsic.Max => mret (Impl_Math "max" [plain (Cmp RAX RBX); plain (Cmov_cc CB RAX RBX)])
  | Intrinsic.Boolean_Or =>
    mret (Impl_Math "or" [plain (Alu Xor RCX RCX); plain (Alu Or RAX RBX); plain (Set_cc CNE RCX);
      plain (Mov RAX RCX)])
  | Intrinsic.Boolean_And =>
    mret (Impl_Math "and" [plain (Alu Xor RCX RCX); plain (Alu And RAX RBX); plain (Set_cc CNE RCX);
      plain (Mov RAX RCX)])
  | Intrinsic.Div => mret (Impl_Div "div" [plain (Push RAX)])
  | Intrinsic.Div_Mod => mret (Impl_Div "divmod" [plain (Push RDX); plain (Push RAX)])
  | Intrinsic.Mod => mret (Impl_Div "mod" [plain (Push RDX)])
  | Intrinsic.Top => mret [comment "top"; tabbed Push_rsp]
  | Intrinsic.Drop => mret [comment "drop"; tabbed (Add_rsp 8)]
  | Intrinsic.Two_Drop => mret [comment "2drop"; tabbed (Add_rsp 16)]
  | Intrinsic.Dup => mret [comment "dup"; tabbed (Push_stack 0)]
  | Intrinsic.Two_Dup => mret [comment "2dup"; tabbed (Push_stack 8); tabbed (Push_stack 8)]
  | Intrinsic.Over => mret [comment "over"; tabbed (Push_stack 8)]
  | Intrinsic.Two_Over => mret [comment "2over"; tabbed (Push_stack 24); tabbed (Push_stack 24)]
  | Intrinsic.Tuck =>
    mret [comment "tuck"; tabbed (Pop RAX); tabbed (Pop RBX); tabbed (Push RAX); tabbed (Push RBX);
      tabbed (Push RAX)]
  | Intrinsic.Rot =>
    mret [comment "rot"; tabbed (Movdqu_xmm0 0); tabbed (Mov_from_stack RCX 16);
      tabbed (Mov_to_stack 0 RCX); tabbed (Movups_xmm0 8)]
  | Intrinsic.Swap =>
    mret [comment "swap"; tabbed (Pop RAX); tabbed (Pop RBX); tabbed (Push RAX); tabbed (Push RBX)]
  | Intrinsic.Two_Swap =>
    mret [comment "2swap"; tabbed (Movdqu_xmm0 0); tabbed (Mov_from_stack RAX 16);
      tabbed (Mov_to_stack 0 RAX); tabbed (Mov_from_stack RAX 24); tabbed (Mov_to_stack 8 RAX);
      tabbed (Movups_xmm0 16)]
  | Intrinsic.Boolean_Negate =>
    mret [comment "negate"; tabbed (Pop RBX); tabbed (Alu Xor RAX RAX); tabbed (Test RBX RBX);
      tabbed (Set_cc CE RAX); tabbed (Push RAX)]
  | Intrinsic.Equal => mret (Impl_Compare "equal" CE)
  | Intrinsic.Greater => mret (Impl_Compare "greater" CA)
  | Intrinsic.Greater_Eq => mret (Impl_Compare "greater or equal" CNB)
  | Intrinsic.Less => mret (Impl_Compare "less" CB)
  | Intrinsic.Less_Eq => mret (Impl_Compare "less or equal" CBE)
  | Intrinsic.Not_Equal => mret (Impl_Compare "not equal" CNE)
  | Intrinsic.Load =>
    c ← char_at sval 4;
    match access_size c with
    | Some z => mret (load_code z)
    | None => unreachable "Load intrinsic cannot have different name"
    end
  | Intrinsic.Store =>
    c ← char_at sval 5;
    match access_size c with
    | Some z => mret (store_code z)
    | None => unreachable "Store intrinsic cannot have different name"
    end
  | Intrinsic.Syscall =>
    c ← char_at sval 7;
    assert_impl ((schar "0" <=? schar c) && (schar c <=? schar "6"))
      "op.token.sval[7] >= '0' && op.token.sval[7] <= '6'" ≫= λ _,
    mret (syscall_code (Z.to_nat (ord c - ord "0")))
  end.

(** ** Bodies *)

Definition emit_return : list line :=
  [tabbed (Sub_symbol "_stacky_callptr" 1);
   tabbed (Mov_from_symbol RBX "_stacky_callptr");
   tabbed (Mov_from_indexed RAX "_stacky_callstack" RBX);
   tabbed (Push RAX);
   tabbed Ret].

Definition target (instr_prefix : string) (jump : Z) : string := instr_prefix +:+ to_string jump.

Definition assert_jump_set (op : Operation) : comp unit :=
  assert_impl (negb (op_jump op =? Empty_Jump)) "op.jump != Operation::Empty_Jump".

(** The code of the operation at index [i] of a body of [size] operations. *)
Definition emit_operation (instr_prefix : string) (size i : nat) (op : Operation) : comp (list line) :=
  match op_kind op with
  | OpKind.Intrinsic => emit_intrinsic op
  | OpKind.Cast => mret [comment ("cast " +:+ tok_sval (op_token op))]
  | OpKind.Call_Symbol =>
    mret [comment "call symbol"; tabbed (Call (Function_Prefix +:+ to_string (op_ival op)))]
  | OpKind.Push_Symbol =>
    mret [comment "push symbol"; tabbed (Push_symbol (op_symbol_prefix op +:+ to_string (op_ival op)))]
  | OpKind.Push_Int => mret [comment "push int"; tabbed (Mov_imm RAX (op_ival op)); tabbed (Push RAX)]
  | OpKind.Return => mret [comment "return"; tabbed (Jmp (target instr_prefix (Z.of_nat size)))]
  | OpKind.End =>
    assert_jump_set op ≫= λ _,
    mret (comment "end" ::
      if Z.of_nat (i + 1) =? op_jump op then [] else [tabbed (Jmp (target instr_prefix (op_jump op)))])
  | OpKind.Do | OpKind.If =>
    assert_jump_set op ≫= λ _,
    mret [comment "if | do"; tabbed (Pop RAX); tabbed (Test RAX RAX);
      tabbed (Jz (target instr_prefix (op_jump op)))]
  | OpKind.Else =>
    assert_jump_set op ≫= λ _,
    mret [comment "else"; tabbed (Jmp (target instr_prefix (op_jump op)))]
  | OpKind.While => mret [comment "while"]
  end.

(** The loop of [generate_instructions] from the operation at index [i] on. *)
Fixpoint generate_loop (jump_targets : gset Label_Info) (instr_prefix name : string) (size i : nat)
    (ops : list Operation) : comp (list line) :=
  match ops with
  | [] => mret [Label (target instr_prefix (Z.of_nat size))]
  | op :: ops =>
    let labels := if decide (mk_Label name (Z.of_nat i) ∈ jump_targets)
      then [Label (target instr_prefix (Z.of_nat i))] else [] in
    code ← emit_operation instr_prefix size i op;
    rest ← generate_loop jump_targets instr_prefix name size (S i) ops;
    mret (labels ++ code ++ rest)
  end.

Definition generate_instructions (jump_targets : gset Label_Info) (ops : list Operation)
    (instr_prefix name : string) : comp (list line) :=
  generate_loop jump_targets instr_prefix name (length ops) 0 ops.

(** ** The file *)

(** The segments of data: the variables of the emitted code and the arrays, then
    the strings, whose characters are printed as the signed numbers they are,
    with a zero behind them. *)
Definition control_lines : list line :=
  [Text "BITS 64"; Text "segment .bss";
   Data (Reserve tab "_stacky_callstack" " " S64 1024);
   Data (Reserve tab "_stacky_callptr" "   " S64 1);
   Data (Reserve " " "_stacky_argv" "      " S64 1);
   Data (Reserve " " "_stacky_argc" "      " S64 1)].

Definition array_lines (words : list (string * Word)) : list line :=
  omap (λ '(_, value), if decide (w_kind value = WordKind.Array)
    then Some (Data (Reserve tab (Symbol_Prefix +:+ to_string (w_id value)) " " S8 (w_byte_size value)))
    else None) words.

Definition string_lines (strings : list (string * Z)) : list line :=
  (λ '(key, value), Data (Bytes (String_Prefix +:+ to_string value) ((schar <$> chars key) ++ [0]))) <$> strings.

Definition asm_header (words : list (string * Word)) (strings : list (string * Z)) : list line :=
  control_lines ++ array_lines words ++ [Text "segment .rodata"] ++ string_lines strings ++ [Text "segment .text"].

(** A function: its prologue moves the return address to the call stack. *)
Definition function_prologue (name : string) (def : Word) : list line :=
  [Text (";; fun " +:+ name); Label (Function_Prefix +:+ to_string (w_id def));
   tabbed (Pop RAX); tabbed (Mov_from_symbol RBX "_stacky_callptr");
   tabbed (Mov_to_indexed "_stacky_callstack" RBX RAX); tabbed (Add_symbol "_stacky_callptr" 1)].

Definition generate_function (jump_targets : gset Label_Info) (name : string) (def : Word) : comp (list line) :=
  code ← generate_instructions jump_targets (w_function_body def)
    (Function_Body_Prefix +:+ to_string (w_id def) +:+ "_") name;
  mret (function_prologue name def ++ code ++ emit_return).

Fixpoint generate_functions (jump_targets : gset Label_Info) (words : list (string * Word)) : comp (list line) :=
  match words with
  | [] => mret []
  | (name, def) :: words =>
    if decide (w_kind def ≠ WordKind.Function) then generate_functions jump_targets words
    else
      code ← generate_function jump_targets name def;
      rest ← generate_functions jump_targets words;
      mret (code ++ rest)
  end.

(** What stands before and behind the operations of [main]. *)
Definition start_code : list line :=
  [Text "global _start"; Label "_start";
   Code "  " (Pop RAX); Code "  " (Mov_to_symbol "_stacky_argc" RAX);
   Code "  " (Mov_rsp_to_symbol "_stacky_argv")].

Definition exit_code : list line :=
  [comment "exit syscall"; tabbed (Mov_imm RAX 60); tabbed (Mov_imm RDI 0); tabbed Syscall].

(** [generate_assembly]; [asm_file] is whether the file could be opened. *)
Definition generate_assembly (geninfo : Generation_Info) (words : list (string * Word))
    (strings : list (string * Z)) (asm_path : string) (asm_file : bool) : comp (list line) :=
  if negb asm_file then
    error None ("Cannot generate ASM file " +:+ asm_path) ≫= λ _, mret []
  else
    functions ← generate_functions (jump_targets_lookup geninfo) words;
    code ← generate_instructions (jump_targets_lookup geninfo) (main geninfo) Label_Prefix "";
    mret (asm_header words strings ++ functions ++ start_code ++ code ++ exit_code).

(** ** Correctness of the intrinsics *)

(** The instructions of a sequence of lines. *)
Definition instrs (ls : list line) : list instr :=
  omap (λ l, match l with Code _ i => Some i | _ => None end) ls.

Lemma write_low_zero b : write_low S8 0 (Z.b2z b) = Z.b2z b.
Proof. by destruct b. Qed.

Lemma above_gtb a b : negb (a =? b) && negb (a <? b) = (a >? b).
Proof. destruct (Z.eqb_spec a b), (Z.ltb_spec a b), (Z.gtb_spec a b); try done; lia. Qed.

Lemma not_below_geb a b : negb (a <? b) = (a >=? b).
Proof. destruct (Z.ltb_spec a b), (Z.geb_spec a b); try done; lia. Qed.

Lemma below_equal_leb a b : (a =? b) || (a <? b) = (a <=? b).
Proof. destruct (Z.eqb_spec a b), (Z.ltb_spec a b), (Z.leb_spec a b); try done; lia. Qed.

Lemma min_above a b : (if a >? b then b else a) = Z.min a b.
Proof. destruct (Z.gtb_spec a b); lia. Qed.

Lemma max_below a b : (if a <? b then b else a) = Z.max a b.
Proof. destruct (Z.ltb_spec a b); lia. Qed.

Lemma div_below a b : is_u64 a → is_u64 b → b ≠ 0 → (2 ^ 64 <=? a / b) = false.
Proof. intros Ha Hb Hne. apply Z.leb_gt. by destruct (is_u64_div a b Ha Hb Hne). Qed.

(** Runs the instructions of an intrinsic on a stack with named values. *)
Ltac run_code :=
  cbn -[Z.mul Z.add Z.pow Z.sub write_low Z.ltb Z.leb Z.eqb Z.div Z.modulo Z.lxor Z.lor Z.land orb andb].

(** Identifies the result of the code with that of the semantics. *)
Ltac same_value :=
  rewrite ?Z.lxor_nilpotent, ?write_low_zero, ?above_gtb, ?not_below_geb, ?below_equal_leb;
  rewrite ?Z.land_diag, <-?min_above, <-?max_below.

Section Intrinsics.
  Context (limit base : Z).

(** A division: what the code behind it pushes. *)
Lemma divides c st m z z0 name end_ (f : Z → Z → list Z) :
  is_u64 z → is_u64 z0 →
  (∀ c', ∃ a', exec_all limit base (instrs end_)
    (mk_amachine (set_flags None None (set_reg RDX (z0 mod z) (set_reg RAX (z0 / z) c'))) st m)
    = Some (Ok a') ∧ a_stack a' = f z0 z ++ st ∧ a_mem a' = m) →
  match (if z =? 0 then Trap else Next (f z0 z ++ st)) with
  | Next st' => ∃ a', exec_all limit base (instrs (Impl_Div name end_)) (mk_amachine c (z :: z0 :: st) m)
      = Some (Ok a') ∧ a_stack a' = st' ∧ a_mem a' = m
  | Trap => exec_all limit base (instrs (Impl_Div name end_)) (mk_amachine c (z :: z0 :: st) m) = Some Fault
  | Underflow => True
  end.
Proof.
  intros Hz Hz0 Hend. unfold Impl_Div, instrs. rewrite omap_app. run_code.
  rewrite Z.lxor_nilpotent, Z.mul_0_l, Z.add_0_l. destruct (Z.eqb_spec z 0) as [->|Hne]; [done|].
  rewrite div_below by done. cbn [orb]. cbv iota. apply Hend.
Qed.

(** The abstract machine runs the code of an intrinsic as the reference
    semantics says. *)
Lemma emit_intrinsic_abstract op f l ls a :
  stack_intrinsic (op_intrinsic op) = Some f → emit_intrinsic op = (l, Done ls) →
  cpu_ok (a_cpu a) → values_ok (a_stack a) →
  match f (a_stack a) with
  | Next st' => ∃ a', exec_all limit base (instrs ls) a = Some (Ok a') ∧ a_stack a' = st' ∧ a_mem a' = a_mem a
  | Trap => exec_all limit base (instrs ls) a = Some Fault
  | Underflow => True
  end.
Proof.
  intros Hf Hls Hcpu Hvals. unfold emit_intrinsic in Hls.
  apply bind_Done in Hls as (? & [] & ? & _ & Hls & _).
  destruct a as [c st m]. cbn [a_stack a_cpu a_mem] in *.
  destruct (op_intrinsic op); simpl in Hf; simplify_eq; injection Hls as <- <-;
    unfold comparison, binary, division;
    repeat (destruct st as [|? st]; [done|]);
    repeat match goal with
    | H : values_ok (_ :: _) |- _ => apply Forall_cons in H as [? H]
    | H : Forall is_u64 (_ :: _) |- _ => apply Forall_cons in H as [? H]
    end;
    try (run_code; eexists; split; [reflexivity|split; [run_code; same_value; reflexivity|reflexivity]]).
  - apply (divides c st m z z0 _ _ (λ a b, [a / b])); [done|done|]. intros c'. eexists. run_code. done.
  - apply (divides c st m z z0 _ _ (λ a b, [a / b; a mod b])); [done|done|]. intros c'. eexists. run_code. done.
  - run_code. destruct (z0 <? z) eqn:Hlt; eexists; (split; [reflexivity|split; [|reflexivity]]);
      run_code; rewrite <-max_below, Hlt; reflexivity.
  - run_code. rewrite above_gtb. destruct (z0 >? z) eqn:Hgt; eexists; (split; [reflexivity|split; [|reflexivity]]);
      run_code; rewrite <-min_above, Hgt; reflexivity.
  - apply (divides c st m z z0 _ _ (λ a b, [a mod b])); [done|done|]. intros c'. eexists. run_code. done.
Qed.

(** The stack [st] lies in the memory of [m] above [rsp], and the rest of the
    memory is [heap]. *)
Definition stack_at (st : list Z) (heap : Z → Z) (m : machine) : Prop :=
  ∃ c, represents limit base (mk_amachine c st heap) m.

(** Seven instructions are the most an intrinsic on the stack takes. *)
Lemma emit_intrinsic_length op f l ls :
  stack_intrinsic (op_intrinsic op) = Some f → emit_intrinsic op = (l, Done ls) →
  (length (instrs ls) ≤ 7)%nat.
Proof.
  intros Hf Hls. unfold emit_intrinsic in Hls. apply bind_Done in Hls as (? & [] & ? & _ & Hls & _).
  destruct (op_intrinsic op); simpl in Hf; simplify_eq; injection Hls as <- <-; simpl; lia.
Qed.

Lemma run_stack_at is_ c st heap m a' :
  0 <= limit → base < 2 ^ 64 → represents limit base (mk_amachine c st heap) m →
  limit + 8 * Z.of_nat (length st + length is_) <= base →
  exec_all limit base is_ (mk_amachine c st heap) = Some (Ok a') →
  ∃ m', run is_ m = Some (Ok m') ∧ stack_at (a_stack a') (a_mem a') m'.
Proof.
  intros Hl Hb Hrep Hroom Hexec. pose proof (run_simulates limit base Hl Hb is_ _ _ Hrep Hroom) as H.
  rewrite Hexec in H. destruct H as (m' & Hrun & Hrep'). exists m'. split; [done|].
  exists (a_cpu a'). by destruct a'.
Qed.

End Intrinsics.

(** ** Properties *)

(** C9: the code of an intrinsic that works on the stack only, run on a machine
    with the stack in memory, turns that stack into the one of the reference
    semantics, or faults where the semantics divides by zero, and leaves the
    memory outside of the stack as it is. *)
Theorem emit_intrinsic_correct limit base op f l ls st heap m :
  0 <= limit → base < 2 ^ 64 → limit + 8 * Z.of_nat (length st + 7) <= base →
  stack_intrinsic (op_intrinsic op) = Some f → emit_intrinsic op = (l, Done ls) →
  stack_at limit base st heap m →
  match f st with
  | Next st' => ∃ m', run (instrs ls) m = Some (Ok m') ∧ stack_at limit base st' heap m'
  | Trap => run (instrs ls) m = Some Fault
  | Underflow => True
  end.
Proof.
  intros Hl Hb Hroom Hf Hls [c Hrep]. pose proof (emit_intrinsic_length _ _ _ _ Hf Hls) as Hlen.
  pose proof (emit_intrinsic_abstract limit base op f l ls _ Hf Hls (rep_cpu_ok _ _ _ _ Hrep)
    (rep_values _ _ _ _ Hrep)) as H. cbn [a_stack a_mem] in H.
  assert (limit + 8 * Z.of_nat (length st + length (instrs ls)) <= base) as Hr by lia.
  destruct (f st) as [st'| |]; [|pose proof (run_simulates limit base Hl Hb _ _ _ Hrep Hr) as H'; by rewrite H in H'|done].
  destruct H as (a' & Hexec & <- & <-). by eapply run_stack_at.
Qed.

(** A machine with the values 7 and 3 on its stack, 3 on top. *)
Definition sample_cpu : cpu := mk_cpu (λ _, 0) (0, 0) None None.
Definition sample_machine : machine :=
  mk_machine sample_cpu 984 (store 8 (store 8 (λ _, 0) 992 7) 984 3).

Lemma sample_machine_stack : stack_at 0 1000 [3; 7] (λ _, 0) sample_machine.
Proof.
  exists sample_cpu. constructor; simpl; try done.
  - apply store_bytes_ok, store_bytes_ok. by intros x.
  - by repeat constructor.
  - intros [|[|k]] v; simpl; intros [= <-]; reflexivity.
  - intros x Hx. rewrite !store_other by lia. done.
Qed.

Lemma emit_intrinsic_correct_witness :
  ∃ m', run [Alu Xor RDX RDX; Pop RBX; Pop RAX; Div RBX; Push RDX; Push RAX] sample_machine = Some (Ok m')
    ∧ stack_at 0 1000 [2; 1] (λ _, 0) m'.
Proof.
  apply (emit_intrinsic_correct 0 1000
    (mk_Operation OpKind.Intrinsic no_token 0 "" Intrinsic.Div_Mod None Empty_Jump "" (Type_of_kind TypeKind.Int) no_location)
    (division (λ a b, [a / b; a mod b])) []
    (Impl_Div "divmod" [plain (Push RDX); plain (Push RAX)]) [3; 7] (λ _, 0) sample_machine);
    [lia|lia|simpl; lia|reflexivity|reflexivity|apply sample_machine_stack].
Defined.

(** the code of a load pops an address outside of the stack and pushes the
    little-endian number at it, extended with zeros. *)
Theorem load_correct limit base z p st heap m :
  0 <= limit → base < 2 ^ 64 → limit + 8 * Z.of_nat (length st + 5) <= base →
  heap_access limit base p (bytes z) = true → stack_at limit base (p :: st) heap m →
  ∃ m', run (instrs (load_code z)) m = Some (Ok m') ∧
    stack_at limit base (load (bytes z) heap p :: st) heap m'.
Proof.
  intros Hl Hb Hroom Hacc [c Hrep].
  destruct (run_stack_at limit base (instrs (load_code z)) c (p :: st) heap m
    (mk_amachine (set_reg RBX (load (bytes z) heap p) (set_flags (Some true) (Some false)
      (set_reg RBX 0 (set_reg RAX p c)))) (load (bytes z) heap p :: st) heap)) as (m' & Hrun & Hst);
    [done|done|done|simpl; lia| |by exists m'].
  cbn -[heap_access write_low Z.lxor]. rewrite Hacc, Z.lxor_nilpotent. cbn -[write_low].
  by replace (write_low z 0 (load (bytes z) heap p)) with (load (bytes z) heap p) by (by destruct z).
Qed.

Lemma load_correct_witness :
  ∃ m', run (instrs (load_code S16)) (mk_machine sample_cpu 992 (store 8 (λ x, if x =? 2000 then 5 else 1) 992 2000))
      = Some (Ok m') ∧
    stack_at 0 1000 [5 + 2 ^ 8 * 1] (λ x, if x =? 2000 then 5 else 1) m'.
Proof.
  apply (load_correct 0 1000 S16 2000 [] (λ x, if x =? 2000 then 5 else 1)); [lia|lia|simpl; lia|reflexivity|].
  exists sample_cpu. constructor; simpl; try done.
  - apply store_bytes_ok. intros x. destruct (x =? 2000); lia.
  - by repeat constructor.
  - intros [|k] v; simpl; intros [= <-]; reflexivity.
  - intros x Hx. by rewrite store_other by lia.
Defined.

(** the code of a store pops a value and an address outside of the stack
    and writes the low bytes of the value at the address, and nothing else. *)
Theorem store_correct limit base z v p st heap m :
  0 <= limit → base < 2 ^ 64 → limit + 8 * Z.of_nat (length st + 5) <= base →
  heap_access limit base p (bytes z) = true → stack_at limit base (v :: p :: st) heap m →
  ∃ m', run (instrs (store_code z)) m = Some (Ok m') ∧
    stack_at limit base st (store (bytes z) heap p (read_low z v)) m'.
Proof.
  intros Hl Hb Hroom Hacc [c Hrep].
  destruct (run_stack_at limit base (instrs (store_code z)) c (v :: p :: st) heap m
    (mk_amachine (set_reg RAX p (set_reg RBX v c)) st (store (bytes z) heap p (read_low z v))))
    as (m' & Hrun & Hst); [done|done|done|simpl; lia| |by exists m'].
  cbn -[heap_access read_low]. by rewrite Hacc.
Qed.

Lemma store_correct_witness :
  ∃ m', run (instrs (store_code S8)) (mk_machine sample_cpu 984 (store 8 (store 8 (λ _, 0) 992 2000) 984 257))
      = Some (Ok m') ∧
    stack_at 0 1000 [] (store 1 (λ _, 0) 2000 1) m'.
Proof.
  apply (store_correct 0 1000 S8 257 2000 [] (λ _, 0)); [lia|lia|simpl; lia|reflexivity|].
  exists sample_cpu. constructor; simpl; try done.
  - apply store_bytes_ok, store_bytes_ok. by intros x.
  - by repeat constructor.
  - intros [|[|k]] v; simpl; intros [= <-]; reflexivity.
  - intros x Hx. by rewrite !store_other by lia.
Defined.

(** The part of the code of a system call before the instruction itself. *)
Definition syscall_prologue (n : nat) : list instr := Pop <$> take (S n) syscall_regs.

(** C20: the code of a system call with [n] arguments puts the top of the stack,
    its number, into [rax] and the arguments below it, in order, into [rdi],
    [rsi], [rdx], [r10], [r8] and [r9], before the instruction, and pushes the
    result. *)
Theorem syscall_registers limit base n number args st heap c :
  (n ≤ 6)%nat → length args = n →
  instrs (syscall_code n) = syscall_prologue n ++ [Syscall; Push RAX] ∧
  ∃ c', exec_all limit base (syscall_prologue n) (mk_amachine c (number :: args ++ st) heap)
      = Some (Ok (mk_amachine c' st heap)) ∧
    regs c' <$> take (S n) [RAX; RDI; RSI; RDX; R10; R8; R9] = number :: args.
Proof.
  intros Hn Hargs. subst n.
  do 7 (destruct args as [|? args]; [split; [reflexivity|]; eexists; split; reflexivity|]).
  simpl in Hn. lia.
Qed.

Lemma syscall_registers_witness :
  instrs (syscall_code 3) = syscall_prologue 3 ++ [Syscall; Push RAX] ∧
  ∃ c', exec_all 0 1000 (syscall_prologue 3) (mk_amachine sample_cpu ([1; 10; 20; 30] ++ []) (λ _, 0))
      = Some (Ok (mk_amachine c' [] (λ _, 0))) ∧
    regs c' <$> [RAX; RDI; RSI; RDX] = [1; 10; 20; 30].
Proof. apply (syscall_registers 0 1000 3 1 [10; 20; 30] [] (λ _, 0) sample_cpu); [lia|reflexivity]. Defined.
