(* ===== verification/BodyCode.v ===== *)
(** * Correctness of the code of a body

    The lines [generate_instructions] produces for a body, run with their
    labels and jumps on the abstract machine, follow the reference semantics of
    its operations.  Calls, symbols and the intrinsics that read memory or ask
    the system are left out here. *)

From S2P Require Import Prelude Syntax Errors Crossref Semantics Machine Codegen.

Open Scope Z_scope.

(** ** Control flow *)

Section Control.
  Context (limit base : Z).

Definition is_label (s : string) (l : line) : bool :=
  match l with Label t => bool_decide (t = s) | _ => false end.

Fixpoint find_label (ls : list line) (s : string) : option nat :=
  match ls with
  | [] => None
  | l :: ls =>
    if is_label s l then Some 0%nat else S <$> find_label ls s
  end.

(** The next line and machine. *)
Definition next (ls : list line) (pc : nat) (a : amachine) : option (effect (nat * amachine)) :=
  match ls !! pc with
  | Some (Text _) | Some (Label _) | Some (Data _) => Some (Ok (S pc, a))
  | Some (Code _ (Jmp s)) => pc ← find_label ls s; Some (Ok (pc, a))
  | Some (Code _ (Jz s)) =>
    z ← zf (a_cpu a);
    if z : bool then pc ← find_label ls s; Some (Ok (pc, a)) else Some (Ok (S pc, a))
  | Some (Code _ i) =>
    e ← exec_abstract limit base i a;
    Some match e with Ok a => Ok (S pc, a) | Fault => Fault end
  | None => None
  end.

Definition moves (ls : list line) (s s' : nat * amachine) : Prop := next ls s.1 s.2 = Some (Ok s').
Definition runs_to (ls : list line) : nat * amachine → nat * amachine → Prop := rtc (moves ls).
Definition faults (ls : list line) (s : nat * amachine) : Prop :=
  ∃ s', runs_to ls s s' ∧ next ls s'.1 s'.2 = Some Fault.

(** *** Straight-line code *)

Definition straight (i : instr) : bool :=
  match i with Jmp _ | Jz _ => false | _ => true end.

Lemma next_straight ls pc a indent i :
  ls !! pc = Some (Code indent i) → straight i = true →
  next ls pc a = e ← exec_abstract limit base i a;
    Some match e with Ok a => Ok (S pc, a) | Fault => Fault end.
Proof. intros Hls Hi. unfold next. rewrite Hls. by destruct i. Qed.

Lemma runs_straight code : ∀ ls pre post a a',
  ls = pre ++ code ++ post → forallb straight (instrs code) = true →
  exec_all limit base (instrs code) a = Some (Ok a') →
  runs_to ls (length pre, a) ((length pre + length code)%nat, a').
Proof.
  induction code as [|l code IH]; intros ls pre post a a' Hls Hs Hexec.
  { injection Hexec as <-. rewrite Nat.add_0_r. apply rtc_refl. }
  assert (ls !! length pre = Some l) as Hl.
  { rewrite Hls. by apply list_lookup_middle. }
  assert (∀ a1, forallb straight (instrs code) = true →
    exec_all limit base (instrs code) a1 = Some (Ok a') →
    runs_to ls (S (length pre), a1) ((length pre + length (l :: code))%nat, a')) as Hrest.
  { intros a1 H1 H2. replace (S (length pre)) with (length (pre ++ [l])) by (rewrite length_app; simpl; lia).
    replace (length pre + length (l :: code))%nat with (length (pre ++ [l]) + length code)%nat
      by (rewrite length_app; simpl; lia).
    apply (IH _ _ post); [|done|done]. rewrite Hls, <-app_assoc. done. }
  destruct l as [indent i|s|s|d].
  - simpl in Hs, Hexec. apply andb_true_iff in Hs as [Hi Hs].
    destruct (exec_abstract limit base i a) as [[a1|]|] eqn:He; [|done..].
    eapply rtc_l; [|by apply Hrest]. unfold moves. cbn [fst snd].
    by rewrite (next_straight _ _ _ _ _ Hl Hi), He.
  - eapply rtc_l; [|by apply Hrest]. unfold moves, next. cbn [fst snd]. by rewrite Hl.
  - eapply rtc_l; [|by apply Hrest]. unfold moves, next. cbn [fst snd]. by rewrite Hl.
  - eapply rtc_l; [|by apply Hrest]. unfold moves, next. cbn [fst snd]. by rewrite Hl.
Qed.

Lemma faults_straight code : ∀ ls pre post a,
  ls = pre ++ code ++ post → forallb straight (instrs code) = true →
  exec_all limit base (instrs code) a = Some Fault →
  faults ls (length pre, a).
Proof.
  induction code as [|l code IH]; intros ls pre post a Hls Hs Hexec; [done|].
  assert (ls !! length pre = Some l) as Hl.
  { rewrite Hls. by apply list_lookup_middle. }
  assert (∀ a1, moves ls (length pre, a) (S (length pre), a1) →
    forallb straight (instrs code) = true → exec_all limit base (instrs code) a1 = Some Fault →
    faults ls (length pre, a)) as Hrest.
  { intros a1 Hmove H1 H2. destruct (IH ls (pre ++ [l]) post a1) as (s' & Hrun & Hf);
      [rewrite Hls, <-app_assoc; done|done|done|].
    exists s'. split; [|done]. eapply rtc_l; [exact Hmove|].
    by replace (length (pre ++ [l])) with (S (length pre)) in Hrun by (rewrite length_app; simpl; lia). }
  destruct l as [indent i|s|s|d].
  - simpl in Hs, Hexec. apply andb_true_iff in Hs as [Hi Hs].
    destruct (exec_abstract limit base i a) as [[a1|]|] eqn:He; [|..|done].
    + apply (Hrest a1); [|done|done]. unfold moves. cbn [fst snd].
      by rewrite (next_straight _ _ _ _ _ Hl Hi), He.
    + exists (length pre, a). split; [apply rtc_refl|]. cbn [fst snd].
      by rewrite (next_straight _ _ _ _ _ Hl Hi), He.
  - apply (Hrest a); [|done|done]. unfold moves, next. cbn [fst snd]. by rewrite Hl.
  - apply (Hrest a); [|done|done]. unfold moves, next. cbn [fst snd]. by rewrite Hl.
  - apply (Hrest a); [|done|done]. unfold moves, next. cbn [fst snd]. by rewrite Hl.
Qed.

(** *** Labels *)

Definition unlabelled (s : string) (ls : list line) : Prop := Forall (λ l, is_label s l = false) ls.

Lemma find_label_app ls1 ls2 s :
  unlabelled s ls1 → find_label (ls1 ++ ls2) s = Nat.add (length ls1) <$> find_label ls2 s.
Proof.
  induction 1 as [|l ls1 Hl Hls IH]; simpl app; cbn [find_label].
  - simpl. by destruct (find_label ls2 s).
  - rewrite Hl, IH. simpl. by destruct (find_label ls2 s).
Qed.

End Control.

(** ** The lines of a body *)

Section Body.
  Context (limit base : Z) (jump_targets : gset Label_Info) (instr_prefix name : string).

Definition labels (i : nat) : list line :=
  if decide (mk_Label name (Z.of_nat i) ∈ jump_targets) then [Label (target instr_prefix (Z.of_nat i))] else [].

(** [chunks] are the lines of the operations [ops], the first of which has
    index [k] in a body of [size]. *)
Definition chunks_of (size k : nat) (ops : list Operation) (chunks : list (list line)) : Prop :=
  length chunks = length ops ∧
  ∀ i op, ops !! i = Some op → ∃ l code,
    emit_operation instr_prefix size (k + i) op = (l, Done code) ∧
    chunks !! i = Some (labels (k + i) ++ code).

Lemma generate_loop_chunks size ops : ∀ k l ls,
  generate_loop jump_targets instr_prefix name size k ops = (l, Done ls) →
  ∃ chunks, chunks_of size k ops chunks ∧ ls = concat chunks ++ [Label (target instr_prefix (Z.of_nat size))].
Proof.
  induction ops as [|op ops IH]; intros k l ls; cbn [generate_loop].
  { intros [= <- <-]. by exists []. }
  intros H. apply bind_Done in H as (l1 & code & ? & Hcode & H & _).
  apply bind_Done in H as (? & rest & ? & Hrest & [= <- <-] & _).
  destruct (IH _ _ _ Hrest) as (chunks & [Hlen Hch] & ->).
  exists ((labels k ++ code) :: chunks). split; [split; [simpl; by rewrite Hlen|]|].
  - intros [|i] op' Hop.
    + injection Hop as <-. rewrite Nat.add_0_r. eauto.
    + destruct (Hch i op' Hop) as (l' & code' & Hc & Hch'). rewrite Nat.add_succ_r. eauto.
  - simpl. by rewrite <-!app_assoc.
Qed.

(** The code of an operation has neither labels nor data. *)
Definition no_label (l : line) : Prop := match l with Label _ => False | _ => True end.
Definition no_data (l : line) : Prop := match l with Data _ => False | _ => True end.
Definition plain_line (l : line) : Prop := match l with Code _ _ | Text _ => True | _ => False end.

Lemma emit_intrinsic_plain op l ls : emit_intrinsic op = (l, Done ls) → Forall plain_line ls.
Proof.
  unfold emit_intrinsic. intros H. apply bind_Done in H as (? & [] & ? & _ & H & _). cbv zeta in H.
  destruct (op_intrinsic op);
    try (injection H as <- <-; repeat constructor);
    apply bind_Done in H as (? & c & ? & _ & H & _);
    try (destruct (access_size c); [injection H as <- <-; repeat constructor|done]).
  apply bind_Done in H as (? & [] & ? & _ & H & _). injection H as <- <-.
  constructor; [done|]. apply Forall_app. split; [|by repeat constructor].
  apply Forall_fmap. by apply list.Forall_forall.
Qed.

Lemma emit_operation_plain size i op l ls :
  emit_operation instr_prefix size i op = (l, Done ls) → Forall plain_line ls.
Proof.
  unfold emit_operation. destruct (op_kind op); try apply emit_intrinsic_plain;
    intros H; try (injection H as <- <-; by repeat constructor);
    apply bind_Done in H as (? & [] & ? & _ & H & _); injection H as <- <-; try by repeat constructor.
  constructor; [done|]. case_match; by repeat constructor.
Qed.

Lemma emit_operation_no_label size i op l ls :
  emit_operation instr_prefix size i op = (l, Done ls) → Forall no_label ls.
Proof. intros H%emit_operation_plain. eapply list.Forall_impl; [exact H|]. by intros []. Qed.

Lemma generate_loop_no_data size ops : ∀ i l ls,
  generate_loop jump_targets instr_prefix name size i ops = (l, Done ls) → Forall no_data ls.
Proof.
  induction ops as [|op ops IH]; intros i l ls; cbn [generate_loop]; [intros [= <- <-]; by repeat constructor|].
  intros H. apply bind_Done in H as (? & code & ? & Hcode%emit_operation_plain & H & _).
  apply bind_Done in H as (? & rest & ? & Hrest%IH & [= <- <-] & _).
  repeat (apply Forall_app; split); [case_decide; by repeat constructor| |done].
  eapply list.Forall_impl; [exact Hcode|]. by intros [].
Qed.

Lemma target_inj i j : target instr_prefix (Z.of_nat i) = target instr_prefix (Z.of_nat j) → i = j.
Proof. unfold target, to_string. intros H%(inj _)%(inj _). lia. Qed.

Lemma no_label_unlabelled s ls : Forall no_label ls → unlabelled s ls.
Proof. intros H. eapply list.Forall_impl; [exact H|]. by intros [|t| |]. Qed.

Lemma labels_unlabelled i j : i ≠ j → unlabelled (target instr_prefix (Z.of_nat j)) (labels i).
Proof.
  intros Hij. unfold labels. case_decide; constructor; [|constructor]. simpl.
  apply bool_decide_false. intros ?%target_inj. done.
Qed.

Section Chunks.
  Context (ops : list Operation) (chunks : list (list line)).
  Context (Hchunks : chunks_of (length ops) 0 ops chunks).

Definition end_label : line := Label (target instr_prefix (Z.of_nat (length ops))).
Definition body_lines : list line := concat chunks ++ [end_label].

(** The line an operation starts at. *)
Definition pc_of (i : nat) : nat := length (concat (take i chunks)).

Lemma chunk_unlabelled i j chunk :
  chunks !! i = Some chunk → i ≠ j → unlabelled (target instr_prefix (Z.of_nat j)) chunk.
Proof.
  intros Hi Hij. destruct Hchunks as [Hlen Hch].
  destruct (lookup_lt_is_Some_2 ops i) as [op Hop]; [rewrite <-Hlen; by eapply lookup_lt_Some|].
  destruct (Hch _ _ Hop) as (l & code & Hcode & Hchunk). simplify_eq. apply Forall_app. split.
  - by apply labels_unlabelled.
  - by eapply no_label_unlabelled, emit_operation_no_label.
Qed.

Lemma prefix_unlabelled j n :
  (n ≤ j)%nat → unlabelled (target instr_prefix (Z.of_nat j)) (concat (take n chunks)).
Proof.
  intros Hn. apply Forall_concat, Forall_lookup. intros i chunk Hi.
  apply lookup_take_Some in Hi as [Hi Hlt]. apply (chunk_unlabelled i); [done|lia].
Qed.

(** The lines around a chunk. *)
Lemma body_split i chunk :
  chunks !! i = Some chunk →
  body_lines = concat (take i chunks) ++ chunk ++ concat (drop (S i) chunks) ++ [end_label]
  ∧ pc_of (S i) = (pc_of i + length chunk)%nat.
Proof.
  intros Hi. unfold body_lines, pc_of. split.
  - rewrite <-(take_drop_middle chunks i chunk Hi) at 1. rewrite concat_app. simpl. by rewrite <-!app_assoc.
  - rewrite (take_S_r _ _ chunk) by done. rewrite concat_app, length_app. simpl. by rewrite app_nil_r.
Qed.

(** A labelled operation is found where it starts. *)
Lemma find_label_target j :
  (j ≤ length ops)%nat → mk_Label name (Z.of_nat j) ∈ jump_targets ∨ j = length ops →
  find_label body_lines (target instr_prefix (Z.of_nat j)) = Some (pc_of j).
Proof.
  intros Hj Hlab. destruct Hchunks as [Hlen Hch]. destruct (decide (j = length ops)) as [->|Hne].
  - unfold body_lines. rewrite find_label_app.
    + cbn [find_label end_label is_label]. unfold end_label, is_label. rewrite bool_decide_true by done. simpl.
      unfold pc_of. rewrite take_ge by lia. f_equal. lia.
    + pose proof (prefix_unlabelled (length ops) (length ops) ltac:(done)) as H. by rewrite take_ge in H by lia.
  - destruct (lookup_lt_is_Some_2 ops j) as [op Hop]; [lia|].
    destruct (Hch _ _ Hop) as (l & code & _ & Hchunk). destruct (body_split _ _ Hchunk) as [-> _].
    rewrite find_label_app by (by apply prefix_unlabelled). unfold labels.
    destruct Hlab as [Hlab|]; [|done]. rewrite decide_True by done. simpl.
    rewrite bool_decide_true by done. simpl. unfold pc_of. f_equal. lia.
Qed.

(** Every jump leads to an operation of the body, or to its end, and has a
    label. *)
Definition jumps_labelled : Prop :=
  Forall (λ op, is_jump (op_kind op) →
    mk_Label name (op_jump op) ∈ jump_targets ∧ 0 <= op_jump op <= Z.of_nat (length ops)) ops.

Context (Hjumps : jumps_labelled).

Lemma find_label_jump i op :
  ops !! i = Some op → is_jump (op_kind op) →
  find_label body_lines (target instr_prefix (op_jump op)) = Some (pc_of (Z.to_nat (op_jump op))).
Proof.
  intros Hop Hk. destruct (proj1 (list.Forall_forall _ _) Hjumps op) as [Hlab Hrange];
    [by eapply list_elem_of_lookup_2|done|].
  rewrite <-(Z2Nat.id (op_jump op)) at 1 by lia. apply find_label_target; [lia|].
  left. by rewrite Z2Nat.id by lia.
Qed.

Lemma instrs_labels i code : instrs (labels i ++ code) = instrs code.
Proof. unfold instrs, labels. rewrite omap_app. by case_decide. Qed.

(** *** The code of one operation *)

Section Operation.
  Context (i : nat) (op : Operation) (code : list line).
  Context (Hchunk : chunks !! i = Some (labels i ++ code)).

(** Without jumps: the next operation follows. *)
Lemma code_straight a a' :
  forallb straight (instrs code) = true → exec_all limit base (instrs code) a = Some (Ok a') →
  runs_to limit base body_lines (pc_of i, a) (pc_of (S i), a').
Proof.
  intros Hs Hexec. destruct (body_split _ _ Hchunk) as [Hlines ->].
  eapply runs_straight; [exact Hlines|by rewrite instrs_labels|by rewrite instrs_labels].
Qed.

Lemma code_faults a :
  forallb straight (instrs code) = true → exec_all limit base (instrs code) a = Some Fault →
  faults limit base body_lines (pc_of i, a).
Proof.
  intros Hs Hexec. destruct (body_split _ _ Hchunk) as [Hlines _].
  eapply faults_straight; [exact Hlines|by rewrite instrs_labels|by rewrite instrs_labels].
Qed.

(** With a last jump: the state in front of it. *)
Lemma code_before_jump pre jump a a' :
  code = pre ++ [tabbed jump] → forallb straight (instrs pre) = true →
  exec_all limit base (instrs pre) a = Some (Ok a') →
  ∃ pc, runs_to limit base body_lines (pc_of i, a) (pc, a') ∧
    body_lines !! pc = Some (tabbed jump) ∧ S pc = pc_of (S i).
Proof.
  intros Hcode Hs Hexec. destruct (body_split _ _ Hchunk) as [Hlines Hnext].
  exists (pc_of i + length (labels i ++ pre))%nat. split_and!.
  - eapply (runs_straight limit base (labels i ++ pre)); [|by rewrite instrs_labels|by rewrite instrs_labels].
    rewrite Hlines, Hcode, <-!app_assoc. done.
  - rewrite Hlines, Hcode. unfold pc_of. rewrite lookup_app_r by lia.
    rewrite <-app_assoc, <-app_assoc, app_assoc. apply list_lookup_middle. lia.
  - rewrite Hnext, Hcode, app_assoc, (length_app _ [_]). simpl. lia.
Qed.

Lemma code_jmp pre a a' pc' t :
  code = pre ++ [tabbed (Jmp t)] → forallb straight (instrs pre) = true →
  exec_all limit base (instrs pre) a = Some (Ok a') → find_label body_lines t = Some pc' →
  runs_to limit base body_lines (pc_of i, a) (pc', a').
Proof.
  intros Hcode Hs Hexec Hfind. destruct (code_before_jump _ _ _ _ Hcode Hs Hexec) as (pc & Hrun & Hl & _).
  eapply rtc_r; [exact Hrun|]. unfold moves, next. cbn [fst snd]. rewrite Hl. simpl. by rewrite Hfind.
Qed.

Lemma code_jz pre a a' z pc' t :
  code = pre ++ [tabbed (Jz t)] → forallb straight (instrs pre) = true →
  exec_all limit base (instrs pre) a = Some (Ok a') → zf (a_cpu a') = Some z →
  find_label body_lines t = Some pc' →
  runs_to limit base body_lines (pc_of i, a) (if z then pc' else pc_of (S i), a').
Proof.
  intros Hcode Hs Hexec Hz Hfind.
  destruct (code_before_jump _ _ _ _ Hcode Hs Hexec) as (pc & Hrun & Hl & <-).
  eapply rtc_r; [exact Hrun|]. unfold moves, next. cbn [fst snd]. rewrite Hl. simpl. rewrite Hz. simpl.
  destruct z; [|done]. by rewrite Hfind.
Qed.

End Operation.

(** *** The steps of a body *)

(** The operations whose code is covered. *)
Definition local (op : Operation) : Prop :=
  match op_kind op with
  | OpKind.Call_Symbol | OpKind.Push_Symbol => False
  | OpKind.Intrinsic => is_Some (stack_intrinsic (op_intrinsic op))
  | _ => True
  end.

Context (words : Words) (arguments : Operation → option nat).

(** The machine [a'] after [a]: the stack [st] and the same memory. *)
Definition becomes (a : amachine) (st : list Z) (a' : amachine) : Prop :=
  amachine_ok a' ∧ a_stack a' = st ∧ a_mem a' = a_mem a.

Lemma emit_intrinsic_straight o f l ls :
  stack_intrinsic (op_intrinsic o) = Some f → emit_intrinsic o = (l, Done ls) →
  forallb straight (instrs ls) = true.
Proof.
  intros Hf Hls. unfold emit_intrinsic in Hls. apply bind_Done in Hls as (? & [] & ? & _ & Hls & _).
  destruct (op_intrinsic o); simpl in Hf; simplify_eq; injection Hls as <- <-; reflexivity.
Qed.

Lemma chunk_of i op :
  ops !! i = Some op →
  ∃ l code, emit_operation instr_prefix (length ops) i op = (l, Done code) ∧ chunks !! i = Some (labels i ++ code).
Proof. destruct Hchunks as [_ Hch]. apply Hch. Qed.

(** Operations whose code has no jump. *)
Lemma straight_simulates i op code a a' :
  ops !! i = Some op → chunks !! i = Some (labels i ++ code) → amachine_ok a →
  forallb straight (instrs code) = true → exec_all limit base (instrs code) a = Some (Ok a') →
  a_mem a' = a_mem a →
  runs_to limit base body_lines (pc_of i, a) (pc_of (S i), a') ∧ becomes a (a_stack a') a'.
Proof.
  intros Hop Hchunk Hok Hs Hexec Hm. split; [by eapply code_straight|].
  split; [by eapply exec_all_ok|done].
Qed.

(** A condition: [pop], [test] and [jz]. *)
Lemma branch_simulates i op c st a :
  ops !! i = Some op → op_kind op = OpKind.If ∨ op_kind op = OpKind.Do →
  amachine_ok a → a_stack a = c :: st →
  ∃ a', runs_to limit base body_lines (pc_of i, a)
      (pc_of (if c =? 0 then Z.to_nat (op_jump op) else S i), a') ∧ becomes a st a'.
Proof.
  intros Hop Hk Hok Hst. destruct (chunk_of _ _ Hop) as (l & code & Hcode & Hchunk).
  assert (code = [comment "if | do"; tabbed (Pop RAX); tabbed (Test RAX RAX)]
    ++ [tabbed (Jz (target instr_prefix (op_jump op)))]) as ->.
  { unfold emit_operation in Hcode. destruct Hk as [Hk|Hk]; rewrite Hk in Hcode;
      by apply bind_Done in Hcode as (? & [] & ? & _ & [= <- <-] & _). }
  pose proof (find_label_jump _ _ Hop) as Hfind.
  set (a' := mk_amachine (set_flags (Some (c =? 0)) (Some false) (set_reg RAX c (a_cpu a))) st (a_mem a)).
  assert (exec_all limit base (instrs [comment "if | do"; tabbed (Pop RAX); tabbed (Test RAX RAX)]) a
    = Some (Ok a')) as Hexec.
  { cbn -[Z.land Z.eqb]. rewrite Hst. cbn -[Z.land Z.eqb]. by rewrite Z.land_diag. }
  exists a'. split; [|split; [by eapply exec_all_ok|done]].
  pose proof (code_jz i _ Hchunk _ a a' (c =? 0) _ _ eq_refl eq_refl Hexec eq_refl
    (Hfind ltac:(by destruct Hk as [-> | ->]))) as H. by destruct (c =? 0).
Qed.

(** The unconditional jumps. *)
Lemma jump_simulates i op a :
  ops !! i = Some op → op_kind op = OpKind.Else ∨ op_kind op = OpKind.End → amachine_ok a →
  runs_to limit base body_lines (pc_of i, a) (pc_of (Z.to_nat (op_jump op)), a).
Proof.
  intros Hop Hk Hok. destruct (chunk_of _ _ Hop) as (l & code & Hcode & Hchunk).
  assert (is_jump (op_kind op)) as Hj by (by destruct Hk as [-> | ->]).
  pose proof (find_label_jump _ _ Hop Hj) as Hfind. unfold emit_operation in Hcode.
  destruct Hk as [Hk|Hk]; rewrite Hk in Hcode;
    apply bind_Done in Hcode as (? & [] & ? & _ & [= _ Hc] & _).
  - subst code. by eapply (code_jmp i _ Hchunk [comment "else"]).
  - destruct (Z.eqb_spec (Z.of_nat (i + 1)) (op_jump op)) as [He|He]; subst code.
    + replace (Z.to_nat (op_jump op)) with (S i) by lia. by eapply code_straight.
    + by eapply (code_jmp i _ Hchunk [comment "end"]).
Qed.

(** One step of the reference semantics. *)
Lemma step_simulates i st c' a :
  (∀ op, ops !! i = Some op → local op) → amachine_ok a → a_stack a = st →
  step words arguments (Running [mk_frame ops i] st) c' →
  match c' with
  | Running fs st' => ∃ i' a', fs = [mk_frame ops i'] ∧
      runs_to limit base body_lines (pc_of i, a) (pc_of i', a') ∧ becomes a st' a'
  | Halted st' => ∃ a', runs_to limit base body_lines (pc_of i, a) (pc_of (length ops), a') ∧ becomes a st' a'
  | Trapped => faults limit base body_lines (pc_of i, a)
  end.
Proof.
  intros Hlocal Hok Hst Hstep. inversion Hstep as
    [? ? op ? ? Hop Hk|? ? op ? ? ? Hop Hk Ha|? ? op ? ? Hop Hk|? ? op ? st1 c Hop Hk
    |? ? op ? ? Hop Hk|? ? op ? ? nm w Hop Hk Hname Hw|? ? op ? ? Hop Hk|? ? ? ? Hop
    |? ? op ? ? f st' Hop Hk Hf Hf'|? ? op ? ? f Hop Hk Hf Hf'
    |? ? op ? ? taken left res Hop Hk Henv Htaken Hres Hu]; simplify_eq;
    try (pose proof (Hlocal _ Hop) as Hl; unfold local in Hl; destruct (chunk_of _ _ Hop) as (l & code & Hcode & Hchunk);
         unfold emit_operation in Hcode).
  - rewrite Hk in Hcode. injection Hcode as <- <-.
    destruct (straight_simulates i op _ a (mk_amachine (set_reg RAX (u64 (op_ival op)) (a_cpu a))
      (u64 (op_ival op) :: a_stack a) (a_mem a)) Hop Hchunk Hok) as [Hr Hb]; [done|done|done|].
    eexists _, _. done.
  - by rewrite Hk in Hl.
  - assert (∃ t, code = [Text t]) as [t ->].
    { destruct Hk as [Hk|Hk]; rewrite Hk in Hcode; injection Hcode as <- <-; by eexists. }
    destruct (straight_simulates i op _ a a Hop Hchunk Hok) as [Hr Hb]; [done|done|done|]. eexists _, _. done.
  - destruct (branch_simulates i op c st1 a Hop Hk Hok) as (a' & Hr & Hb); [done|]. eexists _, _. done.
  - pose proof (jump_simulates i op a Hop Hk Hok). eexists _, _. done.
  - by rewrite Hk in Hl.
  - rewrite Hk in Hcode. injection Hcode as <- <-. exists a. split; [|done].
    eapply (code_jmp i _ Hchunk [comment "return"]); [done|done|done|]. apply find_label_target; [lia|by right].
  - exists a. split; [|done]. replace (pc_of i) with (pc_of (length ops)); [apply rtc_refl|].
    apply lookup_ge_None in Hop. unfold pc_of. destruct Hchunks as [Hlen _]. by rewrite !take_ge by lia.
  - rewrite Hk in Hcode. destruct Hok as (Hc & Hv & Hm).
    pose proof (emit_intrinsic_abstract limit base op f _ _ a Hf Hcode Hc Hv) as H. rewrite Hf' in H.
    destruct H as (a' & Hexec & <- & Hmem).
    destruct (straight_simulates i op _ a a' Hop Hchunk) as [Hr Hb];
      [done|by eapply emit_intrinsic_straight|done|done|]. eexists _, _. done.
  - rewrite Hk in Hcode. destruct Hok as (Hc & Hv & Hm).
    pose proof (emit_intrinsic_abstract limit base op f _ _ a Hf Hcode Hc Hv) as H. rewrite Hf' in H.
    eapply code_faults; [done|by eapply emit_intrinsic_straight|done].
  - rewrite Hk in Hl. destruct Hl as [f Hf]. by destruct (op_intrinsic op).
Qed.

Context (Hlocal : Forall local ops).

Lemma steps_simulate i st c a :
  amachine_ok a → a_stack a = st → steps words arguments (Running [mk_frame ops i] st) c →
  match c with
  | Running _ st' => ∃ pc a', runs_to limit base body_lines (pc_of i, a) (pc, a') ∧ becomes a st' a'
  | Halted st' => ∃ a', runs_to limit base body_lines (pc_of i, a) (pc_of (length ops), a') ∧ becomes a st' a'
  | Trapped => faults limit base body_lines (pc_of i, a)
  end.
Proof.
  intros Hok Hst Hsteps. remember (Running [mk_frame ops i] st) as c0 eqn:Hc0.
  revert i st a Hok Hst Hc0. induction Hsteps as [c|c c1 c2 Hstep Hsteps IH]; intros i st a Hok Hst ->.
  { exists (pc_of i), a. split; [apply rtc_refl|done]. }
  apply (step_simulates i st c1 a) in Hstep; [|intros op Hop; by eapply Forall_lookup_1|done|done].
  destruct c1 as [fs st1|st1|].
  - destruct Hstep as (i1 & a1 & -> & Hr & Hok1 & Hst1 & Hm1). specialize (IH i1 st1 a1 Hok1 Hst1 eq_refl).
    destruct c2 as [fs2 st2|st2|].
    + destruct IH as (pc & a2 & Hr2 & ? & ? & Hm2). exists pc, a2.
      split; [by etrans|]. split_and!; [done|done|congruence].
    + destruct IH as (a2 & Hr2 & ? & ? & Hm2). exists a2.
      split; [by etrans|]. split_and!; [done|done|congruence].
    + destruct IH as (s' & Hr2 & Hf). exists s'. split; [by etrans|done].
  - inversion Hsteps as [|? ? ? Hs]; [by subst|inversion Hs].
  - inversion Hsteps as [|? ? ? Hs]; [by subst|inversion Hs].
Qed.

End Chunks.
End Body.

Lemma generate_instructions_runs limit base jump_targets ops instr_prefix name l ls words arguments a c :
  generate_instructions jump_targets ops instr_prefix name = (l, Done ls) →
  jumps_labelled jump_targets name ops → Forall local ops → amachine_ok a →
  steps words arguments (Running [mk_frame ops 0] (a_stack a)) c →
  match c with
  | Running _ st' => ∃ pc a', runs_to limit base ls (0%nat, a) (pc, a') ∧ a_stack a' = st'
  | Halted st' => ∃ a', runs_to limit base ls (0%nat, a) (length ls, a') ∧ a_stack a' = st' ∧ a_mem a' = a_mem a
  | Trapped => faults limit base ls (0%nat, a)
  end.
Proof.
  intros Hgen Hjumps Hlocal Hok Hsteps.
  destruct (generate_loop_chunks _ _ _ _ _ _ _ _ Hgen) as (chunks & Hchunks & ->).
  pose proof (steps_simulate limit base _ _ _ _ _ Hchunks Hjumps words arguments Hlocal 0 _ c a Hok eq_refl Hsteps)
    as H. unfold body_lines, end_label in H. destruct c as [fs st'|st'|].
  - destruct H as (pc & a' & Hr & _ & Hst & _). eauto.
  - destruct H as (a' & Hr & _ & Hst & Hm). exists a'. split_and!; [|done|done].
    eapply rtc_r; [exact Hr|]. unfold moves, next, pc_of. cbn [fst snd].
    rewrite take_ge by (by rewrite (proj1 Hchunks)). rewrite list_lookup_middle by done.
    rewrite length_app. simpl. do 3 f_equal. lia.
  - exact H.
Qed.

(** ** Properties *)

(** the lines generated for a body of integers, intrinsics on the stack,
    conditionals and loops follow its operations: where these halt, the lines
    run from the first to behind the last one and leave the same stack and an
    unchanged memory, and where they divide by zero the lines fault. *)
Theorem generate_instructions_correct limit base jump_targets ops instr_prefix name l ls words arguments a c :
  generate_instructions jump_targets ops instr_prefix name = (l, Done ls) →
  jumps_labelled jump_targets name ops → Forall local ops → amachine_ok a →
  steps words arguments (Running [mk_frame ops 0] (a_stack a)) c →
  match c with
  | Running _ st' => ∃ pc a', runs_to limit base ls (0%nat, a) (pc, a') ∧ a_stack a' = st'
  | Halted st' => ∃ a', runs_to limit base ls (0%nat, a) (length ls, a') ∧ a_stack a' = st' ∧ a_mem a' = a_mem a
  | Trapped => faults limit base ls (0%nat, a)
  end.
Proof. apply generate_instructions_runs. Qed.

(** The body of [1 if 2 else 3 end], with its jumps. *)
Definition sample_body : list Operation :=
  let op k v j := mk_Operation k no_token v "" Intrinsic.Add None j "" (Type_of_kind TypeKind.Int) no_location in
  [op OpKind.Push_Int 1 Empty_Jump; op OpKind.If 0 4; op OpKind.Push_Int 2 Empty_Jump; op OpKind.Else 0 5;
   op OpKind.Push_Int 3 Empty_Jump; op OpKind.End 0 6].

Definition sample_targets : gset Label_Info := {[ mk_Label "" 4; mk_Label "" 5; mk_Label "" 6 ]}.

Lemma generate_instructions_correct_witness :
  ∃ l ls, generate_instructions sample_targets sample_body Label_Prefix "" = (l, Done ls) ∧
  ∃ a', runs_to 0 1000 ls (0%nat, mk_amachine sample_cpu [] (λ _, 0)) (length ls, a') ∧
    a_stack a' = [2] ∧ a_mem a' = λ _, 0.
Proof.
  eexists _, _. split; [reflexivity|].
  apply (generate_instructions_correct 0 1000 sample_targets sample_body Label_Prefix "" [] _ ∅ (λ _, None)
    (mk_amachine sample_cpu [] (λ _, 0)) (Halted [2])).
  - reflexivity.
  - repeat (constructor; [intros Hj; simpl in Hj; try done;
      (split; [by apply (bool_decide_unpack _)|simpl; lia])|]). constructor.
  - by repeat constructor.
  - split_and!; [|constructor|]; [|by intros x]. by repeat split.
  - eapply rtc_l; [by eapply S_push_int|]. eapply rtc_l; [eapply S_branch; [done|by left]|].
    eapply rtc_l; [by eapply S_push_int|]. eapply rtc_l; [eapply S_jump; [done|by left]|].
    eapply rtc_l; [eapply S_jump; [done|by right]|]. eapply rtc_l; [by eapply S_end|]. apply rtc_refl.
Defined.
