(* ===== verification/Optimizer.v ===== *)
(** * The optimizer (src/src/optimizer.cc)

    The three passes and the loop that repeats them.  The iteration order of
    the unordered map of words is a parameter: the list of its keys in the
    order they are visited.  The messages printed in verbose mode are left
    out. *)

From S2P Require Import Prelude Syntax Errors Operations.

Open Scope Z_scope.

(** ** Vectors *)

(** [v.erase(begin + first, begin + last)]: undefined unless it is a range of
    the vector. *)
Definition erase {A} (v : list A) (first last : Z) : comp (list A) :=
  if (0 <=? first) && (first <=? last) && (last <=? Z.of_nat (length v))
  then mret (take (Z.to_nat first) v ++ drop (Z.to_nat last) v)
  else undefined.

(** [v.erase(begin + k)] *)
Definition erase_at {A} (v : list A) (k : Z) : comp (list A) := erase v k (k + 1).

Definition index_Z {A} (v : list A) (k : Z) : comp A :=
  if 0 <=? k then index v (Z.to_nat k) else undefined.

(** ** Unused words and strings *)

(** The words in the order of iteration. *)
Definition entries (words : Words) (order : list string) : list (string * Word) :=
  omap (λ name, pair name <$> words !! name) order.

(** [std::find_if] by identifier. *)
Definition find_word (words : Words) (order : list string) (id : Z) : option Word :=
  snd <$> head (filter (λ e, w_id e.2 = id) (entries words order)).

Record used := mk_used { used_words : gset Z; used_strings : gset Z }.

Section Unused.
  Context (words : Words) (order : list string).

(** The references of a body; [rec] marks those of the functions it finds. *)
Fixpoint mark_body (rec : list Operation → used → comp used) (body : list Operation) (u : used) : comp used :=
  match body with
  | [] => mret u
  | op :: body =>
    if decide (op_kind op ≠ OpKind.Push_Symbol ∧ op_kind op ≠ OpKind.Call_Symbol) then mark_body rec body u
    else if decide (tok_kind (op_token op) = TokKind.String) then
      mark_body rec body (mk_used (used_words u) (used_strings u ∪ {[tok_ival (op_token op)]}))
    else if decide (op_ival op ∈ used_words u) then mark_body rec body u
    else
      let u := mk_used (used_words u ∪ {[op_ival op]}) (used_strings u) in
      match find_word words order (op_ival op) with
      | None => unreachable "word != std::cend(geninfo.words)"
      | Some word =>
        if decide (w_kind word ≠ WordKind.Function) then mark_body rec body u
        else u ← rec (w_function_body word) u; mark_body rec body u
      end
  end.

(** [remove_unused_words_and_strings] on a body; [fuel] bounds the depth of the
    recursion, and every level adds an identifier of a word. *)
Fixpoint mark (fuel : nat) (body : list Operation) (u : used) : comp used :=
  match fuel with
  | O => out_of_fuel
  | S fuel => mark_body (mark fuel) body u
  end.

End Unused.

Definition removable (k : Word_Kind) : bool :=
  match k with WordKind.Function | WordKind.Array => true | _ => false end.

Definition keep_word (u : used) (w : Word) : bool :=
  negb (removable (w_kind w)) || bool_decide (w_id w ∈ used_words u).

Definition set_words (g : Generation_Info) (ws : Words) (ss : gmap string Z) (m : list Operation) : Generation_Info :=
  mk_Generation_Info ss ws m (undefined_words g) (jump_targets_lookup g).

(** The result is whether something was removed. *)
Definition remove_unused_words_and_strings (order : list string) (g : Generation_Info)
    : comp (Generation_Info * bool) :=
  u ← mark (words g) order (S (size (words g))) (main g) (mk_used ∅ ∅);
  let kept_words := filter (λ e, keep_word u e.2 = true) (words g) in
  let kept_strings := filter (λ e, e.2 ∈ used_strings u) (strings g) in
  mret (set_words g kept_words kept_strings (main g),
    negb ((size kept_words =? size (words g))%nat && (size kept_strings =? size (strings g))%nat)).

(** ** Conditions known at compile time *)

Definition unsigned_max : Z := 2 ^ 32 - 1.

Definition remap (first last amount : Z) (body : list Operation) : list Operation :=
  (λ op, if (first <=? op_jump op) && (op_jump op <=? last)
    then set_op_jump (u32 (op_jump op - amount)) op else op) <$> body.

(** The search for the [while] of a loop, downwards from index [n - 1]. *)
Fixpoint find_while (body : list Operation) (branch_op : Z) (n : nat) : option nat :=
  match n with
  | O => None
  | S k =>
    match body !! k with
    | None => Some k
    | Some op =>
      if decide (op_kind op ≠ OpKind.While ∧ op_jump op ≠ branch_op) then find_while body branch_op k else Some k
    end
  end.

(** The removal of the [while] of the loop whose condition was at index
    [condition_op]: an index that has wrapped around is out of range. *)
Definition erase_while (body : list Operation) (condition_op branch_op : Z) (never : bool) : comp (list Operation) :=
  match find_while body branch_op (Z.to_nat condition_op) with
  | None => undefined
  | Some while_op =>
    body ← erase_at body (Z.of_nat while_op);
    mret (if never then remap (Z.of_nat while_op) branch_op 1 body else body)
  end.

(** [case Operation::Kind::Do] *)
Definition comptime_do (body : list Operation) (condition_op branch_op : Z) (condition branch : Operation)
    : comp (list Operation) :=
  let jump := op_jump branch in
  let end_op := u32 (jump - 1) in
  if decide (op_ival condition ≠ 0) then
    e ← index_Z body end_op;
    assert_impl (bool_decide (op_kind e = OpKind.End))
      "function_body[branch.jump-1].kind == Operation::Kind::End" ≫= λ _,
    (if decide (jump + 1 ≠ Z.of_nat (length body)) then
       dead ← index_Z body jump;
       warning (Some (op_location dead)) "Dead code: Loop is infinite" ≫= λ _,
       before ← index_Z body (u32 (condition_op - 1));
       info (Some (op_location before)) "Infinite loop introduced here."
     else mret tt) ≫= λ _,
    body ← erase body jump (Z.of_nat (length body));
    body ← erase body condition_op (branch_op + 1);
    erase_while (remap (branch_op + 1) end_op 3 body) condition_op branch_op false
  else
    body ← erase body condition_op jump;
    erase_while (remap end_op unsigned_max (end_op - branch_op + 3) body) condition_op branch_op true.

(** [case Operation::Kind::If] *)
Definition comptime_if (body : list Operation) (condition_op branch_op : Z) (condition branch : Operation)
    : comp (list Operation) :=
  let end_or_else := u32 (op_jump branch - 1) in
  let else_op := end_or_else in
  e ← index_Z body end_or_else;
  let end_ := if decide (op_kind e = OpKind.Else) then u32 (op_jump e - 1) else end_or_else in
  if decide (op_ival condition ≠ 0) then
    body ← (if decide (end_ ≠ else_op) then
        body ← erase body else_op (end_ + 2);
        mret (remap end_ unsigned_max (end_ - else_op + 1) body)
      else
        body ← erase_at body else_op;
        mret (remap end_ unsigned_max 1 body));
    erase (remap branch_op end_or_else 2 body) condition_op (branch_op + 1)
  else
    body ← (if decide (end_ ≠ else_op) then erase_at body (end_ + 1) else mret body);
    body ← erase body condition_op (else_op + 1);
    mret (remap end_or_else unsigned_max (3 + (if decide (end_or_else ≠ end_) then 1 else 0)) body).

(** The loop over the candidates; a round that changes the body stays at its
    index, so that the number of rounds is not bounded by the length of the
    body when a jump leads backwards. *)
Fixpoint comptime_loop (fuel : nat) (body : list Operation) (branch_op : nat) (done_something : bool)
    : comp (list Operation * bool) :=
  match fuel with
  | O => out_of_fuel
  | S fuel =>
    match body !! branch_op, body !! (branch_op - 1)%nat with
    | Some branch, Some condition =>
      let b := Z.of_nat branch_op in
      if decide (op_kind condition ≠ OpKind.Push_Int ∨
        (op_kind branch ≠ OpKind.Do ∧ op_kind branch ≠ OpKind.If))
      then comptime_loop fuel body (S branch_op) done_something
      else
        body ← (if decide (op_kind branch = OpKind.Do)
          then comptime_do body (b - 1) b condition branch
          else comptime_if body (b - 1) b condition branch);
        comptime_loop fuel body branch_op true
    | _, _ => mret (body, done_something)
    end
  end.

Definition optimize_comptime_known_conditions (fuel : nat) (body : list Operation)
    : comp (list Operation * bool) :=
  comptime_loop fuel body 1 false.

(** ** Constant folding *)

(** A result that has to fit an [int64_t]. *)
Definition checked (z : Z) : option Z := if decide (is_i64 z) then Some z else None.

(** The operators of the macro [Math] on [int64_t]: [None] is undefined. *)
Definition math (i : Intrinsic_Kind) : option (Z → Z → option Z) :=
  let compare f : option (Z → Z → option Z) := Some (λ b a, Some (Z.b2z (f b a))) in
  match i with
  | Intrinsic.Add => Some (λ b a, checked (b + a))
  | Intrinsic.Subtract => Some (λ b a, checked (b - a))
  | Intrinsic.Mul => Some (λ b a, checked (b * a))
  | Intrinsic.Equal => compare Z.eqb
  | Intrinsic.Not_Equal => compare (λ b a, negb (b =? a))
  | Intrinsic.Greater => compare Z.gtb
  | Intrinsic.Greater_Eq => compare Z.geb
  | Intrinsic.Less => compare Z.ltb
  | Intrinsic.Less_Eq => compare Z.leb
  | Intrinsic.Bitwise_And => Some (λ b a, Some (Z.land b a))
  | Intrinsic.Bitwise_Or => Some (λ b a, Some (Z.lor b a))
  | Intrinsic.Bitwise_Xor => Some (λ b a, Some (Z.lxor b a))
  | Intrinsic.Div => Some (λ b a, if a =? 0 then None else checked (Z.quot b a))
  | Intrinsic.Mod => Some (λ b a, if a =? 0 then None else
      match checked (Z.quot b a) with Some _ => Some (Z.rem b a) | None => None end)
  | Intrinsic.Left_Shift =>
    Some (λ b a, if (0 <=? a) && (a <? 64) then Some (i64 (Z.shiftl b a)) else None)
  | Intrinsic.Right_Shift =>
    Some (λ b a, if (0 <=? a) && (a <? 64) then Some (Z.shiftr b a) else None)
  | _ => None
  end.

(** What becomes of the stack of constants, with its top first. *)
Inductive folded := Folded (st : list Z) | Unfoldable | Undefined_fold.

Definition fold_intrinsic (i : Intrinsic_Kind) (st : list Z) : folded :=
  match math i with
  | Some f =>
    match st with
    | a :: b :: st => match f b a with Some v => Folded (v :: st) | None => Undefined_fold end
    | _ => Unfoldable
    end
  | None =>
    match i, st with
    | Intrinsic.Drop, _ :: st => Folded st
    | Intrinsic.Dup, a :: st => Folded (a :: a :: st)
    | Intrinsic.Two_Dup, b :: a :: st => Folded (b :: a :: b :: a :: st)
    | Intrinsic.Max, a :: b :: st => Folded (Z.max a b :: st)
    | Intrinsic.Min, a :: b :: st => Folded (Z.min a b :: st)
    | Intrinsic.Over, b :: a :: st => Folded (a :: b :: a :: st)
    | Intrinsic.Rot, c :: b :: a :: st => Folded (a :: c :: b :: st)
    | Intrinsic.Swap, b :: a :: st => Folded (a :: b :: st)
    | Intrinsic.Tuck, b :: a :: st => Folded (b :: a :: b :: st)
    | _, _ => Unfoldable
    end
  end.

(** [Operation { .kind = Push_Int, .ival = value }] *)
Definition folded_op (value : Z) : Operation :=
  set_op_ival (u64 value) (Operation_of OpKind.Push_Int no_token).

(** [stack_the_same_as_operations] *)
Definition same_as_operations (ops : list Operation) (values : list Z) : bool :=
  bool_decide (Forall2 (λ op v, op_kind op = OpKind.Push_Int ∧ i64 (op_ival op) = v) ops values).

(** The jumps behind the folded operations move with them. *)
Definition shift_jump (start delta : Z) (op : Operation) : Operation :=
  if negb (op_jump op =? Empty_Jump) && (start <? op_jump op)
  then set_op_jump (u32 (op_jump op + delta)) op else op.

(** [finish_constant_folding]: the new body, or [None] to continue. *)
Definition finish_constant_folding (body : list Operation) (foldable_start : option nat) (st : list Z) (i : nat)
    : option (list Operation) :=
  match foldable_start with
  | None => None
  | Some start =>
    if (start + 1 =? i)%nat then None
    else
      let to_optimize := take (i - start) (drop start body) in
      if same_as_operations to_optimize (reverse st) then None
      else
        let body := take start body ++ (folded_op <$> reverse st) ++ drop i body in
        Some (shift_jump (Z.of_nat start) (Z.of_nat (length st) - Z.of_nat (length to_optimize)) <$> body)
  end.

(** The loop over the operations [rest] from index [i] on. *)
Fixpoint folding_loop (body rest : list Operation) (i : nat) (foldable_start : option nat) (st : list Z)
    : comp (list Operation * bool) :=
  match rest with
  | [] =>
    match finish_constant_folding body foldable_start st i with
    | Some body => mret (body, true)
    | None => mret (body, false)
    end
  | op :: rest =>
    let finish :=
      match finish_constant_folding body foldable_start st i with
      | Some body => mret (body, true)
      | None => folding_loop body rest (S i) None []
      end in
    match op_kind op with
    | OpKind.Push_Int =>
      folding_loop body rest (S i) (match foldable_start with Some s => Some s | None => Some i end)
        (i64 (op_ival op) :: st)
    | k =>
      match foldable_start with
      | None => folding_loop body rest (S i) None st
      | Some _ =>
        match k with
        | OpKind.Intrinsic =>
          match fold_intrinsic (op_intrinsic op) st with
          | Folded st => folding_loop body rest (S i) foldable_start st
          | Unfoldable => finish
          | Undefined_fold => undefined
          end
        | _ => finish
        end
      end
    end
  end.

Definition constant_folding (body : list Operation) : comp (list Operation * bool) :=
  folding_loop body body 0 None [].

(** ** The loop *)

(** [for_all_functions]: the program, then every function in the order of
    iteration. *)
Fixpoint for_functions (iteration : list Operation → comp (list Operation * bool)) (order : list string)
    (ws : Words) : comp (Words * bool) :=
  match order with
  | [] => mret (ws, false)
  | name :: order =>
    match ws !! name with
    | Some w =>
      if decide (w_kind w = WordKind.Function) then
        '(body, r) ← iteration (w_function_body w);
        '(ws, r') ← for_functions iteration order (<[name := set_body body w]> ws);
        mret (ws, r || r')
      else for_functions iteration order ws
    | None => for_functions iteration order ws
    end
  end.

Definition for_all_functions (iteration : list Operation → comp (list Operation * bool)) (order : list string)
    (g : Generation_Info) : comp (Generation_Info * bool) :=
  '(m, r) ← iteration (main g);
  '(ws, r') ← for_functions iteration order (words g);
  mret (set_words g ws (strings g) m, r || r').

(** [optimize], with the order of iteration of each round. *)
Fixpoint optimize (fuel : nat) (order : list string) (g : Generation_Info) : comp Generation_Info :=
  match fuel with
  | O => out_of_fuel
  | S fuel =>
    '(g, r) ← remove_unused_words_and_strings order g;
    if r : bool then optimize fuel order g
    else
      '(g, r) ← for_all_functions (optimize_comptime_known_conditions fuel) order g;
      if r : bool then optimize fuel order g
      else
        '(g, r) ← for_all_functions constant_folding order g;
        if r : bool then optimize fuel order g else mret g
  end.
