(* ===== verification/Folding.v ===== *)
(** * Soundness of constant folding

    [constant_folding] of [optimizer.cc] replaces a run of constants and
    intrinsics by the constants it computes, with signed arithmetic, and moves
    the jumps behind it.  The emitted code computes with unsigned comparisons
    and divisions: where no negative constant meets one of these, the folded
    program has the behaviour of the original one. *)

From S2P Require Import Prelude Syntax Errors Crossref Operations Semantics TypeSound Optimizer.

Open Scope Z_scope.

(** ** Folding one intrinsic *)

Lemma u64_inj a b : is_i64 a → is_i64 b → u64 a = u64 b → a = b.
Proof.
  intros Ha Hb H. rewrite <-(i64_small a), <-(i64_small b) by done. unfold i64. by rewrite H.
Qed.

Lemma u64_eqb a b : is_i64 a → is_i64 b → (u64 a =? u64 b) = (a =? b).
Proof.
  intros Ha Hb. destruct (Z.eqb_spec a b) as [->|Hne]; [apply Z.eqb_refl|].
  apply Z.eqb_neq. intros H. by apply Hne, u64_inj.
Qed.

Lemma u64_nonneg a : 0 <= a < 2 ^ 63 → u64 a = a.
Proof. intros Ha. apply u64_small. unfold is_u64. lia. Qed.

Lemma u64_land a b : Z.land (u64 a) (u64 b) = u64 (Z.land a b).
Proof.
  unfold u64. rewrite <-!Z.land_ones by lia. apply Z.bits_inj'. intros n Hn.
  rewrite !Z.land_spec. by destruct (Z.testbit a n), (Z.testbit b n), (Z.testbit (Z.ones 64) n).
Qed.

Lemma u64_lor a b : Z.lor (u64 a) (u64 b) = u64 (Z.lor a b).
Proof.
  unfold u64. rewrite <-!Z.land_ones by lia. apply Z.bits_inj'. intros n Hn.
  rewrite !Z.land_spec, !Z.lor_spec, !Z.land_spec.
  by destruct (Z.testbit a n), (Z.testbit b n), (Z.testbit (Z.ones 64) n).
Qed.

Lemma u64_lxor a b : Z.lxor (u64 a) (u64 b) = u64 (Z.lxor a b).
Proof.
  unfold u64. rewrite <-!Z.land_ones by lia. apply Z.bits_inj'. intros n Hn.
  rewrite !Z.land_spec, !Z.lxor_spec, !Z.land_spec.
  by destruct (Z.testbit a n), (Z.testbit b n), (Z.testbit (Z.ones 64) n).
Qed.

Lemma u64_shiftl a k : 0 <= k → u64 (Z.shiftl (u64 a) k) = u64 (Z.shiftl a k).
Proof. intros Hk. rewrite !Z.shiftl_mul_pow2 by done. by rewrite u64_mul_l. Qed.

Lemma i64_u64 a : is_i64 a → i64 (u64 a) = a.
Proof. intros Ha. rewrite <-(i64_small a Ha) at 2. unfold i64. by rewrite u64_idemp. Qed.

Lemma checked_Some z v : checked z = Some v → v = z ∧ is_i64 v.
Proof. unfold checked. case_decide; [|done]. by intros [= <-]. Qed.

Lemma is_i64_b2z b : is_i64 (Z.b2z b).
Proof. unfold is_i64. destruct b; simpl; lia. Qed.

(** The bits from the sign bit on are equal. *)
Lemma is_i64_shiftr z : is_i64 z ↔ Z.shiftr z 63 = 0 ∨ Z.shiftr z 63 = -1.
Proof.
  rewrite Z.shiftr_div_pow2 by lia. unfold is_i64. pose proof (Z.div_mod z (2 ^ 63) ltac:(lia)).
  pose proof (Z.mod_pos_bound z (2 ^ 63) ltac:(lia)). split; [|lia].
  intros Hz. assert (-1 <= z / 2 ^ 63 <= 0); [|lia].
  split; [apply Z.div_le_lower_bound; lia|apply Z.lt_succ_r, Z.div_lt_upper_bound; lia].
Qed.

Lemma is_i64_land a b : is_i64 a → is_i64 b → is_i64 (Z.land a b).
Proof.
  rewrite !is_i64_shiftr, Z.shiftr_land. intros [-> | ->] [-> | ->]; simpl; auto.
Qed.

Lemma is_i64_lor a b : is_i64 a → is_i64 b → is_i64 (Z.lor a b).
Proof.
  rewrite !is_i64_shiftr, Z.shiftr_lor. intros [-> | ->] [-> | ->]; simpl; auto.
Qed.

Lemma is_i64_lxor a b : is_i64 a → is_i64 b → is_i64 (Z.lxor a b).
Proof.
  rewrite !is_i64_shiftr, Z.shiftr_lxor. intros [-> | ->] [-> | ->]; simpl; auto.
Qed.

Lemma is_i64_shiftr_value a k : is_i64 a → 0 <= k → is_i64 (Z.shiftr a k).
Proof.
  intros [H1 H2] Hk. rewrite Z.shiftr_div_pow2 by done. assert (0 < 2 ^ k) by (apply Z.pow_pos_nonneg; lia).
  split; [apply Z.div_le_lower_bound; nia|].
  destruct (decide (0 <= a)); [apply Z.div_lt_upper_bound; nia|].
  assert (a / 2 ^ k < 0); [|lia]. apply Z.div_lt_upper_bound; lia.
Qed.

#[local] Hint Resolve is_i64_b2z is_i64_land is_i64_lor is_i64_lxor is_i64_shiftr_value i64_range : stacky.

(** The intrinsics the folding computes with signed integers and the emitted
    code with unsigned ones. *)
Definition sign_sensitive (i : Intrinsic_Kind) : bool :=
  match i with
  | Intrinsic.Div | Intrinsic.Mod | Intrinsic.Less | Intrinsic.Less_Eq | Intrinsic.Greater
  | Intrinsic.Greater_Eq | Intrinsic.Min | Intrinsic.Max => true
  | _ => false
  end.

Definition nonneg (v : Z) : Prop := 0 <= v.

Lemma u64_b2z b : u64 (Z.b2z b) = Z.b2z b.
Proof. by destruct b. Qed.

(** Reduces the goal on a binary operator to its result. *)
Ltac same_result :=
  split; [auto with stacky|eexists; split; [reflexivity|]; intros st; unfold comparison, binary; f_equal; f_equal].

(** A binary operator of the folding. *)
Lemma math_correct i f a b v :
  math i = Some f → is_i64 a → is_i64 b → (sign_sensitive i = true → nonneg a ∧ nonneg b) →
  f b a = Some v →
  is_i64 v ∧ ∃ g, stack_intrinsic i = Some g ∧ ∀ st, g (u64 a :: u64 b :: st) = Next (u64 v :: st).
Proof.
  intros Hf Ha Hb Hsign Hv.
  assert (sign_sensitive i = true → u64 a = a ∧ u64 b = b ∧ 0 <= a ∧ 0 <= b) as Hu.
  { intros Hs. destruct (Hsign Hs) as [Ha' Hb']. unfold nonneg, is_i64 in *.
    rewrite !u64_nonneg by lia. done. }
  destruct i; simpl in Hf; simplify_eq; cbn [sign_sensitive] in Hu; clear Hsign;
    try (destruct (Hu eq_refl) as (Hua & Hub & Ha0 & Hb0)); clear Hu.
  - apply checked_Some in Hv as [Heq Hi]; subst v. same_result. autorewrite with stacky. done.
  - same_result. by rewrite u64_land.
  - same_result. by rewrite u64_lor.
  - same_result. by rewrite u64_lxor.
  - destruct (Z.eqb_spec a 0) as [|Hne]; [done|]. apply checked_Some in Hv as [Heq Hi]; subst v.
    rewrite Z.quot_div_nonneg in * by lia. same_result. unfold division.
    rewrite Hua, Hub. destruct (Z.eqb_spec a 0); [done|]. by rewrite u64_nonneg by (split; [apply Z.div_pos; lia|apply Hi]).
  - same_result. by rewrite u64_eqb, u64_b2z.
  - same_result. by rewrite Hua, Hub, u64_b2z.
  - same_result. by rewrite Hua, Hub, u64_b2z.
  - destruct (_ && _) eqn:Hk; [|done]. bool_to_prop. injection Hv as <-. same_result.
    rewrite (u64_nonneg a), Z.mod_small by lia. by rewrite u64_shiftl, u64_i64 by lia.
  - same_result. by rewrite Hua, Hub, u64_b2z.
  - same_result. by rewrite Hua, Hub, u64_b2z.
  - destruct (Z.eqb_spec a 0) as [|Hne]; [done|]. destruct (checked _); [|done]. injection Hv as <-.
    rewrite Z.rem_mod_nonneg by lia. pose proof (Z.mod_pos_bound b a ltac:(lia)).
    assert (is_i64 (b mod a)) as Hi by (unfold is_i64 in *; lia). same_result. unfold division.
    rewrite Hua, Hub. destruct (Z.eqb_spec a 0); [done|]. by rewrite u64_nonneg by (unfold is_i64 in *; lia).
  - apply checked_Some in Hv as [Heq Hi]; subst v. same_result. autorewrite with stacky. done.
  - same_result. by rewrite u64_eqb, u64_b2z.
  - destruct (_ && _) eqn:Hk; [|done]. bool_to_prop. injection Hv as <-. same_result.
    rewrite (u64_nonneg a), Z.mod_small by lia. by rewrite i64_u64.
  - apply checked_Some in Hv as [Heq Hi]; subst v. same_result. autorewrite with stacky. done.
Qed.

(** A step of the folding is a step of the emitted code on the same values. *)
Lemma fold_intrinsic_sound i st st' :
  Forall is_i64 st → (sign_sensitive i = true → Forall nonneg (take 2 st)) →
  fold_intrinsic i st = Folded st' →
  Forall is_i64 st' ∧ ∃ f, stack_intrinsic i = Some f ∧
    ∀ below, f ((u64 <$> st) ++ below) = Next ((u64 <$> st') ++ below).
Proof.
  intros Hst Hsign. unfold fold_intrinsic. destruct (math i) as [f|] eqn:Hf.
  - destruct st as [|a [|b st]]; try done. destruct (f b a) as [v|] eqn:Hv; [|done]. intros [= <-].
    apply Forall_cons in Hst as [Ha [Hb Hst]%Forall_cons].
    destruct (math_correct i f a b v) as (Hi & g & Hg & Heq); [done..| |done|].
    { intros Hs. specialize (Hsign Hs). simpl in Hsign. by apply Forall_cons in Hsign as [? [? _]%Forall_cons]. }
    split; [by constructor|]. exists g. split; [done|]. intros below. simpl. apply Heq.
  - assert (∀ a b, sign_sensitive i = true → take 2 st = [a; b] → u64 a = a ∧ u64 b = b) as Hu.
    { intros a b Hs Ht. specialize (Hsign Hs). rewrite Ht in Hsign.
      assert (Forall is_i64 [a; b]) as Hab by (rewrite <-Ht; by apply Forall_take).
      rewrite !Forall_cons in Hsign, Hab. unfold is_i64, nonneg in *. rewrite !u64_nonneg by lia. done. }
    clear Hsign.
    destruct i; try done; repeat (case_match; try done); intros [= <-]; subst; clear Hf;
      rewrite ?Forall_cons in Hst; rewrite ?Forall_cons; destruct_and?;
      (split; [split_and?; try done|eexists; split; [reflexivity|]; intros below; try done]).
    all: try (unfold is_i64 in *; lia).
    all: destruct (Hu _ _ eq_refl eq_refl) as [Ha Hb]; simpl; do 2 f_equal; rewrite Ha, Hb.
    + rewrite Z.max_comm. by destruct (Z.max_spec z z0) as [[_ ->]|[_ ->]].
    + rewrite Z.min_comm. by destruct (Z.min_spec z z0) as [[_ ->]|[_ ->]].
Qed.

(** ** Runs of foldable operations *)

Definition foldable (op : Operation) : bool :=
  match op_kind op with OpKind.Push_Int | OpKind.Intrinsic => true | _ => false end.

(** The constants a run of operations leaves on top of [st]. *)
Fixpoint fold_ops (ops : list Operation) (st : list Z) : option (list Z) :=
  match ops with
  | [] => Some st
  | op :: ops =>
    match op_kind op with
    | OpKind.Push_Int => fold_ops ops (i64 (op_ival op) :: st)
    | OpKind.Intrinsic =>
      match fold_intrinsic (op_intrinsic op) st with Folded st => fold_ops ops st | _ => None end
    | _ => None
    end
  end.

Definition nonneg_operands (i : Intrinsic_Kind) (st : list Z) : bool :=
  negb (sign_sensitive i) || forallb (Z.leb 0) (take 2 st).

(** The test holds of each operation the run gets to, with the constants it has
    there. *)
Fixpoint run_all (test : Operation → list Z → bool) (ops : list Operation) (st : list Z) : bool :=
  match ops with
  | [] => true
  | op :: ops =>
    test op st &&
    match op_kind op with
    | OpKind.Push_Int => run_all test ops (i64 (op_ival op) :: st)
    | OpKind.Intrinsic =>
      match fold_intrinsic (op_intrinsic op) st with Folded st => run_all test ops st | _ => true end
    | _ => true
    end
  end.

(** The same of the runs from every place of the body. *)
Definition runs_all (test : Operation → list Z → bool) (body : list Operation) : bool :=
  forallb (λ i, run_all test (drop i body) []) (seq 0 (length body)).

(** No sign sensitive intrinsic meets a negative constant, and no intrinsic is
    undefined on its constants. *)
Definition safe_op (op : Operation) (st : list Z) : bool :=
  match op_kind op with
  | OpKind.Intrinsic => nonneg_operands (op_intrinsic op) st &&
      match fold_intrinsic (op_intrinsic op) st with Undefined_fold => false | _ => true end
  | _ => true
  end.

Abbreviation run_safe := (run_all safe_op).

Definition intrinsics (body : list Operation) : nat :=
  length (filter (λ op, op_kind op = OpKind.Intrinsic) body).

(** A jump to [t] enters a run of foldable operations behind its start. *)
Definition enters_run (body : list Operation) (t : nat) : bool :=
  match t with
  | O => false
  | S k =>
    match body !! k, body !! t with Some a, Some b => foldable a && foldable b | _, _ => false end
  end.

(** What the pass needs of a body: jumps lead into the body, but not into a
    run; constants can be folded, and indices fit an [unsigned] also when an
    intrinsic leaves two constants. *)
Record foldable_body (body : list Operation) : Prop := mk_foldable_body {
  fb_size : Z.of_nat (length body + intrinsics body) < Empty_Jump;
  fb_jumps : Forall (jump_within 0 (length body)) body;
  fb_runs : Forall (λ op, is_jump (op_kind op) → enters_run body (Z.to_nat (op_jump op)) = false) body;
  fb_safe : runs_all safe_op body = true;
}.

Definition segment (body : list Operation) (s e : nat) : list Operation := take (e - s) (drop s body).

(** An operation outside of the run from [s] to [e] that became [st]. *)
Definition shifted (s e : nat) (st : list Z) : Operation → Operation :=
  shift_jump (Z.of_nat s) (Z.of_nat (length st) - Z.of_nat (e - s)).

(** The operations of [body] from [s] to [e] are replaced by the constants
    [st]. *)
Record folds (body body' : list Operation) (s e : nat) (st : list Z) : Prop := mk_folds {
  fo_range : (s < e <= length body)%nat;
  fo_fold : fold_ops (segment body s e) [] = Some st;
  fo_safe : run_safe (segment body s e) [] = true;
  fo_body : body' = shifted s e st <$>
    (take s body ++ (folded_op <$> reverse st) ++ drop e body);
}.

Lemma nonneg_operands_nonneg i st :
  nonneg_operands i st = true → sign_sensitive i = true → Forall nonneg (take 2 st).
Proof.
  unfold nonneg_operands. intros H Hs. rewrite Hs in H. simpl in H. apply list.Forall_forall. intros x Hx.
  rewrite forallb_forall in H. apply Z.leb_le, H. by apply list_elem_of_In.
Qed.

(** A safe operation of a run computes what the emitted code does. *)
Lemma safe_op_sound op st st' :
  op_kind op = OpKind.Intrinsic → safe_op op st = true → Forall is_i64 st →
  fold_intrinsic (op_intrinsic op) st = Folded st' →
  Forall is_i64 st' ∧ ∃ f, stack_intrinsic (op_intrinsic op) = Some f ∧
    ∀ below, f ((u64 <$> st) ++ below) = Next ((u64 <$> st') ++ below).
Proof.
  unfold safe_op. intros ->. intros [Hs _]%andb_true_iff Hst Hf.
  exact (fold_intrinsic_sound _ _ _ Hst (nonneg_operands_nonneg _ _ Hs) Hf).
Qed.

Lemma fold_ops_i64 ops : ∀ st st',
  run_safe ops st = true → Forall is_i64 st → fold_ops ops st = Some st' → Forall is_i64 st'.
Proof.
  induction ops as [|op ops IH]; intros st st'; simpl; [by intros _ ? [= <-]|].
  intros [Hop H]%andb_true_iff Hst. destruct (op_kind op) eqn:Hk; try done.
  - destruct (fold_intrinsic _ _) as [st1| |] eqn:Hf; [|done..]. apply IH; [done|].
    by destruct (safe_op_sound _ _ _ Hk Hop Hst Hf).
  - apply IH; [done|]. constructor; [apply i64_range|done].
Qed.

Lemma fold_ops_app ops1 : ∀ ops2 st,
  fold_ops (ops1 ++ ops2) st = fold_ops ops1 st ≫= fold_ops ops2.
Proof.
  induction ops1 as [|op ops1 IH]; intros ops2 st; [done|]. simpl.
  destruct (op_kind op); try done. by destruct (fold_intrinsic _ _).
Qed.

Lemma run_all_app test ops1 : ∀ ops2 st,
  run_all test (ops1 ++ ops2) st = true →
  run_all test ops1 st = true ∧ ∀ st', fold_ops ops1 st = Some st' → run_all test ops2 st' = true.
Proof.
  induction ops1 as [|op ops1 IH]; intros ops2 st; simpl; [by intros ?; split; [|intros ? [= <-]]|].
  intros [-> H]%andb_true_iff. simpl. destruct (op_kind op); try done; [|by apply IH].
  destruct (fold_intrinsic _ _); [by apply IH|done..].
Qed.

Lemma intrinsics_app l1 l2 : intrinsics (l1 ++ l2) = (intrinsics l1 + intrinsics l2)%nat.
Proof. unfold intrinsics. by rewrite filter_app, length_app. Qed.

Lemma intrinsics_fmap (f : Operation → Operation) l :
  (∀ op, op_kind (f op) = op_kind op) → intrinsics (f <$> l) = intrinsics l.
Proof.
  intros Hf. induction l as [|op l IH]; [done|]. unfold intrinsics in *. rewrite fmap_cons, !filter_cons, Hf.
  case_decide; simpl; lia.
Qed.

Lemma intrinsics_constants st : intrinsics (folded_op <$> st) = 0%nat.
Proof. by induction st. Qed.

Lemma fold_ops_length ops : ∀ st st',
  fold_ops ops st = Some st' → (length st' <= length st + length ops + intrinsics ops)%nat.
Proof.
  unfold intrinsics. induction ops as [|op ops IH]; intros st st'; simpl; [intros [= <-]; lia|].
  rewrite filter_cons. destruct (op_kind op) eqn:Hk; try done;
    [rewrite decide_True by done|rewrite decide_False by done; by intros Hl%IH; simpl in Hl; lia].
  destruct (fold_intrinsic _ _) as [st1| |] eqn:Hf; [|done..]. intros Hl%IH.
  assert (length st1 <= length st + 2)%nat; [|simpl; lia].
  revert Hf. unfold fold_intrinsic. repeat (case_match; try done); intros [= <-]; simpl; lia.
Qed.

Lemma run_S body s i op :
  (s <= i)%nat → body !! i = Some op → segment body s (S i) = segment body s i ++ [op].
Proof.
  intros Hs Hop. unfold segment. replace (S i - s)%nat with (S (i - s)) by lia.
  apply take_S_r. rewrite lookup_drop. by replace (s + (i - s))%nat with i by lia.
Qed.

Lemma length_segment body s e : (s < e <= length body)%nat → length (segment body s e) = (e - s)%nat.
Proof. intros H. unfold segment. rewrite length_take, length_drop. lia. Qed.

Lemma split_segment body s e : (s <= e)%nat → body = take s body ++ segment body s e ++ drop e body.
Proof.
  intros H. unfold segment. rewrite <-(take_drop s body) at 1. f_equal. rewrite <-(take_drop (e - s) (drop s body)) at 1.
  f_equal. rewrite drop_drop. f_equal. lia.
Qed.

Lemma intrinsics_segment body s e : (s <= e)%nat → (intrinsics (segment body s e) <= intrinsics body)%nat.
Proof. intros H. rewrite (split_segment body s e) at 2 by done. rewrite !intrinsics_app. lia. Qed.

Lemma run_nil body s : segment body s s = [].
Proof. unfold segment. by rewrite Nat.sub_diag. Qed.

(** ** What the loop does *)

(** The constants the loop keeps are those of the run it is in. *)
Definition in_run (body : list Operation) (i : nat) (start : option nat) (st : list Z) : Prop :=
  match start with
  | None => st = []
  | Some s => (s < i)%nat ∧ fold_ops (segment body s i) [] = Some st
  end.

Lemma in_run_next body op i s st st' :
  body !! i = Some op → in_run body i (Some s) st →
  fold_ops [op] st = Some st' → in_run body (S i) (Some s) st'.
Proof.
  intros Hop (Hs & Hfold) Hst. split; [lia|]. rewrite (run_S _ _ _ op) by (done || lia).
  by rewrite fold_ops_app, Hfold.
Qed.

Lemma in_run_start body op i :
  body !! i = Some op → op_kind op = OpKind.Push_Int → in_run body (S i) (Some i) [i64 (op_ival op)].
Proof.
  intros Hop Hk. split; [lia|]. rewrite (run_S _ _ _ op), run_nil by (done || lia). simpl. by rewrite Hk.
Qed.

(** The result of the loop is the body, or that of a finished run. *)
Lemma folding_loop_inv (Q : list Operation → bool → Prop) body :
  Q body false →
  (∀ i start st body', in_run body i start st → (i <= length body)%nat →
    finish_constant_folding body start st i = Some body' → Q body' true) →
  ∀ rest i start st l body' r,
  drop i body = rest → (i + length rest = length body)%nat → in_run body i start st →
  folding_loop body rest i start st = (l, Done (body', r)) → Q body' r.
Proof.
  intros Hsame Hfinish rest. induction rest as [|op rest IH]; intros i start st l body' r Hrest Hlen Hin; cbn [folding_loop].
  { simpl in Hlen. destruct (finish_constant_folding _ _ _ _) eqn:Hf; intros [= <- <- <-]; [|done].
    eapply Hfinish; [done|lia|done]. }
  simpl in Hlen.
  assert (body !! i = Some op) as Hop by (by rewrite <-(Nat.add_0_r i), <-lookup_drop, Hrest).
  assert (drop (S i) body = rest) as Hdrop by (by rewrite <-Nat.add_1_r, <-drop_drop, Hrest).
  assert (∀ start st, in_run body (S i) start st →
    folding_loop body rest (S i) start st = (l, Done (body', r)) → Q body' r) as Hnext.
  { intros start' st' Hin'. apply IH; [done|lia|done]. }
  assert ((match finish_constant_folding body start st i with
    | Some body => mret (body, true) | None => folding_loop body rest (S i) None [] end) = (l, Done (body', r)) →
    Q body' r) as Hfin.
  { destruct (finish_constant_folding _ _ _ _) eqn:Hf; [|by apply Hnext].
    intros [= <- <- <-]. eapply Hfinish; [done|lia|done]. }
  destruct start as [s|].
  - destruct (op_kind op) eqn:Hk; try done.
    + destruct (fold_intrinsic _ _) as [st1| |] eqn:Hf; [|done..]. apply Hnext.
      eapply in_run_next; [done..|]. simpl. by rewrite Hk, Hf.
    + apply Hnext. eapply in_run_next; [done..|]. simpl. by rewrite Hk.
  - simpl in Hin. subst st. destruct (op_kind op) eqn:Hk; try by apply Hnext.
    apply Hnext. by eapply in_run_start.
Qed.

Lemma constant_folding_inv (Q : list Operation → bool → Prop) body l body' r :
  Q body false →
  (∀ i start st body', in_run body i start st → (i <= length body)%nat →
    finish_constant_folding body start st i = Some body' → Q body' true) →
  constant_folding body = (l, Done (body', r)) → Q body' r.
Proof. intros Hsame Hfinish. by eapply folding_loop_inv. Qed.

Definition folding_result (body body' : list Operation) (r : bool) : Prop :=
  (r = false ∧ body' = body) ∨ (r = true ∧ ∃ s e st, folds body body' s e st).

Lemma runs_all_drop test body : runs_all test body = true ↔ ∀ i, run_all test (drop i body) [] = true.
Proof.
  unfold runs_all. rewrite forallb_forall. split; [|auto]. intros H i. destruct (decide (i < length body)%nat).
  - apply H, in_seq. lia.
  - by rewrite drop_ge by lia.
Qed.

Lemma finish_folds body i start st body' :
  runs_all safe_op body = true → in_run body i start st → (i <= length body)%nat →
  finish_constant_folding body start st i = Some body' → folding_result body body' true.
Proof.
  intros Hsafe Hin Hi. unfold finish_constant_folding. destruct start as [s|]; [|done].
  destruct Hin as (Hs & Hfold). case_match; [done|]. case_match; [done|].
  intros [= <-]. right. split; [done|]. exists s, i, st. split; [lia|done| |].
  - apply runs_all_drop with (i := s) in Hsafe. rewrite <-(take_drop (i - s) (drop s body)) in Hsafe.
    by apply run_all_app in Hsafe as [? _].
  - pose proof (length_segment body s i ltac:(lia)) as Hl. unfold segment in Hl. unfold shifted. by rewrite Hl.
Qed.

Lemma constant_folding_result body l body' r :
  runs_all safe_op body = true → constant_folding body = (l, Done (body', r)) → folding_result body body' r.
Proof.
  intros Hsafe. apply constant_folding_inv; [by left|]. intros i start st body1. by apply finish_folds.
Qed.

(** ** The folded body *)

Section Folded_body.
  Context (body body' : list Operation) (s e : nat) (st : list Z).
  Context (Hfolds : folds body body' s e st) (Hbody : foldable_body body).

(** Where an operation outside of the run has moved. *)
Definition moved (i : nat) : nat := if decide (i <= s)%nat then i else (i + length st - (e - s))%nat.

Definition outside (i : nat) : Prop := (i <= s)%nat ∨ (e <= i)%nat.

Lemma moved_le i : (i <= s)%nat → moved i = i.
Proof. intros Hi. unfold moved. by rewrite decide_True. Qed.

Lemma moved_ge i : (e <= i)%nat → moved i = (i + length st - (e - s))%nat.
Proof. intros Hi. pose proof (fo_range _ _ _ _ _ Hfolds). unfold moved. rewrite decide_False by lia. done. Qed.

Lemma constants_length : (length st <= e - s + intrinsics (segment body s e))%nat.
Proof.
  pose proof (fold_ops_length _ _ _ (fo_fold _ _ _ _ _ Hfolds)) as Hl. simpl in Hl.
  rewrite length_segment in Hl by apply Hfolds. lia.
Qed.

Lemma lookup_before i : (i < s)%nat →
  body' !! i = shifted s e st <$> body !! i.
Proof.
  intros Hi. pose proof (fo_range _ _ _ _ _ Hfolds). rewrite (fo_body _ _ _ _ _ Hfolds), list_lookup_fmap.
  by rewrite lookup_app_l, lookup_take_lt by (rewrite ?length_take; lia).
Qed.

Lemma lookup_constants k : (k < length st)%nat →
  ∃ v, reverse st !! k = Some v ∧ body' !! (s + k)%nat = Some (folded_op v).
Proof.
  intros Hk. pose proof (fo_range _ _ _ _ _ Hfolds).
  destruct (lookup_lt_is_Some_2 (reverse st) k) as [v Hv]; [by rewrite length_reverse|].
  exists v. split; [done|]. rewrite (fo_body _ _ _ _ _ Hfolds), list_lookup_fmap.
  rewrite lookup_app_r, length_take by (rewrite length_take; lia).
  rewrite lookup_app_l by (rewrite length_fmap, length_reverse; lia).
  replace (s + k - min s (length body))%nat with k by lia. by rewrite list_lookup_fmap, Hv.
Qed.

Lemma lookup_behind i : (e <= i)%nat →
  body' !! moved i = shifted s e st <$> body !! i.
Proof.
  intros Hi. pose proof (fo_range _ _ _ _ _ Hfolds). rewrite moved_ge by done.
  rewrite (fo_body _ _ _ _ _ Hfolds), list_lookup_fmap.
  rewrite !lookup_app_r; rewrite ?length_take, ?length_fmap, ?length_reverse; [|lia..].
  rewrite lookup_drop. do 2 f_equal. lia.
Qed.

Lemma run_lookup i op : (s <= i < e)%nat → body !! i = Some op → segment body s e !! (i - s)%nat = Some op.
Proof.
  intros Hi Hop. unfold segment. rewrite lookup_take_lt, lookup_drop by lia.
  by replace (s + (i - s))%nat with i by lia.
Qed.

Lemma fold_ops_foldable ops : ∀ st st', fold_ops ops st = Some st' → Forall (λ op, foldable op = true) ops.
Proof.
  induction ops as [|op ops IH]; intros st1 st2; simpl; [by constructor|]. unfold foldable at 1.
  destruct (op_kind op) eqn:Hk; try done.
  - destruct (fold_intrinsic _ _); [|done..]. intros ?%IH. constructor; [by rewrite Hk|done].
  - intros ?%IH. constructor; [by rewrite Hk|done].
Qed.

Lemma run_foldable i op : (s <= i < e)%nat → body !! i = Some op → foldable op = true.
Proof.
  intros Hi Hop%run_lookup; [|done].
  pose proof (fold_ops_foldable _ _ _ (fo_fold _ _ _ _ _ Hfolds)) as Hf.
  by apply (Forall_lookup_1 _ _ _ _ Hf Hop).
Qed.

(** Jumps do not lead into the run, and move with their targets. *)
Lemma jump_moved i op :
  body !! i = Some op → is_jump (op_kind op) →
  outside (Z.to_nat (op_jump op)) ∧
  Z.to_nat (op_jump (shifted s e st op)) = moved (Z.to_nat (op_jump op)).
Proof.
  intros Hop Hjump. pose proof (fo_range _ _ _ _ _ Hfolds). pose proof constants_length.
  pose proof (intrinsics_segment body s e ltac:(lia)). pose proof (fb_size _ Hbody) as Hsize. unfold Empty_Jump in Hsize.
  pose proof (Forall_lookup_1 _ _ _ _ (fb_jumps _ Hbody) Hop Hjump) as Hin. simpl in Hin.
  pose proof (Forall_lookup_1 _ _ _ _ (fb_runs _ Hbody) Hop Hjump) as Hrun. simpl in Hrun.
  assert (outside (Z.to_nat (op_jump op))) as Hout.
  { unfold outside. destruct (decide (s < Z.to_nat (op_jump op) < e)%nat) as [Hd|]; [|lia]. exfalso.
    destruct (Z.to_nat (op_jump op)) as [|k] eqn:Ht; [lia|]. unfold enters_run in Hrun.
    destruct (lookup_lt_is_Some_2 body k) as [a Ha]; [lia|].
    destruct (lookup_lt_is_Some_2 body (S k)) as [b Hb]; [lia|].
    rewrite Ha, Hb, (run_foldable k a), (run_foldable (S k) b) in Hrun by (done || lia). done. }
  split; [done|]. unfold shifted, shift_jump, Empty_Jump.
  destruct (Z.eqb_spec (op_jump op) (2 ^ 32 - 1)); [lia|]. simpl.
  destruct (Z.ltb_spec (Z.of_nat s) (op_jump op)).
  - destruct Hout; [lia|]. rewrite moved_ge by done. simpl. unfold u32. rewrite Z.mod_small by lia. lia.
  - rewrite moved_le by lia. done.
Qed.

(** The constants are the values the run computes. *)
Lemma run_step i op p :
  (s <= i < e)%nat → body !! i = Some op → fold_ops (segment body s i) [] = Some p →
  ∃ p', fold_ops [op] p = Some p' ∧ fold_ops (segment body s (S i)) [] = Some p' ∧ run_safe [op] p = true.
Proof.
  intros Hi Hop Hp.
  assert (segment body s e = segment body s i ++ op :: drop (S i - s) (segment body s e)) as Hsplit.
  { rewrite <-(take_drop (i - s) (segment body s e)) at 1. f_equal.
    - unfold segment. rewrite take_take. f_equal. lia.
    - replace (S i - s)%nat with (S (i - s)) by lia. apply drop_S. by apply run_lookup. }
  pose proof (fo_fold _ _ _ _ _ Hfolds) as Hfold. pose proof (fo_safe _ _ _ _ _ Hfolds) as Hsafe.
  rewrite Hsplit, cons_middle in Hfold, Hsafe. rewrite fold_ops_app, Hp in Hfold.
  cbn [mbind option_bind] in Hfold. rewrite fold_ops_app in Hfold.
  apply run_all_app in Hsafe as [_ Hsafe]. apply Hsafe in Hp as Hs. apply (run_all_app _ [op]) in Hs as [Hs _].
  rewrite (run_S _ _ _ op) by (done || lia). rewrite fold_ops_app, Hp.
  apply bind_Some in Hfold as (p' & Hp' & _). by exists p'.
Qed.

End Folded_body.

(** ** Simulation *)

Definition optimized (body body' : list Operation) : Prop :=
  body' = body ∨ (foldable_body body ∧ ∃ s e st, folds body body' s e st).

Definition words_optimized (words words' : Words) : Prop :=
  map_Forall (λ name w, ∃ body, words' !! name = Some (set_body body w) ∧ optimized (w_function_body w) body) words.

(** A frame of the original program, the frame of the folded one, and the
    constants of a run the first has computed and the second has not. *)
Inductive frame_rel : frame → frame → list Z → Prop :=
  | F_same body i : frame_rel (mk_frame body i) (mk_frame body i) []
  | F_moved body body' s e st i :
      foldable_body body → folds body body' s e st → outside s e i → i ≠ s →
      frame_rel (mk_frame body i) (mk_frame body' (moved s e st i)) []
  | F_in_run body body' s e st i p :
      foldable_body body → folds body body' s e st → (s <= i < e)%nat →
      fold_ops (segment body s i) [] = Some p → Forall is_i64 p →
      frame_rel (mk_frame body i) (mk_frame body' s) p.

Inductive config_rel : config → config → Prop :=
  | R_running f fs f' fs' p st :
      frame_rel f f' p → Forall2 (λ f f', frame_rel f f' []) fs fs' →
      config_rel (Running (f :: fs) ((u64 <$> p) ++ st)) (Running (f' :: fs') st)
  | R_halted st : config_rel (Halted st) (Halted st)
  | R_trapped : config_rel Trapped Trapped.

Lemma config_rel_frames fs fs' st :
  Forall2 (λ f f', frame_rel f f' []) fs fs' → config_rel (returned fs st) (returned fs' st).
Proof. intros [|f f' fs1 fs1' Hf Hfs]; [constructor|]. by apply (R_running f fs1 f' fs1' [] st). Qed.

(** Behind or at the start of a run. *)
Lemma frame_rel_moved body body' s e st i :
  foldable_body body → folds body body' s e st → outside s e i →
  frame_rel (mk_frame body i) (mk_frame body' (moved s e st i)) [].
Proof.
  intros Hb Hf Hi. destruct (decide (i = s)) as [->|]; [|by apply F_moved].
  rewrite moved_le by done. pose proof (fo_range _ _ _ _ _ Hf).
  apply (F_in_run _ _ _ e st); [done|done|lia|by rewrite run_nil|by constructor].
Qed.

Lemma frame_rel_call body body' : optimized body body' → frame_rel (mk_frame body 0) (mk_frame body' 0) [].
Proof.
  intros [->|(Hb & s & e & st & Hf)]; [constructor|]. rewrite <-(moved_le s e st 0) at 2 by lia.
  apply frame_rel_moved; [done|done|]. left. lia.
Qed.

(** The next operations of two frames are the same, and so is what follows. *)
Definition aligned (body : list Operation) (i : nat) (body' : list Operation) (i' : nat) : Prop :=
  (body !! i = None → body' !! i' = None) ∧
  ∀ op, body !! i = Some op → ∃ j, body' !! i' = Some (set_op_jump j op) ∧
    frame_rel (mk_frame body (S i)) (mk_frame body' (S i')) [] ∧
    (is_jump (op_kind op) → frame_rel (mk_frame body (Z.to_nat (op_jump op))) (mk_frame body' (Z.to_nat j)) []).

Lemma aligned_same body i : aligned body i body i.
Proof.
  split; [done|]. intros op Hop. exists (op_jump op). rewrite Hop. by split_and!; [destruct op|constructor|constructor].
Qed.

Lemma aligned_moved body body' s e cs i :
  foldable_body body → folds body body' s e cs → outside s e i → i ≠ s → aligned body i body' (moved s e cs i).
Proof.
  intros Hb Hfolds Hout Hne. pose proof (fo_range _ _ _ _ _ Hfolds).
  assert (body' !! moved s e cs i = shifted s e cs <$> body !! i) as Hlook.
  { destruct Hout; [rewrite moved_le by done; apply (lookup_before _ _ _ _ _ Hfolds); lia|].
    by apply (lookup_behind _ _ _ _ _ Hfolds). }
  split; [intros Hnone; by rewrite Hlook, Hnone|].
  intros op Hop. rewrite Hlook, Hop. simpl. exists (op_jump (shifted s e cs op)). split_and!.
  - f_equal. unfold shifted, shift_jump. by case_match; destruct op.
  - replace (S (moved s e cs i)) with (moved s e cs (S i)); [apply frame_rel_moved; [done|done|]|].
    all: destruct Hout; unfold outside, moved; repeat case_decide; lia.
  - intros Hjump. destruct (jump_moved _ _ _ _ _ Hfolds Hb i op Hop Hjump) as [Hto ->].
    by apply frame_rel_moved.
Qed.

Section Simulation.
  Context (words words' : Words) (arguments : Operation → option nat).
  Context (Harguments : ∀ j op, arguments (set_op_jump j op) = arguments op).
  Context (Hwords : words_optimized words words').

Abbreviation step_of ws := (step ws arguments).

Lemma is_jump_kind k :
  (k = OpKind.If ∨ k = OpKind.Do) ∨ (k = OpKind.Else ∨ k = OpKind.End) → is_jump k.
Proof. by intros [[-> | ->]|[-> | ->]]. Qed.

(** The same operation, with its jump moved, does the same. *)
Lemma step_lift body i body' i' fs fs' st c :
  step_of words (Running (mk_frame body i :: fs) st) c →
  Forall2 (λ f f', frame_rel f f' []) fs fs' → aligned body i body' i' →
  ∃ c', step_of words' (Running (mk_frame body' i' :: fs') st) c' ∧ config_rel c c'.
Proof.
  intros Hstep Hfs [Hend Hop].
  assert (∀ f f' st, frame_rel f f' [] → config_rel (Running (f :: fs) st) (Running (f' :: fs') st)) as Hrun.
  { intros f f' st1 Hf. by apply (R_running f fs f' fs' [] st1). }
  inversion Hstep; subst;
    try match goal with H : body !! i = Some ?o |- _ => destruct (Hop o H) as (j & Hi' & Hnext & Hjump) end.
  - eexists. split; [by eapply S_push_int|]. by apply Hrun.
  - eexists. split; [by eapply S_push_symbol|]. by apply Hrun.
  - eexists. split; [by eapply S_skip|]. by apply Hrun.
  - eexists. split; [by eapply S_branch|]. apply Hrun. case_match; [|done]. apply Hjump.
    by apply is_jump_kind; auto.
  - eexists. split; [by eapply S_jump|]. apply Hrun, Hjump. by apply is_jump_kind; auto.
  - destruct (Hwords name w) as (body2 & Hw' & Hopt); [done|].
    eexists. split; [by eapply S_call|].
    apply (R_running _ _ _ _ [] st); [by apply frame_rel_call|by constructor].
  - eexists. split; [by eapply S_return|]. by apply config_rel_frames.
  - eexists. split; [by eapply S_end, Hend|]. by apply config_rel_frames.
  - eexists. split; [by eapply S_intrinsic|]. by apply Hrun.
  - eexists. split; [by eapply S_trap|]. constructor.
  - eexists. split; [eapply S_environment; try done; by rewrite Harguments|]. by apply Hrun.
Qed.

(** The constants are pushed where the run ends. *)
Lemma push_constants body body' s e st k fs st1 :
  folds body body' s e st → (k <= length st)%nat →
  steps words' arguments (Running (mk_frame body' s :: fs) st1)
    (Running (mk_frame body' (s + k) :: fs) ((u64 <$> reverse (take k (reverse st))) ++ st1)).
Proof.
  intros Hf. induction k as [|k IH]; intros Hk.
  { rewrite Nat.add_0_r. apply rtc_refl. }
  eapply rtc_r; [apply IH; lia|]. destruct (lookup_constants _ _ _ _ _ Hf k) as (v & Hv & Hop); [lia|].
  rewrite Nat.add_succ_r, (take_S_r _ _ _ Hv), reverse_app. simpl.
  replace (u64 v) with (u64 (op_ival (folded_op v))) by (simpl; apply u64_idemp).
  by apply (S_push_int _ _ _ _ (folded_op v)).
Qed.

(** A step in a run computes the next constants. *)
Lemma step_in_run body i op p p' fs st c :
  body !! i = Some op → Forall is_i64 p → fold_ops [op] p = Some p' → run_safe [op] p = true →
  step_of words (Running (mk_frame body i :: fs) ((u64 <$> p) ++ st)) c →
  Forall is_i64 p' ∧ c = Running (mk_frame body (S i) :: fs) ((u64 <$> p') ++ st).
Proof.
  intros Hop Hp Hfold Hsafe Hstep. simpl in Hfold, Hsafe.
  assert (op_kind op = OpKind.Intrinsic → Forall is_i64 p' ∧ ∃ g, stack_intrinsic (op_intrinsic op) = Some g ∧
    ∀ below, g ((u64 <$> p) ++ below) = Next ((u64 <$> p') ++ below)) as Hint.
  { intros Hk. apply andb_true_iff in Hsafe as [Hsafe _]. rewrite Hk in Hfold.
    destruct (fold_intrinsic _ _) as [p1| |] eqn:Hf; [|done..]. simplify_eq. by apply safe_op_sound. }
  destruct (op_kind op) eqn:Hk; try done.
  - destruct (Hint eq_refl) as (Hp' & g & Hg & Heq). split; [done|].
    inversion Hstep; simplify_eq; rewrite ?Hk in *; destruct_or?; try done; rewrite ?Heq in *; simplify_eq; [done|].
    by destruct (op_intrinsic op).
  - inversion Hstep; simplify_eq; rewrite ?Hk in *; destruct_or?; try done.
    split; [constructor; [apply i64_range|done]|]. simpl. by rewrite u64_i64.
Qed.

Lemma simulates_in_run body body' s e cs i p fs fs' st c :
  foldable_body body → folds body body' s e cs → (s <= i < e)%nat →
  fold_ops (segment body s i) [] = Some p → Forall is_i64 p →
  step_of words (Running (mk_frame body i :: fs) ((u64 <$> p) ++ st)) c →
  Forall2 (λ f f', frame_rel f f' []) fs fs' →
  ∃ d, steps words' arguments (Running (mk_frame body' s :: fs') st) d ∧ config_rel c d.
Proof.
  intros Hb Hfolds Hi Hp Hp64 Hstep Hfs. pose proof (fo_range _ _ _ _ _ Hfolds).
  destruct (lookup_lt_is_Some_2 body i) as [op Hop]; [lia|].
  destruct (run_step _ _ _ _ _ Hfolds i op p Hi Hop Hp) as (p' & Hfold & Hrun & Hsafe).
  destruct (step_in_run _ _ _ _ _ _ _ _ Hop Hp64 Hfold Hsafe Hstep) as [Hp64' ->].
  destruct (decide (S i < e)%nat) as [Hlt|Hge].
  - exists (Running (mk_frame body' s :: fs') st). split; [apply rtc_refl|].
    constructor; [|done]. eapply F_in_run; [done|done|lia|done|done].
  - assert (S i = e) as <- by lia. rewrite (fo_fold _ _ _ _ _ Hfolds) in Hrun. simplify_eq.
    eexists. split; [by apply (push_constants _ _ _ _ _ (length p') _ _ Hfolds)|].
    rewrite firstn_all2 by (rewrite length_reverse; lia). rewrite reverse_involutive.
    apply (R_running _ _ _ _ []); [|done].
    replace (s + length p')%nat with (moved s (S i) p' (S i)); [apply frame_rel_moved; [done|done|right; lia]|].
    unfold moved. rewrite decide_False by lia. lia.
Qed.

(** Every step of the original program is matched by steps of the folded one. *)
Lemma folding_simulates c1 c2 d1 :
  step_of words c1 c2 → config_rel c1 d1 → ∃ d2, steps words' arguments d1 d2 ∧ config_rel c2 d2.
Proof.
  intros Hstep Hrel. destruct Hrel as [f fs f' fs' p st Hf Hfs|st|]; [|by inversion Hstep..].
  destruct Hf as [body i|body body' s e cs i Hb Hfolds Hout Hne|body body' s e cs i p Hb Hfolds Hi Hp Hp64];
    [| |by eapply simulates_in_run].
  - destruct (step_lift _ _ _ _ _ _ _ _ Hstep Hfs (aligned_same _ _)) as (d & ? & ?).
    exists d. by split; [apply rtc_once|].
  - destruct (step_lift _ _ _ _ _ _ _ _ Hstep Hfs (aligned_moved _ _ _ _ _ _ Hb Hfolds Hout Hne)) as (d & ? & ?).
    exists d. by split; [apply rtc_once|].
Qed.

Lemma folding_simulates_steps c1 c2 d1 :
  steps words arguments c1 c2 → config_rel c1 d1 →
  ∃ d2, steps words' arguments d1 d2 ∧ config_rel c2 d2.
Proof.
  intros Hsteps. revert d1. induction Hsteps as [c|c1 c2 c3 Hstep _ IH]; intros d1 Hrel.
  { exists d1. split; [apply rtc_refl|done]. }
  destruct (folding_simulates _ _ _ Hstep Hrel) as (d2 & Hd2 & Hrel2).
  destruct (IH d2 Hrel2) as (d3 & Hd3 & Hrel3). exists d3. split; [by etrans|done].
Qed.

End Simulation.

(** ** The whole pass *)

(** What an iteration over the functions does to a word. *)
Definition word_after (iteration : list Operation → comp (list Operation * bool)) (order : list string) (ws' : Words)
    (r : bool) (name : string) (w : Word) : Prop :=
  if decide (name ∈ order ∧ w_kind w = WordKind.Function) then
    ∃ l body rb, iteration (w_function_body w) = (l, Done (body, rb)) ∧ ws' !! name = Some (set_body body w) ∧ (rb → r)
  else ws' !! name = Some w.

Lemma for_functions_result iteration order : ∀ ws l ws' r,
  NoDup order → for_functions iteration order ws = (l, Done (ws', r)) →
  map_Forall (word_after iteration order ws' r) ws ∧ (∀ name, ws !! name = None → ws' !! name = None) ∧
  (r → ∃ name w l body, name ∈ order ∧ ws !! name = Some w ∧ w_kind w = WordKind.Function ∧
    iteration (w_function_body w) = (l, Done (body, true))).
Proof.
  induction order as [|x order IH]; intros ws l ws' r Hnd; cbn [for_functions].
  { intros [= <- <- <-]. split_and!; [|done|done]. intros name w Hw. unfold word_after.
    by rewrite decide_False by (by intros [?%elem_of_nil _]). }
  apply NoDup_cons in Hnd as [Hx Hnd].
  assert (¬ (∃ w, ws !! x = Some w ∧ w_kind w = WordKind.Function) →
    for_functions iteration order ws = (l, Done (ws', r)) →
    map_Forall (word_after iteration (x :: order) ws' r) ws ∧ (∀ name, ws !! name = None → ws' !! name = None) ∧
    (r → ∃ name w l body, name ∈ x :: order ∧ ws !! name = Some w ∧ w_kind w = WordKind.Function ∧
      iteration (w_function_body w) = (l, Done (body, true)))) as Hskip.
  { intros Hno H. destruct (IH _ _ _ _ Hnd H) as (Hw & Hn & Hr). split_and!; [|done|].
    - intros name w Hl. specialize (Hw name w Hl). unfold word_after in *.
      repeat case_decide; [done|set_solver| |done]. destruct Hno. exists w. set_solver.
    - intros (name & w & l1 & body & ? & ?)%Hr. exists name, w, l1, body. split; [by right|done]. }
  destruct (ws !! x) as [wx|] eqn:Hwx; [destruct (decide (w_kind wx = _)) as [Hk|Hk]|];
    [|apply Hskip; intros (w & ? & ?); congruence..].
  intros H. apply bind_Done in H as (? & [body rb] & ? & Hb & H & _).
  apply bind_Done in H as (? & [ws1 r1] & ? & H & [= <- <- <-] & _).
  destruct (IH _ _ _ _ Hnd H) as (Hw & Hn & Hr). split_and!.
  - intros name w Hl. unfold word_after. destruct (decide (name = x)) as [->|Hne].
    + assert (w = wx) as -> by congruence. rewrite decide_True by (split; [by left|done]).
      specialize (Hw x (set_body body wx)). unfold word_after in Hw. rewrite lookup_insert_eq in Hw.
      specialize (Hw eq_refl). rewrite decide_False in Hw by tauto. exists x0, body, rb. split_and!; [done|done|].
      by destruct rb.
    + specialize (Hw name w). unfold word_after in Hw. rewrite lookup_insert_ne in Hw by done. specialize (Hw Hl).
      repeat case_decide; [|set_solver|set_solver|done].
      destruct Hw as (l1 & body1 & rb1 & ? & ? & Hrb). exists l1, body1, rb1. split_and!; [done|done|].
      intros ?%Hrb. destruct rb; [done|]. by destruct r1.
  - intros name Hl. apply Hn. rewrite lookup_insert_ne; [done|]. congruence.
  - intros Hor. destruct rb; [exists x, wx, x0, body; split_and!; [by left|done|done|done]|].
    destruct (Hr Hor) as (name & w & l1 & body1 & Hin & Hl & Hf & Hit).
    assert (name ≠ x) by (intros ->; set_solver). rewrite lookup_insert_ne in Hl by done.
    exists name, w, l1, body1. split_and!; [by right|done..].
Qed.

Definition program_foldable (g : Generation_Info) : Prop :=
  foldable_body (main g) ∧
  map_Forall (λ _ w, w_kind w = WordKind.Function → foldable_body (w_function_body w)) (words g).

Lemma set_body_same w : set_body (w_function_body w) w = w.
Proof. by destruct w. Qed.

Lemma constant_folding_optimized body l body' r :
  foldable_body body → constant_folding body = (l, Done (body', r)) → optimized body body'.
Proof.
  intros Hb Hf. destruct (constant_folding_result _ _ _ _ (fb_safe _ Hb) Hf) as [[_ ->]|[_ H]]; [by left|by right].
Qed.

Lemma folding_optimized order g l g' r :
  NoDup order → program_foldable g → for_all_functions constant_folding order g = (l, Done (g', r)) →
  optimized (main g) (main g') ∧ words_optimized (words g) (words g').
Proof.
  intros Hnd [Hmain Hwords] H. unfold for_all_functions in H.
  apply bind_Done in H as (? & [m rm] & ? & Hm & H & _).
  apply bind_Done in H as (? & [ws rw] & ? & Hws & [= <- <- <-] & _). simpl.
  split; [by eapply constant_folding_optimized|].
  destruct (for_functions_result _ _ _ _ _ _ Hnd Hws) as (Hafter & _ & _).
  intros name w Hw. specialize (Hafter name w Hw). unfold word_after in Hafter. case_decide as Hf.
  - destruct Hafter as (l1 & body & rb & Hb & Hl & _). exists body. split; [done|].
    eapply constant_folding_optimized; [|done]. apply (Hwords name w Hw), Hf.
  - exists (w_function_body w). split; [by rewrite set_body_same|by left].
Qed.

Lemma folding_preserves_outcome words words' arguments m m' st c :
  (∀ j op, arguments (set_op_jump j op) = arguments op) → words_optimized words words' → optimized m m' →
  steps words arguments (Running [mk_frame m 0] st) c → (∃ st', c = Halted st') ∨ c = Trapped →
  steps words' arguments (Running [mk_frame m' 0] st) c.
Proof.
  intros Harg Hws Hm Hsteps Hc.
  destruct (folding_simulates_steps words words' arguments Harg Hws _ _ (Running [mk_frame m' 0] st) Hsteps) as (d & Hd & Hrel).
  - apply (R_running _ [] _ [] []); [|constructor]. by apply frame_rel_call.
  - by destruct Hc as [[st' ->]| ->]; inversion Hrel; subst.
Qed.

(** C7: a constant folding of the whole program preserves its behaviour: a
    program that comes to its end on some stack, with some values on it, comes
    to its end on the same stack, with the same values, after the folding; and
    it still traps, if it did.  The bodies have jumps that do not enter a run
    of constants, no constant is negative where it meets an intrinsic that
    treats it as an unsigned number, and no folded operator is undefined. *)
Theorem constant_folding_preserves order g l g' r st c :
  NoDup order → program_foldable g →
  for_all_functions constant_folding order g = (l, Done (g', r)) →
  steps (words g) syscall_arguments (Running [mk_frame (main g) 0] st) c →
  (∃ st', c = Halted st') ∨ c = Trapped →
  steps (words g') syscall_arguments (Running [mk_frame (main g') 0] st) c.
Proof.
  intros Hnd Hg Hf Hsteps Hc. destruct (folding_optimized _ _ _ _ _ Hnd Hg Hf) as [Hm Hws].
  by eapply folding_preserves_outcome.
Qed.

(** [f] of the function [f fun u64 -- u64 is 2 3 * + end], and the program
    [1 2 < if 4 5 + f end]. *)
Definition folding_function : Word :=
  mk_Word WordKind.Function 0 Intrinsic.Add 0 0
    [sample_op OpKind.Push_Int Intrinsic.Add 2 None Empty_Jump TypeKind.Int;
     sample_op OpKind.Push_Int Intrinsic.Add 3 None Empty_Jump TypeKind.Int;
     sample_op OpKind.Intrinsic Intrinsic.Mul 0 None Empty_Jump TypeKind.Int;
     sample_op OpKind.Intrinsic Intrinsic.Add 0 None Empty_Jump TypeKind.Int]
    None true (mk_Effect [Type_of_kind TypeKind.Int] [Type_of_kind TypeKind.Int]) false no_location "f".

Definition folding_main : list Operation :=
  let push v := sample_op OpKind.Push_Int Intrinsic.Add v None Empty_Jump TypeKind.Int in
  let intrinsic i := sample_op OpKind.Intrinsic i 0 None Empty_Jump TypeKind.Int in
  [push 1; push 2; intrinsic Intrinsic.Less;
   sample_op OpKind.If Intrinsic.Add 0 None 8 TypeKind.Int;
   push 4; push 5; intrinsic Intrinsic.Add;
   sample_op OpKind.Call_Symbol Intrinsic.Add 0 (Some "f"%string) Empty_Jump TypeKind.Int;
   sample_op OpKind.End Intrinsic.Add 0 None 9 TypeKind.Int].

Definition folding_program : Generation_Info :=
  mk_Generation_Info ∅ {["f"%string := folding_function]} folding_main ∅ ∅.

(** Decides the conditions on a concrete body. *)
Ltac solve_foldable_body :=
  constructor; [vm_compute; reflexivity|..|vm_compute; reflexivity];
  repeat (apply Forall_cons; split); try done; intros; vm_compute; done.

Lemma constant_folding_preserves_witness :
  ∃ g', for_all_functions constant_folding ["f"%string] folding_program = ([], Done (g', true)) ∧
    steps (words g') syscall_arguments (Running [mk_frame (main g') 0] []) (Halted [15]).
Proof.
  eexists. split; [vm_compute; reflexivity|].
  eapply (constant_folding_preserves ["f"%string] folding_program [] _ true [] (Halted [15])).
  - apply NoDup_singleton.
  - split; [solve_foldable_body|]. apply map_Forall_singleton. intros _. solve_foldable_body.
  - vm_compute. reflexivity.
  - do 2 (eapply rtc_l; [by eapply S_push_int|]). eapply rtc_l; [by eapply S_intrinsic|].
    eapply rtc_l; [eapply S_branch; [done|by left]|]. cbn [Z.eqb].
    do 2 (eapply rtc_l; [by eapply S_push_int|]). eapply rtc_l; [by eapply S_intrinsic|].
    eapply rtc_l; [by eapply S_call|].
    do 2 (eapply rtc_l; [by eapply S_push_int|]). do 2 (eapply rtc_l; [by eapply S_intrinsic|]).
    eapply rtc_l; [by eapply S_end|]. eapply rtc_l; [eapply S_jump; [done|by right]|].
    eapply rtc_l; [by eapply S_end|]. apply rtc_refl.
  - left. by eexists.
Defined.

(** ** Progress *)

(** A run without intrinsics is the constants it leaves. *)
Lemma constants_same ops : ∀ st st',
  intrinsics ops = 0%nat → fold_ops ops st = Some st' →
  ∃ vs, st' = vs ++ st ∧ same_as_operations ops (reverse vs) = true.
Proof.
  induction ops as [|op ops IH]; intros st st' Hz; simpl.
  { intros [= <-]. exists []. split; [done|]. by apply bool_decide_eq_true_2. }
  unfold intrinsics in Hz. rewrite filter_cons in Hz. destruct (op_kind op) eqn:Hk; try done.
  intros (vs & -> & Hsame)%IH; [|by case_decide]. exists (vs ++ [i64 (op_ival op)]). rewrite <-app_assoc.
  split; [done|]. rewrite reverse_app. apply bool_decide_eq_true in Hsame. apply bool_decide_eq_true.
  by constructor.
Qed.

Lemma finish_progress body i start st body' :
  in_run body i start st → (i <= length body)%nat →
  finish_constant_folding body start st i = Some body' → (intrinsics body' < intrinsics body)%nat.
Proof.
  intros Hin Hi. unfold finish_constant_folding. destruct start as [s|]; [|done].
  destruct Hin as (Hs & Hfold). case_match; [done|].
  destruct (same_as_operations _ _) eqn:Hsame; [done|]. intros [= <-].
  rewrite intrinsics_fmap by (intros op; unfold shift_jump; by case_match).
  rewrite !intrinsics_app, intrinsics_constants.
  rewrite (split_segment body s i) at 3 by lia. rewrite !intrinsics_app.
  destruct (decide (intrinsics (segment body s i) = 0%nat)) as [Hz|]; [|lia].
  destruct (constants_same _ _ _ Hz Hfold) as (vs & Heq & Hno). rewrite app_nil_r in Heq. subst vs.
  unfold segment in Hno. congruence.
Qed.

(** C24: constant folding comes to an end: a folding that says that it has
    changed the body has removed an intrinsic from it, and one that says that
    it has not has left it as it was. *)
Theorem constant_folding_progress body l body' r :
  constant_folding body = (l, Done (body', r)) →
  if r then (intrinsics body' < intrinsics body)%nat else body' = body.
Proof.
  apply (constant_folding_inv (λ body' r, if r then (intrinsics body' < intrinsics body)%nat else body' = body)).
  - done.
  - intros i start st body1. apply finish_progress.
Qed.

Lemma constant_folding_progress_witness :
  ∃ body', constant_folding folding_main = ([], Done (body', true)) ∧
    (intrinsics body' < intrinsics folding_main)%nat.
Proof.
  eexists. split; [vm_compute; reflexivity|].
  apply (constant_folding_progress folding_main [] _ true). vm_compute. reflexivity.
Defined.

(** ** Signs *)

Definition minus_one_less : list Operation :=
  [sample_op OpKind.Push_Int Intrinsic.Add (2 ^ 64 - 1) None Empty_Jump TypeKind.Int;
   sample_op OpKind.Push_Int Intrinsic.Add 1 None Empty_Jump TypeKind.Int;
   sample_op OpKind.Intrinsic Intrinsic.Less 0 None Empty_Jump TypeKind.Int].

(** the condition on signs is needed.  The folding of the largest 64-bit
    integer, 1 and [<] is true, since it compares signed integers; the program
    that is not folded leaves false. *)
Theorem folding_compares_signed :
  constant_folding minus_one_less = ([], Done ([folded_op 1], true)) ∧
  steps ∅ syscall_arguments (Running [mk_frame minus_one_less 0] []) (Halted [0]) ∧
  steps ∅ syscall_arguments (Running [mk_frame [folded_op 1] 0] []) (Halted [1]).
Proof.
  split; [vm_compute; reflexivity|]. split.
  - do 2 (eapply rtc_l; [by eapply S_push_int|]). eapply rtc_l; [by eapply S_intrinsic|].
    eapply rtc_l; [by eapply S_end|]. apply rtc_refl.
  - eapply rtc_l; [by eapply S_push_int|]. eapply rtc_l; [by eapply S_end|]. apply rtc_refl.
Qed.

(** a division of a constant by the constant zero, which traps in the
    compiled program, is undefined behaviour of the folding itself. *)
Theorem folding_division_by_zero a b :
  Forall (λ i, constant_folding
    [sample_op OpKind.Push_Int Intrinsic.Add a None Empty_Jump TypeKind.Int;
     sample_op OpKind.Push_Int Intrinsic.Add 0 None Empty_Jump TypeKind.Int;
     sample_op OpKind.Intrinsic i b None Empty_Jump TypeKind.Int] = undefined)
    [Intrinsic.Div; Intrinsic.Mod].
Proof. by repeat constructor. Qed.

(** ** Jumps of linked bodies *)

(** The list is a part of the body that starts at index [n]. *)
Definition part_of (body : list Operation) (n : nat) (l : list Operation) : Prop :=
  ∀ k op, l !! k = Some op → body !! (n + k)%nat = Some op.

Lemma part_of_cons body n op l :
  part_of body n (op :: l) → body !! n = Some op ∧ part_of body (S n) l.
Proof.
  intros H. split; [by rewrite <-(Nat.add_0_r n); apply H|].
  intros k x Hk. rewrite Nat.add_succ_comm. by apply H.
Qed.

Lemma part_of_app body n l1 l2 :
  part_of body n (l1 ++ l2) → part_of body n l1 ∧ part_of body (n + length l1) l2.
Proof.
  intros H. split; intros k x Hk; [by apply H, lookup_app_l_Some|].
  rewrite <-Nat.add_assoc. apply H. rewrite lookup_app_r by lia. by replace (length l1 + k - length l1)%nat with k by lia.
Qed.

(** Next to [t] there is an operation that is not folded. *)
Definition at_border (body : list Operation) (t : nat) : Prop :=
  ∃ k op, body !! k = Some op ∧ foldable op = false ∧ (k = t ∨ S k = t).

Lemma at_border_enters body t : at_border body t → enters_run body t = false.
Proof.
  intros (k & op & Hop & Hf & [->| <-]); unfold enters_run.
  - destruct t as [|t]; [done|]. rewrite Hop. destruct (body !! t); [|done]. by rewrite Hf, andb_false_r.
  - rewrite Hop. destruct (body !! S k); [|done]. by rewrite Hf.
Qed.

Definition lands_at_border (body : list Operation) (op : Operation) : Prop :=
  is_jump (op_kind op) → at_border body (Z.to_nat (op_jump op)).

Lemma link_lands body b : ∀ n,
  block_ok b → part_of body n (link n b) → Forall (lands_at_border body) (link n b).
Proof.
  assert (∀ t k op, body !! k = Some op → ¬ is_plain (op_kind op) → k = t ∨ S k = t → at_border body t) as Hborder.
  { intros t k op Hop Hk Ht. exists k, op. split_and!; [done| |done]. unfold foldable. by destruct (op_kind op). }
  induction b as [|op r IHr|o1 t IHt o2 r IHr|o1 t IHt o2 e IHe o3 r IHr|o1 c IHc o2 b IHb o3 r IHr];
    intros n Hok Hpart; simpl in Hok; cbn [link] in Hpart |- *; [constructor|..]; destruct_and? Hok;
    repeat match goal with
    | H : part_of _ _ (_ :: _) |- _ => apply part_of_cons in H as [? H]
    | H : part_of _ _ (_ ++ _) |- _ => apply part_of_app in H as [? H]; rewrite ?length_link in H
    end;
    repeat (rewrite ?Forall_cons, ?Forall_app); split_and!; try auto.
  all: intros Hj; simpl in Hj |- *; try (by destruct (op_kind op)); try (by destruct (op_kind o1));
    rewrite ?Nat2Z.id;
    multimatch goal with
    | H : _ !! ?k = Some ?o |- _ =>
      apply (Hborder _ k o H); [by simpl; match goal with E : op_kind _ = _ |- _ => rewrite E; intros [] end|lia]
    end.
Qed.

(** C21: the jumps [crossreference] computes for a structured body never lead
    into a run of constants and intrinsics, but to its start or past its end:
    what constant folding relies on. *)
Theorem crossreference_avoids_runs b ops :
  block_ok b → crossreference (flatten b) = ([], Done (ops, true)) →
  Forall (λ op, is_jump (op_kind op) → enters_run ops (Z.to_nat (op_jump op)) = false) ops.
Proof.
  intros Hok. rewrite crossreference_flatten by done. intros [= <-].
  apply list.Forall_forall. intros op Hop Hj. apply at_border_enters.
  assert (Forall (lands_at_border (link 0 b)) (link 0 b)) as Hl by (apply link_lands; [done|by intros k x]).
  by apply (proj1 (list.Forall_forall _ _) Hl op Hop).
Qed.

Lemma crossreference_avoids_runs_witness :
  let op k := Operation_of k no_token in
  let b := B_op (op OpKind.Push_Int) (B_op (op OpKind.Push_Int) (B_if (op OpKind.If)
    (B_op (op OpKind.Push_Int) (B_op (op OpKind.Push_Int) B_nil)) (op OpKind.End) (B_op (op OpKind.Push_Int) B_nil))) in
  Forall (λ op, is_jump (op_kind op) → enters_run (link 0 b) (Z.to_nat (op_jump op)) = false) (link 0 b).
Proof.
  intros op b. apply (crossreference_avoids_runs b); [by repeat split|reflexivity].
Defined.
