(* ===== verification/Unused.v ===== *)
(** * Soundness of the removal of unused words

    [remove_unused_words_and_strings] of [optimizer.cc] marks what the program
    refers to, directly and through the functions it calls, and removes the
    functions, arrays and strings that are not marked. *)

From S2P Require Import Prelude Syntax Errors Operations Semantics TypeSound Optimizer.

Open Scope Z_scope.

Definition used_le (u u' : used) : Prop :=
  used_words u ⊆ used_words u' ∧ used_strings u ⊆ used_strings u'.

#[export] Instance used_le_preorder : PreOrder used_le.
Proof.
  split; [by split|]. intros u1 u2 u3 [? ?] [? ?]. split; by etrans.
Qed.

(** What an operation refers to is marked. *)
Definition marked (u : used) (op : Operation) : Prop :=
  op_kind op = OpKind.Push_Symbol ∨ op_kind op = OpKind.Call_Symbol →
  if decide (tok_kind (op_token op) = TokKind.String) then tok_ival (op_token op) ∈ used_strings u
  else op_ival op ∈ used_words u.

#[export] Instance marked_mono : Proper (used_le ==> eq ==> impl) marked.
Proof. intros u u' [Hw Hs] op ? <- H Hk. specialize (H Hk). case_decide; auto. Qed.

#[export] Instance marked_mono_flip : Proper (flip used_le ==> eq ==> flip impl) marked.
Proof. intros u u' Hle op ? <- H. by eapply marked_mono. Qed.

Lemma all_marked_mono u u' body : used_le u u' → Forall (marked u) body → Forall (marked u') body.
Proof. intros Hle Hb. eapply list.Forall_impl; [exact Hb|]. intros op H. by rewrite <-Hle. Qed.

Section Mark.
  Context (words : Words) (order : list string).

(** The functions marked by the second set and not by the first have bodies
    that are marked. *)
Definition closed_between (u u' : used) : Prop :=
  ∀ id w, id ∈ used_words u' → id ∉ used_words u → find_word words order id = Some w →
    w_kind w = WordKind.Function → Forall (marked u') (w_function_body w).

(** What marking a body from [u] on gives. *)
Definition mark_spec (body : list Operation) (u u' : used) : Prop :=
  used_le u u' ∧ Forall (marked u') body ∧ closed_between u u'.

Lemma closed_between_refl u : closed_between u u.
Proof. by intros id w H1 H2. Qed.

Lemma closed_between_trans u1 u2 u3 :
  used_le u2 u3 → closed_between u1 u2 → closed_between u2 u3 → closed_between u1 u3.
Proof.
  intros Hle H12 H23 id w H3 H1 Hw Hf. destruct (decide (id ∈ used_words u2)) as [H2|H2].
  - eapply all_marked_mono; [done|]. by eapply H12.
  - by eapply H23.
Qed.

(** One more reference marked before the rest of the body. *)
Lemma mark_spec_cons op body u u1 u' :
  used_le u u1 → marked u1 op → closed_between u u1 → mark_spec body u1 u' → mark_spec (op :: body) u u'.
Proof.
  intros Hle Hop Hc (Hle' & Hb & Hc'). split_and!; [by etrans| |by eapply closed_between_trans].
  constructor; [by rewrite <-Hle'|done].
Qed.

Lemma mark_body_spec rec body : ∀ u l u',
  (∀ body u l u', rec body u = (l, Done u') → mark_spec body u u') →
  mark_body words order rec body u = (l, Done u') → mark_spec body u u'.
Proof.
  induction body as [|op body IH]; intros u l u' Hrec; cbn [mark_body].
  { intros [= <- <-]. split_and!; [done|constructor|apply closed_between_refl]. }
  destruct (decide (op_kind op ≠ OpKind.Push_Symbol ∧ op_kind op ≠ OpKind.Call_Symbol)) as [Hk|Hk].
  { intros H%IH; [|done]. eapply mark_spec_cons; [reflexivity| |apply closed_between_refl|done]. intros ?. tauto. }
  destruct (decide (tok_kind (op_token op) = TokKind.String)) as [Hs|Hs].
  { intros H%IH; [|done]. eapply mark_spec_cons; [| | |done].
    - split; simpl; set_solver.
    - intros _. rewrite decide_True by done. simpl. set_solver.
    - intros id w H1 H2. simpl in H1. done. }
  destruct (decide (op_ival op ∈ used_words u)) as [Hin|Hin].
  { intros H%IH; [|done]. eapply mark_spec_cons; [reflexivity| |apply closed_between_refl|done].
    intros _. by rewrite decide_False. }
  set (u1 := mk_used (used_words u ∪ {[op_ival op]}) (used_strings u)).
  assert (used_le u u1) as Hu1 by (split; simpl; set_solver).
  assert (marked u1 op) as Hop by (intros _; rewrite decide_False by done; simpl; set_solver).
  destruct (find_word words order (op_ival op)) as [word|] eqn:Hw; [|done].
  destruct (decide (w_kind word ≠ WordKind.Function)) as [Hf|Hf].
  { intros H%IH; [|done]. eapply mark_spec_cons; [done|done| |done].
    intros id w Hid Hnot Hfind Hfun. simpl in Hid. assert (id = op_ival op) as -> by set_solver. by simplify_eq. }
  intros H. apply bind_Done in H as (l1 & u2 & l2 & H2 & H & _). apply Hrec in H2 as (Hle2 & Hb2 & Hc2).
  apply IH in H; [|done]. eapply mark_spec_cons; [by etrans|by rewrite <-Hle2| |done].
  intros id w Hid Hnot Hfind Hfun. destruct (decide (id = op_ival op)) as [->|Hne]; [by simplify_eq|].
  eapply Hc2; [done| |done|done]. simpl. set_solver.
Qed.

Lemma mark_fuel_spec fuel : ∀ body u l u',
  mark words order fuel body u = (l, Done u') → mark_spec body u u'.
Proof.
  induction fuel as [|fuel IH]; [done|]. intros body u l u'. simpl. by apply mark_body_spec.
Qed.

(** *** Termination *)

Definition ids : gset Z := list_to_set ((λ e, w_id e.2) <$> map_to_list words).

Lemma find_word_ids id w : find_word words order id = Some w → id ∈ ids.
Proof.
  unfold find_word. intros H. apply fmap_Some in H as ([name w1] & H & ->).
  destruct (filter _ _) as [|e es] eqn:Hf; [done|]. simpl in H. injection H as ->.
  assert ((name, w1) ∈ filter (λ e, w_id e.2 = id) (entries words order)) as Hin by (rewrite Hf; left).
  apply list_elem_of_filter in Hin as [Hid Hin]. unfold entries in Hin. simpl in Hid.
  apply list_elem_of_omap in Hin as (x & _ & Hx). apply fmap_Some in Hx as (w2 & Hw2 & [= -> ->]).
  unfold ids. apply elem_of_list_to_set, list_elem_of_fmap. exists (x, w2). split; [done|].
  by apply elem_of_map_to_list.
Qed.

Lemma size_list_to_set_le (l : list Z) : (size (list_to_set l : gset Z) <= length l)%nat.
Proof.
  induction l as [|x l IH]; cbn [length list_to_set]; [by rewrite size_empty|].
  rewrite size_union_alt, size_singleton. assert (size (list_to_set l ∖ {[x]} : gset Z) <= size (list_to_set l : gset Z))%nat; [|lia].
  apply subseteq_size. set_solver.
Qed.

Lemma size_ids : (size ids <= size words)%nat.
Proof.
  unfold ids. etrans; [apply size_list_to_set_le|]. by rewrite length_fmap, length_map_to_list.
Qed.

(** Every level of the recursion marks one more word. *)
Definition unmarked (u : used) : nat := size (ids ∖ used_words u).

Lemma unmarked_le u u' : used_le u u' → (unmarked u' <= unmarked u)%nat.
Proof. intros [Hw _]. unfold unmarked. apply subseteq_size. set_solver. Qed.

Lemma unmarked_lt u id :
  id ∈ ids → id ∉ used_words u →
  (unmarked (mk_used (used_words u ∪ {[id]}) (used_strings u)) < unmarked u)%nat.
Proof. intros H1 H2. unfold unmarked. apply subset_size. simpl. set_solver. Qed.

Lemma mark_body_ends rec n body : ∀ u,
  (∀ body u, (unmarked u < n)%nat → ends (rec body u)) →
  (∀ body u l u', rec body u = (l, Done u') → mark_spec body u u') →
  (unmarked u <= n)%nat → ends (mark_body words order rec body u).
Proof.
  induction body as [|op body IH]; intros u Hrec Hspec Hu; cbn [mark_body]; [done|].
  repeat case_decide; try (by apply IH).
  destruct (find_word words order (op_ival op)) as [word|] eqn:Hw; [|done]. apply find_word_ids in Hw.
  set (u1 := mk_used (used_words u ∪ {[op_ival op]}) (used_strings u)).
  assert (unmarked u1 < unmarked u)%nat as Hlt by (by apply unmarked_lt).
  case_decide; [apply IH; [done|done|lia]|].
  apply ends_bind_Done; [apply Hrec; lia|]. intros l u2 Hu2.
  apply Hspec in Hu2 as [Hle2%unmarked_le _]. apply IH; [done|done|lia].
Qed.

Lemma mark_ends fuel : ∀ body u, (unmarked u < fuel)%nat → ends (mark words order fuel body u).
Proof.
  induction fuel as [|fuel IH]; intros body u Hu; [lia|]. simpl.
  apply (mark_body_ends _ fuel); [done|apply mark_fuel_spec|lia].
Qed.

End Mark.

(** ** Execution without the removed words *)

(** What [into_operations] makes of calls: the function that is called, and its
    identifier. *)
Definition calls_linked (words : Words) (body : list Operation) : Prop :=
  Forall (λ op, op_kind op = OpKind.Call_Symbol → tok_kind (op_token op) ≠ TokKind.String ∧
    ∀ name w, op_word op = Some name → words !! name = Some w →
      op_ival op = w_id w ∧ w_kind w = WordKind.Function) body.

(** The search by identifier finds every function. *)
Definition functions_found (words : Words) (order : list string) : Prop :=
  map_Forall (λ _ w, w_kind w = WordKind.Function → find_word words order (w_id w) = Some w) words.

Section Execution.
  Context (words : Words) (order : list string) (u : used) (arguments : Operation → option nat).
  Context (Hfound : functions_found words order) (Hclosed : closed_between words order (mk_used ∅ ∅) u).
  Context (Hlinked : map_Forall (λ _ w, w_kind w = WordKind.Function → calls_linked words (w_function_body w)) words).

Abbreviation kept := (filter (λ e : string * Word, keep_word u e.2 = true) words).

(** Bodies whose references are marked and linked. *)
Definition body_used (body : list Operation) : Prop := Forall (marked u) body ∧ calls_linked words body.

Definition config_used (c : config) : Prop :=
  match c with Running frames _ => Forall (λ f, body_used (f_body f)) frames | _ => True end.

(** A call from such a body is of a function that is kept. *)
Lemma call_used body i op name w :
  body_used body → body !! i = Some op → op_kind op = OpKind.Call_Symbol →
  op_word op = Some name → words !! name = Some w →
  kept !! name = Some w ∧ body_used (w_function_body w).
Proof.
  intros [Hm Hl] Hop Hk Hname Hw.
  pose proof (Forall_lookup_1 _ _ _ _ Hm Hop (or_intror Hk)) as Hmark.
  destruct (Forall_lookup_1 _ _ _ _ Hl Hop Hk) as [Hs Hid]. destruct (Hid name w Hname Hw) as [Heq Hf].
  rewrite decide_False, Heq in Hmark by done. split.
  - apply map_lookup_filter_Some. split; [done|]. unfold keep_word. simpl.
    rewrite bool_decide_eq_true_2 by done. by rewrite orb_true_r.
  - split; [|by apply (Hlinked name w)]. eapply Hclosed; [done|set_solver|by apply (Hfound name w)|done].
Qed.

Lemma returned_used fs st : Forall (λ f, body_used (f_body f)) fs → config_used (returned fs st).
Proof. by destruct fs. Qed.

Lemma step_used c c' :
  config_used c → step words arguments c c' → step kept arguments c c' ∧ config_used c'.
Proof.
  intros Hc Hstep. destruct Hstep; simpl in Hc; apply Forall_cons in Hc as [Hb Hfs];
    try (split; [by econstructor|by constructor]); try (split; [by econstructor|by apply returned_used]).
  - edestruct call_used as [Hw Hu]; [done..|]. split; [by eapply S_call|].
    apply Forall_cons. split; [done|]. by apply Forall_cons.
Qed.

Lemma kept_step c c' : step kept arguments c c' → step words arguments c c'.
Proof.
  intros Hstep. destruct Hstep; try by econstructor.
  eapply S_call; [done..|]. by eapply map_lookup_filter_Some_1_1.
Qed.

Lemma steps_used c c' :
  config_used c → steps words arguments c c' ↔ steps kept arguments c c'.
Proof.
  intros Hc. split; intros Hsteps.
  - induction Hsteps as [c|c1 c2 c3 Hstep _ IH]; [apply rtc_refl|].
    destruct (step_used _ _ Hc Hstep) as [Hk Hc2]. eapply rtc_l; [done|by apply IH].
  - eapply rtc_subrel; [|done]. apply kept_step.
Qed.

End Execution.

(** ** Properties *)

(** marking the used words ends, whatever the calls of the functions of one
    another are: recursive functions are visited once. *)
Theorem remove_unused_terminates order g : ends (remove_unused_words_and_strings order g).
Proof.
  unfold remove_unused_words_and_strings. apply ends_bind; [|done].
  apply mark_ends. unfold unmarked. simpl. pose proof (size_ids (words g)).
  assert (size (ids (words g) ∖ ∅) <= size (ids (words g)))%nat; [|lia]. apply subseteq_size. set_solver.
Qed.

(** What the removal gives. *)
Lemma remove_unused_result order g l g' r :
  remove_unused_words_and_strings order g = (l, Done (g', r)) →
  ∃ u, mark_spec (words g) order (main g) (mk_used ∅ ∅) u ∧ main g' = main g ∧
    words g' = filter (λ e, keep_word u e.2 = true) (words g) ∧
    strings g' = filter (λ e, e.2 ∈ used_strings u) (strings g).
Proof.
  unfold remove_unused_words_and_strings. intros H. apply bind_Done in H as (l1 & u & l2 & Hu & [= <- <- <-] & _).
  exists u. split; [by eapply mark_fuel_spec|done].
Qed.

(** The references of the functions that are kept are marked. *)
Lemma kept_marked words order body u name w :
  functions_found words order → mark_spec words order body (mk_used ∅ ∅) u →
  filter (λ e, keep_word u e.2 = true) words !! name = Some w → w_kind w = WordKind.Function →
  Forall (marked u) (w_function_body w).
Proof.
  intros Hfound (_ & _ & Hc) [Hlook Hkeep]%map_lookup_filter_Some Hf. unfold keep_word in Hkeep. simpl in Hkeep.
  rewrite Hf in Hkeep. apply bool_decide_eq_true in Hkeep. eapply Hc; [done|set_solver|by apply (Hfound name w)|done].
Qed.

(** C8: the removal of unused words changes no behaviour where a call names the
    function it was resolved to and the search by identifier finds every
    function, which depends on the order of the hash map
    ([remove_unused_depends_on_order]): the program reaches, from any stack,
    the same configurations with the words that are left as with all of them.
    *)
Theorem remove_unused_preserves order g l g' r st c :
  functions_found (words g) order → calls_linked (words g) (main g) →
  map_Forall (λ _ w, w_kind w = WordKind.Function → calls_linked (words g) (w_function_body w)) (words g) →
  remove_unused_words_and_strings order g = (l, Done (g', r)) →
  steps (words g) syscall_arguments (Running [mk_frame (main g) 0] st) c ↔
  steps (words g') syscall_arguments (Running [mk_frame (main g') 0] st) c.
Proof.
  intros Hfound Hmain Hwords (u & (_ & Hm & Hc) & -> & -> & _)%remove_unused_result.
  apply (steps_used _ order); [done..|]. by apply Forall_singleton.
Qed.

(** C22: where the search by identifier finds every function, which depends on
    the order of the hash map ([remove_unused_depends_on_order]), nothing that
    is referred to is removed: the strings and words of the references of the
    program and of the functions that are kept are still there. *)
Theorem remove_unused_no_dangling order g l g' r op body :
  functions_found (words g) order →
  remove_unused_words_and_strings order g = (l, Done (g', r)) →
  body = main g' ∨ (∃ name w, words g' !! name = Some w ∧ w_kind w = WordKind.Function ∧ body = w_function_body w) →
  op ∈ body → op_kind op = OpKind.Push_Symbol ∨ op_kind op = OpKind.Call_Symbol →
  if decide (tok_kind (op_token op) = TokKind.String)
  then ∀ s, strings g !! s = Some (tok_ival (op_token op)) → strings g' !! s = Some (tok_ival (op_token op))
  else ∀ name w, words g !! name = Some w → w_id w = op_ival op → words g' !! name = Some w.
Proof.
  intros Hfound (u & Hspec & Hmain & Hw & Hs)%remove_unused_result Hbody Hop Hk.
  assert (Forall (marked u) body) as Hall.
  { destruct Hbody as [->|(name & w & Hlook & Hf & ->)]; [rewrite Hmain; apply Hspec|].
    rewrite Hw in Hlook. by eapply kept_marked. }
  pose proof (proj1 (list.Forall_forall _ _) Hall op Hop Hk) as Hmark. case_decide.
  - intros s Hlook. rewrite Hs. by apply map_lookup_filter_Some.
  - intros name w Hlook Hid. rewrite Hw. apply map_lookup_filter_Some. split; [done|].
    unfold keep_word. simpl. rewrite Hid, bool_decide_eq_true_2 by done. by rewrite orb_true_r.
Qed.

(** ** A program of three functions

    The program calls [f], which calls [g]; nothing calls [h]. *)

Definition call (id : Z) (name : string) : Operation :=
  set_op_ival id (sample_op OpKind.Call_Symbol Intrinsic.Add 0 (Some name) Empty_Jump TypeKind.Int).

Definition function (id : Z) (body : list Operation) (name : string) : Word :=
  mk_Word WordKind.Function 0 Intrinsic.Add 0 id body None false (mk_Effect [] []) true no_location name.

Definition push_seven : Operation := sample_op OpKind.Push_Int Intrinsic.Add 7 None Empty_Jump TypeKind.Int.

Definition three_functions (first : Z) : Words :=
  {["f"%string := function first [call (first + 1) "g"] "f";
    "g"%string := function (first + 1) [push_seven] "g";
    "h"%string := function (first + 2) [push_seven; push_seven] "h"]}.

Lemma three_functions_Forall (P : string → Word → Prop) :
  P "f"%string (function 0 [call 1 "g"] "f") → P "g"%string (function 1 [push_seven] "g") →
  P "h"%string (function 2 [push_seven; push_seven] "h") → map_Forall P (three_functions 0).
Proof.
  intros Hf Hg Hh. apply map_Forall_insert_2; [done|]. apply map_Forall_insert_2; [done|]. by apply map_Forall_singleton.
Qed.

Definition three_functions_program : Generation_Info :=
  mk_Generation_Info ∅ (three_functions 0) [call 0 "f"] ∅ ∅.

Definition three_names : list string := ["f"; "g"; "h"]%string.

Definition after_removal : Words := delete "h"%string (three_functions 0).

Lemma remove_unused_three :
  remove_unused_words_and_strings three_names three_functions_program =
    ([], Done (mk_Generation_Info ∅ after_removal [call 0 "f"] ∅ ∅, true)).
Proof. vm_compute. reflexivity. Qed.

Lemma three_functions_found : functions_found (three_functions 0) three_names.
Proof.
  apply three_functions_Forall; intros _; vm_compute; reflexivity.
Qed.

Ltac solve_calls_linked :=
  unfold calls_linked; repeat (apply Forall_cons; split); try done;
  (intros _; split; [done|intros name w [= <-]; vm_compute; intros [= <-]; done]).

Lemma remove_unused_preserves_witness :
  steps after_removal syscall_arguments (Running [mk_frame [call 0 "f"] 0] []) (Halted [7]).
Proof.
  apply (remove_unused_preserves three_names three_functions_program [] _ true [] (Halted [7]))
    with (4 := remove_unused_three).
  - exact three_functions_found.
  - solve_calls_linked.
  - apply three_functions_Forall; intros _; solve_calls_linked.
  - do 2 (eapply rtc_l; [by eapply S_call|]). eapply rtc_l; [by eapply S_push_int|].
    do 3 (eapply rtc_l; [by eapply S_end|]). apply rtc_refl.
Defined.

Lemma remove_unused_no_dangling_witness :
  after_removal !! "g"%string = Some (function 1 [push_seven] "g").
Proof.
  apply (remove_unused_no_dangling three_names three_functions_program [] _ true (call 1 "g") [call 1 "g"]
    three_functions_found remove_unused_three).
  - right. exists "f"%string, (function 0 [call 1 "g"] "f"). by vm_compute.
  - left.
  - by right.
  - reflexivity.
  - reflexivity.
Defined.

(** ** Intrinsics have the identifier of the first definition *)

(** The same program with the word of the intrinsic [+], whose identifier is
    left at 0. *)
Definition program_with_intrinsic : Generation_Info :=
  mk_Generation_Info ∅ (<["+"%string := new_Word]> (three_functions 0)) [call 0 "f"] ∅ ∅.

(** the search by identifier is not always the function: the intrinsics
    have the identifier 0 of the first definition.  If the iteration over the
    words meets an intrinsic before that function, its body is not marked, and
    the function [g] it calls is removed from the program; in the order that
    meets the function first, it is kept. *)
Theorem remove_unused_depends_on_order :
  (∃ g', remove_unused_words_and_strings ("+"%string :: three_names) program_with_intrinsic = ([], Done (g', true)) ∧
    words g' !! "f"%string = Some (function 0 [call 1 "g"] "f") ∧ words g' !! "g"%string = None) ∧
  (∃ g', remove_unused_words_and_strings (three_names ++ ["+"%string]) program_with_intrinsic = ([], Done (g', true)) ∧
    words g' !! "g"%string = Some (function 1 [push_seven] "g")).
Proof.
  split; (eexists; split; [vm_compute; reflexivity|]); vm_compute; done.
Qed.
