(* ===== verification/Rounds.v ===== *)
(** * The rounds of the optimizer

    [optimize] repeats its three passes until none of them finds something to
    do.  Here are what a round leaves as it was for the next one, why the rounds
    come to an end, and what all of them together preserve, for programs in
    which no condition is known at compile time: the pass over such conditions
    then finds nothing. *)

From S2P Require Import Prelude Syntax Errors Crossref Operations Semantics TypeSound Optimizer Folding Unused.

Open Scope Z_scope.

(** ** Runs of constants in a folded body *)

Lemma fold_intrinsic_below i st below :
  match fold_intrinsic i st with
  | Folded st' => fold_intrinsic i (st ++ below) = Folded (st' ++ below)
  | Undefined_fold => fold_intrinsic i (st ++ below) = Undefined_fold
  | Unfoldable => True
  end.
Proof.
  unfold fold_intrinsic. destruct (math i) as [f|].
  - destruct st as [|a [|b st]]; try done. simpl. by destruct (f b a).
  - destruct i; try done; destruct st as [|a [|b [|c st]]]; done.
Qed.

Lemma fold_ops_below ops below : ∀ st st',
  fold_ops ops st = Some st' → fold_ops ops (st ++ below) = Some (st' ++ below).
Proof.
  induction ops as [|op ops IH]; intros st st'; simpl; [by intros [= <-]|].
  destruct (op_kind op); try done; [|apply (IH (_ :: _))].
  pose proof (fold_intrinsic_below (op_intrinsic op) st below) as Hf.
  destruct (fold_intrinsic _ st); [|done..]. rewrite Hf. apply IH.
Qed.

(** A test that does not look at jumps, holds of constants, and of an operation
    with fewer constants below. *)
Record stable_test (test : Operation → list Z → bool) : Prop := {
  test_jump j op st : test (set_op_jump j op) st = test op st;
  test_constant v st : test (folded_op v) st = true;
  test_below op st below : test op (st ++ below) = true → test op st = true;
}.

Section Stable.
  Context (test : Operation → list Z → bool) (Htest : stable_test test).

Lemma run_all_below ops below : ∀ st, run_all test ops (st ++ below) = true → run_all test ops st = true.
Proof.
  induction ops as [|op ops IH]; intros st; simpl; [done|]. intros [->%(test_below _ Htest) H]%andb_true_iff. simpl.
  destruct (op_kind op); try done; [|by apply (IH (_ :: _))].
  pose proof (fold_intrinsic_below (op_intrinsic op) st below) as Hf.
  destruct (fold_intrinsic _ st); [|done..]. rewrite Hf in H. by apply IH.
Qed.

Lemma run_all_constants vs ops : ∀ st,
  Forall is_i64 vs → run_all test ((folded_op <$> vs) ++ ops) st = run_all test ops (reverse vs ++ st).
Proof.
  induction vs as [|v vs IH]; intros st Hvs; [done|]. apply Forall_cons in Hvs as [Hv Hvs].
  rewrite fmap_cons. cbn [app run_all]. rewrite (test_constant _ Htest). cbn [andb op_kind folded_op set_op_ival Operation_of op_ival].
  rewrite i64_u64, IH, reverse_cons, <-app_assoc by done. done.
Qed.

Lemma run_all_fmap f ops : ∀ st,
  (∀ op, ∃ j, f op = set_op_jump j op) → run_all test (f <$> ops) st = run_all test ops st.
Proof.
  intros st Hf. revert st. induction ops as [|op ops IH]; intros st; [done|]. rewrite fmap_cons. cbn [run_all].
  destruct (Hf op) as [j ->]. rewrite (test_jump _ Htest). cbn [op_kind op_ival op_intrinsic set_op_jump].
  f_equal. destruct (op_kind op); try done. by destruct (fold_intrinsic _ _).
Qed.

(** A run may have its constants in place of the operations that compute them. *)
Lemma run_all_replace pre seg cs rest : ∀ st,
  fold_ops seg [] = Some cs → Forall is_i64 cs →
  run_all test (pre ++ seg ++ rest) st = true → run_all test (pre ++ (folded_op <$> reverse cs) ++ rest) st = true.
Proof.
  intros st Hseg Hcs. revert st. induction pre as [|op pre IH]; intros st; cbn [app].
  - rewrite run_all_constants, reverse_involutive by (by apply Forall_reverse). intros [_ H]%run_all_app.
    apply H. by apply (fold_ops_below _ st []).
  - cbn [run_all]. intros [-> H]%andb_true_iff. cbn [andb]. destruct (op_kind op); try done; [|by apply IH].
    destruct (fold_intrinsic _ st); [by apply IH|done..].
Qed.

End Stable.

Lemma shifted_jump s e st op : ∃ j, shifted s e st op = set_op_jump j op.
Proof. unfold shifted, shift_jump. case_match; [by eexists|]. exists (op_jump op). by destruct op. Qed.

(** ** What folding leaves as it was *)

(** The conditions of a body are not known at compile time: no run of constants
    ends at an [if] or a [do] with a constant left. *)
Definition open_condition (op : Operation) (st : list Z) : bool :=
  match op_kind op with
  | OpKind.If | OpKind.Do => match st with [] => true | _ => false end
  | _ => true
  end.

Definition conditions_open : list Operation → bool := runs_all open_condition.

Lemma safe_op_stable : stable_test safe_op.
Proof.
  split; [done|done|]. intros op st below. unfold safe_op, nonneg_operands. destruct (op_kind op); try done.
  intros [H1 H2]%andb_true_iff. apply andb_true_iff. split.
  - destruct (sign_sensitive _); [|done]. simpl in *. destruct st as [|a [|b st]]; [done| |done].
    simpl in *. by destruct (0 <=? a).
  - pose proof (fold_intrinsic_below (op_intrinsic op) st below) as Hf.
    destruct (fold_intrinsic _ st); try done. by rewrite Hf in H2.
Qed.

Lemma open_condition_stable : stable_test open_condition.
Proof. split; [done|done|]. intros op st below. unfold open_condition. destruct (op_kind op); try done; by destruct st. Qed.

Section Folds.
  Context (body body' : list Operation) (s e : nat) (st : list Z).
  Context (Hfolds : folds body body' s e st) (Hbody : foldable_body body).

Lemma folds_i64 : Forall is_i64 st.
Proof. eapply fold_ops_i64; [apply Hfolds|constructor|apply Hfolds]. Qed.

Lemma folds_runs_all test : stable_test test → runs_all test body = true → runs_all test body' = true.
Proof.
  intros Htest Hb. pose proof (fo_range _ _ _ _ _ Hfolds). pose proof folds_i64 as Hst.
  rewrite runs_all_drop in Hb |- *. rewrite (fo_body _ _ _ _ _ Hfolds). intros i.
  rewrite <-fmap_drop, run_all_fmap by (done || apply shifted_jump).
  assert (∀ k, (k <= s)%nat →
    run_all test (drop k (take s body) ++ (folded_op <$> reverse st) ++ drop e body) [] = true) as Hpre.
  { intros k Hk. apply (run_all_replace _ Htest _ (segment body s e)); [apply Hfolds|done|].
    specialize (Hb k). rewrite (split_segment body s e) in Hb by lia. rewrite drop_app_le in Hb; [done|].
    rewrite length_take. lia. }
  destruct (decide (i <= s)%nat) as [Hi|Hi].
  { rewrite drop_app_le by (rewrite length_take; lia). by apply Hpre. }
  rewrite drop_app_ge, length_take, Nat.min_l by (rewrite ?length_take; lia).
  destruct (decide (i - s <= length st)%nat) as [Hc|Hc].
  - rewrite drop_app_le, <-fmap_drop by (rewrite length_fmap, length_reverse; lia).
    rewrite run_all_constants, app_nil_r by (done || by apply Forall_drop, Forall_reverse).
    apply (run_all_below _ Htest _ (reverse (take (i - s) (reverse st)))).
    rewrite <-reverse_app, take_drop, reverse_involutive.
    specialize (Hpre s (Nat.le_refl s)). rewrite drop_ge in Hpre by (rewrite length_take; lia).
    by rewrite app_nil_l, run_all_constants, reverse_involutive, app_nil_r in Hpre by (done || by apply Forall_reverse).
  - rewrite drop_app_ge by (rewrite length_fmap, length_reverse; lia). rewrite drop_drop. apply Hb.
Qed.

Lemma folds_length : length body' = (length body + length st - (e - s))%nat.
Proof.
  pose proof (fo_range _ _ _ _ _ Hfolds). rewrite (fo_body _ _ _ _ _ Hfolds), length_fmap, !length_app.
  rewrite length_take, length_drop, length_fmap, length_reverse. lia.
Qed.

Lemma folds_intrinsics : (intrinsics body' + intrinsics (segment body s e) = intrinsics body)%nat.
Proof.
  pose proof (fo_range _ _ _ _ _ Hfolds). rewrite (fo_body _ _ _ _ _ Hfolds).
  rewrite intrinsics_fmap by (intros op; by destruct (shifted_jump s e st op) as [j ->]).
  pose proof (f_equal intrinsics (split_segment body s e ltac:(lia))) as Hs.
  rewrite !intrinsics_app in Hs. rewrite !intrinsics_app, intrinsics_constants. lia.
Qed.

(** Every operation of the new body is a constant or one of the old, with its
    jump moved. *)
Lemma folds_elem op' : op' ∈ body' →
  (∃ v, op' = folded_op v) ∨ ∃ i op, body !! i = Some op ∧ op' = shifted s e st op.
Proof.
  rewrite (fo_body _ _ _ _ _ Hfolds). intros (op & -> & Hop)%list_elem_of_fmap.
  apply elem_of_app in Hop as [Hop|[Hop|Hop]%elem_of_app].
  - right. apply list_elem_of_lookup in Hop as [i Hi]. apply lookup_take_Some in Hi as [Hi _]. by exists i, op.
  - left. apply list_elem_of_fmap in Hop as (v & -> & _). exists v. unfold shifted, shift_jump. done.
  - right. apply list_elem_of_lookup in Hop as [i Hi]. rewrite lookup_drop in Hi. by exists (e + i)%nat, op.
Qed.

Lemma folds_jumps (P : Z → Prop) :
  (∀ i op, body !! i = Some op → is_jump (op_kind op) → P (op_jump (shifted s e st op))) →
  Forall (λ op, is_jump (op_kind op) → P (op_jump op)) body'.
Proof.
  intros H. apply list.Forall_forall. intros op' [(v & ->)|(i & op & Hop & ->)]%folds_elem Hj; [done|].
  apply (H i op Hop). by destruct (shifted_jump s e st op) as [j Hs]; rewrite Hs in Hj.
Qed.

(** No operation, or one that is not folded. *)
Definition border (o : option Operation) : Prop := from_option foldable false o = false.

Lemma enters_run_border l k : enters_run l (S k) = false ↔ border (l !! k) ∨ border (l !! S k).
Proof.
  unfold enters_run, border. destruct (l !! k) as [a|], (l !! S k) as [b|]; simpl; rewrite ?andb_false_iff; tauto.
Qed.

Lemma border_shifted o : border (shifted s e st <$> o) ↔ border o.
Proof. unfold border. destruct o as [op|]; [|done]. simpl. by destruct (shifted_jump s e st op) as [j ->]. Qed.

Lemma run_no_border i : (s <= i < e)%nat → ¬ border (body !! i).
Proof.
  intros Hi. pose proof (fo_range _ _ _ _ _ Hfolds). destruct (lookup_lt_is_Some_2 body i) as [op Hop]; [lia|].
  unfold border. rewrite Hop. simpl. by rewrite (run_foldable _ _ _ _ _ Hfolds i op).
Qed.

Lemma folds_enters t : outside s e t → enters_run body t = false → enters_run body' (moved s e st t) = false.
Proof.
  intros Hout Ht. pose proof (fo_range _ _ _ _ _ Hfolds) as Hr.
  destruct t as [|k]; [rewrite moved_le by lia; done|]. rewrite enters_run_border in Ht.
  destruct (decide (S k <= s)%nat) as [Hs|Hs].
  - rewrite moved_le, enters_run_border, (lookup_before _ _ _ _ _ Hfolds k), border_shifted by lia.
    destruct Ht as [Ht|Ht]; [by left|]. destruct (decide (S k = s)) as [Heq|Hne].
    + destruct (run_no_border (S k)); [lia|done].
    + right. by rewrite (lookup_before _ _ _ _ _ Hfolds), border_shifted by lia.
  - assert (e <= S k)%nat as He by (unfold outside in Hout; lia).
    pose proof (lookup_behind _ _ _ _ _ Hfolds (S k) He) as Hlook.
    destruct (moved s e st (S k)) as [|k'] eqn:Hm; [done|]. rewrite enters_run_border, Hlook, border_shifted.
    destruct Ht as [Ht|Ht]; [|by right]. destruct (decide (e <= k)%nat) as [Hek|Hek].
    + left. assert (k' = moved s e st k) as ->.
      { revert Hm. rewrite !(moved_ge _ _ _ _ _ Hfolds) by lia. lia. }
      by rewrite (lookup_behind _ _ _ _ _ Hfolds), border_shifted by lia.
    + destruct (run_no_border k); [lia|done].
Qed.

Lemma folds_foldable_body : foldable_body body'.
Proof.
  pose proof (fo_range _ _ _ _ _ Hfolds) as Hr. pose proof folds_length as Hlen. pose proof folds_intrinsics as Hint.
  pose proof (constants_length _ _ _ _ _ Hfolds) as Hconst.
  split.
  - pose proof (fb_size _ Hbody). lia.
  - apply (folds_jumps (λ j, _ <= j <= _)). intros i op Hop Hj.
    destruct (jump_moved _ _ _ _ _ Hfolds Hbody i op Hop Hj) as [Hout Hm].
    pose proof (Forall_lookup_1 _ _ _ _ (fb_jumps _ Hbody) Hop Hj) as Hin. simpl in Hin.
    assert (0 <= op_jump (shifted s e st op)) as H0.
    { unfold shifted, shift_jump. case_match; [|lia]. apply Z.mod_pos_bound. lia. }
    assert (moved s e st (Z.to_nat (op_jump op)) <= length body')%nat; [|lia].
    destruct Hout; [rewrite moved_le by done|rewrite (moved_ge _ _ _ _ _ Hfolds) by done]; lia.
  - apply (folds_jumps (λ j, enters_run body' (Z.to_nat j) = false)). intros i op Hop Hj.
    destruct (jump_moved _ _ _ _ _ Hfolds Hbody i op Hop Hj) as [Hout ->].
    apply folds_enters; [done|]. apply (Forall_lookup_1 _ _ _ _ (fb_runs _ Hbody) Hop Hj).
  - by apply folds_runs_all, fb_safe; [apply safe_op_stable|].
Qed.

End Folds.

(** ** The pass over constant conditions *)

Lemma open_no_constant body i condition branch :
  conditions_open body = true → body !! i = Some condition → body !! S i = Some branch →
  op_kind condition ≠ OpKind.Push_Int ∨ (op_kind branch ≠ OpKind.Do ∧ op_kind branch ≠ OpKind.If).
Proof.
  intros Hopen Hc Hb. unfold conditions_open in Hopen. rewrite runs_all_drop in Hopen. specialize (Hopen i).
  rewrite (drop_S _ _ _ Hc), (drop_S _ _ _ Hb) in Hopen. cbn [run_all] in Hopen. unfold open_condition in Hopen.
  destruct (op_kind condition); try (by left). right. by destruct (op_kind branch).
Qed.

(** It finds nothing in a body whose conditions are open. *)
Lemma comptime_loop_open fuel body : ∀ branch_op done_something,
  conditions_open body = true → (0 < fuel)%nat → (length body < branch_op + fuel)%nat → (0 < branch_op)%nat →
  comptime_loop fuel body branch_op done_something = ([], Done (body, done_something)).
Proof.
  induction fuel as [|fuel IH]; intros b r Hopen Hfuel Hlen Hb; cbn [comptime_loop]; [lia|].
  destruct (body !! b) as [branch|] eqn:Hbranch; [|done].
  destruct (body !! (b - 1)%nat) as [condition|] eqn:Hcond; [|done].
  pose proof (lookup_lt_Some _ _ _ Hbranch). rewrite decide_True; [apply IH; [done|lia..]|].
  apply (open_no_constant body (b - 1)); [done|done|]. by replace (S (b - 1)) with b by lia.
Qed.

(** ** What every round needs of a program *)

(** Each function is the first word in the order of iteration that has its
    identifier. *)
Definition functions_first (words : Words) (order : list string) : Prop :=
  map_Forall (λ name w, w_kind w = WordKind.Function →
    head (filter (λ e, w_id e.2 = w_id w) (entries words order)) = Some (name, w)) words.

Lemma functions_first_found words order : functions_first words order → functions_found words order.
Proof. intros H name w Hw Hk. unfold find_word. by rewrite (H name w Hw Hk). Qed.

(** Every reference to a word leads to one. *)
Definition symbols_found (words : Words) (order : list string) (body : list Operation) : Prop :=
  Forall (λ op, op_kind op = OpKind.Push_Symbol ∨ op_kind op = OpKind.Call_Symbol →
    tok_kind (op_token op) ≠ TokKind.String → is_Some (find_word words order (op_ival op))) body.

Record body_optimizable (words : Words) (order : list string) (body : list Operation) : Prop := {
  body_foldable : foldable_body body;
  body_open : conditions_open body = true;
  body_linked : calls_linked words body;
  body_symbols : symbols_found words order body;
}.

Record optimizable (order : list string) (g : Generation_Info) : Prop := {
  optimizable_order : NoDup order;
  optimizable_complete : ∀ name, is_Some (words g !! name) → name ∈ order;
  optimizable_first : functions_first (words g) order;
  optimizable_main : body_optimizable (words g) order (main g);
  optimizable_words : map_Forall (λ _ w, w_kind w = WordKind.Function →
    body_optimizable (words g) order (w_function_body w)) (words g);
}.

(** The words of the second table are words of the first, perhaps with another
    body. *)
Definition words_from (words words' : Words) : Prop :=
  map_Forall (λ name w', ∃ w body, words !! name = Some w ∧ w' = set_body body w) words'.

#[global] Instance words_from_preorder : PreOrder words_from.
Proof.
  split.
  - intros ws name w Hw. exists w, (w_function_body w). by rewrite set_body_same.
  - intros ws1 ws2 ws3 H12 H23 name w3 (w2 & b3 & Hw2 & ->)%H23.
    apply H12 in Hw2 as (w1 & b2 & Hw1 & ->). by exists w1, b3.
Qed.

Lemma calls_linked_from words words' body : words_from words words' → calls_linked words body → calls_linked words' body.
Proof.
  intros Hfrom Hb. eapply list.Forall_impl; [exact Hb|]. intros op Hop Hk. destruct (Hop Hk) as [Htok Hcall].
  split; [done|]. intros name w' Hname (w & b & Hw & ->)%Hfrom. by apply (Hcall name w).
Qed.

Lemma first_from words words' order id name w w' :
  words_from words words' → words' !! name = Some w' →
  head (filter (λ e, w_id e.2 = id) (entries words order)) = Some (name, w) →
  head (filter (λ e, w_id e.2 = id) (entries words' order)) = Some (name, w').
Proof.
  intros Hfrom Hw'. unfold entries. induction order as [|x order IH]; [done|]. cbn [omap list_omap].
  destruct (words' !! x) as [wx'|] eqn:Hx'.
  - destruct (Hfrom _ _ Hx') as (wx & b & Hx & Hset). rewrite Hx. simpl. rewrite !filter_cons. subst wx'. simpl.
    case_decide; [|done]. intros [= -> ->]. simpl. congruence.
  - destruct (words !! x) as [wx|] eqn:Hx; [|done]. simpl. rewrite filter_cons. case_decide; [|done].
    intros [= -> ->]. congruence.
Qed.

Lemma functions_first_from words words' order :
  words_from words words' → functions_first words order → functions_first words' order.
Proof.
  intros Hfrom H name w' Hw' Hk. destruct (Hfrom _ _ Hw') as (w & b & Hw & ->).
  eapply first_from; [done|done|]. exact (H name w Hw Hk).
Qed.

(** A program with words of another one, whose bodies have what is needed. *)
Definition body_ready (words : Words) (words' : Words) (order : list string) (body : list Operation) : Prop :=
  foldable_body body ∧ conditions_open body = true ∧ calls_linked words body ∧ symbols_found words' order body.

Lemma optimizable_from order g g' :
  words_from (words g) (words g') → optimizable order g →
  body_ready (words g) (words g') order (main g') →
  map_Forall (λ _ w, w_kind w = WordKind.Function →
    body_ready (words g) (words g') order (w_function_body w)) (words g') →
  optimizable order g'.
Proof.
  intros Hfrom [Hnd Hall Hfirst _ _] Hmain Hwords.
  assert (∀ body, body_ready (words g) (words g') order body → body_optimizable (words g') order body) as Hb.
  { intros body (? & ? & ? & ?). split; [done|done|by eapply calls_linked_from|done]. }
  split; [done| |by eapply functions_first_from|by apply Hb|].
  - intros name [w' (w & b & Hw & _)%Hfrom]. by apply Hall.
  - intros name w Hw Hk. by apply Hb, (Hwords name).
Qed.

Lemma find_word_from words words' order id :
  words_from words words' →
  (∀ name w, words !! name = Some w → w_id w = id → is_Some (words' !! name)) →
  is_Some (find_word words order id) → is_Some (find_word words' order id).
Proof.
  intros Hfrom Hkept [w Hw]. unfold find_word in *. apply fmap_Some in Hw as ([name w1] & Hhead & ->).
  assert (words !! name = Some w1 ∧ w_id w1 = id) as [Hw1 Hid].
  { apply head_Some_elem_of in Hhead. apply list_elem_of_filter in Hhead as [Hid Hin]. split; [|done].
    apply list_elem_of_omap in Hin as (x & _ & Hx). by apply fmap_Some in Hx as (w2 & Hw2 & [= -> ->]). }
  destruct (Hkept _ _ Hw1 Hid) as [w' Hw']. by rewrite (first_from _ _ _ _ _ _ _ Hfrom Hw' Hhead).
Qed.

Lemma unused_from order g l g' r :
  remove_unused_words_and_strings order g = (l, Done (g', r)) → words_from (words g) (words g').
Proof.
  intros (u & _ & _ & -> & _)%remove_unused_result name w [Hw _]%map_lookup_filter_Some.
  exists w, (w_function_body w). by rewrite set_body_same.
Qed.

Lemma unused_optimizable order g l g' r :
  optimizable order g → remove_unused_words_and_strings order g = (l, Done (g', r)) → optimizable order g'.
Proof.
  intros Hg Hu. pose proof (unused_from _ _ _ _ _ Hu) as Hfrom.
  apply remove_unused_result in Hu as (u & Hspec & Hm & Hw & _).
  assert (∀ body, body_optimizable (words g) order body → Forall (marked u) body →
    body_ready (words g) (words g') order body) as Hready.
  { intros body [Hf Ho Hc Hs] Hb. split_and!; [done|done|done|]. apply list.Forall_forall. intros op Hop Hk Htok.
    apply (find_word_from (words g)); [done| |by apply (proj1 (list.Forall_forall _ _) Hs op Hop)].
    intros name w Hlook Hid. rewrite Hw. exists w. apply map_lookup_filter_Some. split; [done|].
    pose proof (proj1 (list.Forall_forall _ _) Hb op Hop Hk) as Hin. rewrite decide_False in Hin by done.
    unfold keep_word. simpl. rewrite Hid, bool_decide_eq_true_2 by done. by rewrite orb_true_r. }
  eapply optimizable_from; [done|done|rewrite Hm; apply Hready; [apply Hg|apply Hspec]|].
  intros name w Hlook Hk. rewrite Hw in Hlook. apply map_lookup_filter_Some in Hlook as [Hlook Hkeep].
  apply Hready; [by apply (optimizable_words _ _ Hg name)|].
  eapply kept_marked; [by apply functions_first_found, Hg|done|by apply map_lookup_filter_Some|done].
Qed.

Lemma optimizable_foldable order g : optimizable order g → program_foldable g.
Proof.
  intros Hg. split; [apply Hg|]. intros name w Hw Hk. by apply (optimizable_words _ _ Hg name w Hw Hk).
Qed.

Lemma folding_body_ready words words' order body body' :
  words_from words words' → (∀ name, is_Some (words !! name) → is_Some (words' !! name)) →
  body_optimizable words order body → optimized body body' → body_ready words words' order body'.
Proof.
  intros Hfrom Hdom [Hf Ho Hc Hs] Hopt.
  assert (symbols_found words' order body) as Hs'.
  { eapply list.Forall_impl; [exact Hs|]. intros op Hop Hk Htok. eapply find_word_from; [done| |by apply Hop].
    intros name w Hw _. by apply Hdom. }
  destruct Hopt as [->|(_ & s & e & st & Hfolds)]; [done|]. split_and!.
  - by eapply folds_foldable_body.
  - eapply folds_runs_all; [done|apply open_condition_stable|done].
  - apply list.Forall_forall. intros op' [(v & ->)|(i & op & Hop & ->)]%(folds_elem _ _ _ _ _ Hfolds); [done|].
    pose proof (Forall_lookup_1 _ _ _ _ Hc Hop) as H. by destruct (shifted_jump s e st op) as [j ->].
  - apply list.Forall_forall. intros op' [(v & ->)|(i & op & Hop & ->)]%(folds_elem _ _ _ _ _ Hfolds); [by intros []|].
    pose proof (Forall_lookup_1 _ _ _ _ Hs' Hop) as H. by destruct (shifted_jump s e st op) as [j ->].
Qed.

Lemma folding_from order g l g' r :
  NoDup order → for_all_functions constant_folding order g = (l, Done (g', r)) →
  words_from (words g) (words g').
Proof.
  intros Hnd H. unfold for_all_functions in H. apply bind_Done in H as (? & [m rm] & ? & Hm & H & _).
  apply bind_Done in H as (? & [ws rw] & ? & Hws & [= <- <- <-] & _). simpl.
  destruct (for_functions_result _ _ _ _ _ _ Hnd Hws) as (Hafter & Hnone & _).
  intros name w' Hw'. destruct (words g !! name) as [w|] eqn:Hw; [|by rewrite Hnone in Hw'].
  specialize (Hafter name w Hw). unfold word_after in Hafter. exists w. case_decide.
  - destruct Hafter as (l1 & body & rb & _ & Hl & _). exists body. split; [done|]. congruence.
  - exists (w_function_body w). rewrite set_body_same. split; [done|]. congruence.
Qed.

Lemma folding_optimizable order g l g' r :
  optimizable order g → for_all_functions constant_folding order g = (l, Done (g', r)) → optimizable order g'.
Proof.
  intros Hg Hf. pose proof (optimizable_order _ _ Hg) as Hnd.
  destruct (folding_optimized _ _ _ _ _ Hnd (optimizable_foldable _ _ Hg) Hf) as [Hm Hws].
  pose proof (folding_from _ _ _ _ _ Hnd Hf) as Hfrom.
  assert (∀ name, is_Some (words g !! name) → is_Some (words g' !! name)) as Hdom.
  { intros name [w (b & Hw & _)%Hws]. by eexists. }
  eapply optimizable_from; [done|done|eapply folding_body_ready; [done|done|apply Hg|done]|].
  intros name w' Hw' Hk. destruct (Hfrom _ _ Hw') as (w & b & Hw & ->).
  destruct (Hws _ _ Hw) as (b' & Hw2 & Hopt). rewrite Hw' in Hw2. injection Hw2 as ->.
  eapply folding_body_ready; [done|done| |exact Hopt]. by apply (optimizable_words _ _ Hg name).
Qed.

(** ** Every pass succeeds *)

Lemma folding_loop_Done body rest : ∀ i start st,
  (∀ k, run_safe (drop k rest) [] = true) → run_safe rest st = true → (start = None → st = []) →
  ∃ r, folding_loop body rest i start st = ([], Done r).
Proof.
  induction rest as [|op rest IH]; intros i start st Hall Hst Hstart; cbn [folding_loop].
  { case_match; by eexists. }
  assert (∀ k, run_safe (drop k rest) [] = true) as Hall' by (intros k; apply (Hall (S k))).
  assert (∃ r, folding_loop body rest (S i) None [] = ([], Done r)) as Hreset.
  { apply IH; [done|apply (Hall' 0%nat)|done]. }
  assert (∃ r, match finish_constant_folding body start st i with
    | Some body => mret (body, true) | None => folding_loop body rest (S i) None [] end = ([], Done r)) as Hfinish.
  { case_match; [by eexists|done]. }
  cbn [run_all] in Hst. apply andb_true_iff in Hst as [Hop Hst].
  destruct start as [s|]; [|rewrite (Hstart eq_refl) in *]; destruct (op_kind op) eqn:Hk; try done.
  - unfold safe_op in Hop. rewrite Hk in Hop. apply andb_true_iff in Hop as [_ Hop].
    destruct (fold_intrinsic _ st); [by apply IH|done|done].
  - by apply IH.
  - by apply IH.
Qed.

Lemma constant_folding_Done body : runs_all safe_op body = true → ∃ r, constant_folding body = ([], Done r).
Proof. rewrite runs_all_drop. intros H. apply folding_loop_Done; [done|apply (H 0%nat)|done]. Qed.

Lemma for_functions_Done iteration order : ∀ ws,
  (∀ name w, name ∈ order → ws !! name = Some w → w_kind w = WordKind.Function →
    ∃ r, iteration (w_function_body w) = ([], Done r)) →
  NoDup order → ∃ r, for_functions iteration order ws = ([], Done r).
Proof.
  induction order as [|name order IH]; intros ws Hws Hnd; cbn [for_functions]; [by eexists|].
  apply NoDup_cons in Hnd as [Hname Hnd].
  assert (∀ ws1, (∀ x, x ∈ order → ws1 !! x = ws !! x) → ∃ r, for_functions iteration order ws1 = ([], Done r)) as Hnext.
  { intros ws1 Hsame. apply IH; [|done]. intros x w Hx Hw. rewrite Hsame in Hw by done. apply (Hws x); [by right|done]. }
  destruct (ws !! name) as [w|] eqn:Hw; [|by apply Hnext]. case_decide as Hk; [|by apply Hnext].
  destruct (Hws name w) as [[body r] ->]; [by left|done|done|].
  destruct (Hnext (<[name:=set_body body w]> ws)) as [[ws' r'] Hr'].
  { intros x Hx. apply lookup_insert_ne. by intros ->. }
  cbn [mbind comp_bind]. rewrite Hr'. by eexists.
Qed.

(** Marking fails only on a reference to no word. *)
Section Marking.
  Context (words : Words) (order : list string).
  Context (Hsymbols : ∀ id w, find_word words order id = Some w → w_kind w = WordKind.Function →
    symbols_found words order (w_function_body w)).

Lemma mark_body_Done rec n body : ∀ u,
  (∀ body u, symbols_found words order body → (unmarked words u < n)%nat → ∃ u', rec body u = ([], Done u')) →
  (∀ body u l u', rec body u = (l, Done u') → mark_spec words order body u u') →
  symbols_found words order body → (unmarked words u <= n)%nat →
  ∃ u', mark_body words order rec body u = ([], Done u').
Proof.
  induction body as [|op body IH]; intros u Hrec Hspec Hs Hu; cbn [mark_body]; [by eexists|].
  apply Forall_cons in Hs as [Hop Hs]. repeat case_decide; try (by apply IH).
  destruct (Hop ltac:(destruct (decide (op_kind op = OpKind.Push_Symbol)), (decide (op_kind op = OpKind.Call_Symbol)); tauto)
    ltac:(done)) as [word Hw]. rewrite Hw. pose proof Hw as Hid.
  apply find_word_ids in Hid. set (u1 := mk_used (used_words u ∪ {[op_ival op]}) (used_strings u)).
  assert (unmarked words u1 < unmarked words u)%nat as Hlt by (by apply unmarked_lt).
  case_decide as Hk; [apply IH; [done|done|done|lia]|].
  assert (w_kind word = WordKind.Function) as Hf by (destruct (decide (w_kind word = WordKind.Function)); tauto).
  destruct (Hrec (w_function_body word) u1) as [u2 Hu2]; [by eapply Hsymbols|lia|].
  pose proof (Hspec _ _ _ _ Hu2) as [Hle2%(unmarked_le words) _].
  destruct (IH u2) as [u3 Hu3]; [done|done|done|lia|]. exists u3. rewrite Hu2. cbn [mbind comp_bind]. by rewrite Hu3.
Qed.

Lemma mark_Done fuel : ∀ body u,
  symbols_found words order body → (unmarked words u < fuel)%nat → ∃ u', mark words order fuel body u = ([], Done u').
Proof.
  induction fuel as [|fuel IH]; intros body u Hs Hu; [lia|]. simpl.
  apply (mark_body_Done _ fuel); [done|apply mark_fuel_spec|done|lia].
Qed.

End Marking.

Lemma find_word_lookup words order id w :
  find_word words order id = Some w → ∃ name, words !! name = Some w.
Proof.
  unfold find_word. intros ([name w1] & Hhead%head_Some_elem_of & ->)%fmap_Some. exists name.
  apply list_elem_of_filter in Hhead as [_ Hin]. apply list_elem_of_omap in Hin as (x & _ & Hx).
  by apply fmap_Some in Hx as (w2 & Hw2 & [= -> ->]).
Qed.

Lemma unused_Done order g : optimizable order g → ∃ r, remove_unused_words_and_strings order g = ([], Done r).
Proof.
  intros Hg. unfold remove_unused_words_and_strings.
  destruct (mark_Done (words g) order) with (fuel := S (size (words g))) (body := main g) (u := mk_used ∅ ∅) as [u ->].
  - intros id w (name & Hw)%find_word_lookup Hk. apply (optimizable_words _ _ Hg name w Hw Hk).
  - apply Hg.
  - unfold unmarked. simpl. pose proof (size_ids (words g)).
    assert (size (ids (words g) ∖ ∅) <= size (ids (words g)))%nat; [|lia]. apply subseteq_size. set_solver.
  - by eexists.
Qed.

Lemma folding_Done order g : optimizable order g → ∃ r, for_all_functions constant_folding order g = ([], Done r).
Proof.
  intros Hg. unfold for_all_functions.
  destruct (constant_folding_Done (main g)) as [[m r] ->]; [apply Hg|]. cbn [mbind comp_bind].
  destruct (for_functions_Done constant_folding order (words g)) as [[ws r'] ->]; [|apply Hg|by eexists].
  intros name w _ Hw Hk. apply constant_folding_Done. by apply (optimizable_words _ _ Hg name w Hw Hk).
Qed.

(** *** Sums over the bodies of a program *)

Definition word_size (size_of : list Operation → nat) (o : option Word) : nat :=
  match o with
  | Some w => if decide (w_kind w = WordKind.Function) then size_of (w_function_body w) else 0
  | None => 0
  end.

Definition total (size_of : list Operation → nat) (order : list string) (g : Generation_Info) : nat :=
  (size_of (main g) + sum_list_with (λ name, word_size size_of (words g !! name)) order)%nat.

Lemma sum_list_with_mono {A} (f f' : A → nat) l :
  (∀ x, f' x <= f x)%nat → (sum_list_with f' l <= sum_list_with f l)%nat.
Proof. intros H. induction l as [|x l IH]; simpl; [lia|]. specialize (H x). lia. Qed.

Lemma sum_list_with_strict {A} (f f' : A → nat) l x :
  (∀ x, f' x <= f x)%nat → x ∈ l → (f' x < f x)%nat → (sum_list_with f' l < sum_list_with f l)%nat.
Proof.
  intros H Hx Hlt. induction Hx as [x l|x y l _ IH]; simpl.
  - pose proof (sum_list_with_mono f f' l H). lia.
  - specialize (H y). specialize (IH Hlt). lia.
Qed.

Lemma word_le_total size_of order g name w :
  name ∈ order → words g !! name = Some w → w_kind w = WordKind.Function →
  (size_of (w_function_body w) <= total size_of order g)%nat.
Proof.
  intros Hin Hw Hk. unfold total.
  assert (word_size size_of (words g !! name) <= sum_list_with (λ name, word_size size_of (words g !! name)) order)%nat as Hle.
  { clear Hw Hk. induction Hin as [|? ? ? _ IH]; simpl; lia. }
  rewrite Hw in Hle. simpl in Hle. rewrite decide_True in Hle by done. lia.
Qed.

(** ** The rounds come to an end *)

Definition body_weight (body : list Operation) : nat := (length body + intrinsics body)%nat.

(** What the removal and the folding use up. *)
Definition remaining (order : list string) (g : Generation_Info) : nat :=
  (size (words g) + size (strings g) + total intrinsics order g)%nat.

Lemma filter_size {K V} `{Countable K} (P : K * V → Prop) `{∀ x, Decision (P x)} (m : gmap K V) :
  (size (filter P m) < size m)%nat ∨ filter P m = m.
Proof.
  destruct (decide (size (filter P m) < size m)%nat) as [|Hge]; [by left|]. right.
  pose proof (map_filter_subseteq P m) as Hsub. apply map_eq. intros k. apply option_eq. intros v.
  split; [intros Hf; by eapply lookup_weaken|]. intros Hv. destruct (filter P m !! k) as [v'|] eqn:Hk.
  { by rewrite <-Hv, (lookup_weaken _ _ _ _ Hk Hsub). }
  exfalso. apply Hge, map_subset_size. split; [done|]. intros Hsub'. by rewrite (lookup_weaken _ _ _ _ Hv Hsub') in Hk.
Qed.

Lemma unused_shrinks order g l g' r :
  remove_unused_words_and_strings order g = (l, Done (g', r)) →
  (∀ f, total f order g' <= total f order g)%nat ∧
  if r then (remaining order g' < remaining order g)%nat else g' = g.
Proof.
  intros H. pose proof (remove_unused_result _ _ _ _ _ H) as (u & _ & Hm & Hw & Hs).
  assert (∀ f, total f order g' <= total f order g)%nat as Htotal.
  { intros f. unfold total. rewrite Hm. apply Nat.add_le_mono_l, sum_list_with_mono. intros name.
    destruct (words g' !! name) as [w|] eqn:Hl; simpl; [|lia].
    rewrite Hw in Hl. apply map_lookup_filter_Some in Hl as [-> _]. simpl. lia. }
  split; [done|]. specialize (Htotal intrinsics). unfold remaining.
  unfold remove_unused_words_and_strings in H. apply bind_Done in H as (? & u' & ? & _ & [= <- <- <-] & _).
  cbn [words strings main set_words] in *.
  destruct (filter_size (λ e, keep_word u' e.2 = true) (words g)) as [Hlt|Heq1];
    destruct (filter_size (λ e, e.2 ∈ used_strings u') (strings g)) as [Hlt2|Heq2];
    [rewrite (proj2 (Nat.eqb_neq (size (filter _ (words g))) _)) by lia; simpl; lia| | |].
  - rewrite (proj2 (Nat.eqb_neq (size (filter _ (words g))) _)) by lia. simpl. rewrite Heq2 in *. lia.
  - rewrite Heq1. rewrite (proj2 (Nat.eqb_neq (size (filter _ (strings g))) _)) by lia.
    rewrite andb_false_r. simpl. rewrite Heq1 in *. lia.
  - rewrite Heq1, Heq2, !Nat.eqb_refl. simpl. by destruct g.
Qed.

(** A folding of one body, as its sizes see it. *)
Lemma folding_body_shrinks body l body' r :
  foldable_body body → constant_folding body = (l, Done (body', r)) →
  (body_weight body' <= body_weight body)%nat ∧
  if r then (intrinsics body' < intrinsics body)%nat else body' = body.
Proof.
  intros Hb Hf.
  assert (if r then (intrinsics body' < intrinsics body)%nat else body' = body) as Hr.
  { revert Hf. apply (constant_folding_inv (λ body' r, if r then (intrinsics body' < intrinsics body)%nat else body' = body));
      [done|]. intros i start st body1. apply finish_progress. }
  split; [|done]. destruct (constant_folding_result _ _ _ _ (fb_safe _ Hb) Hf) as [[_ ->]|[_ (s & e & st & Hfolds)]]; [done|].
  unfold body_weight. pose proof (folds_length _ _ _ _ _ Hfolds). pose proof (folds_intrinsics _ _ _ _ _ Hfolds).
  pose proof (constants_length _ _ _ _ _ Hfolds). pose proof (fo_range _ _ _ _ _ Hfolds). lia.
Qed.

Section Folding_round.
  Context (order : list string) (g : Generation_Info) (Hg : optimizable order g).
  Context (l : list Entry) (ws : Words) (r : bool) (Hws : for_functions constant_folding order (words g) = (l, Done (ws, r))).

(** The folding of one word, as its sizes see it. *)
Lemma folding_word_shrinks name :
  (word_size body_weight (ws !! name) <= word_size body_weight (words g !! name))%nat ∧
  (word_size intrinsics (ws !! name) <= word_size intrinsics (words g !! name))%nat ∧
  (r = false → ws !! name = words g !! name) ∧ (is_Some (words g !! name) ↔ is_Some (ws !! name)).
Proof.
  destruct (for_functions_result _ _ _ _ _ _ (optimizable_order _ _ Hg) Hws) as (Hafter & Hnone & _).
  destruct (words g !! name) as [w|] eqn:Hw; [|by rewrite (Hnone _ Hw)].
  specialize (Hafter name w Hw). unfold word_after in Hafter. case_decide as Hf; [|by rewrite Hafter].
  destruct Hafter as (l1 & body & rb & Hb & -> & Hrb). unfold word_size. simpl. rewrite !decide_True by apply Hf.
  destruct (folding_body_shrinks _ _ _ _ (body_foldable _ _ _ (optimizable_words _ _ Hg name w Hw (proj2 Hf))) Hb) as [Hbw Hbi].
  split_and!; [done|destruct rb; [lia|by subst]| |done]. intros ->. destruct rb; [by destruct (Hrb I)|].
  subst. by rewrite set_body_same.
Qed.

Lemma folding_words_intrinsics :
  (sum_list_with (λ name, word_size intrinsics (ws !! name)) order + (if r then 1 else 0) <=
   sum_list_with (λ name, word_size intrinsics (words g !! name)) order)%nat.
Proof.
  pose proof folding_word_shrinks as Hword.
  destruct (for_functions_result _ _ _ _ _ _ (optimizable_order _ _ Hg) Hws) as (Hafter & _ & Hsome).
  destruct r; [|rewrite Nat.add_0_r; apply sum_list_with_mono; intros name; apply Hword]. destruct (Hsome I) as (name & w & l1 & body & Hin & Hw & Hk & Hb).
  destruct (folding_body_shrinks _ _ _ _ (body_foldable _ _ _ (optimizable_words _ _ Hg name w Hw Hk)) Hb) as [_ Hlt].
  rewrite Nat.add_1_r. apply (sum_list_with_strict _ _ _ name); [intros y; apply Hword|done|].
  specialize (Hafter name w Hw). unfold word_after in Hafter. rewrite decide_True in Hafter by done.
  destruct Hafter as (l2 & body2 & rb2 & Hb2 & -> & _). rewrite Hw. unfold word_size. simpl. rewrite !decide_True by done.
  rewrite Hb in Hb2. by injection Hb2 as _ <- _.
Qed.

Lemma folding_words_size : size ws = size (words g).
Proof.
  rewrite <-!(size_dom (D := gset string)). f_equal. apply set_eq. intros name. rewrite !elem_of_dom.
  symmetry. apply folding_word_shrinks.
Qed.

End Folding_round.

Lemma folding_shrinks order g l g' r :
  optimizable order g → for_all_functions constant_folding order g = (l, Done (g', r)) →
  (total body_weight order g' <= total body_weight order g)%nat ∧
  if r then (remaining order g' < remaining order g)%nat else g' = g.
Proof.
  intros Hg H. unfold for_all_functions in H. apply bind_Done in H as (? & [m rm] & ? & Hm & H & _).
  apply bind_Done in H as (? & [ws rw] & ? & Hws & [= <- <- <-] & _).
  destruct (folding_body_shrinks _ _ _ _ (body_foldable _ _ _ (optimizable_main _ _ Hg)) Hm) as [Hmw Hmi].
  pose proof (folding_words_intrinsics _ _ Hg _ _ _ Hws) as Hsum.
  pose proof (folding_word_shrinks _ _ Hg _ _ _ Hws) as Hword.
  unfold remaining, total. cbn [words strings main set_words]. rewrite (folding_words_size _ _ Hg _ _ _ Hws). split.
  - apply Nat.add_le_mono; [done|]. apply sum_list_with_mono. intros name. apply Hword.
  - destruct rm; simpl; [lia|]. subst m. destruct rw; [lia|].
    assert (ws = words g) as -> by (apply map_eq; intros name; by apply Hword). by destruct g.
Qed.

(** ** The pass over conditions does nothing *)

Lemma for_functions_same iteration order ws :
  (∀ name w, name ∈ order → ws !! name = Some w → w_kind w = WordKind.Function →
    iteration (w_function_body w) = ([], Done (w_function_body w, false))) →
  for_functions iteration order ws = ([], Done (ws, false)).
Proof.
  induction order as [|name order IH]; intros Hws; cbn [for_functions]; [done|].
  assert (for_functions iteration order ws = ([], Done (ws, false))) as Hrest.
  { apply IH. intros x w Hx. apply Hws. by right. }
  destruct (ws !! name) as [w|] eqn:Hw; [|done]. case_decide as Hk; [|done].
  rewrite (Hws name w) by (done || by left). cbn [mbind comp_bind].
  rewrite set_body_same, insert_id, Hrest by done. done.
Qed.

Lemma comptime_does_nothing fuel order g :
  optimizable order g → (total body_weight order g < fuel)%nat →
  for_all_functions (optimize_comptime_known_conditions fuel) order g = ([], Done (g, false)).
Proof.
  intros Hg Hfuel.
  assert (∀ body, conditions_open body = true → (body_weight body <= total body_weight order g)%nat →
    optimize_comptime_known_conditions fuel body = ([], Done (body, false))) as Hbody.
  { intros body Hopen Hle. assert (length body <= body_weight body)%nat by (unfold body_weight; lia).
    apply comptime_loop_open; [done|lia..]. }
  unfold for_all_functions. rewrite Hbody; [|apply Hg|unfold total; lia]. cbn [mbind comp_bind].
  rewrite for_functions_same; [by destruct g|]. intros name w Hin Hw Hk.
  apply Hbody; [by apply (optimizable_words _ _ Hg name w Hw Hk)|by eapply word_le_total].
Qed.

(** ** The loop *)

(** What a round does. *)
Inductive improves (order : list string) : Generation_Info → Generation_Info → Prop :=
  | Round_unused l g g' :
      optimizable order g → remove_unused_words_and_strings order g = (l, Done (g', true)) → improves order g g'
  | Round_folding l g g' :
      optimizable order g → for_all_functions constant_folding order g = (l, Done (g', true)) → improves order g g'.

Lemma improves_optimizable order g g' : improves order g g' → optimizable order g'.
Proof. intros [l g1 g2 Hg H|l g1 g2 Hg H]; [by eapply unused_optimizable|by eapply folding_optimizable]. Qed.

(** No pass finds anything to do. *)
Definition finished (order : list string) (g : Generation_Info) : Prop :=
  remove_unused_words_and_strings order g = ([], Done (g, false)) ∧
  for_all_functions constant_folding order g = ([], Done (g, false)).

Lemma optimize_finished fuel order g :
  optimizable order g → finished order g → (total body_weight order g < fuel)%nat →
  optimize (S fuel) order g = ([], Done g).
Proof.
  intros Hg [Hu Hf] Hfuel. cbn [optimize]. rewrite Hu. cbn [mbind comp_bind].
  rewrite comptime_does_nothing by done. cbn [mbind comp_bind]. by rewrite Hf.
Qed.

Lemma optimize_rounds fuel : ∀ order g,
  optimizable order g → (remaining order g + total body_weight order g < fuel)%nat →
  ∃ g', optimize (S fuel) order g = ([], Done g') ∧ rtc (improves order) g g' ∧ optimizable order g' ∧ finished order g' ∧
    (total body_weight order g' <= total body_weight order g)%nat.
Proof.
  induction fuel as [|fuel IH]; intros order g Hg Hfuel; [lia|].
  assert (∀ g2, improves order g g2 → (remaining order g2 < remaining order g)%nat →
    (total body_weight order g2 <= total body_weight order g)%nat →
    ∃ g', optimize (S fuel) order g2 = ([], Done g') ∧ rtc (improves order) g g' ∧ optimizable order g' ∧ finished order g' ∧
      (total body_weight order g' <= total body_weight order g)%nat) as Hnext.
  { intros g2 Hround Hlt Hle. destruct (IH order g2) as (g' & Ho & Hr & Hg' & Hdone & Hle');
      [by eapply improves_optimizable|lia|]. exists g'. split_and!; [done|by eapply rtc_l|done|done|lia]. }
  destruct (unused_Done order g Hg) as [[g1 r1] Hu]. pose proof (unused_shrinks _ _ _ _ _ Hu) as [Hle1 Hr1].
  specialize (Hle1 body_weight). remember (S fuel) as n eqn:Hn. cbn [optimize]. rewrite Hu. cbn [mbind comp_bind].
  destruct r1.
  { destruct (Hnext g1) as (g' & -> & H); [by eapply Round_unused|done|done|]. exists g'. by split. }
  subst g1. rewrite comptime_does_nothing by (done || lia). cbn [mbind comp_bind].
  destruct (folding_Done order g Hg) as [[g2 r2] Hf]. pose proof (folding_shrinks _ _ _ _ _ Hg Hf) as [Hle2 Hr2].
  rewrite Hf. cbn [mbind comp_bind]. destruct r2.
  { destruct (Hnext g2) as (g' & -> & H); [by eapply Round_folding|done|done|]. exists g'. by split. }
  subst g2. exists g. split_and!; [done|apply rtc_refl|done|by split|done].
Qed.

(** ** Properties *)

(** The program has come to an end, on some stack or by a trap. *)
Definition outcome_of (c : config) : Prop := (∃ st, c = Halted st) ∨ c = Trapped.

Lemma improves_preserves order g g' st c :
  improves order g g' → outcome_of c →
  steps (words g) syscall_arguments (Running [mk_frame (main g) 0] st) c →
  steps (words g') syscall_arguments (Running [mk_frame (main g') 0] st) c.
Proof.
  intros Hround Hc Hsteps. destruct Hround as [l g g' Hg H|l g g' Hg H].
  - apply remove_unused_result in H as (u & (_ & Hm & Hclosed) & -> & -> & _).
    eapply (steps_used (words g) order u); [by apply functions_first_found, Hg|exact Hclosed| | |exact Hsteps].
    + intros name w Hw Hk. apply (optimizable_words _ _ Hg name w Hw Hk).
    + apply Forall_singleton. split; [done|]. apply (optimizable_main _ _ Hg).
  - destruct (folding_optimized _ _ _ _ _ (optimizable_order _ _ Hg) (optimizable_foldable _ _ Hg) H) as [Hm Hws].
    by eapply folding_preserves_outcome.
Qed.

(** C6: The optimizer as a whole, on a program in which no condition is a
    constant, no negative constant or division by zero is folded, no jump
    enters a run of constants, calls and references are resolved, and each
    function is the first word with its identifier in the order of the hash map
    ([optimizable]; without the last the claim fails,
    [remove_unused_depends_on_order]): with fuel for its rounds it ends without
    a report, another run of it on the result changes nothing, and a program
    that comes to an end, on some stack or by a division by zero, comes to the
    same end when it is optimized. *)
Theorem optimize_preserves fuel order g :
  optimizable order g → (remaining order g + total body_weight order g + 1 < fuel)%nat →
  ∃ g', optimize fuel order g = ([], Done g') ∧ optimize fuel order g' = ([], Done g') ∧
    ∀ st c, outcome_of c → steps (words g) syscall_arguments (Running [mk_frame (main g) 0] st) c →
      steps (words g') syscall_arguments (Running [mk_frame (main g') 0] st) c.
Proof.
  intros Hg Hfuel. destruct fuel as [|fuel]; [lia|].
  destruct (optimize_rounds fuel order g Hg) as (g' & Ho & Hrounds & Hg' & Hdone & Hle); [lia|].
  exists g'. split_and!; [done|apply optimize_finished; [done|done|lia]|]. intros st c Hc Hsteps.
  clear Ho Hdone Hle Hfuel Hg Hg'. induction Hrounds as [g|g g1 g2 Hround _ IH]; [done|]. apply IH. by eapply improves_preserves.
Qed.

(** A program that calls [f], which computes with constants and calls [g]; [h]
    is not used. *)
Definition push_op (v : Z) : Operation := sample_op OpKind.Push_Int Intrinsic.Add v None Empty_Jump TypeKind.Int.
Definition intrinsic_op (i : Intrinsic_Kind) : Operation := sample_op OpKind.Intrinsic i 0 None Empty_Jump TypeKind.Int.

Definition rounds_f : Word := function 0 [push_op 2; push_op 3; intrinsic_op Intrinsic.Mul; call 1 "g"] "f".
Definition rounds_g : Word := function 1 [push_op 1; intrinsic_op Intrinsic.Add] "g".
Definition rounds_h : Word := function 2 [push_op 1; push_op 1; intrinsic_op Intrinsic.Add] "h".

Definition rounds_words : Words := {["f"%string := rounds_f; "g"%string := rounds_g; "h"%string := rounds_h]}.

Definition rounds_main : list Operation :=
  let jump k j := sample_op k Intrinsic.Add 0 None j TypeKind.Int in
  [call 0 "f"; jump OpKind.If 3; push_seven; jump OpKind.End 4].

Definition rounds_program : Generation_Info := mk_Generation_Info ∅ rounds_words rounds_main ∅ ∅.

Lemma rounds_words_Forall (P : string → Word → Prop) :
  P "f"%string rounds_f → P "g"%string rounds_g → P "h"%string rounds_h → map_Forall P rounds_words.
Proof.
  intros Hf Hg Hh. apply map_Forall_insert_2; [done|]. apply map_Forall_insert_2; [done|]. by apply map_Forall_singleton.
Qed.

(** Decides what the optimizer needs of a concrete body. *)
Ltac solve_body_optimizable :=
  split; [solve_foldable_body|vm_compute; reflexivity|solve_calls_linked|
    repeat (apply Forall_cons; split); try (by intros []); try (by intros _ _); constructor].

Lemma rounds_optimizable order :
  NoDup order → (∀ name, is_Some (rounds_words !! name) → name ∈ order) →
  (head (filter (λ e, w_id e.2 = 0) (entries rounds_words order)) = Some ("f"%string, rounds_f) ∧
   head (filter (λ e, w_id e.2 = 1) (entries rounds_words order)) = Some ("g"%string, rounds_g) ∧
   head (filter (λ e, w_id e.2 = 2) (entries rounds_words order)) = Some ("h"%string, rounds_h)) →
  optimizable order rounds_program.
Proof.
  intros Hnd Hin (Hf & Hg & Hh).
  assert (is_Some (find_word rounds_words order 0)) as Hf' by (unfold find_word; by rewrite Hf).
  assert (is_Some (find_word rounds_words order 1)) as Hg' by (unfold find_word; by rewrite Hg).
  split; [done|done| | |]; [|solve_body_optimizable|]; apply rounds_words_Forall; intros _; try done; solve_body_optimizable.
Qed.

Lemma rounds_program_optimizable : optimizable three_names rounds_program.
Proof.
  apply rounds_optimizable.
  - apply (bool_decide_unpack _). vm_compute. reflexivity.
  - intros name [w Hw]. revert name w Hw. apply (rounds_words_Forall (λ name _, name ∈ three_names)).
    all: unfold three_names; set_solver.
  - vm_compute. by repeat split.
Qed.

Lemma optimize_preserves_witness :
  ∃ g', optimize 40 three_names rounds_program = ([], Done g') ∧
    steps (words g') syscall_arguments (Running [mk_frame (main g') 0] []) (Halted [7]).
Proof.
  destruct (optimize_preserves 40 three_names rounds_program) as (g' & Hg' & _ & Hsteps).
  - apply rounds_program_optimizable.
  - vm_compute. lia.
  - exists g'. split; [done|]. apply Hsteps; [left; by eexists|].
    eapply rtc_l; [by eapply S_call|]. do 2 (eapply rtc_l; [by eapply S_push_int|]).
    eapply rtc_l; [by eapply S_intrinsic|]. eapply rtc_l; [by eapply S_call|].
    eapply rtc_l; [by eapply S_push_int|]. eapply rtc_l; [by eapply S_intrinsic|].
    do 2 (eapply rtc_l; [by eapply S_end|]). eapply rtc_l; [eapply S_branch; [done|by left]|]. cbn [Z.eqb].
    eapply rtc_l; [by eapply S_push_int|]. eapply rtc_l; [eapply S_jump; [done|by right]|].
    eapply rtc_l; [by eapply S_end|]. apply rtc_refl.
Defined.
