(* ===== verification/Labels.v ===== *)
(** * The labels of an assembly file

    No label is written twice: the labels of a body differ by the index of the
    operation, those of functions by the identifier of the word, and the
    prefixes keep the three kinds of labels apart. *)

From S2P Require Import Prelude Syntax Errors Crossref Semantics Machine Codegen BodyCode.

Open Scope Z_scope.

(** ** Numbers as text *)

(** A text without underscores. *)
Definition plain_text (s : string) : Prop := "_"%char ∉ chars s.

Lemma pretty_N_go_plain x s : plain_text s → plain_text (pretty_N_go x s).
Proof.
  unfold plain_text. revert s. induction (N.lt_wf_0 x) as [x _ IH]; intros s Hs.
  assert (x = 0 ∨ 0 < x)%N as [->|Hx] by lia; [by rewrite pretty_N_go_0|].
  rewrite pretty_N_go_step by done. apply IH; [by apply N.div_lt|]. simpl. rewrite not_elem_of_cons.
  split; [|done]. unfold pretty_N_char. by repeat case_match.
Qed.

Lemma pretty_N_plain (x : N) : plain_text (pretty x).
Proof.
  unfold pretty, pretty_N. case_decide; [by apply (bool_decide_unpack _)|].
  apply pretty_N_go_plain. apply not_elem_of_nil.
Qed.

Lemma to_string_plain z : plain_text (to_string z).
Proof.
  unfold to_string, pretty, pretty_Z. destruct z as [|p|p].
  - by apply (bool_decide_unpack _).
  - apply pretty_N_plain.
  - unfold plain_text. simpl. rewrite not_elem_of_cons. split; [done|apply pretty_N_plain].
Qed.

(** A text without underscores in front of one can be read back. *)
Lemma cut_at_first {A} (x : A) l1 l2 r1 r2 :
  x ∉ l1 → x ∉ l2 → l1 ++ x :: r1 = l2 ++ x :: r2 → l1 = l2.
Proof.
  revert l2. induction l1 as [|a l1 IH]; intros [|b l2] H1 H2 Heq; simpl in Heq; [done|..].
  - injection Heq as <- _. by destruct H2; left.
  - injection Heq as -> _. by destruct H1; left.
  - injection Heq as -> Heq. apply not_elem_of_cons in H1 as [_ H1], H2 as [_ H2]. f_equal. by eapply IH.
Qed.

(** ** Labels *)

Definition label_names (ls : list line) : list string :=
  omap (λ l, match l with Label t => Some t | _ => None end) ls.

Lemma label_names_app l1 l2 : label_names (l1 ++ l2) = label_names l1 ++ label_names l2.
Proof. apply omap_app. Qed.

Lemma label_names_none ls : Forall no_label ls → label_names ls = [].
Proof. induction 1 as [|l ls Hl Hls IH]; [done|]. destruct l; [done..|]; by simpl. Qed.

Lemma elem_of_label_names s ls : s ∈ label_names ls ↔ Label s ∈ ls.
Proof.
  unfold label_names. rewrite list_elem_of_omap. split.
  - by intros ([|t|t|t] & Hl & [= <-]).
  - intros Hl. by exists (Label s).
Qed.

Lemma label_names_unlabelled s ls : s ∉ label_names ls → unlabelled s ls.
Proof.
  rewrite elem_of_label_names. intros Hs. apply list.Forall_forall. intros [|t|t|t] Hl; try done. simpl.
  apply bool_decide_false. by intros ->.
Qed.

Lemma find_label_elem ls s pc : find_label ls s = Some pc → s ∈ label_names ls.
Proof.
  revert pc. induction ls as [|l ls IH]; intros pc; cbn [find_label]; [done|].
  rewrite elem_of_label_names. destruct l as [|t| |]; cbn [is_label]; try case_bool_decide; simplify_eq; try (by left);
    intros (pc' & Hpc & _)%fmap_Some; right; by eapply elem_of_label_names, IH.
Qed.

Lemma find_label_is_Some ls s : Label s ∈ ls → is_Some (find_label ls s).
Proof.
  induction ls as [|l ls IH]; [by intros ?%elem_of_nil|]. intros [<-|Hl]%elem_of_cons; cbn [find_label is_label].
  - rewrite bool_decide_eq_true_2 by done. by eexists.
  - destruct (is_label s l); [by eexists|]. destruct (IH Hl) as [pc ->]. by eexists.
Qed.

Lemma find_label_lt ls s pc : find_label ls s = Some pc → (pc < length ls)%nat.
Proof.
  revert pc. induction ls as [|l ls IH]; intros pc; cbn [find_label]; [done|].
  destruct (is_label s l); [intros [= <-]; simpl; lia|]. intros (k & Hk & ->)%fmap_Some. apply IH in Hk. simpl. lia.
Qed.

(** A label of a part of a file whose labels are all different is found in
    that part. *)
Lemma find_label_part pre part post s pc :
  NoDup (label_names (pre ++ part ++ post)) → find_label part s = Some pc →
  find_label (pre ++ part ++ post) s = Some (length pre + pc)%nat.
Proof.
  rewrite !label_names_app. intros Hnd Hpc. rewrite find_label_app.
  - assert (find_label (part ++ post) s = Some pc) as ->; [|done].
    clear Hnd. revert pc Hpc. induction part as [|l part IH]; intros pc; simpl app; cbn [find_label]; [done|].
    destruct (is_label s l); [done|]. intros (pc' & Hpc & ->)%fmap_Some. by rewrite (IH _ Hpc).
  - apply label_names_unlabelled. intros Hs. apply NoDup_app in Hnd as (_ & Hd & _). apply (Hd _ Hs).
    apply elem_of_app. left. by eapply find_label_elem.
Qed.

(** *** The labels of a body *)

(** A label of an operation of a body of [n]. *)
Definition body_label (instr_prefix : string) (s : string) : Prop :=
  ∃ j : nat, s = target instr_prefix (Z.of_nat j).

Lemma generate_loop_labels jump_targets prefix name size ops : ∀ k l ls,
  (k + length ops ≤ size)%nat →
  generate_loop jump_targets prefix name size k ops = (l, Done ls) →
  NoDup (label_names ls) ∧
  Forall (λ s, ∃ j : nat, (k ≤ j)%nat ∧ s = target prefix (Z.of_nat j)) (label_names ls).
Proof.
  induction ops as [|op ops IH]; intros k l ls Hsize; cbn [generate_loop].
  { intros [= <- <-]. simpl in *. split; [apply NoDup_singleton|]. constructor; [|done]. exists size. split; [lia|done]. }
  simpl in Hsize. intros H. apply bind_Done in H as (l1 & code & ? & Hcode & H & _).
  apply bind_Done in H as (? & rest & ? & Hrest & [= <- <-] & _).
  destruct (IH (S k) _ _ ltac:(lia) Hrest) as [Hnd Hall].
  rewrite !label_names_app, (label_names_none code) by (by eapply emit_operation_no_label).
  rewrite app_nil_l. case_decide; simpl; [split|split; [done|]].
  - constructor; [|done]. intros Hs. destruct (proj1 (list.Forall_forall _ _) Hall _ Hs) as (j & Hj & Ht).
    apply target_inj in Ht. lia.
  - constructor; [by exists k|]. eapply list.Forall_impl; [exact Hall|]. intros s (j & Hj & ->). exists j. split; [lia|done].
  - eapply list.Forall_impl; [exact Hall|]. intros s (j & Hj & ->). exists j. split; [lia|done].
Qed.

Lemma generate_instructions_labels jump_targets ops prefix name l ls :
  generate_instructions jump_targets ops prefix name = (l, Done ls) →
  NoDup (label_names ls) ∧ Forall (body_label prefix) (label_names ls).
Proof.
  intros H. destruct (generate_loop_labels _ _ _ _ _ _ _ _ (reflexivity _) H) as [Hnd Hall]. split; [done|].
  eapply list.Forall_impl; [exact Hall|]. intros s (j & _ & ->). by exists j.
Qed.

(** *** The labels of functions *)

Definition function_label (id : Z) : string := Function_Prefix +:+ to_string id.
Definition function_prefix (id : Z) : string := Function_Body_Prefix +:+ to_string id +:+ "_".

(** A label of the function with identifier [id]. *)
Definition label_of (id : Z) (s : string) : Prop := s = function_label id ∨ body_label (function_prefix id) s.

Lemma function_prefix_inj id id' i j :
  target (function_prefix id) i = target (function_prefix id') j → id = id'.
Proof.
  unfold target, function_prefix. intros H%(f_equal chars). rewrite !chars_app, <-!app_assoc in H. apply app_inv_head in H.
  simpl in H. apply cut_at_first in H; [|apply to_string_plain..].
  apply (f_equal str_of) in H. rewrite !str_of_chars in H. unfold to_string in H. by apply (inj _) in H.
Qed.

Lemma label_of_inj id id' s : label_of id s → label_of id' s → id = id'.
Proof.
  intros [->|[i ->]] [H|[j H]].
  - unfold function_label, to_string in H. apply (inj _), (inj _) in H. done.
  - discriminate.
  - discriminate.
  - by eapply function_prefix_inj.
Qed.

Lemma generate_function_labels jump_targets name def l ls :
  generate_function jump_targets name def = (l, Done ls) →
  NoDup (label_names ls) ∧ Forall (label_of (w_id def)) (label_names ls).
Proof.
  unfold generate_function. intros H. apply bind_Done in H as (? & code & ? & Hcode & Heq & _).
  assert (ls = function_prologue name def ++ code ++ emit_return) as -> by (by injection Heq).
  apply generate_instructions_labels in Hcode as [Hnd Hall].
  rewrite !label_names_app. simpl. rewrite app_nil_r. split.
  - constructor; [|done]. intros Hs. destruct (proj1 (list.Forall_forall _ _) Hall _ Hs) as [j Hj]. discriminate.
  - constructor; [by left|]. eapply list.Forall_impl; [exact Hall|]. by right.
Qed.

(** The functions among the words, in the order of iteration. *)
Definition function_ids (words : list (string * Word)) : list Z :=
  omap (λ '(_, w), if decide (w_kind w = WordKind.Function) then Some (w_id w) else None) words.

Lemma generate_functions_labels jump_targets words : ∀ l ls,
  NoDup (function_ids words) → generate_functions jump_targets words = (l, Done ls) →
  NoDup (label_names ls) ∧ Forall (λ s, ∃ id, id ∈ function_ids words ∧ label_of id s) (label_names ls).
Proof.
  induction words as [|[name def] words IH]; intros l ls; cbn [generate_functions function_ids omap list_omap].
  { intros _ [= <- <-]. by split; constructor. }
  change (omap _ words) with (function_ids words).
  destruct (decide (w_kind def = WordKind.Function)) as [Hk|Hk]; [rewrite decide_False by tauto|rewrite decide_True by done; apply IH].
  intros Hids H. apply NoDup_cons in Hids as [Hid Hids].
  apply bind_Done in H as (? & code & ? & Hcode & H & _). apply bind_Done in H as (? & rest & ? & Hrest & [= <- <-] & _).
  apply generate_function_labels in Hcode as [Hnd Hall]. destruct (IH _ _ Hids Hrest) as [Hnd' Hall'].
  rewrite label_names_app. split.
  - apply NoDup_app. split_and!; [done| |done]. intros s Hs Hs'.
    apply (proj1 (list.Forall_forall _ _) Hall) in Hs.
    destruct (proj1 (list.Forall_forall _ _) Hall' _ Hs') as (id & Hin & Hl).
    by rewrite (label_of_inj _ _ _ Hs Hl) in Hid.
  - apply Forall_app. split.
    + eapply list.Forall_impl; [exact Hall|]. intros s Hs. exists (w_id def). split; [by left|done].
    + eapply list.Forall_impl; [exact Hall'|]. intros s (id & Hin & Hl). exists id. split; [by right|done].
Qed.

Lemma array_lines_no_label words : Forall no_label (array_lines words).
Proof. apply list.Forall_forall. intros l ([? w] & _ & Hl)%list_elem_of_omap. case_decide; by simplify_eq. Qed.

Lemma string_lines_no_label strings : Forall no_label (string_lines strings).
Proof. apply Forall_fmap, list.Forall_forall. by intros [? ?] _. Qed.

Lemma asm_header_no_label words strings : Forall no_label (asm_header words strings).
Proof.
  unfold asm_header. repeat (apply Forall_app; split);
    [by repeat constructor|apply array_lines_no_label|by repeat constructor|apply string_lines_no_label|by repeat constructor].
Qed.

Lemma generate_assembly_Done g words strings path l ls :
  generate_assembly g words strings path true = (l, Done ls) →
  ∃ l1 l2 functions code, generate_functions (jump_targets_lookup g) words = (l1, Done functions) ∧
    generate_instructions (jump_targets_lookup g) (main g) Label_Prefix "" = (l2, Done code) ∧
    ls = asm_header words strings ++ functions ++ start_code ++ code ++ exit_code.
Proof.
  unfold generate_assembly. simpl negb. cbv iota. intros H.
  apply bind_Done in H as (l1 & functions & ? & Hf & H & _). apply bind_Done in H as (l2 & code & ? & Hc & Heq & _).
  exists l1, l2, functions, code. split_and!; [done|done|by injection Heq].
Qed.

(** Every label of a file is the start of the program, a label of its operations
    or one of a function. *)
Definition code_label (s : string) : Prop :=
  s = "_start"%string ∨ body_label Label_Prefix s ∨ ∃ id, label_of id s.

Lemma generate_assembly_code_labels g words strings path l ls :
  NoDup (function_ids words) → generate_assembly g words strings path true = (l, Done ls) →
  Forall code_label (label_names ls).
Proof.
  intros Hids (l1 & l2 & functions & code & Hf & Hc & ->)%generate_assembly_Done.
  apply generate_functions_labels in Hf as [_ Hall]; [|done].
  apply generate_instructions_labels in Hc as [_ Hall'].
  rewrite !label_names_app, (label_names_none (asm_header _ _)) by apply asm_header_no_label. simpl.
  rewrite app_nil_r. apply Forall_app. split; [|constructor; [by left|]].
  - eapply list.Forall_impl; [exact Hall|]. intros s (id & _ & Hs). right. right. by exists id.
  - eapply list.Forall_impl; [exact Hall'|]. intros s Hs. by right; left.
Qed.

(** ** Properties *)

(** The labels of an assembly file are pairwise different, as the assembler
    demands, where the identifiers of its functions are. *)
Lemma generate_assembly_labels g words strings path l ls :
  NoDup (function_ids words) → generate_assembly g words strings path true = (l, Done ls) →
  NoDup (label_names ls).
Proof.
  intros Hids (l1 & l2 & functions & code & Hf & Hc & ->)%generate_assembly_Done.
  apply generate_functions_labels in Hf as [Hnd Hall]; [|done].
  apply generate_instructions_labels in Hc as [Hnd' Hall'].
  rewrite !label_names_app, (label_names_none (asm_header _ _)) by apply asm_header_no_label. simpl.
  rewrite app_nil_r. apply NoDup_app. split_and!; [done| |].
  - intros s Hs. destruct (proj1 (list.Forall_forall _ _) Hall _ Hs) as (id & _ & Hl).
    apply not_elem_of_cons. split.
    + intros ->. by destruct Hl as [|[j ?]].
    + intros Hs'. destruct (proj1 (list.Forall_forall _ _) Hall' _ Hs') as [j ->]. by destruct Hl as [|[j' ?]].
  - constructor; [|done]. intros Hs. destruct (proj1 (list.Forall_forall _ _) Hall' _ Hs) as [j ?]. discriminate.
Qed.
