(* ===== verification/Linking.v ===== *)
(** * Running a linked program

    The lines of a whole assembly file as a machine with calls and returns.
    Where the assembler and the linker put the lines and the segments of data is
    the interface [Linker]: these addresses are parameters, with the few laws
    the emitted code relies on; the addresses of symbols follow from them and
    the lines of the file.  The code of a single body runs in the file as it runs
    alone. *)

From S2P Require Import Prelude Syntax Errors Crossref Semantics Machine Codegen BodyCode Labels.

Open Scope Z_scope.

(** ** The data of a file *)

Definition is_code (l : line) : bool := match l with Code _ _ => true | _ => false end.

(** The memory a line reserves, and the bytes it defines. *)
Definition reserved_bytes (l : line) : Z :=
  match l with Data (Reserve _ _ _ unit count) => Z.of_nat (bytes unit) * Z.max 0 count | _ => 0 end.

Definition data_bytes (l : line) : list Z :=
  match l with Data (Bytes _ values) => (λ v, v mod 2 ^ 8) <$> values | _ => [] end.

Definition reserves (s : string) (l : line) : bool :=
  match l with Data (Reserve _ name _ _ _) => bool_decide (name = s) | _ => false end.

Definition stores (s : string) (l : line) : bool :=
  match l with Data (Bytes name _) => bool_decide (name = s) | _ => false end.

(** The size of a segment, and the offset in it of the first line of a kind. *)
Definition total_size (size : line → Z) (ls : list line) : Z := foldr (λ l n, size l + n) 0 ls.

Fixpoint offset_of (named : line → bool) (size : line → Z) (ls : list line) : option Z :=
  match ls with
  | [] => None
  | l :: ls => if named l then Some 0 else Z.add (size l) <$> offset_of named size ls
  end.

Definition data_size (l : line) : Z := Z.of_nat (length (data_bytes l)).

Lemma total_size_app size l1 l2 : total_size size (l1 ++ l2) = total_size size l1 + total_size size l2.
Proof. induction l1 as [|l l1 IH]; simpl; [done|]. unfold total_size in *. simpl. rewrite IH. lia. Qed.

Lemma offset_of_app named size l1 l2 :
  Forall (λ l, named l = false) l1 →
  offset_of named size (l1 ++ l2) = Z.add (total_size size l1) <$> offset_of named size l2.
Proof.
  induction 1 as [|l l1 Hl _ IH]; simpl.
  - by destruct (offset_of named size l2).
  - rewrite Hl, IH. destruct (offset_of named size l2); simpl; [|done]. f_equal. unfold total_size. simpl. lia.
Qed.

Lemma offset_of_app_Some named size l1 l2 o :
  offset_of named size l1 = Some o → offset_of named size (l1 ++ l2) = Some o.
Proof.
  revert o. induction l1 as [|l l1 IH]; intros o; simpl; [done|]. destruct (named l); [done|].
  intros (o' & Ho & ->)%fmap_Some. by rewrite (IH _ Ho).
Qed.

Lemma offset_of_elem named size ls l : l ∈ ls → named l = true → is_Some (offset_of named size ls).
Proof.
  induction ls as [|l' ls IH]; [by intros ?%elem_of_nil|]. intros [<-|Hl]%elem_of_cons Hn; simpl.
  - rewrite Hn. by eexists.
  - destruct (named l'); [by eexists|]. destruct (IH Hl Hn) as [o ->]. by eexists.
Qed.

(** The line an offset is of. *)
Lemma offset_of_split named size ls o :
  offset_of named size ls = Some o →
  ∃ l1 l l2, ls = l1 ++ l :: l2 ∧ named l = true ∧ o = total_size size l1 ∧ Forall (λ l, named l = false) l1.
Proof.
  revert o. induction ls as [|l ls IH]; intros o; simpl; [done|]. destruct (named l) eqn:Hl.
  - intros [= <-]. by exists [], l, ls.
  - intros (o' & Ho & ->)%fmap_Some. destruct (IH _ Ho) as (l1 & x & l2 & -> & Hx & -> & Hall).
    exists (l :: l1), x, l2. split_and!; [done|done|done|by constructor].
Qed.

Lemma total_size_nonneg size ls : (∀ l, 0 <= size l) → 0 <= total_size size ls.
Proof. intros Hs. induction ls as [|l ls IH]; [done|]. unfold total_size in *. simpl. specialize (Hs l). lia. Qed.

Lemma reserved_bytes_nonneg l : 0 <= reserved_bytes l.
Proof. destruct l as [| | |[]]; simpl; lia. Qed.

Lemma data_size_nonneg l : 0 <= data_size l.
Proof. unfold data_size. lia. Qed.

Lemma length_data ls : Z.of_nat (length (ls ≫= data_bytes)) = total_size data_size ls.
Proof.
  induction ls as [|l ls IH]; [done|]. rewrite bind_cons, length_app. unfold total_size in *. simpl.
  unfold data_size at 1. lia.
Qed.

(** ** What the assembler and the linker promise *)

(** [address] is the address of the first byte of a line.  Instructions follow
    one another and take at least one byte, the other lines of their segment
    none.  The memory that is reserved and the data that is defined are laid
    out in the order of the file, from [bss] and from [rodata] on, in segments
    that do not overlap; and all addresses fit the 32-bit signed operands of
    the instructions that push them. *)
Class Linker (ls : list line) := {
  address : nat → Z;
  bss : Z;
  rodata : Z;
  address_next pc l : ls !! pc = Some l →
    if is_code l then address pc < address (S pc) else address (S pc) = address pc;
  address_low pc : 0 <= address pc < 2 ^ 31;
  bss_low : 0 <= bss ∧ bss + total_size reserved_bytes ls < 2 ^ 31;
  rodata_low : 0 <= rodata ∧ rodata + total_size data_size ls < 2 ^ 31;
  segments_apart :
    bss + total_size reserved_bytes ls <= rodata ∨ rodata + total_size data_size ls <= bss;
}.

(** The address of a symbol: of the line of a label, or of the memory reserved
    or defined under its name.  A name the file does not define has none. *)
Definition symbol_value {ls} `{!Linker ls} (s : string) : option Z :=
  match find_label ls s with
  | Some pc => Some (address pc)
  | None =>
    match offset_of (reserves s) reserved_bytes ls with
    | Some o => Some (bss (ls := ls) + o)
    | None => Z.add (rodata (ls := ls)) <$> offset_of (stores s) data_size ls
    end
  end.

(** The address of a symbol that is defined. *)
Definition symbol {ls} `{!Linker ls} (s : string) : Z := default 0 (symbol_value s).

Lemma symbol_label {ls} `{!Linker ls} s pc : find_label ls s = Some pc → symbol s = address pc.
Proof. intros H. unfold symbol, symbol_value. by rewrite H. Qed.

(** The names a file defines. *)
Definition symbol_defined (ls : list line) (s : string) : Prop :=
  is_Some (find_label ls s) ∨ is_Some (offset_of (reserves s) reserved_bytes ls) ∨
  is_Some (offset_of (stores s) data_size ls).

Lemma symbol_defined_value {ls} `{!Linker ls} s : symbol_defined ls s → symbol_value s = Some (symbol s).
Proof.
  unfold symbol_defined, symbol, symbol_value. intros H. destruct (find_label ls s); [done|].
  destruct (offset_of (reserves s) _ ls); [done|]. destruct (offset_of (stores s) _ ls); [done|].
  by destruct H as [[? ?]|[[? ?]|[? ?]]].
Qed.

Lemma offset_of_range named size ls o :
  (∀ l, 0 <= size l) → offset_of named size ls = Some o → 0 <= o <= total_size size ls.
Proof.
  intros Hs (l1 & l & l2 & -> & _ & -> & _)%offset_of_split. rewrite total_size_app.
  pose proof (total_size_nonneg size l1 Hs). pose proof (total_size_nonneg size (l :: l2) Hs). lia.
Qed.

Lemma symbol_low {ls} `{!Linker ls} s : 0 <= symbol s < 2 ^ 31.
Proof.
  unfold symbol, symbol_value. destruct (find_label ls s) as [pc|]; [apply address_low|].
  destruct (offset_of (reserves s) _ ls) as [o|] eqn:Ho; simpl.
  { apply offset_of_range in Ho; [|apply reserved_bytes_nonneg]. pose proof bss_low. lia. }
  destruct (offset_of (stores s) _ ls) as [o|] eqn:Ho'; simpl; [|lia].
  apply offset_of_range in Ho'; [|apply data_size_nonneg]. pose proof rodata_low. lia.
Qed.

(** ** The machine *)

Section Linked.
  Context (limit base : Z) (ls : list line) `{Linker ls}.

(** The first line with an address. *)
Definition line_at (v : Z) : option nat := fst <$> list_find (λ pc, address pc = v) (seq 0 (length ls)).

(** The value of [rsp]. *)
Definition stack_pointer (st : list Z) : Z := base - 8 * Z.of_nat (length st).

Definition read_word (a : amachine) (p : Z) : option Z :=
  if heap_access limit base p 8 then Some (load 8 (a_mem a) p) else None.

Definition write_word (c : cpu) (a : amachine) (p v : Z) : option (effect amachine) :=
  if heap_access limit base p 8 then Some (Ok (mk_amachine c (a_stack a) (store 8 (a_mem a) p v))) else None.

(** [add] or [sub] on a variable. *)
Definition update_word (o : alu) (a : amachine) (p v : Z) : option (effect amachine) :=
  old ← read_word a p;
  let '(z, carry) := alu_flags o old (u64 v) in
  write_word (set_flags z carry (a_cpu a)) a p (alu_result o old (u64 v)).

(** The instructions that do not jump; none where a symbol is not defined. *)
Definition exec_linked (i : instr) (a : amachine) : option (effect amachine) :=
  let c := a_cpu a in
  let st := a_stack a in
  let push v := Some (Ok (mk_amachine c (v :: st) (a_mem a))) in
  let set r v := Some (Ok (mk_amachine (set_reg r v c) st (a_mem a))) in
  match i with
  | Push_rsp => push (stack_pointer st)
  | Push_symbol s => p ← symbol_value s; push p
  | Mov_from_symbol r s => p ← symbol_value s; v ← read_word a p; set r v
  | Mov_to_symbol s r => p ← symbol_value s; write_word c a p (regs c r)
  | Mov_rsp_to_symbol s => p ← symbol_value s; write_word c a p (stack_pointer st)
  | Mov_from_indexed r s j => p ← symbol_value s; v ← read_word a (u64 (p + 8 * regs c j)); set r v
  | Mov_to_indexed s j r => p ← symbol_value s; write_word c a (u64 (p + 8 * regs c j)) (regs c r)
  | Add_symbol s v => p ← symbol_value s; update_word Add a p v
  | Sub_symbol s v => p ← symbol_value s; update_word Sub a p v
  | _ => exec_abstract limit base i a
  end.

Definition with_stack (a : amachine) (st : list Z) : amachine := mk_amachine (a_cpu a) st (a_mem a).

(** The next line and machine. *)
Definition next_linked (pc : nat) (a : amachine) : option (effect (nat * amachine)) :=
  let jump s := pc ← find_label ls s; Some (Ok (pc, a)) in
  match ls !! pc with
  | Some (Text _) | Some (Label _) | Some (Data _) => Some (Ok (S pc, a))
  | Some (Code _ (Jmp s)) => jump s
  | Some (Code _ (Jz s)) =>
    z ← zf (a_cpu a);
    if z : bool then jump s else Some (Ok (S pc, a))
  | Some (Code _ (Call s)) =>
    pc' ← find_label ls s; Some (Ok (pc', with_stack a (address (S pc) :: a_stack a)))
  | Some (Code _ (Call_reg r)) =>
    pc' ← line_at (regs (a_cpu a) r); Some (Ok (pc', with_stack a (address (S pc) :: a_stack a)))
  | Some (Code _ Ret) =>
    match a_stack a with v :: st => pc' ← line_at v; Some (Ok (pc', with_stack a st)) | [] => None end
  | Some (Code _ i) =>
    e ← exec_linked i a;
    Some match e with Ok a => Ok (S pc, a) | Fault => Fault end
  | None => None
  end.

Definition moves_linked (s s' : nat * amachine) : Prop := next_linked s.1 s.2 = Some (Ok s').
Definition runs_linked : nat * amachine → nat * amachine → Prop := rtc moves_linked.
Definition faults_linked (s : nat * amachine) : Prop :=
  ∃ s', runs_linked s s' ∧ next_linked s'.1 s'.2 = Some Fault.

(** ** Values stay 64 bits wide *)

Lemma symbol_u64 s : is_u64 (symbol s).
Proof. pose proof (symbol_low s). unfold is_u64. lia. Qed.

Lemma address_u64 pc : is_u64 (address pc).
Proof. pose proof (address_low pc). unfold is_u64. lia. Qed.

Lemma load_u64 m p : bytes_ok m → is_u64 (load 8 m p).
Proof. apply (load_range 8). Qed.

Lemma write_word_ok c a p v a' :
  amachine_ok a → cpu_ok c → write_word c a p v = Some (Ok a') → amachine_ok a'.
Proof.
  unfold write_word. intros (_ & Hst & Hm) Hc. case_match; [|done]. intros [= <-].
  apply amachine_ok_intro; [done|done|by apply store_bytes_ok].
Qed.

(** ** Returning to a line *)

(** Lines that are no instructions do nothing. *)
Lemma address_le pc pc' : (pc ≤ pc' ≤ length ls)%nat → address pc <= address pc'.
Proof.
  intros [Hle Hlen]. induction Hle as [|pc' Hle IH]; [lia|].
  destruct (lookup_lt_is_Some_2 ls pc') as [l Hl]; [lia|]. apply address_next in Hl.
  specialize (IH ltac:(lia)). destruct (is_code l); lia.
Qed.

Lemma same_address_no_code pc pc' k l :
  (pc' ≤ length ls)%nat → address pc = address pc' → (pc ≤ k < pc')%nat → ls !! k = Some l → is_code l = false.
Proof.
  intros Hlen Haddr Hk Hl. pose proof (address_next _ _ Hl) as Hn.
  pose proof (address_le pc k ltac:(lia)). pose proof (address_le (S k) pc' ltac:(lia)).
  destruct (is_code l); [lia|done].
Qed.

Lemma runs_over n : ∀ pc a,
  (∀ k l, (pc ≤ k < pc + n)%nat → ls !! k = Some l → is_code l = false) → (pc + n ≤ length ls)%nat →
  runs_linked (pc, a) ((pc + n)%nat, a).
Proof.
  induction n as [|n IH]; intros pc a Hk Hlen.
  { rewrite Nat.add_0_r. apply rtc_refl. }
  destruct (lookup_lt_is_Some_2 ls pc) as [l Hl]; [lia|].
  pose proof (Hk pc l ltac:(lia) Hl) as Hl'. eapply (rtc_l _ _ (S pc, a)).
  - unfold moves_linked, next_linked. cbn [fst snd]. rewrite Hl. by destruct l.
  - replace (pc + S n)%nat with (S pc + n)%nat by lia. apply IH; [|lia]. intros k l'. intros. apply (Hk k); [lia|done].
Qed.

(** A jump to the address of a line gets to that line. *)
Lemma line_at_runs pc a :
  (pc < length ls)%nat → ∃ pc', line_at (address pc) = Some pc' ∧ runs_linked (pc', a) (pc, a).
Proof.
  intros Hpc. unfold line_at.
  destruct (list_find_elem_of (λ pc', address pc' = address pc) (seq 0 (length ls)) pc) as [[k pc'] Hfind];
    [apply elem_of_seq; lia|done|].
  rewrite Hfind. exists k. split; [done|]. apply list_find_Some in Hfind as (Hk & Haddr & Hfirst).
  apply lookup_seq in Hk as [-> Hk]. simpl in Haddr.
  assert (k ≤ pc)%nat as Hle.
  { destruct (decide (k ≤ pc)%nat); [done|]. exfalso.
    by apply (Hfirst pc pc (proj2 (lookup_seq _ _ _ _) (conj eq_refl Hpc))); [lia|]. }
  replace pc with (k + (pc - k))%nat by lia. apply runs_over; [|lia].
  intros j l Hj Hl. eapply (same_address_no_code k pc j); [lia|done|lia|done].
Qed.

(** ** Parts of the file *)

Definition shifted (n : nat) (e : effect (nat * amachine)) : effect (nat * amachine) :=
  match e with Ok (pc, a) => Ok ((n + pc)%nat, a) | Fault => Fault end.

Section Part.
  Context (pre part post : list line) (Hls : ls = pre ++ part ++ post) (Hlabels : NoDup (label_names ls)).

Lemma lookup_part pc l : part !! pc = Some l → ls !! (length pre + pc)%nat = Some l.
Proof. intros Hl. rewrite Hls, lookup_app_r by lia. replace (_ + _ - _)%nat with pc by lia. by apply lookup_app_l_Some. Qed.

Lemma find_label_in s pc : find_label part s = Some pc → find_label ls s = Some (length pre + pc)%nat.
Proof. rewrite Hls. apply find_label_part. by rewrite <-Hls. Qed.

(** A part whose jumps stay in it runs in the file as it does alone. *)
Lemma next_part pc a e :
  next limit base part pc a = Some e → next_linked (length pre + pc) a = Some (shifted (length pre) e).
Proof.
  unfold next, next_linked. destruct (part !! pc) as [l|] eqn:Hl; [|done]. rewrite (lookup_part _ _ Hl).
  destruct l as [indent i|s|s|d]; [|intros [= <-]; simpl; by rewrite Nat.add_succ_r..].
  destruct i; cbn [exec_linked]; try done;
    try (intros (e' & -> & [= <-])%bind_Some; simpl; destruct e'; simpl; by rewrite ?Nat.add_succ_r).
  - intros (pc' & Hpc & [= <-])%bind_Some. by rewrite (find_label_in _ _ Hpc).
  - intros (z & -> & Hz)%bind_Some. simpl. destruct z; [|injection Hz as <-; simpl; by rewrite Nat.add_succ_r].
    apply bind_Some in Hz as (pc' & Hpc & [= <-]). by rewrite (find_label_in _ _ Hpc).
Qed.

Lemma runs_part s s' :
  runs_to limit base part s s' → runs_linked ((length pre + s.1)%nat, s.2) ((length pre + s'.1)%nat, s'.2).
Proof.
  induction 1 as [s|s s1 s' Hstep _ IH]; [apply rtc_refl|]. eapply rtc_l; [|exact IH].
  apply next_part in Hstep. unfold moves_linked. cbn [fst snd]. rewrite Hstep. by destruct s1.
Qed.

Lemma faults_part s : faults limit base part s → faults_linked ((length pre + s.1)%nat, s.2).
Proof.
  intros (s' & Hrun & Hf). exists ((length pre + s'.1)%nat, s'.2). split; [by apply runs_part|].
  by apply next_part in Hf.
Qed.

End Part.

(** *** Straight-line code *)

Definition straight_linked (i : instr) : bool :=
  match i with Jmp _ | Jz _ | Call _ | Call_reg _ | Ret => false | _ => true end.

Fixpoint exec_linked_all (is_ : list instr) (a : amachine) : option (effect amachine) :=
  match is_ with
  | [] => Some (Ok a)
  | i :: is_ =>
    match exec_linked i a with
    | Some (Ok a) => exec_linked_all is_ a
    | r => r
    end
  end.

Lemma runs_linked_straight code : ∀ pre post a a',
  ls = pre ++ code ++ post → forallb straight_linked (instrs code) = true →
  exec_linked_all (instrs code) a = Some (Ok a') →
  runs_linked (length pre, a) ((length pre + length code)%nat, a').
Proof.
  induction code as [|l code IH]; intros pre post a a' Hls Hs Hexec.
  { injection Hexec as <-. rewrite Nat.add_0_r. apply rtc_refl. }
  assert (ls !! length pre = Some l) as Hl by (rewrite Hls; by apply list_lookup_middle).
  assert (∀ a1, forallb straight_linked (instrs code) = true → exec_linked_all (instrs code) a1 = Some (Ok a') →
    runs_linked (S (length pre), a1) ((length pre + length (l :: code))%nat, a')) as Hrest.
  { intros a1 H1 H2. specialize (IH (pre ++ [l]) post a1 a'). rewrite length_app in IH. simpl in IH.
    rewrite Nat.add_1_r in IH. simpl. rewrite Nat.add_succ_r. apply IH; [by rewrite Hls, <-app_assoc|done|done]. }
  destruct l as [indent i|s|s|d].
  - simpl in Hs, Hexec. apply andb_true_iff in Hs as [Hi Hs].
    destruct (exec_linked i a) as [[a1|]|] eqn:He; [|done..].
    eapply rtc_l; [|by apply Hrest]. unfold moves_linked, next_linked. cbn [fst snd]. rewrite Hl.
    destruct i; try done; by rewrite He.
  - eapply rtc_l; [|by apply Hrest]. unfold moves_linked, next_linked. cbn [fst snd]. by rewrite Hl.
  - eapply rtc_l; [|by apply Hrest]. unfold moves_linked, next_linked. cbn [fst snd]. by rewrite Hl.
  - eapply rtc_l; [|by apply Hrest]. unfold moves_linked, next_linked. cbn [fst snd]. by rewrite Hl.
Qed.

End Linked.

(** ** A linker *)

(** Instructions of one byte each from address 4096 on, the data at 2^21 and the
    reserved memory at 2^22. *)
Section Flat.
  Context (ls : list line).

Definition flat_address (pc : nat) : Z := 4096 + Z.of_nat (length (instrs (take pc ls))).

Lemma flat_address_next pc l : ls !! pc = Some l →
  if is_code l then flat_address pc < flat_address (S pc) else flat_address (S pc) = flat_address pc.
Proof.
  intros Hl. unfold flat_address. rewrite (take_S_r _ _ _ Hl). unfold instrs. rewrite omap_app, length_app.
  destruct l; simpl; lia.
Qed.

Lemma flat_address_low pc : Z.of_nat (length ls) < 2 ^ 20 → 4096 <= flat_address pc < 2 ^ 21.
Proof.
  intros Hlen. assert (∀ l, length (instrs l) ≤ length l)%nat as Hi.
  { intros l. induction l as [|[] l IH]; simpl; lia. }
  unfold flat_address. specialize (Hi (take pc ls)). rewrite length_take in Hi. lia.
Qed.

(** Files it can be used for. *)
Definition flat_sizes : bool :=
  (Z.of_nat (length ls) <? 2 ^ 20) && (total_size data_size ls <? 2 ^ 21) && (total_size reserved_bytes ls <? 2 ^ 30).

Definition flat_linker (Hsizes : flat_sizes = true) : Linker ls.
Proof.
  unfold flat_sizes in Hsizes. rewrite !andb_true_iff, !Z.ltb_lt in Hsizes.
  refine {| address := flat_address; bss := 2 ^ 22; rodata := 2 ^ 21 |}.
  - apply flat_address_next.
  - intros pc. destruct Hsizes as [[Hlen _] _]. pose proof (flat_address_low pc Hlen). lia.
  - lia.
  - lia.
  - right. lia.
Defined.

End Flat.
