(* ===== verification/ProgramCode.v ===== *)
(** * Correctness of the code of a whole program

    The assembly file of a program, linked and run from [_start]: calls go
    through the call stack of return addresses the prologue and the epilogue of
    every function keep, symbols have the addresses of the linker, and memory
    is read and written.  The program semantics is that of [Semantics] with a
    memory beside it, and the file follows it to the system call that exits. *)

From S2P Require Import Prelude Syntax Errors Crossref Semantics Machine Codegen BodyCode Labels Linking Unused.

Open Scope Z_scope.

(** ** Programs with a memory *)

(** The size in the name of a [load] or a [store]. *)
Definition named_size (k : nat) (op : Operation) : option size :=
  c ← chars (tok_sval (op_token op)) !! k; access_size c.

Section Memory.
  Context (limit base : Z) (ls : list line) `{Linker ls}.

Definition callstack : Z := symbol "_stacky_callstack".

(** The variables the emitted code keeps for itself: the call stack, its
    pointer, [argv] and [argc]. *)
Definition control_size : Z := 8 * 1024 + 24.

Definition allowed (p : Z) (n : nat) : bool :=
  heap_access limit base p n &&
  ((p + Z.of_nat n <=? callstack) || (callstack + control_size <=? p)).

(** What the operations that look at the machine make of a stack and a memory:
    symbols and the variables [argc] and [argv] have values, [top] is the
    address of the top of the stack, and loads and stores stay away from the
    stack and the variables of the emitted code. *)
Definition observe (argc argv : Z) (op : Operation) (st : list Z) (m : Z → Z) : option (list Z * (Z → Z)) :=
  match op_kind op with
  | OpKind.Push_Symbol => Some (symbol (op_symbol_prefix op +:+ to_string (op_ival op)) :: st, m)
  | OpKind.Intrinsic =>
    match op_intrinsic op, st with
    | Intrinsic.Argc, _ => Some (argc :: st, m)
    | Intrinsic.Argv, _ => Some (argv :: st, m)
    | Intrinsic.Top, _ => Some (stack_pointer base st :: st, m)
    | Intrinsic.Load, p :: st =>
      z ← named_size 4 op;
      if allowed p (bytes z) then Some (load (bytes z) m p :: st, m) else None
    | Intrinsic.Store, v :: p :: st =>
      z ← named_size 5 op;
      if allowed p (bytes z) then Some (st, store (bytes z) m p (read_low z v)) else None
    | _, _ => None
    end
  | _ => None
  end.

(** The call stack has room for 1024 calls, and the stack one for the return
    address of a call. *)
Definition within (c : config) : Prop :=
  match c with
  | Running fs st => (length fs ≤ 1025)%nat ∧ limit + 8 * (Z.of_nat (length st) + 1) <= base
  | _ => True
  end.

(** The operation to execute is one without a look at the machine. *)
Definition quiet (c : config) : Prop :=
  match c with
  | Running (mk_frame body i :: _) _ => ∀ op, body !! i = Some op → local op ∨ op_kind op = OpKind.Call_Symbol
  | _ => True
  end.

(** A call of the address of a function of the file is a call of that function. *)
Inductive program_step (words : Words) (argc argv : Z) : config * (Z → Z) → config * (Z → Z) → Prop :=
  | P_quiet c c' m :
      quiet c → step words (λ _, None) c c' → within c' → program_step words argc argv (c, m) (c', m)
  | P_observe body i op fs st st' m m' :
      body !! i = Some op → observe argc argv op st m = Some (st', m') →
      within (Running (mk_frame body (S i) :: fs) st') →
      program_step words argc argv (Running (mk_frame body i :: fs) st, m)
        (Running (mk_frame body (S i) :: fs) st', m')
  | P_call_pointer body i op fs st m name w :
      body !! i = Some op → op_kind op = OpKind.Intrinsic → op_intrinsic op = Intrinsic.Call →
      words !! name = Some w → w_kind w = WordKind.Function → function_label (w_id w) ∈ label_names ls →
      within (Running (mk_frame (w_function_body w) 0 :: mk_frame body (S i) :: fs) st) →
      program_step words argc argv
        (Running (mk_frame body i :: fs) (symbol (function_label (w_id w)) :: st), m)
        (Running (mk_frame (w_function_body w) 0 :: mk_frame body (S i) :: fs) st, m).

Definition program_steps (words : Words) (argc argv : Z) := rtc (program_step words argc argv).

End Memory.

(** ** Where the bodies lie in the file *)

Section Program.
  Context (limit base : Z) (g : Generation_Info) (ls : list line) `{Linker ls}.
  Context (Hlabels : NoDup (label_names ls)).

(** The lines of a body between those in front of it and those behind it, from
    line [start] on. *)
Record placed (head_ tail_ : list line) (prefix name : string) (ops : list Operation) (start : nat)
    (chunks : list (list line)) : Prop := {
  placed_chunks : chunks_of (jump_targets_lookup g) prefix name (length ops) 0 ops chunks;
  placed_jumps : jumps_labelled (jump_targets_lookup g) name ops;
  placed_lines : ∃ pre post, ls = pre ++ head_ ++ body_lines prefix ops chunks ++ tail_ ++ post ∧
    start = length (pre ++ head_);
}.

Definition main_placed : nat → list (list line) → Prop :=
  placed start_code exit_code Label_Prefix "" (main g).

Definition function_placed (name : string) (w : Word) : nat → list (list line) → Prop :=
  placed (function_prologue name w) emit_return (function_prefix (w_id w)) name (w_function_body w).

(** The symbols a body pushes are defined. *)
Definition symbols_defined (ops : list Operation) : Prop :=
  Forall (λ op, op_kind op = OpKind.Push_Symbol →
    symbol_defined ls (op_symbol_prefix op +:+ to_string (op_ival op))) ops.

(** Every body the program can get into is in the file, with its calls, jumps and
    symbols resolved; and so are the variables of the emitted code. *)
Record laid_out : Prop := {
  main_laid_out : ∃ start chunks, main_placed start chunks;
  functions_laid_out : ∀ name w, words g !! name = Some w → w_kind w = WordKind.Function →
    ∃ start chunks, function_placed name w start chunks;
  main_calls : calls_linked (words g) (main g);
  function_calls : ∀ name w, words g !! name = Some w → w_kind w = WordKind.Function →
    calls_linked (words g) (w_function_body w);
  main_defined : symbols_defined (main g);
  function_defined : ∀ name w, words g !! name = Some w → w_kind w = WordKind.Function →
    symbols_defined (w_function_body w);
  control_laid_out : ∃ post, ls = control_lines ++ post;
  labels_laid_out : Forall code_label (label_names ls);
}.

Context (Hlayout : laid_out).

Section Body.
  Context (head_ tail_ : list line) (prefix name : string) (ops : list Operation) (start : nat).
  Context (chunks : list (list line)) (Hplaced : placed head_ tail_ prefix name ops start chunks).

Lemma body_runs pc a pc' a' :
  runs_to limit base (body_lines prefix ops chunks) (pc, a) (pc', a') →
  runs_linked limit base ls ((start + pc)%nat, a) ((start + pc')%nat, a').
Proof.
  destruct Hplaced as [_ _ (pre & post & Hls & ->)]. rewrite app_assoc in Hls. intros Hrun.
  by apply (runs_part limit base ls _ _ _ Hls Hlabels) in Hrun.
Qed.

Lemma body_faults pc a :
  faults limit base (body_lines prefix ops chunks) (pc, a) → faults_linked limit base ls ((start + pc)%nat, a).
Proof.
  destruct Hplaced as [_ _ (pre & post & Hls & ->)]. rewrite app_assoc in Hls. intros Hf.
  by apply (faults_part limit base ls _ _ _ Hls Hlabels) in Hf.
Qed.

(** The lines of one operation. *)
Lemma operation_lines i op :
  ops !! i = Some op → ∃ l code pre post,
    emit_operation prefix (length ops) i op = (l, Done code) ∧ ls = pre ++ code ++ post ∧
    ∀ a, runs_linked limit base ls ((start + pc_of chunks i)%nat, a) (length pre, a) ∧
    (length pre + length code)%nat = (start + pc_of chunks (S i))%nat.
Proof.
  intros Hop. pose proof Hplaced as [Hch _ (pre & post & Hls & Hstart)].
  destruct (chunk_of _ _ _ _ _ Hch _ _ Hop) as (l & code & Hcode & Hchunk).
  destruct (body_split prefix ops chunks _ _ Hchunk) as [Hlines Hnext].
  set (labs := labels (jump_targets_lookup g) prefix name i) in *.
  exists l, code, (pre ++ head_ ++ concat (take i chunks) ++ labs), (concat (drop (S i) chunks) ++ [end_label prefix ops] ++ tail_ ++ post).
  assert (length (pre ++ head_ ++ concat (take i chunks) ++ labs) = start + pc_of chunks i + length labs)%nat as Hlen.
  { rewrite Hstart, !length_app. unfold pc_of. lia. }
  split_and!; [done|by rewrite Hls, Hlines, <-!app_assoc|]. intros a. split.
  - rewrite Hlen. apply runs_over.
    + intros k l' Hk Hl'. rewrite Hls, Hlines in Hl'.
      assert (labs !! (k - (start + pc_of chunks i))%nat = Some l') as Hlab.
      { revert Hl'. rewrite <-!app_assoc, (app_assoc pre), (app_assoc (pre ++ head_)).
        rewrite lookup_app_r, lookup_app_l; rewrite ?length_app; rewrite length_app in Hstart; unfold pc_of in *;
          rewrite ?Hstart; [|lia..]. intros <-. f_equal; lia. }
      apply list_elem_of_lookup_2 in Hlab. unfold labs, labels in Hlab. case_decide; [|by apply elem_of_nil in Hlab].
      apply list_elem_of_singleton in Hlab. by subst.
    + rewrite <-Hlen, Hls, Hlines, !length_app. lia.
  - rewrite Hlen, Hnext, length_app. lia.
Qed.

End Body.

(** ** The variables of the emitted code *)

Context (Hlimit : 0 <= limit) (Hbase : base < 2 ^ 64).
Context (Hcontrol : callstack ls + control_size <= limit ∨ base <= callstack ls).

Notation callstack := (callstack ls).
Notation callptr := (symbol "_stacky_callptr").

(** A variable of the emitted code lies in the reserved memory where the first
    lines of the file put it. *)
Lemma control_value s o :
  ¬ code_label s → offset_of (reserves s) reserved_bytes control_lines = Some o → symbol_value s = Some (bss (ls := ls) + o).
Proof using Hlayout.
  intros Hs Ho. unfold symbol_value. destruct (find_label ls s) as [pc|] eqn:Hl.
  { destruct Hs. apply find_label_elem in Hl. by apply (proj1 (list.Forall_forall _ _) (labels_laid_out Hlayout)). }
  destruct (control_laid_out Hlayout) as [post Hpost]. by rewrite Hpost, (offset_of_app_Some _ _ _ _ _ Ho) at 1.
Qed.

Lemma control_symbol s o :
  ¬ code_label s → offset_of (reserves s) reserved_bytes control_lines = Some o →
  symbol s = bss (ls := ls) + o ∧ symbol_value s = Some (symbol s).
Proof using Hlayout. intros Hs Ho. unfold symbol. by rewrite (control_value s o Hs Ho). Qed.

(** They are no labels. *)
Ltac no_code_label := by intros [|[[? ?]|[? [|[? ?]]]]].

Lemma callstack_places : callstack = bss (ls := ls) + 0 ∧ symbol_value "_stacky_callstack" = Some callstack.
Proof using Hlayout. apply control_symbol; [no_code_label|reflexivity]. Qed.

Lemma callptr_places : callptr = bss (ls := ls) + 8192 ∧ symbol_value "_stacky_callptr" = Some callptr.
Proof using Hlayout. apply control_symbol; [no_code_label|reflexivity]. Qed.

Lemma argv_places : symbol "_stacky_argv" = bss (ls := ls) + 8200 ∧ symbol_value "_stacky_argv" = Some (symbol "_stacky_argv").
Proof using Hlayout. apply control_symbol; [no_code_label|reflexivity]. Qed.

Lemma argc_places : symbol "_stacky_argc" = bss (ls := ls) + 8208 ∧ symbol_value "_stacky_argc" = Some (symbol "_stacky_argc").
Proof using Hlayout. apply control_symbol; [no_code_label|reflexivity]. Qed.

Lemma callstack_low : 0 <= callstack < 2 ^ 31.
Proof. apply symbol_low. Qed.

Lemma control_access p :
  callstack <= p → p + 8 <= callstack + control_size → heap_access limit base p 8 = true.
Proof.
  intros H1 H2. pose proof callstack_low. unfold control_size in *. unfold heap_access.
  apply andb_true_iff. split; [apply orb_true_iff; rewrite !Z.leb_le; lia|apply Z.leb_le; lia].
Qed.

(** The slot of the call stack for the call at depth [d]. *)
Definition call_slot (d : nat) : Z := callstack + 8 * Z.of_nat d.

(** A memory that differs in control variables only. *)
Definition agrees (m m' : Z → Z) : Prop :=
  ∀ x, ¬ (callstack <= x < callstack + control_size) → m x = m' x.

Lemma agrees_store m m' p v :
  agrees m m' → callstack <= p → p + 8 <= callstack + control_size → agrees (store 8 m p v) m'.
Proof. intros Hm H1 H2 x Hx. rewrite store_other; [by apply Hm|]. lia. Qed.

(** ** Frames *)

(** The frames of a program and the line to continue at, with the return
    addresses in the call stack. *)
Inductive resumes (m : Z → Z) : list frame → nat → Prop :=
  | R_main i start chunks :
      main_placed start chunks → resumes m [mk_frame (main g) i] (start + pc_of chunks i)
  | R_function i fs name w start chunks pc :
      words g !! name = Some w → w_kind w = WordKind.Function → function_placed name w start chunks →
      resumes m fs pc → (pc < length ls)%nat → load 8 m (call_slot (length fs - 1)) = address pc →
      resumes m (mk_frame (w_function_body w) i :: fs) (start + pc_of chunks i).

Lemma resumes_ext m m' fs pc :
  resumes m fs pc →
  (∀ d, (d < length fs - 1)%nat → load 8 m' (call_slot d) = load 8 m (call_slot d)) → resumes m' fs pc.
Proof.
  induction 1 as [i start chunks Hmain|i fs name w start chunks pc Hw Hk Hf Hfs IH Hpc Haddr]; intros Hm.
  { by constructor. }
  assert (fs ≠ []) as Hne by (by destruct Hfs). simpl in Hm.
  assert (0 < length fs)%nat by (destruct fs; [done|simpl; lia]).
  econstructor; [done|done|done| |done|].
  - apply IH. intros d Hd. apply Hm. lia.
  - rewrite Hm by lia. done.
Qed.

(** The state of the machine at a state of the program. *)
Record matches (argc argv : Z) (fs : list frame) (st : list Z) (m : Z → Z) (pc : nat) (a : amachine) : Prop := {
  match_ok : amachine_ok a;
  match_stack : a_stack a = st;
  match_room : within limit base (Running fs st);
  match_frames : resumes (a_mem a) fs pc;
  match_depth : load 8 (a_mem a) callptr = Z.of_nat (length fs - 1);
  match_argc : load 8 (a_mem a) (symbol "_stacky_argc") = argc;
  match_argv : load 8 (a_mem a) (symbol "_stacky_argv") = argv;
  match_heap : agrees (a_mem a) m;
}.

(** Replaces the variables by their places. *)
Ltac places :=
  pose proof (proj1 callstack_places); pose proof (proj1 callptr_places); pose proof (proj1 argv_places);
  pose proof (proj1 argc_places); pose proof callstack_low; unfold call_slot, control_size, ProgramCode.callstack in *.

(** Evaluates the names of the variables. *)
Ltac variable_values :=
  rewrite ?(proj2 callstack_places), ?(proj2 callptr_places), ?(proj2 argv_places), ?(proj2 argc_places);
  cbn [mbind option_bind].

(** A new stack and registers, and the memory as it was. *)
Lemma matches_same argc argv fs st m pc a fs' st' pc' a' :
  matches argc argv fs st m pc a → amachine_ok a' → a_stack a' = st' → a_mem a' = a_mem a →
  within limit base (Running fs' st') → length fs' = length fs → resumes (a_mem a) fs' pc' →
  matches argc argv fs' st' m pc' a'.
Proof.
  intros [Hok Hst Hroom Hfr Hd Hargc Hargv Hheap] Hok' Hst' Hm Hroom' Hlen Hfr'.
  split; try rewrite Hm; try done. by rewrite Hlen.
Qed.

(** ** Operations without calls *)

(** A step of the innermost frame does not look at the others. *)
Lemma step_innermost ws arguments ops i fs st c :
  (∀ op, ops !! i = Some op → local op) → step ws arguments (Running (mk_frame ops i :: fs) st) c →
  (∃ i' st', c = Running (mk_frame ops i' :: fs) st' ∧
     step ws arguments (Running [mk_frame ops i] st) (Running [mk_frame ops i'] st')) ∨
  (c = returned fs st ∧ step ws arguments (Running [mk_frame ops i] st) (Halted st)) ∨
  (c = Trapped ∧ step ws arguments (Running [mk_frame ops i] st) Trapped).
Proof.
  intros Hlocal Hstep. inversion Hstep as
    [? ? op ? ? Hop Hk|? ? op ? ? ? Hop Hk Ha|? ? op ? ? Hop Hk|? ? op ? st1 z Hop Hk
    |? ? op ? ? Hop Hk|? ? op ? ? nm w Hop Hk Hname Hw|? ? op ? ? Hop Hk|? ? ? ? Hop
    |? ? op ? ? f st' Hop Hk Hf Hf'|? ? op ? ? f Hop Hk Hf Hf'
    |? ? op ? ? taken left res Hop Hk Henv Htaken Hres Hu]; subst;
    try (pose proof (Hlocal _ Hop) as Hl; unfold local in Hl); try (rewrite Hk in Hl); try done.
  - left. eexists _, _. split; [done|]. by eapply S_push_int.
  - left. eexists _, _. split; [done|]. by eapply S_skip.
  - left. eexists _, _. split; [done|]. by apply S_branch.
  - left. eexists _, _. split; [done|]. by eapply S_jump.
  - right. left. split; [done|]. by eapply (S_return _ _ _ _ _ []).
  - right. left. split; [done|]. by apply (S_end _ _ _ _ []).
  - left. eexists _, _. split; [done|]. by eapply S_intrinsic.
  - right. right. split; [done|]. by eapply S_trap.
  - destruct Hl as [f Hf]. by destruct (op_intrinsic op).
Qed.

Section Local.
  Context (head_ tail_ : list line) (prefix name : string) (ops : list Operation) (start : nat).
  Context (chunks : list (list line)) (Hplaced : placed head_ tail_ prefix name ops start chunks).

Lemma local_simulates ws arguments i fs st c a :
  (∀ op, ops !! i = Some op → local op) → amachine_ok a → a_stack a = st →
  step ws arguments (Running (mk_frame ops i :: fs) st) c →
  (∃ i' st' a', c = Running (mk_frame ops i' :: fs) st' ∧
     runs_linked limit base ls ((start + pc_of chunks i)%nat, a) ((start + pc_of chunks i')%nat, a') ∧
     becomes a st' a') ∨
  (∃ a', c = returned fs st ∧ runs_linked limit base ls ((start + pc_of chunks i)%nat, a)
     ((start + pc_of chunks (length ops))%nat, a') ∧ becomes a st a') ∨
  (c = Trapped ∧ faults_linked limit base ls ((start + pc_of chunks i)%nat, a)).
Proof.
  intros Hlocal Hok Hst Hstep. pose proof (placed_chunks _ _ _ _ _ _ _ Hplaced) as Hch.
  pose proof (placed_jumps _ _ _ _ _ _ _ Hplaced) as Hj.
  destruct (step_innermost _ _ _ _ _ _ _ Hlocal Hstep) as [(i' & st' & -> & Hs)|[[-> Hs]|[-> Hs]]];
    pose proof (step_simulates limit base _ _ _ _ _ Hch Hj ws arguments i st _ a Hlocal Hok Hst Hs) as Hsim; cbv beta iota in Hsim.
  - destruct Hsim as (i1 & a' & [= <-] & Hrun & Hb). left. exists i', st', a'. split_and!; [done| |done].
    by eapply body_runs.
  - destruct Hsim as (a' & Hrun & Hb). right. left. exists a'. split_and!; [done| |done]. by eapply body_runs.
  - right. right. split; [done|]. by eapply body_faults.
Qed.

(** Straight-line code of an operation. *)
Lemma operation_straight i op a a' :
  ops !! i = Some op →
  (∀ l code, emit_operation prefix (length ops) i op = (l, Done code) →
     forallb straight_linked (instrs code) = true ∧ exec_linked_all limit base ls (instrs code) a = Some (Ok a')) →
  runs_linked limit base ls ((start + pc_of chunks i)%nat, a) ((start + pc_of chunks (S i))%nat, a').
Proof.
  intros Hop Hcode. destruct (operation_lines _ _ _ _ _ _ _ Hplaced _ _ Hop) as (l & code & pre & post & Hemit & Hls & Hrun).
  destruct (Hcode _ _ Hemit) as [Hs Hexec]. destruct (Hrun a) as [Hr <-]. etrans; [exact Hr|].
  by eapply runs_linked_straight.
Qed.

End Local.

(** The code behind a body, up to an instruction that jumps. *)
Section Tail.
  Context (head_ tail_ : list line) (prefix name : string) (ops : list Operation) (start : nat).
  Context (chunks : list (list line)) (Hplaced : placed head_ tail_ prefix name ops start chunks).

Lemma tail_runs code x rest a a' :
  tail_ = code ++ x :: rest → forallb straight_linked (instrs code) = true →
  exec_linked_all limit base ls (instrs code) a = Some (Ok a') →
  ∃ pc, runs_linked limit base ls ((start + pc_of chunks (length ops))%nat, a) (pc, a') ∧ ls !! pc = Some x.
Proof.
  intros Htail Hs Hexec. destruct Hplaced as [[Hlen _] _ (pre & post & Hls & Hstart)].
  set (front := pre ++ head_ ++ concat chunks).
  assert (ls = front ++ (end_label prefix ops :: code) ++ x :: rest ++ post) as Hlines.
  { rewrite Hls, Htail. unfold front, body_lines. rewrite <-!app_assoc. simpl. by rewrite <-?app_assoc. }
  assert (length front = start + pc_of chunks (length ops))%nat as <-.
  { unfold front, pc_of. rewrite take_ge by lia. rewrite Hstart, !length_app. lia. }
  exists (length front + length (end_label prefix ops :: code))%nat. split.
  - by eapply (runs_linked_straight limit base ls (end_label prefix ops :: code)).
  - rewrite <-length_app. rewrite Hlines, app_assoc. by apply list_lookup_middle.
Qed.

End Tail.

(** ** Access to the variables *)

Lemma read_control a p :
  callstack <= p → p + 8 <= callstack + control_size → read_word limit base a p = Some (load 8 (a_mem a) p).
Proof. intros H1 H2. unfold read_word. by rewrite control_access. Qed.

Lemma write_control c a p v :
  callstack <= p → p + 8 <= callstack + control_size →
  write_word limit base c a p v = Some (Ok (mk_amachine c (a_stack a) (store 8 (a_mem a) p v))).
Proof. intros H1 H2. unfold write_word. by rewrite control_access. Qed.

Lemma update_control o a p v :
  callstack <= p → p + 8 <= callstack + control_size →
  let old := load 8 (a_mem a) p in
  update_word limit base o a p v = Some (Ok (mk_amachine
    (set_flags (alu_flags o old (u64 v)).1 (alu_flags o old (u64 v)).2 (a_cpu a)) (a_stack a)
    (store 8 (a_mem a) p (alu_result o old (u64 v))))).
Proof.
  intros H1 H2 old. unfold update_word. rewrite read_control by done. simpl. fold old.
  destruct (alu_flags o old (u64 v)) as [z carry]. by rewrite write_control.
Qed.

Lemma load_store_word m p v : is_u64 v → load 8 (store 8 m p v) p = v.
Proof. intros Hv. rewrite load_store_same. by apply Z.mod_small. Qed.

Lemma call_slot_u64 d : (d ≤ 1024)%nat → u64 (callstack + 8 * Z.of_nat d) = call_slot d.
Proof. intros Hd. places. apply u64_small. unfold is_u64. lia. Qed.

Lemma small_u64 n : (n ≤ 1024)%nat → is_u64 (Z.of_nat n).
Proof. unfold is_u64. lia. Qed.

(** ** The return of a function *)

(** The machine behind the epilogue: the call pointer is one less and the
    return address of the call on the stack. *)
Lemma epilogue_exec a d :
  (d < 1024)%nat → load 8 (a_mem a) callptr = Z.of_nat (S d) → amachine_ok a →
  ∃ c, cpu_ok c ∧ exec_linked_all limit base ls (instrs (take 4 emit_return)) a =
    Some (Ok (mk_amachine c (load 8 (a_mem a) (call_slot d) :: a_stack a)
      (store 8 (a_mem a) callptr (Z.of_nat d)))).
Proof.
  intros Hd Hptr (Hcpu & _ & Hbytes). cbn [take emit_return instrs omap list_omap tabbed exec_linked_all exec_linked].
  variable_values. rewrite update_control by (places; lia). rewrite Hptr.
  replace (alu_result Sub (Z.of_nat (S d)) (u64 1)) with (Z.of_nat d)
    by (simpl alu_result; rewrite (u64_small 1), u64_small by (unfold is_u64; lia); lia).
  rewrite read_control by (places; lia). cbn [mbind option_bind a_cpu a_stack a_mem].
  rewrite load_store_word by (apply small_u64; lia). cbn [regs set_reg set_flags].
  change (reg_eqb RBX RBX) with true. cbv iota.
  rewrite call_slot_u64, read_control by (places; lia). cbn [mbind option_bind a_cpu a_stack a_mem].
  rewrite load_store_other by (places; lia).
  eexists. split; [|reflexivity].
  apply set_reg_ok; [|by apply load_u64]. apply set_reg_ok; [by apply set_flags_ok|apply small_u64; lia].
Qed.

Lemma return_simulates name w start chunks fs pc argc argv st m i a :
  function_placed name w start chunks → resumes (a_mem a) fs pc →
  (pc < length ls)%nat → load 8 (a_mem a) (call_slot (length fs - 1)) = address pc →
  matches argc argv (mk_frame (w_function_body w) i :: fs) st m
    (start + pc_of chunks (length (w_function_body w)))%nat a →
  ∃ a', runs_linked limit base ls ((start + pc_of chunks (length (w_function_body w)))%nat, a) (pc, a') ∧
    matches argc argv fs st m pc a'.
Proof.
  intros Hf Hfs Hpc Haddr [Hok Hst [Hdepth Hroom] _ Hd Hargc Hargv Hheap].
  assert (0 < length fs)%nat as Hlen by (destruct Hfs; simpl; lia). simpl in Hdepth, Hd.
  set (d := (length fs - 1)%nat) in *. replace (length fs - 0)%nat with (S d) in Hd by lia.
  destruct (epilogue_exec a d) as (c & Hc & Hexec); [lia|done|done|]. rewrite Haddr in Hexec.
  destruct (tail_runs _ _ _ _ _ _ _ Hf (take 4 emit_return) (tabbed Ret) [] a _ eq_refl eq_refl Hexec)
    as (q & Hrun & Hret).
  set (a' := mk_amachine c st (store 8 (a_mem a) callptr (Z.of_nat d))).
  destruct (line_at_runs limit base ls pc a' Hpc) as (pc' & Hat & Hrun').
  exists a'. split.
  - etrans; [exact Hrun|]. eapply rtc_l; [|exact Hrun']. unfold moves_linked, next_linked. cbn [fst snd].
    rewrite Hret. simpl. by rewrite Hat, Hst.
  - destruct Hok as (Hcpu & Hvals & Hbytes).
    split; unfold a'; cbn [a_mem a_stack a_cpu]; try done.
    + apply amachine_ok_intro; [done|by subst st|by apply store_bytes_ok].
    + split; [lia|done].
    + apply (resumes_ext (a_mem a)); [done|]. intros k Hk. apply load_store_other. places. lia.
    + by rewrite load_store_word by (apply small_u64; lia).
    + rewrite load_store_other by (places; lia). done.
    + rewrite load_store_other by (places; lia). done.
    + apply agrees_store; [done|places; lia..].
Qed.

(** ** The call of a function *)

(** The machine behind the prologue of a function, with the call pointer at
    [d]: the return address is in the slot [d], and the pointer one more than
    what it is after that. *)
Lemma prologue_run name w a d ret st :
  (d ≤ 1024)%nat → load 8 (a_mem a) callptr = Z.of_nat d → amachine_ok a → a_stack a = ret :: st →
  let m := store 8 (a_mem a) (call_slot d) ret in
  ∃ c, cpu_ok c ∧ exec_linked_all limit base ls (instrs (drop 1 (function_prologue name w))) a =
    Some (Ok (mk_amachine c st (store 8 m callptr (u64 (load 8 m callptr + 1))))).
Proof.
  intros Hd Hptr (Hcpu & Hvals & Hbytes) Hst m.
  cbn [drop function_prologue instrs omap list_omap tabbed exec_linked_all exec_linked exec_abstract].
  rewrite Hst in *. apply Forall_cons in Hvals as [Hret Hvals].
  cbn [mbind option_bind a_cpu a_stack a_mem]. variable_values. rewrite read_control by (places; lia).
  cbn [mbind option_bind a_cpu a_stack a_mem]. rewrite Hptr. cbn [regs set_reg].
  change (reg_eqb RBX RBX) with true. change (reg_eqb RAX RBX) with false. change (reg_eqb RAX RAX) with true.
  cbv iota. rewrite call_slot_u64, write_control by (places; lia). cbn [a_cpu a_stack a_mem].
  rewrite update_control by (places; lia). cbn [a_cpu a_stack a_mem]. fold m.
  eexists. split; [|reflexivity].
  apply set_flags_ok, set_reg_ok; [by apply set_reg_ok|apply small_u64; lia].
Qed.

(** Below the end of the call stack the return address moves from the stack to
    the call stack. *)
Lemma prologue_exec name w a d ret st :
  (d < 1024)%nat → load 8 (a_mem a) callptr = Z.of_nat d → amachine_ok a → a_stack a = ret :: st →
  ∃ c, cpu_ok c ∧ exec_linked_all limit base ls (instrs (drop 1 (function_prologue name w))) a =
    Some (Ok (mk_amachine c st
      (store 8 (store 8 (a_mem a) (call_slot d) ret) callptr (Z.of_nat (S d))))).
Proof.
  intros Hd Hptr Hok Hst. destruct (prologue_run name w a d ret st) as (c & Hc & Hexec); [lia|done..|].
  exists c. split; [done|]. rewrite Hexec. rewrite load_store_other by (places; lia).
  rewrite Hptr, u64_small by (unfold is_u64; lia). by rewrite Z.add_1_r, <-Nat2Z.inj_succ.
Qed.

(** At its end the return address overwrites the call pointer. *)
Lemma prologue_overflow name w a ret st :
  load 8 (a_mem a) callptr = 1024 → amachine_ok a → a_stack a = ret :: st →
  ∃ a', exec_linked_all limit base ls (instrs (drop 1 (function_prologue name w))) a = Some (Ok a') ∧
    a_stack a' = st ∧ load 8 (a_mem a') callptr = u64 (ret + 1).
Proof.
  intros Hptr Hok Hst. destruct (prologue_run name w a 1024 ret st) as (c & Hc & Hexec); [lia|done..|].
  assert (call_slot 1024 = callptr) as Hslot by (places; lia).
  eexists. split_and!; [exact Hexec|done|]. destruct Hok as (_ & Hvals & _). rewrite Hst in Hvals.
  apply Forall_cons in Hvals as [Hret _]. cbn [a_mem].
  rewrite load_store_word, Hslot, load_store_word; [done|done|apply u64_range].
Qed.

Lemma placed_inside head_ tail_ prefix name ops start chunks j :
  placed head_ tail_ prefix name ops start chunks → (start + pc_of chunks j < length ls)%nat.
Proof.
  intros [_ _ (pre & post & Hls & Hstart)]. rewrite Hls, Hstart. unfold body_lines, pc_of.
  assert (length (concat (take j chunks)) ≤ length (concat chunks))%nat.
  { rewrite <-(take_drop j chunks) at 2. rewrite concat_app, length_app. lia. }
  rewrite !length_app. simpl. lia.
Qed.

(** The prologue is entered by the label of the function and left at the
    first operation. *)
Lemma entry_runs name w start chunks a a' :
  function_placed name w start chunks →
  exec_linked_all limit base ls (instrs (drop 1 (function_prologue name w))) a = Some (Ok a') →
  ∃ pc, find_label ls (function_label (w_id w)) = Some pc ∧ runs_linked limit base ls (pc, a) (start, a').
Proof.
  intros [_ _ (pre & post & Hls & Hstart)] Hexec. exists (length pre + 1)%nat. split.
  - eapply find_label_in; [exact Hls|done|]. cbn [function_prologue find_label is_label].
    unfold function_label. by rewrite bool_decide_true.
  - replace (length pre + 1)%nat with (length (pre ++ take 1 (function_prologue name w)))
      by (rewrite length_app; done).
    replace start with (length (pre ++ take 1 (function_prologue name w)) + length (drop 1 (function_prologue name w)))%nat
      by (rewrite Hstart, !length_app; simpl; lia).
    eapply runs_linked_straight; [|done|exact Hexec]. by rewrite Hls, <-app_assoc, (app_assoc (take 1 _)), take_drop.
Qed.

Lemma entry_simulates name w start chunks a d ret st :
  function_placed name w start chunks →
  (d < 1024)%nat → load 8 (a_mem a) callptr = Z.of_nat d → amachine_ok a → a_stack a = ret :: st →
  ∃ pc c, find_label ls (function_label (w_id w)) = Some pc ∧ cpu_ok c ∧
    runs_linked limit base ls (pc, a) (start, mk_amachine c st
      (store 8 (store 8 (a_mem a) (call_slot d) ret) callptr (Z.of_nat (S d)))).
Proof.
  intros Hf Hd Hptr Hok Hst. destruct (prologue_exec name w a d ret st) as (c & Hc & Hexec); [done..|].
  destruct (entry_runs _ _ _ _ _ _ Hf Hexec) as (pc & Hpc & Hrun). eauto.
Qed.

(** A function entered with the return address on the stack. *)
Lemma enter_matches argc argv ops i fs st0 m pc0 a name w st pc a1 :
  matches argc argv (mk_frame ops i :: fs) st0 m pc0 a →
  resumes (a_mem a) (mk_frame ops (S i) :: fs) pc → (pc < length ls)%nat →
  words g !! name = Some w → w_kind w = WordKind.Function →
  within limit base (Running (mk_frame (w_function_body w) 0 :: mk_frame ops (S i) :: fs) st) →
  amachine_ok a1 → a_stack a1 = address pc :: st → a_mem a1 = a_mem a →
  ∃ entry s', find_label ls (function_label (w_id w)) = Some entry ∧
    runs_linked limit base ls (entry, a1) s' ∧
    matches argc argv (mk_frame (w_function_body w) 0 :: mk_frame ops (S i) :: fs) st m s'.1 s'.2.
Proof.
  intros [_ _ _ _ Hd Hargc Hargv Hheap] Hfs Hpc Hw Hwk [Hdepth Hroom] Hok1 Hst1 Hm1.
  simpl in Hdepth, Hd. rewrite Nat.sub_0_r in Hd. rewrite <-Hm1 in Hd, Hargc, Hargv, Hheap, Hfs.
  destruct (functions_laid_out Hlayout name w Hw Hwk) as (start & chunks & Hf).
  destruct (entry_simulates name w start chunks a1 (length fs) (address pc) st Hf ltac:(lia) Hd Hok1 Hst1)
    as (entry & c & Hlab & Hc & Hrun).
  set (m1 := store 8 (a_mem a1) (call_slot (length fs)) (address pc)) in *.
  set (m2 := store 8 m1 callptr (Z.of_nat (S (length fs)))) in *.
  exists entry, (start, mk_amachine c st m2). split_and!; [done|done|].
  destruct Hok1 as (_ & Hvals & Hbytes). rewrite Hst1 in Hvals. apply Forall_cons in Hvals as [_ Hvals].
  split; cbn [fst snd a_mem a_stack a_cpu]; try done.
  - apply amachine_ok_intro; [done|done|]. by apply store_bytes_ok, store_bytes_ok.
  - replace start with (start + pc_of chunks 0)%nat by (unfold pc_of; simpl; lia).
    apply (R_function _ 0 _ name w _ _ pc); [done|done|done| |done|].
    + apply (resumes_ext (a_mem a1)); [done|]. intros k Hk'. simpl in Hk'. unfold m2, m1.
      rewrite !load_store_other by (places; lia). done.
    + simpl. rewrite Nat.sub_0_r. unfold m2, m1. rewrite load_store_other by (places; lia).
      apply load_store_word, address_u64.
  - unfold m2. rewrite load_store_word by (apply small_u64; lia). done.
  - unfold m2, m1. rewrite !load_store_other by (places; lia). done.
  - unfold m2, m1. rewrite !load_store_other by (places; lia). done.
  - unfold m2, m1. apply agrees_store; [apply agrees_store; [done|places; lia..]|places; lia..].
Qed.

Section Caller.
  Context (head_ tail_ : list line) (prefix nm : string) (ops : list Operation) (start : nat).
  Context (chunks : list (list line)) (Hplaced : placed head_ tail_ prefix nm ops start chunks).

(** The last line of the code of an operation, when it is an instruction that
    calls. *)
Lemma operation_last i op l code rest a a' :
  ops !! i = Some op → emit_operation prefix (length ops) i op = (l, Done (code ++ [tabbed rest])) →
  forallb straight_linked (instrs code) = true → exec_linked_all limit base ls (instrs code) a = Some (Ok a') →
  ∃ pc, runs_linked limit base ls ((start + pc_of chunks i)%nat, a) (pc, a') ∧ ls !! pc = Some (tabbed rest) ∧
    S pc = (start + pc_of chunks (S i))%nat.
Proof.
  intros Hop Hemit Hs Hexec.
  destruct (operation_lines _ _ _ _ _ _ _ Hplaced _ _ Hop) as (l' & code' & pre & post & Hemit' & Hls & Hrun).
  rewrite Hemit in Hemit'. injection Hemit' as <- <-. destruct (Hrun a) as [Hr Hlen].
  rewrite <-app_assoc in Hls. exists (length pre + length code)%nat. split_and!.
  - etrans; [exact Hr|]. by eapply runs_linked_straight.
  - rewrite Hls, app_assoc. apply list_lookup_middle. by rewrite length_app.
  - rewrite <-Hlen, length_app. simpl. lia.
Qed.

Context (i : nat) (op : Operation) (fs : list frame) (argc argv : Z) (m : Z → Z) (name : string) (w : Word) (a : amachine).
Context (Hop : ops !! i = Some op) (Hw : words g !! name = Some w) (Hwk : w_kind w = WordKind.Function).
Context (Hfs : resumes (a_mem a) (mk_frame ops (S i) :: fs) (start + pc_of chunks (S i))%nat).

Lemma call_simulates st :
  op_kind op = OpKind.Call_Symbol → op_ival op = w_id w →
  matches argc argv (mk_frame ops i :: fs) st m (start + pc_of chunks i)%nat a →
  within limit base (Running (mk_frame (w_function_body w) 0 :: mk_frame ops (S i) :: fs) st) →
  ∃ s', runs_linked limit base ls ((start + pc_of chunks i)%nat, a) s' ∧
    matches argc argv (mk_frame (w_function_body w) 0 :: mk_frame ops (S i) :: fs) st m s'.1 s'.2.
Proof.
  intros Hk Hid Hm Hroom. pose proof Hm as [(Hcpu & Hvals & Hbytes) Hst _ _ _ _ _ _].
  destruct (operation_last i op [] [comment "call symbol"] (Call (function_label (w_id w))) a a Hop)
    as (pc & Hr & Hl & Hpc); [unfold emit_operation; by rewrite Hk, Hid|done|done|].
  destruct (enter_matches _ _ _ _ _ _ _ _ _ name w st _ (with_stack a (address (S pc) :: st)) Hm Hfs)
    as (entry & s' & Hlab & Hr' & Hm'); [by eapply placed_inside|done|done|done| |by rewrite Hpc|done|].
  { apply amachine_ok_intro; [done| |done]. subst st. by apply values_ok_cons; [apply address_u64|]. }
  exists s'. split; [|done]. etrans; [exact Hr|]. eapply rtc_l; [|exact Hr'].
  unfold moves_linked, next_linked. cbn [fst snd]. rewrite Hl. simpl. by rewrite Hlab, Hst.
Qed.

(** A call of the address of a function on the stack. *)
Lemma call_pointer_simulates st :
  op_kind op = OpKind.Intrinsic → op_intrinsic op = Intrinsic.Call →
  matches argc argv (mk_frame ops i :: fs) (symbol (function_label (w_id w)) :: st) m (start + pc_of chunks i)%nat a →
  within limit base (Running (mk_frame (w_function_body w) 0 :: mk_frame ops (S i) :: fs) st) →
  ∃ s', runs_linked limit base ls ((start + pc_of chunks i)%nat, a) s' ∧
    matches argc argv (mk_frame (w_function_body w) 0 :: mk_frame ops (S i) :: fs) st m s'.1 s'.2.
Proof.
  intros Hk Hint Hm Hroom. pose proof Hm as [(Hcpu & Hvals & Hbytes) Hst _ _ _ _ _ _].
  rewrite Hst in Hvals. apply Forall_cons in Hvals as [Hf Hvals].
  set (f := symbol (function_label (w_id w))) in *. set (a1 := mk_amachine (set_reg RAX f (a_cpu a)) st (a_mem a)).
  destruct (operation_last i op [] [comment "stack call"; tabbed (Pop RAX)] (Call_reg RAX) a a1 Hop)
    as (pc & Hr & Hl & Hpc);
    [unfold emit_operation, emit_intrinsic; rewrite Hk, Hint; done|done|simpl; by rewrite Hst|].
  set (a2 := with_stack a1 (address (S pc) :: st)).
  destruct (enter_matches _ _ _ _ _ _ _ _ _ name w st _ a2 Hm Hfs)
    as (entry & s' & Hlab & Hr' & Hm'); [by eapply placed_inside|done|done|done| |simpl; by rewrite Hpc|done|].
  { apply amachine_ok_intro; [by apply set_reg_ok|by apply values_ok_cons; [apply address_u64|]|done]. }
  destruct (line_at_runs limit base ls entry a2) as (entry' & Hat & Hr2); [by eapply find_label_lt|].
  exists s'. split; [|done]. etrans; [exact Hr|]. eapply rtc_l; [|etrans; [exact Hr2|exact Hr']].
  unfold moves_linked, next_linked. cbn [fst snd]. rewrite Hl. simpl.
  rewrite <-(symbol_label _ _ Hlab) in Hat. fold f in Hat. by rewrite Hat.
Qed.

End Caller.

(** ** Operations that look at the machine *)

Lemma allowed_access p n : allowed limit base ls p n = true →
  heap_access limit base p n = true ∧ (p + Z.of_nat n <= callstack ∨ callstack + control_size <= p).
Proof. intros [Hh Hc]%andb_true_iff. split; [done|]. apply orb_true_iff in Hc. rewrite !Z.leb_le in Hc. done. Qed.

(** The machine behind the code of such an operation; memory changes by a store
    outside of the variables only. *)
Definition observed (a : amachine) (m : Z → Z) (st' : list Z) (m' : Z → Z) (a' : amachine) : Prop :=
  amachine_ok a' ∧ a_stack a' = st' ∧
  ((a_mem a' = a_mem a ∧ m' = m) ∨
   ∃ p n v, a_mem a' = store n (a_mem a) p v ∧ m' = store n m p v ∧
     (p + Z.of_nat n <= callstack ∨ callstack + control_size <= p)).

Lemma named_code k op l (f : size → list line) code e :
  (c ← char_at (tok_sval (op_token op)) k;
   match access_size c with Some z => mret (f z) | None => unreachable e end) = (l, Done code) →
  ∃ z, named_size k op = Some z ∧ code = f z.
Proof.
  intros H'. apply bind_Done in H' as (? & c & ? & Hc & H' & _). unfold char_at in Hc. unfold named_size.
  destruct (chars _ !! k) as [c'|].
  - injection Hc as _ ->. simpl. destruct (access_size c) as [z|]; [|done]. exists z. split; [done|by injection H'].
  - destruct (k =? _)%nat; [|done]. by injection Hc as _ <-.
Qed.

Lemma stack_pointer_u64 st fs : within limit base (Running fs st) → is_u64 (stack_pointer base st).
Proof. intros [_ Hroom]. unfold stack_pointer, is_u64. lia. Qed.

Lemma push_observed c v a m st :
  amachine_ok a → cpu_ok c → a_stack a = st → is_u64 v →
  observed a m (v :: st) m (mk_amachine c (v :: a_stack a) (a_mem a)).
Proof.
  intros (Hc & Hv & Hm) Hc' Hst Hv'. split_and!; [|by simpl; rewrite Hst|by left].
  apply amachine_ok_intro; [done|by apply values_ok_cons|done].
Qed.

Lemma load_agrees m m' n p :
  agrees m m' → p + Z.of_nat n <= callstack ∨ callstack + control_size <= p → load n m p = load n m' p.
Proof. intros Hm Hp. apply load_ext. intros x Hx. apply Hm. lia. Qed.

Lemma observe_exec argc argv prefix size i op l code fs st m st' m' pc a :
  observe limit base ls argc argv op st m = Some (st', m') →
  (op_kind op = OpKind.Push_Symbol → symbol_defined ls (op_symbol_prefix op +:+ to_string (op_ival op))) →
  emit_operation prefix size i op = (l, Done code) → matches argc argv fs st m pc a →
  forallb straight_linked (instrs code) = true ∧
  ∃ a', exec_linked_all limit base ls (instrs code) a = Some (Ok a') ∧ observed a m st' m' a'.
Proof.
  intros Hobs Hdef Hcode [Hok Hst Hroom _ _ Hargc Hargv Hheap]. pose proof Hok as (Hcpu & Hvals & Hbytes).
  unfold observe in Hobs. unfold emit_operation in Hcode. destruct (op_kind op) eqn:Hk; try done.
  2: { injection Hobs as <- <-. injection Hcode as <- <-. split; [done|]. eexists.
    split; [cbn; by rewrite (symbol_defined_value _ (Hdef eq_refl))|]. apply push_observed; [done|done|done|apply symbol_u64]. }
  unfold emit_intrinsic in Hcode. apply bind_Done in Hcode as (? & [] & ? & _ & Hcode & _). cbv zeta in Hcode.
  destruct (op_intrinsic op); try done.
  - apply named_code in Hcode as (z & Hz & ->). destruct st as [|p st]; [done|]. rewrite Hz in Hobs.
    cbn [mbind option_bind] in Hobs. destruct (allowed _ _ _ _ _) eqn:Hp; [|done]. injection Hobs as <- <-.
    apply allowed_access in Hp as [Hacc Hout]. split; [done|].
    cbn [load_code instrs omap list_omap comment tabbed exec_linked_all exec_linked exec_abstract].
    rewrite Hst. cbn -[heap_access write_low Z.lxor load]. rewrite Hacc, Z.lxor_nilpotent.
    eexists. split; [reflexivity|]. cbn -[write_low load].
    replace (write_low z 0 (load (bytes z) (a_mem a) p)) with (load (bytes z) (a_mem a) p) by (by destruct z).
    assert (is_u64 (load (bytes z) (a_mem a) p)) as Hu.
    { pose proof (load_range (bytes z) (a_mem a) p Hbytes) as Hr. 
      assert (2 ^ (8 * Z.of_nat (bytes z)) <= 2 ^ 64) by (by destruct z). unfold is_u64. lia. }
    rewrite Hst in Hvals. apply Forall_cons in Hvals as [Hp Hvals].
    split_and!; [|simpl; by rewrite (load_agrees _ m)|by left].
    apply amachine_ok_intro; [|by apply values_ok_cons|done].
    apply set_reg_ok; [|done]. apply set_flags_ok, set_reg_ok; [by apply set_reg_ok|unfold is_u64; lia].
  - apply named_code in Hcode as (z & Hz & ->). destruct st as [|v [|p st]]; [done|done|]. rewrite Hz in Hobs.
    cbn [mbind option_bind] in Hobs. destruct (allowed _ _ _ _ _) eqn:Hp; [|done]. injection Hobs as <- <-.
    apply allowed_access in Hp as [Hacc Hout]. split; [done|].
    cbn [store_code instrs omap list_omap comment tabbed exec_linked_all exec_linked exec_abstract].
    rewrite Hst. cbn -[heap_access read_low store]. rewrite Hacc. eexists. split; [reflexivity|].
    rewrite Hst in Hvals. apply Forall_cons in Hvals as [Hv Hvals]. apply Forall_cons in Hvals as [Hp Hvals].
    split_and!; [|done|right; eauto 10].
    apply amachine_ok_intro; [by apply set_reg_ok; [apply set_reg_ok|]|done|by apply store_bytes_ok].
  - subst st. injection Hobs as <- <-. injection Hcode as <- <-. split; [done|]. eexists. split; [reflexivity|].
    apply push_observed; [done|done|done|]. by eapply stack_pointer_u64.
  - injection Hobs as <- <-. injection Hcode as <- <-. split; [done|].
    cbn [instrs omap list_omap spaced exec_linked_all exec_linked]. variable_values. rewrite read_control by (places; lia).
    set (v := load 8 (a_mem a) (symbol "_stacky_argv")) in *. subst argv.
    exists (mk_amachine (set_reg RAX v (a_cpu a)) (v :: a_stack a) (a_mem a)). split; [reflexivity|].
    apply push_observed; [done|apply set_reg_ok; [done|by apply load_u64]|done|by apply load_u64].
  - injection Hobs as <- <-. injection Hcode as <- <-. split; [done|].
    cbn [instrs omap list_omap spaced exec_linked_all exec_linked]. variable_values. rewrite read_control by (places; lia).
    set (v := load 8 (a_mem a) (symbol "_stacky_argc")) in *. subst argc.
    exists (mk_amachine (set_reg RAX v (a_cpu a)) (v :: a_stack a) (a_mem a)). split; [reflexivity|].
    apply push_observed; [done|apply set_reg_ok; [done|by apply load_u64]|done|by apply load_u64].
Qed.

(** ** One step of the program *)

(** The machine at the system call that exits. *)
Definition exits (st : list Z) (m : Z → Z) (s : nat * amachine) : Prop :=
  ls !! s.1 = Some (tabbed Syscall) ∧ regs (a_cpu s.2) RAX = 60 ∧ regs (a_cpu s.2) RDI = 0 ∧
  a_stack s.2 = st ∧ agrees (a_mem s.2) m.

(** What the machine does for a state the program gets to. *)
Definition reaches (argc argv : Z) (s : nat * amachine) (c : config * (Z → Z)) : Prop :=
  match c with
  | (Running fs st, m) => ∃ s', runs_linked limit base ls s s' ∧ matches argc argv fs st m s'.1 s'.2
  | (Halted st, m) => ∃ s', runs_linked limit base ls s s' ∧ exits st m s'
  | (Trapped, _) => faults_linked limit base ls s
  end.

Lemma exit_simulates start chunks st m a :
  main_placed start chunks → a_stack a = st → agrees (a_mem a) m →
  ∃ s', runs_linked limit base ls ((start + pc_of chunks (length (main g)))%nat, a) s' ∧ exits st m s'.
Proof.
  intros Hmain Hst Hheap.
  destruct (tail_runs _ _ _ _ _ _ _ Hmain (take 3 exit_code) (tabbed Syscall) [] a
    (mk_amachine (set_reg RDI (u64 0) (set_reg RAX (u64 60) (a_cpu a))) (a_stack a) (a_mem a)) eq_refl eq_refl eq_refl)
    as (pc & Hrun & Hl).
  eexists. split; [exact Hrun|]. by split_and!.
Qed.

Lemma reaches_after argc argv s s' c :
  runs_linked limit base ls s s' → reaches argc argv s' c → reaches argc argv s c.
Proof.
  intros Hrun. destruct c as [[fs st|st|] m]; simpl.
  - intros (s2 & Hrun' & Hm). exists s2. split; [by etrans|done].
  - intros (s2 & Hrun' & Hm). exists s2. split; [by etrans|done].
  - intros (s2 & Hrun' & Hm). exists s2. split; [by etrans|done].
Qed.

(** The innermost frame has its lines and can be anywhere in its body; at the
    end of them the machine returns as the program does. *)
Lemma resumes_site m ops i fs pc :
  resumes m (mk_frame ops i :: fs) pc → ∃ head_ tail_ prefix name start chunks,
    placed head_ tail_ prefix name ops start chunks ∧ pc = (start + pc_of chunks i)%nat ∧
    (calls_linked (words g) ops ∧ symbols_defined ops) ∧ (∀ j, resumes m (mk_frame ops j :: fs) (start + pc_of chunks j)%nat) ∧
    ∀ argc argv st m' a, a_mem a = m →
      matches argc argv (mk_frame ops (length ops) :: fs) st m' (start + pc_of chunks (length ops))%nat a →
      reaches argc argv ((start + pc_of chunks (length ops))%nat, a) (returned fs st, m').
Proof.
  inversion 1 as [? start chunks Hmain|? ? name w start chunks pc' Hw Hk Hf Hfs Hpc Haddr]; subst.
  - eexists _, _, _, _, start, chunks. split_and!; [exact Hmain|done|apply Hlayout|apply Hlayout|intros j; by constructor|].
    intros argc argv st m' a <- [Hok Hst Hroom Hfr Hd Hargc Hargv Hheap]. by apply exit_simulates.
  - eexists _, _, _, _, start, chunks.
    split_and!; [exact Hf|done|by eapply function_calls|by eapply function_defined|intros j; by eapply R_function|].
    intros argc argv st m' a <- Hm. destruct (return_simulates _ _ _ _ _ _ _ _ _ _ _ _ Hf Hfs Hpc Haddr Hm) as (a' & Hr & Hm').
    destruct fs as [|f fs]; [inversion Hfs|]. by exists (pc', a').
Qed.

Lemma agrees_store_both n m m' p v : agrees m m' → agrees (store n m p v) (store n m' p v).
Proof.
  revert m m' p v. induction n as [|n IH]; intros m m' p v Hm; unfold store; fold store; [done|].
  apply IH. intros y Hy. destruct (y =? p); [done|by apply Hm].
Qed.

Lemma observe_simulates argc argv ops i op fs st m st' m' pc a :
  matches argc argv (mk_frame ops i :: fs) st m pc a → ops !! i = Some op →
  observe limit base ls argc argv op st m = Some (st', m') →
  within limit base (Running (mk_frame ops (S i) :: fs) st') →
  ∃ pc' a', runs_linked limit base ls (pc, a) (pc', a') ∧
    matches argc argv (mk_frame ops (S i) :: fs) st' m' pc' a'.
Proof.
  intros Hm Hop Hobs Hroom'. pose proof Hm as [Hok Hst Hroom Hfr Hd Hargc Hargv Hheap].
  destruct (resumes_site _ _ _ _ _ Hfr) as (h & t & prefix & nm & start & chunks & Hplaced & -> & [_ Hdef] & Hsame & _).
  destruct (operation_lines _ _ _ _ _ _ _ Hplaced _ _ Hop) as (l & code & pre & post & Hemit & Hls & Hrun).
  destruct (observe_exec _ _ _ _ _ _ _ _ _ _ _ _ _ _ _ Hobs (Forall_lookup_1 _ _ _ _ Hdef Hop) Hemit Hm) as (Hs & a' & Hexec & Hok' & Hst' & Hmem).
  destruct (Hrun a) as [Hr Hlen]. exists (start + pc_of chunks (S i))%nat, a'. split.
  { etrans; [exact Hr|]. rewrite <-Hlen. by eapply runs_linked_straight. }
  destruct Hmem as [[Hma ->]|(p & n & v & Hma & -> & Hout)]; [by eapply matches_same|].
  split; try done; rewrite ?Hma; simpl length in *; rewrite ?load_store_other by (places; lia); try done.
  - apply (resumes_ext (a_mem a)); [apply Hsame|]. intros d Hd'. apply load_store_other.
    destruct Hroom as [Hdepth _]. simpl in Hd', Hdepth. places. lia.
  - by apply agrees_store_both.
Qed.

Lemma step_call ws arguments ops i op fs st c :
  ops !! i = Some op → op_kind op = OpKind.Call_Symbol →
  step ws arguments (Running (mk_frame ops i :: fs) st) c →
  ∃ name w, op_word op = Some name ∧ ws !! name = Some w ∧
    c = Running (mk_frame (w_function_body w) 0 :: mk_frame ops (S i) :: fs) st.
Proof.
  intros Hop Hk Hstep. inversion Hstep as
    [? ? o ? ? Ho Ho'|? ? o ? ? ? Ho Ho' Ha|? ? o ? ? Ho [Ho'|Ho']|? ? o ? st1 z Ho [Ho'|Ho']
    |? ? o ? ? Ho [Ho'|Ho']|? ? o ? ? nm w Ho Ho' Hname Hw|? ? o ? ? Ho Ho'|? ? ? ? Ho
    |? ? o ? ? f st' Ho Ho' Hf Hf'|? ? o ? ? f Ho Ho' Hf Hf'
    |? ? o ? ? taken left res Ho Ho' Henv Htaken Hres Hu]; subst; rewrite Hop in Ho; simplify_eq;
    try (rewrite Hk in Ho'; done). eauto.
Qed.

Lemma quiet_simulates argc argv fs st m pc a c :
  matches argc argv fs st m pc a → quiet (Running fs st) → step (words g) (λ _, None) (Running fs st) c →
  within limit base c → reaches argc argv (pc, a) (c, m).
Proof.
  intros Hm Hquiet Hstep Hroom'. pose proof Hm as [Hok Hst Hroom Hfr Hd Hargc Hargv Hheap].
  destruct fs as [|[ops i] fs]; [inversion Hfr|].
  destruct (resumes_site _ _ _ _ _ Hfr) as (h & t & prefix & nm & start & chunks & Hplaced & -> & [Hcalls _] & Hsame & Hend).
  destruct (decide (op_kind <$> ops !! i = Some OpKind.Call_Symbol)) as [Hcall|Hcall].
  { destruct (ops !! i) as [op|] eqn:Hop; [|done]. injection Hcall as Hk.
    destruct (step_call _ _ _ _ _ _ _ _ Hop Hk Hstep) as (n & w & Hn & Hw & ->).
    destruct (proj1 (Forall_lookup _ _) Hcalls _ _ Hop Hk) as [_ Hlink]. destruct (Hlink n w Hn Hw) as [Hid Hwk].
    eapply call_simulates; [exact Hplaced|done|exact Hw|done|apply Hsame|done|done|done|done]. }
  assert (∀ op, ops !! i = Some op → local op) as Hlocal.
  { intros op Hop. destruct (Hquiet op Hop) as [?|Hk]; [done|]. by rewrite Hop in Hcall; simpl in Hcall; rewrite Hk in Hcall. }
  destruct (local_simulates _ _ _ _ _ _ _ Hplaced _ _ i fs st c a Hlocal Hok Hst Hstep)
    as [(i' & st' & a' & -> & Hr & Hok' & Hst' & Hma)|[(a' & -> & Hr & Hok' & Hst' & Hma)|[-> Hf]]]; [| |done].
  { eexists. split; [exact Hr|]. by eapply matches_same. }
  eapply reaches_after; [exact Hr|]. apply Hend; [done|]. eapply matches_same; [exact Hm|done..|apply Hsame].
Qed.

Lemma program_step_simulates argc argv fs st m s c :
  matches argc argv fs st m s.1 s.2 →
  program_step limit base ls (words g) argc argv (Running fs st, m) c → reaches argc argv s c.
Proof.
  destruct s as [pc a]. cbn [fst snd]. intros Hm Hstep.
  inversion Hstep as [? c' ? Hquiet Hs Hroom|ops i op fs' ? st' ? m' Hop Hobs Hroom
    |ops i op fs' st' ? name w Hop Hk Hint Hw Hwk Hlab Hroom]; subst.
  - by eapply quiet_simulates.
  - destruct (observe_simulates _ _ _ _ _ _ _ _ _ _ _ _ Hm Hop Hobs Hroom) as (pc' & a' & Hr & Hm').
    by exists (pc', a').
  - destruct (resumes_site _ _ _ _ _ (match_frames _ _ _ _ _ _ _ Hm))
      as (h & t & prefix & nm & start & chunks & Hplaced & -> & _ & Hsame & _).
    eapply call_pointer_simulates; [exact Hplaced|done|exact Hw|done|apply Hsame|done|done|done|done].
Qed.

Lemma program_steps_simulate argc argv s c c' :
  program_steps limit base ls (words g) argc argv c c' → reaches argc argv s c → reaches argc argv s c'.
Proof.
  induction 1 as [c|c c1 c2 Hstep Hsteps IH]; [done|]. intros Hs. apply IH.
  destruct c as [[fs st|st|] m]; [|by inversion Hstep; subst; match goal with H : step _ _ _ _ |- _ => inversion H end..].
  destruct Hs as (s' & Hrun & Hm). eapply reaches_after; [exact Hrun|]. by eapply program_step_simulates.
Qed.

(** ** The start of the program *)

(** The machine the system starts: the number of arguments on top of the stack,
    the reserved memory zero and the data of the file in its place. *)
Record starts (argc : Z) (st : list Z) (s : nat * amachine) : Prop := {
  start_line : find_label ls "_start" = Some s.1;
  start_ok : amachine_ok s.2;
  start_stack : a_stack s.2 = argc :: st;
  start_room : within limit base (Running [mk_frame (main g) 0] st);
  start_zero : ∀ x, bss (ls := ls) <= x < bss (ls := ls) + total_size reserved_bytes ls → a_mem s.2 x = 0;
  start_data : ∀ (k : nat) v, (ls ≫= data_bytes) !! k = Some v → a_mem s.2 (rodata (ls := ls) + Z.of_nat k) = v;
}.

(** The variables of the emitted code are a part of the reserved memory. *)
Lemma control_reserved : control_size <= total_size reserved_bytes ls.
Proof.
  destruct (control_laid_out Hlayout) as [post ->]. rewrite total_size_app.
  pose proof (total_size_nonneg reserved_bytes post reserved_bytes_nonneg). unfold control_size.
  change (total_size reserved_bytes control_lines) with 8216. lia.
Qed.

Lemma load_zero n m a : (∀ x, a <= x < a + Z.of_nat n → m x = 0) → load n m a = 0.
Proof.
  intros Hm. rewrite (load_ext n m (λ _, 0) a) by done. clear Hm. revert a. induction n as [|n IH]; intros a; [done|].
  unfold load. fold load. by rewrite IH.
Qed.

Lemma start_depth argc st s : starts argc st s → load 8 (a_mem s.2) callptr = 0.
Proof.
  intros [_ _ _ _ Hz _]. apply load_zero. intros x Hx. apply Hz. pose proof control_reserved. places. lia.
Qed.

Lemma start_exec argc st a :
  amachine_ok a → a_stack a = argc :: st →
  exec_linked_all limit base ls (instrs (drop 1 start_code)) a =
    Some (Ok (mk_amachine (set_reg RAX argc (a_cpu a)) st
      (store 8 (store 8 (a_mem a) (symbol "_stacky_argc") argc) (symbol "_stacky_argv") (stack_pointer base st)))).
Proof.
  intros Hok Hst. cbn [drop start_code instrs omap list_omap tabbed exec_linked_all exec_linked exec_abstract].
  rewrite Hst. variable_values. rewrite write_control by (places; lia). cbn [a_cpu a_stack a_mem].
  by rewrite write_control by (places; lia).
Qed.

Lemma start_simulates argc st s :
  starts argc st s →
  reaches argc (stack_pointer base st) s (Running [mk_frame (main g) 0] st, a_mem s.2).
Proof.
  destruct s as [pc a]. intros Hstarts. pose proof (start_depth _ _ _ Hstarts) as Hd.
  destruct Hstarts as [Hline Hok Hst Hroom _ _]. cbn [fst snd] in *.
  destruct (main_laid_out Hlayout) as (start & chunks & Hmain).
  pose proof Hmain as [_ _ (pre & post & Hls & Hstart)].
  assert (find_label ls "_start" = Some (length pre + 1)%nat) as Hline'.
  { eapply find_label_in; [exact Hls|done|done]. }
  assert (pc = (length pre + 1)%nat) as -> by congruence.
  pose proof (start_exec argc st a Hok Hst) as Hexec.
  pose proof Hok as (Hcpu & Hvals & Hbytes). rewrite Hst in Hvals. apply Forall_cons in Hvals as [Hargc Hvals].
  eexists (start, _). split.
  - replace (length pre + 1)%nat with (length (pre ++ take 1 start_code)) by (rewrite length_app; done).
    replace start with (length (pre ++ take 1 start_code) + length (drop 1 start_code))%nat
      by (rewrite Hstart, !length_app; simpl; lia).
    eapply runs_linked_straight; [|done|exact Hexec]. by rewrite Hls, <-app_assoc, (app_assoc (take 1 _)), take_drop.
  - split; cbn [fst snd a_mem a_stack a_cpu]; try done.
    + apply amachine_ok_intro; [by apply set_reg_ok|done|by apply store_bytes_ok, store_bytes_ok].
    + replace start with (start + pc_of chunks 0)%nat by (unfold pc_of; simpl; lia). by constructor.
    + rewrite !load_store_other by (places; lia). done.
    + rewrite load_store_other by (places; lia). by apply load_store_word.
    + apply load_store_word. by eapply stack_pointer_u64.
    + apply agrees_store; [apply agrees_store; [done|places; lia..]|places; lia..].
Qed.

End Program.

(** ** The layout of a generated file *)

Lemma generate_functions_part jump_targets entries name w : ∀ l fs,
  generate_functions jump_targets entries = (l, Done fs) → (name, w) ∈ entries → w_kind w = WordKind.Function →
  ∃ pre post chunks,
    fs = pre ++ function_prologue name w ++ body_lines (function_prefix (w_id w)) (w_function_body w) chunks
      ++ emit_return ++ post ∧
    chunks_of jump_targets (function_prefix (w_id w)) name (length (w_function_body w)) 0 (w_function_body w) chunks.
Proof.
  induction entries as [|[name' w'] entries IH]; intros l fs; cbn [generate_functions]; [by intros _ ?%elem_of_nil|].
  intros H Hin Hk. apply elem_of_cons in Hin. case_decide as Hk'.
  { destruct Hin as [[= <- <-]|Hin]; [done|]. by eapply IH. }
  apply bind_Done in H as (? & code & ? & Hcode & H & _). apply bind_Done in H as (? & rest & ? & Hrest & Heq & _).
  assert (fs = code ++ rest) as -> by (by injection Heq). destruct Hin as [[= <- <-]|Hin].
  - unfold generate_function in Hcode. apply bind_Done in Hcode as (? & body & ? & Hbody & Heq' & _).
    assert (code = function_prologue name w ++ body ++ emit_return) as -> by (by injection Heq').
    destruct (generate_loop_chunks _ _ _ _ _ _ _ _ Hbody) as (chunks & Hch & ->).
    exists [], rest, chunks. split; [|done].
    unfold body_lines, end_label. by rewrite app_nil_l, <-!app_assoc.
  - destruct (IH _ _ Hrest Hin Hk) as (pre & post & chunks & -> & Hch).
    exists (code ++ pre), post, chunks. split; [by rewrite <-app_assoc|done].
Qed.

(** What the operation refers to, if it pushes a symbol, is an array, a string or
    a function of the program.  Strings are told apart by the kind of the
    token. *)
Definition symbol_known (ws : Words) (ss : gmap string Z) (op : Operation) : Prop :=
  op_kind op = OpKind.Push_Symbol →
  if decide (tok_kind (op_token op) = TokKind.String) then
    op_symbol_prefix op = String_Prefix ∧ op_ival op = tok_ival (op_token op) ∧ ∃ s, ss !! s = Some (op_ival op)
  else ∃ name w, ws !! name = Some w ∧ w_id w = op_ival op ∧
    (op_symbol_prefix op = Symbol_Prefix ∧ w_kind w = WordKind.Array ∨
     op_symbol_prefix op = Function_Prefix ∧ w_kind w = WordKind.Function).

(** A program code can be generated for: the entries have every word once and
    the strings are listed, jumps have labels, calls lead to functions and
    symbols are defined. *)
Record linkable (g : Generation_Info) (entries : list (string * Word)) (strings_ : list (string * Z)) : Prop := {
  words_listed : ∀ name w, words g !! name = Some w → (name, w) ∈ entries;
  strings_listed : ∀ s id, strings g !! s = Some id → (s, id) ∈ strings_;
  functions_distinct : NoDup (function_ids entries);
  main_jumps : jumps_labelled (jump_targets_lookup g) "" (main g);
  function_jumps : ∀ name w, words g !! name = Some w → w_kind w = WordKind.Function →
    jumps_labelled (jump_targets_lookup g) name (w_function_body w);
  main_linked : calls_linked (words g) (main g);
  functions_linked : ∀ name w, words g !! name = Some w → w_kind w = WordKind.Function →
    calls_linked (words g) (w_function_body w);
  main_symbols : Forall (symbol_known (words g) (strings g)) (main g);
  functions_symbols : ∀ name w, words g !! name = Some w → w_kind w = WordKind.Function →
    Forall (symbol_known (words g) (strings g)) (w_function_body w);
}.

(** The lines of the header that define arrays and strings. *)
Lemma array_line name w entries :
  (name, w) ∈ entries → w_kind w = WordKind.Array →
  Data (Reserve tab (Symbol_Prefix +:+ to_string (w_id w)) " " S8 (w_byte_size w)) ∈ array_lines entries.
Proof. intros Hin Hk. apply list_elem_of_omap. exists (name, w). by rewrite decide_True. Qed.

Lemma string_line s id strings_ :
  (s, id) ∈ strings_ →
  Data (Bytes (String_Prefix +:+ to_string id) ((schar <$> chars s) ++ [0])) ∈ string_lines strings_.
Proof. intros Hin. apply list_elem_of_fmap. by exists (s, id). Qed.

Lemma elem_of_asm_header l entries strings_ :
  l ∈ array_lines entries ∨ l ∈ string_lines strings_ → l ∈ asm_header entries strings_.
Proof. unfold asm_header. rewrite !elem_of_app. tauto. Qed.

Lemma function_line g entries strings_ path l ls name w :
  generate_assembly g entries strings_ path true = (l, Done ls) → (name, w) ∈ entries → w_kind w = WordKind.Function →
  Label (function_label (w_id w)) ∈ ls.
Proof.
  intros (l1 & l2 & functions & code & Hf & _ & ->)%generate_assembly_Done Hin Hk.
  destruct (generate_functions_part _ _ name w _ _ Hf Hin Hk) as (pre & post & chunks & -> & _).
  rewrite !elem_of_app. right. left. right. left. right. left.
Qed.

Lemma symbols_known_defined g entries strings_ path l ls ops :
  generate_assembly g entries strings_ path true = (l, Done ls) → linkable g entries strings_ →
  Forall (symbol_known (words g) (strings g)) ops → symbols_defined ls ops.
Proof.
  intros Hgen Hlink Hops. eapply list.Forall_impl; [exact Hops|]. intros op Hop Hk. specialize (Hop Hk).
  pose proof Hgen as (l1 & l2 & functions & code & _ & _ & Hls)%generate_assembly_Done.
  case_decide.
  - destruct Hop as (-> & _ & s & Hs). apply (strings_listed _ _ _ Hlink) in Hs. right. right.
    eapply offset_of_elem; [rewrite Hls; apply elem_of_app; left; apply elem_of_asm_header; right; by eapply string_line|].
    by apply bool_decide_eq_true_2.
  - destruct Hop as (name & w & Hw & <- & Hcase). apply (words_listed _ _ _ Hlink) in Hw.
    destruct Hcase as [[-> Hwk]|[-> Hwk]].
    + right. left.
      eapply offset_of_elem; [rewrite Hls; apply elem_of_app; left; apply elem_of_asm_header; left; by eapply array_line|].
      by apply bool_decide_eq_true_2.
    + left. apply find_label_is_Some. by eapply (function_line _ _ _ _ _ _ _ _ Hgen).
Qed.

Lemma generate_assembly_laid_out g entries strings_ path l ls :
  generate_assembly g entries strings_ path true = (l, Done ls) → linkable g entries strings_ → laid_out g ls.
Proof.
  intros Hgen Hlink. pose proof (λ ops, symbols_known_defined _ _ _ _ _ _ ops Hgen Hlink) as Hdef.
  pose proof (generate_assembly_code_labels _ _ _ _ _ _ (functions_distinct _ _ _ Hlink) Hgen) as Hlabels.
  apply generate_assembly_Done in Hgen as (l1 & l2 & functions & code & Hf & Hc & Hls).
  destruct Hlink as [Hlisted _ _ Hmj Hfj Hml Hfl Hms Hfs].
  split; [| |done|done|by apply Hdef|by intros name w Hw Hk; eapply Hdef, Hfs| |done].
  - destruct (generate_loop_chunks _ _ _ _ _ _ _ _ Hc) as (chunks & Hch & ->).
    eexists _, chunks. split; [done|done|]. exists (asm_header entries strings_ ++ functions), [].
    split; [|reflexivity]. rewrite Hls. unfold body_lines, end_label. by rewrite app_nil_r, <-!app_assoc.
  - intros name w Hw Hk. destruct (generate_functions_part _ _ name w _ _ Hf) as (pre & post & chunks & -> & Hch);
      [by apply Hlisted|done|].
    eexists _, chunks. split; [done|by apply Hfj|].
    exists (asm_header entries strings_ ++ pre), (post ++ start_code ++ code ++ exit_code).
    split; [|reflexivity]. rewrite Hls. by rewrite <-!app_assoc.
  - eexists. rewrite Hls. unfold asm_header. by rewrite <-!app_assoc.
Qed.

(** ** The data of a generated file *)

(** Identifiers and sizes of the arrays, in the order of the file. *)
Definition arrays (entries : list (string * Word)) : list (Z * Z) :=
  omap (λ '(_, w), if decide (w_kind w = WordKind.Array) then Some (w_id w, w_byte_size w) else None) entries.

Definition array_name (id : Z) : string := Symbol_Prefix +:+ to_string id.
Definition string_name (id : Z) : string := String_Prefix +:+ to_string id.

Lemma to_string_inj (z z' : Z) : to_string z = to_string z' → z = z'.
Proof. unfold to_string. by intros ?%(inj _). Qed.

Lemma array_name_inj id id' : array_name id = array_name id' → id = id'.
Proof. unfold array_name. intros H%(inj _). by apply to_string_inj. Qed.

Lemma string_name_inj id id' : string_name id = string_name id' → id = id'.
Proof. unfold string_name. intros H%(inj _). by apply to_string_inj. Qed.

Lemma schar_byte c : schar c mod 2 ^ 8 = ord c.
Proof.
  pose proof (ord_range c). unfold schar, i8, u8. rewrite (Z.mod_small (ord c)) by lia.
  case_match; Z.div_mod_to_equations; lia.
Qed.

Definition array_line_of (e : Z * Z) : line := Data (Reserve tab (array_name e.1) " " S8 e.2).

Lemma array_lines_arrays entries : array_lines entries = array_line_of <$> arrays entries.
Proof.
  unfold array_lines, arrays. induction entries as [|[name w] entries IH]; [done|]. cbn. case_decide; cbn; [f_equal|]; exact IH.
Qed.

Definition string_line_of (e : string * Z) : line := Data (Bytes (string_name e.2) ((schar <$> chars e.1) ++ [0])).

Lemma string_lines_strings strings_ : string_lines strings_ = string_line_of <$> strings_.
Proof. unfold string_lines. apply list_fmap_ext. by intros i [key value] _. Qed.

(** Data is defined in the header only. *)
Lemma generate_assembly_data g entries strings_ path l ls :
  generate_assembly g entries strings_ path true = (l, Done ls) →
  ∃ rest, ls = asm_header entries strings_ ++ rest ∧ Forall no_data rest.
Proof.
  intros (l1 & l2 & functions & code & Hf & Hc & ->)%generate_assembly_Done. eexists. split; [done|].
  repeat (apply Forall_app; split); [|by repeat constructor|by eapply generate_loop_no_data|by repeat constructor].
  clear Hc. revert l1 functions Hf. induction entries as [|[name w] entries IH]; intros l1 functions; cbn [generate_functions].
  { intros [= <- <-]. constructor. }
  case_decide; [by apply IH|]. intros Hg. apply bind_Done in Hg as (? & f & ? & Hf & Hg & _).
  apply bind_Done in Hg as (? & rest & ? & Hrest%IH & [= <- <-] & _). apply Forall_app. split; [|done].
  unfold generate_function in Hf. apply bind_Done in Hf as (? & body & ? & Hbody%generate_loop_no_data & Heq & _).
  assert (f = function_prologue name w ++ body ++ emit_return) as -> by (by injection Heq).
  repeat (apply Forall_app; split); [by repeat constructor|done|by repeat constructor].
Qed.

(** Names of different kinds are different. *)
Lemma data_name_no_label id : ¬ code_label (array_name id) ∧ ¬ code_label (string_name id).
Proof. split; by intros [|[[? ?]|[? [|[? ?]]]]]. Qed.

Section Data.
  Context (g : Generation_Info) (entries : list (string * Word)) (strings_ : list (string * Z)) (path : string).
  Context (l : list Entry) (ls : list line) `{!Linker ls}.
  Context (Hgen : generate_assembly g entries strings_ path true = (l, Done ls)).
  Context (Hids : NoDup (function_ids entries)).

Lemma no_data_label s : ¬ code_label s → find_label ls s = None.
Proof using Hgen Hids.
  intros Hs. destruct (find_label ls s) as [pc|] eqn:Hl; [|done]. destruct Hs. apply find_label_elem in Hl.
  exact (proj1 (list.Forall_forall _ _) (generate_assembly_code_labels _ _ _ _ _ _ Hids Hgen) _ Hl).
Qed.

Lemma array_offset i id n :
  NoDup (arrays entries).*1 → arrays entries !! i = Some (id, n) →
  symbol_value (array_name id) =
    Some (bss (ls := ls) + (control_size + total_size reserved_bytes (array_line_of <$> take i (arrays entries)))).
Proof using Hgen Hids.
  intros Hnd Hi. unfold symbol_value. rewrite no_data_label by apply data_name_no_label.
  destruct (generate_assembly_data _ _ _ _ _ _ Hgen) as (rest & Hls & _).
  assert (ls = control_lines ++ (array_line_of <$> take i (arrays entries)) ++ array_line_of (id, n) ::
    (array_line_of <$> drop (S i) (arrays entries)) ++ [Text "segment .rodata"] ++ string_lines strings_ ++ [Text "segment .text"] ++ rest) as Hsplit.
  { rewrite Hls. unfold asm_header. rewrite array_lines_arrays. rewrite <-(take_drop_middle _ _ _ Hi) at 1.
    rewrite fmap_app, fmap_cons, <-!app_assoc. cbn [app]. by rewrite <-?app_assoc. }
  assert (offset_of (reserves (array_name id)) reserved_bytes ls =
    Some (control_size + total_size reserved_bytes (array_line_of <$> take i (arrays entries)))) as ->; [|done].
  rewrite Hsplit, offset_of_app by by repeat constructor. rewrite offset_of_app.
  - cbn [offset_of reserves array_line_of fst]. rewrite bool_decide_eq_true_2 by done. cbn.
    f_equal. unfold control_size. change (total_size reserved_bytes control_lines) with 8216. lia.
  - apply Forall_fmap, list.Forall_forall. intros [id' n'] Hin. cbn. apply bool_decide_eq_false_2.
    intros ->%array_name_inj. rewrite <-(take_drop_middle _ _ _ Hi), fmap_app, fmap_cons in Hnd.
    apply NoDup_app in Hnd as (_ & Hd & _). apply (Hd id); [|left]. apply list_elem_of_fmap. by exists (id, n').
Qed.

Lemma arrays_reserved i :
  control_size + total_size reserved_bytes (array_line_of <$> take i (arrays entries)) <= total_size reserved_bytes ls.
Proof using Hgen.
  destruct (generate_assembly_data _ _ _ _ _ _ Hgen) as (rest & Hls & _). rewrite Hls. unfold asm_header.
  rewrite array_lines_arrays. rewrite <-(take_drop i (arrays entries)) at 2. rewrite fmap_app, <-!app_assoc, !total_size_app.
  change (total_size reserved_bytes control_lines) with 8216. unfold control_size.
  repeat match goal with |- context [total_size reserved_bytes ?x] =>
    lazymatch goal with H : 0 <= total_size reserved_bytes x |- _ => fail | _ =>
      pose proof (total_size_nonneg reserved_bytes x reserved_bytes_nonneg) end end. lia.
Qed.

Lemma take_arrays_lt i j id n :
  arrays entries !! i = Some (id, n) → (i < j)%nat →
  total_size reserved_bytes (array_line_of <$> take i (arrays entries)) + Z.max 0 n <=
  total_size reserved_bytes (array_line_of <$> take j (arrays entries)).
Proof using.
  intros Hi Hij. rewrite <-(take_drop (S i) (take j (arrays entries))), take_take, Nat.min_l by lia.
  rewrite (take_S_r _ _ _ Hi), !fmap_app, !total_size_app.
  pose proof (total_size_nonneg reserved_bytes (array_line_of <$> drop (S i) (take j (arrays entries))) reserved_bytes_nonneg).
  assert (total_size reserved_bytes (array_line_of <$> [(id, n)]) = Z.max 0 n) by (unfold total_size; cbn; lia). lia.
Qed.

Lemma string_offset i s id :
  NoDup strings_.*2 → strings_ !! i = Some (s, id) →
  symbol_value (string_name id) = Some (rodata (ls := ls) + total_size data_size (string_line_of <$> take i strings_)) ∧
  ∃ tail, ls ≫= data_bytes =
    ((string_line_of <$> take i strings_) ≫= data_bytes) ++ ((ord <$> chars s) ++ [0]) ++ tail.
Proof using Hgen Hids.
  intros Hnd Hi. destruct (generate_assembly_data _ _ _ _ _ _ Hgen) as (rest & Hls & Hrest).
  set (front := control_lines ++ (array_line_of <$> arrays entries) ++ [Text "segment .rodata"]).
  assert (ls = front ++ (string_line_of <$> take i strings_) ++ string_line_of (s, id) ::
    (string_line_of <$> drop (S i) strings_) ++ [Text "segment .text"] ++ rest) as Hsplit.
  { rewrite Hls. unfold asm_header, front. rewrite array_lines_arrays, string_lines_strings.
    rewrite <-(take_drop_middle _ _ _ Hi) at 1. rewrite fmap_app, fmap_cons, <-!app_assoc. cbn [app]. by rewrite <-?app_assoc. }
  assert (Forall (λ l, stores (string_name id) l = false ∧ data_bytes l = []) front) as Hfront.
  { unfold front. repeat (apply Forall_app; split); [by repeat constructor| |by repeat constructor].
    by apply Forall_fmap, list.Forall_forall. }
  assert (∀ ls' : list line, Forall (λ l, stores (string_name id) l = false ∧ data_bytes l = []) ls' →
    ls' ≫= data_bytes = [] ∧ total_size data_size ls' = 0) as Hnone.
  { induction 1 as [|l' ls' [_ Hd] _ [IH1 IH2]]; [done|]. rewrite bind_cons, Hd, IH1. split; [done|].
    unfold total_size in *. cbn. rewrite IH2. unfold data_size. by rewrite Hd. }
  destruct (Hnone _ Hfront) as [Hbytes Hsize]. split.
  - unfold symbol_value. rewrite no_data_label by apply data_name_no_label.
    assert (offset_of (reserves (string_name id)) reserved_bytes ls = None) as ->.
    { destruct (offset_of _ _ ls) as [o|] eqn:Ho; [exfalso|done].
      apply offset_of_split in Ho as (l1 & x & l2 & Hx & Hn & _). assert (x ∈ ls) as Hin by (rewrite Hx; set_solver).
      destruct x as [| | |[indent nm gap u c|]]; try done. cbn in Hn. apply bool_decide_eq_true in Hn.
      rewrite Hls in Hin. unfold asm_header in Hin. rewrite array_lines_arrays, string_lines_strings, !elem_of_app in Hin.
      rewrite !list_elem_of_fmap in Hin. rewrite list.Forall_forall in Hrest.
      destruct Hin as [[Hin|[([id' n'] & [= -> -> -> -> ->] & _)|[Hin|[([? ?] & [=] & _)|Hin]]]]|Hin%Hrest]; [..|done].
      - unfold control_lines in Hin. rewrite !elem_of_cons, elem_of_nil in Hin. naive_solver.
      - discriminate Hn.
      - by apply list_elem_of_singleton in Hin.
      - by apply list_elem_of_singleton in Hin. }
    rewrite Hsplit at 2. rewrite offset_of_app by (eapply list.Forall_impl; [exact Hfront|]; by intros ? []).
    rewrite Hsize, offset_of_app.
    + cbn [offset_of stores string_line_of fst snd]. rewrite bool_decide_eq_true_2 by done. cbn. f_equal. lia.
    + apply Forall_fmap, list.Forall_forall. intros [s' id'] Hin. cbn. apply bool_decide_eq_false_2.
      intros ->%string_name_inj. rewrite <-(take_drop_middle _ _ _ Hi), fmap_app, fmap_cons in Hnd.
      apply NoDup_app in Hnd as (_ & Hd & _). apply (Hd id); [|left]. apply list_elem_of_fmap. by exists (s', id).
  - eexists. rewrite Hsplit at 1. rewrite !bind_app, Hbytes, bind_cons, app_nil_l. f_equal. f_equal.
    cbn [data_bytes string_line_of fst]. rewrite fmap_app, <-list_fmap_compose. f_equal.
    apply list_fmap_ext. intros k c _. apply schar_byte.
Qed.

End Data.

(** ** Properties *)

(** The variables of the emitted code lie outside of the region of the stack,
    which is a part of the memory. *)
Definition regions (limit base : Z) (ls : list line) `{Linker ls} : Prop :=
  0 <= limit ∧ base < 2 ^ 64 ∧ (callstack ls + control_size <= limit ∨ base <= callstack ls).

Lemma generate_assembly_runs limit base g entries strings path l ls `{Linker ls} argc st s c :
  generate_assembly g entries strings path true = (l, Done ls) → linkable g entries strings →
  regions limit base ls → starts limit base g ls argc st s →
  program_steps limit base ls (words g) argc (stack_pointer base st)
    (Running [mk_frame (main g) 0] st, a_mem s.2) c →
  match c with
  | (Running _ st', m) => ∃ s', runs_linked limit base ls s s' ∧ a_stack s'.2 = st' ∧ agrees ls (a_mem s'.2) m
  | (Halted st', m) => ∃ s', runs_linked limit base ls s s' ∧ exits ls st' m s'
  | (Trapped, _) => faults_linked limit base ls s
  end.
Proof.
  intros Hgen Hlink (Hlimit & Hbase & Hcontrol) Hstart Hsteps.
  pose proof (generate_assembly_labels _ _ _ _ _ _ (functions_distinct _ _ _ Hlink) Hgen) as Hnd.
  pose proof (generate_assembly_laid_out _ _ _ _ _ _ Hgen Hlink) as Hlayout.
  pose proof (program_steps_simulate limit base g ls Hnd Hlayout Hlimit Hbase Hcontrol _ _ s _ _ Hsteps
    (start_simulates limit base g ls Hnd Hlayout Hlimit Hbase Hcontrol _ _ _ Hstart)) as Hr.
  destruct c as [[fs st'|st'|] m]; [|done|done]. destruct Hr as (s' & Hrun & Hm). exists s'.
  split_and!; [done|apply Hm|apply Hm].
Qed.

(** Where the data of a program is when it starts.  The arrays lie behind the
    variables of the emitted code, each with its size of zero bytes in front of
    the next; a string has its characters and a zero behind them, outside of
    the reserved memory; and the symbol of a function is the address of its
    label. *)
Record data_placed (entries : list (string * Word)) (strings_ : list (string * Z)) (ls : list line) `{!Linker ls}
    (m : Z → Z) : Prop := {
  arrays_placed : NoDup (arrays entries).*1 → ∀ i id n, arrays entries !! i = Some (id, n) →
    ∃ p, symbol_value (Symbol_Prefix +:+ to_string id) = Some p ∧ callstack ls + control_size <= p ∧
      (∀ x, p <= x < p + n → m x = 0) ∧
      ∀ j id' n', (i < j)%nat → arrays entries !! j = Some (id', n') → p + n <= symbol (Symbol_Prefix +:+ to_string id');
  strings_placed : NoDup strings_.*2 → ∀ s id, (s, id) ∈ strings_ →
    ∃ p, symbol_value (String_Prefix +:+ to_string id) = Some p ∧
      (∀ (k : nat) c, chars s !! k = Some c → m (p + Z.of_nat k) = ord c) ∧ m (p + Z.of_nat (length (chars s))) = 0 ∧
      ∀ x, p <= x <= p + Z.of_nat (length (chars s)) →
        ¬ bss (ls := ls) <= x < bss (ls := ls) + total_size reserved_bytes ls;
  functions_placed : ∀ name w, (name, w) ∈ entries → w_kind w = WordKind.Function →
    ∃ pc, find_label ls (function_label (w_id w)) = Some pc ∧
      symbol_value (Function_Prefix +:+ to_string (w_id w)) = Some (address pc);
}.

Lemma generate_assembly_data_placed limit base g entries strings path l ls `{!Linker ls} argc st s :
  generate_assembly g entries strings path true = (l, Done ls) → linkable g entries strings →
  starts limit base g ls argc st s → data_placed entries strings ls (a_mem s.2).
Proof.
  intros Hgen Hlink [_ _ _ _ Hzero Hdata]. pose proof (functions_distinct _ _ _ Hlink) as Hids.
  pose proof (generate_assembly_laid_out _ _ _ _ _ _ Hgen Hlink) as Hlayout. split.
  - intros Hnd i id n Hi. eexists. split; [by eapply array_offset|].
    pose proof (proj1 (callstack_places g ls Hlayout)) as Hcs.
    pose proof (total_size_nonneg reserved_bytes (array_line_of <$> take i (arrays entries)) reserved_bytes_nonneg) as Hpos.
    pose proof (take_arrays_lt entries i (S i) id n Hi ltac:(lia)) as Hsize.
    pose proof (arrays_reserved _ _ _ _ _ _ Hgen (S i)) as Hend. unfold control_size in *. split_and!; [lia| |].
    + intros x Hx. apply Hzero. lia.
    + intros j id' n' Hij Hj. pose proof (take_arrays_lt entries i j id n Hi Hij).
      unfold symbol. rewrite (array_offset _ _ _ _ _ _ Hgen Hids j id' n' Hnd Hj : symbol_value (Symbol_Prefix +:+ _) = _).
      unfold control_size. simpl. lia.
  - intros Hnd str id [i Hi]%list_elem_of_lookup.
    destruct (string_offset _ _ _ _ _ _ Hgen Hids i str id Hnd Hi) as (Hval & tail & Hbytes).
    eexists. split; [exact Hval|]. rewrite <-length_data. set (front := (string_line_of <$> take i strings) ≫= data_bytes) in *.
    assert (∀ k v, ((ord <$> chars str) ++ [0]) !! k = Some v →
      a_mem s.2 (rodata (ls := ls) + Z.of_nat (length front) + Z.of_nat k) = v) as Hat.
    { intros k v Hk. rewrite <-Z.add_assoc, <-Nat2Z.inj_add. apply Hdata. rewrite Hbytes, lookup_app_r by lia.
      replace (_ + _ - _)%nat with k by lia. by apply lookup_app_l_Some. }
    split_and!.
    + intros k c Hk. apply Hat. apply lookup_app_l_Some. by rewrite list_lookup_fmap, Hk.
    + apply Hat. rewrite lookup_app_r by (by rewrite length_fmap). by rewrite length_fmap, Nat.sub_diag.
    + intros x Hx. pose proof (length_data ls) as Hlen. rewrite Hbytes, !length_app, length_fmap in Hlen. simpl in Hlen.
      pose proof segments_apart as [|]; lia.
  - intros name w Hin Hk. destruct (find_label_is_Some _ _ (function_line _ _ _ _ _ _ _ _ Hgen Hin Hk)) as [pc Hpc].
    exists pc. split; [done|]. unfold symbol_value. unfold function_label in Hpc. by rewrite Hpc.
Qed.

(** C2: The assembly file of a program, assembled, linked and started: its arrays,
    strings and functions are where the symbols of the file say, with their
    sizes and contents (arrays and strings, if their identifiers are distinct),
    and the machine follows the program through calls,
    returns, symbols and memory.  Where the program halts the machine gets to
    the system call that exits with status 0, with the same stack and memory;
    where it divides by zero the machine faults; and every state in between is
    one of the machine.  The steps of the program are those up to a depth of
    1024 calls, within the room of the stack, without system calls and random
    numbers, and with loads and stores outside of the stack and of the
    variables of the emitted code. *)
Theorem generate_assembly_correct limit base g entries strings path l ls `{!Linker ls} argc st s c :
  generate_assembly g entries strings path true = (l, Done ls) → linkable g entries strings →
  regions limit base ls → starts limit base g ls argc st s →
  program_steps limit base ls (words g) argc (stack_pointer base st)
    (Running [mk_frame (main g) 0] st, a_mem s.2) c →
  data_placed entries strings ls (a_mem s.2) ∧
  match c with
  | (Running _ st', m) => ∃ s', runs_linked limit base ls s s' ∧ a_stack s'.2 = st' ∧ agrees ls (a_mem s'.2) m
  | (Halted st', m) => ∃ s', runs_linked limit base ls s s' ∧ exits ls st' m s'
  | (Trapped, _) => faults_linked limit base ls s
  end.
Proof.
  intros Hgen Hlink Hregions Hstart Hsteps.
  split; [by eapply generate_assembly_data_placed|by eapply generate_assembly_runs].
Qed.

(** A program that calls a function that calls another one, stores the number it
    leaves into an array and the first character of a string over its first
    byte. *)
Definition named_op (name : string) (i : Intrinsic_Kind) : Operation :=
  mk_Operation OpKind.Intrinsic (mk_Token no_location TokKind.Word name 0 Keyword.End 0) 0 "" i None
    Empty_Jump "" (Type_of_kind TypeKind.Int) no_location.

Definition array_op : Operation :=
  mk_Operation OpKind.Push_Symbol no_token 3 "" Intrinsic.Add None Empty_Jump Symbol_Prefix
    (Type_of_kind TypeKind.Pointer) no_location.

Definition string_op : Operation :=
  mk_Operation OpKind.Push_Symbol (mk_Token no_location TokKind.String "" 0 Keyword.End 0) 0 "" Intrinsic.Add None Empty_Jump String_Prefix
    (Type_of_kind TypeKind.Pointer) no_location.

Definition swap_op : Operation :=
  mk_Operation OpKind.Intrinsic no_token 0 "" Intrinsic.Swap None Empty_Jump "" (Type_of_kind TypeKind.Int) no_location.

Definition sample_array : Word :=
  mk_Word WordKind.Array 0 Intrinsic.Add 8 3 [] None false (mk_Effect [] []) false no_location "".

Definition calls_words : Words := <["a"%string := sample_array]> (three_functions 0).

Definition calls_program : Generation_Info :=
  mk_Generation_Info {["hi"%string := 0]} calls_words
    [call 0 "f"; array_op; swap_op; named_op "store64" Intrinsic.Store;
     array_op; string_op; named_op "load8" Intrinsic.Load; named_op "store8" Intrinsic.Store] ∅ ∅.

Definition calls_entries : list (string * Word) := map_to_list calls_words.
Definition calls_strings : list (string * Z) := [("hi"%string, 0)].

Definition calls_file : list line :=
  match generate_assembly calls_program calls_entries calls_strings "a.asm" true with
  | (_, Done ls) => ls
  | _ => []
  end.

Lemma calls_file_generated : generate_assembly calls_program calls_entries calls_strings "a.asm" true = ([], Done calls_file).
Proof. vm_compute. reflexivity. Qed.

Definition calls_linker : Linker calls_file.
Proof. apply flat_linker. vm_compute. reflexivity. Defined.

Lemma calls_words_Forall (P : string → Word → Prop) :
  P "a"%string sample_array → map_Forall P (three_functions 0) → map_Forall P calls_words.
Proof. intros Ha Hf. by apply map_Forall_insert_2. Qed.

Lemma calls_linked_mono body : calls_linked (three_functions 0) body →
  Forall (λ op, op_word op ≠ Some "a"%string) body → calls_linked calls_words body.
Proof.
  intros Hl Ha. apply list.Forall_forall. intros op Hop Hk.
  destruct (proj1 (list.Forall_forall _ _) Hl op Hop Hk) as [Ht Hw]. split; [done|]. intros name w Hn Hlook.
  apply (Hw name w Hn). unfold calls_words in Hlook. rewrite lookup_insert_ne in Hlook; [done|].
  intros <-. by apply (proj1 (list.Forall_forall _ _) Ha op Hop).
Qed.

Lemma calls_main_symbols : Forall (symbol_known calls_words {["hi"%string := 0]}) (main calls_program).
Proof.
  repeat (apply Forall_cons; split); try apply Forall_nil_2; try done; intros _; cbn.
  - exists "a"%string, sample_array. split_and!; [done|done|by left].
  - exists "a"%string, sample_array. split_and!; [done|done|by left].
  - split_and!; [reflexivity|reflexivity|]. exists "hi"%string. vm_compute. reflexivity.
Qed.

Lemma calls_linkable : linkable calls_program calls_entries calls_strings.
Proof.
  split.
  - intros name w Hw. by apply elem_of_map_to_list.
  - intros s id Hs. cbn in Hs. rewrite lookup_singleton_Some in Hs. destruct Hs as [<- <-]. by left.
  - apply (bool_decide_unpack _). vm_compute. reflexivity.
  - repeat (constructor; [by intros []|]). constructor.
  - intros name w Hw _. revert name w Hw. apply calls_words_Forall, three_functions_Forall;
      repeat (constructor; [by intros []|]); constructor.
  - apply calls_linked_mono; [simpl; solve_calls_linked|by repeat constructor].
  - intros name w Hw _. revert name w Hw. apply calls_words_Forall; [constructor|].
    apply three_functions_Forall; (apply calls_linked_mono; [simpl; solve_calls_linked|by repeat constructor]).
  - exact calls_main_symbols.
  - intros name w Hw _. revert name w Hw. apply calls_words_Forall; [constructor|].
    apply three_functions_Forall; repeat (apply Forall_cons; split); try apply Forall_nil_2; done.
Qed.

(** The memory with the characters of the string. *)
Definition calls_memory (x : Z) : Z :=
  if x =? 2 ^ 21 then 104 else if x =? 2 ^ 21 + 1 then 105 else 0.

Definition calls_start : nat * amachine :=
  (default 0%nat (find_label calls_file "_start"), mk_amachine sample_cpu [1] calls_memory).

Lemma calls_starts : @starts (2 ^ 39) (2 ^ 40) calls_program calls_file calls_linker 1 [] calls_start.
Proof.
  split; [vm_compute; reflexivity| |done|split; [simpl; lia|simpl; lia]| |].
  - split_and!; [by repeat split|by repeat constructor|]. intros x. simpl. unfold calls_memory. repeat case_match; lia.
  - intros x Hx. change (bss (ls := calls_file)) with (2 ^ 22) in Hx. simpl. unfold calls_memory.
    rewrite !(proj2 (Z.eqb_neq _ _)) by lia. done.
  - assert (calls_file ≫= data_bytes = [104; 105; 0]) as -> by (vm_compute; reflexivity).
    intros [|[|[|k]]] v [= <-]; reflexivity.
Qed.

(** A step of a concrete program, by the rule for its operation. *)
Ltac quiet_step rule :=
  eapply rtc_l; [eapply P_quiet;
    [intros op Hop; vm_compute in Hop; simplify_eq;
      (left; exact I) || (left; eexists; reflexivity) || (by right)
    |eapply rule; reflexivity
    |(split; simpl; lia) || exact I]|].

(** The array lies behind the variables. *)
Definition calls_array : Z := 2 ^ 22 + control_size.

Lemma generate_assembly_correct_witness :
  let m := store 1 (store 8 calls_memory calls_array 7) calls_array 104 in
  @data_placed calls_entries calls_strings calls_file calls_linker calls_memory ∧
  ∃ s', @runs_linked (2 ^ 39) (2 ^ 40) calls_file calls_linker calls_start s' ∧
    @exits calls_file calls_linker [] m s'.
Proof.
  intros m.
  apply (@generate_assembly_correct (2 ^ 39) (2 ^ 40) calls_program calls_entries calls_strings "a.asm" []
    calls_file calls_linker 1 [] calls_start (Halted [], m)).
  - apply calls_file_generated.
  - apply calls_linkable.
  - split_and!; [lia|lia|]. left. vm_compute. discriminate.
  - apply calls_starts.
  - quiet_step S_call. quiet_step S_call. quiet_step S_push_int. quiet_step S_end. quiet_step S_end.
    eapply rtc_l; [eapply P_observe; [reflexivity|vm_compute; reflexivity|split; simpl; lia]|].
    quiet_step S_intrinsic. eapply rtc_l; [eapply P_observe; [reflexivity|vm_compute; reflexivity|split; simpl; lia]|].
    do 4 (eapply rtc_l; [eapply P_observe; [reflexivity|vm_compute; reflexivity|split; simpl; lia]|]).
    quiet_step S_end. apply rtc_refl.
Defined.

(** C14: What a call does to the call stack, in the file of a program: with [d]
    calls on it and room for one more, which there is for 1024 of them, the
    return address goes from the stack to the next slot and the pointer counts
    the call; with 1024 calls on it the return address overwrites the pointer,
    which lies behind the last slot. *)
Theorem call_stack_overflow limit base g entries strings path l ls `{!Linker ls} name w d a ret st :
  generate_assembly g entries strings path true = (l, Done ls) → linkable g entries strings →
  regions limit base ls → words g !! name = Some w → w_kind w = WordKind.Function →
  amachine_ok a → a_stack a = ret :: st → load 8 (a_mem a) (symbol "_stacky_callptr") = Z.of_nat d → (d ≤ 1024)%nat →
  ∃ pc start chunks a', find_label ls (function_label (w_id w)) = Some pc ∧ function_placed g ls name w start chunks ∧
    runs_linked limit base ls (pc, a) (start, a') ∧ a_stack a' = st ∧
    if decide (d < 1024)%nat then
      load 8 (a_mem a') (symbol "_stacky_callptr") = Z.of_nat d + 1 ∧
      load 8 (a_mem a') (symbol "_stacky_callstack" + 8 * Z.of_nat d) = ret
    else load 8 (a_mem a') (symbol "_stacky_callptr") = u64 (ret + 1).
Proof.
  intros Hgen Hlink (Hlimit & Hbase & Hcontrol) Hw Hk Hok Hst Hptr Hd.
  pose proof (generate_assembly_labels _ _ _ _ _ _ (functions_distinct _ _ _ Hlink) Hgen) as Hnd.
  pose proof (generate_assembly_laid_out _ _ _ _ _ _ Hgen Hlink) as Hlayout.
  destruct (functions_laid_out _ _ Hlayout name w Hw Hk) as (start & chunks & Hf).
  pose proof (proj1 (callstack_places g ls Hlayout)) as Hcs. pose proof (proj1 (callptr_places g ls Hlayout)) as Hcp.
  destruct (decide (d < 1024)%nat) as [Hlt|Hlt].
  - destruct (prologue_exec limit base g ls Hlayout Hcontrol name w a d ret st Hlt Hptr Hok Hst) as (c & _ & Hexec).
    destruct (entry_runs limit base g ls Hnd _ _ _ _ _ _ Hf Hexec) as (pc & Hpc & Hrun).
    exists pc, start, chunks. eexists. split_and!; [done|done|exact Hrun|done| |]; cbn [a_mem].
    + rewrite load_store_word by (unfold is_u64; lia). lia.
    + unfold call_slot. fold (callstack ls). destruct Hok as (_ & Hvals & _). rewrite Hst in Hvals.
      apply Forall_cons in Hvals as [Hret _]. rewrite load_store_other by lia. by apply load_store_word.
  - assert (d = 1024%nat) as -> by lia.
    destruct (prologue_overflow limit base g ls Hlayout Hcontrol name w a ret st Hptr Hok Hst) as (a' & Hexec & Hst' & Hload).
    destruct (entry_runs limit base g ls Hnd _ _ _ _ _ _ Hf Hexec) as (pc & Hpc & Hrun). by exists pc, start, chunks, a'.
Qed.

Lemma call_stack_overflow_witness :
  let _ := calls_linker in
  let a := mk_amachine sample_cpu [5000] (store 8 calls_memory (symbol "_stacky_callptr") 1024) in
  ∃ pc start chunks a', find_label calls_file (function_label 1) = Some pc ∧
    function_placed calls_program calls_file "g" (function 1 [push_seven] "g") start chunks ∧
    runs_linked (2 ^ 39) (2 ^ 40) calls_file (pc, a) (start, a') ∧ a_stack a' = [] ∧
    load 8 (a_mem a') (symbol "_stacky_callptr") = 5001.
Proof.
  intros linker a.
  apply (call_stack_overflow (2 ^ 39) (2 ^ 40) calls_program calls_entries calls_strings "a.asm" [] calls_file "g"
    (function 1 [push_seven] "g") 1024 a 5000 []).
  - apply calls_file_generated.
  - apply calls_linkable.
  - split_and!; [lia|lia|left; vm_compute; discriminate].
  - done.
  - done.
  - split_and!; [by repeat split|by repeat constructor|]. apply store_bytes_ok. apply calls_starts.
  - done.
  - apply load_store_word. by unfold is_u64.
  - lia.
Defined.
