(* ===== verification/TypedCode.v ===== *)
(** * Well-typed programs on the machine

    The program semantics with a memory is a case of the reference semantics,
    and a program the type checker accepts never gets stuck in it: the machine
    that runs its assembly goes on until it exits, faults, or reaches one of the
    limits the type checker does not see. *)

From S2P Require Import Prelude Syntax Errors Crossref Types Semantics TypeSound Machine Codegen BodyCode.
From S2P Require Import Labels Linking Unused ProgramCode.

Open Scope Z_scope.

Section Typed.
  Context (limit base : Z) (ls : list line) `{Linker ls} (ws : Words) (argc argv : Z).
  Context (Hlimit : 0 <= limit) (Hbase : base < 2 ^ 64) (Hargc : is_u64 argc) (Hargv : is_u64 argv).

(** ** The reference semantics *)

Lemma quiet_step arguments arguments' c c' : quiet c → step ws arguments c c' → step ws arguments' c c'.
Proof.
  intros Hq Hstep. destruct Hstep as
    [| | | | | | | | | |body i op fs st taken left res Hop Hk Henv Htaken Hres Hu];
    try by econstructor.
  destruct (Hq _ Hop) as [Hl|Hl]; [|congruence]. unfold local in Hl. rewrite Hk in Hl. destruct Hl as [f Hf].
  by destruct (op_intrinsic op).
Qed.

Lemma observe_step arguments body i op fs st m st' m' :
  body !! i = Some op → observe limit base ls argc argv op st m = Some (st', m') → bytes_ok m →
  within limit base (Running (mk_frame body i :: fs) st) →
  step ws arguments (Running (mk_frame body i :: fs) st) (Running (mk_frame body (S i) :: fs) st') ∧ bytes_ok m'.
Proof.
  intros Hop Hobs Hm Hroom. unfold observe in Hobs. destruct (op_kind op) eqn:Hk; try done.
  2: { injection Hobs as <- <-. split; [|done]. eapply S_push_symbol; [done|done|apply symbol_u64]. }
  assert (∀ taken res m1, environment_intrinsic (op_intrinsic op) (arguments op) = Some (taken, length res) →
    (taken ≤ length st)%nat → Forall is_u64 res → bytes_ok m1 →
    step ws arguments (Running (mk_frame body i :: fs) st)
      (Running (mk_frame body (S i) :: fs) (res ++ drop taken st)) ∧ bytes_ok m1) as Henv.
  { intros taken res m1 He Ht Hr Hm1. split; [|done]. by eapply S_environment. }
  destruct (op_intrinsic op); try done.
  - destruct st as [|p st]; [done|]. destruct (named_size 4 op) as [z|]; [|done]. cbn [mbind option_bind] in Hobs.
    case_match; [|done]. injection Hobs as <- <-.
    apply (Henv 1%nat [load (bytes z) m p]); [done|simpl; lia| |done]. constructor; [|done].
    pose proof (load_range (bytes z) m p Hm) as Hr.
    assert (2 ^ (8 * Z.of_nat (bytes z)) <= 2 ^ 64) by (by destruct z). unfold is_u64. lia.
  - destruct st as [|v [|p st]]; [done|done|]. destruct (named_size 5 op) as [z|]; [|done]. cbn [mbind option_bind] in Hobs.
    case_match; [|done]. injection Hobs as <- <-.
    apply (Henv 2%nat []); [done|simpl; lia|done|by apply store_bytes_ok].
  - injection Hobs as <- <-. apply (Henv 0%nat [stack_pointer base st]); [done|lia| |done].
    constructor; [|done]. by eapply stack_pointer_u64.
  - injection Hobs as <- <-. by apply (Henv 0%nat [argv]); [done|lia|constructor|].
  - injection Hobs as <- <-. by apply (Henv 0%nat [argc]); [done|lia|constructor|].
Qed.

(** ** Progress *)

(** What the type checker does not see: the depth of calls and the height of
    the stack, values of the system, and accesses to memory by address. *)
Definition at_limit (c : config) (m : Z → Z) : Prop :=
  (∃ c', step ws syscall_arguments c c' ∧ ¬ within limit base c') ∨
  match c with
  | Running (mk_frame body i :: _) st => ∃ op, body !! i = Some op ∧ op_kind op = OpKind.Intrinsic ∧
      match op_intrinsic op with
      | Intrinsic.Random32 | Intrinsic.Random64 | Intrinsic.Syscall => True
      | Intrinsic.Load | Intrinsic.Store => observe limit base ls argc argv op st m = None
      | _ => False
      end
  | _ => False
  end.

#[local] Instance within_dec c : Decision (within limit base c).
Proof. destruct c; simpl; apply _. Defined.

Lemma quiet_progress c c' m :
  quiet c → step ws syscall_arguments c c' →
  (∃ s, program_step limit base ls ws argc argv (c, m) s) ∨ at_limit c m.
Proof.
  intros Hq Hstep. destruct (decide (within limit base c')) as [Hw|Hw].
  - left. exists (c', m). apply P_quiet; [done|by eapply quiet_step|done].
  - right. left. by exists c'.
Qed.

Lemma observe_progress body i op fs st m st' m' :
  body !! i = Some op → observe limit base ls argc argv op st m = Some (st', m') → bytes_ok m →
  within limit base (Running (mk_frame body i :: fs) st) →
  (∃ s, program_step limit base ls ws argc argv (Running (mk_frame body i :: fs) st, m) s) ∨
  at_limit (Running (mk_frame body i :: fs) st) m.
Proof.
  intros Hop Hobs Hm Hroom. destruct (decide (within limit base (Running (mk_frame body (S i) :: fs) st'))) as [Hw|Hw].
  - left. eexists. by eapply P_observe.
  - right. left. eexists. split; [|exact Hw]. by eapply observe_step.
Qed.

Lemma step_progress c c' m :
  step ws syscall_arguments c c' → bytes_ok m → within limit base c →
  (∃ s, program_step limit base ls ws argc argv (c, m) s) ∨ at_limit c m.
Proof.
  intros Hstep Hm Hroom. pose proof Hstep as Hstep'. destruct Hstep as
    [|body i op fs st v Hop Hk Hv|body i op fs st Hop Hk|body i op fs st c Hop Hk|body i op fs st Hop Hk| | | | |
    |body i op fs st taken left res Hop Hk Henv Htaken Hres Hu];
    try (eapply quiet_progress; [|exact Hstep']; intros op' Hop'; simplify_eq; unfold local;
      match goal with H : op_kind _ = _ |- _ => rewrite H | H : _ ∨ _ |- _ => destruct H as [-> | ->] end; by eauto).
  - eapply observe_progress; [done| |done|done]. unfold observe. by rewrite Hk.
  - unfold environment_intrinsic in Henv.
    assert (∀ o, observe limit base ls argc argv op st m = Some o →
      (∃ s, program_step limit base ls ws argc argv (Running (mk_frame body i :: fs) st, m) s) ∨
      at_limit (Running (mk_frame body i :: fs) st) m) as Hobs.
    { intros [st' m'] Ho. by eapply observe_progress. }
    assert (∀ P, match op_intrinsic op with
      | Intrinsic.Random32 | Intrinsic.Random64 | Intrinsic.Syscall => True
      | Intrinsic.Load | Intrinsic.Store => observe limit base ls argc argv op st m = None
      | _ => False end → P ∨ at_limit (Running (mk_frame body i :: fs) st) m) as Hlim.
    { intros P Hi. right. right. by exists op. }
    destruct (observe limit base ls argc argv op st m) as [o|] eqn:Ho; [by apply (Hobs o)|].
    unfold observe in Ho. rewrite Hk in Ho. apply Hlim. by destruct (op_intrinsic op).
Qed.

(** ** Reachable states *)

Context (fuel : nat) (main : list Operation) (Htyped : typechecked fuel ws main).
Context (Hmain : calls_functions ws main) (Hall : all_calls_functions ws).

Lemma program_steps_refine m c m' :
  program_steps limit base ls ws argc argv (Running [mk_frame main 0] [], m) (c, m') →
  bytes_ok m → within limit base (Running [mk_frame main 0] []) →
  steps ws syscall_arguments (Running [mk_frame main 0] []) c ∧ bytes_ok m' ∧ within limit base c.
Proof.
  intros Hsteps Hm Hroom.
  cut (∀ s, program_steps limit base ls ws argc argv (Running [mk_frame main 0] [], m) s →
    steps ws syscall_arguments (Running [mk_frame main 0] []) s.1 ∧ bytes_ok s.2 ∧ within limit base s.1).
  { intros Hcut. by apply (Hcut (c, m')). }
  clear Hsteps c m'. apply rtc_ind_r; [split_and!; [apply rtc_refl|done|done]|].
  intros [c1 m1] s' _ Hstep (Hc1 & Hm1 & Hw1). cbn [fst snd] in *.
  inversion Hstep as [? ? ? Hquiet Hs Hw|body i op fs st st' ? ? Hop Hobs Hw
    |body i op fs st ? name w Hop Hk Hint Hw Hwk Hlab Hroom']; subst.
  - split_and!; [|done|done]. eapply rtc_r; [exact Hc1|]. by eapply quiet_step.
  - destruct (observe_step syscall_arguments _ _ _ _ _ _ _ _ Hop Hobs Hm1 Hw1) as [Hs Hm'].
    split_and!; [|done|done]. by eapply rtc_r.
  - exfalso. destruct (typecheck_sound_steps fuel ws main _ Htyped Hmain Hall Hc1) as [c' Hc'].
    inversion Hc'; simplify_eq; try congruence; try (by destruct (op_intrinsic op); simplify_eq);
      destruct_or?; congruence.
Qed.

End Typed.

(** ** Properties *)

(** C3: A program the type checker accepts, compiled, linked and started: whatever
    the program does, the machine follows it.  While it runs, the program can go
    on, unless it is at one of the limits: a system call or random number, an
    access of memory by an address that is not its own, a call more than 1024
    deep or a full stack.  Where it ends, the machine exits with status 0 and
    an empty stack, or it has faulted at a division by zero. *)
Theorem typed_program_runs fuel limit base g entries strings path l ls `{Linker ls} argc s c m :
  typechecked fuel (words g) (main g) → calls_functions (words g) (main g) → all_calls_functions (words g) →
  generate_assembly g entries strings path true = (l, Done ls) → linkable g entries strings →
  regions limit base ls → 0 <= base → starts limit base g ls argc [] s →
  program_steps limit base ls (words g) argc base (Running [mk_frame (main g) 0] [], a_mem s.2) (c, m) →
  match c with
  | Running fs st => (∃ s', runs_linked limit base ls s s' ∧ a_stack s'.2 = st ∧ agrees ls (a_mem s'.2) m) ∧
      ((∃ c', program_step limit base ls (words g) argc base (Running fs st, m) c') ∨
       at_limit limit base ls (words g) argc base (Running fs st) m)
  | Halted st => st = [] ∧ ∃ s', runs_linked limit base ls s s' ∧ exits ls [] m s'
  | Trapped => faults_linked limit base ls s
  end.
Proof.
  intros Htyped Hmain Hall Hgen Hlink Hregions Hbase0 Hstart Hsteps. pose proof Hregions as (Hlimit & Hbase & _).
  pose proof Hstart as [_ (_ & Hvals & Hbytes) Hst Hroom _ _]. rewrite Hst in Hvals. apply Forall_cons in Hvals as [Hargc _].
  assert (is_u64 base) as Hb by done.
  destruct (program_steps_refine limit base ls (words g) argc base Hlimit Hbase Hargc Hb fuel (main g) Htyped Hmain Hall
    _ _ _ Hsteps Hbytes Hroom) as (Hreach & Hm & Hw).
  pose proof (typecheck_sound_steps fuel _ _ c Htyped Hmain Hall Hreach) as Hsound.
  assert (stack_pointer base [] = base) as Hsp by (unfold stack_pointer; simpl; lia).
  rewrite <-Hsp in Hsteps at 2.
  pose proof (generate_assembly_runs limit base g entries strings path l ls argc [] s (c, m) Hgen Hlink Hregions Hstart Hsteps)
    as Hruns. destruct c as [fs st|st|]; [|by subst st|done].
  split; [done|]. destruct Hsound as [c' Hc']. by eapply step_progress.
Qed.

Lemma typed_program_runs_witness :
  let _ := calls_linker in
  (∃ s', runs_linked (2 ^ 39) (2 ^ 40) calls_file calls_start s' ∧ a_stack s'.2 = [] ∧
     agrees calls_file (a_mem s'.2) calls_memory) ∧
  ((∃ c', program_step (2 ^ 39) (2 ^ 40) calls_file calls_words 1 (2 ^ 40)
      (Running [mk_frame [call 1 "g"] 0; mk_frame (main calls_program) 1] [], calls_memory) c') ∨
   at_limit (2 ^ 39) (2 ^ 40) calls_file calls_words 1 (2 ^ 40)
      (Running [mk_frame [call 1 "g"] 0; mk_frame (main calls_program) 1] []) calls_memory).
Proof.
  intros linker.
  assert (∀ body, calls_linked calls_words body → calls_functions calls_words body) as Hcalls.
  { intros body Hb. eapply list.Forall_impl; [exact Hb|]. intros op Ho Hk. destruct (Ho Hk) as [_ Ho'].
    intros name w Hn Hw. by destruct (Ho' name w Hn Hw). }
  apply (typed_program_runs 30 (2 ^ 39) (2 ^ 40) calls_program calls_entries calls_strings "a.asm" [] calls_file 1 calls_start
    (Running [mk_frame [call 1 "g"] 0; mk_frame (main calls_program) 1] []) calls_memory).
  - split; [eexists; reflexivity|]. apply (calls_words_Forall (λ _ w, w_kind w = _ → w_is_dynamically_typed w = _ → w_has_effect w = _ →
      ∃ l, typecheck_word _ 30 w = (l, Done tt))); [done|]. by apply three_functions_Forall.
  - apply Hcalls, calls_linkable.
  - assert (map_Forall (λ _ w, calls_linked calls_words (w_function_body w)) calls_words) as Hall.
    { apply calls_words_Forall; [constructor|]. apply three_functions_Forall;
        (apply calls_linked_mono; [simpl; solve_calls_linked|by repeat constructor]). }
    intros name w Hw. by eapply Hcalls, Hall.
  - apply calls_file_generated.
  - apply calls_linkable.
  - split_and!; [lia|lia|]. left. vm_compute. discriminate.
  - lia.
  - apply calls_starts.
  - quiet_step S_call. apply rtc_refl.
Defined.
