(* ===== verification/Conditions.v ===== *)
(** * Conditions known at compile time

    What [optimize_comptime_known_conditions] of [optimizer.cc] makes of a
    conditional or a loop whose condition is a constant: which operations are
    left, and where the jumps of the shapes it handles lead. *)

From S2P Require Import Prelude Syntax Errors Crossref Operations Semantics TypeSound Optimizer.

Open Scope Z_scope.

(** Operations without their jumps. *)
Definition strip (ops : list Operation) : list Operation := set_op_jump 0 <$> ops.

Lemma strip_app l1 l2 : strip (l1 ++ l2) = strip l1 ++ strip l2.
Proof. apply fmap_app. Qed.

Lemma strip_remap first last amount ops : strip (remap first last amount ops) = strip ops.
Proof.
  unfold strip, remap. rewrite <-list_fmap_compose. apply list_fmap_ext. intros i op _. simpl.
  by case_match.
Qed.

Lemma length_remap first last amount ops : length (remap first last amount ops) = length ops.
Proof. apply length_fmap. Qed.

Lemma remap_app first last amount l1 l2 :
  remap first last amount (l1 ++ l2) = remap first last amount l1 ++ remap first last amount l2.
Proof. apply fmap_app. Qed.

Lemma u32_small z : 0 <= z < 2 ^ 32 → u32 z = z.
Proof. apply Z.mod_small. Qed.

(** Moving the jumps to a range that lies behind what is removed. *)
Lemma remap_moves first last amount ops :
  0 <= amount <= first → last < 2 ^ 32 →
  remap first last amount ops =
    (λ op, if decide (first <= op_jump op <= last) then set_op_jump (op_jump op - amount) op else op) <$> ops.
Proof.
  intros Ha Hl. apply list_fmap_ext. intros i op _.
  destruct (Z.leb_spec first (op_jump op)), (Z.leb_spec (op_jump op) last); simpl; case_decide; try lia; [|done..].
  by rewrite u32_small by lia.
Qed.

Ltac list_length := repeat (rewrite length_app || rewrite length_cons || rewrite length_nil).

(** Erasing the middle of a list. *)
Lemma erase_middle {A} (l1 l2 l3 : list A) first last :
  first = Z.of_nat (length l1) → last = Z.of_nat (length l1 + length l2) →
  erase (l1 ++ l2 ++ l3) first last = mret (l1 ++ l3).
Proof.
  intros -> ->. unfold erase.
  rewrite !(proj2 (Z.leb_le _ _)) by (rewrite ?length_app; lia). cbn [andb].
  rewrite !Nat2Z.id, take_app_length, app_assoc, drop_app_length' by (rewrite length_app; lia). done.
Qed.

(** Erasing from a list known but for its jumps. *)
Lemma erase_strip l l1 l2 l3 first last :
  strip l = strip (l1 ++ l2 ++ l3) →
  first = Z.of_nat (length l1) → last = Z.of_nat (length l1 + length l2) →
  ∃ l', erase l first last = mret l' ∧ strip l' = strip (l1 ++ l3).
Proof.
  intros Hl -> ->. unfold erase.
  assert (length l = length l1 + length l2 + length l3)%nat as Hlen.
  { apply (f_equal length) in Hl. unfold strip in Hl. rewrite !length_fmap in Hl. rewrite Hl. list_length. lia. }
  rewrite !(proj2 (Z.leb_le _ _)) by lia. cbn [andb]. eexists. split; [done|].
  rewrite !Nat2Z.id, strip_app. unfold strip in *. rewrite fmap_take, fmap_drop, Hl, !fmap_app.
  rewrite take_app_length', app_assoc, drop_app_length' by (rewrite ?length_app, !length_fmap; done). done.
Qed.

Lemma erase_at_strip l l1 x l3 k :
  strip l = strip (l1 ++ x :: l3) → k = Z.of_nat (length l1) →
  ∃ l', erase_at l k = mret l' ∧ strip l' = strip (l1 ++ l3).
Proof. intros Hl ->. apply (erase_strip l l1 [x] l3); simpl; [done|lia|lia]. Qed.

Lemma index_Z_middle {A} (l1 : list A) x l3 k :
  k = Z.of_nat (length l1) → index_Z (l1 ++ x :: l3) k = mret x.
Proof.
  intros ->. unfold index_Z, index. rewrite (proj2 (Z.leb_le _ _)) by lia. by rewrite Nat2Z.id, list_lookup_middle.
Qed.

(** Proves that two lists of operations have the same parts, but for jumps. *)
Ltac same_parts :=
  rewrite ?strip_remap; unfold strip; repeat (rewrite fmap_app || rewrite fmap_cons || rewrite <-app_assoc || cbn [app]);
  reflexivity.

(** The next erasure of the goal. *)
Ltac erasing l1 l2 l3 :=
  match goal with
  | |- context [erase ?l ?a ?b] =>
    let l' := fresh "body" in let E := fresh "E" in
    edestruct (erase_strip l l1 l2 l3 a b) as (l' & -> & E);
    [|list_length; simpl; lia|list_length; simpl; lia|comp_step]
  end.

(** ** Conditionals *)

(** A conditional with both branches, its jumps as [crossreference] leaves
    them. *)
Definition if_else (n : nat) (cond o_if : Operation) (then_ : list Operation) (o_else : Operation)
    (else_ : list Operation) (o_end : Operation) : list Operation :=
  let el := Z.of_nat (n + 2 + length then_) in
  cond :: set_op_jump (el + 1) o_if :: then_ ++
  set_op_jump (el + 1 + Z.of_nat (length else_)) o_else :: else_ ++ [o_end].

(** of a conditional on a constant with two branches, of which the second
    is not empty, the operations of the branch that is taken are left, between
    those before and those behind. *)
Theorem comptime_if_else pre cond o_if then_ o_else else_ o_end post :
  let body := pre ++ if_else (length pre) cond o_if then_ o_else else_ o_end ++ post in
  let branch := set_op_jump (Z.of_nat (length pre + 2 + length then_) + 1) o_if in
  op_kind o_else = OpKind.Else → else_ ≠ [] → Z.of_nat (length body) < 2 ^ 32 →
  ∃ body', comptime_if body (Z.of_nat (length pre)) (Z.of_nat (length pre) + 1) cond branch = ([], Done body') ∧
    strip body' = strip (pre ++ (if decide (op_ival cond ≠ 0) then then_ else else_) ++ post).
Proof.
  intros body branch Hk Hne Hlen. subst branch.
  assert (0 < length else_)%nat by (destruct else_; [done|simpl; lia]).
  set (el := (length pre + 2 + length then_)%nat) in *.
  set (o2 := set_op_jump (Z.of_nat el + 1 + Z.of_nat (length else_)) o_else).
  assert (Z.of_nat el + 2 + Z.of_nat (length else_) <= Z.of_nat (length body)) as Hel.
  { unfold body, if_else. repeat (list_length; cbn [app]). lia. }
  assert (body = (pre ++ [cond; set_op_jump (Z.of_nat el + 1) o_if] ++ then_) ++ o2 :: else_ ++ [o_end] ++ post) as Hbody.
  { unfold body, if_else. fold el o2. repeat (rewrite <-app_assoc || cbn [app]). done. }
  clearbody body. unfold comptime_if. cbn [op_jump set_op_jump]. rewrite Z.add_simpl_r, (u32_small (Z.of_nat el)) by lia.
  assert (index_Z body (Z.of_nat el) = mret o2) as ->.
  { rewrite Hbody. apply index_Z_middle. list_length. simpl. lia. }
  comp_step.
  rewrite (decide_True _ _ (Hk : op_kind o2 = OpKind.Else)). cbn [op_jump set_op_jump o2].
  rewrite (u32_small (_ - 1)) by lia.
  assert (Z.of_nat el + 1 + Z.of_nat (length else_) - 1 ≠ Z.of_nat el) as Hdiff by lia.
  destruct (decide (op_ival cond ≠ 0)) as [Hc|Hc]; rewrite (decide_True _ _ Hdiff).
  - erasing (pre ++ [cond; o_if] ++ then_) (o_else :: else_ ++ [o_end]) post.
    { rewrite Hbody. same_parts. }
    erasing pre [cond; o_if] (then_ ++ post).
    { rewrite !strip_remap, E. same_parts. }
    eexists. split; [reflexivity|done].
  - unfold erase_at at 1. erasing (pre ++ [cond; o_if] ++ then_ ++ [o_else] ++ else_) [o_end] post.
    { rewrite Hbody. same_parts. }
    erasing pre ([cond; o_if] ++ then_ ++ [o_else]) (else_ ++ post).
    { rewrite E. same_parts. }
    eexists. split; [reflexivity|]. by rewrite strip_remap.
Qed.

Lemma comptime_if_else_witness :
  let push v := sample_op OpKind.Push_Int Intrinsic.Add v None Empty_Jump TypeKind.Int in
  let key k := sample_op k Intrinsic.Add 0 None Empty_Jump TypeKind.Int in
  ∃ body', comptime_if ([push 9] ++ if_else 1 (push 1) (key OpKind.If) [push 2] (key OpKind.Else) [push 3] (key OpKind.End) ++ [push 4])
    1 2 (push 1) (set_op_jump 5 (key OpKind.If)) = ([], Done body') ∧ strip body' = strip [push 9; push 2; push 4].
Proof.
  intros push key.
  apply (comptime_if_else [push 9] (push 1) (key OpKind.If) [push 2] (key OpKind.Else) [push 3] (key OpKind.End) [push 4]);
    [done|done|reflexivity].
Defined.

(** ** Loops *)

(** A loop on a constant, with its jumps. *)
Definition loop (n : nat) (o_while cond o_do : Operation) (block : list Operation) (o_end : Operation)
    : list Operation :=
  o_while :: cond :: set_op_jump (Z.of_nat (n + 4 + length block)) o_do :: block ++ [set_op_jump (Z.of_nat n) o_end].

Lemma find_while_found ops k op branch_op :
  ops !! k = Some op → op_kind op = OpKind.While → find_while ops branch_op (S k) = Some k.
Proof. intros Hop Hk. cbn [find_while]. rewrite Hop. rewrite decide_False by (by intros [? _]). done. Qed.

(** The [while] is found right before the place of the condition. *)
Lemma erase_while_strip l l1 o_while l3 branch_op never :
  strip l = strip (l1 ++ o_while :: l3) → op_kind o_while = OpKind.While →
  ∃ l', erase_while l (Z.of_nat (S (length l1))) branch_op never = ([], Done l') ∧ strip l' = strip (l1 ++ l3).
Proof.
  intros Hl Hk. unfold erase_while. rewrite Nat2Z.id.
  assert (strip l !! length l1 = Some (set_op_jump 0 o_while)) as Hw.
  { rewrite Hl, strip_app. unfold strip. rewrite fmap_cons. by rewrite list_lookup_middle by (by rewrite length_fmap). }
  unfold strip in Hw. rewrite list_lookup_fmap in Hw. apply fmap_Some in Hw as (op & Hop & Heq).
  rewrite (find_while_found _ _ op); [|done|].
  2: { rewrite <-Hk. by apply (f_equal op_kind) in Heq. }
  destruct (erase_at_strip l l1 o_while l3 (Z.of_nat (length l1)) Hl eq_refl) as (l' & -> & Hl').
  comp_step. eexists. split; [done|]. destruct never; [by rewrite strip_remap|done].
Qed.

(** of a loop whose condition is the constant false nothing is left but
    what is before it and behind it. *)
Theorem comptime_loop_never pre o_while cond o_do block o_end post :
  let body := pre ++ loop (length pre) o_while cond o_do block o_end ++ post in
  let branch := set_op_jump (Z.of_nat (length pre + 4 + length block)) o_do in
  op_kind o_while = OpKind.While → op_ival cond = 0 → Z.of_nat (length body) < 2 ^ 32 →
  ∃ body', comptime_do body (Z.of_nat (length pre + 1)) (Z.of_nat (length pre + 2)) cond branch = ([], Done body') ∧
    strip body' = strip (pre ++ post).
Proof.
  intros body branch Hw Hc Hlen. subst branch. unfold comptime_do. cbn [op_jump set_op_jump].
  rewrite decide_False by (by intros []).
  erasing (pre ++ [o_while]) ([cond; o_do] ++ block ++ [o_end]) post.
  { unfold body, loop. same_parts. }
  replace (length pre + 1)%nat with (S (length pre)) by lia.
  apply (erase_while_strip _ pre o_while post); [|done]. rewrite strip_remap, E. same_parts.
Qed.

Lemma comptime_loop_never_witness :
  let push v := sample_op OpKind.Push_Int Intrinsic.Add v None Empty_Jump TypeKind.Int in
  let key k := sample_op k Intrinsic.Add 0 None Empty_Jump TypeKind.Int in
  ∃ body', comptime_do ([push 9] ++ loop 1 (key OpKind.While) (push 0) (key OpKind.Do) [push 5; push 6] (key OpKind.End) ++ [push 4])
    2 3 (push 0) (set_op_jump 7 (key OpKind.Do)) = ([], Done body') ∧ strip body' = strip [push 9; push 4].
Proof.
  intros push key.
  apply (comptime_loop_never [push 9] (key OpKind.While) (push 0) (key OpKind.Do) [push 5; push 6] (key OpKind.End) [push 4]);
    [done|done|reflexivity].
Defined.

Lemma erase_while_middle l1 o_while l3 branch_op :
  op_kind o_while = OpKind.While →
  erase_while (l1 ++ o_while :: l3) (Z.of_nat (S (length l1))) branch_op false = mret (l1 ++ l3).
Proof.
  intros Hk. unfold erase_while. rewrite Nat2Z.id.
  rewrite (find_while_found _ _ o_while) by (done || by apply list_lookup_middle).
  unfold erase_at. rewrite (erase_middle l1 [o_while] l3) by (simpl; lia). by comp_step.
Qed.

(** C23: of a loop whose condition is the constant true, with code behind it, the
    block is left, with its [end] that leads back to where it now starts and its
    jumps into the block moved back by the three operations that are gone; the
    code behind the loop is removed.  (Without code behind it the behaviour is
    undefined, [comptime_loop_last].) *)
Theorem comptime_loop_always pre o_while cond o_do block o_end post :
  let body := pre ++ loop (length pre) o_while cond o_do block o_end ++ post in
  let branch := set_op_jump (Z.of_nat (length pre + 4 + length block)) o_do in
  let first := Z.of_nat (length pre + 3) in
  let last := Z.of_nat (length pre + 3 + length block) in
  op_kind o_while = OpKind.While → op_kind o_end = OpKind.End → op_ival cond ≠ 0 → post ≠ [] →
  Z.of_nat (length body) < 2 ^ 32 →
  ∃ l, comptime_do body (Z.of_nat (length pre + 1)) (Z.of_nat (length pre + 2)) cond branch =
    (l, Done (((λ op, if decide (first <= op_jump op <= last) then set_op_jump (op_jump op - 3) op else op) <$> pre ++ block)
      ++ [set_op_jump (Z.of_nat (length pre)) o_end])).
Proof.
  intros body branch first last Hw He Hc Hpost Hlen. subst branch.
  rewrite <-(remap_moves first last 3) by (unfold first, last, body, loop in *; revert Hlen; list_length; simpl; lia). unfold comptime_do. cbn [op_jump set_op_jump].
  set (o3 := set_op_jump (Z.of_nat (length pre)) o_end).
  set (o2 := set_op_jump (Z.of_nat (length pre + 4 + length block)) o_do).
  assert (body = (pre ++ [o_while; cond; o2] ++ block) ++ o3 :: post) as Hbody.
  { unfold body, loop. fold o2 o3. repeat (rewrite <-app_assoc || cbn [app]). done. }
  clearbody body. rewrite (decide_True _ _ Hc).
  assert (Z.of_nat (length body) = Z.of_nat (length pre + 4 + length block) + Z.of_nat (length post)) as Hsize.
  { rewrite Hbody. list_length. simpl. lia. }
  rewrite (u32_small (_ - 1)) by lia.
  replace (Z.of_nat (length pre + 4 + length block) - 1) with last by lia.
  assert (index_Z body last = mret o3) as ->.
  { rewrite Hbody. apply index_Z_middle. list_length. simpl. lia. }
  comp_step. rewrite (bool_decide_eq_true_2 _ (He : op_kind o3 = OpKind.End)). unfold assert_impl at 1. comp_step.
  destruct post as [|dead post]; [done|]. rewrite length_cons in Hsize.
  match goal with |- context [(if decide ?P then ?a else ?b) ≫= _] =>
    assert (∃ l, (if decide P then a else b) = (l, Done tt)) as [l ->] end.
  { case_decide; [|by eexists].
    assert (index_Z body (Z.of_nat (length pre + 4 + length block)) = mret dead) as ->.
    { rewrite Hbody, cons_middle, app_assoc. apply index_Z_middle. list_length. simpl. lia. }
    rewrite (u32_small (Z.of_nat (length pre + 1) - 1)) by lia.
    assert (index_Z body (Z.of_nat (length pre + 1) - 1) = mret o_while) as ->.
    { rewrite Hbody, <-app_assoc. apply index_Z_middle. lia. }
    by eexists. }
  rewrite Hbody, cons_middle, app_assoc, <-(app_nil_r (dead :: post)).
  rewrite erase_middle by (list_length; simpl in *; lia). rewrite app_nil_r.
  change (pre ++ [o_while; cond; o2] ++ block) with (pre ++ ([o_while] ++ [cond; o2] ++ block)).
  rewrite <-!app_assoc, (app_assoc pre [o_while]). comp_step.
  rewrite erase_middle by (list_length; simpl; lia). comp_step.
  rewrite !remap_app, <-app_assoc. replace (length pre + 1)%nat with (S (length (remap (Z.of_nat (length pre + 2) + 1) last 3 pre)))
    by (rewrite length_remap; lia).
  cbn [remap fmap list_fmap app].
  rewrite erase_while_middle by (by case_match).
  replace (Z.of_nat (length pre + 2) + 1) with first by lia.
  rewrite (proj2 (Z.leb_gt first (op_jump o3))) by (simpl; lia).
  exists (l ++ []). cbn [andb]. by rewrite app_assoc.
Qed.

Lemma comptime_loop_always_witness :
  let push v := sample_op OpKind.Push_Int Intrinsic.Add v None Empty_Jump TypeKind.Int in
  let key k := sample_op k Intrinsic.Add 0 None Empty_Jump TypeKind.Int in
  ∃ l, comptime_do ([push 9] ++ loop 1 (key OpKind.While) (push 1) (key OpKind.Do) [push 5; push 6] (key OpKind.End) ++ [push 4; push 3])
    2 3 (push 1) (set_op_jump 7 (key OpKind.Do)) = (l, Done [push 9; push 5; push 6; set_op_jump 1 (key OpKind.End)]).
Proof.
  intros push key.
  apply (comptime_loop_always [push 9] (key OpKind.While) (push 1) (key OpKind.Do) [push 5; push 6] (key OpKind.End) [push 4; push 3]);
    [done|done|done|done|reflexivity].
Defined.

(** an infinite loop that ends the body is outside of what the pass can
    handle: the warning about the code behind the loop reads past the end of
    the body. *)
Theorem comptime_loop_last pre o_while cond o_do block o_end :
  let body := pre ++ loop (length pre) o_while cond o_do block o_end in
  let branch := set_op_jump (Z.of_nat (length pre + 4 + length block)) o_do in
  op_kind o_end = OpKind.End → op_ival cond ≠ 0 → Z.of_nat (length body) < 2 ^ 32 →
  comptime_do body (Z.of_nat (length pre + 1)) (Z.of_nat (length pre + 2)) cond branch = undefined.
Proof.
  intros body branch He Hc Hlen. subst branch. unfold comptime_do. cbn [op_jump set_op_jump].
  assert (length body = length pre + 4 + length block)%nat as Hsize.
  { unfold body, loop. repeat (list_length; cbn [app]). lia. }
  set (o3 := set_op_jump (Z.of_nat (length pre)) o_end).
  assert (index_Z body (u32 (Z.of_nat (length pre + 4 + length block) - 1)) = mret o3) as ->.
  { rewrite u32_small by lia. unfold body, loop. fold o3. rewrite !app_comm_cons, app_assoc.
    apply index_Z_middle. repeat (list_length; cbn [app]). lia. }
  rewrite (decide_True _ _ Hc). comp_step. rewrite (bool_decide_eq_true_2 _ (He : op_kind o3 = OpKind.End)).
  unfold assert_impl. comp_step. rewrite decide_True by lia.
  assert (index_Z body (Z.of_nat (length pre + 4 + length block)) = undefined) as ->; [|done].
  unfold index_Z, index. rewrite (proj2 (Z.leb_le _ _)) by lia. by rewrite Nat2Z.id, lookup_ge_None_2 by lia.
Qed.

Lemma comptime_loop_last_witness :
  let push v := sample_op OpKind.Push_Int Intrinsic.Add v None Empty_Jump TypeKind.Int in
  let key k := sample_op k Intrinsic.Add 0 None Empty_Jump TypeKind.Int in
  comptime_do ([push 9] ++ loop 1 (key OpKind.While) (push 1) (key OpKind.Do) [push 5] (key OpKind.End))
    2 3 (push 1) (set_op_jump 6 (key OpKind.Do)) = undefined.
Proof.
  intros push key.
  apply (comptime_loop_last [push 9] (key OpKind.While) (push 1) (key OpKind.Do) [push 5] (key OpKind.End));
    [done|done|reflexivity].
Defined.

(** ** A conditional without [else] *)

(** [1 if 7 8 + end], with its jumps. *)
Definition true_if : list Operation :=
  let push v := sample_op OpKind.Push_Int Intrinsic.Add v None Empty_Jump TypeKind.Int in
  [push 1; sample_op OpKind.If Intrinsic.Add 0 None 5 TypeKind.Int; push 7; push 8;
   sample_op OpKind.Intrinsic Intrinsic.Add 0 None Empty_Jump TypeKind.Int;
   sample_op OpKind.End Intrinsic.Add 0 None 6 TypeKind.Int].

(** without an [else] the pass takes the operation before the [end] for the
    [end]: the last operation of a branch that is taken is lost.  The program
    [1 if 7 8 + end] leaves 15; in what the pass makes of it the addition is
    gone, and the [end] is still there, with a jump past the end of the body. *)
Theorem comptime_if_loses_operation :
  steps ∅ syscall_arguments (Running [mk_frame true_if 0] []) (Halted [15]) ∧
  ∃ body', optimize_comptime_known_conditions (length true_if) true_if = ([], Done (body', true)) ∧
    op_kind <$> body' = [OpKind.Push_Int; OpKind.Push_Int; OpKind.End] ∧ op_jump <$> last body' = Some 5.
Proof.
  split; [|eexists; split; [vm_compute; reflexivity|done]].
  eapply rtc_l; [by eapply S_push_int|]. eapply rtc_l; [eapply S_branch; [done|by left]|]. cbn [Z.eqb].
  do 2 (eapply rtc_l; [by eapply S_push_int|]). eapply rtc_l; [by eapply S_intrinsic|].
  eapply rtc_l; [eapply S_jump; [done|by right]|]. eapply rtc_l; [by eapply S_end|]. apply rtc_refl.
Qed.

(** ** Jumps around what is removed *)

Definition argc_op : Operation := sample_op OpKind.Intrinsic Intrinsic.Argc 0 None Empty_Jump TypeKind.Int.
Definition number (v : Z) : Operation := sample_op OpKind.Push_Int Intrinsic.Add v None Empty_Jump TypeKind.Int.
Definition jump_to (k : Operation_Kind) (j : Z) : Operation := sample_op k Intrinsic.Add 0 None j TypeKind.Int.

Definition jumps_inside (body : list Operation) : bool :=
  forallb (λ op, match op_kind op with
    | OpKind.If | OpKind.Do | OpKind.Else | OpKind.End => op_jump op <=? Z.of_nat (length body)
    | _ => true
    end) body.

(** [1 if 2 else 3 end argc if 4 end] *)
Definition if_else_then_if : list Operation :=
  [number 1; jump_to OpKind.If 4; number 2; jump_to OpKind.Else 5; number 3; jump_to OpKind.End 6;
   argc_op; jump_to OpKind.If 9; number 4; jump_to OpKind.End 10].

(** jumps behind a conditional that is decided are moved by less than what is
    removed: in the result they lead out of the body. *)
Theorem comptime_if_else_misplaces_jumps :
  jumps_inside if_else_then_if = true ∧
  ∃ body', optimize_comptime_known_conditions 20 if_else_then_if = ([], Done (body', true)) ∧
    op_kind <$> body' = [OpKind.Push_Int; OpKind.Intrinsic; OpKind.If; OpKind.Push_Int; OpKind.End] ∧
    op_jump <$> body' !! 2%nat = Some 7 ∧ jumps_inside body' = false.
Proof. split; [reflexivity|]. eexists. split; [vm_compute; reflexivity|done]. Qed.

Lemma step_argc v body i fs st :
  (∃ op, body !! i = Some op ∧ op_kind op = OpKind.Intrinsic ∧ op_intrinsic op = Intrinsic.Argc) → is_u64 v →
  step ∅ syscall_arguments (Running (mk_frame body i :: fs) st) (Running (mk_frame body (S i) :: fs) (v :: st)).
Proof.
  intros (op & Hop & Hk & Hi) Hv. apply (S_environment _ _ _ _ op _ _ 0%nat 1%nat [v]); try done; [by rewrite Hi|lia|by constructor].
Qed.

(** [argc if argc end while 0 do end 1] *)
Definition if_then_never : list Operation :=
  [argc_op; jump_to OpKind.If 3; argc_op; jump_to OpKind.End 4; jump_to OpKind.While Empty_Jump; number 0;
   jump_to OpKind.Do 8; jump_to OpKind.End 4; number 1].

(** a jump to the start of a loop that is never entered is moved to the operation
    before it: the program ends, and what the pass makes of it stays forever at
    an [end] that leads to itself. *)
Theorem comptime_never_loop_hangs :
  steps ∅ syscall_arguments (Running [mk_frame if_then_never 0] []) (Halted [1; 1]) ∧
  ∃ body', optimize_comptime_known_conditions 20 if_then_never = ([], Done (body', true)) ∧
    steps ∅ syscall_arguments (Running [mk_frame body' 0] []) (Running [mk_frame body' 3] [1]) ∧
    ∀ c, step ∅ syscall_arguments (Running [mk_frame body' 3] [1]) c → c = Running [mk_frame body' 3] [1].
Proof.
  split.
  - eapply rtc_l; [apply (step_argc 1); [by eexists|unfold is_u64; lia]|].
    eapply rtc_l; [eapply S_branch; [done|by left]|]. cbn [Z.eqb].
    eapply rtc_l; [apply (step_argc 1); [by eexists|unfold is_u64; lia]|].
    eapply rtc_l; [eapply S_jump; [done|by right]|]. eapply rtc_l; [eapply S_skip; [done|by right]|].
    eapply rtc_l; [by eapply S_push_int|]. eapply rtc_l; [eapply S_branch; [done|by right]|]. cbn [Z.eqb].
    eapply rtc_l; [by eapply S_push_int|]. eapply rtc_l; [by eapply S_end|]. apply rtc_refl.
  - eexists. split; [vm_compute; reflexivity|]. split.
    + eapply rtc_l; [apply (step_argc 1); [by eexists|unfold is_u64; lia]|].
      eapply rtc_l; [eapply S_branch; [done|by left]|]. cbn [Z.eqb].
      eapply rtc_l; [apply (step_argc 1); [by eexists|unfold is_u64; lia]|]. apply rtc_refl.
    + intros c Hstep. inversion Hstep; simplify_eq/=; destruct_or?; done.
Qed.

(** [argc if while 1 do argc end else 5 end] *)
Definition always_in_branch : list Operation :=
  [argc_op; jump_to OpKind.If 8; jump_to OpKind.While Empty_Jump; number 1; jump_to OpKind.Do 7; argc_op;
   jump_to OpKind.End 2; jump_to OpKind.Else 9; number 5; jump_to OpKind.End 10].

(** behind an infinite loop in a branch the whole rest of the body is taken for
    dead: the other branch is lost, and the jump to it leads out of the body. *)
Theorem comptime_always_loop_drops_branch :
  steps ∅ syscall_arguments (Running [mk_frame always_in_branch 0] []) (Halted [5]) ∧
  ∃ l body', optimize_comptime_known_conditions 20 always_in_branch = (l, Done (body', true)) ∧
    op_kind <$> body' = [OpKind.Intrinsic; OpKind.If; OpKind.Intrinsic; OpKind.End] ∧ jumps_inside body' = false.
Proof.
  split.
  - eapply rtc_l; [apply (step_argc 0); [by eexists|unfold is_u64; lia]|].
    eapply rtc_l; [eapply S_branch; [done|by left]|]. cbn [Z.eqb].
    eapply rtc_l; [by eapply S_push_int|]. eapply rtc_l; [eapply S_jump; [done|by right]|].
    eapply rtc_l; [by eapply S_end|]. apply rtc_refl.
  - eexists _, _. split; [vm_compute; reflexivity|done].
Qed.
