(* ===== verification/Debug.v ===== *)
(** * The control flow graph (src/src/debug.cc)

    [generate_control_flow_graph] as the list of lines it writes, the edges of
    it, and how they relate to the steps of a program. *)

From S2P Require Import Prelude Syntax Errors Crossref Operations Semantics TypeSound Optimizer Folding Conditions.

Open Scope Z_scope.

(** ** The lines *)

Definition dot_tab : string := str_of [chr 9].
Definition quote_char : ascii := chr 34.
Definition backslash_char : ascii := chr 92.

(** [std::quoted] *)
Definition quoted_text (s : string) : string :=
  str_of (quote_char :: concat ((λ c, if decide (c = quote_char ∨ c = backslash_char) then [backslash_char; c] else [c]) <$> chars s)
    ++ [quote_char]).

Inductive dot_line :=
  | Header (title : string)
  | Node (i : nat) (attributes : string)
  | Edge (from to : nat) (style : string)
  | Footer (size : nat).

Definition Node_Prefix : string := "Stacky_instr_".

Definition in_quotes (s : string) : string := str_of (quote_char :: chars s ++ [quote_char]).

Definition show_dot (l : dot_line) : list string :=
  match l with
  | Header title =>
    ["digraph Program {"; dot_tab +:+ "labelloc=" +:+ in_quotes "t" +:+ ";";
     dot_tab +:+ "label=" +:+ in_quotes title +:+ ";"]%string
  | Node i attributes => [(dot_tab +:+ Node_Prefix +:+ pretty i +:+ attributes +:+ ";")%string]
  | Edge from to style =>
    [(dot_tab +:+ Node_Prefix +:+ pretty from +:+ dot_tab +:+ "-> " +:+ Node_Prefix +:+ pretty to +:+ " " +:+ style +:+ ";")%string]
  | Footer size => [(dot_tab +:+ Node_Prefix +:+ pretty size +:+ " [label=RETURN fontcolor=red];")%string; "}"%string]
  end.

(** ** The graph *)

(** The loop of [link_next]: where an edge to [to] leads, past the ends of
    blocks.  A chain of more ends than the body has operations is a cycle. *)
Fixpoint follow (fuel : nat) (body : list Operation) (to : nat) : comp nat :=
  match fuel with
  | O => out_of_fuel
  | S fuel =>
    match body !! to with
    | None => mret to
    | Some op =>
      if decide (op_kind op = OpKind.End) then follow fuel body (Z.to_nat (op_jump op))
      else if decide (op_kind op = OpKind.Return) then mret (length body)
      else mret to
    end
  end.

Definition link_next (body : list Operation) (from to : nat) (style : string) : comp (list dot_line) :=
  to ← follow (S (length body)) body to; mret [Edge from to style].

(** The lines of the operation at index [i]. *)
Definition graph_op (body : list Operation) (i : nat) (op : Operation) : comp (list dot_line) :=
  let next := S i in
  match op_kind op with
  | OpKind.Push_Int =>
    e ← link_next body i next "";
    mret (Node i (" [label=" +:+ to_string (u64 (op_ival op)) +:+ " shape=record]") :: e)
  | OpKind.Cast | OpKind.Intrinsic | OpKind.Push_Symbol =>
    e ← link_next body i next "";
    let label := if decide (op_intrinsic op = Intrinsic.Less) then in_quotes "&lt;" else quoted_text (tok_sval (op_token op)) in
    mret (Node i (dot_tab +:+ "[label=" +:+ label +:+ " shape=record]") :: e)
  | OpKind.Call_Symbol =>
    e ← link_next body i next "";
    mret (Node i (" [label=" +:+ in_quotes (("CALL" +:+ str_of [backslash_char]) +:+ "n" +:+ op_sval op) +:+ "]") :: e)
  | OpKind.If =>
    e1 ← link_next body i next "[label=T]";
    e2 ← link_next body i (Z.to_nat (op_jump op)) "[label=F style=dashed]";
    mret (Node i " [label=IF]" :: e1 ++ e2)
  | OpKind.Do =>
    e1 ← link_next body i next "[label=T]";
    e2 ← link_next body i (Z.to_nat (op_jump op)) "[label=F style=dashed]";
    mret (Node i " [label=DO]" :: e1 ++ e2)
  | OpKind.Else =>
    e ← link_next body i (Z.to_nat (op_jump op)) "";
    mret (Node i " [label=ELSE]" :: e)
  | OpKind.While =>
    e ← link_next body i next "";
    mret (Node i (dot_tab +:+ "[label=WHILE]") :: e)
  | OpKind.Return | OpKind.End => mret []
  end.

Fixpoint graph_loop (body rest : list Operation) (i : nat) : comp (list dot_line) :=
  match rest with
  | [] => mret []
  | op :: rest =>
    lines ← graph_op body i op;
    others ← graph_loop body rest (S i);
    mret (lines ++ others)
  end.

(** The body the graph is of. *)
Definition graph_body (g : Generation_Info) (function : string) : comp (list Operation) :=
  if decide (function = ""%string) then mret (main g)
  else
    match words g !! function with
    | None => error_fatal None ("Word `" +:+ function +:+ "` has not been defined")
    | Some w =>
      ensure_fatal (bool_decide (w_kind w = WordKind.Function)) None
        ("`" +:+ function +:+ "` is not a function (control graph can only be generated for functions)") ≫= λ _,
      mret (w_function_body w)
    end.

(** [out] is whether the file could be created. *)
Definition generate_control_flow_graph (g : Generation_Info) (dot_path function : string) (out : bool)
    : comp (list dot_line) :=
  ensure_fatal out None ("Could not create file `" +:+ dot_path +:+ "`.") ≫= λ _,
  body ← graph_body g function;
  lines ← graph_loop body body 0;
  mret (Header (if decide (function = ""%string) then "Control flow of a program"
      else "Control flow of a function `" +:+ function +:+ "`")
    :: lines ++ [Footer (length body)]).

(** ** Edges *)

(** Where an operation can be followed by another one, but for the ends of
    blocks, which have no node. *)
Definition successors (op : Operation) (i : nat) : list nat :=
  match op_kind op with
  | OpKind.If | OpKind.Do => [S i; Z.to_nat (op_jump op)]
  | OpKind.Else => [Z.to_nat (op_jump op)]
  | OpKind.Return | OpKind.End => []
  | _ => [S i]
  end.

(** Where control goes from an index without passing an operation with a node:
    past the ends of blocks, along their jumps, however many; a return leaves
    the body. *)
Inductive leads (body : list Operation) : nat → nat → Prop :=
  | L_end j op t :
      body !! j = Some op → op_kind op = OpKind.End → leads body (Z.to_nat (op_jump op)) t → leads body j t
  | L_return j op : body !! j = Some op → op_kind op = OpKind.Return → leads body j (length body)
  | L_node j op :
      body !! j = Some op → op_kind op ≠ OpKind.End → op_kind op ≠ OpKind.Return → leads body j j
  | L_out j : body !! j = None → leads body j j.

Lemma leads_functional body j t t' : leads body j t → leads body j t' → t = t'.
Proof.
  intros H. revert t'. induction H as [j op t Hop Hk _ IH|j op Hop Hk|j op Hop Hk Hk'|j Hop];
    intros t' H'; inversion H' as [? op' ? Hop' Hk''|? op' Hop' Hk''|? op' Hop' Hk''|? Hop']; simplify_eq; auto; congruence.
Qed.

(** No edge leads to an end. *)
Lemma leads_no_end body j t op : leads body j t → body !! t = Some op → op_kind op ≠ OpKind.End.
Proof.
  induction 1 as [j o t Ho Hk _ IH|j o Ho Hk|j o Ho Hk Hk'|j Ho]; intros Hop; [by apply IH| |congruence..].
  apply lookup_lt_Some in Hop. lia.
Qed.

Lemma follow_leads fuel body : ∀ j l t, follow fuel body j = (l, Done t) → leads body j t.
Proof.
  induction fuel as [|fuel IH]; intros j l t; cbn [follow]; [done|].
  destruct (body !! j) as [op|] eqn:Hop; [|intros [= <- <-]; by apply L_out].
  case_decide as He; [intros H; eapply L_end; eauto|].
  case_decide; intros [= <- <-]; [by eapply L_return|by eapply L_node].
Qed.

Definition has_edge (lines : list dot_line) (from t : nat) : Prop := ∃ style, Edge from t style ∈ lines.

Lemma has_edge_nil from t : has_edge [] from t ↔ False.
Proof. split; [by intros (? & ?%elem_of_nil)|done]. Qed.

Lemma has_edge_node i attrs lines from t : has_edge (Node i attrs :: lines) from t ↔ has_edge lines from t.
Proof. unfold has_edge. setoid_rewrite elem_of_cons. naive_solver. Qed.

Lemma has_edge_app l1 l2 from t : has_edge (l1 ++ l2) from t ↔ has_edge l1 from t ∨ has_edge l2 from t.
Proof. unfold has_edge. setoid_rewrite elem_of_app. naive_solver. Qed.

Lemma link_next_edges body i j style l lines from t :
  link_next body i j style = (l, Done lines) → has_edge lines from t ↔ from = i ∧ leads body j t.
Proof.
  unfold link_next. intros H. apply bind_Done in H as (l1 & t' & l2 & Hf & [= <- <-] & _).
  apply follow_leads in Hf. unfold has_edge. setoid_rewrite list_elem_of_singleton. split.
  - intros (s & [= -> -> ->]). done.
  - intros [-> Ht]. exists style. by rewrite (leads_functional _ _ _ _ Hf Ht).
Qed.

(** The edges of one operation are those to its successors. *)
Lemma graph_op_edges body i op l lines from t :
  graph_op body i op = (l, Done lines) →
  has_edge lines from t ↔ from = i ∧ ∃ j, j ∈ successors op i ∧ leads body j t.
Proof.
  unfold graph_op, successors. cbv zeta. intros H.
  repeat match type of H with
  | _ ≫= _ = _ => let e := fresh "e" in let He := fresh "He" in
    apply bind_Done in H as (? & e & ? & He & H & _); apply (link_next_edges _ _ _ _ _ _ from t) in He
  | context [match op_kind op with _ => _ end] => destruct (op_kind op)
  end; injection H as <- <-; rewrite ?has_edge_node, ?has_edge_app, ?has_edge_nil;
  repeat match goal with He : has_edge _ _ _ ↔ _ |- _ => rewrite He; clear He end; set_solver.
Qed.

Lemma graph_loop_edges body rest : ∀ k l lines from t,
  graph_loop body rest k = (l, Done lines) →
  has_edge lines from t ↔
  ∃ n op j, from = (k + n)%nat ∧ rest !! n = Some op ∧ j ∈ successors op from ∧ leads body j t.
Proof.
  induction rest as [|op rest IH]; intros k l lines from t; cbn [graph_loop].
  { intros [= <- <-]. rewrite has_edge_nil. split; [done|by intros (n & op & j & _ & [=] & _)]. }
  intros H. apply bind_Done in H as (? & l1 & ? & H1 & H & _). apply bind_Done in H as (? & l2 & ? & H2 & [= <- <-] & _).
  rewrite has_edge_app, (graph_op_edges _ _ _ _ _ _ _ H1), (IH _ _ _ _ _ H2). split.
  - intros [(-> & j & Hj & Hl)|(n & op' & j & -> & Hop & Hj & Hl)].
    + exists 0%nat, op, j. rewrite Nat.add_0_r. done.
    + exists (S n), op', j. rewrite <-Nat.add_succ_comm. done.
  - intros ([|n] & op' & j & -> & Hop & Hj & Hl).
    + left. rewrite Nat.add_0_r in *. simplify_eq/=. split; [done|]. by exists j.
    + right. exists n, op', j. rewrite Nat.add_succ_comm. done.
Qed.

(** The configurations an edge passes without a node of its own are ends of
    blocks and returns. *)
Lemma leads_steps words body fs st j t :
  leads body j t →
  ∃ k, steps words syscall_arguments (Running (mk_frame body j :: fs) st) (Running (mk_frame body k :: fs) st) ∧
    (k = t ∨ (t = length body ∧ ∃ op, body !! k = Some op ∧ op_kind op = OpKind.Return)).
Proof.
  induction 1 as [j op t Hop Hk _ (k & Hs & Ht)|j op Hop Hk|j op Hop Hk Hk'|j Hop].
  - exists k. split; [|done]. eapply rtc_l; [|exact Hs]. eapply S_jump; [done|by right].
  - exists j. split; [apply rtc_refl|]. right. split; [done|]. by exists op.
  - exists j. split; [apply rtc_refl|by left].
  - exists j. split; [apply rtc_refl|by left].
Qed.

Lemma cons_ne {A} (x : A) l : x :: l ≠ l.
Proof. intros H. apply (f_equal length) in H. simpl in H. lia. Qed.

Lemma returned_ne fs st f st' : returned fs st ≠ Running (f :: fs) st'.
Proof. destruct fs as [|g fs]; [done|]. intros [= _ H _]. by apply (cons_ne g fs). Qed.

(** A step within a body. *)
Lemma step_successors words body i op fs st j st' :
  body !! i = Some op → op_kind op ≠ OpKind.End →
  step words syscall_arguments (Running (mk_frame body i :: fs) st) (Running (mk_frame body j :: fs) st') →
  j ∈ successors op i.
Proof.
  intros Hop He Hstep. unfold successors. inversion Hstep; subst;
    try (by exfalso; eapply cons_ne); try (by exfalso; eapply returned_ne);
    repeat match goal with
    | H : body !! i = Some _ |- _ => rewrite Hop in H; injection H as <-
    | Hk : op_kind op = _ |- _ => rewrite Hk in *; clear Hk
    | Hk : _ ∨ _ |- _ => destruct Hk
    end; try done; try case_match; set_solver.
Qed.

(** *** Termination *)

(** An end leads to the next operation, or back to the start of its loop. *)
Definition end_ok (body : list Operation) (n : nat) (op : Operation) : Prop :=
  op_kind op = OpKind.End → Z.to_nat (op_jump op) = S n ∨
    ∃ o, body !! Z.to_nat (op_jump op) = Some o ∧ op_kind o = OpKind.While.

Fixpoint ends_ok (body : list Operation) (n : nat) (l : list Operation) : Prop :=
  match l with [] => True | op :: l => end_ok body n op ∧ ends_ok body (S n) l end.

Lemma ends_ok_app body l1 : ∀ n l2,
  ends_ok body n l1 → ends_ok body (n + length l1) l2 → ends_ok body n (l1 ++ l2).
Proof.
  induction l1 as [|op l1 IH]; intros n l2; simpl; [by rewrite Nat.add_0_r|].
  intros [H1 H2] H. split; [done|]. apply IH; [done|]. by rewrite Nat.add_succ_comm.
Qed.

Lemma ends_ok_lookup body l : ∀ n k op, ends_ok body n l → l !! k = Some op → end_ok body (n + k) op.
Proof.
  induction l as [|o l IH]; intros n [|k] op; simpl; [done|done| |]; intros [H1 H2].
  - intros [= <-]. by rewrite Nat.add_0_r.
  - rewrite <-Nat.add_succ_comm. by apply IH.
Qed.

Lemma link_ends_ok body b : ∀ n, block_ok b → part_of body n (link n b) → ends_ok body n (link n b).
Proof.
  assert (∀ n op k, op_kind op = k → k ≠ OpKind.End → end_ok body n op) as Hnot.
  { intros n op k <- Hk H. done. }
  induction b as [|op r IHr|o1 t IHt o2 r IHr|o1 t IHt o2 e IHe o3 r IHr|o1 c IHc o2 b IHb o3 r IHr];
    intros n Hok Hpart; simpl in Hok; cbn [link] in Hpart |- *; [done|..]; destruct_and? Hok;
    repeat match goal with
    | H : part_of _ _ (_ :: _) |- _ => apply part_of_cons in H as [? H]
    | H : part_of _ _ (_ ++ _) |- _ => apply part_of_app in H as [? H]; rewrite ?length_link in H
    end;
    repeat first [progress cbn [ends_ok] | split | apply ends_ok_app | rewrite length_link]; auto;
    try (by eapply Hnot); try (intros _; cbn [set_op_jump op_jump]; rewrite Nat2Z.id; left; lia).
  - intros Hk. by rewrite Hk in *.
  - intros _. cbn [set_op_jump op_jump]. rewrite Nat2Z.id. right. by exists o1.
Qed.

Lemma follow_ends body fuel : ∀ to,
  ends_ok body 0 body → (length body - to < fuel)%nat → ends (follow fuel body to).
Proof.
  induction fuel as [|fuel IH]; intros to Hok Hf; [lia|]. cbn [follow].
  destruct (body !! to) as [op|] eqn:Hop; [|done]. pose proof (lookup_lt_Some _ _ _ Hop).
  case_decide as He; [|by case_decide].
  destruct (ends_ok_lookup _ _ _ _ _ Hok Hop He) as [->|(o & Ho & Hw)]; [apply IH; [done|lia]|].
  destruct fuel as [|fuel]; [lia|]. cbn [follow]. rewrite Ho, Hw. by rewrite !decide_False.
Qed.

Lemma graph_loop_ends body rest : ∀ i, ends_ok body 0 body → ends (graph_loop body rest i).
Proof.
  intros i Hok. revert i.
  assert (∀ i j style, ends (link_next body i j style)) as Hlink.
  { intros i j style. apply ends_bind; [apply follow_ends; [done|lia]|done]. }
  induction rest as [|op rest IH]; intros i; cbn [graph_loop]; [done|]. apply ends_bind.
  - unfold graph_op. cbv zeta. destruct (op_kind op); try done; repeat (apply ends_bind; [by apply Hlink|intros ?]); done.
  - intros lines. by apply ends_bind.
Qed.

(** ** Properties *)

(** C13: the edges of the control flow graph are the ways control can go: from
    every operation but ends and returns to each of its successors, past any
    number of ends of blocks and never to an end; a step of the program within
    a body goes to a successor, and from there execution follows the rest of
    the edge with an unchanged stack. *)
Theorem control_flow_graph_correct words body l lines i t fs st :
  graph_loop body body 0 = (l, Done lines) →
  (has_edge lines i t ↔ ∃ op j, body !! i = Some op ∧ j ∈ successors op i ∧ leads body j t) ∧
  (has_edge lines i t → ∀ op, body !! t = Some op → op_kind op ≠ OpKind.End) ∧
  (∀ op j st', body !! i = Some op → op_kind op ≠ OpKind.End →
    step words syscall_arguments (Running (mk_frame body i :: fs) st) (Running (mk_frame body j :: fs) st') →
    j ∈ successors op i) ∧
  (∀ j, leads body j t → ∃ k,
    steps words syscall_arguments (Running (mk_frame body j :: fs) st) (Running (mk_frame body k :: fs) st) ∧
    (k = t ∨ (t = length body ∧ ∃ op, body !! k = Some op ∧ op_kind op = OpKind.Return))).
Proof.
  intros H.
  assert (has_edge lines i t ↔ ∃ op j, body !! i = Some op ∧ j ∈ successors op i ∧ leads body j t) as Hedge.
  { rewrite (graph_loop_edges _ _ _ _ _ _ _ H). split.
    + intros (n & op & j & -> & Hop & Hj). exists op, j. done.
    + intros (op & j & Hop & Hj). exists i, op, j. done. }
  split_and!; [done| |by intros; eapply step_successors|by intros; apply leads_steps].
  intros (op & j & _ & _ & Hl)%Hedge op'. by apply leads_no_end with j.
Qed.

Lemma control_flow_graph_correct_witness :
  ∃ lines, graph_loop sample_main sample_main 0 = ([], Done lines) ∧ has_edge lines 5 1.
Proof.
  eexists. split; [vm_compute; reflexivity|].
  apply (control_flow_graph_correct ∅ sample_main [] _ 5 1 [] []); [vm_compute; reflexivity|].
  eexists _, 6%nat. split; [reflexivity|]. split; [by left|].
  eapply L_end; [reflexivity|reflexivity|]. by eapply L_node.
Defined.

(** C36: the graph of a structured body, with the jumps [crossreference] gives
    it, is generated in finitely many rounds. *)
Theorem control_flow_graph_terminates b ops :
  block_ok b → crossreference (flatten b) = ([], Done (ops, true)) → ends (graph_loop ops ops 0).
Proof.
  intros Hok. rewrite crossreference_flatten by done. intros [= <-].
  apply graph_loop_ends, link_ends_ok; [done|by intros k x].
Qed.

Lemma control_flow_graph_terminates_witness :
  let op k := Operation_of k no_token in
  let b := B_while (op OpKind.While) (B_op (op OpKind.Push_Int) B_nil) (op OpKind.Do) B_nil (op OpKind.End) B_nil in
  ends (graph_loop (link 0 b) (link 0 b) 0).
Proof.
  intros op b. apply (control_flow_graph_terminates b); [by repeat split|reflexivity].
Defined.

(** [while 1 do end 2], with its jumps. *)
Definition empty_loop : list Operation :=
  loop 0 (sample_op OpKind.While Intrinsic.Add 0 None Empty_Jump TypeKind.Int)
    (sample_op OpKind.Push_Int Intrinsic.Add 1 None Empty_Jump TypeKind.Int)
    (sample_op OpKind.Do Intrinsic.Add 0 None Empty_Jump TypeKind.Int) []
    (sample_op OpKind.End Intrinsic.Add 0 None Empty_Jump TypeKind.Int)
  ++ [sample_op OpKind.Push_Int Intrinsic.Add 2 None Empty_Jump TypeKind.Int].

(** after the optimizer this is not so: it makes of an empty infinite loop
    an end that leads to itself, and following it never ends. *)
Theorem optimized_empty_loop_diverges :
  ∃ body', optimize_comptime_known_conditions (length empty_loop) empty_loop = ([], Done (body', true)) ∧
    ∀ fuel, ¬ ends (follow fuel body' 0).
Proof.
  eexists. split; [vm_compute; reflexivity|].
  intros fuel. induction fuel as [|fuel IH]; intros H; [by apply H|]. by apply IH.
Qed.
