(* ===== verification/Process.v ===== *)
(** * Running other programs (src/src/os-exec/os-exec.hh)

    How the result of a child process becomes an error code, and the quoting
    of commands that are echoed.  What the system calls return is a parameter. *)

From S2P Require Import Prelude Syntax Errors.

Open Scope Z_scope.

(** ** The status of a process *)

(** The macros of [<sys/wait.h>] on Linux. *)
Definition WTERMSIG (status : Z) : Z := Z.land status 127.
Definition WEXITSTATUS (status : Z) : Z := Z.shiftr (Z.land status 65280) 8.
Definition WSTOPSIG (status : Z) : Z := WEXITSTATUS status.
Definition WIFEXITED (status : Z) : bool := WTERMSIG status =? 0.
Definition WIFSIGNALED (status : Z) : bool := 0 <? Z.shiftr (i8 (Z.land status 127 + 1)) 1.
Definition WIFSTOPPED (status : Z) : bool := Z.land status 255 =? 127.

(** ** Error codes *)

Inductive Category :=
  | Generic
  | Non_Zero_Exit_Code
  | Killed_By_Signal
  | Stopped_By_Signal
  | Unknown_Termination_Cause.

(** [std::error_code]: it converts to [true] when its value is not zero. *)
Record Error_Code := mk_Error_Code { ec_value : Z; ec_category : Category }.

Definition no_error : Error_Code := mk_Error_Code 0 Generic.
Definition make_error_code (errno : Z) : Error_Code := mk_Error_Code errno Generic.
Definition is_error (e : Error_Code) : bool := negb (ec_value e =? 0).

(** The message of an error; that of an error of the system is a parameter. *)
Definition message (strerror : Z → string) (e : Error_Code) : string :=
  match ec_category e with
  | Generic => strerror (ec_value e)
  | Non_Zero_Exit_Code => "exit status " +:+ to_string (ec_value e)
  | Killed_By_Signal => "killed by signal " +:+ to_string (ec_value e)
  | Stopped_By_Signal => "stopped by signal " +:+ to_string (ec_value e)
  | Unknown_Termination_Cause => "unknown termination cause"
  end.

(** ** Running a program *)

(** What the system does: the errors of [mmap], [fork] and [execlp], and the
    error of [waitpid] or the status it stores.  A child that cannot execute
    the program leaves the error in the shared memory. *)
Record System := mk_System {
  mmap_error : option Z;
  fork_error : option Z;
  exec_error : option Z;
  waitpid : Z + Z;
}.

Definition decode_status (wstatus : Z) : Error_Code :=
  if WIFEXITED wstatus then
    if WEXITSTATUS wstatus =? 0 then no_error else mk_Error_Code (WEXITSTATUS wstatus) Non_Zero_Exit_Code
  else if WIFSIGNALED wstatus then mk_Error_Code (WTERMSIG wstatus) Killed_By_Signal
  else if WIFSTOPPED wstatus then mk_Error_Code (WSTOPSIG wstatus) Stopped_By_Signal
  else mk_Error_Code 1 Unknown_Termination_Cause.

Definition run (sys : System) : Error_Code :=
  match mmap_error sys with
  | Some errno => make_error_code errno
  | None =>
    match fork_error sys with
    | Some errno => make_error_code errno
    | None =>
      let exec_failure := default 0 (exec_error sys) in
      match waitpid sys with
      | inl errno => make_error_code errno
      | inr wstatus => if negb (exec_failure =? 0) then make_error_code exec_failure else decode_status wstatus
      end
    end
  end.

(** ** Quoting *)

(** [std::isalnum] in the C locale (for which no byte above 127 is one), and
    the characters that need no quotes. *)
Definition isalnum (c : ascii) : bool :=
  let z := ord c in
  ((48 <=? z) && (z <=? 57)) || ((65 <=? z) && (z <=? 90)) || ((97 <=? z) && (z <=? 122)).

Definition is_safe (c : ascii) : bool :=
  isalnum c || bool_decide (c ∈ chars "@%+=:,./-_").

Definition single_quote : ascii := chr 39.
Definition backslash : ascii := chr 92.

(** The loop over the quotes of a value, which puts a backslash in front of
    each; every round removes at least a quote. *)
Fixpoint quote_loop (fuel : nat) (value retval : list ascii) : list ascii :=
  match fuel with
  | O => retval
  | S fuel =>
    match list_find (λ c, c = single_quote) value with
    | Some (quote, _) =>
      quote_loop fuel (drop (quote + 1) value) (retval ++ take quote value ++ [backslash; single_quote])
    | None => retval ++ value
    end
  end.

Definition shell_quote (value : list ascii) : list ascii :=
  match value with
  | [] => [single_quote; single_quote]
  | _ =>
    if forallb is_safe value then value
    else quote_loop (S (length value)) value [single_quote] ++ [single_quote]
  end.

(** [run_echo]: the line that is printed, and the result. *)
Definition run_echo (sys : System) (program : list ascii) (args : list (list ascii)) : list ascii * Error_Code :=
  (shell_quote program ++ (args ≫= λ a, " "%char :: shell_quote a) ++ [chr 10], run sys).

(** ** The shell *)

(** The characters that mean something to the POSIX shell when they stand
    unquoted in an argument of a command: the blanks that separate words, the
    operators, the expansions, the quotes, the patterns, comments, home
    directories, braces and history.  ([=] matters in front of a command only,
    and [%] in job control.) *)
Definition shell_special : list ascii :=
  chars " |&;<>()$`*?[]#~!{}^" ++ [chr 9; chr 10; chr 34; single_quote; backslash].

(** Reading one word back, by the quoting rules of the POSIX shell: between
    single quotes every character stands for itself, outside of them a
    backslash keeps the next character and the special characters are not part
    of a word.  [None] for text that is not one word, or in which a quote is
    left open. *)
Fixpoint shell_word (quoted : bool) (s : list ascii) : option (list ascii) :=
  match s with
  | [] => if quoted then None else Some []
  | c :: s =>
    if decide (c = single_quote) then shell_word (negb quoted) s
    else if quoted then cons c <$> shell_word true s
    else if decide (c = backslash) then
      match s with c' :: s => cons c' <$> shell_word false s | [] => None end
    else if decide (c ∈ shell_special) then None
    else cons c <$> shell_word false s
  end.

(** ** Lemmas *)

Lemma quote_loop_plain fuel value retval :
  single_quote ∉ value → quote_loop (S fuel) value retval = retval ++ value.
Proof.
  intros Hq. cbn [quote_loop]. destruct (list_find _ value) as [[k c]|] eqn:Hf; [|done].
  apply list_find_Some in Hf as (Hk & -> & _). by destruct Hq; eapply list_elem_of_lookup_2.
Qed.

(** What the loop computes: every quote gets a backslash in front of it. *)
Lemma quote_loop_spec fuel : ∀ value retval,
  (length value < fuel)%nat →
  quote_loop fuel value retval =
    retval ++ (value ≫= λ c, if decide (c = single_quote) then [backslash; single_quote] else [c]).
Proof.
  assert (∀ v, single_quote ∉ v →
    v ≫= (λ c, if decide (c = single_quote) then [backslash; single_quote] else [c]) = v) as Hplain.
  { intros v. induction v as [|c v IH]; [done|]. rewrite not_elem_of_cons. intros [Hc Hv]. cbn.
    rewrite decide_False by done. cbn. f_equal. by apply IH. }
  induction fuel as [|fuel IH]; intros value retval Hlen; [lia|]. cbn [quote_loop].
  destruct (list_find _ value) as [[k c]|] eqn:Hf.
  - apply list_find_Some in Hf as (Hk & -> & Hfirst).
    rewrite IH by (pose proof (lookup_lt_Some _ _ _ Hk); rewrite length_drop; lia).
    rewrite Nat.add_1_r, <-app_assoc. f_equal. rewrite <-(take_drop_middle _ _ _ Hk) at 3.
    rewrite bind_app, bind_cons, (Hplain (take k value)).
    + rewrite decide_True by done. by rewrite <-app_assoc.
    + intros (j & Hj)%list_elem_of_lookup. apply lookup_take_Some in Hj as [Hj Hlt]. by apply (Hfirst j _ Hj Hlt).
  - apply list_find_None in Hf. rewrite Hplain; [done|].
    intros Hin. rewrite list.Forall_forall in Hf. by apply (Hf _ Hin).
Qed.

(** What the code counts as safe is not special. *)
Lemma is_safe_plain c : is_safe c = true → c ∉ shell_special.
Proof.
  intros Hc Hin. assert (forallb (λ c, negb (is_safe c)) shell_special = true) as H by by vm_compute.
  rewrite forallb_forall in H. specialize (H c). rewrite Hc in H. by discriminate H; apply list_elem_of_In.
Qed.

Lemma shell_word_safe s : forallb is_safe s = true → shell_word false s = Some s.
Proof.
  induction s as [|c s IH]; [done|]. cbn [forallb shell_word]. intros [Hc%is_safe_plain Hs]%andb_true_iff.
  rewrite !decide_False; [by rewrite IH| | |];
    first [done | intros ->; apply Hc; by apply (bool_decide_unpack _)].
Qed.

Lemma shell_word_quoted s : single_quote ∉ s → shell_word true (s ++ [single_quote]) = Some s.
Proof.
  induction s as [|c s IH]; [done|]. rewrite not_elem_of_cons. intros [Hc Hs]. simpl.
  rewrite decide_False by done. by rewrite IH.
Qed.

(** *** Statuses *)

(** How a process that is not traced ends. *)
Inductive termination := Exited_With (code : Z) | Killed_By (signal : Z) (core_dumped : bool).

#[export] Instance termination_eq : EqDecision termination.
Proof. solve_decision. Defined.

(** The status the system stores for it. *)
Definition status_of (t : termination) : Z :=
  match t with
  | Exited_With code => code * 2 ^ 8
  | Killed_By signal core_dumped => signal + (if core_dumped then 128 else 0)
  end.

Definition termination_ok (t : termination) : Prop :=
  match t with Exited_With code => 0 <= code < 2 ^ 8 | Killed_By signal _ => 0 < signal < 127 end.

Definition error_of (t : termination) : Error_Code :=
  match t with
  | Exited_With code => if code =? 0 then no_error else mk_Error_Code code Non_Zero_Exit_Code
  | Killed_By signal _ => mk_Error_Code signal Killed_By_Signal
  end.

Lemma below_256 (P : Z → bool) z : forallb P (Z.of_nat <$> seq 0 256) = true → 0 <= z < 2 ^ 8 → P z = true.
Proof.
  intros HP Hz. rewrite forallb_forall in HP. apply HP, list_elem_of_In, list_elem_of_fmap.
  exists (Z.to_nat z). rewrite elem_of_seq. lia.
Qed.

#[local] Instance Category_eq : EqDecision Category.
Proof. solve_decision. Defined.
#[local] Instance Error_Code_eq : EqDecision Error_Code.
Proof. solve_decision. Defined.

Definition decodes (t : termination) : bool := bool_decide (decode_status (status_of t) = error_of t).

Lemma decode_status_of t : termination_ok t → decode_status (status_of t) = error_of t.
Proof.
  intros Ht. enough (decodes t = true) as H by (by apply bool_decide_eq_true_1 in H).
  destruct t as [code|signal core]; simpl in Ht.
  - apply (below_256 (λ z, decodes (Exited_With z))); [vm_compute; reflexivity|exact Ht].
  - assert (((signal <=? 0) || (127 <=? signal))%bool = false) as Hr.
    { apply orb_false_iff. rewrite !Z.leb_gt. lia. }
    pose proof (below_256 (λ z, (z <=? 0) || (127 <=? z) || decodes (Killed_By z core)) signal) as H.
    cbv beta in H. rewrite Hr in H. apply H; [by destruct core; vm_compute|lia].
Qed.

(** An error that is not 0. *)
Ltac simplify_errno e := simpl in *; destruct (Z.eqb_spec e 0) as [?|?]; simpl in *; [by subst|split; [done|]; split; [done|by intros (? & ? & ? & ?)]].

(** ** Properties *)

(** What the system calls document: an error is never 0, and a process that is
    waited for has ended. *)
Definition system_ok (sys : System) : Prop :=
  mmap_error sys ≠ Some 0 ∧ fork_error sys ≠ Some 0 ∧ exec_error sys ≠ Some 0 ∧
  match waitpid sys with
  | inl errno => errno ≠ 0
  | inr status => ∃ t, termination_ok t ∧ status = status_of t
  end.

(** C19: The error code of a command: the error of the first system call that
    fails, of [mmap], [fork] and [waitpid] and of the child's [execlp]; where
    none does, none for the exit status 0, and the exit status or the signal
    otherwise.  So it is no error exactly when every call succeeded and the
    program exited with 0. *)
Theorem run_reports sys :
  system_ok sys →
  match mmap_error sys, fork_error sys, waitpid sys, exec_error sys with
  | Some errno, _, _, _ | None, Some errno, _, _ | None, None, inl errno, _ | None, None, inr _, Some errno =>
    run sys = mk_Error_Code errno Generic
  | None, None, inr status, None => ∃ t, termination_ok t ∧ status = status_of t ∧ run sys = error_of t
  end ∧
  (is_error (run sys) = false ↔
    mmap_error sys = None ∧ fork_error sys = None ∧ exec_error sys = None ∧ waitpid sys = inr (status_of (Exited_With 0))).
Proof.
  intros (Hm & Hf & He & Hw). unfold run, is_error.
  destruct (mmap_error sys) as [m|]; [by simplify_errno m|].
  destruct (fork_error sys) as [f|]; [by simplify_errno f|].
  destruct (waitpid sys) as [w|status]; [by simplify_errno w|].
  destruct (exec_error sys) as [e|]; simpl.
  - destruct (Z.eqb_spec e 0) as [->|]; [done|]. by simplify_errno e.
  - destruct Hw as (t & Ht & ->). rewrite (decode_status_of _ Ht). split; [eauto|].
    destruct t as [code|signal core]; simpl in *.
    + destruct (Z.eqb_spec code 0) as [->|]; [done|]. simpl. destruct (Z.eqb_spec code 0) as [?|?]; [lia|].
      split; [done|]. intros (_ & _ & _ & [=]). lia.
    + destruct (Z.eqb_spec signal 0) as [?|?]; [lia|]. split; [done|]. intros (_ & _ & _ & [=]). destruct core; lia.
Qed.

Lemma run_reports_witness :
  let sys := mk_System None None (Some 2) (inr (status_of (Exited_With 1))) in
  run sys = mk_Error_Code 2 Generic ∧
  run (mk_System None None None (inl 4)) = mk_Error_Code 4 Generic ∧
  (is_error (run (mk_System None None None (inr 0))) = false).
Proof.
  split_and!.
  - apply (run_reports (mk_System None None (Some 2) (inr (status_of (Exited_With 1))))).
    split_and!; [done..|]. exists (Exited_With 1). simpl. split; [lia|done].
  - apply (run_reports (mk_System None None None (inl 4))). by split_and!.
  - apply (run_reports (mk_System None None None (inr 0))); [|done].
    split_and!; [done..|]. exists (Exited_With 0). simpl. split; [lia|done].
Defined.

(** C37: A command is echoed so that the shell reads its arguments back, where none
    of them has a single quote in it. *)
Theorem shell_quote_roundtrip value :
  single_quote ∉ value → shell_word false (shell_quote value) = Some value.
Proof.
  intros Hq. unfold shell_quote. destruct value as [|c v]; [done|].
  destruct (forallb is_safe (c :: v)) eqn:Hs; [by apply shell_word_safe|].
  rewrite quote_loop_plain by done. rewrite <-app_assoc. cbn [app shell_word].
  rewrite decide_True by done. by apply (shell_word_quoted (c :: v)).
Qed.

Lemma shell_quote_roundtrip_witness : shell_word false (shell_quote (chars "a b$c")) = Some (chars "a b$c").
Proof. apply (shell_quote_roundtrip (chars "a b$c")). by apply (bool_decide_unpack _). Defined.

(** A backslash does not escape a quote between single quotes: the shell reads
    another text, or waits for the end of a quote. *)
Lemma shell_quote_with_quote :
  shell_quote (chars "a 'b") = chars "'a \'b'" ∧ shell_word false (shell_quote (chars "a 'b")) = None ∧
  shell_word false (shell_quote (chars "a'b'c ")) = None.
Proof. by vm_compute. Qed.
