(* ===== verification/Pipes.v ===== *)
(** * Streams from other programs (src/src/ipstream.hh)

    [basic_ipstream] runs a command in a shell with one of its output streams
    connected to a pipe, and reads from that.  Descriptors of a process are a
    finite map; what [pipe], [fork] and [waitpid] return is taken from the state
    of the system. *)

From S2P Require Import Prelude Syntax Errors Process.

Open Scope Z_scope.

(** ** Descriptors *)

(** The ends of the pipe with a number, the null device, or another file. *)
Inductive file := Read_End (pipe : nat) | Write_End (pipe : nat) | Dev_Null | File (path : string).

#[export] Instance file_eq : EqDecision file.
Proof. solve_decision. Defined.

Abbreviation descriptors := (gmap Z file).

Module Captured_Stream.
Inductive captured_stream := default_output | error_output.
End Captured_Stream.
Abbreviation captured_stream := Captured_Stream.captured_stream.

(** [STDOUT_FILENO] and [STDERR_FILENO] *)
Definition fd_of (s : captured_stream) : Z :=
  match s with Captured_Stream.default_output => 1 | Captured_Stream.error_output => 2 end.

(** The standard stream that is not captured. *)
Definition other_fd (s : captured_stream) : Z :=
  match s with Captured_Stream.default_output => 2 | Captured_Stream.error_output => 1 end.

Definition close (fd : Z) (t : descriptors) : descriptors := delete fd t.

Definition dup2 (old new : Z) (t : descriptors) : descriptors :=
  match t !! old with Some f => <[new := f]> t | None => t end.

(** [freopen] of a standard stream keeps its descriptor. *)
Definition freopen (fd : Z) (f : file) (t : descriptors) : descriptors := <[fd := f]> t.

(** ** Opening *)

(** A program started by [execv]: its path, arguments and descriptors. *)
Record image := mk_image { i_path : string; i_argv : list string; i_descriptors : descriptors }.

(** What the system answers: the two descriptors of the new pipe with its
    number, and what [fork] returns in the parent (negative: there is no child). *)
Record Answers := mk_Answers { pipe_answer : option (Z * Z * nat); fork_answer : Z }.

(** What [open_process] leaves: the descriptors of the parent, the identifier
    it stores, the descriptor of the stream buffer if that is open, and the
    program of the child. *)
Record opened := mk_opened {
  o_descriptors : descriptors;
  o_pid : Z;
  o_filebuf : option Z;
  o_child : option image;
}.

(** The child, between [fork] and [execv]. *)
Definition child_descriptors (read_fd write_fd : Z) (fdOfChild : captured_stream) (t : descriptors) : descriptors :=
  let t := close read_fd t in
  let t :=
    if negb (write_fd =? fd_of fdOfChild) then close write_fd (dup2 write_fd (fd_of fdOfChild) t) else t in
  close (other_fd fdOfChild) (freopen (other_fd fdOfChild) Dev_Null t).

Definition open_process (ans : Answers) (program : string) (fdOfChild : captured_stream) (t : descriptors) (pid : Z)
    : opened :=
  match pipe_answer ans with
  | None => mk_opened t pid None None
  | Some (read_fd, write_fd, n) =>
    let t := <[write_fd := Write_End n]> (<[read_fd := Read_End n]> t) in
    let pid := fork_answer ans in
    if pid <? 0 then mk_opened (close write_fd (close read_fd t)) pid None None
    else
      mk_opened (close write_fd t) pid (Some read_fd)
        (Some (mk_image "/bin/sh" ["sh"; "-c"; program]%string (child_descriptors read_fd write_fd fdOfChild t)))
  end.

(** ** Closing *)

(** [Exit_Code_Exception] *)
Record Exit_Code_Exception := mk_Exit_Code_Exception { exit_code : Z; what : string }.

Definition exit_code_exception (code : Z) (type : string) : Exit_Code_Exception :=
  mk_Exit_Code_Exception code
    ("Program execution was " +:+ type +:+ " with exit code = " +:+ to_string code).

(** The exception [close_process] throws for a status, if any. *)
Definition status_exception (status : Z) : option Exit_Code_Exception :=
  if WIFEXITED status then
    if WEXITSTATUS status =? 0 then None else Some (exit_code_exception (WEXITSTATUS status) "exited")
  else if WIFSIGNALED status then Some (exit_code_exception (WTERMSIG status) "signaled")
  else if WIFSTOPPED status then Some (exit_code_exception (WSTOPSIG status) "stopped")
  else None.

(** How a member function ends: it returns, it throws, or the process is
    aborted, by an assertion or by an exception that leaves a [noexcept]
    function. *)
Inductive finish := Returns | Throws (e : Exit_Code_Exception) | Aborts.

(** The state of the process: its descriptors and its children that have not
    been waited for, each with the status it ends with. *)
Record process := mk_process { p_descriptors : descriptors; p_children : gmap Z Z }.

(** [waitpid(pid, &status, 0)]: for -1 any child, of which [any] chooses one;
    [None] is the error [ECHILD]. *)
Definition wait (any : gmap Z Z → option Z) (pid : Z) (p : process) : option (Z * process) :=
  pid ← (if pid =? -1 then any (p_children p) else Some pid);
  status ← p_children p !! pid;
  Some (status, mk_process (p_descriptors p) (delete pid (p_children p))).

(** [basic_ipstream]: the descriptor of its buffer, and the process. *)
Record ipstream := mk_ipstream { filebuf : option Z; pid : Z }.

(** The buffer closes its descriptor if it is open. *)
Definition filebuf_close (s : ipstream) (p : process) : ipstream * process :=
  match filebuf s with
  | Some fd => (mk_ipstream None (pid s), mk_process (close fd (p_descriptors p)) (p_children p))
  | None => (s, p)
  end.

Section Streams.
  Context (any : gmap Z Z → option Z).

Definition close_process (s : ipstream) (p : process) : ipstream * process * finish :=
  match wait any (pid s) p with
  | None => (s, p, Aborts)
  | Some (status, p) =>
    let '(s, p) := filebuf_close s p in
    (s, p, match status_exception status with Some e => Throws e | None => Returns end)
  end.

(** The default constructor, [is_open], [close] and the destructor. *)
Definition new_ipstream : ipstream := mk_ipstream None (-1).

Definition is_open (s : ipstream) : bool := bool_decide (is_Some (filebuf s)).

Definition ipstream_close (s : ipstream) (p : process) : ipstream * process * finish :=
  match close_process s p with
  | (s, p, Returns) => let '(s, p) := if is_open s then filebuf_close s p else (s, p) in (s, p, Returns)
  | r => r
  end.

Definition destroy (s : ipstream) (p : process) : process * finish :=
  match ipstream_close s p with
  | (_, p, Throws _) => (p, Aborts)
  | (_, p, f) => (p, f)
  end.

(** [open]: the buffer of the new process is moved into the stream, which
    closes the one it has.  [ends] is the status the child will end with. *)
Definition ipstream_open (ans : Answers) (ends : Z) (program : string) (stream : captured_stream)
    (s : ipstream) (p : process) : ipstream * process * option image :=
  let o := open_process ans program stream (p_descriptors p) (pid s) in
  let p := mk_process (o_descriptors o)
    (match o_child o with Some _ => <[o_pid o := ends]> (p_children p) | None => p_children p end) in
  let '(_, p) := filebuf_close s p in
  (mk_ipstream (o_filebuf o) (o_pid o), p, o_child o).

(** The constructor from a program.  The members are initialised in the order
    of their declarations: [open_process] stores the identifier of the child,
    and the initialiser of [pid] behind it overwrites that. *)
Definition ipstream_of (ans : Answers) (ends : Z) (program : string) (stream : captured_stream) (p : process)
    : ipstream * process * option image :=
  let '(s, p, child) := ipstream_open ans ends program stream new_ipstream p in
  (mk_ipstream (filebuf s) (-1), p, child).

End Streams.

(** ** Properties *)

(** The descriptors of a new pipe: they were free, and so was its number. *)
Record fresh_pipe (r w : Z) (n : nat) (t : descriptors) : Prop := {
  fresh_distinct : r ≠ w;
  fresh_read : t !! r = None;
  fresh_write : t !! w = None;
  fresh_ends : ∀ fd, t !! fd ≠ Some (Read_End n) ∧ t !! fd ≠ Some (Write_End n);
}.

Lemma fd_of_other s : fd_of s ≠ other_fd s.
Proof. by destruct s. Qed.

Lemma child_descriptors_lookup r w n stream t fd :
  fresh_pipe r w n t →
  child_descriptors r w stream (<[w := Write_End n]> (<[r := Read_End n]> t)) !! fd =
    if decide (fd = fd_of stream) then Some (Write_End n)
    else if decide (fd = other_fd stream) then None else t !! fd.
Proof.
  intros [Hrw Hr Hw _]. unfold child_descriptors, close, freopen, dup2. pose proof (fd_of_other stream) as Ho.
  rewrite (lookup_delete_ne _ r w), lookup_insert_eq by done.
  destruct (w =? fd_of stream) eqn:Hfd; [apply Z.eqb_eq in Hfd|apply Z.eqb_neq in Hfd]; cbn [negb];
    repeat (rewrite lookup_delete || rewrite lookup_insert); repeat (case_decide; simplify_eq); congruence.
Qed.

Lemma open_process_eq ans program stream t pid0 r w n :
  pipe_answer ans = Some (r, w, n) → 0 < fork_answer ans → fresh_pipe r w n t →
  open_process ans program stream t pid0 =
    mk_opened (<[r := Read_End n]> t) (fork_answer ans) (Some r) (Some (mk_image "/bin/sh" ["sh"; "-c"; program]%string
      (child_descriptors r w stream (<[w := Write_End n]> (<[r := Read_End n]> t))))).
Proof.
  intros Hp Hf Hfresh. unfold open_process. rewrite Hp. replace (fork_answer ans <? 0) with false by (symmetry; lia).
  unfold close. rewrite delete_insert_id; [done|]. rewrite lookup_insert_ne by apply Hfresh. apply Hfresh.
Qed.

(** C40: A program opened for reading: the child is the shell on the command, with
    the captured stream at the only end for writing and no end for reading; its
    other stream is closed, and its other descriptors are those of the parent.
    The parent has the end for reading and no other new descriptor, so that it
    sees the end of the stream when the child is done. *)
Theorem open_process_connects ans program stream t pid0 r w n :
  pipe_answer ans = Some (r, w, n) → 0 < fork_answer ans → fresh_pipe r w n t →
  ∃ child, open_process ans program stream t pid0 =
      mk_opened (<[r := Read_End n]> t) (fork_answer ans) (Some r) (Some child) ∧
    i_argv child = ["sh"; "-c"; program]%string ∧
    (∀ fd, i_descriptors child !! fd = Some (Write_End n) ↔ fd = fd_of stream) ∧
    (∀ fd, i_descriptors child !! fd ≠ Some (Read_End n)) ∧
    i_descriptors child !! other_fd stream = None ∧
    (∀ fd, fd ≠ 1 → fd ≠ 2 → i_descriptors child !! fd = t !! fd).
Proof.
  intros Hp Hf Hfresh. pose proof (fd_of_other stream) as Ho.
  eexists. rewrite (open_process_eq _ _ _ _ _ r w n) by done. split; [done|].
  cbn [i_argv i_descriptors]. split_and!; [done| | | |]; [intros fd|intros fd| |intros fd H1 H2];
    rewrite (child_descriptors_lookup _ _ n) by done; repeat case_decide; try done; try (split; [|done]).
  - intros Hd. by destruct (proj2 (fresh_ends _ _ _ _ Hfresh fd)).
  - apply (fresh_ends _ _ _ _ Hfresh).
  - by destruct stream.
  - by destruct stream.
Qed.

Definition terminal : descriptors := {[0 := File "tty"; 1 := File "tty"; 2 := File "tty"]}.

Lemma terminal_fresh r w n : 2 < r → r < w → fresh_pipe r w n terminal.
Proof.
  intros Hr Hw. assert (∀ fd f, terminal !! fd = Some f → fd <= 2 ∧ f = File "tty") as H.
  { intros fd f Hl. unfold terminal in Hl. repeat (apply lookup_insert_Some in Hl as [[? ?]|[? Hl]]; [lia || (split; [lia|done])|]).
    apply lookup_singleton_Some in Hl as [? ?]. split; [lia|done]. }
  assert (∀ fd, 2 < fd → terminal !! fd = None) as Hn.
  { intros fd Hfd. destruct (terminal !! fd) eqn:He; [|done]. apply H in He as [? _]. lia. }
  split; [lia|apply Hn; lia|apply Hn; lia|]. intros fd. split; intros Hl; by apply H in Hl as [_ ?].
Qed.

Lemma open_process_connects_witness :
  ∃ child, open_process (mk_Answers (Some (3, 4, 0%nat)) 100) "ls" Captured_Stream.default_output terminal (-1) =
    mk_opened (<[3 := Read_End 0]> terminal) 100 (Some 3) (Some child) ∧
    i_descriptors child !! 1 = Some (Write_End 0) ∧ i_descriptors child !! 2 = None.
Proof.
  destruct (open_process_connects (mk_Answers (Some (3, 4, 0%nat)) 100) "ls" Captured_Stream.default_output terminal (-1) 3 4 0) as (child & H & _ & H1 & _ & H2 & _).
  - done.
  - simpl. lia.
  - apply terminal_fresh; lia.
  - exists child. split_and!; [done|by apply H1|done].
Defined.

(** What [waitpid] promises of "any child": one of them, if there is one. *)
Definition waits_any (any : gmap Z Z → option Z) : Prop :=
  ∀ m, match any m with Some k => is_Some (m !! k) | None => m = ∅ end.

Lemma waits_any_singleton any k v : waits_any any → any {[k := v]} = Some k.
Proof.
  intros H. specialize (H {[k := v]}). destruct (any _) as [k'|]; [|by apply map_non_empty_singleton in H].
  destruct H as [v' Hv]. by apply lookup_singleton_Some in Hv as [-> _].
Qed.

Lemma waits_any_empty any : waits_any any → any ∅ = None.
Proof. intros H. specialize (H ∅). destruct (any _); [|done]. by destruct H. Qed.

(** How closing a stream is meant to end, for the way its program did. *)
Definition close_outcome (t : termination) : finish :=
  match t with
  | Exited_With code =>
    if code =? 0 then Returns
    else Throws (mk_Exit_Code_Exception code ("Program execution was exited with exit code = " +:+ to_string code))
  | Killed_By signal _ =>
    Throws (mk_Exit_Code_Exception signal ("Program execution was signaled with exit code = " +:+ to_string signal))
  end.

(** The numbers of a status, and which of the macros tell the two ways to end
    apart. *)
Lemma status_of_macros t :
  termination_ok t →
  match t with
  | Exited_With code => WIFEXITED (status_of t) = true ∧ WEXITSTATUS (status_of t) = code
  | Killed_By signal _ =>
    WIFEXITED (status_of t) = false ∧ WIFSIGNALED (status_of t) = true ∧ WTERMSIG (status_of t) = signal
  end.
Proof.
  intros Ht. pose proof (decode_status_of t Ht) as H. unfold decode_status in H.
  destruct t as [code|signal core]; simpl in H, Ht.
  - destruct (WIFEXITED _); [|repeat case_match; discriminate H].
    split; [done|]. cbn [status_of]. destruct (Z.eqb_spec (WEXITSTATUS (code * 2 ^ 8)) 0), (Z.eqb_spec code 0); inv H; congruence.
  - destruct (WIFEXITED _); [case_match; discriminate H|].
    destruct (WIFSIGNALED _); [|case_match; discriminate H]. cbn [status_of] in *. injection H as ->. done.
Qed.

Lemma close_status t :
  termination_ok t →
  match status_exception (status_of t) with Some e => Throws e | None => Returns end = close_outcome t.
Proof.
  intros Ht. pose proof (status_of_macros t Ht) as H. unfold status_exception, close_outcome.
  destruct t as [code|signal core].
  - destruct H as [-> ->]. by destruct (code =? 0).
  - by destruct H as (-> & -> & ->).
Qed.

(** C39: A stream with a program, in a process without other children: it is open,
    closing it waits for the program, returns if that exited with 0 and throws
    its exit code or the signal that ended it otherwise, and the descriptors
    and the children of the process are as before.  The destructor does the
    same, and where [close] throws it aborts the process; after [close] has
    been called it always aborts. *)
Theorem ipstream_lifecycle any ans t program stream p r w n :
  waits_any any → pipe_answer ans = Some (r, w, n) → 0 < fork_answer ans →
  fresh_pipe r w n (p_descriptors p) → p_children p = ∅ → termination_ok t →
  ∃ s p1 child, ipstream_of ans (status_of t) program stream p = (s, p1, Some child) ∧ is_open s = true ∧
    ipstream_close any s p1 = (new_ipstream, p, close_outcome t) ∧
    destroy any s p1 = (p, if decide (t = Exited_With 0) then Returns else Aborts) ∧
    destroy any new_ipstream p = (p, Aborts).
Proof.
  intros Hany Hp Hf Hfresh Hc Hok. destruct p as [d cs]; simpl in *; subst cs.
  assert (delete r (<[r := Read_End n]> d) = d) as Hd by (apply delete_insert_id, Hfresh).
  exists (mk_ipstream (Some r) (-1)), (mk_process (<[r := Read_End n]> d) {[fork_answer ans := status_of t]}). eexists.
  split; [unfold ipstream_of, ipstream_open; cbn; by rewrite (open_process_eq _ _ _ _ _ r w n)|].
  split; [done|].
  assert (ipstream_close any (mk_ipstream (Some r) (-1)) (mk_process (<[r := Read_End n]> d) {[fork_answer ans := status_of t]}) =
    (new_ipstream, mk_process d ∅, close_outcome t)) as Hclose.
  { rewrite <-close_status by done. unfold ipstream_close, close_process, wait. cbn. rewrite waits_any_singleton by done. cbn.
    rewrite lookup_singleton_eq. cbn. rewrite delete_singleton_eq. unfold close. rewrite Hd. by destruct (status_exception _). }
  split; [done|]. unfold destroy. rewrite Hclose. split.
  - destruct t as [code|]; simpl; [|done]. destruct (Z.eqb_spec code 0) as [->|]; [done|].
    by rewrite decide_False by congruence.
  - unfold ipstream_close, close_process, wait. cbn. by rewrite waits_any_empty.
Qed.

(** One of the children. *)
Definition first_child (m : gmap Z Z) : option Z := fst <$> head (map_to_list m).

Lemma first_child_waits : waits_any first_child.
Proof.
  intros m. unfold first_child. destruct (map_to_list m) as [|[k v] l] eqn:Hm; cbn.
  - by apply map_to_list_empty_iff.
  - exists v. apply elem_of_map_to_list. rewrite Hm. by left.
Qed.

Lemma ipstream_lifecycle_witness :
  let p := mk_process terminal ∅ in let ans := mk_Answers (Some (3, 4, 0%nat)) 100 in
  ∃ s p1 child, ipstream_of ans 256 "false" Captured_Stream.default_output p = (s, p1, Some child) ∧ is_open s = true ∧
    ipstream_close first_child s p1 =
      (new_ipstream, p, Throws (mk_Exit_Code_Exception 1 "Program execution was exited with exit code = 1")) ∧
    destroy first_child s p1 = (p, Aborts).
Proof.
  destruct (ipstream_lifecycle first_child (mk_Answers (Some (3, 4, 0%nat)) 100) (Exited_With 1) "false"
    Captured_Stream.default_output (mk_process terminal ∅) 3 4 0) as (s & p1 & child & H & Ho & Hc & Hd & _).
  - exact first_child_waits.
  - done.
  - simpl. lia.
  - apply terminal_fresh; lia.
  - done.
  - simpl. lia.
  - intros p ans. exists s, p1, child. split_and!; [done|done|exact Hc|exact Hd].
Defined.

(** Of two streams, closing the second one, whose program exits with 0, throws
    the exit code of the first one: the constructor loses the identifier of the
    child. *)
Lemma ipstream_waits_for_another :
  let p := mk_process terminal ∅ in
  let '(s1, p1, _) := ipstream_of (mk_Answers (Some (3, 4, 0%nat)) 101) 256 "false" Captured_Stream.default_output p in
  let '(s2, p2, _) := ipstream_of (mk_Answers (Some (4, 5, 1%nat)) 100) 0 "true" Captured_Stream.default_output p1 in
  (ipstream_close first_child s2 p2).2 = Throws (exit_code_exception 1 "exited").
Proof. vm_compute. reflexivity. Qed.
