(* ===== verification/Driver.v ===== *)
(** * The driver (src/src/stacky.cc)

    The table of intrinsics, the search for included files, the loop that
    replaces [include] and [import] by the tokens of a file, the table of jump
    targets, and the sequence of passes of [main].  What the file system
    answers is a parameter, and so is the order in which the unordered maps are
    iterated. *)

From S2P Require Import Prelude Syntax Errors TypeNames Lexer Parser Crossref Operations Types Codegen Optimizer.

Open Scope Z_scope.

(** ** The command line (src/src/arguments.cc)

    The option parser is a library; around it, the arguments of the compiled
    program are split off, and the paths of the outputs are derived from the
    first source file. *)

Fixpoint split_arguments (args : list string) (seen_separator : bool) : list string * list string :=
  match args with
  | [] => ([], [])
  | arg :: args =>
    if seen_separator then let '(cmdline, arguments) := split_arguments args true in (cmdline, arg :: arguments)
    else if decide (arg = "--"%string) then split_arguments args true
    else let '(cmdline, arguments) := split_arguments args false in (arg :: cmdline, arguments)
  end.

(** ** Intrinsics *)

Definition as_intrinsic (kind : Intrinsic_Kind) (w : Word) : Word :=
  mk_Word WordKind.Intrinsic (w_ival w) kind (w_byte_size w) (w_id w) (w_function_body w)
    (w_relevant_word w) (w_has_effect w) (w_effect w) (w_is_dynamically_typed w) (w_location w) (w_function_name w).

Definition register_intrinsic (words : Words) (name : string) (kind : Intrinsic_Kind) : Words :=
  <[name := as_intrinsic kind (default new_Word (words !! name))]> words.

Definition intrinsic_names : list (string * Intrinsic_Kind) :=
  [("random32", Intrinsic.Random32); ("random64", Intrinsic.Random64); ("!", Intrinsic.Boolean_Negate);
   ("!=", Intrinsic.Not_Equal); ("*", Intrinsic.Mul); ("+", Intrinsic.Add); ("-", Intrinsic.Subtract);
   ("2drop", Intrinsic.Two_Drop); ("2dup", Intrinsic.Two_Dup); ("2over", Intrinsic.Two_Over);
   ("2swap", Intrinsic.Two_Swap); ("<", Intrinsic.Less); ("<<", Intrinsic.Left_Shift); ("<=", Intrinsic.Less_Eq);
   ("=", Intrinsic.Equal); (">", Intrinsic.Greater); (">=", Intrinsic.Greater_Eq); (">>", Intrinsic.Right_Shift);
   ("and", Intrinsic.Boolean_And); ("bit-and", Intrinsic.Bitwise_And); ("bit-or", Intrinsic.Bitwise_Or);
   ("bit-xor", Intrinsic.Bitwise_Xor); ("call", Intrinsic.Call); ("div", Intrinsic.Div);
   ("divmod", Intrinsic.Div_Mod); ("drop", Intrinsic.Drop); ("dup", Intrinsic.Dup); ("max", Intrinsic.Max);
   ("min", Intrinsic.Min); ("mod", Intrinsic.Mod); ("or", Intrinsic.Boolean_Or); ("over", Intrinsic.Over);
   ("load16", Intrinsic.Load); ("load32", Intrinsic.Load); ("load64", Intrinsic.Load); ("load8", Intrinsic.Load);
   ("rot", Intrinsic.Rot); ("swap", Intrinsic.Swap); ("syscall0", Intrinsic.Syscall);
   ("syscall1", Intrinsic.Syscall); ("syscall2", Intrinsic.Syscall); ("syscall3", Intrinsic.Syscall);
   ("syscall4", Intrinsic.Syscall); ("syscall5", Intrinsic.Syscall); ("syscall6", Intrinsic.Syscall);
   ("top", Intrinsic.Top); ("tuck", Intrinsic.Tuck); ("store16", Intrinsic.Store); ("store32", Intrinsic.Store);
   ("store64", Intrinsic.Store); ("store8", Intrinsic.Store); ("argc", Intrinsic.Argc); ("argv", Intrinsic.Argv)]%string.

Definition register_intrinsics (words : Words) : Words :=
  foldl (λ ws e, register_intrinsic ws e.1 e.2) words intrinsic_names.

(** ** Included files *)

(** [operator/] of POSIX paths. *)
Definition path_append (p q : string) : string :=
  match chars q with
  | "/"%char :: _ => q
  | _ =>
    match reverse (chars p) with
    | [] | "/"%char :: _ => p +:+ q
    | _ => p +:+ "/" +:+ q
    end
  end.

(** [fs::path::has_parent_path] *)
Definition has_parent_path (p : string) : bool := negb (bool_decide (parent_path p = ""%string)).

Section Files.
  Context (exists_ is_directory : string → bool) (canonical : string → string).
  Context (contents : string → option string) (include_search_paths : list string).

Definition is_file (p : string) : bool := exists_ p && negb (is_directory p).

Definition search_include_path (includer_path include_path : string) : option string :=
  let local := path_append includer_path include_path in
  if has_parent_path include_path && is_file local then Some local
  else head (filter (λ p, is_file p = true) ((λ parent, path_append parent include_path) <$> include_search_paths)).

Record Include_State := mk_Include_State {
  is_tokens : list Token;
  already_imported : gset string;
  is_compile : bool;
}.

(** One round of the loop: the end of it, [return 1], or the next round. *)
Inductive round := Stop | Return_1 | Again (s : Include_State).

Definition include_round (s : Include_State) : comp round :=
  let tokens := is_tokens s in
  maybe_include ← extract_include_or_import tokens;
  match maybe_include with
  | None => mret Stop
  | Some (kind, includer_path, included_path, offset) =>
    let import := bool_decide (kind = Keyword.Import) in
    let included_path := if import then included_path +:+ ".stacky" else included_path in
    let splice new := take offset tokens ++ new ++ drop (offset + 2) tokens in
    match search_include_path includer_path included_path with
    | None =>
      token ← index tokens (offset + 1);
      error_fatal (Some (tok_location token)) ("Cannot find file " +:+ included_path)
    | Some path =>
      let full := canonical path in
      if import && bool_decide (full ∈ already_imported s)
      then mret (Again (mk_Include_State (splice []) (already_imported s) (is_compile s)))
      else
        let imported := if import then already_imported s ∪ {[full]} else already_imported s in
        match contents path with
        | None =>
          token ← index tokens (offset + 1);
          error (Some (tok_location token)) ("File " +:+ path +:+ " cannot be opened") ≫= λ _,
          mret Return_1
        | Some file =>
          '(included_file_tokens, ok) ← lex file path [];
          mret (Again (mk_Include_State (splice included_file_tokens) imported (is_compile s && ok)))
        end
    end
  end.

(** The loop: the tokens without includes, or [None] for [return 1]. *)
Fixpoint include_loop (fuel : nat) (s : Include_State) : comp (option Include_State) :=
  match fuel with
  | O => out_of_fuel
  | S fuel =>
    r ← include_round s;
    match r with
    | Stop => mret (Some s)
    | Return_1 => mret None
    | Again s => include_loop fuel s
    end
  end.

(** The loop over the source files: their tokens and [compile]. *)
Fixpoint lex_sources (paths : list string) (tokens : list Token) (compile : bool)
    : comp (option (list Token * bool)) :=
  match paths with
  | [] => mret (Some (tokens, compile))
  | path :: paths =>
    match contents path with
    | None => error None ("Source file '" +:+ path +:+ "' cannot be opened") ≫= λ _, mret None
    | Some file =>
      '(tokens, ok) ← lex file path tokens;
      lex_sources paths tokens (compile && ok)
    end
  end.

(** ** Jump targets *)

Fixpoint body_jump_targets (lookup : gset Label_Info) (ops : list Operation) (name : string)
    : comp (gset Label_Info) :=
  match ops with
  | [] => mret lookup
  | op :: ops =>
    match op_kind op with
    | OpKind.End | OpKind.If | OpKind.Else | OpKind.Do =>
      assert_impl (negb (op_jump op =? Empty_Jump)) "op.jump != Operation::Empty_Jump" ≫= λ _,
      body_jump_targets (lookup ∪ {[mk_Label name (op_jump op)]}) ops name
    | _ => body_jump_targets lookup ops name
    end
  end.

Fixpoint function_jump_targets (lookup : gset Label_Info) (words : list (string * Word)) : comp (gset Label_Info) :=
  match words with
  | [] => mret lookup
  | (name, def) :: words =>
    if decide (w_kind def ≠ WordKind.Function) then function_jump_targets lookup words
    else
      lookup ← body_jump_targets lookup (w_function_body def) name;
      function_jump_targets lookup words
  end.

Definition generate_jump_targets_lookup (order : list string) (g : Generation_Info) : comp Generation_Info :=
  lookup ← body_jump_targets (jump_targets_lookup g) (main g) "";
  lookup ← function_jump_targets lookup (entries (words g) order);
  mret (mk_Generation_Info (strings g) (words g) (main g) (undefined_words g) lookup).

(** ** The passes *)

(** The type checking of the words in their order, then of the program. *)
Fixpoint typecheck_words (fuel : nat) (ws : Words) (order : list (string * Word)) : comp unit :=
  match order with
  | [] => mret tt
  | (name, word) :: order =>
    if decide (w_kind word ≠ WordKind.Function) then typecheck_words fuel ws order
    else if w_is_dynamically_typed word then typecheck_words fuel ws order
    else if negb (w_has_effect word) then
      warning None ("function `" +:+ name +:+ "` without type signature") ≫= λ _,
      typecheck_words fuel ws order
    else typecheck_word ws fuel word ≫= λ _, typecheck_words fuel ws order
  end.

Definition typecheck_program (fuel : nat) (order : list string) (g : Generation_Info) : comp unit :=
  typecheck_words fuel (words g) (entries (words g) order) ≫= λ _,
  typecheck_main (words g) fuel (main g).

(** [--dump-effects] *)
Fixpoint dump_effects (order : list (string * Word)) : comp (list string) :=
  match order with
  | [] => mret []
  | (name, word) :: order =>
    if negb (w_has_effect word) then dump_effects order
    else
      s ← stack_effect_string (w_effect word);
      lines ← dump_effects order;
      mret (("`" +:+ name +:+ "`: " +:+ s) :: lines)
  end.

Record Options := mk_Options {
  source_files : list string;
  warn_redefinitions : bool;
  dump_words_effects : bool;
  typecheck : bool;
  assembly : string;
}.

(** What the environment decides: the orders of iteration of the words and of
    the strings, whether the assembly file can be written, and what this
    file's own copy of the flag [Compilation_Failed] says after some reports. *)
Record Environment := mk_Environment {
  word_order : Words → list string;
  string_order : gmap string Z → list (string * Z);
  asm_file : bool;
  failed : list Entry → bool;
}.

(** [if (Compilation_Failed) return 1;] after a computation. *)
Definition unless_failed {A B} (env : Environment) (m : comp A) (k : A → comp (option B)) : comp (option B) :=
  if failed env m.1 then m ≫= λ _, mret None else m ≫= k.

Section Passes.
  Context (env : Environment) (opts : Options) (fuel : nat).

(** From the tokens to the operations. *)
Definition parse_tokens (tokens : list Token) : comp Generation_Info :=
  '(tokens, strings, _) ← extract_strings tokens ∅ 0;
  '(tokens, registry) ← register_definitions (warn_redefinitions opts) tokens
    (mk_Registry (register_intrinsics ∅) 0 0);
  st ← into_operations tokens (mk_PState (reg_words registry) []);
  mret (mk_Generation_Info strings (ps_words st) (ps_main st) ∅ ∅).

(** From the operations to the assembly; the program as the optimizer left it
    is the one a graph is drawn of. *)
Definition compile_operations (g : Generation_Info) : comp (Generation_Info * list line) :=
  (if dump_words_effects opts
   then dump_effects (entries (words g) (word_order env (words g))) ≫= λ _, mret tt else mret tt) ≫= λ _,
  (if typecheck opts then typecheck_program fuel (word_order env (words g)) g else mret tt) ≫= λ _,
  g ← optimize fuel (word_order env (words g)) g;
  g ← generate_jump_targets_lookup (word_order env (words g)) g;
  code ← generate_assembly g (entries (words g) (word_order env (words g))) (string_order env (strings g))
    (assembly opts) (asm_file env);
  mret (g, code).

(** [main] up to the call of the assembler: [None] is [return 1]. *)
Definition compile_program : comp (option (Generation_Info * list line)) :=
  sources ← lex_sources (source_files opts) [] true;
  match sources with
  | None | Some (_, false) => mret None
  | Some (tokens, true) =>
    included ← include_loop fuel (mk_Include_State tokens ∅ true);
    match included with
    | None => mret None
    | Some s => unless_failed env (parse_tokens (is_tokens s)) (λ g, code ← compile_operations g; mret (Some code))
    end
  end.

End Passes.
End Files.
