(* ===== verification/Definitions.v ===== *)
(** * Programs with function definitions

    The translation of tokens into operations on structured programs with
    constants, arrays and nested, named and anonymous functions: a tree of the
    program, its tokens, and what [into_operations] makes of them. *)

From S2P Require Import Prelude Syntax Errors TypeNames Lexer Parser Crossref Operations Driver.

Open Scope char_scope.
Open Scope Z_scope.

(** ** Programs as trees *)

(** What stands between [fun] and the body of a function: nothing, [dyn], or
    the types of its inputs, [--], the types of its outputs and [is]. *)
Inductive specifier :=
  | No_specifier
  | Dynamic (dyn : Token)
  | Typed (ins outs : list Token) (divider is_ : Token) (effect : Stack_Effect).

(** A named function has its name in front of [fun]; an anonymous one leaves an
    operation that pushes its address. *)
Inductive header := Named (name : Token) | Anonymous (op : Operation).

(** A part of a program: a token with its operation, a function, with its body
    also as a block, or the definition of a constant or an array. *)
Inductive element :=
  | Plain (t : Token) (o : Operation)
  | Function (h : header) (fn : Token) (s : specifier) (body : list element) (b : block) (end_ : Token)
  | Definition_of (name value keyword : Token).

Section Element_ind.
  Context (P : element → Prop).
  Context (Hplain : ∀ t o, P (Plain t o)) (Hdef : ∀ n v k, P (Definition_of n v k)).
  Context (Hfun : ∀ h fn s body b end_, Forall P body → P (Function h fn s body b end_)).

Lemma element_nested_ind e : P e.
Proof.
  revert e. fix IH 1. intros [t o|h fn s body b end_|n v k]; [apply Hplain| |apply Hdef].
  apply Hfun. induction body as [|e body IHb]; constructor; [apply IH|apply IHb].
Qed.

End Element_ind.

Definition specifier_tokens (s : specifier) : list Token :=
  match s with
  | No_specifier => []
  | Dynamic dyn => [dyn]
  | Typed ins outs divider is_ _ => ins ++ divider :: outs ++ [is_]
  end.

Definition name_tokens (h : header) : list Token := match h with Named name => [name] | Anonymous _ => [] end.

Fixpoint tokens_of (e : element) : list Token :=
  match e with
  | Plain t _ => [t]
  | Function h fn s body _ end_ => name_tokens h ++ fn :: specifier_tokens s ++ (body ≫= tokens_of) ++ [end_]
  | Definition_of name value keyword => [name; value; keyword]
  end.

(** The operations in the body that contains the element. *)
Definition ops_of (e : element) : list Operation :=
  match e with
  | Plain _ o => [o]
  | Function (Anonymous op) _ _ _ _ _ => [op]
  | _ => []
  end.

Definition function_of (h : header) (fn : Token) : string :=
  match h with Named name => tok_sval name | Anonymous _ => anonymous_name (tok_ival fn) end.

(** The functions an element defines. *)
Fixpoint functions_of (e : element) : list string :=
  match e with
  | Function h fn _ body _ _ => function_of h fn :: (body ≫= functions_of)
  | _ => []
  end.

(** ** Well-formed programs *)

Definition is_keyword (k : Keyword_Kind) (t : Token) : Prop := tok_kind t = TokKind.Keyword ∧ tok_kval t = k.

Inductive specifier_ok : specifier → Prop :=
  | ok_none : specifier_ok No_specifier
  | ok_dynamic dyn : is_keyword Keyword.Dynamic dyn → specifier_ok (Dynamic dyn)
  | ok_typed ins outs divider is_ effect :
    Forall (is_keyword Keyword.Typename) (ins ++ outs) →
    is_keyword Keyword.Stack_Effect_Divider divider → is_keyword Keyword.Stack_Effect_Definition is_ →
    Forall2 (λ t type, Type_from t = mret type) ins (input effect) →
    Forall2 (λ t type, Type_from t = mret type) outs (output effect) →
    specifier_ok (Typed ins outs divider is_ effect).

(** A header fits its [fun], for a table of words: the word is registered. *)
Inductive header_ok (words : Words) (fn : Token) : header → Prop :=
  | ok_named name w :
    tok_kind name = TokKind.Word → front (chars (tok_sval fn)) ≠ "&" → words !! tok_sval name = Some w →
    header_ok words fn (Named name)
  | ok_anonymous w :
    front (chars (tok_sval fn)) = "&" → words !! anonymous_name (tok_ival fn) = Some w →
    header_ok words fn (Anonymous (lambda_op fn w)).

Inductive element_ok (words : Words) : element → Prop :=
  | ok_plain t o : translates words t o → element_ok words (Plain t o)
  | ok_function h fn s body b end_ :
    is_keyword Keyword.Function fn → is_keyword Keyword.End end_ → header_ok words fn h → specifier_ok s →
    Forall (element_ok words) body → body ≫= ops_of = flatten b → block_ok b →
    element_ok words (Function h fn s body b end_).

(** At the top of a program there are definitions of constants and arrays, too. *)
Inductive item_ok (words : Words) : element → Prop :=
  | ok_element e : element_ok words e → item_ok words e
  | ok_definition name value keyword :
    tok_kind name = TokKind.Word → tok_kind value = TokKind.Integer ∨ tok_kind value = TokKind.Word →
    is_keyword Keyword.Constant keyword ∨ is_keyword Keyword.Array keyword →
    item_ok words (Definition_of name value keyword).

(** ** What the definitions mean *)

Fixpoint block_map (g : Operation → Operation) (b : block) : block :=
  match b with
  | B_nil => B_nil
  | B_op op r => B_op (g op) (block_map g r)
  | B_if o1 t o2 r => B_if (g o1) (block_map g t) (g o2) (block_map g r)
  | B_if_else o1 t o2 e o3 r =>
    B_if_else (g o1) (block_map g t) (g o2) (block_map g e) (g o3) (block_map g r)
  | B_while o1 c o2 b o3 r =>
    B_while (g o1) (block_map g c) (g o2) (block_map g b) (g o3) (block_map g r)
  end.

Definition in_function (name : string) (o : Operation) : Operation :=
  set_op_location (with_function (op_location o) name) o.

Definition specify (s : specifier) (w : Word) : Word :=
  match s with No_specifier => w | Dynamic _ => set_dynamic w | Typed _ _ _ _ effect => set_effect effect w end.

(** The word of a function: its effect or that it is dynamic, and its body with
    resolved jumps and locations in the function. *)
Definition define_function (s : specifier) (b : block) (w : Word) : Word :=
  set_body (link 0 (block_map (in_function (w_function_name w)) b)) (specify s w).

Fixpoint define (e : element) (words : Words) : Words :=
  match e with
  | Function h fn s body b _ => alter (define_function s b) (function_of h fn) (foldr define words body)
  | _ => words
  end.

(** A function at the top of the program also gets its name. *)
Definition name_function (e : element) (words : Words) : Words :=
  match e with
  | Function (Named name) _ _ _ _ _ => alter (set_function_name (tok_sval name)) (tok_sval name) words
  | _ => words
  end.

Definition define_item (e : element) (words : Words) : Words := define e (name_function e words).

(** ** Searching for the start of a block *)

(** The search passes over the tokens [l]. *)
Definition passes (l : list Token) : Prop := ∀ rest n, scan (reverse l ++ rest) (S n) = scan rest (S n).

Lemma passes_nil : passes [].
Proof. by intros rest n. Qed.

Lemma passes_app l1 l2 : passes l1 → passes l2 → passes (l1 ++ l2).
Proof. intros H1 H2 rest n. rewrite reverse_app, <-app_assoc, H2. apply H1. Qed.

Lemma passes_neutral t : bracket_of t = Neutral → passes [t].
Proof. intros Ht rest n. cbn. by rewrite Ht. Qed.

Lemma passes_Forall l : Forall (λ t, bracket_of t = Neutral) l → passes l.
Proof.
  induction 1 as [|t l Ht _ IH]; [apply passes_nil|]. apply (passes_app [t]); [by apply passes_neutral|done].
Qed.

(** Brackets around tokens that are passed. *)
Lemma passes_brackets open l close :
  bracket_of open = Opens → bracket_of close = Closes → passes l → passes (open :: l ++ [close]).
Proof.
  intros Ho Hc Hl rest n. rewrite reverse_cons, reverse_snoc. cbn [app scan]. rewrite Hc, <-app_assoc, Hl.
  cbn [app scan]. by rewrite Ho.
Qed.

Lemma bracket_word t : tok_kind t ≠ TokKind.Keyword → bracket_of t = Neutral.
Proof. intros H. unfold bracket_of. by rewrite decide_False. Qed.

Lemma bracket_keyword k t :
  is_keyword k t →
  bracket_of t = match k with
    | Keyword.End => Closes | Keyword.Function | Keyword.If | Keyword.While => Opens | _ => Neutral end.
Proof. intros [H1 H2]. unfold bracket_of. by rewrite decide_True, H2. Qed.

Lemma specifier_neutral s : specifier_ok s → Forall (λ t, bracket_of t = Neutral) (specifier_tokens s).
Proof.
  intros [|dyn Hd|ins outs divider is_ effect Ht Hdiv Hi _ _]; cbn [specifier_tokens].
  - constructor.
  - constructor; [|constructor]. by rewrite (bracket_keyword _ _ Hd).
  - assert (Forall (λ t, bracket_of t = Neutral) (ins ++ outs)) as Hn.
    { eapply list.Forall_impl; [exact Ht|]. intros t Hk. by rewrite (bracket_keyword _ _ Hk). }
    apply Forall_app in Hn as [H1 H2]. apply Forall_app. split; [done|]. constructor.
    + by rewrite (bracket_keyword _ _ Hdiv).
    + apply Forall_app. split; [done|]. constructor; [|constructor]. by rewrite (bracket_keyword _ _ Hi).
Qed.

Lemma ops_split es : ∀ l1 o l2, es ≫= ops_of = l1 ++ o :: l2 →
  ∃ es1 e es2, es = es1 ++ e :: es2 ∧ es1 ≫= ops_of = l1 ∧ ops_of e = [o] ∧ es2 ≫= ops_of = l2.
Proof.
  induction es as [|e es IH]; intros l1 o l2 H; [by destruct l1|]. rewrite bind_cons in H.
  assert (ops_of e = [] ∨ ∃ o', ops_of e = [o']) as [He|[o' He]] by (destruct e as [|[]|]; cbn; eauto);
    rewrite He in H; cbn [app] in H.
  - destruct (IH _ _ _ H) as (es1 & e' & es2 & -> & H1 & H2 & H3). exists (e :: es1), e', es2.
    split_and!; [done| |done|done]. by rewrite bind_cons, He.
  - destruct l1 as [|x l1]; cbn [app] in H; injection H as -> H.
    + exists [], e, es. by split_and!.
    + destruct (IH _ _ _ H) as (es1 & e' & es2 & -> & H1 & H2 & H3). exists (e :: es1), e', es2.
      split_and!; [done| |done|done]. by rewrite bind_cons, He, H1.
Qed.

Lemma second_tokens (t1 : Token) l1 t2 l2 t3 l3 :
  t1 :: l1 ++ t2 :: l2 ++ t3 :: l3 = t1 :: (l1 ++ t2 :: l2) ++ t3 :: l3.
Proof. by rewrite <-app_assoc. Qed.

Section Shape.
  Context (words : Words).

(** What the search sees of an element. *)
Inductive shaped : element → Prop :=
  | shaped_plain t o : translates words t o → shaped (Plain t o)
  | shaped_passes e : (∀ t o, e ≠ Plain t o) → passes (tokens_of e) → (∀ o, ops_of e = [o] → op_kind o = OpKind.Push_Symbol) →
    shaped e.

Lemma shaped_op e o : shaped e → ops_of e = [o] → op_kind o ≠ OpKind.Push_Symbol →
  ∃ t, e = Plain t o ∧ translates words t o.
Proof. intros [t o' Ht|e' _ _ Hp] Ho Hk; [injection Ho as ->; eauto|by destruct Hk; apply Hp]. Qed.

Lemma shaped_none es : Forall shaped es → es ≫= ops_of = [] → passes (es ≫= tokens_of).
Proof.
  induction 1 as [|e es He Hes IH]; intros Hops; [apply passes_nil|]. rewrite bind_cons in *.
  apply app_nil in Hops as [H1 H2]. apply passes_app; [|by apply IH]. by destruct He.
Qed.

(** The elements of the parts of a body. *)
Ltac split_elements :=
  repeat match goal with
  | H : ?es ≫= ops_of = ?o :: ?l |- _ =>
    change (es ≫= ops_of = [] ++ o :: l) in H; apply ops_split in H as (? & ? & ? & -> & ? & ? & ?)
  | H : ?es ≫= ops_of = _ ++ _ :: _ |- _ => apply ops_split in H as (? & ? & ? & -> & ? & ? & ?)
  | H : Forall _ (_ ++ _) |- _ => apply Forall_app in H as [? ?]
  | H : Forall _ (_ :: _) |- _ => apply Forall_cons in H as [? ?]
  | H : shaped ?e, Ho : ops_of ?e = [?o], Hk : op_kind ?o = _ |- _ =>
    apply (shaped_op e o H) in Ho as (? & -> & ?); [|by rewrite Hk]; clear H
  end.

Lemma passes_shaped_op e o : shaped e → ops_of e = [o] → op_bracket (op_kind o) = Neutral → passes (tokens_of e).
Proof.
  intros [t o' Ht|e' _ Hp _] Ho Hk; [|done]. injection Ho as ->. apply passes_neutral.
  by rewrite (proj1 (translates_bracket _ _ _ Ht)).
Qed.

Lemma passes_bracketed t1 o1 l t2 o2 rest :
  translates words t1 o1 → translates words t2 o2 → op_bracket (op_kind o1) = Opens → op_bracket (op_kind o2) = Closes →
  passes l → passes rest → passes (t1 :: l ++ t2 :: rest).
Proof.
  intros H1 H2 K1 K2 Hl Hr. replace (t1 :: l ++ t2 :: rest) with ((t1 :: l ++ [t2]) ++ rest) by (cbn; by rewrite <-app_assoc).
  apply passes_app; [|done]. apply passes_brackets; [by rewrite (proj1 (translates_bracket _ _ _ H1))|
    by rewrite (proj1 (translates_bracket _ _ _ H2))|done].
Qed.

Lemma passes_separated l1 m o l2 :
  translates words m o → op_bracket (op_kind o) = Neutral → passes l1 → passes l2 → passes (l1 ++ m :: l2).
Proof.
  intros Hm K H1 H2. apply passes_app; [done|]. apply (passes_app [m]); [|done]. apply passes_neutral.
  by rewrite (proj1 (translates_bracket _ _ _ Hm)).
Qed.

Ltac bracket_kind := match goal with H : op_kind ?o = _ |- op_bracket (op_kind ?o) = _ => by rewrite H end.

(** The search passes over the elements of a structured body. *)
Lemma passes_block b : ∀ es, block_ok b → Forall shaped es → es ≫= ops_of = flatten b → passes (es ≫= tokens_of).
Proof.
  induction b as [|op r IHr|o1 t IHt o2 r IHr|o1 t IHt o2 e IHe o3 r IHr|o1 c IHc o2 b IHb o3 r IHr];
    intros es Hok Hs Hops; cbn [flatten] in Hops; simpl in Hok; [by apply shaped_none|..];
    destruct_and? Hok; split_elements;
    repeat first [rewrite bind_app | rewrite bind_cons | progress cbn [tokens_of app]];
    (apply passes_app; [by apply shaped_none|]).
  - apply passes_app; [|by apply IHr]. eapply passes_shaped_op; [done|done|by apply op_bracket_plain].
  - eapply (passes_bracketed _ o1 _ _ o2); [done|done|bracket_kind|bracket_kind|by apply IHt|by apply IHr].
  - rewrite second_tokens. eapply (passes_bracketed _ o1 _ _ o3); [done|done|bracket_kind|bracket_kind| |by apply IHr].
    eapply (passes_separated _ _ o2); [done|bracket_kind|by apply IHt|by apply IHe].
  - rewrite second_tokens. eapply (passes_bracketed _ o1 _ _ o3); [done|done|bracket_kind|bracket_kind| |by apply IHr].
    eapply (passes_separated _ _ o2); [done|bracket_kind|by apply IHc|by apply IHb].
Qed.

(** Every [end] among the elements, which follow the tokens [rest], closes a
    block of operations. *)
Fixpoint ends_closed (es : list element) (rest : list Token) : Prop :=
  match es with
  | [] => True
  | e :: es =>
    match e with Plain t _ => bracket_of t = Closes → found rest | _ => True end ∧
    ends_closed es (reverse (tokens_of e) ++ rest)
  end.

Lemma ends_closed_app es1 es2 rest :
  ends_closed (es1 ++ es2) rest ↔ ends_closed es1 rest ∧ ends_closed es2 (reverse (es1 ≫= tokens_of) ++ rest).
Proof.
  revert rest. induction es1 as [|e es1 IH]; intros rest.
  { cbn. tauto. }
  cbn [app ends_closed]. rewrite IH, bind_cons, reverse_app, <-app_assoc. tauto.
Qed.

Lemma ends_closed_none es rest : Forall shaped es → es ≫= ops_of = [] → ends_closed es rest.
Proof.
  intros Hs. revert rest. induction Hs as [|e es He Hes IH]; intros rest Hops; [done|]. rewrite bind_cons in Hops.
  apply app_nil in Hops as [H1 H2]. cbn [ends_closed]. split; [by destruct e|by apply IH].
Qed.

Lemma found_passes t o l rest :
  translates words t o → op_bracket (op_kind o) = Opens → passes l → found (reverse l ++ t :: rest).
Proof. intros Ht Hk Hl. eapply found_open; [done|done|apply Hl]. Qed.

Lemma found_separated t o l1 m om l2 rest :
  translates words t o → op_bracket (op_kind o) = Opens → translates words m om → op_bracket (op_kind om) = Neutral →
  passes l1 → passes l2 → found (reverse l2 ++ m :: reverse l1 ++ t :: rest).
Proof.
  intros Ht Hk Hm Hn H1 H2. pose proof (found_passes t o (l1 ++ m :: l2) rest Ht Hk) as Hf.
  rewrite reverse_app, reverse_cons, <-!app_assoc in Hf. apply Hf. by apply (passes_separated _ _ om).
Qed.

Lemma ends_closed_block b : ∀ es rest,
  block_ok b → Forall shaped es → es ≫= ops_of = flatten b → ends_closed es rest.
Proof.
  induction b as [|op r IHr|o1 t IHt o2 r IHr|o1 t IHt o2 e IHe o3 r IHr|o1 c IHc o2 b IHb o3 r IHr];
    intros es rest Hok Hs Hops; cbn [flatten] in Hops; simpl in Hok; [by apply ends_closed_none|..];
    destruct_and? Hok; split_elements;
    repeat first [rewrite ends_closed_app | progress cbn [ends_closed tokens_of]]; split_and!;
    try (by apply ends_closed_none);
    try (match goal with IH : ∀ es rest, block_ok ?b → _, H : ?es ≫= ops_of = flatten ?b |- ends_closed ?es _ =>
      by apply IH end);
    try (match goal with H : translates words ?t ?o, Hk : op_kind ?o = _ |- bracket_of ?t = Closes → _ =>
      by apply (neutral_end words t o); [|rewrite Hk] end).
  - match goal with |- match ?e with Plain _ _ => _ | _ => _ end => destruct e as [t' o'| |] eqn:He; [|done..] end.
    simplify_eq/=. match goal with H : shaped (Plain _ _) |- _ => inversion H as [? ? Ht|? Hno]; [|by destruct (Hno t' op)] end.
    subst. apply (neutral_end words _ op); [done|]. by rewrite op_bracket_plain.
  - intros _. eapply (found_passes _ o1); [done|bracket_kind|]. by apply (passes_block t).
  - intros _. apply (found_separated _ o1 _ _ o2); try done; try bracket_kind; [by apply (passes_block t)|by apply (passes_block e)].
  - intros _. apply (found_separated _ o1 _ _ o2); try done; try bracket_kind; [by apply (passes_block c)|by apply (passes_block b)].
Qed.

Lemma element_shaped e : element_ok words e → shaped e.
Proof.
  induction e as [t o|n v k|h fn s body b end_ IH] using element_nested_ind; intros He; inversion He; subst.
  - by constructor.
  - match goal with H1 : is_keyword Keyword.Function _, H2 : is_keyword Keyword.End _ |- _ => rename H1 into Hfn; rename H2 into Hend end.
    assert (passes (body ≫= tokens_of)) as Hbody.
    { eapply passes_block; [done| |done]. apply list.Forall_forall. intros e Hin.
      rewrite list.Forall_forall in IH. apply IH; [done|]. by eapply list.Forall_forall. }
    apply shaped_passes; [done| |].
    + cbn [tokens_of]. apply passes_app.
      * match goal with H : header_ok _ _ _ |- _ => destruct H; cbn [name_tokens]; [|apply passes_nil] end.
        apply passes_neutral, bracket_word. congruence.
      * replace (fn :: specifier_tokens s ++ (body ≫= tokens_of) ++ [end_])
          with (fn :: (specifier_tokens s ++ (body ≫= tokens_of)) ++ [end_]) by (by rewrite <-app_assoc).
        apply passes_brackets; [by rewrite (bracket_keyword _ _ Hfn)|by rewrite (bracket_keyword _ _ Hend)|].
        apply passes_app; [|done]. by apply passes_Forall, specifier_neutral.
    + match goal with H : header_ok _ _ _ |- _ => destruct H end; cbn [ops_of]; [done|]. by intros o [= <-].
Qed.

Lemma item_shaped e : item_ok words e → shaped e.
Proof.
  intros [e' He|name value keyword Hn Hv Hk]; [by apply element_shaped|]. apply shaped_passes; [done| |done].
  apply passes_Forall. repeat constructor; [apply bracket_word; congruence|apply bracket_word; destruct Hv; congruence|].
  by destruct Hk as [Hk|Hk]; rewrite (bracket_keyword _ _ Hk).
Qed.

End Shape.

(** ** Tables of words *)

(** What [translate_operation] reads of a word; definitions keep it. *)
Definition headline (w : Word) : Word_Kind * Z * Intrinsic_Kind * Z := (w_kind w, w_ival w, w_intrinsic w, w_id w).
Definition headlines (words : Words) : gmap string (Word_Kind * Z * Intrinsic_Kind * Z) := headline <$> words.

Lemma headlines_lookup words words' name :
  headlines words = headlines words' → headline <$> words !! name = headline <$> words' !! name.
Proof. unfold headlines. intros H. by rewrite <-!lookup_fmap, H. Qed.

Lemma headlines_Some words words' name w :
  headlines words = headlines words' → words !! name = Some w →
  ∃ w', words' !! name = Some w' ∧ headline w = headline w'.
Proof.
  intros H Hw. apply (headlines_lookup _ _ name) in H. rewrite Hw in H.
  destruct (words' !! name) as [w'|]; [|done]. exists w'. split; [done|]. by apply (inj Some).
Qed.

Lemma headlines_alter f name words : (∀ w, headline (f w) = headline w) → headlines (alter f name words) = headlines words.
Proof.
  intros Hf. apply map_eq. intros n. unfold headlines. rewrite !lookup_fmap, lookup_alter.
  case_decide as Hn; [subst n|done]. by destruct (words !! name); cbn; rewrite ?Hf.
Qed.

Lemma translate_operation_headlines t words words' :
  headlines words = headlines words' → translate_operation t words = translate_operation t words'.
Proof.
  intros H. unfold translate_operation. destruct (tok_kind t); try done.
  - unfold translate_word. pose proof (headlines_lookup _ _ (tok_sval t) H) as Hl.
    destruct (words !! _), (words' !! _); try done. by injection Hl as -> -> -> ->.
  - unfold word_at. pose proof (headlines_lookup _ _ (str_of (drop 1 (chars (tok_sval t)))) H) as Hl.
    destruct (words !! _), (words' !! _); try done. comp_step. by injection Hl as _ _ _ ->.
Qed.

Lemma translates_headlines words words' t o :
  headlines words = headlines words' → translates words t o → translates words' t o.
Proof. intros H. rewrite !translates_iff. unfold translated. by rewrite (translate_operation_headlines t _ _ H). Qed.

Lemma header_headlines words words' fn h :
  headlines words = headlines words' → header_ok words fn h → header_ok words' fn h.
Proof.
  intros H [name w H1 H2 H3|w H1 H2].
  - destruct (headlines_Some _ _ _ _ H H3) as (w' & Hw & _). by econstructor.
  - destruct (headlines_Some _ _ _ _ H H2) as (w' & Hw & [= _ _ _ He]).
    replace (lambda_op fn w) with (lambda_op fn w') by (unfold lambda_op; by rewrite He). by constructor.
Qed.

Lemma headline_define s b w : headline (define_function s b w) = headline w.
Proof. by destruct s. Qed.

Lemma headlines_define e words : headlines (define e words) = headlines words.
Proof.
  revert words. induction e as [t o|n v k|h fn s body b end_ IH] using element_nested_ind; intros words; [done|done|].
  cbn [define]. rewrite headlines_alter by (intros; apply headline_define).
  induction IH as [|e body He _ IHb]; [done|]. cbn [foldr]. by rewrite He.
Qed.

(** A definition changes the words of its functions only. *)
Lemma define_alter e name f words :
  name ∉ functions_of e → define e (alter f name words) = alter f name (define e words).
Proof.
  revert words. induction e as [t o|n v k|h fn s body b end_ IH] using element_nested_ind; intros words; [done|done|].
  cbn [define functions_of]. rewrite not_elem_of_cons. intros [Hn Hb]. rewrite alter_alter_ne by done. f_equal.
  induction IH as [|e body He _ IHb]; [done|]. rewrite bind_cons, not_elem_of_app in Hb. cbn [foldr].
  rewrite IHb by tauto. apply He. tauto.
Qed.

Lemma lookup_define e name words : name ∉ functions_of e → define e words !! name = words !! name.
Proof.
  revert words. induction e as [t o|n v k|h fn s body b end_ IH] using element_nested_ind; intros words; [done|done|].
  cbn [define functions_of]. rewrite not_elem_of_cons. intros [Hn Hb]. rewrite lookup_alter_ne by done.
  induction IH as [|e body He _ IHb]; [done|]. rewrite bind_cons, not_elem_of_app in Hb. cbn [foldr].
  rewrite He by tauto. apply IHb. tauto.
Qed.

(** ** Blocks of located operations *)

Lemma flatten_map g b : flatten (block_map g b) = g <$> flatten b.
Proof. induction b; cbn [block_map flatten]; rewrite ?fmap_cons, ?fmap_app, ?fmap_cons, ?fmap_app, ?fmap_cons; by f_equal; congruence. Qed.

Lemma block_ok_map g b : (∀ o, op_kind (g o) = op_kind o) → block_ok b → block_ok (block_map g b).
Proof. intros Hg. induction b; cbn [block_map block_ok]; rewrite ?Hg; naive_solver. Qed.

(** ** The end of a function *)

Lemma specify_body s w acc :
  specify s (set_body acc w) = set_body acc (specify s w).
Proof. by destruct s. Qed.

(** [finish_function] when the operations of the body have been collected and
    what stands in front of it has been read. *)
Lemma finish_function_define func s b w words m effect f :
  words !! func = Some w → block_ok b →
  (∀ w, match effect with Some e => set_effect e (f w) | None => f w end = specify s w) →
  finish_function func effect
    (mk_PState (alter f func (alter (set_body (reverse (flatten b))) func words)) m) =
  mret (mk_PState (alter (define_function s b) func words) m).
Proof.
  intros Hw Hb Hf. unfold finish_function, alter_word. cbn [ps_words ps_main].
  set (words' := alter (set_body (reverse (flatten b))) func words).
  assert (match effect with Some e => mk_PState (alter (set_effect e) func (alter f func words')) m
    | None => mk_PState (alter f func words') m end =
    mk_PState (alter (λ w, set_body (reverse (flatten b)) (specify s w)) func words) m) as ->.
  { subst words'. destruct effect as [e|]; rewrite !alter_alter_eq; (f_equal; apply alter_ext; intros w' _; cbn;
      by rewrite Hf, specify_body). }
  cbn [ps_words ps_main]. unfold word_at. rewrite lookup_alter_eq, Hw.
  cbn [fmap option_fmap option_map]. comp_step. cbn [w_function_body w_function_name set_body]. rewrite reverse_involutive.
  assert (w_function_name (specify s w) = w_function_name w) as -> by (by destruct s).
  change (λ o : Operation, set_op_location (with_function (op_location o) (w_function_name w)) o)
    with (in_function (w_function_name w)).
  rewrite <-flatten_map, crossreference_flatten by (by apply block_ok_map). comp_step.
  rewrite alter_alter_eq. do 2 f_equal. apply alter_ext. intros w' Hw'. rewrite Hw in Hw'. by injection Hw' as <-.
Qed.

(** ** Closing a function *)

Section Close.
  Context (words : Words) (h : header) (fn : Token) (s : specifier) (body : list element) (b : block) (end_ : Token).
  Context (Hok : element_ok words (Function h fn s body b end_)).

Definition inner : list Token := specifier_tokens s ++ (body ≫= tokens_of).

Lemma close_block_function words' before after i :
  headlines words = headlines words' → i = (length before + length (tokens_of (Function h fn s body b end_)) - 1)%nat →
  close_block (before ++ tokens_of (Function h fn s body b end_) ++ after) i end_ words' =
    mret (Closed_function (function_of h fn) inner (length before)
      (match h with Anonymous op => Some op | Named _ => None end)).
Proof.
  intros Hw Hi. inversion Hok as [|? ? ? ? ? ? Hfn Hend Hh Hs Hbody Hops Hb]; subst.
  apply (header_headlines _ _ _ _ Hw) in Hh.
  set (start := length (before ++ name_tokens h)).
  assert (before ++ tokens_of (Function h fn s body b end_) ++ after =
    (before ++ name_tokens h) ++ fn :: inner ++ end_ :: after) as ->.
  { unfold inner. cbn [tokens_of]. rewrite <-!app_assoc. cbn [app]. by rewrite <-!app_assoc. }
  assert (length before + length (tokens_of (Function h fn s body b end_)) - 1 =
    length ((before ++ name_tokens h) ++ fn :: inner))%nat as ->.
  { unfold inner. cbn [tokens_of]. rewrite !length_app. cbn [length]. rewrite !length_app. cbn [length]. lia. }
  assert ((before ++ name_tokens h) ++ fn :: inner ++ end_ :: after =
    ((before ++ name_tokens h) ++ fn :: inner) ++ end_ :: after) as Hsplit by (by rewrite <-!app_assoc).
  assert (find_block_start ((before ++ name_tokens h) ++ fn :: inner ++ end_ :: after)
    (length ((before ++ name_tokens h) ++ fn :: inner)) 1 = Some start) as Hfind.
  { rewrite Hsplit, find_block_start_scan by (rewrite (length_app (_ ++ fn :: inner)); lia). rewrite take_app_length.
    rewrite (reverse_app (before ++ _)), reverse_cons, <-app_assoc. unfold inner.
    assert (passes inner) as Hp.
    { apply passes_app; [by apply passes_Forall, specifier_neutral|]. eapply (passes_block words); [done| |done].
      eapply list.Forall_impl; [done|]. intros e. apply element_shaped. }
    rewrite (Hp _ 0%nat). cbn [app scan]. rewrite (bracket_keyword _ _ Hfn), scan_O, length_reverse. done. }
  unfold close_block. destruct (Nat.leb_spec 1 (length ((before ++ name_tokens h) ++ fn :: inner))) as [_|Hl];
    [|rewrite length_app in Hl; cbn in Hl; lia].
  unfold ensure_fatal. comp_step. rewrite Hfind, index_middle by done. comp_step.
  rewrite decide_False by (destruct Hfn as [_ ->]; tauto). cbv zeta.
  assert (take (length ((before ++ name_tokens h) ++ fn :: inner) - start - 1)
    (drop (start + 1) ((before ++ name_tokens h) ++ fn :: inner ++ end_ :: after)) = inner) as ->.
  { replace ((before ++ name_tokens h) ++ fn :: inner ++ end_ :: after)
      with (((before ++ name_tokens h) ++ [fn]) ++ inner ++ end_ :: after) by (by rewrite <-!app_assoc).
    rewrite drop_app_length' by (rewrite (length_app _ [fn]); done).
    apply take_app_length'. unfold start. rewrite (length_app _ (fn :: inner)). cbn [length]. lia. }
  destruct Hh as [name w Hk Hfront Hname|w Hfront Hname]; cbn [name_tokens] in *.
  - rewrite decide_False by done. unfold start. rewrite length_app. cbn [length].
    rewrite Nat.add_1_r, <-app_assoc. cbn [app]. rewrite index_middle by done. comp_step.
    unfold word_at. rewrite Hname. by comp_step.
  - rewrite decide_True by done. unfold word_at. rewrite Hname. comp_step. unfold start. by rewrite app_nil_r.
Qed.

Lemma length_function : length (tokens_of (Function h fn s body b end_)) = S (length (name_tokens h ++ fn :: inner)).
Proof using.
  unfold inner. cbn [tokens_of]. rewrite !length_app. cbn [length]. rewrite !length_app. cbn [length]. lia.
Qed.

Lemma length_inner : (length inner < length (name_tokens h ++ fn :: inner))%nat.
Proof using. rewrite length_app. cbn [length]. lia. Qed.

Lemma index_function before after :
  index (before ++ tokens_of (Function h fn s body b end_) ++ after) (length before + length (name_tokens h ++ fn :: inner)) = mret end_.
Proof using.
  replace (before ++ tokens_of (Function h fn s body b end_) ++ after)
    with ((before ++ name_tokens h ++ fn :: inner) ++ end_ :: after).
  { apply index_middle. by rewrite (length_app before). }
  unfold inner. cbn [tokens_of]. rewrite <-!app_assoc. cbn [app]. by rewrite <-!app_assoc.
Qed.

(** The rounds of the two loops at the end of a function. *)
Ltac function_round :=
  inversion Hok as [|? ? ? ? ? ? _ [K1 K2]]; subst;
  rewrite length_function, Nat.add_succ_r; cbn [function_loop main_loop]; rewrite index_function; comp_step; cbv zeta;
  rewrite decide_False, K2 by (rewrite K1; tauto);
  rewrite close_block_function by (done || rewrite length_function; lia); comp_step; by destruct h.

Lemma function_loop_function fuel before after func effect st :
  headlines words = headlines (ps_words st) →
  function_loop (S fuel) (before ++ tokens_of (Function h fn s body b end_) ++ after) func
    (length before + length (tokens_of (Function h fn s body b end_))) effect st =
  (st ← function_loop fuel inner (function_of h fn) (length inner) None
     (match h with Anonymous op => emplace_back (Fn func) op st | Named _ => st end);
   function_loop fuel (before ++ tokens_of (Function h fn s body b end_) ++ after) func (length before) effect st).
Proof using Hok. intros Hw. function_round. Qed.

Lemma main_loop_function fuel before after st :
  headlines words = headlines (ps_words st) →
  main_loop (S fuel) (before ++ tokens_of (Function h fn s body b end_) ++ after)
    (length before + length (tokens_of (Function h fn s body b end_))) st =
  (st ← function_into_operations inner (function_of h fn)
     (match h with
      | Anonymous op => emplace_back Main op st
      | Named name => alter_word (tok_sval name) (set_function_name (tok_sval name)) st
      end);
   main_loop fuel (before ++ tokens_of (Function h fn s body b end_) ++ after) (length before) st).
Proof using Hok. intros Hw. function_round. Qed.

End Close.

(** ** What stands in front of a body *)

Lemma parse_effect_types ts : ∀ types rest seen effect,
  Forall (is_keyword Keyword.Typename) ts → Forall2 (λ t type, Type_from t = mret type) ts types →
  parse_effect (reverse ts ++ rest) seen effect =
    parse_effect rest seen
      (if seen then mk_Effect (types ++ input effect) (output effect) else mk_Effect (input effect) (types ++ output effect)).
Proof.
  induction ts as [|t ts IH] using rev_ind; intros types rest seen effect Hk Ht.
  { apply Forall2_nil_inv_l in Ht as ->. by destruct seen, effect. }
  apply Forall_app in Hk as [Hk [[K1 K2] _]%Forall_cons].
  apply Forall2_app_inv_l in Ht as (types' & l & Ht & [(type & l' & Hty & Hl & ->)%Forall2_cons_inv_l ->]).
  apply Forall2_nil_inv_l in Hl as ->. rewrite reverse_snoc. cbn [app parse_effect]. rewrite K1, K2, Hty. comp_step.
  rewrite (IH types') by done. destruct seen; cbn [input output]; by rewrite <-app_assoc.
Qed.

Lemma parse_effect_typed ins outs divider is_ effect :
  specifier_ok (Typed ins outs divider is_ effect) →
  parse_effect (reverse (ins ++ divider :: outs)) false (mk_Effect [] []) = mret effect.
Proof.
  inversion 1 as [| |? ? ? ? ? Hk [D1 D2] _ Hi Ho]; subst. apply Forall_app in Hk as [Hk1 Hk2].
  rewrite reverse_app, reverse_cons, <-app_assoc, (parse_effect_types outs (output effect)) by done.
  cbn [app parse_effect]. rewrite D1, D2. unfold ensure. cbn [negb]. comp_step.
  pose proof (parse_effect_types ins (input effect) [] true (mk_Effect [] (output effect)) Hk1 Hi) as Hp.
  rewrite app_nil_r in Hp. cbn [output input app]. rewrite app_nil_r, Hp. cbn. rewrite app_nil_r. by destruct effect.
Qed.

Lemma function_loop_specifier fuel s rest func b w words m :
  specifier_ok s → words !! func = Some w → block_ok b → (length (specifier_tokens s) < fuel)%nat →
  function_loop fuel (specifier_tokens s ++ rest) func (length (specifier_tokens s)) None
    (mk_PState (alter (set_body (reverse (flatten b))) func words) m) =
  mret (mk_PState (alter (define_function s b) func words) m).
Proof.
  intros Hs Hw Hb Hfuel. pose proof (finish_function_define func s b w words m) as Hfinish.
  destruct fuel as [|fuel]; [lia|]. inversion Hs as [|dyn [K1 K2]|ins outs divider is_ effect Hk Hd [K1 K2]]; subst s;
    cbn [specifier_tokens length] in *.
  - cbn [function_loop]. specialize (Hfinish None (λ w, w) Hw Hb). rewrite alter_id in Hfinish by done. by apply Hfinish.
  - cbn [app function_loop]. unfold index. cbn [lookup list_lookup]. comp_step. cbv zeta.
    rewrite decide_False, K2 by (rewrite K1; tauto). unfold ensure. cbn [Nat.eqb]. comp_step.
    destruct fuel as [|fuel]; [lia|]. cbn [function_loop]. by apply (Hfinish None set_dynamic).
  - assert ((ins ++ divider :: outs ++ [is_]) ++ rest = (ins ++ divider :: outs) ++ is_ :: rest) as ->
      by (rewrite <-!app_assoc; cbn [app]; by rewrite <-!app_assoc).
    assert (length (ins ++ divider :: outs ++ [is_]) = S (length (ins ++ divider :: outs))) as Hlen.
    { rewrite !length_app. cbn [length]. rewrite length_app. cbn [length]. lia. }
    rewrite Hlen in *. cbn [function_loop]. rewrite index_middle by done. comp_step. cbv zeta.
    rewrite decide_False, K2 by (rewrite K1; tauto). rewrite take_app_length, (parse_effect_typed _ _ _ is_ effect) by done.
    comp_step. destruct fuel as [|fuel]; [lia|]. cbn [function_loop].
    specialize (Hfinish (Some effect) (λ w, w) Hw Hb). rewrite alter_id in Hfinish by done. by apply Hfinish.
Qed.

(** ** One token *)

Section Plain.
  Context (tokens : list Token) (i : nat) (t : Token) (o : Operation) (st : PState).
  Context (Hi : tokens !! i = Some t) (Ht : translates (ps_words st) t o).
  Context (Hend : bracket_of t = Closes → found (reverse (take i tokens))).

Lemma close_block_plain : bracket_of t = Closes → close_block tokens i t (ps_words st) = mret (Closed_block o).
Proof using All.
  intros Hb. rewrite close_block_found; [|apply lookup_lt_Some in Hi; lia|by apply Hend].
  pose proof Ht as Ht'. rewrite translates_iff in Ht'. unfold translated in Ht'. destruct (decide _) as [_|Hne] in Ht'; [by subst o|]. exfalso.
  unfold bracket_of in Hb. case_decide as Hk; [|done]. destruct Hne. split; [done|]. by destruct (tok_kval t).
Qed.

(** The two loops do the same with a token that is an operation. *)
Ltac plain_round :=
  unfold index; rewrite Hi; comp_step; cbv zeta; pose proof close_block_plain as Hclose;
  pose proof (proj1 (translates_iff _ _ _) Ht) as Ho;
  destruct (decide (tok_kind t ≠ TokKind.Keyword)) as [Hk|Hk];
  [unfold translated in Ho; rewrite decide_False in Ho by tauto; rewrite Ho; by comp_step|];
  apply dec_stable in Hk; destruct (tok_kval t) eqn:Hv;
  unfold translated, translate_operation, translate_keyword in Ho;
  rewrite ?Hk, Hv in Ho; (rewrite decide_False in Ho by (by intros [])) || rewrite decide_True in Ho by done;
  try done; try (unfold translate_operation, translate_keyword; rewrite Hk, Hv, Ho; by comp_step);
  rewrite Hclose by (unfold bracket_of; by rewrite Hv, decide_True); by comp_step.

Lemma function_loop_plain fuel func effect :
  function_loop (S fuel) tokens func (S i) effect st =
    function_loop fuel tokens func i effect (emplace_back (Fn func) o st).
Proof using All. cbn [function_loop]. plain_round. Qed.

Lemma main_loop_plain fuel :
  main_loop (S fuel) tokens (S i) st = main_loop fuel tokens i (emplace_back Main o st).
Proof using All. cbn [main_loop]. plain_round. Qed.

End Plain.

(** ** The body of a function *)

(** Words whose bodies have not been translated yet. *)
Definition fresh (words : Words) (name : string) : Prop := ∀ w, words !! name = Some w → w_function_body w = [].

Lemma fresh_define e words name : name ∉ functions_of e → fresh words name → fresh (define e words) name.
Proof. intros Hn Hf w. rewrite lookup_define by done. apply Hf. Qed.

Lemma fresh_alter f name name' words : name ≠ name' → fresh words name → fresh (alter f name' words) name.
Proof. intros Hn Hf w. rewrite lookup_alter_ne by done. apply Hf. Qed.

Lemma fresh_body words name : fresh words name → alter (set_body []) name words = words.
Proof.
  intros Hf. apply alter_id. intros w Hw. specialize (Hf w Hw). destruct w; cbn in *. by subst.
Qed.

Lemma emplace_back_function func words m acc o :
  emplace_back (Fn func) o (mk_PState (alter (set_body (reverse acc)) func words) m) =
    mk_PState (alter (set_body (reverse (o :: acc))) func words) m.
Proof.
  cbn [emplace_back]. unfold alter_word. cbn [ps_words ps_main]. rewrite alter_alter_eq. f_equal.
  apply alter_ext. intros w _. by rewrite reverse_cons.
Qed.

Lemma is_Some_headlines words words' name :
  headlines words = headlines words' → is_Some (words !! name) → is_Some (words' !! name).
Proof. intros H [w Hw]. destruct (headlines_Some _ _ _ _ H Hw) as (w' & Hw' & _). eauto. Qed.

Lemma function_name_registered words fn h : header_ok words fn h → is_Some (words !! function_of h fn).
Proof. intros [name w _ _ Hw|w _ Hw]; cbn [function_of]; eauto. Qed.

(** The elements in front of one, and behind it. *)
Lemma functions_snoc es e : (es ++ [e]) ≫= functions_of = (es ≫= functions_of) ++ functions_of e.
Proof. rewrite bind_app. cbn. by rewrite app_nil_r. Qed.

Lemma tokens_middle l es1 e es2 :
  l ++ ((es1 ++ e :: es2) ≫= tokens_of) = (l ++ (es1 ≫= tokens_of)) ++ tokens_of e ++ (es2 ≫= tokens_of).
Proof. by rewrite bind_app, bind_cons, <-app_assoc. Qed.

Lemma tokens_plain l es1 t o es2 :
  l ++ ((es1 ++ Plain t o :: es2) ≫= tokens_of) = (l ++ (es1 ≫= tokens_of)) ++ t :: (es2 ≫= tokens_of).
Proof. apply tokens_middle. Qed.

Lemma length_snoc_tokens l es e :
  length (l ++ ((es ++ [e]) ≫= tokens_of)) = (length (l ++ (es ≫= tokens_of)) + length (tokens_of e))%nat.
Proof. rewrite bind_app, app_assoc, (length_app _ ([e] ≫= _)). cbn. by rewrite app_nil_r. Qed.

(** The operation of an anonymous function joins the body around it. *)
Lemma emplace_header h fn s body b end_ func words m es :
  (match h with
   | Anonymous op => emplace_back (Fn func) op (mk_PState (alter (set_body (reverse (es ≫= ops_of))) func words) m)
   | Named _ => mk_PState (alter (set_body (reverse (es ≫= ops_of))) func words) m
   end) =
  mk_PState (alter (set_body (reverse ((Function h fn s body b end_ :: es) ≫= ops_of))) func words) m.
Proof. rewrite bind_cons. destruct h; [done|]. by rewrite emplace_back_function. Qed.

(** The elements left to translate in front of the ones that are done. *)
Lemma function_loop_elements fuel : ∀ words0 func s body b es1 es2 words m,
  headlines words0 = headlines words → is_Some (words !! func) →
  Forall (element_ok words0) body → body = es1 ++ es2 → body ≫= ops_of = flatten b → block_ok b → specifier_ok s →
  NoDup (func :: (es1 ≫= functions_of)) → Forall (fresh words) (es1 ≫= functions_of) →
  (length (specifier_tokens s ++ (es1 ≫= tokens_of)) < fuel)%nat →
  function_loop fuel (specifier_tokens s ++ (body ≫= tokens_of)) func
    (length (specifier_tokens s ++ (es1 ≫= tokens_of))) None
    (mk_PState (alter (set_body (reverse (es2 ≫= ops_of))) func words) m) =
  mret (mk_PState (alter (define_function s b) func (foldr define words es1)) m).
Proof.
  induction fuel as [|fuel IH]; intros words0 func s body b es1 es2 words m Hh Hw Hbody Hes Hops Hb Hs Hnd Hfresh Hfuel; [lia|].
  destruct es1 as [|e es1 _] using rev_ind.
  { cbn [app] in Hes. subst es2. destruct Hw as [w Hw]. cbn [mbind list_bind]. rewrite app_nil_r, Hops in *.
    by rewrite (function_loop_specifier _ _ _ _ _ w). }
  assert (ends_closed body (reverse (specifier_tokens s))) as Hends.
  { eapply ends_closed_block; [done| |done]. eapply list.Forall_impl; [done|]. intros e'. apply element_shaped. }
  subst body. rewrite <-app_assoc in *. cbn [app] in *. rewrite foldr_snoc, functions_snoc in *.
  apply ends_closed_app in Hends as [_ [Hend _]].
  pose proof Hbody as [_ [He _]%Forall_cons]%Forall_app.
  rewrite length_snoc_tokens in *. rewrite tokens_middle in *. set (before := specifier_tokens s ++ (es1 ≫= tokens_of)) in *.
  apply Forall_app in Hfresh as [Hfresh Hfresh_e].
  apply NoDup_cons in Hnd as [[Hfunc Hfunc_e]%not_elem_of_app (Hnd & Hdisj & Hnd_e)%NoDup_app].
  pose proof He as He'. destruct He as [t o Ht|h fn s' body' b' end_ Hfn Hend' Hhead Hs' Hbody' Hops' Hb'].
  - cbn [tokens_of length app] in *. rewrite Nat.add_1_r in *. rewrite (function_loop_plain _ _ t o).
    + rewrite emplace_back_function. unfold before in *. rewrite <-(tokens_plain _ _ t o).
      apply (IH words0 func s (es1 ++ Plain t o :: es2) b es1 (Plain t o :: es2)); try done; [by apply NoDup_cons|lia].
    + by apply list_lookup_middle.
    + cbn [ps_words]. eapply translates_headlines; [|done]. by rewrite headlines_alter.
    + intros Hc. rewrite take_app_length. subst before. rewrite reverse_app. by apply Hend.
  - rewrite (function_loop_function words0) by (done || (cbn [ps_words]; by rewrite headlines_alter)).
    set (e := Function h fn s' body' b' end_) in *.
    rewrite (emplace_header h fn s' body' b' end_). fold e.
    set (words2 := alter (set_body (reverse ((e :: es2) ≫= ops_of))) func words).
    assert (headlines words0 = headlines words2) as Hh2 by (subst words2; by rewrite headlines_alter).
    assert (∀ n, n ∈ functions_of e → fresh words2 n) as Hf2.
    { intros n Hn. apply fresh_alter; [by intros ->|]. by eapply list.Forall_forall in Hfresh_e. }
    assert (length before + S (length (name_tokens h ++ fn :: inner s' body')) < S fuel)%nat as Hfuel'
      by (by rewrite <-(length_function h fn s' body' b' end_)).
    rewrite <-(fresh_body words2 (function_of h fn)) by (apply Hf2; by left).
    change (set_body []) with (set_body (reverse ([] ≫= ops_of))).
    unfold inner. rewrite (IH words0 _ s' body' b' body' []); try done.
    + comp_step. change (alter (define_function s' b') (function_of h fn) (foldr define words2 body')) with (define e words2).
      subst words2. rewrite define_alter by done. unfold before in *. rewrite <-tokens_middle.
      apply (IH words0 func s (es1 ++ e :: es2) b es1 (e :: es2) (define e words)); try done; try lia.
      * by rewrite headlines_define.
      * by rewrite lookup_define.
      * by apply NoDup_cons.
      * apply list.Forall_forall. intros n Hn. apply fresh_define; [by apply Hdisj|]. by eapply list.Forall_forall in Hfresh.
    + eapply is_Some_headlines; [exact Hh2|]. by apply function_name_registered.
    + by rewrite app_nil_r.
    + apply list.Forall_forall. intros n Hn. apply Hf2. by right.
    + pose proof (length_inner h fn s' body'). unfold inner in *. lia.
Qed.

(** ** The whole program *)

Lemma function_into_operations_define words0 h fn s body b end_ words m :
  element_ok words0 (Function h fn s body b end_) → headlines words0 = headlines words →
  NoDup (functions_of (Function h fn s body b end_)) → Forall (fresh words) (functions_of (Function h fn s body b end_)) →
  function_into_operations (inner s body) (function_of h fn) (mk_PState words m) =
    mret (mk_PState (define (Function h fn s body b end_) words) m).
Proof.
  intros He Hh Hnd [Hf Hfs]%Forall_cons. inversion He; subst. unfold function_into_operations.
  rewrite <-(fresh_body words (function_of h fn)) at 1 by done.
  change (set_body []) with (set_body (reverse ([] ≫= ops_of))).
  apply (function_loop_elements _ words0 _ s body b body []); try done; [|by rewrite app_nil_r|unfold inner; lia].
  eapply is_Some_headlines; [exact Hh|]. by apply function_name_registered.
Qed.

Lemma headlines_name e words : headlines (name_function e words) = headlines words.
Proof. destruct e as [|[name|] fn s body b end_|]; try done. by apply headlines_alter. Qed.

Lemma fresh_name e words name : fresh words name → fresh (name_function e words) name.
Proof.
  intros Hf. destruct e as [|[n|] fn s body b end_|]; try done. intros w. cbn [name_function]. rewrite lookup_alter.
  case_decide as Hn; [subst name|apply Hf]. destruct (words !! tok_sval n) as [w'|] eqn:Hw; [|done]. cbn. intros [= <-]. exact (Hf w' Hw).
Qed.

Lemma headlines_define_item e words : headlines (define_item e words) = headlines words.
Proof. unfold define_item. by rewrite headlines_define, headlines_name. Qed.

Lemma emplace_main h fn s body b end_ words es :
  (match h with
   | Anonymous op => emplace_back Main op (mk_PState words (reverse (es ≫= ops_of)))
   | Named name => alter_word (tok_sval name) (set_function_name (tok_sval name)) (mk_PState words (reverse (es ≫= ops_of)))
   end) =
  mk_PState (name_function (Function h fn s body b end_) words) (reverse ((Function h fn s body b end_ :: es) ≫= ops_of)).
Proof. rewrite bind_cons. destruct h; [done|]. cbn [ops_of app]. by rewrite reverse_cons. Qed.

Lemma main_loop_definition fuel before after name value keyword st :
  is_keyword Keyword.Constant keyword ∨ is_keyword Keyword.Array keyword →
  main_loop (S fuel) (before ++ tokens_of (Definition_of name value keyword) ++ after)
    (length before + length (tokens_of (Definition_of name value keyword))) st =
  main_loop fuel (before ++ tokens_of (Definition_of name value keyword) ++ after) (length before) st.
Proof.
  intros Hk. cbn [tokens_of length app].
  replace (length before + 3)%nat with (S (length before + 2)) by lia. cbn [main_loop].
  replace (before ++ name :: value :: keyword :: after) with ((before ++ [name; value]) ++ keyword :: after)
    by (by rewrite <-app_assoc).
  rewrite index_middle by (by rewrite length_app). comp_step. cbv zeta.
  replace (length before + 2 - 2)%nat with (length before) by lia.
  rewrite decide_False by (by destruct Hk as [[-> _]|[-> _]]; tauto). by destruct Hk as [[_ ->]|[_ ->]].
Qed.

Lemma main_loop_items fuel : ∀ words0 items b es1 es2 words,
  Forall (item_ok words0) items → items = es1 ++ es2 → items ≫= ops_of = flatten b → block_ok b →
  headlines words0 = headlines words → NoDup (es1 ≫= functions_of) → Forall (fresh words) (es1 ≫= functions_of) →
  (length (es1 ≫= tokens_of) < fuel)%nat →
  main_loop fuel (items ≫= tokens_of) (length (es1 ≫= tokens_of)) (mk_PState words (reverse (es2 ≫= ops_of))) =
  mret (mk_PState (foldr define_item words es1) (reverse (items ≫= ops_of))).
Proof.
  induction fuel as [|fuel IH]; intros words0 items b es1 es2 words Hitems Hes Hops Hb Hh Hnd Hfresh Hfuel; [lia|].
  destruct es1 as [|e es1 _] using rev_ind; [by subst items|].
  assert (ends_closed items []) as Hends.
  { eapply ends_closed_block; [done| |done]. eapply list.Forall_impl; [done|]. intros e'. apply item_shaped. }
  subst items. rewrite <-app_assoc in *. cbn [app] in *. rewrite foldr_snoc, functions_snoc in *.
  apply ends_closed_app in Hends as [_ [Hend _]].
  pose proof Hitems as [_ [He _]%Forall_cons]%Forall_app.
  pose proof (length_snoc_tokens [] es1 e) as Hlen. cbn [app] in Hlen. rewrite Hlen in *.
  pose proof (tokens_middle [] es1 e es2) as Htok. cbn [app] in Htok. rewrite Htok.
  apply Forall_app in Hfresh as [Hfresh Hfresh_e]. apply NoDup_app in Hnd as (Hnd & Hdisj & Hnd_e).
  assert (∀ m, (length (es1 ≫= tokens_of) < fuel)%nat → m = reverse ((e :: es2) ≫= ops_of) →
    main_loop fuel ((es1 ≫= tokens_of) ++ tokens_of e ++ (es2 ≫= tokens_of)) (length (es1 ≫= tokens_of))
      (mk_PState (define_item e words) m) =
    mret (mk_PState (foldr define_item (define_item e words) es1) (reverse ((es1 ++ e :: es2) ≫= ops_of)))) as Hrest.
  { intros m Hlt ->. rewrite <-Htok. apply (IH words0 _ b); try done; [by rewrite headlines_define_item|].
    apply list.Forall_forall. intros n Hn. apply fresh_define; [by apply Hdisj|]. apply fresh_name.
    by eapply list.Forall_forall in Hfresh. }
  clear IH. destruct He as [e He|name value keyword Hname Hvalue Hkey].
  - pose proof He as He'. destruct He as [t o Ht|h fn s body b' end_ Hfn Hend' Hhead Hs Hbody Hops' Hb'].
    + cbn [tokens_of length app] in *. rewrite Nat.add_1_r in *. rewrite (main_loop_plain _ _ t o).
      * apply Hrest; [lia|]. rewrite bind_cons. cbn [ops_of app]. by rewrite reverse_cons.
      * by apply list_lookup_middle.
      * by eapply translates_headlines.
      * intros Hc. rewrite take_app_length. specialize (Hend Hc). by rewrite app_nil_r in Hend.
    + rewrite (main_loop_function words0) by done. rewrite (emplace_main h fn s body b' end_).
      rewrite (function_into_operations_define words0 h fn s body b' end_); [|done|by rewrite headlines_name|done|].
      * comp_step. apply Hrest; [|done]. rewrite length_function in Hfuel. lia.
      * eapply list.Forall_impl; [exact Hfresh_e|]. intros n. apply fresh_name.
  - rewrite main_loop_definition by done. apply Hrest; [cbn in Hfuel; lia|done].
Qed.

Lemma into_operations_items words items b :
  Forall (item_ok words) items → items ≫= ops_of = flatten b → block_ok b →
  NoDup (items ≫= functions_of) → Forall (fresh words) (items ≫= functions_of) →
  into_operations (items ≫= tokens_of) (mk_PState words []) =
    ([], Done (mk_PState (foldr define_item words items) (link 0 b))).
Proof.
  intros Hitems Hops Hb Hnd Hfresh. unfold into_operations.
  change (mk_PState words []) with (mk_PState words (reverse ([] ≫= ops_of))).
  rewrite (main_loop_items _ words items b items []); try done; [|by rewrite app_nil_r|lia].
  comp_step. cbn [ps_main ps_words]. rewrite Hops, reverse_involutive, crossreference_flatten by done. by comp_step.
Qed.

(** ** Properties *)


(** The program [three 3 constant  inc fun u64 -- u64 is 1 + end  three inc  &fun 2 end]. *)
Definition sample_fn : Token := key_tok Keyword.Function "fun".
Definition sample_lambda : Token := set_tok_ival 0 (key_tok Keyword.Function "&fun").
Definition sample_type : Token := key_tok Keyword.Typename "u64".

Definition sample_end : Token := key_tok Keyword.End "end".
Definition sample_divider : Token := key_tok Keyword.Stack_Effect_Divider "--".
Definition sample_is : Token := key_tok Keyword.Stack_Effect_Definition "is".

Definition sample_tokens : list Token :=
  [word_tok "three"; int_tok 3; key_tok Keyword.Constant "constant";
   word_tok "inc"; sample_fn; sample_type; sample_divider; sample_type; sample_is; int_tok 1; word_tok "+"; sample_end;
   word_tok "three"; word_tok "inc"; sample_lambda; int_tok 2; sample_end].

Definition sample_registry : Registry :=
  match register_definitions true sample_tokens (mk_Registry (register_intrinsics ∅) 0 0) with
  | (_, Done (_, r)) => r
  | _ => mk_Registry ∅ 0 0
  end.

Abbreviation sample_table := (reg_words sample_registry).

(** A token as an element. *)
Definition plain_token (words : Words) (t : Token) : element :=
  Plain t (match translate_operation t words with (_, Done o) => o | _ => Operation_of OpKind.End t end).

Definition block_of (es : list element) : block := foldr B_op B_nil (es ≫= ops_of).

Definition sample_specifier : specifier :=
  let type := mk_Type TypeKind.Int (2 ^ 32 - 1) no_location in
  Typed [sample_type] [sample_type] sample_divider sample_is (mk_Effect [type] [type]).

Definition sample_items : list element :=
  let fun_ h fn s body := Function h fn s body (block_of body) sample_end in
  [Definition_of (word_tok "three") (int_tok 3) (key_tok Keyword.Constant "constant");
   fun_ (Named (word_tok "inc")) sample_fn
     sample_specifier
     [plain_token sample_table (int_tok 1); plain_token sample_table (word_tok "+")];
   plain_token sample_table (word_tok "three"); plain_token sample_table (word_tok "inc");
   fun_ (Anonymous (lambda_op sample_lambda (default new_Word (sample_table !! anonymous_name 0)))) sample_lambda No_specifier
     [plain_token sample_table (int_tok 2)]].

Ltac computed := vm_compute; reflexivity.

Lemma plain_token_ok words t o : translated words t o → translate_operation t words = mret o → element_ok words (plain_token words t).
Proof. intros Ht Ho. unfold plain_token. rewrite Ho. constructor. by apply translates_iff. Qed.

Ltac sample_plain := eapply plain_token_ok; computed.

Lemma sample_specifier_ok : specifier_ok sample_specifier.
Proof. by repeat constructor. Qed.

Lemma sample_items_ok : Forall (item_ok sample_table) sample_items.
Proof.
  apply Forall_cons. split; [apply ok_definition; [done|by left|left; by split]|].
  apply Forall_cons. split.
  { apply ok_element, ok_function; [by split|by split| |exact sample_specifier_ok| |computed|vm_compute; by repeat split].
    - apply (ok_named _ _ _ (default new_Word (sample_table !! "inc"%string))); [done|discriminate|computed].
    - apply Forall_cons. split; [sample_plain|]. apply Forall_cons. split; [sample_plain|constructor]. }
  apply Forall_cons. split; [apply ok_element; sample_plain|].
  apply Forall_cons. split; [apply ok_element; sample_plain|].
  apply Forall_cons. split; [|constructor].
  apply ok_element, ok_function; [by split|by split| |constructor| |computed|vm_compute; by repeat split].
  - apply (ok_anonymous _ _ (default new_Word (sample_table !! anonymous_name 0))); [done|computed].
  - apply Forall_cons. split; [sample_plain|constructor].
Qed.

Lemma sample_block_ok : block_ok (block_of sample_items).
Proof. vm_compute. by repeat split. Qed.

Lemma sample_fresh : Forall (fresh sample_table) (sample_items ≫= functions_of).
Proof.
  change (sample_items ≫= functions_of) with ["inc"%string; anonymous_name 0].
  repeat constructor; intros w; vm_compute; by intros [= <-].
Qed.

