(* ===== verification/Arguments.v ===== *)
(** * The command line (src/src/arguments.cc, src/src/arguments.hh)

    [Arguments::parse] around the parser of [boost::program_options], whose
    results are parameters: the variables of the first pass over the command
    line with the words it does not recognise, and those of the second one,
    which knows the options of the command. *)

From S2P Require Import Prelude Syntax Errors Parser Driver.

Open Scope char_scope.
Open Scope Z_scope.

(** ** Paths *)

Definition slash : ascii := "/".
Definition dot : ascii := ".".

(** The characters in front of the first slash. *)
Fixpoint until_slash (l : list ascii) : list ascii :=
  match l with
  | c :: l => if decide (c = slash) then [] else c :: until_slash l
  | [] => []
  end.

(** [fs::path::filename]: what is behind the last slash. *)
Definition filename (p : string) : list ascii := reverse (until_slash (reverse (chars p))).

(** [fs::path::stem]: the name of the file up to its last dot, unless that is
    its first character. *)
Definition stem (p : string) : string :=
  let f := filename p in
  if decide (f = [dot] ∨ f = [dot; dot]) then str_of f
  else
    match list_find (λ c, c = dot) (reverse f) with
    | Some (k, _) => if (k + 1 =? length f)%nat then str_of f else str_of (take (length f - (k + 1)) f)
    | None => str_of f
    end.

(** ** The options *)

(** [po::variables_map]: the options given. *)
Record Variables := mk_Variables {
  v_help : bool;
  v_verbose : bool;
  v_check : bool;
  v_no_colors : bool;
  v_output : option string;
  v_include : option (list string);
  v_dump_effects : bool;
  v_control_flow : bool;
  v_control_flow_for : option string;
  v_source : option (list string);
  v_command : option string;
}.

(** What the option parser does: it returns, it throws [unknown_option], or it
    throws another exception. *)
Inductive parsed (A : Type) := Parsed (a : A) | Unknown_Option (what : string) | Invalid.
Arguments Parsed {A} a.
Arguments Unknown_Option {A} what.
Arguments Invalid {A}.

(** [struct Arguments] *)
Record Arguments := mk_Arguments {
  a_include_search_paths : list string;
  a_source_files : list string;
  a_arguments : list string;
  a_compiler : string;
  a_executable : string;
  a_assembly : string;
  a_control_flow : string;
  a_control_flow_function : string;
  a_warn_redefinitions : bool;
  a_verbose : bool;
  a_typecheck : bool;
  a_control_flow_graph : bool;
  a_run_mode : bool;
  a_dump_words_effects : bool;
  a_output_colors : bool;
}.

Section Parse.
  Context (parse_options : list string → parsed (Variables * list string)).
  Context (parse_build_options : list string → Variables → parsed Variables).
  Context (self_exe : string) (is_terminal : bool).

(** An exception of the option parser: only [unknown_option] is caught. *)
Definition from_parser {A} (r : parsed A) : comp A :=
  match r with
  | Parsed a => mret a
  | Unknown_Option what => error_fatal None what
  | Invalid => throw
  end.

(** [help]: it prints the options and exits. *)
Definition help {A} : comp A := ([], Exited).

(** [vm[name].as<T>()] throws where the option is absent. *)
Definition as_ {A} (v : option A) : comp A := match v with Some a => mret a | None => throw end.

(** The paths of the outputs. *)
Definition executable_path (vm : Variables) (source : string) : string :=
  match v_output vm with
  | Some output => output
  | None => path_append (parent_path source) (stem source)
  end.

(** [argv] is what follows the name of the program. *)
Definition parse (argc : Z) (argv : list string) : comp Arguments :=
  let '(cmdline, arguments) := split_arguments argv false in
  '(vm, opts) ← from_parser (parse_options cmdline);
  if bool_decide (v_command vm = None) || (argc =? 0) || v_help vm then help
  else
    command ← as_ (v_command vm);
    match opts with
    | [] => undefined
    | _ :: opts =>
      vm ← (if decide (command = "build"%string ∨ command = "run"%string)
        then from_parser (parse_build_options opts vm)
        else error_fatal None ("Unrecognized command: " +:+ command));
      source_files ← as_ (v_source vm);
      ensure_fatal (negb (length source_files =? 0)%nat) None "no input files" ≫= λ _,
      source ← index source_files 0;
      let executable := executable_path vm source in
      let '(graph, control_flow, function) :=
        match v_control_flow_for vm with
        | Some f => (true, executable +:+ ".fun.dot", f)
        | None => if v_control_flow vm then (true, executable +:+ ".dot", ""%string) else (false, ""%string, ""%string)
        end in
      mret (mk_Arguments
        (default [] (v_include vm) ++ [path_append (parent_path self_exe) "std"])
        source_files arguments self_exe executable (executable +:+ ".asm") control_flow function
        true (v_verbose vm) (v_check vm) graph (bool_decide (command = "run"%string)) (v_dump_effects vm)
        (negb (v_no_colors vm) && is_terminal))
    end.

End Parse.

(** ** Lemmas on paths *)

Lemma until_slash_all l : slash ∉ l → until_slash l = l.
Proof.
  induction l as [|c l IH]; [done|]. rewrite not_elem_of_cons. intros [Hc Hl]. cbn [until_slash].
  rewrite decide_False by (intros ->; by apply Hc). by rewrite IH.
Qed.

Lemma until_slash_app l r : slash ∉ l → until_slash (l ++ slash :: r) = l.
Proof.
  induction l as [|c l IH]; [done|]. rewrite not_elem_of_cons. intros [Hc Hl]. cbn [app until_slash].
  rewrite decide_False by (intros ->; by apply Hc). by rewrite IH.
Qed.

Lemma strip_filename_app l r : slash ∉ l → strip_filename (l ++ slash :: r) = slash :: r.
Proof.
  induction l as [|c l IH]; [done|]. rewrite not_elem_of_cons. intros [Hc Hl]. cbn [app strip_filename].
  rewrite decide_False by (intros ->; by apply Hc). by rewrite IH.
Qed.

Lemma strip_filename_all l : slash ∉ l → strip_filename l = [].
Proof.
  induction l as [|c l IH]; [done|]. rewrite not_elem_of_cons. intros [Hc Hl]. cbn [strip_filename].
  rewrite decide_False by (intros ->; by apply Hc). by rewrite IH.
Qed.

(** A directory with its slash, or nothing. *)
Inductive prefix_ : list ascii → Prop :=
  | no_prefix : prefix_ []
  | directory_prefix d : last d ≠ Some slash → d ≠ [] → prefix_ (d ++ [slash]).

Lemma filename_of p f : prefix_ p → slash ∉ f → filename (str_of (p ++ f)) = f.
Proof.
  intros Hp Hf. unfold filename. rewrite chars_str_of, reverse_app. destruct Hp as [|d _ _].
  - rewrite app_nil_r, until_slash_all by (by rewrite elem_of_reverse). apply reverse_involutive.
  - rewrite reverse_snoc, until_slash_app by (by rewrite elem_of_reverse).
    apply reverse_involutive.
Qed.

(** The directory of a path followed by another name in it. *)
Lemma sibling p f f' :
  prefix_ p → slash ∉ f → slash ∉ f' → path_append (parent_path (str_of (p ++ f))) (str_of f') = str_of (p ++ f').
Proof.
  intros Hp Hf Hf'. unfold parent_path, path_append. rewrite !chars_str_of, reverse_app.
  assert (∀ (A : Type) (x y : A), match f' with "/"%char :: _ => x | _ => y end = y) as Hno.
  { intros A x y. destruct f' as [|c f']; [done|]. apply not_elem_of_cons in Hf' as [Hc _].
    destruct c as [[] [] [] [] [] [] [] []]; done. }
  rewrite Hno. destruct Hp as [|d Hlast Hd].
  - rewrite app_nil_r, strip_filename_all by (by rewrite elem_of_reverse). done.
  - rewrite reverse_snoc, strip_filename_app by (by rewrite elem_of_reverse). cbn [strip_slashes].
    rewrite decide_True by done. destruct d as [|c d _] using rev_ind; [done|].
    rewrite last_snoc in Hlast. rewrite reverse_snoc. cbn [strip_slashes].
    rewrite decide_False by (intros ->; by apply Hlast).
    rewrite <-reverse_snoc, reverse_involutive, !chars_str_of, reverse_snoc.
    assert (∀ (A : Type) (x y : A), match c :: reverse d with [] | "/"%char :: _ => x | _ => y end = y) as Hno'.
    { intros A x y. destruct c as [[] [] [] [] [] [] [] []]; done || by destruct Hlast. }
    rewrite Hno'. change "/"%string with (str_of [slash]). by rewrite <-!str_of_app, <-!app_assoc.
Qed.

Lemma stem_of p name ext :
  prefix_ p → slash ∉ name → slash ∉ ext → dot ∉ ext → name ≠ [] → name ≠ [dot] →
  stem (str_of (p ++ name ++ dot :: ext)) = str_of name.
Proof.
  intros Hp Hname Hext Hdot Hne Hne'. unfold stem.
  rewrite filename_of by (done || (rewrite elem_of_app, elem_of_cons; by intros [|[|]])).
  assert (reverse (name ++ dot :: ext) = reverse ext ++ dot :: reverse name) as Hrev.
  { by rewrite reverse_app, reverse_cons, <-app_assoc. }
  rewrite decide_False.
  - rewrite Hrev.
    assert (list_find (λ c, c = dot) (reverse ext ++ dot :: reverse name) = Some (length ext, dot)) as ->.
    { apply list_find_Some. split_and!; [|done|].
      - apply list_lookup_middle. by rewrite length_reverse.
      - intros j c Hj Hlt ->. apply Hdot, elem_of_reverse, (list_elem_of_lookup_2 _ j).
        by rewrite lookup_app_l in Hj by (rewrite length_reverse; lia). }
    assert (0 < length name)%nat by (destruct name; [done|simpl; lia]).
    rewrite length_app. simpl. rewrite (proj2 (Nat.eqb_neq _ _)) by lia.
    replace (length name + S (length ext) - (length ext + 1))%nat with (length name) by lia. by rewrite take_app_length.
  - destruct name as [|a [|b name]]; [done|..]; (intros [H|H]; [done|]).
    + by injection H as -> _.
    + injection H as _ _ H. by destruct name.
Qed.

Lemma stem_plain p name :
  prefix_ p → slash ∉ name → dot ∉ name → stem (str_of (p ++ name)) = str_of name.
Proof.
  intros Hp Hname Hdot. unfold stem. rewrite filename_of by done.
  case_decide; [done|]. destruct (list_find _ (reverse name)) as [[k c]|] eqn:Hf; [|done].
  apply list_find_Some in Hf as (Hk & -> & _). destruct Hdot. apply elem_of_reverse. by eapply list_elem_of_lookup_2.
Qed.

(** ** Properties *)

(** The words in front of the first [--] and those behind it. *)
Definition separates (argv before after : list string) : Prop :=
  "--"%string ∉ before ∧ (argv = before ∧ after = [] ∨ argv = before ++ "--"%string :: after).

Lemma split_arguments_separates argv :
  separates argv (split_arguments argv false).1 (split_arguments argv false).2.
Proof.
  assert (∀ l, split_arguments l true = ([], l)) as Hseen.
  { intros l. induction l as [|a l IH]; [done|]. cbn [split_arguments]. by rewrite IH. }
  induction argv as [|a argv IH]; cbn [split_arguments]; [split; [set_solver|by left]|].
  case_decide as Ha; [rewrite Hseen, Ha; split; [set_solver|by right]|].
  destruct (split_arguments argv false) as [before after]. cbn [fst snd] in *. destruct IH as [Hno IH].
  split; [set_solver|]. destruct IH as [[-> ->]| ->]; [by left|by right].
Qed.

(** The report of an error without a location, with which the compiler exits. *)
Definition reported {A} (m : string) : comp A := ([mk_Entry Reports.Error None m], Exited).

(** What the command line asks for: the rules by which its outcome is known from
    the variables of the two passes of the option parser.  [before] are the
    words in front of [--] and [after] those behind it. *)
Section Outcomes.
  Context (parse_options : list string → parsed (Variables * list string)).
  Context (parse_build_options : list string → Variables → parsed Variables).
  Context (self_exe : string) (is_terminal : bool) (argc : Z) (before after : list string).

Inductive first_pass : comp Arguments → Prop :=
  | F_unknown what : parse_options before = Unknown_Option what → first_pass (reported what)
  | F_invalid : parse_options before = Invalid → first_pass ([], Thrown)
  | F_help vm opts :
      parse_options before = Parsed (vm, opts) → v_command vm = None ∨ argc = 0 ∨ v_help vm = true →
      first_pass ([], Exited)
  | F_no_words vm c :
      parse_options before = Parsed (vm, []) → v_command vm = Some c → argc ≠ 0 → v_help vm = false →
      first_pass ([], Undef)
  | F_command vm o opts c :
      parse_options before = Parsed (vm, o :: opts) → v_command vm = Some c → argc ≠ 0 → v_help vm = false →
      c ∉ ["build"; "run"]%string → first_pass (reported ("Unrecognized command: " +:+ c))
  | F_second vm o opts c r :
      parse_options before = Parsed (vm, o :: opts) → v_command vm = Some c → argc ≠ 0 → v_help vm = false →
      c ∈ ["build"; "run"]%string → second_pass c (parse_build_options opts vm) r → first_pass r
with second_pass : string → parsed Variables → comp Arguments → Prop :=
  | S_unknown c what : second_pass c (Unknown_Option what) (reported what)
  | S_invalid c : second_pass c Invalid ([], Thrown)
  | S_no_source c vm : v_source vm = None → second_pass c (Parsed vm) ([], Thrown)
  | S_empty c vm : v_source vm = Some [] → second_pass c (Parsed vm) (reported "no input files")
  | S_accepted c vm source sources a :
      v_source vm = Some (source :: sources) → a_source_files a = source :: sources →
      a_run_mode a = bool_decide (c = "run"%string) → a_arguments a = after →
      a_executable a =
        (match v_output vm with Some path => path | None => path_append (parent_path source) (stem source) end) →
      a_assembly a = a_executable a +:+ ".asm" →
      a_include_search_paths a = default [] (v_include vm) ++ [path_append (parent_path self_exe) "std"] →
      a_compiler a = self_exe → a_warn_redefinitions a = true →
      a_verbose a = v_verbose vm → a_typecheck a = v_check vm → a_dump_words_effects a = v_dump_effects vm →
      a_output_colors a = negb (v_no_colors vm) && is_terminal →
      (a_control_flow_graph a, a_control_flow a, a_control_flow_function a) =
        (match v_control_flow_for vm, v_control_flow vm with
         | Some f, _ => (true, a_executable a +:+ ".fun.dot", f)
         | None, true => (true, a_executable a +:+ ".dot", ""%string)
         | None, false => (false, ""%string, ""%string)
         end) →
      second_pass c (Parsed vm) ([], Done a).

End Outcomes.

(** C18: Every outcome of the command line, by rules that exclude each other: an
    option that is not known and a command that is neither [build] nor [run]
    are reported, no command and the help option end in the usage, the
    exceptions of the option parser and a missing source file leave [parse],
    and everything else is accepted, with the paths and settings the options
    ask for.  Where the command is no positional word the code erases from an
    empty vector. *)
Theorem parse_outcomes parse_options parse_build_options self_exe is_terminal argc argv :
  ∃ before after, separates argv before after ∧
    first_pass parse_options parse_build_options self_exe is_terminal argc before after
      (parse parse_options parse_build_options self_exe is_terminal argc argv).
Proof.
  pose proof (split_arguments_separates argv) as Hsplit. unfold parse.
  destruct (split_arguments argv false) as [before after]. exists before, after. split; [done|].
  destruct (parse_options before) as [[vm opts]|what|] eqn:Hparse; [|by apply F_unknown|by apply F_invalid].
  cbn [from_parser]. rewrite bind_ret_l.
  destruct (v_command vm) as [c|] eqn:Hc;
    [|rewrite bool_decide_eq_true_2 by done; eapply F_help; [done|by left]].
  rewrite bool_decide_eq_false_2 by done. cbn [orb].
  destruct (Z.eqb_spec argc 0) as [Hargc|Hargc]; cbn [orb]; [eapply F_help; [done|by right; left]|].
  destruct (v_help vm) eqn:Hhelp; [eapply F_help; [done|by right; right]|]. cbn [as_]. rewrite bind_ret_l.
  destruct opts as [|o opts]; [by eapply F_no_words|].
  case_decide as Hcmd; [|eapply F_command; [done..|set_solver]].
  eapply F_second; [done..|set_solver|].
  destruct (parse_build_options opts vm) as [vm'|what|]; cbn [from_parser]; [|by constructor..].
  rewrite bind_ret_l. destruct (v_source vm') as [[|source sources]|] eqn:Hsrc; cbn [as_]; [by apply S_empty| |by apply S_no_source].
  rewrite bind_ret_l. cbn [length Nat.eqb negb ensure_fatal]. rewrite bind_ret_l.
  change (index (source :: sources) 0) with (mret (M := comp) source). rewrite bind_ret_l. cbv zeta.
  destruct (v_control_flow_for vm') eqn:Hf, (v_control_flow vm') eqn:Hg;
    (eapply S_accepted; [exact Hsrc|done..|by rewrite Hf, ?Hg]).
Qed.

(** The command line [stacky run a/b.stacky -- x]. *)
Definition sample_variables : Variables :=
  mk_Variables false false false false None None false false None (Some ["a/b.stacky"%string]) (Some "run"%string).

(** C38: Without an output option the executable lies beside the source file, under
    its name without the extension. *)
Theorem executable_of_source vm p name ext :
  v_output vm = None → prefix_ p → slash ∉ name → slash ∉ ext → dot ∉ ext → name ≠ [] → name ≠ [dot] →
  executable_path vm (str_of (p ++ name ++ dot :: ext)) = str_of (p ++ name).
Proof.
  intros Hv Hp Hname Hext Hdot Hne Hne'. unfold executable_path. rewrite Hv, stem_of by done.
  apply sibling; [done| |done]. rewrite elem_of_app, elem_of_cons. by intros [|[|]].
Qed.

Lemma executable_of_source_witness :
  executable_path sample_variables (str_of (chars "dir/" ++ chars "prog" ++ dot :: chars "stacky"))
    = str_of (chars "dir/" ++ chars "prog").
Proof.
  apply (executable_of_source sample_variables (chars "dir/") (chars "prog") (chars "stacky"));
    [reflexivity|apply (directory_prefix (chars "dir")); done|by apply (bool_decide_unpack _)..|done|done].
Defined.

(** A source file whose name has no dot is the executable itself, which the
    linker overwrites. *)
Theorem executable_overwrites_source vm p name :
  v_output vm = None → prefix_ p → slash ∉ name → dot ∉ name →
  executable_path vm (str_of (p ++ name)) = str_of (p ++ name).
Proof.
  intros Hv Hp Hname Hdot. unfold executable_path. rewrite Hv, stem_plain by done. by apply sibling.
Qed.
