(* ===== verification/DriverFacts.v ===== *)
(** * Properties of the driver

    The table of intrinsics is complete, the search for files finds the first
    file there is, the loop over includes ends where only imports are used, the
    table of jump targets has the labels code generation needs, and what the
    passes give one another fits together. *)

From S2P Require Import Prelude Syntax Errors Lexer Parser Crossref Operations Types Semantics TypeSound.
From S2P Require Import Machine Codegen BodyCode Optimizer Driver.

Open Scope Z_scope.

(** ** The command line *)

Lemma split_arguments_seen args : split_arguments args true = ([], args).
Proof. induction args as [|a args IH]; [done|]. cbn [split_arguments]. by rewrite IH. Qed.

(** what is before the first separator [--] is for the compiler, and what is
    behind it, other separators included, for the program. *)
Theorem split_arguments_correct before after :
  "--"%string ∉ before → split_arguments (before ++ "--"%string :: after) false = (before, after).
Proof.
  induction before as [|a before IH]; intros Hno; cbn [split_arguments app].
  { rewrite decide_True by done. apply split_arguments_seen. }
  apply not_elem_of_cons in Hno as [Ha Hno]. rewrite decide_False by done. by rewrite IH.
Qed.

Definition sample_arguments : list string := ["run"; "a.stacky"]%string.

Lemma split_arguments_correct_witness :
  split_arguments (sample_arguments ++ "--"%string :: ["--"%string]) false = (sample_arguments, ["--"%string]).
Proof. apply (split_arguments_correct sample_arguments ["--"%string]). by apply (bool_decide_unpack _). Defined.

(** ** Intrinsics *)

Lemma register_lookup (table : list (string * Intrinsic_Kind)) : ∀ ws name,
  NoDup table.*1 →
  foldl (λ ws e, register_intrinsic ws e.1 e.2) ws table !! name =
    match (list_to_map table : gmap string Intrinsic_Kind) !! name with
    | Some k => Some (as_intrinsic k (default new_Word (ws !! name)))
    | None => ws !! name
    end.
Proof.
  induction table as [|[n k] table IH]; intros ws name; simpl; [done|]. intros [Hn Hnd]%NoDup_cons.
  rewrite IH by done. unfold register_intrinsic. destruct (decide (name = n)) as [->|Hne].
  - rewrite (not_elem_of_list_to_map_1 table n) by done. by rewrite !lookup_insert_eq.
  - by rewrite !lookup_insert_ne.
Qed.

Lemma intrinsic_names_nodup : NoDup intrinsic_names.*1.
Proof. by apply (bool_decide_unpack _). Qed.

(** the table of intrinsics: afterwards the names of the table, and no
    others, have become intrinsics of their kinds, with the identifier they
    had, which is 0 for a new word; and every intrinsic has a name. *)
Theorem register_intrinsics_correct ws name :
  register_intrinsics ws !! name =
    match (list_to_map intrinsic_names : gmap string Intrinsic_Kind) !! name with
    | Some k => Some (as_intrinsic k (default new_Word (ws !! name)))
    | None => ws !! name
    end ∧
  ∀ k : Intrinsic_Kind, ∃ n, (list_to_map intrinsic_names : gmap string Intrinsic_Kind) !! n = Some k.
Proof.
  split; [apply register_lookup, intrinsic_names_nodup|].
  intros k. assert (∃ n, (n, k) ∈ intrinsic_names) as [n Hn].
  { assert (existsb (λ e, bool_decide (e.2 = k)) intrinsic_names = true) as Hk by (by destruct k).
    apply existsb_exists in Hk as ([n k'] & Hin & Hk%bool_decide_eq_true). exists n. simpl in Hk. subst k'.
    by apply list_elem_of_In. }
  exists n. apply elem_of_list_to_map_1; [apply intrinsic_names_nodup|done].
Qed.

(** ** Files *)

Lemma head_filter_Some {A} (P : A → Prop) `{∀ x, Decision (P x)} l x :
  head (filter P l) = Some x → ∃ l1 l2, l = l1 ++ x :: l2 ∧ P x ∧ Forall (λ y, ¬ P y) l1.
Proof.
  induction l as [|y l IH]; [done|]. rewrite filter_cons. case_decide as Hy.
  - intros [= <-]. by exists [], l.
  - intros (l1 & l2 & -> & Hx & Hl)%IH. exists (y :: l1), l2. split_and!; [done|done|by constructor].
Qed.

Lemma head_filter_None {A} (P : A → Prop) `{∀ x, Decision (P x)} l :
  head (filter P l) = None → Forall (λ y, ¬ P y) l.
Proof.
  induction l as [|y l IH]; [constructor|]. rewrite filter_cons. case_decide as Hy; [done|].
  intros Hl%IH. by constructor.
Qed.

(** The paths an include can mean, in the order of their precedence. *)
Definition candidates (include_search_paths : list string) (includer_path include_path : string) : list string :=
  (if has_parent_path include_path then [path_append includer_path include_path] else []) ++
  ((λ parent, path_append parent include_path) <$> include_search_paths).

(** an included file is the first that exists and is not a directory among
    the path relative to the including file, if the included path names a
    directory, and the paths relative to the search paths, in their order; it is
    not found only if there is no such file. *)
Theorem search_include_path_correct exists_ is_directory paths includer include :
  let file p := is_file exists_ is_directory p = true in
  match search_include_path exists_ is_directory paths includer include with
  | Some p => ∃ before after, candidates paths includer include = before ++ p :: after ∧
      file p ∧ Forall (λ q, ¬ file q) before
  | None => Forall (λ q, ¬ file q) (candidates paths includer include)
  end.
Proof.
  intros file. unfold search_include_path, candidates.
  set (local := path_append includer include). set (others := _ <$> paths).
  destruct (has_parent_path include); cbn [andb app]; [destruct (is_file _ _ local) eqn:Hl|].
  - by exists [], others.
  - destruct (head _) as [p|] eqn:Hh.
    + apply head_filter_Some in Hh as (l1 & l2 & -> & Hp & Hno). exists (local :: l1), l2.
      split_and!; [done|done|]. constructor; [|done]. unfold file. by rewrite Hl.
    + apply head_filter_None in Hh. constructor; [|done]. unfold file. by rewrite Hl.
  - destruct (head _) as [p|] eqn:Hh; [by apply head_filter_Some in Hh|by apply head_filter_None in Hh].
Qed.

(** ** Includes *)

Definition is_import (t : Token) : bool :=
  bool_decide (tok_kind t = TokKind.Keyword) && bool_decide (tok_kval t = Keyword.Import).

Definition is_include (t : Token) : bool :=
  bool_decide (tok_kind t = TokKind.Keyword) && bool_decide (tok_kval t = Keyword.Include).

Lemma extract_include_loop_found tokens : ∀ prev i l kind includer included offset,
  (is_Some prev → (1 <= i)%nat) →
  extract_include_loop prev tokens i = (l, Done (Some (kind, includer, included, offset))) →
  ∃ before path token after, option_list prev ++ tokens = before ++ path :: token :: after ∧
    (offset + length (option_list prev) = i + length before)%nat ∧
    tok_kind token = TokKind.Keyword ∧ tok_kval token = kind ∧ (kind = Keyword.Import ∨ kind = Keyword.Include) ∧
    tok_kind path = TokKind.String.
Proof.
  induction tokens as [|token tokens IH]; intros prev i l kind includer included offset Hi; cbn [extract_include_loop]; [done|].
  destruct (decide (tok_kind token ≠ _ ∨ _)) as [Hk|Hk].
  - intros (b & s & t & a & Heq & Ho & Ht)%IH; [|lia]. exists (option_list prev ++ b), s, t, a.
    rewrite <-app_assoc, <-Heq, length_app. simpl in Ho. split_and!; [done|lia|naive_solver..].
  - destruct prev as [p|]; [|done]. unfold ensure. case_bool_decide as Hp; [|done]. comp_step.
    intros [= <- <- <- <- <-]. exists [], p, token, tokens. specialize (Hi ltac:(done)). simpl.
    assert (tok_kind token = TokKind.Keyword) by (apply dec_stable; tauto).
    split_and!; [done|lia|done|done| |done].
    destruct (decide (tok_kval token = Keyword.Import)); [by left|right]. apply dec_stable. tauto.
Qed.

Lemma extract_include_found tokens l kind includer included offset :
  extract_include_or_import tokens = (l, Done (Some (kind, includer, included, offset))) →
  ∃ before path token after, tokens = before ++ path :: token :: after ∧ offset = length before ∧
    tok_kind token = TokKind.Keyword ∧ tok_kval token = kind ∧ (kind = Keyword.Import ∨ kind = Keyword.Include) ∧
    tok_kind path = TokKind.String.
Proof.
  intros (b & s & t & a & Heq & Ho & Ht)%extract_include_loop_found; [|by intros []].
  simpl in Heq, Ho. exists b, s, t, a. split_and!; [done|lia|naive_solver..].
Qed.

Lemma extract_include_ends tokens : ends (extract_include_or_import tokens).
Proof.
  unfold extract_include_or_import. generalize (@None Token) 0%nat.
  induction tokens as [|t tokens IH]; intros prev i; cbn [extract_include_loop]; [done|].
  destruct (decide _); [apply IH|]. destruct prev; [|done]. solve_ends.
Qed.

Section Imports.
  Context (exists_ is_directory : string → bool) (canonical : string → string).
  Context (contents : string → option string) (paths : list string).

(** The files are finitely many, each of less than 4 GiB, and they use [import]
    only. *)
Context (Hsmall : ∀ p file, contents p = Some file → Z.of_nat (length (chars file)) < 2 ^ 32).
Context (files : gset string) (Hfiles : ∀ p, canonical p ∈ files).
Context (Honly : ∀ p file l tokens ok, contents p = Some file → lex file p [] = (l, Done (tokens, ok)) →
  Forall (λ t, is_include t = false) tokens).

Abbreviation loop_of := (include_loop exists_ is_directory canonical contents paths).
Abbreviation round_of := (include_round exists_ is_directory canonical contents paths).

Definition imports (tokens : list Token) : nat := length (filter (λ t, is_import t = true) tokens).

Lemma imports_app l1 l2 : imports (l1 ++ l2) = (imports l1 + imports l2)%nat.
Proof. unfold imports. by rewrite filter_app, length_app. Qed.

Lemma imports_cons t l : imports (t :: l) = (Nat.b2n (is_import t) + imports l)%nat.
Proof. unfold imports. rewrite filter_cons. by destruct (is_import t). Qed.

(** A round that continues has imported a new file, or removed an import. *)
Lemma include_round_progress s l s' :
  Forall (λ t, is_include t = false) (is_tokens s) → round_of s = (l, Done (Again s')) →
  Forall (λ t, is_include t = false) (is_tokens s') ∧
  ((base.size (files ∖ already_imported s') < base.size (files ∖ already_imported s))%nat ∨
   (already_imported s' = already_imported s ∧ (imports (is_tokens s') < imports (is_tokens s))%nat)).
Proof.
  intros Hno. unfold include_round. intros H. apply bind_Done in H as (? & m & ? & Hm & H & _).
  destruct m as [[[[kind includer] included] offset]|]; [|done].
  apply extract_include_found in Hm as (b & p & t & a & Htok & -> & Hk & Hkind & Hor & Hp).
  rewrite Htok in Hno. apply Forall_app in Hno as [Hb [_ [Ht Ha]%Forall_cons]%Forall_cons].
  assert (kind = Keyword.Import) as ->.
  { destruct Hor as [|Hinc]; [done|]. unfold is_include in Ht. rewrite Hk, Hkind, Hinc in Ht. done. }
  rewrite bool_decide_eq_true_2 in H by done. cbn [andb] in H.
  rewrite Htok, take_app_length, (drop_app_ge b (p :: t :: a)) in H by lia.
  replace (length b + 2 - length b)%nat with 2%nat in H by lia. cbn [drop] in H. rewrite drop_0 in H.
  destruct (search_include_path _ _ _ _ _) as [path|].
  2: { unfold index in H. case_match; done. }
  destruct (bool_decide (canonical path ∈ _)) eqn:Hin.
  - injection H as <- <-. simpl. split; [by apply Forall_app|]. right. split; [done|].
    rewrite Htok, !imports_app, !imports_cons.
    assert (is_import t = true) as -> by (unfold is_import; by rewrite Hk, Hkind). simpl. lia.
  - destruct (contents path) as [file|] eqn:Hc; [|unfold index in H; case_match; done].
    apply bind_Done in H as (? & [toks ok] & ? & Hl & [= <- <-] & _). simpl. split.
    + rewrite !Forall_app. split_and!; [done|by eapply Honly|done].
    + left. apply bool_decide_eq_false in Hin. apply subset_size. specialize (Hfiles path). set_solver.
Qed.

Lemma include_round_ends s : ends (round_of s).
Proof.
  unfold include_round. apply ends_bind; [apply extract_include_ends|]. intros [[[[kind includer] included] offset]|]; [|done].
  cbv zeta. destruct (search_include_path _ _ _ _ _); [|solve_ends]. destruct (_ && _); [done|].
  destruct (contents _) as [file|] eqn:Hc; [|solve_ends].
  apply ends_bind; [|by intros []]. rewrite lex_of_text by (by eapply Hsmall). apply lex_text_ends. lia.
Qed.

Lemma include_loop_ends_lex n : ∀ m s,
  (base.size (files ∖ already_imported s) <= n)%nat → (imports (is_tokens s) <= m)%nat →
  Forall (λ t, is_include t = false) (is_tokens s) → ∃ fuel, ends (loop_of fuel s).
Proof.
  induction n as [n IHn] using lt_wf_ind. induction m as [m IHm] using lt_wf_ind. intros s Hn Hm Hno.
  destruct (round_of s) as [l r] eqn:Hr.
  assert (r ≠ No_fuel) as Hend by (pose proof (include_round_ends s) as He; unfold ends in He; by rewrite Hr in He).
  assert ((∃ s', r = Done (Again s')) ∨ (∃ fuel, ends (loop_of fuel s))) as [[s' ->]|]; [|clear Hend|done].
  { destruct r as [[| |s']| | | |]; try (right; exists 1%nat; unfold ends; cbn [include_loop]; rewrite Hr; done). by left; eexists. }
  destruct (include_round_progress _ _ _ Hno Hr) as [Hno' Hlt].
  assert (∃ fuel, ends (loop_of fuel s')) as [fuel Hf].
  { destruct Hlt as [Hlt|[Heq Hlt]].
    - eapply (IHn (base.size (files ∖ already_imported s'))); [lia|done|done|done].
    - eapply (IHm (imports (is_tokens s'))); [lia|by rewrite Heq|done|done]. }
  exists (S fuel). cbn [include_loop]. rewrite Hr. by apply ends_bind_Done; [|intros l1 r [= <- <-]].
Qed.

End Imports.

(** C16: the loop over includes ends where finitely many files of less than 4 GiB
    use [import] only, whatever they import, one another and themselves
    included. *)
Theorem imports_terminate exists_ is_directory canonical contents paths (files : gset string) s :
  (∀ p, canonical p ∈ files) →
  (∀ p file, contents p = Some file → Z.of_nat (length (chars file)) < 2 ^ 32) →
  (∀ p file l tokens ok, contents p = Some file → lex file p [] = (l, Done (tokens, ok)) →
    Forall (λ t, is_include t = false) tokens) →
  Forall (λ t, is_include t = false) (is_tokens s) →
  ∃ fuel, ends (include_loop exists_ is_directory canonical contents paths fuel s).
Proof. intros Hfiles Hsmall Honly Hno. by eapply include_loop_ends_lex. Qed.

Definition quoted (s : string) : string := str_of (chr 34 :: chars s ++ [chr 34]).

(** Two files that import one another. *)
Definition two_files (p : string) : option string :=
  if decide (p = "std/a.stacky"%string) then Some (quoted "b" +:+ " import")
  else if decide (p = "std/b.stacky"%string) then Some (quoted "a" +:+ " import")
  else None.

Lemma imports_terminate_witness :
  ∃ fuel, ends (include_loop (λ p, bool_decide (is_Some (two_files p))) (λ _, false)
    (λ p, if decide (p = "std/a.stacky"%string) then "/std/a.stacky"%string else "/std/b.stacky"%string)
    two_files ["std"%string] fuel
    (mk_Include_State [literal no_location TokKind.String (chars (quoted "a")); key_tok Keyword.Import "import"] ∅ true)).
Proof.
  apply (imports_terminate _ _ _ _ _ {["/std/a.stacky"%string; "/std/b.stacky"%string]}).
  - intros p. case_decide; set_solver.
  - intros p file. unfold two_files. repeat case_decide; [intros [= <-]..|done]; reflexivity.
  - intros p file l tokens ok. unfold two_files. repeat case_decide; subst; [intros [= <-]..|done];
      vm_compute; intros [= <- <- <-]; by repeat constructor.
  - by repeat constructor.
Defined.

(** A file that includes itself. *)
Definition self_including : string := quoted "./a" +:+ " include".

Definition self_tokens (path : string) : list Token :=
  match lex self_including path [] with (_, Done (tokens, _)) => tokens | _ => [] end.

Lemma lex_self path : lex self_including path [] = ([], Done (self_tokens path, true)).
Proof. reflexivity. Qed.

(** [include] has no such limit: a file that includes itself is read again
    and again. *)
Theorem self_include_diverges canonical paths fuel path imported compile :
  ¬ ends (include_loop (λ _, true) (λ _, false) canonical (λ _, Some self_including) paths fuel
    (mk_Include_State (self_tokens path) imported compile)).
Proof.
  revert path imported compile. induction fuel as [|fuel IH]; intros path imported compile; [by intros H; apply H|].
  cbn [include_loop]. set (path' := path_append (parent_path path) "./a").
  assert (include_round (λ _, true) (λ _, false) canonical (λ _, Some self_including) paths
    (mk_Include_State (self_tokens path) imported compile) =
    ([], Done (Again (mk_Include_State (self_tokens path') imported (compile && true))))) as ->.
  { unfold include_round. change (extract_include_or_import (is_tokens (mk_Include_State (self_tokens path) imported compile)))
      with (mret (Some (Keyword.Include, parent_path path, "./a"%string, 0%nat)) : comp _).
    comp_step. cbv zeta. rewrite (bool_decide_eq_false_2 (Keyword.Include = Keyword.Import)) by done.
    cbn [andb]. change (search_include_path _ _ paths (parent_path path) "./a") with (Some path').
    cbv iota beta. rewrite lex_self. comp_step. reflexivity. }
  pose proof (IH path' imported (compile && true)) as H. revert H. unfold ends.
  cbn [mbind comp_bind]. by destruct (include_loop _ _ _ _ _ _ _).
Qed.

(** ** Jump targets *)

(** The labels the jumps of a body need. *)
Definition body_labels (name : string) (ops : list Operation) : gset Label_Info :=
  list_to_set (omap (λ op, match op_kind op with
    | OpKind.End | OpKind.If | OpKind.Else | OpKind.Do => Some (mk_Label name (op_jump op))
    | _ => None end) ops).

Definition jumps_set (ops : list Operation) : Prop :=
  Forall (λ op, is_jump (op_kind op) → op_jump op ≠ Empty_Jump) ops.

Lemma body_jump_targets_Done ops : ∀ name lookup,
  jumps_set ops → body_jump_targets lookup ops name = mret (lookup ∪ body_labels name ops).
Proof.
  unfold jumps_set, body_labels.
  induction ops as [|op ops IH]; intros name lookup Hset; cbn [body_jump_targets omap list_omap list_to_set].
  { by rewrite union_empty_r_L. }
  apply Forall_cons in Hset as [Hop Hset].
  destruct (op_kind op) eqn:Hk; try (by apply IH); specialize (Hop I);
    rewrite (proj2 (Z.eqb_neq _ _)) by done; unfold assert_impl; cbn [negb]; comp_step;
    rewrite IH by done; f_equal; cbn [list_to_set]; by rewrite assoc_L by apply _.
Qed.

Lemma body_jump_targets_empty ops : ∀ name lookup l lookup',
  body_jump_targets lookup ops name = (l, Done lookup') → jumps_set ops.
Proof.
  induction ops as [|op ops IH]; intros name lookup l lookup'; cbn [body_jump_targets]; [constructor|].
  intros H. apply Forall_cons.
  destruct (op_kind op) eqn:Hk; try (split; [by rewrite ?Hk|by eapply IH]);
    unfold assert_impl in H; destruct (Z.eqb_spec (op_jump op) Empty_Jump); try done;
    cbn [negb] in H; rewrite bind_ret_l in H; (split; [done|by eapply IH]).
Qed.

Lemma elem_of_body_labels name ops label :
  label ∈ body_labels name ops ↔ ∃ op, op ∈ ops ∧ is_jump (op_kind op) ∧ label = mk_Label name (op_jump op).
Proof.
  unfold body_labels. rewrite elem_of_list_to_set, list_elem_of_omap. split.
  - intros (op & Hop & Hl). exists op. destruct (op_kind op); simplify_eq; done.
  - intros (op & Hop & Hj & ->). exists op. split; [done|]. by destruct (op_kind op).
Qed.

(** The bodies of a program, with the names their labels have. *)
Definition is_body (order : list string) (g : Generation_Info) (name : string) (body : list Operation) : Prop :=
  (name = ""%string ∧ body = main g) ∨
  ∃ w, (name, w) ∈ entries (words g) order ∧ w_kind w = WordKind.Function ∧ body = w_function_body w.

Lemma function_jump_targets_labels ws : ∀ lookup l lookup',
  function_jump_targets lookup ws = (l, Done lookup') →
  (∀ label, label ∈ lookup' ↔ label ∈ lookup ∨
    ∃ name w, (name, w) ∈ ws ∧ w_kind w = WordKind.Function ∧ label ∈ body_labels name (w_function_body w)) ∧
  ∀ name w, (name, w) ∈ ws → w_kind w = WordKind.Function → jumps_set (w_function_body w).
Proof.
  induction ws as [|[n def] ws IH]; intros lookup l lookup'; cbn [function_jump_targets].
  { intros [= <- <-]. set_solver. }
  case_decide as Hk.
  { intros [Hl Hs]%IH. split; [|set_solver]. intros label. rewrite Hl. set_solver. }
  intros H. apply bind_Done in H as (? & lookup1 & ? & H1 & H & _). apply IH in H as [Hl Hs].
  pose proof (body_jump_targets_empty _ _ _ _ _ H1) as Hset.
  rewrite body_jump_targets_Done in H1 by done. injection H1 as <- <-. split; [|set_solver].
  intros label. rewrite Hl. set_solver.
Qed.

Lemma generate_jump_targets_labels order g l g' :
  generate_jump_targets_lookup order g = (l, Done g') →
  (∀ label, label ∈ jump_targets_lookup g' ↔ label ∈ jump_targets_lookup g ∨
    ∃ name body op, is_body order g name body ∧ op ∈ body ∧ is_jump (op_kind op) ∧
      label = mk_Label name (op_jump op)) ∧
  (∀ name body, is_body order g name body → jumps_set body) ∧
  main g' = main g ∧ words g' = words g ∧ strings g' = strings g.
Proof.
  unfold generate_jump_targets_lookup. intros H. apply bind_Done in H as (? & lookup1 & ? & H1 & H & _).
  apply bind_Done in H as (? & lookup2 & ? & [Hl Hs]%function_jump_targets_labels & [= <- <-] & _). simpl.
  pose proof (body_jump_targets_empty _ _ _ _ _ H1) as Hset.
  rewrite body_jump_targets_Done in H1 by done. injection H1 as <- <-. unfold is_body. split_and!; [| |done..].
  - intros label. rewrite Hl, elem_of_union, elem_of_body_labels. setoid_rewrite elem_of_body_labels.
    naive_solver.
  - intros name body [[-> ->]|(w & Hw & Hf & ->)]; [done|by eapply Hs].
Qed.

(** the table of jump targets has exactly the labels of the targets of the
    jumps of the program and of its functions, beside those it had; a jump that
    has not been resolved is refused; and nothing else is changed. *)
Theorem generate_jump_targets_correct order g l g' :
  generate_jump_targets_lookup order g = (l, Done g') →
  (∀ label, label ∈ jump_targets_lookup g' ↔ label ∈ jump_targets_lookup g ∨
    ∃ name body op, is_body order g name body ∧ op ∈ body ∧ is_jump (op_kind op) ∧
      label = mk_Label name (op_jump op)) ∧
  (∀ name body, is_body order g name body → jumps_set body) ∧
  main g' = main g ∧ words g' = words g ∧ strings g' = strings g.
Proof. apply generate_jump_targets_labels. Qed.

Lemma generate_jump_targets_correct_witness :
  ∃ g', generate_jump_targets_lookup [] (mk_Generation_Info ∅ ∅ sample_body ∅ ∅) = ([], Done g') ∧
    main g' = sample_body.
Proof.
  eexists. split; [vm_compute; reflexivity|].
  apply (generate_jump_targets_correct [] (mk_Generation_Info ∅ ∅ sample_body ∅ ∅) [] _). vm_compute. reflexivity.
Defined.

(** ** The type check before code generation *)

Lemma typecheck_words_Done fuel ws order : ∀ l,
  typecheck_words fuel ws order = (l, Done tt) →
  ∀ name w, (name, w) ∈ order → w_kind w = WordKind.Function → w_is_dynamically_typed w = false →
    w_has_effect w = true → ∃ l, typecheck_word ws fuel w = (l, Done tt).
Proof.
  induction order as [|[n word] order IH]; intros l; cbn [typecheck_words]; [set_solver|].
  intros H name w Hin Hf Hd He.
  apply elem_of_cons in Hin as [[= -> ->]|Ho].
  - rewrite decide_False, Hd, He in H by (by intros []). cbn [negb] in H.
    apply bind_Done in H as (l1 & [] & l2 & H & _). by exists l1.
  - case_decide; [by eapply IH|]. destruct (w_is_dynamically_typed word); [by eapply IH|].
    destruct (w_has_effect word); cbn [negb] in H;
      apply bind_Done in H as (? & ? & ? & _ & H & _); by eapply IH.
Qed.

Lemma entries_complete (ws : Words) order name w :
  name ∈ order → ws !! name = Some w → (name, w) ∈ entries ws order.
Proof.
  intros Hn Hw. unfold entries. apply list_elem_of_omap. exists name. split; [done|]. by rewrite Hw.
Qed.

(** C25: the type check the driver makes is the one the soundness of the type
    system rests on: where it succeeds, the program and every function with a
    declared effect have been checked. *)
Theorem typecheck_program_complete fuel order g l :
  (∀ name, is_Some (words g !! name) → name ∈ order) →
  typecheck_program fuel order g = (l, Done tt) → typechecked fuel (words g) (main g).
Proof.
  intros Horder H. unfold typecheck_program in H. apply bind_Done in H as (l1 & [] & l2 & Hw & Hm & _).
  split; [by exists l2|]. intros name w Hlook. eapply typecheck_words_Done; [done|].
  apply entries_complete; [by apply Horder|done].
Qed.

Lemma typecheck_program_complete_witness : typechecked 30 sample_words sample_main.
Proof.
  apply (typecheck_program_complete 30 ["f"%string] (mk_Generation_Info ∅ sample_words sample_main ∅ ∅) []).
  - intros name [w Hw]. cbn [words] in Hw. unfold sample_words in Hw.
    apply lookup_singleton_Some in Hw as [<- _]. left.
  - vm_compute. reflexivity.
Defined.

(** ** From tokens to code *)

(** Code is generated for every body of covered operations whose jumps are
    resolved. *)
Lemma generate_loop_Done targets prefix name size ops : ∀ i,
  Forall local ops → jumps_set ops → ∃ ls, generate_loop targets prefix name size i ops = ([], Done ls).
Proof.
  induction ops as [|op ops IH]; intros i Hl Hs; cbn [generate_loop]; [by eexists|].
  apply Forall_cons in Hl as [Hlop Hl]. apply Forall_cons in Hs as [Hsop Hs].
  assert (∃ code, emit_operation prefix size i op = ([], Done code)) as [code ->].
  { unfold emit_operation, assert_jump_set, assert_impl. unfold local in Hlop.
    destruct (op_kind op) eqn:Hk; try done; try (by eexists);
      try (rewrite (proj2 (Z.eqb_neq (op_jump op) Empty_Jump)) by (by apply Hsop); cbn [negb]; comp_step; by eexists).
    destruct Hlop as [f Hf]. unfold emit_intrinsic. rewrite bool_decide_eq_true_2 by done.
    destruct (op_intrinsic op); try done; by eexists. }
  destruct (IH (S i) Hl Hs) as [ls Hls]. cbn [mbind comp_bind]. rewrite Hls. by eexists.
Qed.

Lemma jumps_set_within n ops :
  Z.of_nat n < Empty_Jump → Forall (jump_within 0 n) ops → jumps_set ops.
Proof.
  intros Hn H. eapply list.Forall_impl; [exact H|]. intros op Hop Hj. specialize (Hop Hj). lia.
Qed.

Lemma labels_of_jumps name ops lookup :
  Forall (jump_within 0 (length ops)) ops → body_labels name ops ⊆ lookup → jumps_labelled lookup name ops.
Proof.
  intros Hin Hsub. apply list.Forall_forall. intros op Hop Hj. split.
  - apply Hsub, elem_of_body_labels. by exists op.
  - by apply (proj1 (list.Forall_forall _ _) Hin op Hop).
Qed.

Lemma link_Forall (P : Operation → Prop) b :
  (∀ j op, P op → P (set_op_jump j op)) → ∀ n, Forall P (flatten b) → Forall P (link n b).
Proof.
  intros HP. induction b; intros n; cbn [flatten link];
    repeat (rewrite ?Forall_cons, ?Forall_app); intros; destruct_and?; split_and?; auto.
Qed.

(** the compilation of a structured program without definitions, from its
    tokens: they become the operations of the program, with its jumps; all jumps
    get labels; code is generated, and it runs as the operations do: from an
    empty stack to the same stack where these end, to a fault where they divide
    by zero. *)
Theorem compile_tokens_correct limit base ws tokens b a c :
  block_ok b → Forall2 (translates ws) tokens (flatten b) → Forall local (flatten b) →
  Z.of_nat (length tokens) < Empty_Jump → amachine_ok a → a_stack a = [] →
  ∃ ops lookup ls,
    into_operations tokens (mk_PState ws []) = ([], Done (mk_PState ws ops)) ∧
    body_jump_targets ∅ ops "" = ([], Done lookup) ∧
    generate_instructions lookup ops Label_Prefix "" = ([], Done ls) ∧
    (steps ws syscall_arguments (Running [mk_frame ops 0] []) c →
     match c with
     | Running _ st => ∃ pc a', runs_to limit base ls (0%nat, a) (pc, a') ∧ a_stack a' = st
     | Halted st => ∃ a', runs_to limit base ls (0%nat, a) (length ls, a') ∧ a_stack a' = st ∧ a_mem a' = a_mem a
     | Trapped => faults limit base ls (0%nat, a)
     end).
Proof.
  intros Hok Hts Hlocal Hlen Ha Hst.
  assert (length (link 0 b) = length tokens) as Hl by (by rewrite length_link, (Forall2_length _ _ _ Hts)).
  assert (Forall (jump_within 0 (length (link 0 b))) (link 0 b)) as Hin.
  { rewrite length_link. by apply (link_jumps b 0). }
  assert (jumps_set (link 0 b)) as Hset by (eapply jumps_set_within; [|done]; by rewrite Hl).
  assert (Forall local (link 0 b)) as Hloc by (apply link_Forall; [by intros j []|done]).
  destruct (generate_loop_Done (∅ ∪ body_labels "" (link 0 b)) Label_Prefix "" (length (link 0 b)) (link 0 b) 0 Hloc Hset)
    as [ls Hls].
  exists (link 0 b), (∅ ∪ body_labels "" (link 0 b)), ls. split_and!.
  - by apply into_operations_blocks.
  - by apply body_jump_targets_Done.
  - done.
  - intros Hsteps. rewrite <-Hst in Hsteps. eapply generate_instructions_runs; [exact Hls| |done|done|exact Hsteps].
    apply labels_of_jumps; [done|set_solver].
Qed.

Lemma compile_tokens_correct_witness :
  ∃ ops lookup ls,
    into_operations sample_program (mk_PState ∅ []) = ([], Done (mk_PState ∅ ops)) ∧
    body_jump_targets ∅ ops "" = ([], Done lookup) ∧
    generate_instructions lookup ops Label_Prefix "" = ([], Done ls) ∧
    ∃ a', runs_to 0 1000 ls (0%nat, mk_amachine sample_cpu [] (λ _, 0)) (length ls, a') ∧
      a_stack a' = [2] ∧ a_mem a' = λ _, 0.
Proof.
  destruct (compile_tokens_correct 0 1000 ∅ sample_program sample_block (mk_amachine sample_cpu [] (λ _, 0)) (Halted [2]))
    as (ops & lookup & ls & Hops & Hlookup & Hls & Hruns).
  - by repeat split.
  - repeat constructor.
  - by repeat constructor.
  - reflexivity.
  - split_and!; [|constructor|]; [|by intros x]. by repeat split.
  - reflexivity.
  - exists ops, lookup, ls. split_and!; [done..|]. apply Hruns.
    assert (ops = link 0 sample_block) as -> by (vm_compute in Hops; by injection Hops as <-).
    eapply rtc_l; [by eapply S_push_int|]. eapply rtc_l; [eapply S_branch; [done|by left]|].
    eapply rtc_l; [by eapply S_push_int|]. eapply rtc_l; [eapply S_jump; [done|by left]|].
    eapply rtc_l; [eapply S_jump; [done|by right]|]. eapply rtc_l; [by eapply S_end|]. apply rtc_refl.
Defined.
