(* ===== verification/Main.v ===== *)
(** * The whole compiler ([main] of src/src/stacky.cc)

    The command line, the passes, the graph, and the commands that assemble,
    link and execute the program.  What the commands do is a parameter. *)

From S2P Require Import Prelude Syntax Errors Codegen Debug Process Driver Arguments.

Open Scope Z_scope.

(** What is done outside of the compiler: a command with the line that is
    echoed for it, or the program in place of the compiler. *)
Inductive action :=
  | Run_Command (words : list string) (echo : option (list ascii))
  | Execute (path : string) (argv : list string).

Definition options_of (a : Arguments) : Options :=
  mk_Options (a_source_files a) (a_warn_redefinitions a) (a_dump_words_effects a) (a_typecheck a) (a_assembly a).

Section Main.
  Context (exists_ is_directory : string → bool) (canonical : string → string).
  Context (contents : string → option string) (env : Environment) (fuel : nat).
  Context (parse_options : list string → parsed (Variables * list string)).
  Context (parse_build_options : list string → Variables → parsed Variables).
  Context (self_exe : string) (is_terminal dot_file : bool).
  Context (system : list string → System) (strerror : Z → string) (absolute : string → string).

(** [cmd]: in verbose mode the command is printed first. *)
Definition cmd (verbose : bool) (program : string) (args : list string) : action * Error_Code :=
  let words := program :: args in
  if verbose then
    let '(line, e) := run_echo (system words) (chars program) (chars <$> args) in (Run_Command words (Some line), e)
  else (Run_Command words None, run (system words)).

(** The end of [main]: the assembler, the linker and, in the mode to run it,
    the program, from which there is a return only if it cannot be executed. *)
Definition assemble_and_link (a : Arguments) : list action * comp Z :=
  let '(nasm, e) := cmd (a_verbose a) "nasm" ["-felf64"%string; a_assembly a] in
  if is_error e then ([nasm], error_fatal None ("failed to assemble: nasm: " +:+ message strerror e))
  else
    let '(ld, e) := cmd (a_verbose a) "ld" ["-o"%string; a_executable a; a_executable a +:+ ".o"] in
    if is_error e then ([nasm; ld], error_fatal None ("failed to link: ld: " +:+ message strerror e))
    else if a_run_mode a then
      let path := absolute (a_executable a) in ([nasm; ld; Execute path (path :: a_arguments a)], mret 0)
    else ([nasm; ld], mret 0).

(** [main] up to the assembler: [None] is [return 1]. *)
Definition before_assembler (argc : Z) (argv : list string) : comp (option Arguments) :=
  a ← parse parse_options parse_build_options self_exe is_terminal argc argv;
  unless_failed env
    (compile_program exists_ is_directory canonical contents (a_include_search_paths a) env (options_of a) fuel)
    (λ compiled,
      match compiled with
      | None => mret None
      | Some (g, _) =>
        (if a_control_flow_graph a then
           generate_control_flow_graph g (a_control_flow a) (a_control_flow_function a) dot_file ≫= λ _, mret tt
         else mret tt) ≫= λ _, mret (Some a)
      end).

(** The actions, the reports and the exit status. *)
Definition main (argc : Z) (argv : list string) : list action * comp Z :=
  match before_assembler argc argv with
  | (l, Done (Some a)) => let '(actions, (l', r)) := assemble_and_link a in (actions, (l ++ l', r))
  | (l, Done None) => ([], (l, Done 1))
  | (l, Exited) => ([], (l, Exited))
  | (l, Thrown) => ([], (l, Thrown))
  | (l, Undef) => ([], (l, Undef))
  | (l, No_fuel) => ([], (l, No_fuel))
  end.

(** ** Properties *)

(** The words of the two commands. *)
Definition nasm_words (a : Arguments) : list string := ["nasm"%string; "-felf64"%string; a_assembly a].
Definition ld_words (a : Arguments) : list string :=
  ["ld"%string; "-o"%string; a_executable a; a_executable a +:+ ".o"].

(** An action without the line that is echoed: whether it replaces the compiler,
    and its words, the path to execute first. *)
Definition words_of (act : action) : bool * list string :=
  match act with Run_Command ws _ => (false, ws) | Execute path argv => (true, path :: argv) end.

(** A command and the result of it, whether it is echoed or not. *)
Lemma cmd_spec verbose program args :
  ∃ echo, cmd verbose program args = (Run_Command (program :: args) echo, run (system (program :: args))).
Proof. unfold cmd. destruct verbose; [by eexists (Some _)|by exists None]. Qed.

(** What [assemble_and_link] does, by the results of the commands. *)
Lemma assemble_and_link_spec a :
  ∃ e1 e2, let nasm := Run_Command (nasm_words a) e1 in let ld := Run_Command (ld_words a) e2 in
  let path := absolute (a_executable a) in
  ∃ m, assemble_and_link a =
    if is_error (run (system (nasm_words a))) then ([nasm], error_fatal None m)
    else if is_error (run (system (ld_words a))) then ([nasm; ld], error_fatal None m)
    else if a_run_mode a then ([nasm; ld; Execute path (path :: a_arguments a)], mret 0)
    else ([nasm; ld], mret 0).
Proof.
  unfold assemble_and_link.
  destruct (cmd_spec (a_verbose a) "nasm" ["-felf64"%string; a_assembly a]) as [e1 ->].
  destruct (cmd_spec (a_verbose a) "ld" ["-o"%string; a_executable a; a_executable a +:+ ".o"]) as [e2 ->].
  exists e1, e2. fold (nasm_words a) (ld_words a).
  destruct (is_error (run (system (nasm_words a)))); [by eexists|].
  destruct (is_error (run (system (ld_words a)))); [by eexists|]. by exists ""%string.
Qed.

Lemma before_assembler_Done argc argv l a :
  before_assembler argc argv = (l, Done (Some a)) →
  ∃ l0 l1 g code, parse parse_options parse_build_options self_exe is_terminal argc argv = (l0, Done a) ∧
    compile_program exists_ is_directory canonical contents (a_include_search_paths a) env (options_of a) fuel
      = (l1, Done (Some (g, code))) ∧ failed env l1 = false.
Proof.
  unfold before_assembler. intros H. apply bind_Done in H as (l0 & a' & l2 & Hp & H & _). unfold unless_failed in H.
  destruct (compile_program _ _ _ _ _ _ _ _) as [l1 e] eqn:Hc. cbn [fst] in H. destruct (failed env l1) eqn:Hf.
  { apply bind_Done in H as (? & ? & ? & _ & H & _). discriminate. }
  apply bind_Done in H as (? & compiled & ? & He & H & _). injection He as -> ->.
  destruct compiled as [[g code]|]; [|discriminate].
  apply bind_Done in H as (? & [] & ? & _ & H & _). injection H as _ ->. eauto 10.
Qed.

(** C17: Nothing is executed before its time.  Where the compiler acts at all, all
    passes have accepted the program, and its actions are, in this order, the
    assembler, the linker if the assembler has succeeded, and the program in
    the mode to run it if both have; a command that fails makes the compiler
    exit with a report. *)
Theorem main_actions argc argv actions l r :
  main argc argv = (actions, (l, r)) → actions ≠ [] →
  ∃ a l0 l1 g code,
    parse parse_options parse_build_options self_exe is_terminal argc argv = (l0, Done a) ∧
    compile_program exists_ is_directory canonical contents (a_include_search_paths a) env (options_of a) fuel
      = (l1, Done (Some (g, code))) ∧ failed env l1 = false ∧
    let assembled := negb (is_error (run (system (nasm_words a)))) in
    let linked := assembled && negb (is_error (run (system (ld_words a)))) in
    let path := absolute (a_executable a) in
    words_of <$> actions =
      (false, ["nasm"%string; "-felf64"%string; a_assembly a])
      :: (if assembled then [(false, ["ld"%string; "-o"%string; a_executable a; a_executable a +:+ ".o"])] else [])
      ++ (if linked && a_run_mode a then [(true, path :: path :: a_arguments a)] else []) ∧
    if linked then r = Done 0 else r = Exited ∧ Compilation_Failed l = true.
Proof.
  unfold main. intros H Hne. destruct (before_assembler argc argv) as [l' e] eqn:Hb.
  destruct e as [[a|]| | | |]; try (by injection H as <- _ _).
  apply before_assembler_Done in Hb as (l0 & l1 & g & code & Hp & Hc & Hf).
  exists a, l0, l1, g, code. do 3 (split; [done|]). cbv zeta. destruct (assemble_and_link_spec a) as (e1 & e2 & m & Hspec).
  rewrite Hspec in H. destruct (is_error (run (system (nasm_words a)))).
  { injection H as <- <- <-. cbn. split_and!; [done|done|]. rewrite Compilation_Failed_app. by apply orb_true_r. }
  destruct (is_error (run (system (ld_words a)))).
  { injection H as <- <- <-. cbn. split_and!; [done|done|]. rewrite Compilation_Failed_app. by apply orb_true_r. }
  by destruct (a_run_mode a); injection H as <- <- <-.
Qed.

End Main.

(** A file system with one file, commands that succeed, and the command line
    [stacky run a/b.stacky -- x]. *)
Definition sample_environment : Environment :=
  mk_Environment (λ ws, (map_to_list ws).*1) map_to_list true Compilation_Failed.

Abbreviation sample_compilation := (
  main (λ _, true) (λ _, false) (λ p, p) (λ p, if decide (p = "a/b.stacky"%string) then Some "1 2 + drop "%string else None)
    sample_environment 20 (λ _, Parsed (sample_variables, ["run"%string])) (λ _ vm, Parsed vm) "/usr/bin/stacky" true true
    (λ _, mk_System None None None (inr 0)) (λ _, ""%string) (λ p, "/home/" +:+ p) 4
    ["run"; "a/b.stacky"; "--"; "x"]%string).

Lemma sample_compilation_executes : sample_compilation.1 ≠ [].
Proof. vm_compute. discriminate. Qed.

Lemma main_actions_witness : ∃ actions l r, sample_compilation = (actions, (l, r)) ∧ r = Done 0.
Proof.
  pose proof sample_compilation_executes as Hne. destruct sample_compilation as [actions [l r]] eqn:H.
  exists actions, l, r. split; [done|].
  destruct (main_actions _ _ _ _ _ _ _ _ _ _ _ _ _ _ _ _ actions l r H Hne) as (a & l0 & l1 & g & code & _ & _ & _ & _ & Hr).
  exact Hr.
Defined.
