(* ===== verification/BackEnd.v ===== *)
(** * From operations to a running program

    The table of jump targets and the assembly the driver generates for a
    program with resolved jumps and calls: both succeed, and the file, linked
    and started, follows the program. *)

From S2P Require Import Prelude Syntax Errors Crossref Semantics Machine Codegen BodyCode Optimizer Unused.
From S2P Require Import Labels Linking ProgramCode Driver DriverFacts.

Open Scope Z_scope.

(** ** Code can be generated *)

(** The operations the parser makes: the names of loads, stores and system calls
    have their sizes and numbers in them. *)
Definition emittable (op : Operation) : Prop :=
  match op_kind op with
  | OpKind.Intrinsic =>
    match op_intrinsic op with
    | Intrinsic.Load => is_Some (named_size 4 op)
    | Intrinsic.Store => is_Some (named_size 5 op)
    | Intrinsic.Syscall => ∃ c, chars (tok_sval (op_token op)) !! 7%nat = Some c ∧ schar "0" <= schar c <= schar "6"
    | _ => True
    end
  | _ => True
  end.

Lemma named_size_char k op :
  is_Some (named_size k op) → ∃ c z, char_at (tok_sval (op_token op)) k = mret c ∧ access_size c = Some z.
Proof.
  unfold named_size, char_at. intros [z Hz]. apply bind_Some in Hz as (c & -> & Hc). eauto.
Qed.

Lemma emit_intrinsic_Done op :
  op_kind op = OpKind.Intrinsic → emittable op → ∃ code, emit_intrinsic op = ([], Done code).
Proof.
  intros Hk He. unfold emittable in He. rewrite Hk in He. unfold emit_intrinsic.
  rewrite bool_decide_eq_true_2 by done. unfold assert_impl. rewrite bind_ret_l. cbv zeta.
  destruct (op_intrinsic op); try (by eexists).
  - apply named_size_char in He as (c & z & -> & Hz). rewrite bind_ret_l, Hz. by eexists.
  - apply named_size_char in He as (c & z & -> & Hz). rewrite bind_ret_l, Hz. by eexists.
  - destruct He as (c & Hc & H0 & H6). unfold char_at. rewrite Hc, bind_ret_l.
    rewrite (proj2 (Z.leb_le _ _) H0), (proj2 (Z.leb_le _ _) H6). cbn [andb]. rewrite bind_ret_l. by eexists.
Qed.

Lemma generate_loop_emits targets prefix name size ops : ∀ i,
  Forall emittable ops → jumps_set ops → ∃ ls, generate_loop targets prefix name size i ops = ([], Done ls).
Proof.
  induction ops as [|op ops IH]; intros i He Hs; cbn [generate_loop]; [by eexists|].
  apply Forall_cons in He as [Hop He]. apply Forall_cons in Hs as [Hsop Hs].
  assert (∃ code, emit_operation prefix size i op = ([], Done code)) as [code ->].
  { unfold emit_operation, assert_jump_set, assert_impl.
    destruct (op_kind op) eqn:Hk; try (by eexists); [by apply emit_intrinsic_Done|..];
      (rewrite (proj2 (Z.eqb_neq (op_jump op) Empty_Jump)) by (by apply Hsop)); cbn [negb]; comp_step; by eexists. }
  destruct (IH (S i) He Hs) as [ls Hls]. cbn [mbind comp_bind]. rewrite Hls. by eexists.
Qed.

Lemma generate_functions_emits targets entries :
  Forall (λ e, w_kind e.2 = WordKind.Function → Forall emittable (w_function_body e.2) ∧ jumps_set (w_function_body e.2)) entries →
  ∃ ls, generate_functions targets entries = ([], Done ls).
Proof.
  induction 1 as [|[name w] entries Hw Hall [ls IH]]; cbn [generate_functions]; [by eexists|].
  destruct (decide (w_kind w = WordKind.Function)) as [Hk|Hk]; [rewrite decide_False by tauto|rewrite decide_True by done; by exists ls].
  destruct (Hw Hk) as [He Hs]. unfold generate_function, generate_instructions.
  destruct (generate_loop_emits targets (Function_Body_Prefix +:+ to_string (w_id w) +:+ "_") name
    (length (w_function_body w)) (w_function_body w) 0 He Hs) as [code Hcode].
  cbn [snd] in *. rewrite Hcode. cbn [mbind comp_bind]. rewrite IH. by eexists.
Qed.

(** ** Programs with resolved jumps and calls *)

Lemma function_ids_NoDup (words0 : Words) order :
  NoDup order →
  (∀ n1 n2 w1 w2, words0 !! n1 = Some w1 → words0 !! n2 = Some w2 → w_kind w1 = WordKind.Function →
    w_kind w2 = WordKind.Function → w_id w1 = w_id w2 → n1 = n2) →
  NoDup (function_ids (entries words0 order)).
Proof.
  intros Hnd Hinj. unfold entries, function_ids. induction Hnd as [|name order Hname _ IH]; [constructor|].
  cbn [omap list_omap]. destruct (words0 !! name) as [w|] eqn:Hw; cbn; [|done].
  destruct (decide (w_kind w = WordKind.Function)) as [Hk|Hk]; [|done]. constructor; [|done].
  intros ([n2 w2] & Hin & Hid)%list_elem_of_omap. case_decide as Hk2; [|done]. injection Hid as Hid.
  apply list_elem_of_omap in Hin as (n2' & Hin & He). apply fmap_Some in He as (w2' & Hw2 & [= -> ->]).
  apply Hname. by rewrite (Hinj name n2' w w2').
Qed.

(** What the parser establishes for a program: the order of iteration has every
    word, functions have identifiers of their own, and in every body jumps are
    resolved, calls lead to functions, names are those of intrinsics and symbols
    those of arrays, strings and functions. *)
Record resolved (order : list string) (g : Generation_Info) : Prop := {
  resolved_order : ∀ name, is_Some (words g !! name) → name ∈ order;
  resolved_ids : NoDup (function_ids (entries (words g) order));
  resolved_bodies : ∀ name body, is_body order g name body →
    Forall (jump_within 0 (length body)) body ∧ Z.of_nat (length body) < Empty_Jump ∧
    calls_linked (words g) body ∧ Forall emittable body ∧ Forall (symbol_known (words g) (strings g)) body;
}.

Section Resolved.
  Context (order : list string) (g : Generation_Info) (Hres : resolved order g).

Lemma resolved_word name w : words g !! name = Some w → (name, w) ∈ entries (words g) order.
Proof. intros Hw. apply entries_complete; [|done]. by apply (resolved_order _ _ Hres). Qed.

Lemma resolved_function name w :
  words g !! name = Some w → w_kind w = WordKind.Function → is_body order g name (w_function_body w).
Proof. intros Hw Hk. right. exists w. split_and!; [by apply resolved_word|done|done]. Qed.

Lemma resolved_jumps_set name body : is_body order g name body → jumps_set body.
Proof.
  intros Hb. destruct (resolved_bodies _ _ Hres name body Hb) as (Hj & Hlen & _). by eapply jumps_set_within.
Qed.

Lemma resolved_jump_targets : ∃ g', generate_jump_targets_lookup order g = ([], Done g').
Proof.
  unfold generate_jump_targets_lookup.
  rewrite body_jump_targets_Done by (apply (resolved_jumps_set ""); by left). rewrite bind_ret_l.
  assert (∀ ws lookup, (∀ e, e ∈ ws → e ∈ entries (words g) order) →
    ∃ lookup', function_jump_targets lookup ws = ([], Done lookup')) as Hf.
  { induction ws as [|[n def] ws IH]; intros lookup Hsub; cbn [function_jump_targets]; [by eexists|].
    destruct (decide (w_kind def = WordKind.Function)) as [Hk|Hk];
      [rewrite decide_False by tauto|rewrite decide_True by done; apply IH; intros; apply Hsub; by right].
    rewrite body_jump_targets_Done.
    - rewrite bind_ret_l. apply IH. intros. apply Hsub. by right.
    - apply (resolved_jumps_set n). right. exists def. split_and!; [apply Hsub; left|done|done]. }
  destruct (Hf (entries (words g) order) (jump_targets_lookup g ∪ body_labels "" (main g))) as [lookup Hl]; [done|].
  rewrite Hl. by eexists.
Qed.

Lemma resolved_linkable l g' strings_ :
  generate_jump_targets_lookup order g = (l, Done g') →
  (∀ s id, strings g !! s = Some id → (s, id) ∈ strings_) → linkable g' (entries (words g') order) strings_.
Proof.
  intros (Hlab & _ & Hmain & Hwords & Hss)%generate_jump_targets_labels Hlisted.
  assert (∀ name body, is_body order g name body → jumps_labelled (jump_targets_lookup g') name body) as Hj.
  { intros name body Hb. destruct (resolved_bodies _ _ Hres name body Hb) as (Hin & _).
    apply labels_of_jumps; [done|]. intros label (op & Hop & Hjump & ->)%elem_of_body_labels. apply Hlab. right. eauto 10. }
  assert (∀ name body, is_body order g name body → calls_linked (words g) body) as Hc.
  { intros name body Hb. by destruct (resolved_bodies _ _ Hres name body Hb) as (_ & _ & Hc & _). }
  assert (∀ name body, is_body order g name body → Forall (symbol_known (words g) (strings g)) body) as Hs.
  { intros name body Hb. by destruct (resolved_bodies _ _ Hres name body Hb) as (_ & _ & _ & _ & Hs). }
  split; rewrite ?Hwords, ?Hmain, ?Hss.
  - intros name w Hw. by apply resolved_word.
  - exact Hlisted.
  - apply Hres.
  - apply Hj. by left.
  - intros name w Hw Hk. apply Hj. by apply resolved_function.
  - apply (Hc ""%string). by left.
  - intros name w Hw Hk. apply (Hc name). by apply resolved_function.
  - apply (Hs ""%string). by left.
  - intros name w Hw Hk. apply (Hs name). by apply resolved_function.
Qed.

Lemma resolved_emits l g' strings path :
  generate_jump_targets_lookup order g = (l, Done g') →
  ∃ ls, generate_assembly g' (entries (words g') order) strings path true = ([], Done ls).
Proof.
  intros (_ & _ & Hmain & Hwords & _)%generate_jump_targets_labels. unfold generate_assembly. cbn [negb].
  rewrite Hmain, Hwords.
  destruct (generate_functions_emits (jump_targets_lookup g') (entries (words g) order)) as [fs ->].
  { apply list.Forall_forall. intros [name w] Hin Hk.
    assert (is_body order g name (w_function_body w)) as Hb by (right; by exists w).
    split; [by apply (resolved_bodies _ _ Hres name)|by eapply resolved_jumps_set]. }
  assert (is_body order g "" (main g)) as Hb by (by left).
  destruct (generate_loop_emits (jump_targets_lookup g') Label_Prefix "" (length (main g)) (main g) 0) as [code Hcode];
    [by apply (resolved_bodies _ _ Hres "")|by eapply resolved_jumps_set|].
  unfold generate_instructions. cbn [mbind comp_bind]. rewrite Hcode. by eexists.
Qed.

End Resolved.

(** The machine follows the program, wherever the linker puts the file and
    whatever the stack and the memory are: each state the program reaches is
    reached by the machine, which exits with status 0 where the program halts
    and faults where it divides by zero. *)
Definition follows (g : Generation_Info) (ls : list line) : Prop :=
  ∀ (linker : Linker ls) limit base argc st s c,
    regions limit base ls → starts limit base g ls argc st s →
    program_steps limit base ls (words g) argc (stack_pointer base st)
      (Running [mk_frame (main g) 0] st, a_mem s.2) c →
    match c with
    | (Running _ st', m) => ∃ s', runs_linked limit base ls s s' ∧ a_stack s'.2 = st' ∧ agrees ls (a_mem s'.2) m
    | (Halted st', m) => ∃ s', runs_linked limit base ls s s' ∧ exits ls st' m s'
    | (Trapped, _) => faults_linked limit base ls s
    end.

Lemma resolved_follows order g strings_ path :
  resolved order g → (∀ s id, strings g !! s = Some id → (s, id) ∈ strings_) →
  ∃ g' ls, generate_jump_targets_lookup order g = ([], Done g') ∧
    generate_assembly g' (entries (words g') order) strings_ path true = ([], Done ls) ∧
    NoDup (label_names ls) ∧ follows g ls.
Proof.
  intros Hres Hlisted. destruct (resolved_jump_targets order g Hres) as [g' Hg'].
  pose proof (resolved_linkable order g Hres _ _ _ Hg' Hlisted) as Hlink.
  destruct (resolved_emits order g Hres _ _ strings_ path Hg') as [ls Hls].
  exists g', ls. split_and!; [done|done| |].
  { eapply generate_assembly_labels; [|exact Hls]. apply Hlink. }
  intros linker limit base argc st s c Hregions Hstart Hsteps.
  pose proof (generate_jump_targets_labels _ _ _ _ Hg') as (_ & _ & Hmain & Hwords & _).
  rewrite <-Hmain, <-Hwords in Hsteps.
  eapply (generate_assembly_runs limit base g'); [exact Hls|exact Hlink|exact Hregions| |exact Hsteps].
  destruct Hstart as [H1 H2 H3 H4 H5 H6]. by split.
Qed.

(** ** A program with calls *)

Definition calls_names : list string := "a"%string :: three_names.

Lemma calls_resolved : resolved calls_names calls_program.
Proof.
  assert (∀ name w, (name, w) ∈ entries calls_words calls_names → calls_words !! name = Some w) as Hent.
  { intros name w (n & _ & Hn)%list_elem_of_omap. by apply fmap_Some in Hn as (w' & Hw & [= -> ->]). }
  split.
  - intros name [w Hw]. assert (name ∈ dom calls_words) as Hd by (by apply elem_of_dom).
    revert Hd. change (dom calls_words) with (dom (D := gset string) calls_words).
    unfold calls_words, three_functions, calls_names, three_names. set_solver.
  - apply (bool_decide_unpack _). vm_compute. reflexivity.
  - intros name body [[-> ->]|(w & Hw & Hk & ->)].
    + split_and!; [repeat constructor; by intros []|done|apply calls_linkable| |exact calls_main_symbols].
      repeat constructor; by eexists.
    + apply Hent in Hw. split_and!.
      * revert name w Hw Hk. apply (calls_words_Forall (λ _ w, w_kind w = _ → _)); [done|].
        apply (three_functions_Forall (λ _ w, w_kind w = _ → _)); by repeat constructor.
      * revert name w Hw Hk. apply (calls_words_Forall (λ _ w, w_kind w = _ → _)); [done|].
        by apply (three_functions_Forall (λ _ w, w_kind w = _ → _)).
      * by eapply (functions_linked _ _ _ calls_linkable).
      * revert name w Hw Hk. apply (calls_words_Forall (λ _ w, w_kind w = _ → _)); [done|].
        apply (three_functions_Forall (λ _ w, w_kind w = _ → _)); by repeat constructor.
      * by eapply (functions_symbols _ _ _ calls_linkable).
Qed.

(** The program of [ProgramCode] is one the back end can be used on. *)
Lemma calls_followed :
  ∃ g' ls, generate_jump_targets_lookup calls_names calls_program = ([], Done g') ∧
    generate_assembly g' (entries (words g') calls_names) calls_strings "a.asm" true = ([], Done ls) ∧ NoDup (label_names ls).
Proof.
  destruct (resolved_follows calls_names calls_program calls_strings "a.asm") as (g' & ls & Hg' & Hls & Hnd & _);
    [apply calls_resolved|apply calls_linkable|]. eauto.
Qed.
