(* ===== verification/OptimizedCode.v ===== *)
(** * Optimized programs on the machine

    The optimizer in front of the code generator: a program comes to the same
    end, with the same memory, when it is optimized, so that the file of the
    optimized program follows the program as it was written. *)

From S2P Require Import Prelude Syntax Errors Crossref Operations Semantics TypeSound Machine Codegen BodyCode Optimizer Folding Unused Rounds.
From S2P Require Import Labels Linking ProgramCode TypedCode Driver DriverFacts BackEnd.

Open Scope Z_scope.

Section Programs.
  Context (limit base : Z) (ls : list line) `{Linker ls} (argc argv : Z).

Abbreviation program_step_of ws := (program_step limit base ls ws argc argv).
Abbreviation program_steps_of ws := (program_steps limit base ls ws argc argv).

(** ** Folded constants *)

Lemma config_rel_within c d : config_rel c d → within limit base c → within limit base d.
Proof.
  destruct 1 as [f fs f' fs' p st Hf Hfs|st|]; simpl; [|done..]. rewrite (Forall2_length _ _ _ Hfs), length_app. lia.
Qed.

Section Folded.
  Context (words words' : Words) (Hwords : words_optimized words words').

Lemma push_constants_program body body' s e cs fs st m : ∀ k,
  folds body body' s e cs → (k <= length cs)%nat →
  within limit base (Running (mk_frame body' (s + length cs) :: fs) ((u64 <$> cs) ++ st)) →
  program_steps_of words' (Running (mk_frame body' s :: fs) st, m)
    (Running (mk_frame body' (s + k) :: fs) ((u64 <$> reverse (take k (reverse cs))) ++ st), m).
Proof.
  intros k Hf Hk Hroom. induction k as [|k IH].
  { rewrite Nat.add_0_r. apply rtc_refl. }
  eapply rtc_r; [apply IH; lia|]. destruct (lookup_constants _ _ _ _ _ Hf k) as (v & Hv & Hop); [lia|].
  rewrite Nat.add_succ_r, (take_S_r _ _ _ Hv), reverse_app. simpl.
  replace (u64 v) with (u64 (op_ival (folded_op v))) by (simpl; apply u64_idemp).
  apply P_quiet.
  - intros op Hop'. rewrite Hop in Hop'. injection Hop' as <-. left. exact I.
  - by apply (S_push_int _ _ _ _ (folded_op v)).
  - revert Hroom. simpl. rewrite !length_app, !length_fmap, !length_reverse, length_take, length_reverse. lia.
Qed.

(** A quiet operation in a run. *)
Lemma run_simulates_program body body' s e cs i p fs fs' st c m :
  foldable_body body → folds body body' s e cs → (s <= i < e)%nat →
  fold_ops (segment body s i) [] = Some p → Forall is_i64 p →
  step words (λ _, None) (Running (mk_frame body i :: fs) ((u64 <$> p) ++ st)) c →
  Forall2 (λ f f', frame_rel f f' []) fs fs' → within limit base c →
  ∃ d, program_steps_of words' (Running (mk_frame body' s :: fs') st, m) (d, m) ∧ config_rel c d.
Proof.
  intros Hb Hfolds Hi Hp Hp64 Hstep Hfs Hroom. pose proof (fo_range _ _ _ _ _ Hfolds).
  destruct (lookup_lt_is_Some_2 body i) as [op Hop]; [lia|].
  destruct (run_step _ _ _ _ _ Hfolds i op p Hi Hop Hp) as (p' & Hfold & Hrun & Hsafe).
  destruct (step_in_run _ _ _ _ _ _ _ _ _ _ Hop Hp64 Hfold Hsafe Hstep) as [Hp64' ->].
  destruct (decide (S i < e)%nat) as [Hlt|Hge].
  - exists (Running (mk_frame body' s :: fs') st). split; [apply rtc_refl|].
    constructor; [|done]. eapply F_in_run; [done|done|lia|done|done].
  - assert (S i = e) as <- by lia. rewrite (fo_fold _ _ _ _ _ Hfolds) in Hrun. injection Hrun as ->.
    assert (config_rel (Running (mk_frame body (S i) :: fs) ((u64 <$> p') ++ st))
      (Running (mk_frame body' (s + length p') :: fs') ((u64 <$> p') ++ st))) as Hrel.
    { apply (R_running _ _ _ _ []); [|done].
      replace (s + length p')%nat with (moved s (S i) p' (S i)); [apply frame_rel_moved; [done|done|right; lia]|].
      unfold moved. rewrite decide_False by lia. lia. }
    eexists. split; [|exact Hrel]. pose proof (config_rel_within _ _ Hrel Hroom) as Hroom'.
    pose proof (push_constants_program _ _ _ _ _ fs' st m (length p') Hfolds (Nat.le_refl _) Hroom') as Hpush.
    by rewrite firstn_all2, reverse_involutive in Hpush by (rewrite length_reverse; lia).
Qed.

(** An operation that is not in a run: the same one of the folded program. *)
Lemma aligned_simulates body i body' i' fs fs' st m c :
  aligned body i body' i' → Forall2 (λ f f', frame_rel f f' []) fs fs' →
  program_step_of words (Running (mk_frame body i :: fs) st, m) c →
  ∃ d, program_step_of words' (Running (mk_frame body' i' :: fs') st, m) (d, c.2) ∧ config_rel c.1 d.
Proof.
  intros Hal Hfs Hstep. pose proof Hal as [Hend Hops].
  inversion Hstep as [? c' ? Hquiet Hs Hroom|? ? op ? ? st' ? m' Hop Hobs Hroom
    |? ? op ? st' ? name w Hop Hk Hint Hw Hwk Hlab Hroom]; subst; cbn [fst snd].
  - destruct (step_lift _ _ (λ _, None) (λ _ _, eq_refl) Hwords _ _ _ _ _ _ _ _ Hs Hfs Hal) as (d & Hd & Hrel). exists d.
    split; [|done]. apply P_quiet; [|done|by eapply config_rel_within].
    intros op' Hop'. destruct (body !! i) as [op|] eqn:Hop; [|by rewrite Hend in Hop'].
    destruct (Hops op eq_refl) as (j & Hj & _). rewrite Hj in Hop'. injection Hop' as <-. exact (Hquiet op Hop).
  - destruct (Hops op Hop) as (j & Hj & Hnext & _).
    assert (config_rel (Running (mk_frame body (S i) :: fs) st') (Running (mk_frame body' (S i') :: fs') st')) as Hrel
      by (by apply (R_running _ _ _ _ [])).
    eexists. split; [|exact Hrel]. eapply P_observe; [exact Hj|exact Hobs|by eapply config_rel_within].
  - destruct (Hops op Hop) as (j & Hj & Hnext & _). destruct (Hwords name w Hw) as (b & Hw' & Hopt).
    assert (config_rel (Running (mk_frame (w_function_body w) 0 :: mk_frame body (S i) :: fs) st')
      (Running (mk_frame b 0 :: mk_frame body' (S i') :: fs') st')) as Hrel.
    { apply (R_running _ _ _ _ []); [by apply frame_rel_call|by constructor]. }
    eexists. split; [|exact Hrel].
    by eapply (P_call_pointer _ _ _ _ _ _ _ _ _ _ _ _ name (set_body b w)); try done; eapply config_rel_within.
Qed.

(** The operations of a run are quiet. *)
Lemma run_quiet body body' s e cs i p op :
  folds body body' s e cs → (s <= i < e)%nat → fold_ops (segment body s i) [] = Some p → body !! i = Some op →
  local op.
Proof.
  intros Hfolds Hi Hp Hop. destruct (run_step _ _ _ _ _ Hfolds i op p Hi Hop Hp) as (p' & Hfold & _ & _).
  unfold local. cbn [fold_ops] in Hfold. destruct (op_kind op) eqn:Hk; try done.
  destruct (op_intrinsic op); first [eexists; reflexivity|done].
Qed.

Lemma folding_simulates_program c1 m1 c2 d1 :
  program_step_of words (c1, m1) c2 → config_rel c1 d1 →
  ∃ d2, program_steps_of words' (d1, m1) (d2, c2.2) ∧ config_rel c2.1 d2.
Proof.
  intros Hstep Hrel. destruct Hrel as [f fs f' fs' p st Hf Hfs|st|];
    [|by inversion Hstep; subst; match goal with H : step _ _ _ _ |- _ => inversion H end..].
  assert (∀ body i body' i', aligned body i body' i' →
    program_step_of words (Running (mk_frame body i :: fs) st, m1) c2 →
    ∃ d2, program_steps_of words' (Running (mk_frame body' i' :: fs') st, m1) (d2, c2.2) ∧ config_rel c2.1 d2) as Haligned.
  { intros body i body' i' Hal Hs. destruct (aligned_simulates _ _ _ _ _ _ _ _ _ Hal Hfs Hs) as (d & ? & ?).
    exists d. by split; [apply rtc_once|]. }
  destruct Hf as [body i|body body' s e cs i Hb Hfolds Hout Hne|body body' s e cs i p Hb Hfolds Hi Hp Hp64].
  - by apply (Haligned body i); [apply aligned_same|].
  - by apply (Haligned body i); [apply aligned_moved|].
  - inversion Hstep as [? c' ? Hquiet Hs Hroom|? ? op ? ? st' ? m' Hop Hobs Hroom
      |? ? op ? st' ? name w Hop Hk Hint Hw Hwk Hlab Hroom]; subst; cbn [fst snd].
    + by eapply run_simulates_program.
    + exfalso. pose proof (run_quiet _ _ _ _ _ _ _ _ Hfolds Hi Hp Hop) as Hl.
      unfold local in Hl. unfold observe in Hobs. destruct (op_kind op); try done.
      destruct Hl as [f Hf]. by destruct (op_intrinsic op).
    + exfalso. pose proof (run_quiet _ _ _ _ _ _ _ _ Hfolds Hi Hp Hop) as Hl.
      unfold local in Hl. rewrite Hk, Hint in Hl. by destruct Hl.
Qed.

Lemma folding_preserves_program main main' st m c :
  optimized main main' → outcome_of c.1 →
  program_steps_of words (Running [mk_frame main 0] st, m) c →
  program_steps_of words' (Running [mk_frame main' 0] st, m) c.
Proof.
  intros Hmain Hc Hsteps.
  assert (config_rel (Running [mk_frame main 0] st) (Running [mk_frame main' 0] st)) as Hrel.
  { apply (R_running _ [] _ [] []); [by apply frame_rel_call|constructor]. }
  assert (∀ c1 c2 d1, program_steps_of words c1 c2 → config_rel c1.1 d1 →
    ∃ d2, program_steps_of words' (d1, c1.2) (d2, c2.2) ∧ config_rel c2.1 d2) as Hsim.
  { intros c1 c2 d1 Hs. revert d1. induction Hs as [c1|[c1 m1] c2 c3 Hstep _ IH]; intros d1 Hr.
    { exists d1. split; [apply rtc_refl|done]. }
    destruct (folding_simulates_program _ _ _ _ Hstep Hr) as (d2 & Hd2 & Hr2).
    destruct (IH d2 Hr2) as (d3 & Hd3 & Hr3). exists d3. split; [by etrans|done]. }
  destruct (Hsim _ _ _ Hsteps Hrel) as (d & Hd & Hrel'). destruct c as [c m']. cbn [fst snd] in *.
  by destruct Hc as [[st' ->]| ->]; inversion Hrel'; subst.
Qed.

End Folded.

(** ** Removed words *)

Section Removed.
  Context (words : Words) (order : list string) (u : used).
  Context (Hfound : functions_found words order) (Hclosed : closed_between words order (mk_used ∅ ∅) u).
  Context (Hlinked : map_Forall (λ _ w, w_kind w = WordKind.Function → calls_linked words (w_function_body w)) words).
  Context (Hlabels : map_Forall (λ _ w, w_kind w = WordKind.Function →
    function_label (w_id w) ∈ label_names ls → keep_word u w = true) words).

Abbreviation kept := (filter (λ e : string * Word, keep_word u e.2 = true) words).

Lemma kept_used name w :
  words !! name = Some w → w_kind w = WordKind.Function → keep_word u w = true →
  kept !! name = Some w ∧ body_used words u (w_function_body w).
Proof.
  intros Hw Hk Hkeep. split; [by apply map_lookup_filter_Some|]. split; [|by apply (Hlinked name)].
  unfold keep_word in Hkeep. rewrite Hk in Hkeep. apply bool_decide_eq_true in Hkeep.
  eapply Hclosed; [done|set_solver|by apply (Hfound name)|done].
Qed.

Lemma removal_step_program c m c2 :
  config_used words u c → program_step_of words (c, m) c2 → program_step_of kept (c, m) c2 ∧ config_used words u c2.1.
Proof.
  intros Hc Hstep. inversion Hstep as [? c' ? Hquiet Hs Hroom|body i op fs st st' ? m' Hop Hobs Hroom
    |body i op fs st ? name w Hop Hk Hint Hw Hwk Hlab Hroom]; subst; cbn [fst snd].
  - destruct (step_used _ _ _ _ Hfound Hclosed Hlinked _ _ Hc Hs) as [Hs' Hc']. split; [by apply P_quiet|done].
  - apply Forall_cons in Hc as [Hb Hfs]. split; [by eapply P_observe|]. by constructor.
  - apply Forall_cons in Hc as [Hb Hfs].
    destruct (kept_used name w Hw Hwk) as [Hw' Hu]; [exact (Hlabels name w Hw Hwk Hlab)|].
    split; [by eapply P_call_pointer|]. apply Forall_cons. split; [done|]. by apply Forall_cons.
Qed.

Lemma removal_preserves_program c c2 :
  config_used words u c.1 → program_steps_of words c c2 → program_steps_of kept c c2.
Proof.
  intros Hc Hsteps. induction Hsteps as [c|[c m] c1 c2 Hstep _ IH]; [apply rtc_refl|].
  destruct (removal_step_program _ _ _ Hc Hstep) as [Hs Hc1]. eapply rtc_l; [done|by apply IH].
Qed.

End Removed.

(** ** Rounds *)

(** The functions of the first program that are in the file are functions of the
    second. *)
Definition file_functions (g g' : Generation_Info) : Prop :=
  map_Forall (λ name w, w_kind w = WordKind.Function → function_label (w_id w) ∈ label_names ls →
    is_Some (words g' !! name)) (words g).

Lemma improves_words order g g' : improves order g g' → words_from (words g) (words g').
Proof. intros [l g1 g2 Hg H0|l g1 g2 Hg H0]; [by eapply unused_from|by eapply folding_from; [apply Hg|]]. Qed.

Lemma rounds_words order g g' : rtc (improves order) g g' → words_from (words g) (words g').
Proof.
  induction 1 as [g|g g1 g2 Hround _ IH]; [reflexivity|]. etrans; [by eapply improves_words|done].
Qed.

Lemma file_functions_from g g1 g2 :
  words_from (words g) (words g1) → file_functions g g2 → file_functions g1 g2.
Proof. intros Hfrom Hf name w1 Hw1 Hk Hlab. destruct (Hfrom _ _ Hw1) as (w & b & Hw & ->). by apply (Hf name w). Qed.

Lemma improves_preserves_program order g g' g2 st m c :
  improves order g g' → words_from (words g') (words g2) → file_functions g g2 → outcome_of c.1 →
  program_steps_of (words g) (Running [mk_frame (main g) 0] st, m) c →
  program_steps_of (words g') (Running [mk_frame (main g') 0] st, m) c.
Proof.
  intros Hround Hfrom Hfile Hc Hsteps. destruct Hround as [l g g' Hg Hu|l g g' Hg Hf].
  - apply remove_unused_result in Hu as (u & (_ & Hm & Hclosed) & -> & Hw & _). rewrite Hw.
    eapply (removal_preserves_program _ order); [by apply functions_first_found, Hg|exact Hclosed|..|done].
    + intros name w Hl Hk. apply (optimizable_words _ _ Hg name w Hl Hk).
    + intros name w Hl Hk Hlab. destruct (Hfile name w Hl Hk Hlab) as [w2 (w1 & b & Hw1 & _)%Hfrom].
      rewrite Hw in Hw1. apply map_lookup_filter_Some in Hw1 as [Hl1 Hkeep]. simpl in Hkeep. congruence.
    + apply Forall_singleton. split; [done|]. apply (optimizable_main _ _ Hg).
  - destruct (folding_optimized _ _ _ _ _ (optimizable_order _ _ Hg) (optimizable_foldable _ _ Hg) Hf) as [Hm Hws].
    by eapply folding_preserves_program.
Qed.

Lemma rounds_preserve_program order g g' st m c :
  rtc (improves order) g g' → file_functions g g' → outcome_of c.1 →
  program_steps_of (words g) (Running [mk_frame (main g) 0] st, m) c →
  program_steps_of (words g') (Running [mk_frame (main g') 0] st, m) c.
Proof.
  induction 1 as [g|g g1 g2 Hround Hrounds IH]; intros Hfile Hc Hsteps; [done|]. apply IH; [|done|].
  - eapply file_functions_from; [by eapply improves_words|done].
  - eapply improves_preserves_program; [done|by eapply rounds_words|done|done|done].
Qed.

End Programs.

(** ** The file of the optimized program *)

Lemma function_label_ids g entries strings path l ls id :
  NoDup (function_ids entries) → generate_assembly g entries strings path true = (l, Done ls) →
  function_label id ∈ label_names ls → id ∈ function_ids entries.
Proof.
  intros Hids (l1 & l2 & functions & code & Hf & Hc & ->)%generate_assembly_Done.
  apply generate_functions_labels in Hf as [_ Hall]; [|done]. apply generate_instructions_labels in Hc as [_ Hall'].
  rewrite !label_names_app, (label_names_none (asm_header _ _)) by apply asm_header_no_label. simpl.
  rewrite app_nil_r, elem_of_app, elem_of_cons. intros [Hs|[Hs|Hs]].
  - destruct (proj1 (list.Forall_forall _ _) Hall _ Hs) as (id' & Hin & Hl).
    rewrite (label_of_inj id id' (function_label id)); [done|by left|done].
  - discriminate.
  - destruct (proj1 (list.Forall_forall _ _) Hall' _ Hs) as [j Hj]. discriminate.
Qed.

Lemma elem_of_function_ids (ws : Words) order id :
  id ∈ function_ids (entries ws order) ↔
  ∃ name w, name ∈ order ∧ ws !! name = Some w ∧ w_kind w = WordKind.Function ∧ w_id w = id.
Proof.
  unfold function_ids, entries. rewrite list_elem_of_omap. split.
  - intros ([name w] & Hin & Hid). case_decide as Hk; [|done]. injection Hid as Hid.
    apply list_elem_of_omap in Hin as (n & Hn & He). apply fmap_Some in He as (w' & Hw & [= -> ->]). by exists n, w'.
  - intros (name & w & Hin & Hw & Hk & <-). exists (name, w). split; [|by rewrite decide_True].
    apply list_elem_of_omap. exists name. split; [done|]. by rewrite Hw.
Qed.

(** Functions are told apart by their identifiers. *)
Definition ids_distinct (ws : Words) : Prop :=
  ∀ n1 n2 w1 w2, ws !! n1 = Some w1 → ws !! n2 = Some w2 → w_kind w1 = WordKind.Function →
    w_kind w2 = WordKind.Function → w_id w1 = w_id w2 → n1 = n2.

Lemma functions_first_distinct ws order : functions_first ws order → ids_distinct ws.
Proof.
  intros H n1 n2 w1 w2 H1 H2 K1 K2 Heq. pose proof (H _ _ H1 K1) as F1. pose proof (H _ _ H2 K2) as F2.
  simpl in F1, F2. rewrite Heq in F1. congruence.
Qed.

(** The bodies of the program keep a property of operations that does not look
    at jumps and holds of constants. *)
Definition bodies_all (P : Operation → Prop) (g : Generation_Info) : Prop :=
  Forall P (main g) ∧ map_Forall (λ _ w, w_kind w = WordKind.Function → Forall P (w_function_body w)) (words g).

Lemma improves_bodies P order g g' :
  (∀ j op, P op → P (set_op_jump j op)) → (∀ v, P (folded_op v)) →
  improves order g g' → bodies_all P g → bodies_all P g'.
Proof.
  intros Hjump Hconst Hround [Hm Hws].
  assert (∀ body body', optimized body body' → Forall P body → Forall P body') as Hbody.
  { intros body body' [->|(_ & s & e & st & Hfolds)] Hb; [done|]. apply list.Forall_forall.
    intros op' [(v & ->)|(i & op & Hop & ->)]%(folds_elem _ _ _ _ _ Hfolds); [done|].
    destruct (shifted_jump s e st op) as [j ->]. apply Hjump. by apply (Forall_lookup_1 _ _ _ _ Hb Hop). }
  pose proof (improves_words _ _ _ Hround) as Hfrom. destruct Hround as [l g g' Hg Hu|l g g' Hg Hf].
  - apply remove_unused_result in Hu as (u & _ & Hmain & Hw & _). split; [by rewrite Hmain|].
    intros name w Hl. rewrite Hw in Hl. apply map_lookup_filter_Some in Hl as [Hl _]. by apply (Hws name).
  - destruct (folding_optimized _ _ _ _ _ (optimizable_order _ _ Hg) (optimizable_foldable _ _ Hg) Hf) as [Hom How].
    split; [by eapply Hbody|]. intros name w' Hw' Hk. destruct (Hfrom _ _ Hw') as (w & b & Hw & ->).
    destruct (How _ _ Hw) as (b' & Hw2 & Hopt). rewrite Hw' in Hw2. injection Hw2 as ->.
    eapply Hbody; [exact Hopt|]. by apply (Hws name).
Qed.

Lemma rounds_emittable order g g' : rtc (improves order) g g' → bodies_all emittable g → bodies_all emittable g'.
Proof.
  induction 1 as [g|g g1 g2 Hround _ IH]; [done|]. intros Hemit. apply IH. by eapply improves_bodies.
Qed.

(** The symbols of the program are those of its arrays, strings and functions. *)
Definition program_symbols (g : Generation_Info) : Prop := bodies_all (symbol_known (words g) (strings g)) g.

(** A symbol is known in another table that has the word or the string it
    refers to. *)
Lemma symbol_known_mono (ws ws' : Words) (ss ss' : gmap string Z) op :
  (∀ s, tok_kind (op_token op) = TokKind.String → ss !! s = Some (tok_ival (op_token op)) →
    ss' !! s = Some (tok_ival (op_token op))) →
  (∀ name w, op_kind op = OpKind.Push_Symbol → tok_kind (op_token op) ≠ TokKind.String → ws !! name = Some w →
    w_id w = op_ival op → ∃ b, ws' !! name = Some (set_body b w)) →
  symbol_known ws ss op → symbol_known ws' ss' op.
Proof.
  intros Hss Hws Hop Hk. specialize (Hop Hk). case_decide as Ht.
  - destruct Hop as (Hp & Hid & s & Hs). split_and!; [done|done|]. exists s. rewrite Hid in Hs |- *. by apply Hss.
  - destruct Hop as (name & w & Hw & Hid & Hkind). destruct (Hws name w Hk Ht Hw Hid) as [b Hb].
    by exists name, (set_body b w).
Qed.

Lemma folding_strings order g l g' r :
  for_all_functions constant_folding order g = (l, Done (g', r)) → strings g' = strings g.
Proof.
  intros H. apply bind_Done in H as (? & [m rm] & ? & _ & H & _).
  by apply bind_Done in H as (? & [ws rw] & ? & _ & [= <- <- <-] & _).
Qed.

Lemma removal_symbols order g l g' r :
  functions_found (words g) order → remove_unused_words_and_strings order g = (l, Done (g', r)) →
  program_symbols g → program_symbols g'.
Proof.
  intros Hfound (u & Hspec & Hmain & Hw & Hs)%remove_unused_result [Hm Hws].
  assert (∀ body, Forall (marked u) body → Forall (symbol_known (words g) (strings g)) body →
    Forall (symbol_known (words g') (strings g')) body) as Hbody.
  { intros body Hmark Hb. apply list.Forall_forall. intros op Hop.
    pose proof (proj1 (list.Forall_forall _ _) Hmark op Hop) as Hu. pose proof (proj1 (list.Forall_forall _ _) Hb op Hop) as Hk.
    intros Hsym. specialize (Hu (or_introl Hsym)). revert Hsym. apply (symbol_known_mono (words g) _ (strings g)); [..|done].
    - intros s Ht Hstr. rewrite decide_True in Hu by done. rewrite Hs. by apply map_lookup_filter_Some.
    - intros name w _ Ht Hlook Hid. rewrite decide_False in Hu by done. exists (w_function_body w).
      rewrite set_body_same, Hw. apply map_lookup_filter_Some. split; [done|]. unfold keep_word. simpl.
      rewrite Hid, bool_decide_eq_true_2 by done. by rewrite orb_true_r. }
  split; [rewrite Hmain; apply Hbody; [apply Hspec|done]|]. intros name w Hlook Hk. pose proof Hlook as Hlook'.
  rewrite Hw in Hlook'. apply Hbody; [by eapply kept_marked|].
  apply map_lookup_filter_Some in Hlook' as [Hlook' _]. by apply (Hws name).
Qed.

Lemma improves_symbols order g g' : improves order g g' → program_symbols g → program_symbols g'.
Proof.
  intros Hround Hsym. pose proof Hround as Hround'. destruct Hround as [l g g' Hg Hu|l g g' Hg Hf].
  { eapply removal_symbols; [by apply functions_first_found, Hg|done|done]. }
  destruct (folding_optimized _ _ _ _ _ (optimizable_order _ _ Hg) (optimizable_foldable _ _ Hg) Hf) as [_ How].
  assert (bodies_all (symbol_known (words g) (strings g)) g') as [Hm Hws] by (by eapply improves_bodies).
  assert (∀ op, symbol_known (words g) (strings g) op → symbol_known (words g') (strings g') op) as Hmono.
  { intros op. rewrite (folding_strings _ _ _ _ _ Hf). apply symbol_known_mono; [done|].
    intros name w _ _ Hw _. destruct (How _ _ Hw) as (b & Hb & _). by exists b. }
  split; [by eapply list.Forall_impl|]. intros name w Hw Hk. eapply list.Forall_impl; [by apply (Hws name)|done].
Qed.

Lemma rounds_symbols order g g' : rtc (improves order) g g' → program_symbols g → program_symbols g'.
Proof.
  induction 1 as [g|g g1 g2 Hround _ IH]; [done|]. intros Hsym. by eapply IH, improves_symbols.
Qed.

(** What the optimizer and the code generator need. *)
Lemma optimizable_resolved order order' g :
  optimizable order g → bodies_all emittable g → program_symbols g → NoDup order' →
  (∀ name, is_Some (words g !! name) → name ∈ order') → resolved order' g.
Proof.
  intros Hg [Hm Hws] [Hsm Hsw] Hnd Horder.
  assert (∀ name w, (name, w) ∈ entries (words g) order' → words g !! name = Some w) as Hent.
  { intros name w (n & _ & He)%list_elem_of_omap. by apply fmap_Some in He as (w' & Hw & [= -> ->]). }
  assert (∀ body, body_optimizable (words g) order body → Forall emittable body →
    Forall (symbol_known (words g) (strings g)) body →
    Forall (jump_within 0 (length body)) body ∧ Z.of_nat (length body) < Empty_Jump ∧
    calls_linked (words g) body ∧ Forall emittable body ∧ Forall (symbol_known (words g) (strings g)) body) as Hbody.
  { intros body [Hf _ Hc _] He Hs. pose proof (fb_size _ Hf). split_and!; [apply Hf|lia|done|done|done]. }
  split; [done| |].
  - apply function_ids_NoDup; [done|]. by eapply functions_first_distinct, Hg.
  - intros name body [[_ ->]|(w & Hw%Hent & Hk & ->)]; apply Hbody; [apply Hg|done|done| |by apply (Hws name)|by apply (Hsw name)].
    by apply (optimizable_words _ _ Hg name).
Qed.

(** ** Properties *)

(** The machine comes to the end the program has: it exits with status 0, with
    the stack and the memory of the program, where that halts, and it faults
    where the program divides by zero. *)
Definition ends_as (g : Generation_Info) (ls : list line) : Prop :=
  ∀ (linker : Linker ls) limit base argc st s c,
    regions limit base ls → starts limit base g ls argc st s →
    program_steps limit base ls (words g) argc (stack_pointer base st)
      (Running [mk_frame (main g) 0] st, a_mem s.2) c →
    match c with
    | (Halted st', m) => ∃ s', runs_linked limit base ls s s' ∧ exits ls st' m s'
    | (Trapped, _) => faults_linked limit base ls s
    | (Running _ _, _) => True
    end.

Lemma follows_ends_as order g g' strings path l l' g2 ls :
  rtc (improves order) g g' → functions_first (words g) order →
  generate_jump_targets_lookup l' g' = ([], Done g2) →
  (∀ name, is_Some (words g' !! name) → name ∈ l') → NoDup (function_ids (entries (words g') l')) →
  generate_assembly g2 (entries (words g2) l') strings path true = (l, Done ls) →
  follows g' ls → ends_as g ls.
Proof.
  intros Hrounds Hfirst Htargets Horder Hids Hgen Hfollows linker limit base argc st s c Hregions Hstart Hsteps.
  pose proof (generate_jump_targets_labels _ _ _ _ Htargets) as (_ & _ & _ & Hwords & _).
  assert (file_functions ls g g') as Hfile.
  { intros name w Hw Hk Hlab. rewrite Hwords in Hgen.
    apply (function_label_ids _ _ _ _ _ _ _ Hids Hgen) in Hlab.
    apply elem_of_function_ids in Hlab as (n & w' & _ & Hw' & Hk' & Hid).
    destruct (rounds_words _ _ _ Hrounds _ _ Hw') as (w1 & b & Hw1 & ->).
    rewrite (functions_first_distinct _ _ Hfirst name n w w1); [by eexists|done..]. }
  assert (starts limit base g' ls argc st s) as Hstart'.
  { destruct Hstart as [H1 H2 H3 H4 H5 H6]. by split. }
  assert (outcome_of c.1 → program_steps limit base ls (words g') argc (stack_pointer base st)
    (Running [mk_frame (main g') 0] st, a_mem s.2) c) as Hs.
  { intros Hc. by eapply (rounds_preserve_program limit base ls). }
  assert (outcome_of c.1 → _) as Hf by (intros Hc; exact (Hfollows linker limit base argc st s c Hregions Hstart' (Hs Hc))).
  destruct c as [[fs st'|st'|] m]; [done|..]; apply Hf; [left; by eexists|by right].
Qed.

(** Iterating over a table visits each of its words once, and each of its
    strings. *)
Definition orders_complete (env : Environment) : Prop :=
  (∀ ws, NoDup (word_order env ws) ∧ ∀ name, is_Some (ws !! name) → name ∈ word_order env ws) ∧
  ∀ ss s id, ss !! s = Some id → (s, id) ∈ string_order env ss.

Lemma optimized_code env opts fuel g :
  orders_complete env → asm_file env = true → optimizable (word_order env (words g)) g → bodies_all emittable g → program_symbols g →
  (remaining (word_order env (words g)) g + total body_weight (word_order env (words g)) g + 1 < fuel)%nat →
  ∃ g1 g2 ls, optimize fuel (word_order env (words g)) g = ([], Done g1) ∧
    generate_jump_targets_lookup (word_order env (words g1)) g1 = ([], Done g2) ∧
    generate_assembly g2 (entries (words g2) (word_order env (words g2))) (string_order env (strings g2)) (assembly opts)
      (asm_file env) = ([], Done ls) ∧
    NoDup (label_names ls) ∧ ends_as g ls.
Proof.
  intros [Henv Hss] Hasm Hg Hemit Hsym Hfuel. destruct fuel as [|fuel]; [lia|].
  destruct (optimize_rounds fuel _ g Hg) as (g1 & Ho & Hrounds & Hg1 & _); [lia|].
  pose proof (rounds_emittable _ _ _ Hrounds Hemit) as Hemit1.
  destruct (Henv (words g1)) as [Hnd Hin].
  pose proof (optimizable_resolved _ _ _ Hg1 Hemit1 (rounds_symbols _ _ _ Hrounds Hsym) Hnd Hin) as Hres.
  destruct (resolved_follows _ _ (string_order env (strings g1)) (assembly opts) Hres (Hss (strings g1))) as (g2 & ls & Hg2 & Hls & Hlabels & Hfollows).
  pose proof (generate_jump_targets_labels _ _ _ _ Hg2) as (_ & _ & _ & Hwords & Hstrings).
  exists g1, g2, ls. rewrite Hasm. split_and!; [done|done| |done|].
  - rewrite Hstrings, Hwords. by rewrite Hwords in Hls.
  - eapply (follows_ends_as _ g g1); [done|apply Hg|done|done|apply Hres|exact Hls|done].
Qed.

(** The passes of [compile_operations] one after the other. *)
Lemma compile_operations_Done env opts fuel g l g1 g2 ls :
  dump_words_effects opts = false →
  (if typecheck opts then typecheck_program fuel (word_order env (words g)) g else mret tt) = (l, Done tt) →
  optimize fuel (word_order env (words g)) g = ([], Done g1) →
  generate_jump_targets_lookup (word_order env (words g1)) g1 = ([], Done g2) →
  generate_assembly g2 (entries (words g2) (word_order env (words g2))) (string_order env (strings g2)) (assembly opts)
    (asm_file env) = ([], Done ls) →
  compile_operations env opts fuel g = (l ++ [], Done (g2, ls)).
Proof.
  intros Hdump Hl Ho Hg2 Hls. unfold compile_operations. rewrite Hdump, Hl.
  cbn [mbind comp_bind mret comp_ret]. rewrite Ho. cbn [mbind comp_bind]. rewrite Hg2. cbn [mbind comp_bind].
  by rewrite Hls.
Qed.

Lemma operations_compiled env opts fuel g :
  orders_complete env → asm_file env = true → dump_words_effects opts = false →
  (typecheck opts = true → ∃ l, typecheck_program fuel (word_order env (words g)) g = (l, Done tt)) →
  optimizable (word_order env (words g)) g → bodies_all emittable g → program_symbols g →
  (remaining (word_order env (words g)) g + total body_weight (word_order env (words g)) g + 1 < fuel)%nat →
  ∃ l g' ls, compile_operations env opts fuel g = (l, Done (g', ls)) ∧ NoDup (label_names ls) ∧ ends_as g ls.
Proof.
  intros Henv Hasm Hdump Htype Hg Hemit Hsym Hfuel.
  destruct (optimized_code env opts fuel g Henv Hasm Hg Hemit Hsym Hfuel) as (g1 & g2 & ls & Ho & Hg2 & Hls & Hlabels & Hends).
  assert (∃ l, (if typecheck opts then typecheck_program fuel (word_order env (words g)) g else mret tt) = (l, Done tt))
    as [l Hl] by (destruct (typecheck opts); [by apply Htype|by eexists]).
  exists (l ++ []), g2, ls. split; [|done]. by eapply compile_operations_Done.
Qed.

(** C4: The passes of the driver behind the parser, composed.  The program is
    one the optimizer is used on safely ([optimizable]: no condition is a
    constant, no negative constant or division by zero is folded, jumps enter
    no run of constants, calls and references are resolved, and each function
    is the first word with its identifier in the order of the hash map), whose
    names of intrinsics and symbols are those of the parser; the type check,
    where it is asked for, is assumed to succeed, effects are not dumped, every
    order of iteration is complete and the file can be opened.  Then the
    optimizer ends, the table of jump targets and the assembly are generated,
    no label is written twice, and wherever the linker puts the file, the
    machine comes to the end the program has before the optimizer: it exits
    with status 0 and the same stack and memory where the program halts, and
    faults where it divides by zero. *)
Theorem compile_operations_correct env opts fuel g :
  orders_complete env → asm_file env = true → dump_words_effects opts = false →
  (typecheck opts = true → ∃ l, typecheck_program fuel (word_order env (words g)) g = (l, Done tt)) →
  optimizable (word_order env (words g)) g → bodies_all emittable g → program_symbols g →
  (remaining (word_order env (words g)) g + total body_weight (word_order env (words g)) g + 1 < fuel)%nat →
  ∃ l g' ls, compile_operations env opts fuel g = (l, Done (g', ls)) ∧ NoDup (label_names ls) ∧ ends_as g ls.
Proof. apply operations_compiled. Qed.

Definition sample_environment : Environment :=
  mk_Environment (λ ws, (map_to_list ws).*1) map_to_list true (λ _, false).

Definition sample_options : Options := mk_Options [] false false false "a.asm".

Lemma sample_orders_complete : orders_complete sample_environment.
Proof.
  split; [|by intros ss s id Hs; apply elem_of_map_to_list].
  intros ws. split; [apply NoDup_fst_map_to_list|]. intros name [w Hw]. apply list_elem_of_fmap. exists (name, w).
  split; [done|]. by apply elem_of_map_to_list.
Qed.

(** The file of the program of [Rounds]. *)
Definition rounds_file : list line :=
  match compile_operations sample_environment sample_options 60 rounds_program with
  | (_, Done (_, ls)) => ls
  | _ => []
  end.

Definition rounds_linker : Linker rounds_file.
Proof. apply flat_linker. vm_compute. reflexivity. Defined.

Definition rounds_start : nat * amachine := (default 0%nat (find_label rounds_file "_start"), mk_amachine sample_cpu [1] (λ _, 0)).

Lemma rounds_starts : @starts (2 ^ 39) (2 ^ 40) rounds_program rounds_file rounds_linker 1 [] rounds_start.
Proof.
  split; [vm_compute; reflexivity| |done|split; [simpl; lia|simpl; lia]|done|].
  2: { intros k v Hk. assert (rounds_file ≫= data_bytes = []) as Hd by (vm_compute; reflexivity). rewrite Hd, lookup_nil in Hk. discriminate Hk. }
  split_and!; [by repeat split|by repeat constructor|by intros x].
Qed.

Lemma rounds_program_steps ls `{Linker ls} argv m :
  program_steps (2 ^ 39) (2 ^ 40) ls (words rounds_program) 1 argv (Running [mk_frame (main rounds_program) 0] [], m) (Halted [7], m).
Proof.
  quiet_step S_call. quiet_step S_push_int. quiet_step S_push_int. quiet_step S_intrinsic. quiet_step S_call.
  quiet_step S_push_int. quiet_step S_intrinsic. quiet_step S_end. quiet_step S_end.
  eapply rtc_l; [eapply P_quiet; [intros op Hop; vm_compute in Hop; simplify_eq; left; exact I|
    eapply S_branch; [reflexivity|by left]|split; simpl; lia]|]. cbn [Z.eqb].
  quiet_step S_push_int.
  eapply rtc_l; [eapply P_quiet; [intros op Hop; vm_compute in Hop; simplify_eq; left; exact I|
    eapply S_jump; [reflexivity|by right]|split; simpl; lia]|].
  quiet_step S_end. apply rtc_refl.
Qed.

Lemma compile_operations_correct_witness :
  ∃ s', @runs_linked (2 ^ 39) (2 ^ 40) rounds_file rounds_linker rounds_start s' ∧
    @exits rounds_file rounds_linker [7] (λ _, 0) s'.
Proof.
  destruct (compile_operations_correct sample_environment sample_options 60 rounds_program) as (l & g' & ls & Hls & _ & Hends).
  - apply sample_orders_complete.
  - done.
  - done.
  - done.
  - apply rounds_optimizable; [apply sample_orders_complete|apply sample_orders_complete|..]; vm_compute; by repeat split.
  - split; [repeat constructor|]. apply rounds_words_Forall; intros _; repeat constructor.
  - split; [repeat constructor; discriminate|]. apply rounds_words_Forall; intros _; repeat constructor; discriminate.
  - vm_compute. lia.
  - assert (ls = rounds_file) as -> by (unfold rounds_file; by rewrite Hls).
    apply (Hends rounds_linker (2 ^ 39) (2 ^ 40) 1 [] rounds_start (Halted [7], λ _, 0)).
    + split_and!; [lia|lia|]. left. vm_compute. discriminate.
    + apply rounds_starts.
    + apply rounds_program_steps.
Defined.
