(* ===== verification/Compile.v ===== *)
(** * From the tokens of a program to its execution

    The parser, the optimizer, the table of jump targets and the code generator
    composed as the driver composes them, on structured programs with
    definitions of constants, arrays and functions. *)

From S2P Require Import Prelude Syntax Errors Parser Crossref Operations Definitions Semantics Machine Codegen.
From S2P Require Import BodyCode Optimizer Folding Unused Rounds Labels Linking ProgramCode Driver DriverFacts BackEnd OptimizedCode.

Open Scope Z_scope.

Section Resolve.
  Context (words0 : Words) (strings0 : gmap string Z).

(** Where the intrinsics of a table are those of the language. *)
Definition intrinsics_named : Prop :=
  ∀ name w, words0 !! name = Some w → w_kind w = WordKind.Intrinsic → (name, w_intrinsic w) ∈ intrinsic_names.

(** The string tokens have identifiers of the table. *)
Definition string_listed (t : Token) : Prop :=
  tok_kind t = TokKind.String → ∃ s, strings0 !! s = Some (tok_ival t).

(** A symbol is that of a string, of an array, or a function's, whose identifier
    is that of a word. *)
Definition symbol_resolved (o : Operation) : Prop :=
  op_kind o = OpKind.Push_Symbol →
  if decide (tok_kind (op_token o) = TokKind.String) then
    op_symbol_prefix o = String_Prefix ∧ op_ival o = tok_ival (op_token o) ∧ ∃ s, strings0 !! s = Some (op_ival o)
  else ∃ name w, words0 !! name = Some w ∧ w_id w = op_ival o ∧
    (op_symbol_prefix o = Symbol_Prefix ∧ w_kind w = WordKind.Array ∨ op_symbol_prefix o = Function_Prefix).

(** An operation code can be generated for, with its call and its reference
    resolved. *)
Definition op_resolved (o : Operation) : Prop :=
  emittable o ∧
  (op_kind o = OpKind.Call_Symbol → tok_kind (op_token o) ≠ TokKind.String ∧
   ∃ name w, op_word o = Some name ∧ words0 !! name = Some w ∧ op_ival o = w_id w ∧ w_kind w = WordKind.Function) ∧
  symbol_resolved o.

(** The names of loads, stores and system calls have sizes and numbers. *)
Definition named_ok (e : string * Intrinsic_Kind) : bool :=
  match e.2 with
  | Intrinsic.Load => bool_decide (is_Some (c ← chars e.1 !! 4%nat; access_size c))
  | Intrinsic.Store => bool_decide (is_Some (c ← chars e.1 !! 5%nat; access_size c))
  | Intrinsic.Syscall =>
    match chars e.1 !! 7%nat with Some c => (schar "0" <=? schar c) && (schar c <=? schar "6") | None => false end
  | _ => true
  end.

Lemma intrinsic_names_ok : forallb named_ok intrinsic_names = true.
Proof. vm_compute. reflexivity. Qed.

Lemma intrinsic_emittable i t ival :
  (tok_sval t, i) ∈ intrinsic_names → emittable (with_intrinsic i (make_op OpKind.Intrinsic t ival)).
Proof.
  intros Hin. pose proof intrinsic_names_ok as Hok. rewrite forallb_forall in Hok.
  specialize (Hok _ (proj1 (list_elem_of_In _ _) Hin)). unfold emittable, named_size. unfold named_ok in Hok.
  cbn in *. destruct i; try done; try (by apply bool_decide_eq_true in Hok).
  destruct (chars (tok_sval t) !! 7%nat) as [c|] eqn:Hc; [|done]. apply andb_prop in Hok as [H1 H2]. exists c.
  split; [done|]. split; by apply Z.leb_le.
Qed.

Context (Hnamed : intrinsics_named).

(** Most operations refer to no word. *)
Lemma no_symbol_resolved o :
  emittable o → op_kind o ≠ OpKind.Call_Symbol → op_kind o ≠ OpKind.Push_Symbol → op_resolved o.
Proof using. intros He H1 H2. split_and!; [done|done|by intros ?]. Qed.

Lemma symbol_op_resolved o name w :
  op_kind o = OpKind.Push_Symbol → tok_kind (op_token o) ≠ TokKind.String → words0 !! name = Some w → op_ival o = w_id w →
  op_symbol_prefix o = Symbol_Prefix ∧ w_kind w = WordKind.Array ∨ op_symbol_prefix o = Function_Prefix → op_resolved o.
Proof using.
  intros Hk Ht Hw Hid Hp. split_and!; [unfold emittable; by rewrite Hk|by rewrite Hk|]. intros _.
  rewrite decide_False by done. by exists name, w.
Qed.

Lemma translates_resolved t o : translates words0 t o → string_listed t → op_resolved o.
Proof using Hnamed.
  intros Ht Hlisted. destruct Ht as [Hk|v Hk Hc|Hk|name w Hk Hn Hw|w Hk Hw Hwk|w Hk Hw Hwk|w Hk Hw Hwk|w Hk Hw Hwk|k Hk Hc
    |v Hk Hv Hb|type Hk Hv Hty]; try (by apply no_symbol_resolved).
  - split_and!; [done|done|]. intros _. cbn [op_token op_ival op_symbol_prefix]. rewrite decide_True by done.
    split_and!; [done|done|]. by apply Hlisted.
  - eapply symbol_op_resolved; [done|cbn; congruence|done|done|by right].
  - apply no_symbol_resolved; [|done|done].
    replace (emittable _) with (emittable (with_intrinsic (w_intrinsic w) (make_op OpKind.Intrinsic t 0))) by done.
    apply intrinsic_emittable. by apply Hnamed.
  - eapply symbol_op_resolved; [done|cbn; congruence|done|done|by left].
  - split_and!; [done| |done]. intros _. split; [cbn; congruence|]. by exists (tok_sval t), w.
  - unfold control_table in Hc. repeat (apply elem_of_cons in Hc as [[= _ ->]|Hc]; [by apply no_symbol_resolved|]).
    by apply elem_of_nil in Hc.
Qed.

Lemma element_resolved e : element_ok words0 e → Forall string_listed (tokens_of e) → Forall op_resolved (ops_of e).
Proof using Hnamed.
  intros [t o Ht|h fn s body b end_ Hfn _ Hh _ _ _ _] Hlisted.
  - constructor; [|constructor]. eapply translates_resolved; [exact Ht|]. by apply Forall_cons in Hlisted as [? _].
  - destruct Hh as [|w _ Hw]; cbn [ops_of]; [constructor|]. constructor; [|constructor].
    eapply symbol_op_resolved; [done| |exact Hw|done|by right]. cbn. destruct Hfn as [-> _]. done.
Qed.

(** A body that has been translated, no longer than [n]. *)
Definition body_resolved (n : nat) (body : list Operation) : Prop :=
  ∃ b name, body = link 0 (block_map (in_function name) b) ∧ block_ok b ∧ Forall op_resolved (flatten b) ∧
    (length (flatten b) ≤ n)%nat.

Definition words_resolved (n : nat) (words : Words) : Prop := map_Forall (λ _ w, body_resolved n (w_function_body w)) words.

Lemma length_ops es : (length (es ≫= ops_of) ≤ length (es ≫= tokens_of))%nat.
Proof using.
  induction es as [|e es IH]; [done|]. rewrite !bind_cons, !length_app.
  assert (length (ops_of e) ≤ length (tokens_of e))%nat; [|lia].
  destruct e as [t o|h fn s body b end_|]; [done| |cbn; lia]. rewrite length_function, length_app. destruct h; cbn; lia.
Qed.

Lemma ops_resolved es :
  Forall (element_ok words0) es → Forall string_listed (es ≫= tokens_of) → Forall op_resolved (es ≫= ops_of).
Proof using Hnamed.
  induction 1 as [|e es He _ IH]; [constructor|]. rewrite !bind_cons. intros [H1 H2]%Forall_app. apply Forall_app.
  split; [by apply element_resolved|by apply IH].
Qed.

Lemma item_ops_resolved es :
  Forall (item_ok words0) es → Forall string_listed (es ≫= tokens_of) → Forall op_resolved (es ≫= ops_of).
Proof using Hnamed.
  induction 1 as [|e es He _ IH]; [constructor|]. rewrite !bind_cons. intros [H1 H2]%Forall_app. apply Forall_app.
  split; [|by apply IH]. destruct He as [e He|]; [by apply element_resolved|constructor].
Qed.

Lemma words_resolved_define n e words :
  element_ok words0 e → Forall string_listed (tokens_of e) → (length (tokens_of e) ≤ n)%nat → words_resolved n words →
  words_resolved n (define e words).
Proof using Hnamed.
  revert words. induction e as [t o|m v k|h fn s body b end_ IH] using element_nested_ind; intros words He Hs Hn Hw; [done|done|].
  assert (Forall string_listed (body ≫= tokens_of)) as Hsb.
  { cbn [tokens_of] in Hs. apply Forall_app in Hs as [_ Hs]. apply Forall_cons in Hs as [_ Hs].
    apply Forall_app in Hs as [_ Hs]. by apply Forall_app in Hs as [Hs _]. }
  inversion He as [|? ? ? ? ? ? _ _ _ _ Hbody Hops Hb]; subst.
  assert (length (body ≫= tokens_of) ≤ n)%nat as Hl.
  { rewrite length_function, length_app in Hn. unfold inner in Hn. cbn [length] in Hn. rewrite length_app in Hn. lia. }
  cbn [define]. intros name w. rewrite lookup_alter.
  assert (words_resolved n (foldr define words body)) as Hfold.
  { clear -IH Hbody Hl Hw Hsb.
    induction body as [|e body IHb]; [done|]. apply Forall_cons in IH as [IHe IH], Hbody as [He Hbody].
    rewrite bind_cons, length_app in Hl. rewrite bind_cons in Hsb. apply Forall_app in Hsb as [Hs1 Hs2].
    cbn [foldr]. apply IHe; [done|done|lia|]. apply IHb; [done|done|done|lia]. }
  case_decide; [|apply Hfold]. destruct (foldr define words body !! _) as [w'|]; [|done]. intros [= <-].
  exists b, (w_function_name w'). split_and!; [by destruct s|done| |].
  - rewrite <-Hops. by apply ops_resolved.
  - rewrite <-Hops. pose proof (length_ops body). lia.
Qed.

End Resolve.

(** ** The program the parser makes *)

Lemma headlines_foldr words es : headlines (foldr define_item words es) = headlines words.
Proof. induction es as [|e es IH]; [done|]. cbn [foldr]. by rewrite headlines_define_item. Qed.

Lemma elem_of_entries words order name w : (name, w) ∈ entries words order → words !! name = Some w.
Proof. intros (k & _ & Hk)%list_elem_of_omap. by apply fmap_Some in Hk as (w' & Hw & [= -> ->]). Qed.

(** No other word has the identifier of a function. *)
Definition functions_unique (ws : Words) : Prop :=
  ∀ n1 n2 w1 w2, ws !! n1 = Some w1 → ws !! n2 = Some w2 → w_kind w1 = WordKind.Function → w_id w1 = w_id w2 → n1 = n2.

Lemma entries_found (ws : Words) order name w :
  ws !! name = Some w → name ∈ order → (name, w) ∈ filter (λ e, w_id e.2 = w_id w) (entries ws order).
Proof.
  intros Hw Hin. apply list_elem_of_filter. split; [done|]. apply list_elem_of_omap. exists name. by rewrite Hw.
Qed.

Lemma find_word_some (ws : Words) order name w :
  ws !! name = Some w → name ∈ order → is_Some (find_word ws order (w_id w)).
Proof.
  intros Hw Hin. pose proof (entries_found ws order name w Hw Hin) as He. unfold find_word.
  destruct (filter _ _); [by apply elem_of_nil in He|]. by eexists.
Qed.

Lemma functions_unique_first ws order :
  functions_unique ws → (∀ name, is_Some (ws !! name) → name ∈ order) → functions_first ws order.
Proof.
  intros Hu Horder name w Hw Hk.
  assert ((name, w) ∈ filter (λ e, w_id e.2 = w_id w) (entries ws order)) as He by (apply entries_found; eauto).
  destruct (filter _ _) as [|[n' w'] es] eqn:Hf; [by apply elem_of_nil in He|]. simpl. f_equal.
  assert ((n', w') ∈ filter (λ e, w_id e.2 = w_id w) (entries ws order)) as He' by (rewrite Hf; left).
  apply list_elem_of_filter in He' as [Hid Hin%elem_of_entries]. simpl in Hid.
  assert (name = n') as <- by (by apply (Hu name n' w w')). congruence.
Qed.

Section Program.
  Context (words0 : Words) (strings0 : gmap string Z) (items : list element) (b : block).
  Context (Hitems : Forall (item_ok words0) items) (Hops : items ≫= ops_of = flatten b) (Hb : block_ok b).
  Context (Hnamed : intrinsics_named words0) (Hlisted : Forall (string_listed strings0) (items ≫= tokens_of)).

Let n := length (items ≫= tokens_of).
Let words' := foldr define_item words0 items.

Lemma headlines_items : headlines words' = headlines words0.
Proof using. apply headlines_foldr. Qed.

Lemma body_resolved_nil m : body_resolved words0 strings0 m [].
Proof using. exists B_nil, ""%string. split_and!; [done|done|constructor|apply Nat.le_0_l]. Qed.

Lemma words_resolved_name m e words : words_resolved words0 strings0 m words → words_resolved words0 strings0 m (name_function e words).
Proof using.
  intros Hw. destruct e as [|[name|] fn s body b' end_|]; try done. intros k w. cbn [name_function]. rewrite lookup_alter.
  case_decide; [|apply Hw]. destruct (words !! _) as [w'|] eqn:Hk; [|done]. intros [= <-]. exact (Hw _ _ Hk).
Qed.

Lemma words_resolved_items :
  (∀ name w, words0 !! name = Some w → w_function_body w = []) → words_resolved words0 strings0 n words'.
Proof using Hitems Hnamed Hlisted.
  intros Hempty. subst n words'. assert (∀ m es, Forall (item_ok words0) es → Forall (string_listed strings0) (es ≫= tokens_of) →
    (length (es ≫= tokens_of) ≤ m)%nat →
    words_resolved words0 strings0 m (foldr define_item words0 es)) as Hall; [|by apply Hall].
  intros m es Hes. induction Hes as [|e es He _ IH]; intros Hs Hm.
  { intros name w Hw. rewrite (Hempty _ _ Hw). apply body_resolved_nil. }
  rewrite bind_cons, length_app in Hm. rewrite bind_cons in Hs. apply Forall_app in Hs as [Hs1 Hs2].
  cbn [foldr]. unfold define_item at 1. destruct He as [e He|]; [|apply IH; [done|lia]].
  apply words_resolved_define; [done|done|done|lia|]. apply words_resolved_name, IH; [done|lia].
Qed.

Lemma items_resolved : Forall (op_resolved words0 strings0) (flatten b).
Proof using Hitems Hops Hnamed Hlisted. rewrite <-Hops. by apply item_ops_resolved. Qed.

(** What the optimizer and the back end need of a body. *)
Lemma linked_body c : block_ok c → Forall (op_resolved words0 strings0) (flatten c) →
  Forall (jump_within 0 (length (link 0 c))) (link 0 c) ∧ calls_linked words' (link 0 c) ∧ Forall emittable (link 0 c) ∧
  Forall (λ op, is_jump (op_kind op) → enters_run (link 0 c) (Z.to_nat (op_jump op)) = false) (link 0 c) ∧
  Forall (op_resolved words0 strings0) (link 0 c).
Proof using.
  intros Hc Hall. split; [rewrite length_link; by apply (link_jumps c 0)|].
  assert (Forall (op_resolved words0 strings0) (link 0 c)) as Hl by (apply link_Forall; [by intros j o (? & ? & ?)|done]).
  split_and!; [|by eapply list.Forall_impl; [exact Hl|]; intros o (He & _)| |done].
  - eapply list.Forall_impl; [exact Hl|]. intros o (He & Hcall & _) Hk.
    destruct (Hcall Hk) as (Ht & name & w & Hname & Hw & Hid & Hwk). split; [done|].
    intros name' w' Hname' Hw'. rewrite Hname in Hname'. injection Hname' as <-.
    destruct (headlines_Some _ _ _ _ headlines_items Hw') as (w2 & Hw2 & [= -> _ _ ->]). rewrite Hw in Hw2.
    by injection Hw2 as <-.
  - eapply list.Forall_impl; [apply (link_lands (link 0 c) c 0 Hc); by intros k x|]. intros o Ho Hj.
    by apply at_border_enters, Ho.
Qed.

Lemma located_body name c : block_ok c → Forall (op_resolved words0 strings0) (flatten c) →
  block_ok (block_map (in_function name) c) ∧ Forall (op_resolved words0 strings0) (flatten (block_map (in_function name) c)).
Proof using.
  intros Hc Hall. split; [by apply block_ok_map|]. rewrite flatten_map. apply Forall_fmap.
  eapply list.Forall_impl; [exact Hall|]. by intros o (? & ? & ?).
Qed.

Lemma functions_unique_items : functions_unique words0 → functions_unique words'.
Proof using.
  intros Hu n1 n2 w1 w2 H1 H2 Hk Hid.
  destruct (headlines_Some _ _ _ _ headlines_items H1) as (v1 & V1 & [= K1 _ _ I1]).
  destruct (headlines_Some _ _ _ _ headlines_items H2) as (v2 & V2 & [= K2 _ _ I2]).
  apply (Hu n1 n2 v1 v2); congruence.
Qed.

(** The words of the program are found where they were registered. *)
Lemma items_word name w : words0 !! name = Some w → ∃ w', words' !! name = Some w' ∧ w_id w' = w_id w ∧ w_kind w' = w_kind w.
Proof using.
  intros Hw. assert (is_Some (words' !! name)) as [w' Hw'] by (apply (is_Some_headlines words0); [by rewrite headlines_items|by eexists]).
  destruct (headlines_Some _ _ _ _ headlines_items Hw') as (w2 & Hw2 & [= Hk _ _ Hid]). rewrite Hw in Hw2.
  injection Hw2 as <-. by exists w'.
Qed.

(** The references of an operation lead to words. *)
Lemma op_resolved_word o :
  op_resolved words0 strings0 o → op_kind o = OpKind.Push_Symbol ∨ op_kind o = OpKind.Call_Symbol →
  tok_kind (op_token o) ≠ TokKind.String → ∃ name w, words0 !! name = Some w ∧ w_id w = op_ival o.
Proof using.
  intros (_ & Hcall & Hsym) [Hk|Hk] Ht.
  - specialize (Hsym Hk). rewrite decide_False in Hsym by done. destruct Hsym as (name & w & Hw & Hid & _). eauto.
  - destruct (Hcall Hk) as (_ & name & w & _ & Hw & Hid & _). eauto.
Qed.

Lemma symbol_resolved_items o : symbol_resolved words0 strings0 o → symbol_resolved words' strings0 o.
Proof using.
  intros H Hk. specialize (H Hk). case_decide; [done|]. destruct H as (name & w & Hw & Hid & Hp).
  destruct (items_word name w Hw) as (w' & Hw' & Hid' & Hk'). exists name, w'. rewrite Hid', Hk'. done.
Qed.

(** The operations of the bodies are safe to fold and have open conditions. *)
Definition body_quiet (body : list Operation) : bool := runs_all safe_op body && conditions_open body.

Definition program_quiet (g : Generation_Info) : bool :=
  body_quiet (main g) && forallb (λ e, body_quiet (w_function_body e.2)) (map_to_list (words g)).

Lemma linked_body_optimizable order c :
  block_ok c → Forall (op_resolved words0 strings0) (flatten c) → (length (flatten c) ≤ n)%nat → 2 * Z.of_nat n < Empty_Jump →
  (∀ name, is_Some (words0 !! name) → name ∈ order) → body_quiet (link 0 c) = true →
  body_optimizable words' order (link 0 c) ∧ Forall emittable (link 0 c) ∧ Forall (symbol_resolved words' strings0) (link 0 c).
Proof using.
  intros Hc Hall Hlen Hn Horder [Hsafe Hopen]%andb_true_iff. destruct (linked_body c Hc Hall) as (H1 & H2 & H3 & H4 & H5).
  split_and!; [|done|by eapply list.Forall_impl; [exact H5|]; intros o (_ & _ & Ho); apply symbol_resolved_items].
  split; [|done|done|].
  - split; [|done|done|done]. unfold intrinsics. pose proof (length_filter (λ op, op_kind op = OpKind.Intrinsic) (link 0 c)).
    rewrite length_link in *. lia.
  - eapply list.Forall_impl; [exact H5|]. intros o Ho Hk Ht. destruct (op_resolved_word o Ho Hk Ht) as (name & w & Hw & <-).
    destruct (items_word name w Hw) as (w' & Hw' & <- & _). apply (find_word_some _ _ name); [done|]. apply Horder. by eexists.
Qed.

Lemma program_optimizable order :
  let g := mk_Generation_Info strings0 words' (link 0 b) ∅ ∅ in
  (∀ name w, words0 !! name = Some w → w_function_body w = []) → NoDup order →
  (∀ name, is_Some (words0 !! name) → name ∈ order) → functions_unique words0 → 2 * Z.of_nat n < Empty_Jump →
  program_quiet g = true →
  optimizable order g ∧ bodies_all emittable g ∧ bodies_all (symbol_resolved (words g) (strings g)) g.
Proof using All.
  intros g Hempty Hnd Horder Hunique Hn [Hqm Hqw]%andb_true_iff. cbn [words main g] in *.
  assert (∀ name, is_Some (words' !! name) → name ∈ order) as Horder'.
  { intros name Hw. apply Horder. by apply (is_Some_headlines words'); [rewrite headlines_items|]. }
  assert (body_optimizable words' order (link 0 b) ∧ Forall emittable (link 0 b) ∧
    Forall (symbol_resolved words' strings0) (link 0 b)) as (Hm1 & Hm2 & Hm3).
  { apply linked_body_optimizable; try done; [apply items_resolved|]. rewrite <-Hops. apply length_ops. }
  assert (∀ name w, words' !! name = Some w →
    body_optimizable words' order (w_function_body w) ∧ Forall emittable (w_function_body w) ∧
    Forall (symbol_resolved words' strings0) (w_function_body w)) as Hws.
  { intros name w Hw. rewrite forallb_forall in Hqw.
    specialize (Hqw (name, w) (proj1 (list_elem_of_In _ _) (proj2 (elem_of_map_to_list _ _ _) Hw))). cbn [snd] in Hqw.
    destruct (words_resolved_items Hempty _ _ Hw) as (c & nm & Hbody & Hc & Hall & Hlen). rewrite Hbody in Hqw |- *.
    destruct (located_body nm c Hc Hall) as [Hc' Hall'].
    apply linked_body_optimizable; try done. by rewrite flatten_map, length_fmap. }
  split_and!; [|split; [done|]; intros name w Hw _; by apply (Hws name)..].
  split; [done|done| |done|intros name w Hw _; by apply (Hws name)].
  apply functions_unique_first; [by apply functions_unique_items|done].
Qed.

End Program.

(** The addresses of functions the program pushes are those of functions: the
    parser does not look at the kind of the word behind an ampersand. *)
Definition address_known (ws : Words) (op : Operation) : bool :=
  bool_decide (op_kind op = OpKind.Push_Symbol ∧ op_symbol_prefix op = Function_Prefix →
    Exists (λ e, w_id e.2 = op_ival op ∧ w_kind e.2 = WordKind.Function) (map_to_list ws)).

Definition program_addresses (g : Generation_Info) : bool :=
  forallb (address_known (words g)) (main g) &&
  forallb (λ e, forallb (address_known (words g)) (w_function_body e.2)) (map_to_list (words g)).

Lemma address_known_word ws op :
  address_known ws op = true → op_kind op = OpKind.Push_Symbol → op_symbol_prefix op = Function_Prefix →
  ∃ name w, ws !! name = Some w ∧ w_id w = op_ival op ∧ w_kind w = WordKind.Function.
Proof.
  intros H%bool_decide_eq_true Hk Hp. destruct (proj1 (list.Exists_exists _ _) (H (conj Hk Hp))) as ([name w] & Hin & Hid & Hf).
  exists name, w. split_and!; [by apply elem_of_map_to_list|done|done].
Qed.

Lemma symbol_resolved_known ws ss op : symbol_resolved ws ss op → address_known ws op = true → symbol_known ws ss op.
Proof.
  intros Hs Ha Hk. specialize (Hs Hk). case_decide; [done|]. destruct Hs as (name & w & Hw & Hid & [Hp|Hp]).
  - exists name, w. tauto.
  - destruct (address_known_word _ _ Ha Hk Hp) as (name' & w' & Hw' & Hid' & Hf). exists name', w'. tauto.
Qed.

Lemma program_symbols_known g :
  bodies_all (symbol_resolved (words g) (strings g)) g → program_addresses g = true → program_symbols g.
Proof.
  intros [Hm Hws] [Ham Haws]%andb_true_iff.
  assert (∀ body, Forall (symbol_resolved (words g) (strings g)) body → forallb (address_known (words g)) body = true →
    Forall (symbol_known (words g) (strings g)) body) as Hbody.
  { intros body H1 H2. induction H1 as [|op body Hop _ IH]; [constructor|]. apply andb_true_iff in H2 as [? ?].
    constructor; [by apply symbol_resolved_known|by apply IH]. }
  split; [by apply Hbody|]. intros name w Hw Hk. apply Hbody; [by apply (Hws name)|].
  rewrite forallb_forall in Haws. apply (Haws (name, w)). by apply list_elem_of_In, elem_of_map_to_list.
Qed.

(** ** The table the driver registers *)

(** The table of words before the translation: intrinsics with their names, no
    bodies, and functions with identifiers of their own. *)
Record registered (words0 : Words) : Prop := {
  registered_intrinsics : intrinsics_named words0;
  registered_bodies : ∀ name w, words0 !! name = Some w → w_function_body w = [];
  registered_ids : functions_unique words0;
}.

Definition word_registered (name : string) (w : Word) : Prop :=
  w_function_body w = [] ∧
  (w_kind w = WordKind.Intrinsic → (name, w_intrinsic w) ∈ intrinsic_names ∧ w_id w = 0).

#[local] Instance word_registered_dec name w : Decision (word_registered name w).
Proof. unfold word_registered. apply _. Defined.

Lemma intrinsics_registered :
  map_Forall (λ name w, word_registered name w ∧ w_kind w = WordKind.Intrinsic) (register_intrinsics ∅).
Proof. apply (bool_decide_unpack _). vm_compute. reflexivity. Qed.

Lemma registers_words r r' : registers r r' → map_Forall word_registered (reg_words r) → map_Forall word_registered (reg_words r').
Proof.
  intros [|n f r1 Hw _ Hf] Hr; [done|]. unfold define_word. cbn [reg_words]. rewrite Hw.
  intros name w. rewrite lookup_insert. case_decide; [|apply Hr]. intros [= <-].
  destruct (Hf (default new_Word (reg_words r !! n))) as (_ & Hk & Hb). split; [|by intros].
  rewrite Hb. destruct (reg_words r !! n) as [w'|] eqn:Hn; [apply (Hr _ _ Hn)|done].
Qed.

(** The first word that is defined shares its identifier with the intrinsics. *)
Definition first_not_function (words0 : Words) : Prop :=
  map_Forall (λ _ w, w_kind w = WordKind.Function → w_id w ≠ 0) words0.

Lemma register_definitions_registered warn tokens l tokens' r :
  Z.of_nat (length tokens) < 2 ^ 64 →
  register_definitions warn tokens (mk_Registry (register_intrinsics ∅) 0 0) = (l, Done (tokens', r)) →
  first_not_function (reg_words r) → registered (reg_words r).
Proof.
  intros Hlen H. revert H. generalize intrinsics_registered.
  generalize (register_intrinsics ∅). intros words0 Hi H Hfirst.
  assert (map_Forall word_registered (reg_words r)) as Hwords.
  { eapply (register_loop_invariant (λ r, map_Forall word_registered (reg_words r))); [by intros; eapply registers_words| |exact H].
    intros name w Hw. by apply Hi. }
  destruct (register_loop_ok warn (seq 0 (length tokens)) tokens (mk_Registry words0 0 0) l tokens' r)
    as (_ & _ & Hinj); [|cbn; lia|rewrite length_seq; cbn; lia|exact H|].
  { split; cbn [reg_words]; intros *; [intros Hw Hk|intros Hw _ Hk]; destruct Hk; by destruct (Hi _ _ Hw). }
  split.
  - intros name w Hw Hk. by apply (Hwords _ _ Hw).
  - intros name w Hw. apply (Hwords _ _ Hw).
  - intros n1 n2 w1 w2 H1 H2 Hk Hid. destruct (decide (w_kind w2 = WordKind.Intrinsic)) as [Hi2|Hi2].
    { destruct (Hwords _ _ H2) as [_ Hz]. destruct (Hz Hi2) as [_ Hid0]. destruct (Hfirst _ _ H1 Hk). congruence. }
    apply (Hinj n1 n2 w1 w2); [done|done|by rewrite Hk|done|done].
Qed.

(** ** Properties *)


(** The operations of the sample program. *)
Definition sample_parsed : Generation_Info :=
  match parse_tokens sample_options sample_tokens with
  | (_, Done g) => g
  | _ => mk_Generation_Info ∅ ∅ [] ∅ ∅
  end.

